(* ===== verification/_CoqProject ===== *)
-Q . S2P
Prelude.v
Order.v
Testing.v
Arena.v
ArenaInv.v
Book.v
BookSpec.v
BookInv.v
Matching.v
MatchingSpec.v
MatchingInv.v
Matcher.v
ArenaTests.v
BookTests.v
MatchingTests.v
MatchingProps.v
BookModel.v
BookModelThm.v
Protocol.v
ProtocolInv.v
ProtocolThm.v
ProtocolTests.v
Engine.v
EngineThm.v
EngineBounds.v
Wal.v
WalInv.v
WalThm.v
WalDamage.v
WalTests.v
Snapshot.v
SnapshotInv.v
SnapshotTests.v
Recovery.v
RecoveryInv.v
RecoveryTests.v
RecoveryThm.v
Crc32.v
CrashModel.v
CrashThm.v
Ring.v
RingInv.v
RingThm.v
RingTests.v
RingModel.v
RingMem.v
RingMemInv.v
RingMemThm.v
LoomDrops.v
Gateway.v
GatewayInv.v
GatewayThm.v
Sessions.v
Fuzz.v
Server.v
ServerInv.v
ServerThm.v
Subscriber.v
AllocTrack.v
Metrics.v
MetricsTests.v
Display.v
Loadgen.v
LoadgenThm.v
Throughput.v
Mains.v
Report.v
Programs.v
TcpMode.v
GatewayTests.v
