(* ===== verification/Prelude.v ===== *)
(** * Ferrox: a verified model of the order matching engine

    Ferrox is a limit order matching engine in Rust.  A client sends binary
    messages over TCP; a reader thread ([src/gateway.rs], [handle_client])
    decodes them ([src/protocol.rs]) and pushes the commands into a lock-free
    single-producer single-consumer ring ([src/ring.rs]); the matching thread
    ([matching_loop]) pops them, appends each to a write-ahead log
    ([src/wal.rs]), executes it on the matching engine ([src/matching.rs]) over
    the order book ([src/book.rs]) and its node arena ([src/arena.rs]), publishes
    one datagram per fill, and now and then saves a snapshot of the book
    ([src/snapshot.rs]).  After a restart [src/recovery.rs] rebuilds the engine from
    the newest valid snapshot and the log records after it.

    ** Files

    Each component has a file of definitions translated from the source, a file
    [...Inv] of invariants and lemmas, and a file [...Thm] of its properties with
    their witnesses; [...Spec] holds abstract specifications.

    - [Prelude] (this file): machine integers, [result], panics as [option],
      vectors, slices, ordered maps, and the lemmas all components share.
    - [Order]: [Side], [Order], [Order::new].
    - [Arena], [ArenaInv]: node storage, free list, the intrusive doubly linked
      list of a price level.  The invariant describes both as lists of slots
      (segments of the next/prev chains), and each operation by its effect on them.
    - [Book], [BookSpec], [BookInv]: the order book.  [BookSpec.SpecBook] is the
      abstract book, one list of orders per side in price-time priority;
      [BookInv.represents] relates it to levels, index, arena and best prices.
    - [Matching], [MatchingSpec], [MatchingInv]: [add_order], [cancel_order],
      [restore_from_orders] and their specification [spec_add], [spec_cancel].
    - [Matcher]: the interface of a price-time priority matcher as a class with its
      laws; the engine, the abstract book and the reference book of the tests are
      instances, and what follows from the laws is proved once.
    - [Engine], [EngineThm]: sequences of commands; refinement of the abstract
      book, conservation, priority, errors, cancel, restore.
    - [Protocol], [ProtocolInv], [ProtocolThm]: all codecs; layouts, round trips and
      exactly what the decoder accepts.
    - [Wal], [WalInv], [WalThm]: the log as the content of its file; records,
      reopening, growth, damage and truncation.
    - [Snapshot], [SnapshotInv]; [Recovery], [RecoveryInv], [RecoveryThm]: snapshots as
      files of a directory, restart from snapshot and log, crash consistency.
    - [Ring], [RingInv], [RingThm]: the ring at the granularity of its accesses to
      shared memory, as a step relation on the two threads.
    - [RingMem], [RingMemInv], [RingMemThm]: the same machine with the memory
      orderings of the build as vector clocks, the access tracking of the loom
      build, the [cfg] experiments and the reference counting of [Shared].
    - [Gateway], [GatewayInv], [GatewayThm]: reading a client, executing and
      publishing commands, the matching loop with its snapshots, start-up.
    - [Server], [ServerInv], [ServerThm]: the two threads of [run] together with the
      ring and the shutdown flag, as a step relation.
    - [EngineBounds], [WalDamage], [Sessions]: results across components: loop and
      index bounds, overwritten records, servers restarted any number of times.
    - [Subscriber], [Mains]: the receiving end of the reports
      ([examples/subscriber.rs], [examples/relay.rs]); [run] as a step relation over
      [Server], with its failing calls, the spawn and the join; [main] and what
      the programs read from their environment.
    - [Loadgen], [LoadgenThm], [Throughput], [Report]: [examples/loadgen.rs],
      [examples/ring_throughput.rs], [scripts/asm_probe.rs] and what they print.
    - [Programs], [TcpMode]: the [main] functions of these tools with everything they
      print, and the end-to-end mode of the load generator composed with the
      gateway and the matching loop it measures.
    - [AllocTrack], [Metrics], [Display]: allocation statistics, the latency
      recorder, and the texts of the errors.
    - [Fuzz]: the targets of [fuzz/fuzz_targets] as functions that say which of
      their assertions hold.
    - [Testing], [ArenaTests], [BookTests], [MatchingTests], [MatchingProps],
      [ProtocolTests], [WalTests], [SnapshotTests], [RecoveryTests], [RingTests],
      [MetricsTests], [GatewayTests]: the inline tests of the source as executable
      definitions under their own names, each proved to pass; those with
      generated inputs or threads for every input and interleaving.
    - [BookModel], [BookModelThm], [RingModel]: the reference models of
      [tests/book_model.rs] and [tests/ring_model.rs] and the two-thread run of
      [tests/loom_ring.rs], and that engine and ring agree with them;
      [LoomDrops]: its test that unconsumed values are dropped exactly once.
    - [Crc32]: CRC-32 of IEEE 802.3 bit by bit: every changed byte is detected, and
      a fast way to add a run of zeroes.
    - [CrashModel], [CrashThm]: [tests/crash_recovery.rs]: its command stream, its
      oracle for a cut or damaged directory, the writer process killed at any of
      its kill points, and that every check it makes succeeds.

    ** How the code is modelled

    A struct is a record with the same fields, an enum an inductive type.  A
    method takes the state and returns the new state and its result; on an
    early return the state is the one left behind.  Fixed-width integers are [Z]
    with the wrap-around of a release build written out where arithmetic can
    overflow; the counters of the log, which are bounded by the file, are not
    wrapped ([WalInv] proves the bound).  An index out of range, an arithmetic
    slice error or an exhausted loop bound is [None], so that every theorem of
    the form [f x = Some y] also says that the code does not panic.  [BTreeMap] and
    [HashMap] are finite maps; the key order of [BTreeMap] is the sorted list of
    keys.  System calls that can fail are arguments that say how they end; the
    socket, the clock and the scheduler are inputs of the definitions.

    Code that is not in the repository is a parameter: the checksum ([crc32fast])
    and the serializer ([bincode]) in the class [Snapshot.Codec] with the laws
    [CodecLaws] (a checksum is a u32; deserializing a serialized snapshot gives it
    back), the histogram crate in [Metrics.Histogram].  Only the fault injection on
    the log needs to know which checksum it is: there a hypothesis says that it is
    the documented one, [Crc32.crc32_ieee].  [RecoveryThm.demo_codec] is an
    instance with which the witnesses evaluate.

    Loops that are not structural take fuel.  The matching loop gets one step
    more than the book has orders (every step but the last fills a maker); a walk
    over a level one more than the arena has slots; scanning and iterating the log
    one more than the file has bytes; reading a client one more than the bytes
    received; dropping the ring one more than its capacity.  The theorems prove
    that each is enough: they state results, not "if it returns".

    Cursor loads of the ring may return any value not older than what the same
    thread has seen (acquire loads may be stale), and the two threads interleave
    between any two accesses to shared memory.  In [Ring] slots are plain memory;
    [RingMem] adds to every store of a cursor the clock of its thread, which a
    load gets only with acquire ordering from a release store, and refuses an
    access to a slot that is not ordered after the earlier accesses to it: what
    is a data race in Rust is a stuck state, and [RingMemThm] proves there is none.

    ** What the theorems show

    - Engine: the implementation refines the abstract price-time priority book
      for every sequence of commands; quantities are conserved; no crossed book;
      index, arena and levels agree; every error and its effect.
    - Log: appended commands are read back; opening keeps the longest valid
      prefix and zeroes the rest; cuts and damage lose only whole records at
      the end; a failed append changes no record.
    - Snapshots and recovery: save is atomic; the newest valid one is loaded;
      recovery restores the live book up to time stamps (the log does not store
      them) and the engine then answers as the live one would; recovery
      after a cut gives a prefix state; undecodable records are refused.
    - Ring: FIFO, no access to a wrong slot, no data race with the orderings of
      every build but the relaxed experiment (which does race), freed exactly
      once with exactly the values left.
    - Gateway and server: framing, typed commands, execution in order with one
      decodable report per fill of an order that did not end in an error,
      durability over any number of sessions, and for
      every interleaving that exactly the client's commands are executed before
      the server ends, which it always can; what [run] has done when it returns,
      early or not, and that it can always return.
    - Bounds and termination: the matching loop does one iteration per fill plus
      one, every stored index is null or a slot, the tools run to their end.
    - Reference models: the engine and the ring behave as the naive models the
      repository tests them against, on every sequence of operations.
    - Crash tests: killing the writer at any point of any number of cycles (below
      10^10 records) leaves a directory from which recovery gives the state of a
      prefix that contains every acknowledged command, unless a torn record passes
      its checksum by accident; with the seeds of the repository and CRC-32, cutting
      the log at any byte or damaging any of its bytes leaves exactly the records
      before the damage.
    - Tools: the load generator in TCP mode, the gateway it talks to and the
      matching loop behind it account for every command it sent.
    - Tests: the property tests, the fuzz oracle of the protocol and the checksums
      of the benchmark hold for all inputs.
    - [EngineThm], [RecoveryThm] and [GatewayThm] also prove, on concrete inputs, the
      behaviours that surprise: an order with the id of a resting one trades
      before it is refused, and its trades are not reported; the quantity of a
      level wraps; snapshot names sort wrongly from ten digits on; a snapshot
      ahead of its log makes later commands disappear.  [Fuzz] and [Throughput]
      give inputs on which assertions of the fuzz targets and of the benchmark
      fail although the code under test is right.

    ** What is not modelled

    Sockets and thread creation (their results are inputs) and the texts on
    standard error; what the operating system does to unflushed pages beyond cut
    and damaged files; the layout choices of the ring (cache padding, unchecked
    indexing); floating-point arithmetic and the text of floats (parameters); the
    tests of sizes, alignment and [Send]; the benchmarks under [benches/], which only
    measure time; in the crash tests the operating system's process control
    (spawning and killing the writer is the choice of a kill point).

    ** Order of work

    The engine first (arena, book, matching, sequences of commands), then
    protocol, log, snapshots and recovery, then ring, gateway and server; after
    these the memory orderings, failures while opening the log, sequences of
    sessions, the tools, the fuzz targets, the inline tests and the reference
    models; then the crash tests, the drop-counting loom test and the composition
    of the load generator with the server.  What is left is under "What is not
    modelled". *)

From stdpp Require Export prelude gmap list sorting.

#[global] Open Scope Z_scope.

(** ** Machine integers

    Rust's fixed-width integers are [Z] values kept in range; the operators
    [+], [-] on them wrap around (the shipped binary is a release build,
    where overflow checks are off). *)

Definition wrap (w z : Z) : Z := z mod 2 ^ w.

Definition u32_add (a b : Z) : Z := wrap 32 (a + b).
Definition u32_sub (a b : Z) : Z := wrap 32 (a - b).
Definition u64_add (a b : Z) : Z := wrap 64 (a + b).
Definition u64_sub (a b : Z) : Z := wrap 64 (a - b).

Definition is_u8 (z : Z) : Prop := 0 <= z < 2 ^ 8.
Definition is_u32 (z : Z) : Prop := 0 <= z < 2 ^ 32.
Definition is_u64 (z : Z) : Prop := 0 <= z < 2 ^ 64.
Definition is_i64 (z : Z) : Prop := - 2 ^ 63 <= z < 2 ^ 63.

#[global] Instance is_u8_dec z : Decision (is_u8 z).
Proof. unfold is_u8; apply _. Defined.
#[global] Instance is_u32_dec z : Decision (is_u32 z).
Proof. unfold is_u32; apply _. Defined.
#[global] Instance is_u64_dec z : Decision (is_u64 z).
Proof. unfold is_u64; apply _. Defined.
#[global] Instance is_i64_dec z : Decision (is_i64 z).
Proof. unfold is_i64; apply _. Defined.

(** ** Results and panics

    [result] is Rust's [Result].  A definition that can panic (an index out
    of range) or loop returns an [option]: [None] stands for "panics, or the
    fuel of a loop ran out", so a theorem [f x = Some y] excludes both. *)

Inductive result (A E : Type) : Type :=
| Ok (a : A)
| Err (e : E).
Arguments Ok {A E} a.
Arguments Err {A E} e.

#[global] Instance result_eq_dec `{EqDecision A, EqDecision E} : EqDecision (result A E).
Proof. solve_decision. Defined.

Definition is_ok {A E} (r : result A E) : bool :=
  match r with Ok _ => true | Err _ => false end.

Definition result_map {A B E} (f : A -> B) (r : result A E) : result B E :=
  match r with Ok a => Ok (f a) | Err e => Err e end.

(** [.map_err(f)] and the conversion done by [?]. *)
Definition map_err {A E F} (f : E -> F) (r : result A E) : result A F :=
  match r with Ok a => Ok a | Err e => Err (f e) end.

(** [Option::ok_or]. *)
Definition ok_or {A E} (e : E) (o : option A) : result A E :=
  match o with Some a => Ok a | None => Err e end.

Definition rbind {A B E} (r : result A E) (k : A -> result B E) : result B E :=
  match r with Ok a => k a | Err e => Err e end.

Declare Scope rust_scope.
Delimit Scope rust_scope with rust.
Notation "'let?' x ':=' r 'in' k" := (rbind r (fun x => k))
  (at level 10, x pattern, r at level 100, k at level 200) : rust_scope.
#[global] Open Scope rust_scope.

(** ** Vectors indexed by machine integers

    [vget l i] is [l[i as usize]] (out of range: [None], a panic); [vset]
    overwrites a slot in range and is the identity out of range, so it is
    only used after a [vget] that succeeded. *)

Definition vget {A} (l : list A) (i : Z) : option A :=
  if decide (0 <= i) then l !! Z.to_nat i else None.

Definition vset {A} (l : list A) (i : Z) (x : A) : list A :=
  if decide (0 <= i) then <[Z.to_nat i := x]> l else l.

(** ** Ordered maps: [BTreeMap<i64, V>] is a [gmap Z V] with ordered keys *)

Definition keys {V} (m : gmap Z V) : list Z := merge_sort Z.le (map_to_list m).*1.
Definition first_key {V} (m : gmap Z V) : option Z := head (keys m).
Definition last_key {V} (m : gmap Z V) : option Z := last (keys m).

(** ** Hint databases and tactics of the development *)

Create HintDb ferrox discriminated.
Create Rewrite HintDb ferrox.
#[export] Hint Unfold is_u8 is_u32 is_u64 is_i64 : ferrox.

Ltac unfold_ranges := unfold is_u8, is_u32, is_u64, is_i64 in *.

(** Case analysis on the tests and lookups of a monadic definition. *)
Ltac step_match :=
  match goal with
  | |- context [decide ?P] => destruct (decide P)
  | |- context [match ?x with _ => _ end] => destruct x eqn:?
  end.

Lemma wrap_small w z : 0 <= z < 2 ^ w -> wrap w z = z.
Proof. apply Z.mod_small. Qed.

Lemma wrap_range w z : 0 <= w -> 0 <= wrap w z < 2 ^ w.
Proof. intros. apply Z.mod_pos_bound. lia. Qed.

Lemma wrap_add_l w a b : wrap w (wrap w a + b) = wrap w (a + b).
Proof. unfold wrap. apply Zplus_mod_idemp_l. Qed.

Lemma wrap_sub_l w a b : wrap w (wrap w a - b) = wrap w (a - b).
Proof. unfold wrap. apply Zminus_mod_idemp_l. Qed.

(** ** Lemmas on vectors *)

Section vectors.
Context {A : Type}.
Implicit Types (l : list A) (x y : A) (i j : Z).

Lemma vget_Some_range l i x : vget l i = Some x -> 0 <= i < Z.of_nat (length l).
Proof.
  unfold vget. case_decide; [|done]. intros ?%lookup_lt_Some. lia.
Qed.

Lemma vget_lt_is_Some l i : 0 <= i < Z.of_nat (length l) -> is_Some (vget l i).
Proof.
  intros. unfold vget. rewrite decide_True by lia. apply lookup_lt_is_Some. lia.
Qed.

Lemma length_vset l i x : length (vset l i x) = length l.
Proof. unfold vset. case_decide; [apply length_insert | done]. Qed.

Lemma vget_vset_eq l i x y : vget l i = Some y -> vget (vset l i x) i = Some x.
Proof.
  intros Hi. pose proof (vget_Some_range _ _ _ Hi).
  unfold vget, vset. rewrite !decide_True by lia.
  apply list_lookup_insert_eq. lia.
Qed.

Lemma vget_vset_ne l i j x : i <> j -> vget (vset l i x) j = vget l j.
Proof.
  intros. unfold vget, vset. repeat case_decide; try done.
  apply list_lookup_insert_ne. lia.
Qed.

Lemma vset_vset l i x y : vset (vset l i x) i y = vset l i y.
Proof. unfold vset. case_decide; [apply list_insert_insert_eq | done]. Qed.

Lemma vget_app_l (l1 l2 : list A) i :
  i < Z.of_nat (length l1) -> vget (l1 ++ l2) i = vget l1 i.
Proof. intros. unfold vget. case_decide; [|done]. apply lookup_app_l. lia. Qed.

End vectors.

#[export] Hint Rewrite @length_vset : ferrox.

(** ** Lemmas on ordered keys *)

Section keys.
Context {V : Type}.
Implicit Types (m : gmap Z V) (k : Z).

Lemma elem_of_keys m k : k ∈ keys m <-> is_Some (m !! k).
Proof.
  unfold keys. rewrite (merge_sort_Permutation Z.le), list_elem_of_fmap. split.
  - intros [[k' v] [-> Hv%elem_of_map_to_list]]. eauto.
  - intros [v Hv]. exists (k, v). by rewrite elem_of_map_to_list.
Qed.

Lemma keys_sorted m : StronglySorted Z.le (keys m).
Proof.
  unfold keys. apply (StronglySorted_merge_sort Z.le); repeat intro; lia.
Qed.

Lemma NoDup_keys m : NoDup (keys m).
Proof.
  unfold keys. rewrite (merge_sort_Permutation Z.le). apply NoDup_fst_map_to_list.
Qed.

Lemma first_key_Some m k :
  first_key m = Some k <-> is_Some (m !! k) /\ forall k', is_Some (m !! k') -> k <= k'.
Proof.
  unfold first_key. setoid_rewrite <- elem_of_keys.
  pose proof (keys_sorted m) as Hs. destruct (keys m) as [|x l]; simpl.
  - split; [done|]. intros [[]%elem_of_nil _].
  - apply StronglySorted_inv in Hs as [_ Hx]. rewrite Forall_forall in Hx.
    split.
    + intros [= ->]. split; [left|]. intros k' [->|?]%elem_of_cons; [lia|auto].
    + intros [Hk Hmin]. f_equal. specialize (Hmin x ltac:(left)).
      apply elem_of_cons in Hk as [->|Hk]; [done|]. specialize (Hx _ Hk). lia.
Qed.

Lemma first_key_None m : first_key m = None <-> m = ∅.
Proof.
  split.
  - intros Hn. apply map_eq. intros k. rewrite lookup_empty.
    destruct (m !! k) eqn:Hk; [|done].
    assert (k ∈ keys m) as Hin by (apply elem_of_keys; eauto).
    unfold first_key in Hn. destruct (keys m); [by apply elem_of_nil in Hin | done].
  - intros ->. unfold first_key, keys. by rewrite map_to_list_empty.
Qed.

Lemma last_key_Some m k :
  last_key m = Some k <-> is_Some (m !! k) /\ forall k', is_Some (m !! k') -> k' <= k.
Proof.
  unfold last_key. setoid_rewrite <- elem_of_keys.
  pose proof (keys_sorted m) as Hs. destruct (keys m) as [|x l _] using rev_ind; simpl.
  - split; [done|]. intros [[]%elem_of_nil _].
  - rewrite last_snoc. apply StronglySorted_app in Hs as [Hs _].
    assert (forall k', k' ∈ l ++ [x] -> k' <= x) as Hmax.
    { intros k' [Hk'| ->%list_elem_of_singleton]%elem_of_app; [|lia].
      apply Hs; [done | left]. }
    split.
    + intros [= ->]. split; [apply elem_of_app; right; left | done].
    + intros [Hk Hle]. f_equal. specialize (Hmax _ Hk).
      specialize (Hle x ltac:(apply elem_of_app; right; left)). lia.
Qed.

Lemma last_key_None m : last_key m = None <-> m = ∅.
Proof.
  rewrite <- first_key_None. unfold first_key, last_key.
  destruct (keys m) as [|x l]; [done|]. split; [|done].
  intros Hl. by apply last_None in Hl.
Qed.

End keys.

(** ** Lemmas on lists *)

Lemma Forall2_impl_in {A B} (P Q : A -> B -> Prop) l k :
  Forall2 P l k -> (forall x y, x ∈ l -> P x y -> Q x y) -> Forall2 Q l k.
Proof.
  induction 1 as [|x y l k Hxy _ IH]; intros H; constructor.
  - apply H; [left|done].
  - apply IH. intros x' y' Hx'. apply H. by right.
Qed.

Lemma omap_reverse {A B} (f : A -> option B) l : reverse (omap f l) = omap f (reverse l).
Proof.
  induction l as [|x l IH]; [done|]. rewrite reverse_cons, omap_app, <- IH. simpl.
  destruct (f x); simpl; [apply reverse_cons | by rewrite app_nil_r].
Qed.

Lemma StronglySorted_reverse {A} (R : relation A) l :
  StronglySorted R l -> StronglySorted (flip R) (reverse l).
Proof.
  induction 1 as [|x l Hs IH Hx]; [constructor|]. rewrite reverse_cons.
  apply StronglySorted_app_2; [|done|repeat constructor].
  intros y z Hy ->%list_elem_of_singleton. rewrite elem_of_reverse in Hy.
  by eapply Forall_forall in Hx.
Qed.

Lemma StronglySorted_impl {A} (R R' : relation A) l :
  (forall x y, R x y -> R' x y) -> StronglySorted R l -> StronglySorted R' l.
Proof.
  intros HR. induction 1 as [|x l Hs IH Hx]; constructor; [done|].
  eapply Forall_impl; [exact Hx|]. auto.
Qed.

Lemma list_filter_all {A} (P : A -> Prop) `{!forall x, Decision (P x)} (l : list A) :
  (forall x, x ∈ l -> P x) -> filter P l = l.
Proof.
  induction l as [|x l IH]; intros HP; [done|]. rewrite filter_cons_True by (apply HP; left).
  f_equal. apply IH. intros y Hy. apply HP. by right.
Qed.

Lemma list_filter_ext {A} (P Q : A -> Prop) `{!forall x, Decision (P x)} `{!forall x, Decision (Q x)} (l : list A) :
  (forall x, x ∈ l -> P x <-> Q x) -> filter P l = filter Q l.
Proof.
  induction l as [|x l IH]; intros Heq; [done|]. rewrite !filter_cons, IH by (intros; apply Heq; by right).
  pose proof (Heq x ltac:(left)). repeat case_decide; tauto.
Qed.

Lemma list_filter_none {A} (P : A -> Prop) `{!forall x, Decision (P x)} (l : list A) :
  (forall x, x ∈ l -> ~ P x) -> filter P l = [].
Proof.
  induction l as [|x l IH]; intros HP; [done|]. rewrite filter_cons_False by (apply HP; left).
  apply IH. intros y Hy. apply HP. by right.
Qed.

(** ** Slices of byte buffers

    [slice l p n] is [&l[p..p + n]] and [splice l p new] is
    [l[p..p + new.len()].copy_from_slice(new)]; out of range they panic. *)

Definition zlen {A} (l : list A) : Z := Z.of_nat (length l).

Definition slice {A} (l : list A) (p n : Z) : option (list A) :=
  if decide (0 <= p /\ 0 <= n /\ p + n <= zlen l)
  then Some (take (Z.to_nat n) (drop (Z.to_nat p) l)) else None.

Definition splice {A} (l : list A) (p : Z) (new : list A) : option (list A) :=
  if decide (0 <= p /\ p + zlen new <= zlen l)
  then Some (take (Z.to_nat p) l ++ new ++ drop (Z.to_nat (p + zlen new)) l) else None.

Lemma zlen_app {A} (l1 l2 : list A) : zlen (l1 ++ l2) = zlen l1 + zlen l2.
Proof. unfold zlen. rewrite length_app. lia. Qed.

Lemma zlen_nonneg {A} (l : list A) : 0 <= zlen l.
Proof. unfold zlen. lia. Qed.

Lemma zlen_replicate {A} n (x : A) : zlen (replicate n x) = Z.of_nat n.
Proof. unfold zlen. by rewrite length_replicate. Qed.

Lemma slice_at {A} (l1 x l2 : list A) p n :
  p = zlen l1 -> n = zlen x -> slice (l1 ++ x ++ l2) p n = Some x.
Proof.
  intros -> ->. unfold slice. rewrite decide_True.
  - unfold zlen. by rewrite !Nat2Z.id, drop_app_length, take_app_length.
  - rewrite !zlen_app. pose proof (zlen_nonneg l1). pose proof (zlen_nonneg x).
    pose proof (zlen_nonneg l2). lia.
Qed.

Lemma splice_at {A} (l1 old new l2 : list A) p :
  p = zlen l1 -> zlen old = zlen new -> splice (l1 ++ old ++ l2) p new = Some (l1 ++ new ++ l2).
Proof.
  intros -> Hl. unfold splice. rewrite decide_True.
  - rewrite <- Hl, <- zlen_app. unfold zlen. rewrite !Nat2Z.id, take_app_length.
    rewrite (app_assoc l1 old l2). by rewrite drop_app_length.
  - rewrite !zlen_app. pose proof (zlen_nonneg l1). pose proof (zlen_nonneg l2). lia.
Qed.

Lemma slice_Some {A} (l : list A) p n x :
  slice l p n = Some x -> exists l1 l2, l = l1 ++ x ++ l2 /\ p = zlen l1 /\ n = zlen x.
Proof.
  unfold slice. case_decide as Hd; [|done]. intros [= <-].
  exists (take (Z.to_nat p) l), (drop (Z.to_nat n) (drop (Z.to_nat p) l)).
  rewrite !take_drop. unfold zlen in *. rewrite !length_take, length_drop. split; [done|lia].
Qed.

Lemma slice_is_Some {A} (l : list A) p n :
  0 <= p -> 0 <= n -> p + n <= zlen l -> is_Some (slice l p n).
Proof. intros. unfold slice. rewrite decide_True by done. eauto. Qed.

(** Two splits of one list at the same place. *)
Lemma app_zlen_inj {A} (l1 l2 k1 k2 : list A) :
  l1 ++ l2 = k1 ++ k2 -> zlen l1 = zlen k1 -> l1 = k1 /\ l2 = k2.
Proof. unfold zlen. intros H Hl. apply app_inj_1; [lia|done]. Qed.

Lemma zlen_split {A} (l : list A) n :
  0 <= n <= zlen l -> exists l1 l2, l = l1 ++ l2 /\ zlen l1 = n.
Proof.
  intros Hn. exists (take (Z.to_nat n) l), (drop (Z.to_nat n) l).
  rewrite take_drop. unfold zlen in *. rewrite length_take. split; [done|lia].
Qed.
