(* ===== verification/Order.v ===== *)
(** * Order.v: sides and orders ([src/order.rs])

    [Side], [Order] and the validating constructor [Order::new], with the
    decidable equality the derived [PartialEq] gives. *)

From S2P Require Import Prelude.

Inductive Side : Type :=
| Bid
| Ask.

#[global] Instance Side_eq_dec : EqDecision Side.
Proof. solve_decision. Defined.

(** The other side of the book. *)
Definition opposite (s : Side) : Side :=
  match s with Bid => Ask | Ask => Bid end.

Record Order : Type := mkOrder {
  o_id : Z;          (* u64 *)
  o_trader_id : Z;   (* u64 *)
  o_side : Side;
  o_price : Z;       (* i64, in ticks *)
  o_quantity : Z;    (* u64 *)
  o_timestamp : Z    (* u64 *)
}.

#[global] Instance Order_eq_dec : EqDecision Order.
Proof. solve_decision. Defined.

(** [Order::new]. *)
Definition Order_new (id trader_id : Z) (side : Side) (price quantity timestamp : Z)
  : option Order :=
  if decide (quantity = 0) then None
  else Some (mkOrder id trader_id side price quantity timestamp).

(** Every field is in the range of its Rust type. *)
Definition order_typed (o : Order) : Prop :=
  is_u64 (o_id o) /\ is_u64 (o_trader_id o) /\ is_i64 (o_price o) /\
  is_u64 (o_quantity o) /\ is_u64 (o_timestamp o).

#[global] Instance order_typed_dec o : Decision (order_typed o).
Proof. unfold order_typed; apply _. Defined.

Definition set_quantity (q : Z) (o : Order) : Order :=
  mkOrder (o_id o) (o_trader_id o) (o_side o) (o_price o) q (o_timestamp o).

Definition set_timestamp (t : Z) (o : Order) : Order :=
  mkOrder (o_id o) (o_trader_id o) (o_side o) (o_price o) (o_quantity o) t.
