(* ===== verification/Testing.v ===== *)
(** * Testing.v: the vocabulary of the crate's unit tests

    A unit test is an [option unit]: [None] when an assertion fails, an
    [unwrap] meets an error or the code under test panics, [Some tt] when the
    test passes.  Calls thread the state they mutate, as in the definitions
    they exercise. *)

From S2P Require Import Prelude.

(** [assert!(b)]. *)
Definition assert_that (b : bool) : option unit := if b then Some tt else None.

(** [assert_eq!(x, y)]. *)
Definition assert_eq `{EqDecision A} (x y : A) : option unit := assert_that (bool_decide (x = y)).

(** [assert_eq!(l[i].field, v)]; the index panics out of range. *)
Definition assert_at {A} `{EqDecision B} (l : list A) (i : Z) (field : A -> B) (v : B) : option unit :=
  x ← vget l i; assert_eq (field x) v.

(** [Result::unwrap] and [Result::unwrap_err]. *)
Definition unwrap {A E} (r : result A E) : option A := match r with Ok a => Some a | Err _ => None end.
Definition unwrap_err {A E} (r : result A E) : option E := match r with Ok _ => None | Err e => Some e end.

(** [state.f(arg).unwrap()] and [state.f(arg).unwrap_err()], where computing the
    argument may panic too. *)
Definition call {S X A E} (f : S -> X -> option (S * result A E)) (s : S) (x : option X) : option (S * A) :=
  x ← x; '(s, r) ← f s x; a ← unwrap r; Some (s, a).
Definition call_err {S X A E} (f : S -> X -> option (S * result A E)) (s : S) (x : option X) : option (S * E) :=
  x ← x; '(s, r) ← f s x; e ← unwrap_err r; Some (s, e).

(** A loop over inputs that threads a state and may panic. *)
Fixpoint for_each {S X} (f : S -> X -> option S) (s : S) (xs : list X) : option S :=
  match xs with [] => Some s | x :: xs => s ← f s x; for_each f s xs end.

(** A suite passes when each of its tests does. *)
Definition suite_passes (tests : list (option unit)) : Prop := Forall (fun t => t = Some tt) tests.

(** The tests are evaluated one by one, by need: an arena of a million free
    slots is never built beyond the slots a test uses. *)
Ltac run_suite := unfold suite_passes; repeat (apply List.Forall_cons; [reflexivity|]); apply List.Forall_nil.

Lemma assert_that_pass b : b = true -> assert_that b = Some tt.
Proof. by intros ->. Qed.

Lemma assert_eq_pass `{EqDecision A} (x y : A) : x = y -> assert_eq x y = Some tt.
Proof. intros ->. unfold assert_eq. by rewrite bool_decide_eq_true_2. Qed.

(** One assertion of a sequence. *)
Lemma assert_eq_seq `{EqDecision A} {B} (x y : A) (k : option B) : x = y -> (assert_eq x y;; k) = k.
Proof. intros H. by rewrite assert_eq_pass. Qed.

Lemma for_each_app {S X} (f : S -> X -> option S) s xs ys :
  for_each f s (xs ++ ys) = (for_each f s xs ≫= fun s => for_each f s ys).
Proof. revert s. induction xs as [|x xs IH]; intros s; [done|]. cbn. destruct (f s x); [apply IH | done]. Qed.
