(* ===== verification/Arena.v ===== *)
(** * Arena.v: the order arena and its intrusive lists ([src/arena.rs])

    A fixed vector of nodes holds every resting order.  Free slots are chained
    through [next] from [free_head]; the orders of a price level form a doubly
    linked list through [prev]/[next] between the level's [head] and [tail]. *)

From S2P Require Import Prelude.
From S2P Require Import Order.

Inductive ArenaError : Type :=
| Full.

Definition ARENA_NULL : Z := 2 ^ 32 - 1.

Definition DEFAULT_CAPACITY : Z := 1048576.

(** The source also has a 15-byte [_pad] field, always zero and never read. *)
Record OrderNode : Type := mkNode {
  n_id : Z;
  n_trader_id : Z;
  n_price : Z;
  n_quantity : Z;
  n_timestamp : Z;
  n_prev : Z;       (* u32 *)
  n_next : Z;       (* u32 *)
  n_side : Side
}.

Definition zeroed : OrderNode := mkNode 0 0 0 0 0 ARENA_NULL ARENA_NULL Bid.

Definition from_order (order : Order) : OrderNode :=
  mkNode (o_id order) (o_trader_id order) (o_price order) (o_quantity order)
         (o_timestamp order) ARENA_NULL ARENA_NULL (o_side order).

Definition to_order (n : OrderNode) : Order :=
  mkOrder (n_id n) (n_trader_id n) (n_side n) (n_price n) (n_quantity n) (n_timestamp n).

(** Assignments to one field of a node. *)
Definition set_prev (p : Z) (n : OrderNode) : OrderNode :=
  mkNode (n_id n) (n_trader_id n) (n_price n) (n_quantity n) (n_timestamp n) p (n_next n) (n_side n).
Definition set_next (x : Z) (n : OrderNode) : OrderNode :=
  mkNode (n_id n) (n_trader_id n) (n_price n) (n_quantity n) (n_timestamp n) (n_prev n) x (n_side n).
Definition set_node_quantity (q : Z) (n : OrderNode) : OrderNode :=
  mkNode (n_id n) (n_trader_id n) (n_price n) q (n_timestamp n) (n_prev n) (n_next n) (n_side n).

Record PriceLevel : Type := mkLevel {
  l_head : Z;    (* u32 *)
  l_tail : Z;    (* u32 *)
  l_count : Z;   (* u32 *)
  l_qty : Z      (* u64 *)
}.

Definition PriceLevel_new : PriceLevel := mkLevel ARENA_NULL ARENA_NULL 0 0.

Definition set_head (h : Z) (l : PriceLevel) : PriceLevel :=
  mkLevel h (l_tail l) (l_count l) (l_qty l).
Definition set_tail (t : Z) (l : PriceLevel) : PriceLevel :=
  mkLevel (l_head l) t (l_count l) (l_qty l).

Record Arena : Type := mkArena {
  a_storage : list OrderNode;
  a_free_head : Z;   (* u32 *)
  a_count : Z;       (* u32 *)
  a_capacity : Z     (* u32 *)
}.

(** [Arena::new]: slot [i] points to slot [i + 1], the last one to null. *)
Definition Arena_new (capacity : Z) : Arena :=
  mkArena
    ((fun i => set_next (if decide (i + 1 < capacity) then i + 1 else ARENA_NULL) zeroed)
       <$> seqZ 0 capacity)
    (if decide (0 < capacity) then 0 else ARENA_NULL)
    0 capacity.

Definition default_capacity : Z := DEFAULT_CAPACITY.
Definition count (a : Arena) : Z := a_count a.

(** [self.storage[i as usize]], [None] when out of bounds. *)
Definition get (a : Arena) (index : Z) : option OrderNode :=
  vget (a_storage a) index.

(** An assignment through [self.storage[i as usize]] (also [get_mut]). *)
Definition update (a : Arena) (index : Z) (f : OrderNode -> OrderNode) : option Arena :=
  n ← get a index;
  Some (mkArena (vset (a_storage a) index (f n)) (a_free_head a) (a_count a) (a_capacity a)).

Definition alloc (a : Arena) (order : Order) : option (Arena * result Z ArenaError) :=
  if decide (a_free_head a = ARENA_NULL) then Some (a, Err Full)
  else
    let index := a_free_head a in
    n ← get a index;
    a' ← update a index (fun _ => from_order order);
    Some (mkArena (a_storage a') (n_next n) (u32_add (a_count a) 1) (a_capacity a), Ok index).

Definition dealloc (a : Arena) (index : Z) : option Arena :=
  a' ← update a index (set_next (a_free_head a));
  Some (mkArena (a_storage a') index (u32_sub (a_count a) 1) (a_capacity a)).

Definition push_back (a : Arena) (level : PriceLevel) (index : Z)
  : option (Arena * PriceLevel) :=
  n ← get a index;
  let quantity := n_quantity n in
  '(a, level) ←
    (if decide (l_tail level ≠ ARENA_NULL) then
       let old_tail := l_tail level in
       a ← update a old_tail (set_next index);
       a ← update a index (set_prev old_tail);
       Some (a, level)
     else
       a ← update a index (set_prev ARENA_NULL);
       Some (a, set_head index level));
  a ← update a index (set_next ARENA_NULL);
  Some (a, mkLevel (l_head level) index (u32_add (l_count level) 1)
                   (u64_add (l_qty level) quantity)).

Definition pop_front (a : Arena) (level : PriceLevel)
  : option (Arena * PriceLevel * option Z) :=
  if decide (l_head level = ARENA_NULL) then Some (a, level, None)
  else
    let index := l_head level in
    n ← get a index;
    let next := n_next n in
    let quantity := n_quantity n in
    '(a, level) ←
      (if decide (next ≠ ARENA_NULL) then
         a ← update a next (set_prev ARENA_NULL);
         Some (a, set_head next level)
       else Some (a, set_tail ARENA_NULL (set_head ARENA_NULL level)));
    Some (a, mkLevel (l_head level) (l_tail level) (u32_sub (l_count level) 1)
                     (u64_sub (l_qty level) quantity), Some index).

Definition remove (a : Arena) (level : PriceLevel) (index : Z)
  : option (Arena * PriceLevel) :=
  n ← get a index;
  let prev_idx := n_prev n in
  let next_idx := n_next n in
  let quantity := n_quantity n in
  '(a, level) ←
    (if decide (prev_idx ≠ ARENA_NULL) then
       a ← update a prev_idx (set_next next_idx);
       Some (a, level)
     else Some (a, set_head next_idx level));
  '(a, level) ←
    (if decide (next_idx ≠ ARENA_NULL) then
       a ← update a next_idx (set_prev prev_idx);
       Some (a, level)
     else Some (a, set_tail prev_idx level));
  Some (a, mkLevel (l_head level) (l_tail level) (u32_sub (l_count level) 1)
                   (u64_sub (l_qty level) quantity)).
