(* ===== verification/ArenaInv.v ===== *)
(** * ArenaInv.v: what the arena's operations do to its linked lists

    Representation predicates for [src/arena.rs]: [seg] says that a list of
    slot numbers is a doubly linked segment of the storage, [free_chain] that
    a list of slots is the free list, [level_of] gives the [PriceLevel] of a
    queue.  One specification lemma per operation of [Arena.v]. *)

From S2P Require Import Prelude.
From S2P Require Import Order.
From S2P Require Import Arena.

(** ** Representation predicates *)

(** The order stored in a slot. *)
Definition order_at (st : list OrderNode) (i : Z) : option Order := to_order <$> vget st i.

(** [ixs] is a doubly linked segment entered from [p] and left to [nx]. *)
Fixpoint seg (st : list OrderNode) (p : Z) (ixs : list Z) (nx : Z) : Prop :=
  match ixs with
  | [] => True
  | i :: ixs' =>
      (exists n, vget st i = Some n /\ n_prev n = p /\ n_next n = default nx (head ixs')) /\
      seg st i ixs' nx
  end.

Fixpoint free_chain (st : list OrderNode) (h : Z) (l : list Z) : Prop :=
  match l with
  | [] => h = ARENA_NULL
  | i :: l' => h = i /\ exists n, vget st i = Some n /\ free_chain st (n_next n) l'
  end.

Definition sum_qty (os : list Order) : Z := foldr (fun o s => o_quantity o + s) 0 os.

(** The level of the queue of slots [l] holding the orders [os]. *)
Definition level_of (l : list Z) (os : list Order) : PriceLevel :=
  mkLevel (default ARENA_NULL (head l)) (default ARENA_NULL (last l))
          (wrap 32 (Z.of_nat (length l))) (wrap 64 (sum_qty os)).

(** [st'] differs from [st] only in the links of the slots in [l]. *)
Definition relinked (l : list Z) (st st' : list OrderNode) : Prop :=
  length st' = length st /\
  (forall j, order_at st' j = order_at st j) /\
  (forall j, j ∉ l -> vget st' j = vget st j).

Definition with_storage (a : Arena) (st : list OrderNode) : Arena :=
  mkArena st (a_free_head a) (a_count a) (a_capacity a).

(** Every slot number is a u32 other than the null index. *)
Definition addressable (st : list OrderNode) : Prop := Z.of_nat (length st) <= ARENA_NULL.

(** ** Frames *)

Lemma relinked_refl l st : relinked l st st.
Proof. repeat split; auto. Qed.

Lemma relinked_trans l st1 st2 st3 :
  relinked l st1 st2 -> relinked l st2 st3 -> relinked l st1 st3.
Proof.
  intros (H1 & H2 & H3) (H4 & H5 & H6). repeat split; [congruence| |]; intros.
  - by rewrite H5.
  - by rewrite H6, H3.
Qed.

Lemma relinked_mono l l' st st' : (forall j, j ∈ l -> j ∈ l') -> relinked l st st' -> relinked l' st st'.
Proof. intros Hl (H1 & H2 & H3). repeat split; eauto. Qed.

Lemma relinked_vset l st i n n' :
  vget st i = Some n -> to_order n' = to_order n -> i ∈ l ->
  relinked l st (vset st i n').
Proof.
  intros Hn Hf Hi. repeat split.
  - apply length_vset.
  - intros j. unfold order_at. destruct (decide (i = j)) as [<-|].
    + rewrite (vget_vset_eq _ _ _ _ Hn), Hn. simpl. by rewrite Hf.
    + by rewrite vget_vset_ne.
  - intros j Hj. apply vget_vset_ne. intros ->. done.
Qed.

Lemma update_get a i f n :
  get a i = Some n -> update a i f = Some (with_storage a (vset (a_storage a) i (f n))).
Proof. intros H. unfold update. by rewrite H. Qed.

Lemma get_not_null a i n : addressable (a_storage a) -> get a i = Some n -> i <> ARENA_NULL.
Proof. intros Ha Hn%vget_Some_range. unfold addressable in Ha. lia. Qed.

(** ** Segments *)

Lemma seg_frame st st' p l nx :
  (forall i, i ∈ l -> vget st' i = vget st i) -> seg st p l nx -> seg st' p l nx.
Proof.
  revert p. induction l as [|i l IH]; intros p Hf; simpl; [done|].
  intros [(n & Hn & Hl) Hs]. split.
  - exists n. rewrite Hf by left. auto.
  - apply IH; [|done]. intros. apply Hf. by right.
Qed.

Lemma seg_relinked st st' l' p l nx :
  relinked l' st st' -> (forall i, i ∈ l -> i ∉ l') -> seg st p l nx -> seg st' p l nx.
Proof. intros (_ & _ & H) Hd. apply seg_frame. auto. Qed.

Lemma seg_vset_ne st p l nx i n :
  i ∉ l -> seg st p l nx -> seg (vset st i n) p l nx.
Proof. intros Hi. apply seg_frame. intros j Hj. apply vget_vset_ne. by intros ->. Qed.

Lemma seg_app st p l1 l2 nx :
  seg st p (l1 ++ l2) nx <->
  seg st p l1 (default nx (head l2)) /\ seg st (default p (last l1)) l2 nx.
Proof.
  revert p. induction l1 as [|i l1 IH]; intros p; simpl; [tauto|].
  rewrite IH, last_cons.
  replace (default nx (head (l1 ++ l2))) with (default (default nx (head l2)) (head l1))
    by (by destruct l1).
  replace (default p (match last l1 with Some y => Some y | None => Some i end))
    with (default i (last l1)) by (by destruct (last l1)).
  tauto.
Qed.

Lemma seg_get st p l nx i : seg st p l nx -> i ∈ l -> is_Some (vget st i).
Proof.
  revert p. induction l as [|j l IH]; intros p; simpl; [by intros _ ?%elem_of_nil|].
  intros [(n & Hn & _) Hs] [->|Hi]%elem_of_cons; [eauto | by eapply IH].
Qed.

Lemma seg_not_null st p l nx i : addressable st -> seg st p l nx -> i ∈ l -> i <> ARENA_NULL.
Proof.
  intros Ha Hs Hi. destruct (seg_get _ _ _ _ _ Hs Hi) as [n Hn%vget_Some_range].
  unfold addressable in Ha. lia.
Qed.

Lemma seg_length st p l nx : NoDup l -> seg st p l nx -> (length l <= length st)%nat.
Proof.
  intros Hnd Hs.
  transitivity (length (Z.to_nat <$> l)); [by rewrite length_fmap|].
  transitivity (length (seq 0 (length st))); [|by rewrite length_seq].
  apply submseteq_length, NoDup_submseteq.
  - apply NoDup_fmap_2_strong; [|done]. intros x y Hx Hy Heq.
    destruct (seg_get _ _ _ _ _ Hs Hx) as [? ?%vget_Some_range].
    destruct (seg_get _ _ _ _ _ Hs Hy) as [? ?%vget_Some_range]. lia.
  - intros k (i & -> & Hi)%list_elem_of_fmap. apply elem_of_seq.
    destruct (seg_get _ _ _ _ _ Hs Hi) as [? ?%vget_Some_range]. lia.
Qed.

(** Redirecting the exit of a segment: the last node's [next]. *)
Lemma seg_set_next_last st p l i nx nx' :
  i ∉ l -> seg st p (l ++ [i]) nx ->
  exists n, vget st i = Some n /\ seg (vset st i (set_next nx' n)) p (l ++ [i]) nx'.
Proof.
  intros Hi (H1 & (n & Hn & Hp & _) & _)%seg_app. exists n. split; [done|].
  apply seg_app. split.
  - simpl. by apply seg_vset_ne.
  - simpl. split; [|done]. exists (set_next nx' n).
    rewrite (vget_vset_eq _ _ _ _ Hn). auto.
Qed.

(** Redirecting the entry of a segment: the first node's [prev]. *)
Lemma seg_set_prev_head st p p' l i nx :
  i ∉ l -> seg st p (i :: l) nx ->
  exists n, vget st i = Some n /\ seg (vset st i (set_prev p' n)) p' (i :: l) nx.
Proof.
  intros Hi [(n & Hn & _ & Hx) Hs]. exists n. split; [done|]. simpl. split.
  - exists (set_prev p' n). rewrite (vget_vset_eq _ _ _ _ Hn). auto.
  - by apply seg_vset_ne.
Qed.

Lemma seg_singleton st i n :
  vget st i = Some n -> seg (vset st i (set_next ARENA_NULL (set_prev ARENA_NULL n)))
                            ARENA_NULL [i] ARENA_NULL.
Proof.
  intros Hn. simpl. split; [|done]. eexists. rewrite (vget_vset_eq _ _ _ _ Hn). auto.
Qed.

(** ** Quantities of a level *)

Lemma sum_qty_app os1 os2 : sum_qty (os1 ++ os2) = sum_qty os1 + sum_qty os2.
Proof. induction os1; simpl; lia. Qed.

Lemma sum_qty_middle os1 o os2 :
  sum_qty (os1 ++ o :: os2) = sum_qty (os1 ++ os2) + o_quantity o.
Proof. rewrite !sum_qty_app. simpl. lia. Qed.

Lemma qty_sub_middle os1 o os2 :
  u64_sub (wrap 64 (sum_qty (os1 ++ o :: os2))) (o_quantity o) = wrap 64 (sum_qty (os1 ++ os2)).
Proof. unfold u64_sub. rewrite wrap_sub_l, sum_qty_middle. f_equal. lia. Qed.

Lemma count_sub_middle {A} (l1 : list A) i l2 :
  u32_sub (wrap 32 (Z.of_nat (length (l1 ++ i :: l2)))) 1 = wrap 32 (Z.of_nat (length (l1 ++ l2))).
Proof. unfold u32_sub. rewrite wrap_sub_l, !length_app. simpl. f_equal. lia. Qed.

(** ** The operations *)

Lemma push_back_spec a l os i o :
  addressable (a_storage a) -> seg (a_storage a) ARENA_NULL l ARENA_NULL ->
  NoDup l -> i ∉ l -> order_at (a_storage a) i = Some o ->
  exists st', push_back a (level_of l os) i = Some (with_storage a st', level_of (l ++ [i]) (os ++ [o])) /\
    seg st' ARENA_NULL (l ++ [i]) ARENA_NULL /\ relinked (l ++ [i]) (a_storage a) st'.
Proof.
  intros Ha Hs Hnd Hi Ho.
  apply fmap_Some in Ho as (n & Hn & ->).
  assert (forall os', u64_add (wrap 64 (sum_qty os')) (n_quantity n) =
                 wrap 64 (sum_qty (os' ++ [to_order n]))) as Hq.
  { intros. unfold u64_add. rewrite wrap_add_l, sum_qty_app. simpl. f_equal. lia. }
  assert (forall l' : list Z, u32_add (wrap 32 (Z.of_nat (length l'))) 1 =
                 wrap 32 (Z.of_nat (length (l' ++ [i])))) as Hc.
  { intros. unfold u32_add. rewrite wrap_add_l, length_app. simpl. f_equal. lia. }
  unfold push_back. unfold get at 1. rewrite Hn; simpl.
  unfold level_of; simpl. rewrite last_snoc, <- Hq, <- Hc.
  destruct l as [|t l _] using rev_ind.
  - simpl. rewrite (update_get _ _ _ _ Hn). simpl.
    erewrite update_get by (unfold get; simpl; by eapply vget_vset_eq). simpl.
    rewrite vset_vset. eexists. split; [reflexivity|]. split.
    + by apply seg_singleton.
    + eapply relinked_vset; [exact Hn|done|left].
  - apply NoDup_app in Hnd as (Hnd & Hlt & _).
    assert (t ∉ l) as Htl by (intros Ht; apply (Hlt _ Ht); left).
    assert (i <> t) as Hit by (intros ->; apply Hi, elem_of_app; right; left).
    destruct (seg_set_next_last _ _ _ _ _ i Htl Hs) as (nt & Hnt & Hs').
    rewrite last_snoc. simpl.
    rewrite decide_True by (by eapply get_not_null).
    rewrite (update_get _ _ _ _ Hnt). simpl.
    assert (vget (vset (a_storage a) t (set_next i nt)) i = Some n) as Hn'
      by (rewrite vget_vset_ne; done).
    erewrite (update_get _ i) by exact Hn'. simpl.
    erewrite update_get by (unfold get; simpl; by eapply vget_vset_eq). simpl.
    rewrite vset_vset. eexists. split.
    { replace (head ((l ++ [t]) ++ [i])) with (head (l ++ [t])) by (by destruct l). reflexivity. }
    split.
    + apply seg_app. split.
      * by apply seg_vset_ne.
      * rewrite last_snoc. simpl. split; [|done].
        eexists. rewrite (vget_vset_eq _ _ _ _ Hn'). auto.
    + eapply relinked_trans; [|eapply relinked_vset; [exact Hn'|done|]; set_solver].
      eapply relinked_vset; [exact Hnt|done|]. set_solver.
Qed.

Lemma head_app_default {A} (d : A) l1 i l2 :
  default d (head (l1 ++ i :: l2)) = default i (head l1).
Proof. by destruct l1. Qed.

(** Unlinking the middle node of [l1 ++ i :: l2]: the previous node's [next]
    and the next node's [prev] are redirected around it. *)
Lemma unlink_prev a l1 i nx :
  addressable (a_storage a) -> NoDup l1 -> seg (a_storage a) ARENA_NULL l1 i ->
  exists st', seg st' ARENA_NULL l1 nx /\ relinked l1 (a_storage a) st' /\
    forall level,
    (if decide (default ARENA_NULL (last l1) ≠ ARENA_NULL) then
       a' ← update a (default ARENA_NULL (last l1)) (set_next nx); Some (a', level)
     else Some (a, set_head nx level)) =
    Some (with_storage a st', if decide (l1 = []) then set_head nx level else level).
Proof.
  intros Ha Hnd Hs. destruct l1 as [|t l1 _] using rev_ind.
  - exists (a_storage a). split; [done|]. split; [apply relinked_refl|]. intros level. simpl.
    by destruct a.
  - apply NoDup_app in Hnd as (Hnd & Hlt & _).
    assert (t ∉ l1) as Htl by (intros Ht; apply (Hlt _ Ht); left).
    destruct (seg_set_next_last _ _ _ _ _ nx Htl Hs) as (nt & Hnt & Hs').
    eexists. split; [exact Hs'|]. split.
    { eapply relinked_vset; [exact Hnt|done|]. set_solver. }
    intros level. rewrite last_snoc. simpl.
    rewrite decide_True by (by eapply get_not_null).
    rewrite (update_get _ _ _ _ Hnt). simpl. rewrite decide_False; [done|].
    by destruct l1.
Qed.

Lemma unlink_next a l2 i p :
  addressable (a_storage a) -> NoDup l2 -> seg (a_storage a) i l2 ARENA_NULL ->
  exists st', seg st' p l2 ARENA_NULL /\ relinked l2 (a_storage a) st' /\
    forall (lvl lvl' : PriceLevel),
    (if decide (default ARENA_NULL (head l2) ≠ ARENA_NULL) then
       a' ← update a (default ARENA_NULL (head l2)) (set_prev p); Some (a', lvl)
     else Some (a, lvl')) =
    Some (with_storage a st', if decide (l2 = []) then lvl' else lvl).
Proof.
  intros Ha Hnd Hs. destruct l2 as [|x l2].
  - exists (a_storage a). split; [done|]. split; [apply relinked_refl|]. intros. simpl.
    by destruct a.
  - apply NoDup_cons in Hnd as [Hx Hnd].
    destruct (seg_set_prev_head _ _ p _ _ _ Hx Hs) as (n & Hn & Hs').
    eexists. split; [exact Hs'|]. split.
    { eapply relinked_vset; [exact Hn|done|left]. }
    intros. simpl. rewrite decide_True by (by eapply get_not_null).
    by rewrite (update_get _ _ _ _ Hn).
Qed.

Lemma level_unlinked (l1 l2 : list Z) i c q :
  (let lvl := mkLevel (default ARENA_NULL (head (l1 ++ i :: l2)))
                      (default ARENA_NULL (last (l1 ++ i :: l2))) c q in
   let lvl := if decide (l1 = []) then set_head (default ARENA_NULL (head l2)) lvl else lvl in
   if decide (l2 = []) then set_tail (default ARENA_NULL (last l1)) lvl else lvl) =
  mkLevel (default ARENA_NULL (head (l1 ++ l2))) (default ARENA_NULL (last (l1 ++ l2))) c q.
Proof.
  rewrite !last_app, last_cons.
  destruct l1 as [|x l1], l2 as [|y l2]; simpl; try done.
  all: destruct (last (y :: l2)) eqn:Hlast; [done|by apply last_None in Hlast].
Qed.

Lemma remove_spec a l1 i l2 os1 o os2 :
  addressable (a_storage a) -> NoDup (l1 ++ i :: l2) ->
  seg (a_storage a) ARENA_NULL (l1 ++ i :: l2) ARENA_NULL ->
  order_at (a_storage a) i = Some o ->
  exists st',
    remove a (level_of (l1 ++ i :: l2) (os1 ++ o :: os2)) i =
      Some (with_storage a st', level_of (l1 ++ l2) (os1 ++ os2)) /\
    seg st' ARENA_NULL (l1 ++ l2) ARENA_NULL /\ relinked (l1 ++ l2) (a_storage a) st'.
Proof.
  intros Ha Hnd Hs Ho. apply fmap_Some in Ho as (n & Hn & ->).
  apply NoDup_app in Hnd as (Hnd1 & Hd & [Hi2 Hnd2]%NoDup_cons).
  apply seg_app in Hs as [Hs1 [(n' & Hn' & Hp & Hx) Hs2]].
  rewrite Hn in Hn'. injection Hn' as <-. simpl in Hs1.
  destruct (unlink_prev a l1 i (default ARENA_NULL (head l2)) Ha Hnd1 Hs1) as (st1 & Hs1' & Hr1 & He1).
  assert (seg st1 i l2 ARENA_NULL) as Hs2'.
  { eapply seg_relinked; [exact Hr1| |done]. set_solver. }
  destruct (unlink_next (with_storage a st1) l2 i (default ARENA_NULL (last l1))) as (st2 & Hs2'' & Hr2 & He2);
    [unfold addressable; simpl; by destruct Hr1 as [-> _]|done|done|].
  simpl in Hr2. exists st2. split; [|split].
  - unfold remove. unfold get at 1. rewrite Hn. simpl. rewrite Hp, Hx, He1. simpl.
    rewrite He2. simpl. unfold level_of. rewrite <- (level_unlinked l1 l2 i).
    rewrite <- (qty_sub_middle os1 (to_order n) os2), <- (count_sub_middle l1 i l2).
    by repeat case_decide.
  - apply seg_app. split; [|done]. eapply seg_relinked; [exact Hr2|set_solver|done].
  - eapply relinked_trans.
    + eapply relinked_mono; [|exact Hr1]. set_solver.
    + eapply relinked_mono; [|exact Hr2]. set_solver.
Qed.

Lemma pop_front_spec a i l o os :
  addressable (a_storage a) -> NoDup (i :: l) ->
  seg (a_storage a) ARENA_NULL (i :: l) ARENA_NULL ->
  order_at (a_storage a) i = Some o ->
  exists st',
    pop_front a (level_of (i :: l) (o :: os)) =
      Some (with_storage a st', level_of l os, Some i) /\
    seg st' ARENA_NULL l ARENA_NULL /\ relinked l (a_storage a) st'.
Proof.
  intros Ha [Hi Hnd]%NoDup_cons [(n & Hn & _ & Hx) Hs] Ho.
  apply fmap_Some in Ho as (n' & Hn' & ->). rewrite Hn in Hn'. injection Hn' as <-.
  destruct (unlink_next a l i ARENA_NULL Ha Hnd Hs) as (st' & Hs' & Hr & He).
  exists st'. split; [|done].
  unfold pop_front. simpl. rewrite decide_False by (by eapply get_not_null).
  unfold get at 1. rewrite Hn. simpl. rewrite Hx, He. simpl.
  unfold level_of. pose proof (level_unlinked [] l i) as Hl. simpl in Hl.
  pose proof (qty_sub_middle [] (to_order n) os) as Hq.
  pose proof (count_sub_middle [] i l) as Hc. simpl in Hq, Hc.
  rewrite <- Hl, <- Hq, <- Hc. simpl. by destruct (decide (l = [])) as [->|].
Qed.

Lemma pop_front_empty a : pop_front a PriceLevel_new = Some (a, PriceLevel_new, None).
Proof. done. Qed.

(** ** The free list *)

Lemma free_chain_frame st st' h l :
  (forall i, i ∈ l -> vget st' i = vget st i) -> free_chain st h l -> free_chain st' h l.
Proof.
  revert h. induction l as [|i l IH]; intros h Hf; simpl; [done|].
  intros (-> & n & Hn & Hc). split; [done|]. exists n. rewrite Hf by left.
  split; [done|]. apply IH; [|done]. intros. apply Hf. by right.
Qed.

Lemma free_chain_get st h l i : free_chain st h l -> i ∈ l -> is_Some (vget st i).
Proof.
  revert h. induction l as [|j l IH]; intros h; simpl; [by intros _ ?%elem_of_nil|].
  intros (-> & n & Hn & Hc) [->|Hi]%elem_of_cons; [eauto | by eapply IH].
Qed.

Lemma alloc_full_spec a o :
  free_chain (a_storage a) (a_free_head a) [] -> alloc a o = Some (a, Err Full).
Proof. simpl. intros H. unfold alloc. by rewrite decide_True. Qed.

Lemma alloc_spec a o i free :
  addressable (a_storage a) -> NoDup (i :: free) ->
  free_chain (a_storage a) (a_free_head a) (i :: free) ->
  exists fh,
    alloc a o = Some (mkArena (vset (a_storage a) i (from_order o)) fh
                              (u32_add (a_count a) 1) (a_capacity a), Ok i) /\
    free_chain (vset (a_storage a) i (from_order o)) fh free.
Proof.
  intros Ha [Hi _]%NoDup_cons (Hfh & n & Hn & Hc). exists (n_next n). split.
  - unfold alloc. rewrite Hfh. rewrite decide_False by (by eapply get_not_null).
    unfold get at 1. rewrite Hn. simpl. by rewrite (update_get _ _ _ _ Hn).
  - eapply free_chain_frame; [|done]. intros j Hj. apply vget_vset_ne. by intros ->.
Qed.

Lemma dealloc_spec a i n free :
  vget (a_storage a) i = Some n -> i ∉ free ->
  free_chain (a_storage a) (a_free_head a) free ->
  exists st',
    dealloc a i = Some (mkArena st' i (u32_sub (a_count a) 1) (a_capacity a)) /\
    free_chain st' i (i :: free) /\ relinked [i] (a_storage a) st'.
Proof.
  intros Hn Hi Hc. exists (vset (a_storage a) i (set_next (a_free_head a) n)). split; [|split].
  - unfold dealloc. by rewrite (update_get _ _ _ _ Hn).
  - simpl. split; [done|]. eexists. rewrite (vget_vset_eq _ _ _ _ Hn). split; [done|]. simpl.
    eapply free_chain_frame; [|done]. intros j Hj. apply vget_vset_ne. by intros ->.
  - eapply relinked_vset; [exact Hn|done|left].
Qed.

(** A new arena: every slot is free, in index order. *)
Lemma Arena_new_get capacity i :
  0 <= i < capacity ->
  vget (a_storage (Arena_new capacity)) i =
    Some (set_next (if decide (i + 1 < capacity) then i + 1 else ARENA_NULL) zeroed).
Proof.
  intros Hi. unfold vget. rewrite decide_True by lia. simpl.
  rewrite list_lookup_fmap, lookup_seqZ_lt by lia. simpl. do 2 f_equal.
  replace (0 + Z.of_nat (Z.to_nat i)) with i by lia. done.
Qed.

Lemma Arena_new_free_chain capacity k :
  0 <= k <= capacity ->
  free_chain (a_storage (Arena_new capacity))
             (if decide (k < capacity) then k else ARENA_NULL) (seqZ k (capacity - k)).
Proof.
  intros Hk. remember (Z.to_nat (capacity - k)) as m eqn:Hm. revert k Hk Hm.
  induction m as [|m IH]; intros k Hk Hm.
  - rewrite seqZ_nil by lia. simpl. by rewrite decide_False by lia.
  - rewrite seqZ_cons by lia. rewrite decide_True by lia. simpl. split; [done|].
    eexists. split; [apply Arena_new_get; lia|]. simpl.
    specialize (IH (k + 1) ltac:(lia) ltac:(lia)).
    replace (Z.succ k) with (k + 1) by lia.
    by replace (Z.pred (capacity - k)) with (capacity - (k + 1)) by lia.
Qed.
