(* ===== verification/Book.v ===== *)
(** * Book.v: the limit order book ([src/book.rs])

    Two ordered maps of price levels, the cached best prices, the index from
    order id to arena slot, and the arena.  One definition per method; the
    state a method leaves behind on an early return is the one returned. *)

From S2P Require Import Prelude.
From S2P Require Import Order.
From S2P Require Import Arena.

Inductive BookError : Type :=
| DuplicateOrderId (id : Z)
| OrderNotFound (id : Z)
| PriceLevelNotFound (price : Z)
| FillExceedsQuantity (available requested : Z)
| ArenaFull.

#[global] Instance BookError_eq_dec : EqDecision BookError.
Proof. solve_decision. Defined.

(** [impl From<ArenaError> for BookError]. *)
Definition BookError_from (e : ArenaError) : BookError := ArenaFull.

Record OrderBook : Type := mkBook {
  b_bids : gmap Z PriceLevel;
  b_asks : gmap Z PriceLevel;
  b_best_bid : option Z;
  b_best_ask : option Z;
  b_order_index : gmap Z Z;
  b_arena : Arena
}.

Module OrderBook.

Definition with_capacity (arena_capacity : Z) : OrderBook :=
  mkBook ∅ ∅ None None ∅ (Arena_new arena_capacity).

Definition new : OrderBook := with_capacity default_capacity.

(** [impl Default for OrderBook]. *)
Definition default_book : OrderBook := new.

Definition best_bid (b : OrderBook) : option Z := b_best_bid b.
Definition best_ask (b : OrderBook) : option Z := b_best_ask b.
Definition order_count (b : OrderBook) : nat := size (b_order_index b).

(** [match side { Side::Bid => bids, Side::Ask => asks }]. *)
Definition levels (b : OrderBook) (side : Side) : gmap Z PriceLevel :=
  match side with Bid => b_bids b | Ask => b_asks b end.

Definition set_levels (side : Side) (m : gmap Z PriceLevel) (b : OrderBook) : OrderBook :=
  match side with
  | Bid => mkBook m (b_asks b) (b_best_bid b) (b_best_ask b) (b_order_index b) (b_arena b)
  | Ask => mkBook (b_bids b) m (b_best_bid b) (b_best_ask b) (b_order_index b) (b_arena b)
  end.
Definition set_index (m : gmap Z Z) (b : OrderBook) : OrderBook :=
  mkBook (b_bids b) (b_asks b) (b_best_bid b) (b_best_ask b) m (b_arena b).
Definition set_arena (a : Arena) (b : OrderBook) : OrderBook :=
  mkBook (b_bids b) (b_asks b) (b_best_bid b) (b_best_ask b) (b_order_index b) a.
Definition set_best_bid (p : option Z) (b : OrderBook) : OrderBook :=
  mkBook (b_bids b) (b_asks b) p (b_best_ask b) (b_order_index b) (b_arena b).
Definition set_best_ask (p : option Z) (b : OrderBook) : OrderBook :=
  mkBook (b_bids b) (b_asks b) (b_best_bid b) p (b_order_index b) (b_arena b).

Definition update_best_after_insert (b : OrderBook) (side : Side) (price : Z) : OrderBook :=
  match side with
  | Bid => set_best_bid (Some (from_option (fun p => Z.max p price) price (b_best_bid b))) b
  | Ask => set_best_ask (Some (from_option (fun p => Z.min p price) price (b_best_ask b))) b
  end.

Definition insert_order (b : OrderBook) (order : Order)
  : option (OrderBook * result unit BookError) :=
  if decide (is_Some (b_order_index b !! o_id order)) then
    Some (b, Err (DuplicateOrderId (o_id order)))
  else
    let side := o_side order in
    let price := o_price order in
    '(arena, r) ← alloc (b_arena b) order;
    match r with
    | Err e => Some (set_arena arena b, Err (BookError_from e))
    | Ok index =>
        let level := default PriceLevel_new (levels b side !! price) in
        '(arena, level) ← push_back arena level index;
        let b := set_arena arena (set_levels side (<[price := level]> (levels b side)) b) in
        let b := set_index (<[o_id order := index]> (b_order_index b)) b in
        Some (update_best_after_insert b side price, Ok tt)
    end.

(** The tail shared by [cancel_order] and [reduce_front_quantity]: drop the
    level when it is empty and recompute the best price of its side. *)
Definition drop_level (b : OrderBook) (side : Side) (price : Z) : OrderBook :=
  match side with
  | Bid =>
      let b := set_levels Bid (delete price (b_bids b)) b in
      set_best_bid (last_key (b_bids b)) b
  | Ask =>
      let b := set_levels Ask (delete price (b_asks b)) b in
      set_best_ask (first_key (b_asks b)) b
  end.

Definition cancel_order (b : OrderBook) (order_id : Z)
  : option (OrderBook * result Order BookError) :=
  match b_order_index b !! order_id with
  | None => Some (b, Err (OrderNotFound order_id))
  | Some index =>
      let b := set_index (delete order_id (b_order_index b)) b in
      n ← get (b_arena b) index;
      let order := to_order n in
      let side := o_side order in
      let price := o_price order in
      match levels b side !! price with
      | None => Some (b, Err (PriceLevelNotFound price))
      | Some level =>
          '(arena, level) ← remove (b_arena b) level index;
          arena ← dealloc arena index;
          let b := set_arena arena (set_levels side (<[price := level]> (levels b side)) b) in
          let b := if decide (l_count level = 0) then drop_level b side price else b in
          Some (b, Ok order)
      end
  end.

Definition peek_front (b : OrderBook) (side : Side) (price : Z) : option (option OrderNode) :=
  match levels b side !! price with
  | None => Some None
  | Some level =>
      if decide (l_head level = ARENA_NULL) then Some None
      else n ← get (b_arena b) (l_head level); Some (Some n)
  end.

Definition reduce_front_quantity (b : OrderBook) (side : Side) (price fill_qty : Z)
  : option (OrderBook * result Z BookError) :=
  match levels b side !! price with
  | None => Some (b, Err (PriceLevelNotFound price))
  | Some level =>
      if decide (l_head level = ARENA_NULL) then Some (b, Err (PriceLevelNotFound price))
      else
        let head_idx := l_head level in
        front ← get (b_arena b) head_idx;
        if decide (fill_qty > n_quantity front) then
          Some (b, Err (FillExceedsQuantity (n_quantity front) fill_qty))
        else
          let remaining := u64_sub (n_quantity front) fill_qty in
          arena ← update (b_arena b) head_idx (set_node_quantity remaining);
          let level := mkLevel (l_head level) (l_tail level) (l_count level)
                               (u64_sub (l_qty level) fill_qty) in
          if decide (remaining = 0) then
            n ← get arena head_idx;
            let removed_id := n_id n in
            '(arena, level, _) ← pop_front arena level;
            arena ← dealloc arena head_idx;
            let b := set_index (delete removed_id (b_order_index b)) b in
            let b := set_arena arena (set_levels side (<[price := level]> (levels b side)) b) in
            let b := if decide (l_count level = 0) then drop_level b side price else b in
            Some (b, Ok 0)
          else
            let b := set_arena arena (set_levels side (<[price := level]> (levels b side)) b) in
            Some (b, Ok remaining)
  end.

(** The [while idx != ARENA_NULL] walk over one level; a slot list is never
    longer than the storage, so [S (length storage)] steps are enough. *)
Fixpoint walk_level (fuel : nat) (a : Arena) (idx : Z) : option (list Order) :=
  match fuel with
  | O => None
  | S fuel =>
      if decide (idx ≠ ARENA_NULL) then
        node ← get a idx;
        orders ← walk_level fuel a (n_next node);
        Some (to_order node :: orders)
      else Some []
  end.

Definition walk_levels (b : OrderBook) (lvls : list PriceLevel) : option (list Order) :=
  ls ← mapM (fun level => walk_level (S (length (a_storage (b_arena b)))) (b_arena b) (l_head level))
            lvls;
  Some (concat ls).

(** [BTreeMap::values], in key order. *)
Definition values (m : gmap Z PriceLevel) : list PriceLevel := omap (fun k => m !! k) (keys m).

(** Asks ascending price, then bids descending price; FIFO within each level. *)
Definition all_resting_orders (b : OrderBook) : option (list Order) :=
  asks ← walk_levels b (values (b_asks b));
  bids ← walk_levels b (reverse (values (b_bids b)));
  Some (asks ++ bids).

End OrderBook.
