(* ===== verification/BookSpec.v ===== *)
(** * BookSpec.v: the abstract order book

    What the order book of [src/book.rs] promises: each side is one list of
    orders in price-time priority (best price first, arrival order within a
    price).  The operations of [Book.v] are specified on these lists. *)

From S2P Require Import Prelude.
From S2P Require Import Order.
From S2P Require Import Book.

(** ** Priority *)

(** [better s p p']: on side [s], price [p] has strictly higher priority. *)
Definition better (s : Side) (p p' : Z) : Prop :=
  match s with Bid => p' < p | Ask => p < p' end.

#[global] Instance better_dec s p p' : Decision (better s p p').
Proof. destruct s; simpl; apply _. Defined.

(** [prio s o o']: [o] may stand before [o'] in the queue of side [s]. *)
Definition prio (s : Side) (o o' : Order) : Prop := ~ better s (o_price o') (o_price o).

Definition at_price (p : Z) (L : list Order) : list Order := filter (fun o => o_price o = p) L.

(** Stable insertion: after every order of the same or a better price. *)
Fixpoint insert_prio (s : Side) (o : Order) (L : list Order) : list Order :=
  match L with
  | [] => [o]
  | x :: L' => if decide (better s (o_price o) (o_price x)) then o :: L
               else x :: insert_prio s o L'
  end.

(** ** The abstract book *)

Record SpecBook : Type := mkSpec { sp_bids : list Order; sp_asks : list Order }.

Definition sp_side (sp : SpecBook) (s : Side) : list Order :=
  match s with Bid => sp_bids sp | Ask => sp_asks sp end.
Definition sp_set (s : Side) (L : list Order) (sp : SpecBook) : SpecBook :=
  match s with Bid => mkSpec L (sp_asks sp) | Ask => mkSpec (sp_bids sp) L end.

(** Canonical order of the whole book. *)
Definition sp_all (sp : SpecBook) : list Order := sp_asks sp ++ sp_bids sp.
Definition sp_ids (sp : SpecBook) : list Z := o_id <$> sp_all sp.
Definition sp_empty : SpecBook := mkSpec [] [].
Definition sp_best (sp : SpecBook) (s : Side) : option Z := o_price <$> head (sp_side sp s).

Definition spec_insert (cap : Z) (sp : SpecBook) (o : Order) : SpecBook * result unit BookError :=
  if decide (o_id o ∈ sp_ids sp) then (sp, Err (DuplicateOrderId (o_id o)))
  else if decide (Z.of_nat (length (sp_all sp)) = cap) then (sp, Err ArenaFull)
  else (sp_set (o_side o) (insert_prio (o_side o) o (sp_side sp (o_side o))) sp, Ok tt).

Definition without_id (id : Z) (L : list Order) : list Order := filter (fun o => o_id o ≠ id) L.

Definition spec_cancel (sp : SpecBook) (id : Z) : SpecBook * result Order BookError :=
  match head (filter (fun o => o_id o = id) (sp_all sp)) with
  | None => (sp, Err (OrderNotFound id))
  | Some o => (mkSpec (without_id id (sp_bids sp)) (without_id id (sp_asks sp)), Ok o)
  end.

(** [set_qty_id id r L]: the order with this id has remaining quantity [r]. *)
Definition set_qty_id (id r : Z) (L : list Order) : list Order :=
  (fun o => if decide (o_id o = id) then set_quantity r o else o) <$> L.

(** Reducing the oldest order of a price level. *)
Definition spec_reduce (sp : SpecBook) (s : Side) (p f : Z) : SpecBook * result Z BookError :=
  match at_price p (sp_side sp s) with
  | [] => (sp, Err (PriceLevelNotFound p))
  | m :: _ =>
      if decide (f > o_quantity m) then (sp, Err (FillExceedsQuantity (o_quantity m) f))
      else
        let r := o_quantity m - f in
        (sp_set s (if decide (r = 0) then without_id (o_id m) (sp_side sp s)
                   else set_qty_id (o_id m) r (sp_side sp s)) sp, Ok r)
  end.

(** Reducing the best order of a side by [f]; it leaves when nothing remains. *)
Definition reduce_head (f : Z) (L : list Order) : list Order :=
  match L with
  | [] => []
  | m :: L' => if decide (o_quantity m - f = 0) then L'
               else set_quantity (o_quantity m - f) m :: L'
  end.

(** ** Lemmas on priority lists *)

Abbreviation sorted s L := (StronglySorted (prio s) L).

Lemma prio_trans s : Transitive (prio s).
Proof. intros x y z. unfold prio. destruct s; simpl; lia. Qed.

Lemma prio_refl_price s o o' : o_price o = o_price o' -> prio s o o'.
Proof. unfold prio. destruct s; simpl; lia. Qed.

Lemma at_price_cons p o L :
  at_price p (o :: L) = if decide (o_price o = p) then o :: at_price p L else at_price p L.
Proof. unfold at_price. by rewrite filter_cons. Qed.

Lemma at_price_app p L1 L2 : at_price p (L1 ++ L2) = at_price p L1 ++ at_price p L2.
Proof. apply filter_app. Qed.

Lemma elem_of_at_price p o L : o ∈ at_price p L <-> o_price o = p /\ o ∈ L.
Proof. unfold at_price. by rewrite list_elem_of_filter. Qed.

Lemma at_price_nil p L : (forall o, o ∈ L -> o_price o ≠ p) -> at_price p L = [].
Proof.
  intros H. destruct (at_price p L) as [|o l] eqn:E; [done|].
  assert (o ∈ at_price p L) as [? ?]%elem_of_at_price by (rewrite E; left). naive_solver.
Qed.

Lemma elem_of_insert_prio s o x L : x ∈ insert_prio s o L <-> x = o \/ x ∈ L.
Proof.
  induction L as [|y L IH]; simpl; [set_solver|].
  case_decide; rewrite ?elem_of_cons, ?IH; tauto.
Qed.

Lemma length_insert_prio s o L : length (insert_prio s o L) = S (length L).
Proof. induction L; simpl; [done|]. case_decide; simpl; congruence. Qed.

Lemma insert_prio_Permutation s o L : insert_prio s o L ≡ₚ o :: L.
Proof.
  induction L as [|y L IH]; simpl; [done|]. case_decide; [done|].
  rewrite IH. apply Permutation_swap.
Qed.

Lemma insert_prio_sorted s o L : sorted s L -> sorted s (insert_prio s o L).
Proof.
  induction L as [|x L IH]; simpl; [intros; repeat constructor|].
  intros Hs. pose proof Hs as [Hs' Hx]%StronglySorted_inv. case_decide as Hb.
  - constructor; [done|]. apply Forall_cons. split.
    + unfold prio. destruct s; simpl in *; lia.
    + eapply Forall_impl; [exact Hx|]. intros y Hy. eapply prio_trans; [|exact Hy].
      unfold prio. destruct s; simpl in *; lia.
  - constructor; [auto|]. apply Forall_forall. intros y [->|Hy]%elem_of_insert_prio; [done|].
    by eapply Forall_forall in Hx.
Qed.

Lemma at_price_insert_prio s p o L :
  sorted s L ->
  at_price p (insert_prio s o L) = at_price p L ++ (if decide (o_price o = p) then [o] else []).
Proof.
  induction L as [|x L IH]; simpl; intros Hs.
  - rewrite at_price_cons. by case_decide.
  - pose proof Hs as [Hs' Hx]%StronglySorted_inv. rewrite Forall_forall in Hx.
    destruct (decide (better s (o_price o) (o_price x))) as [Hb|Hb].
    + rewrite (at_price_cons p o). case_decide; [|by rewrite app_nil_r].
      subst p. rewrite (at_price_nil _ (x :: L)); [done|].
      intros y [->|Hy]%elem_of_cons; [|specialize (Hx _ Hy); unfold prio in Hx];
        destruct s; simpl in *; lia.
    + rewrite !at_price_cons, IH by done. by destruct (decide (o_price x = p)).
Qed.

(** A priority list is determined by its queues. *)
Lemma sorted_queues_eq s L1 L2 :
  sorted s L1 -> sorted s L2 -> (forall p, at_price p L1 = at_price p L2) -> L1 = L2.
Proof.
  revert L2. induction L1 as [|x L1 IH]; intros L2 Hs1 Hs2 Hq.
  - destruct L2 as [|y L2]; [done|]. specialize (Hq (o_price y)).
    rewrite at_price_cons, decide_True in Hq by done. done.
  - pose proof (Hq (o_price x)) as Hqx. rewrite at_price_cons, decide_True in Hqx by done.
    destruct L2 as [|y L2]; [done|].
    pose proof Hs1 as [Hs1' Hx]%StronglySorted_inv. pose proof Hs2 as [Hs2' Hy]%StronglySorted_inv.
    rewrite Forall_forall in Hx, Hy.
    assert (o_price x = o_price y) as Hxy.
    { assert (x ∈ y :: L2) as Hxin
        by (eapply elem_of_at_price; rewrite <- Hqx; left).
      assert (y ∈ x :: L1) as Hyin.
      { eapply elem_of_at_price. rewrite (Hq (o_price y)), at_price_cons, decide_True by done. left. }
      apply elem_of_cons in Hxin as [->|Hxin]; [done|].
      apply elem_of_cons in Hyin as [->|Hyin]; [done|].
      specialize (Hx _ Hyin). specialize (Hy _ Hxin). unfold prio in Hx, Hy.
      destruct s; simpl in *; lia. }
    rewrite at_price_cons, decide_True in Hqx by done. injection Hqx as -> _. f_equal.
    apply IH; try done. intros p. specialize (Hq p). rewrite !at_price_cons in Hq.
    case_decide; congruence.
Qed.

Lemma at_price_without_id p id L : at_price p (without_id id L) = without_id id (at_price p L).
Proof.
  unfold at_price, without_id. rewrite !list_filter_filter.
  apply list_filter_iff. tauto.
Qed.

Lemma sorted_filter s (P : Order -> Prop) `{!forall x, Decision (P x)} L :
  sorted s L -> sorted s (filter P L).
Proof.
  induction L as [|x L IH]; simpl; [done|]. intros [Hs Hx]%StronglySorted_inv.
  rewrite filter_cons. case_decide; [|auto]. constructor; [auto|].
  rewrite Forall_forall in *. intros y [? ?]%list_elem_of_filter. auto.
Qed.

Lemma without_id_notin id L : id ∉ o_id <$> L -> without_id id L = L.
Proof.
  unfold without_id. induction L as [|x L IH]; [done|].
  rewrite fmap_cons, not_elem_of_cons. intros [Hx Hn].
  rewrite filter_cons, decide_True by congruence. f_equal. by apply IH.
Qed.

Lemma without_id_middle id L1 o L2 :
  o_id o = id -> id ∉ o_id <$> (L1 ++ L2) -> without_id id (L1 ++ o :: L2) = L1 ++ L2.
Proof.
  intros Ho Hn. rewrite fmap_app, not_elem_of_app in Hn. destruct Hn as [H1 H2].
  rewrite <- (without_id_notin id L1 H1) at 2. rewrite <- (without_id_notin id L2 H2) at 2.
  unfold without_id. rewrite filter_app, filter_cons, decide_False; naive_solver.
Qed.

Lemma elem_of_sp_all sp o : o ∈ sp_all sp <-> exists s, o ∈ sp_side sp s.
Proof.
  unfold sp_all. rewrite elem_of_app. split.
  - intros [H|H]; [exists Ask | exists Bid]; done.
  - intros [[] H]; simpl in H; auto.
Qed.

Lemma sp_side_set s L sp s' :
  sp_side (sp_set s L sp) s' = if decide (s' = s) then L else sp_side sp s'.
Proof. by destruct s, s'. Qed.

Lemma length_sp_set s L sp :
  (length (sp_all (sp_set s L sp)) + length (sp_side sp s) = length (sp_all sp) + length L)%nat.
Proof. unfold sp_all. destruct s; simpl; rewrite !length_app; lia. Qed.

(** ** Ids of the whole book *)

Lemma sp_ids_set s L sp :
  sp_ids (sp_set s L sp) ≡ₚ (o_id <$> L) ++ (o_id <$> sp_side sp (opposite s)).
Proof.
  unfold sp_ids, sp_all. destruct s; simpl; rewrite fmap_app; [apply Permutation_app_comm|done].
Qed.

Lemma sp_ids_sides s sp : sp_ids sp ≡ₚ (o_id <$> sp_side sp s) ++ (o_id <$> sp_side sp (opposite s)).
Proof. rewrite <- sp_ids_set. by destruct s, sp. Qed.

Lemma sp_ids_insert s o sp :
  sp_ids (sp_set s (insert_prio s o (sp_side sp s)) sp) ≡ₚ o_id o :: sp_ids sp.
Proof. by rewrite sp_ids_set, insert_prio_Permutation, fmap_cons, (sp_ids_sides s sp). Qed.

Lemma sp_ids_side_nodup s sp : NoDup (sp_ids sp) -> NoDup (o_id <$> sp_side sp s).
Proof. rewrite (sp_ids_sides s). by intros [? _]%NoDup_app. Qed.

Lemma sp_ids_other s sp o : NoDup (sp_ids sp) -> o ∈ sp_side sp s ->
  o_id o ∉ o_id <$> sp_side sp (opposite s).
Proof.
  rewrite (sp_ids_sides s). intros (_ & Hd & _)%NoDup_app Ho. apply Hd, list_elem_of_fmap. eauto.
Qed.

Lemma without_id_sublist id L : without_id id L `sublist_of` L.
Proof. apply sublist_filter. Qed.

Lemma sp_ids_without id s sp :
  NoDup (sp_ids sp) -> NoDup (sp_ids (sp_set s (without_id id (sp_side sp s)) sp)).
Proof.
  rewrite sp_ids_set, (sp_ids_sides s sp). intros Hnd.
  eapply sublist_NoDup; [exact Hnd|]. apply sublist_app; [apply fmap_sublist, without_id_sublist | done].
Qed.

(** Under unique ids, removing an id removes exactly the order that has it. *)
Lemma without_id_unique L o :
  NoDup (o_id <$> L) -> o ∈ L ->
  exists L1 L2, L = L1 ++ o :: L2 /\ without_id (o_id o) L = L1 ++ L2 /\
           o_id o ∉ o_id <$> (L1 ++ L2).
Proof.
  intros Hnd (L1 & L2 & ->)%list_elem_of_split. exists L1, L2. split; [done|].
  assert (o_id o ∉ o_id <$> (L1 ++ L2)) as Hn.
  { rewrite fmap_app, fmap_cons, <- Permutation_middle, NoDup_cons, <- fmap_app in Hnd. tauto. }
  split; [by apply without_id_middle | done].
Qed.

Lemma at_price_sublist p L : at_price p L `sublist_of` L.
Proof. apply sublist_filter. Qed.

Lemma at_price_leave p L os1 o os2 :
  NoDup (o_id <$> L) -> at_price p L = os1 ++ o :: os2 ->
  at_price p (without_id (o_id o) L) = os1 ++ os2.
Proof.
  intros Hnd Hos. rewrite at_price_without_id, Hos. apply without_id_middle; [done|].
  assert (NoDup (o_id <$> at_price p L)) as Hnd'
    by (eapply sublist_NoDup; [exact Hnd|]; apply fmap_sublist, at_price_sublist).
  rewrite Hos, fmap_app, fmap_cons, <- Permutation_middle, NoDup_cons, <- fmap_app in Hnd'. tauto.
Qed.

Lemma same_id_eq L o o' :
  NoDup (o_id <$> L) -> o ∈ L -> o' ∈ L -> o_id o = o_id o' -> o = o'.
Proof.
  intros Hnd Ho Ho' Heq. destruct (without_id_unique _ _ Hnd Ho) as (L1 & L2 & -> & _ & Hn).
  assert (o' = o \/ o' ∈ L1 ++ L2) as [->|Hin] by set_solver; [done|].
  destruct Hn. rewrite Heq. apply list_elem_of_fmap. eauto.
Qed.

Lemma other_price_id p p' L o :
  NoDup (o_id <$> L) -> o ∈ L -> o_price o = p -> p' ≠ p -> o_id o ∉ o_id <$> at_price p' L.
Proof.
  intros Hnd Ho Hp Hne (o' & Heq & [Hp' Ho']%elem_of_at_price)%list_elem_of_fmap.
  assert (o = o') as -> by (by eapply same_id_eq). congruence.
Qed.

Lemma at_price_leave_other p p' L o :
  NoDup (o_id <$> L) -> o ∈ L -> o_price o = p -> p' ≠ p ->
  at_price p' (without_id (o_id o) L) = at_price p' L.
Proof.
  intros. rewrite at_price_without_id. apply without_id_notin. by eapply other_price_id.
Qed.

(** ** Changing the quantity of one order *)

Lemma set_qty_id_notin id r L : id ∉ o_id <$> L -> set_qty_id id r L = L.
Proof.
  induction L as [|x L IH]; [done|]. unfold set_qty_id. rewrite !fmap_cons, not_elem_of_cons.
  intros [Hx Hn]. rewrite decide_False by congruence. f_equal. by apply IH.
Qed.

Lemma ids_set_qty_id id r L : o_id <$> set_qty_id id r L = o_id <$> L.
Proof.
  unfold set_qty_id. rewrite <- list_fmap_compose. apply list_fmap_ext. intros _ o _. simpl.
  by case_decide.
Qed.

Lemma at_price_set_qty_id p id r L : at_price p (set_qty_id id r L) = set_qty_id id r (at_price p L).
Proof.
  unfold set_qty_id. induction L as [|x L IH]; [done|]. rewrite fmap_cons, !at_price_cons, IH.
  assert (o_price (if decide (o_id x = id) then set_quantity r x else x) = o_price x) as ->
    by (by case_decide).
  by destruct (decide (o_price x = p)).
Qed.

Lemma elem_of_set_qty_id id r L o :
  o ∈ set_qty_id id r L -> exists o', o' ∈ L /\ o_price o' = o_price o /\ o_side o' = o_side o.
Proof.
  intros (o' & -> & Ho')%list_elem_of_fmap. exists o'. split; [done|]. by case_decide.
Qed.

Lemma sorted_set_qty_id s id r L : sorted s L -> sorted s (set_qty_id id r L).
Proof.
  induction L as [|x L IH]; [done|]. intros [Hs Hx]%StronglySorted_inv. constructor; [by apply IH|].
  rewrite Forall_forall in *. intros y (y' & Hy' & Hp & _)%elem_of_set_qty_id.
  specialize (Hx _ Hy'). unfold prio in *. rewrite <- Hp. by case_decide.
Qed.

Lemma length_set_qty_id id r L : length (set_qty_id id r L) = length L.
Proof. apply length_fmap. Qed.

(** On the best order, the general reduction is [reduce_head]. *)
Lemma spec_reduce_best sp s m L f :
  NoDup (sp_ids sp) -> sp_side sp s = m :: L -> f <= o_quantity m ->
  spec_reduce sp s (o_price m) f = (sp_set s (reduce_head f (m :: L)) sp, Ok (o_quantity m - f)).
Proof.
  intros Hids%(sp_ids_side_nodup s) HL Hf. unfold spec_reduce. rewrite HL in *.
  rewrite at_price_cons, decide_True, decide_False by (done || lia). simpl.
  rewrite fmap_cons, NoDup_cons in Hids. destruct Hids as [Hn _]. do 2 f_equal.
  case_decide.
  - apply (without_id_middle _ [] m L); done.
  - simpl. rewrite decide_True by done. f_equal. by apply set_qty_id_notin.
Qed.

(** ** Rebuilding a priority list from its levels *)

Lemma at_price_at_price p p' L :
  at_price p (at_price p' L) = if decide (p = p') then at_price p L else [].
Proof.
  case_decide as Hp.
  - subst p'. unfold at_price. rewrite list_filter_filter. apply list_filter_iff. tauto.
  - apply at_price_nil. intros o [-> _]%elem_of_at_price. congruence.
Qed.

Lemma at_price_concat p L ks :
  NoDup ks ->
  at_price p (concat ((fun k => at_price k L) <$> ks)) = if decide (p ∈ ks) then at_price p L else [].
Proof.
  induction ks as [|k ks IH]; [done|]. intros [Hk Hnd]%NoDup_cons. rewrite fmap_cons, concat_cons.
  rewrite at_price_app, at_price_at_price, IH by done.
  destruct (decide (p = k)) as [->|Hne].
  - rewrite (decide_False (P := k ∈ ks)), decide_True by (done || left). by rewrite app_nil_r.
  - simpl. destruct (decide (p ∈ ks)) as [Hp|Hp].
    + by rewrite decide_True by (by right).
    + rewrite decide_False; [done|]. by intros [->|?]%elem_of_cons.
Qed.

Lemma elem_of_concat_price L ks o :
  o ∈ concat ((fun k => at_price k L) <$> ks) -> o_price o ∈ ks.
Proof.
  induction ks as [|k ks IH]; simpl; [by intros ?%elem_of_nil|].
  intros [[<- _]%elem_of_at_price|Ho]%elem_of_app; [left | right; auto].
Qed.

Lemma sorted_same_price s (L : list Order) p :
  Forall (fun o => o_price o = p) L -> sorted s L.
Proof.
  induction 1 as [|o L Ho HL IH]; constructor; [done|].
  eapply Forall_impl; [exact HL|]. simpl. intros o' Ho'. apply prio_refl_price. congruence.
Qed.

Lemma sorted_concat s L ks :
  StronglySorted (fun k k' => ~ better s k' k) ks ->
  sorted s (concat ((fun k => at_price k L) <$> ks)).
Proof.
  induction ks as [|k ks IH]; [constructor|]. intros [Hs Hk]%StronglySorted_inv. simpl.
  rewrite Forall_forall in Hk. apply StronglySorted_app_2; [| |auto].
  - intros o o' [<- _]%elem_of_at_price Ho'%elem_of_concat_price. by apply Hk.
  - apply sorted_same_price with k, Forall_forall. by intros o [Ho _]%elem_of_at_price.
Qed.

Lemma concat_levels s L ks :
  sorted s L -> NoDup ks -> StronglySorted (fun k k' => ~ better s k' k) ks ->
  (forall o, o ∈ L -> o_price o ∈ ks) ->
  concat ((fun k => at_price k L) <$> ks) = L.
Proof.
  intros Hs Hnd Hks Hall. apply (sorted_queues_eq s); [by apply sorted_concat|done|].
  intros p. rewrite at_price_concat by done. case_decide as Hp; [done|].
  symmetry. apply at_price_nil. intros o Ho Hpo. subst p. auto.
Qed.

(** ** Rebuilding a book from its canonical list *)

(** Insert the orders one by one, stopping at the first refusal. *)
Fixpoint spec_inserts (cap : Z) (sp : SpecBook) (os : list Order) : SpecBook * result unit BookError :=
  match os with
  | [] => (sp, Ok tt)
  | o :: os =>
      match spec_insert cap sp o with
      | (sp, Ok _) => spec_inserts cap sp os
      | (sp, Err e) => (sp, Err e)
      end
  end.

Lemma spec_inserts_app cap sp os1 os2 sp1 :
  spec_inserts cap sp os1 = (sp1, Ok tt) ->
  spec_inserts cap sp (os1 ++ os2) = spec_inserts cap sp1 os2.
Proof.
  revert sp. induction os1 as [|o os1 IH]; simpl; intros sp; [congruence|].
  destruct (spec_insert cap sp o) as [sp' []]; [auto|congruence].
Qed.

Lemma insert_prio_last s o L : Forall (fun x => prio s x o) L -> insert_prio s o L = L ++ [o].
Proof.
  induction 1 as [|x L Hx HL IH]; simpl; [done|].
  rewrite decide_False by done. by rewrite IH.
Qed.

Lemma sorted_snoc s L o : sorted s (L ++ [o]) -> sorted s L /\ Forall (fun x => prio s x o) L.
Proof.
  intros Hs. apply StronglySorted_app in Hs as (Hx & Hs & _). split; [done|].
  apply Forall_forall. intros x Hin. apply Hx; [done|left].
Qed.

Lemma spec_inserts_side cap s sp L :
  sp_side sp s = [] -> sorted s L -> (forall o, o ∈ L -> o_side o = s) ->
  NoDup (sp_ids (sp_set s L sp)) -> Z.of_nat (length (sp_all (sp_set s L sp))) <= cap ->
  spec_inserts cap sp L = (sp_set s L sp, Ok tt).
Proof.
  intros He. induction L as [|o L IH] using rev_ind; intros Hs Hside Hnd Hlen.
  { simpl. rewrite <- He. by destruct s, sp. }
  apply sorted_snoc in Hs as [Hs Ho].
  pose proof (length_sp_set s (L ++ [o]) sp) as H1. pose proof (length_sp_set s L sp) as H2.
  rewrite length_app in H1. simpl in H1.
  assert (sp_ids (sp_set s (L ++ [o]) sp) ≡ₚ o_id o :: sp_ids (sp_set s L sp)) as Hp.
  { rewrite !sp_ids_set, fmap_app. simpl. rewrite <- app_assoc. symmetry. apply Permutation_middle. }
  rewrite Hp, NoDup_cons in Hnd. destruct Hnd as [Hn Hnd].
  rewrite (spec_inserts_app _ _ _ _ (sp_set s L sp));
    [|apply IH; [done|intros x Hx; apply Hside; set_solver|done|lia]].
  simpl. unfold spec_insert. rewrite decide_False by done. rewrite decide_False by lia.
  rewrite (Hside o) by set_solver. rewrite sp_side_set, decide_True by done.
  rewrite insert_prio_last by done. by destruct s.
Qed.

Lemma spec_inserts_canonical cap sp :
  (forall s, sorted s (sp_side sp s)) -> (forall s o, o ∈ sp_side sp s -> o_side o = s) ->
  NoDup (sp_ids sp) -> Z.of_nat (length (sp_all sp)) <= cap ->
  spec_inserts cap sp_empty (sp_all sp) = (sp, Ok tt).
Proof.
  intros Hs Hside Hnd Hlen. unfold sp_all at 1. destruct sp as [bids asks]. simpl.
  unfold sp_all in Hlen. simpl in Hlen. rewrite length_app in Hlen.
  rewrite (spec_inserts_app _ _ _ _ (sp_set Ask asks sp_empty)).
  - rewrite (spec_inserts_side _ Bid); [done|done|apply (Hs Bid)|apply (Hside Bid)|done|].
    unfold sp_all. simpl. rewrite length_app. lia.
  - apply (spec_inserts_side _ Ask); [done|apply (Hs Ask)|apply (Hside Ask)| |].
    + unfold sp_ids, sp_all in *. simpl in *. rewrite fmap_app in *.
      apply NoDup_app in Hnd as (Hnd & _). by rewrite app_nil_r.
    + unfold sp_all. simpl. rewrite app_nil_r. lia.
Qed.
