(* ===== verification/BookInv.v ===== *)
(** * BookInv.v: the order book implements the abstract book

    [book_rep b sp q free] relates the concrete book of [Book.v] to the
    abstract book of [BookSpec.v]; every operation of [src/book.rs] keeps it
    and computes what the abstract operation computes. *)

From S2P Require Import Prelude.
From S2P Require Import Order.
From S2P Require Import Arena.
From S2P Require Import ArenaInv.
From S2P Require Import Book.
From S2P Require Import BookSpec.

Import OrderBook.

(** ** The representation invariant *)

(** The slots [l] are a well-formed queue of the orders [os]. *)
Definition queue_ok (st : list OrderNode) (l : list Z) (os : list Order) : Prop :=
  NoDup l /\ seg st ARENA_NULL l ARENA_NULL /\
  Forall2 (fun i o => order_at st i = Some o) l os.

Definition level_opt (l : list Z) (os : list Order) : option PriceLevel :=
  match l with [] => None | _ => Some (level_of l os) end.

Definition best_key (s : Side) (m : gmap Z PriceLevel) : option Z :=
  match s with Bid => last_key m | Ask => first_key m end.
Definition best (b : OrderBook) (s : Side) : option Z :=
  match s with Bid => best_bid b | Ask => best_ask b end.

Abbreviation storage b := (a_storage (b_arena b)).

Record book_rep (b : OrderBook) (sp : SpecBook) (q : Side -> Z -> list Z) (free : list Z) : Prop := {
  (* every level's intrusive list holds the orders of that price *)
  rep_queue : forall s p, queue_ok (storage b) (q s p) (at_price p (sp_side sp s));
  (* a level exists exactly when its queue is not empty, with exact totals *)
  rep_level : forall s p, levels b s !! p = level_opt (q s p) (at_price p (sp_side sp s));
  rep_sorted : forall s, sorted s (sp_side sp s);
  rep_side : forall s o, o ∈ sp_side sp s -> o_side o = s;
  rep_ids : NoDup (sp_ids sp);
  (* the free list, disjoint from every queue *)
  rep_free : free_chain (storage b) (a_free_head (b_arena b)) free;
  rep_free_nodup : NoDup free;
  rep_free_disj : forall s p i, i ∈ free -> i ∉ q s p;
  (* the index maps exactly the resting ids to their slots *)
  rep_index : forall id i, b_order_index b !! id = Some i <->
                exists s p o, i ∈ q s p /\ order_at (storage b) i = Some o /\ o_id o = id;
  (* accounting: no slot is lost or used twice *)
  rep_count : a_count (b_arena b) = Z.of_nat (size (b_order_index b));
  rep_slots : (size (b_order_index b) + length free = length (storage b))%nat;
  rep_total : size (b_order_index b) = length (sp_all sp);
  rep_capacity : a_capacity (b_arena b) = Z.of_nat (length (storage b));
  rep_addressable : addressable (storage b);
  (* the cached best prices *)
  rep_best : forall s, best b s = best_key s (levels b s)
}.

(** [sp] is what the concrete book [b] stands for. *)
Definition represents (b : OrderBook) (sp : SpecBook) : Prop :=
  exists q free, book_rep b sp q free.

(** ** Queues *)

Lemma queue_frame st st' l os :
  (forall i, i ∈ l -> vget st' i = vget st i) -> queue_ok st l os -> queue_ok st' l os.
Proof.
  intros Hf (Hnd & Hs & Ho). split; [done|]. split; [by eapply seg_frame|].
  eapply Forall2_impl_in; [exact Ho|]. intros i o Hi Hio. simpl in Hio |- *.
  unfold order_at. by rewrite Hf.
Qed.

Lemma queue_nil st os : queue_ok st [] os -> os = [].
Proof. intros (_ & _ & H). by apply Forall2_nil_inv_l in H. Qed.

Lemma queue_length st l os : queue_ok st l os -> length l = length os.
Proof. intros (_ & _ & H). by eapply Forall2_length. Qed.

Lemma queue_order_at st l os i :
  queue_ok st l os -> i ∈ l -> exists o, o ∈ os /\ order_at st i = Some o.
Proof.
  intros (_ & _ & H) (k & Hk)%list_elem_of_lookup.
  destruct (Forall2_lookup_l _ _ _ _ _ H Hk) as (o & Ho & Hio).
  exists o. split; [|done]. by eapply list_elem_of_lookup_2.
Qed.

Lemma queue_slot_of st l os o :
  queue_ok st l os -> o ∈ os -> exists i, i ∈ l /\ order_at st i = Some o.
Proof.
  intros (_ & _ & H) (k & Hk)%list_elem_of_lookup.
  destruct (Forall2_lookup_r _ _ _ _ _ H Hk) as (i & Hi & Hio).
  exists i. split; [|done]. by eapply list_elem_of_lookup_2.
Qed.

Lemma queue_split st l1 i l2 os :
  queue_ok st (l1 ++ i :: l2) os ->
  exists os1 o os2, os = os1 ++ o :: os2 /\ order_at st i = Some o /\
    Forall2 (fun i o => order_at st i = Some o) l1 os1 /\
    Forall2 (fun i o => order_at st i = Some o) l2 os2.
Proof.
  intros (_ & _ & H). apply Forall2_app_inv_l in H as (os1 & os' & H1 & H' & ->).
  apply Forall2_cons_inv_l in H' as (o & os2 & Ho & H2 & ->). naive_solver.
Qed.

(** Same orders on relinked storage. *)
Lemma Forall2_order_at_eq st st' l os :
  (forall i, i ∈ l -> order_at st' i = order_at st i) ->
  Forall2 (fun i o => order_at st i = Some o) l os ->
  Forall2 (fun i o => order_at st' i = Some o) l os.
Proof.
  intros He H. eapply Forall2_impl_in; [exact H|]. intros i o Hi Ho. simpl in Ho |- *. by rewrite He.
Qed.

Lemma default_level_opt st l os :
  queue_ok st l os -> default PriceLevel_new (level_opt l os) = level_of l os.
Proof. destruct l; [|done]. intros ->%queue_nil. done. Qed.

(** ** Consequences of the invariant *)

Section rep.
Context {b : OrderBook} {sp : SpecBook} {q : Side -> Z -> list Z} {free : list Z}.
Context (R : book_rep b sp q free).

Lemma rep_slot_order s p i :
  i ∈ q s p -> exists o, order_at (storage b) i = Some o /\ o ∈ sp_side sp s /\
                    o_side o = s /\ o_price o = p.
Proof.
  intros Hi. destruct (queue_order_at _ _ _ _ (rep_queue _ _ _ _ R s p) Hi) as (o & Ho & Hio).
  apply elem_of_at_price in Ho as [Hp Ho]. exists o. repeat split; try done.
  by eapply rep_side.
Qed.

(** Two different queues share no slot. *)
Lemma rep_queues_disjoint s p s' p' i : i ∈ q s p -> i ∈ q s' p' -> s = s' /\ p = p'.
Proof.
  intros (o & Ho & _ & <- & <-)%rep_slot_order (o' & Ho' & _ & <- & <-)%rep_slot_order.
  by simplify_eq.
Qed.

Lemma rep_slot_of s o :
  o ∈ sp_side sp s -> exists i, i ∈ q s (o_price o) /\ order_at (storage b) i = Some o.
Proof.
  intros Ho. eapply queue_slot_of; [apply (rep_queue _ _ _ _ R)|]. by apply elem_of_at_price.
Qed.

Lemma rep_index_ids id : is_Some (b_order_index b !! id) <-> id ∈ sp_ids sp.
Proof.
  unfold sp_ids. rewrite list_elem_of_fmap. split.
  - intros [i Hi]. apply (rep_index _ _ _ _ R) in Hi as (s & p & o & Hi & Ho & <-).
    destruct (rep_slot_order _ _ _ Hi) as (o' & Ho' & Hin & _). simplify_eq.
    exists o. split; [done|]. apply elem_of_sp_all. eauto.
  - intros (o & -> & [s Ho]%elem_of_sp_all).
    destruct (rep_slot_of _ _ Ho) as (i & Hi & Hio).
    exists i. apply (rep_index _ _ _ _ R). eauto 6.
Qed.

(** Resting ids are unique: two slots with the same id are the same slot. *)
Lemma rep_id_unique s p i o s' p' i' o' :
  i ∈ q s p -> order_at (storage b) i = Some o ->
  i' ∈ q s' p' -> order_at (storage b) i' = Some o' -> o_id o = o_id o' -> i = i'.
Proof.
  intros Hi Ho Hi' Ho' Heq.
  assert (b_order_index b !! o_id o = Some i) as H1 by (apply (rep_index _ _ _ _ R); eauto 6).
  assert (b_order_index b !! o_id o = Some i') as H2
    by (apply (rep_index _ _ _ _ R); rewrite Heq; eauto 6).
  congruence.
Qed.

Lemma rep_queue_length s p : (Z.of_nat (length (q s p)) < 2 ^ 32).
Proof.
  destruct (rep_queue _ _ _ _ R s p) as (Hnd & Hs & _).
  pose proof (seg_length _ _ _ _ Hnd Hs). pose proof (rep_addressable _ _ _ _ R) as Ha.
  unfold addressable, ARENA_NULL in Ha. lia.
Qed.

Lemma rep_level_key s p : is_Some (levels b s !! p) <-> exists o, o ∈ sp_side sp s /\ o_price o = p.
Proof.
  rewrite (rep_level _ _ _ _ R). destruct (rep_queue _ _ _ _ R s p) as (_ & _ & HF).
  destruct (q s p) as [|i l]; simpl.
  - apply Forall2_nil_inv_l in HF. split; [by intros [??]|].
    intros (o & Ho & Hp). assert (o ∈ at_price p (sp_side sp s)) as Hin
      by (by apply elem_of_at_price). rewrite HF in Hin. by apply elem_of_nil in Hin.
  - split; [|eauto]. intros _. apply Forall2_cons_inv_l in HF as (o & os & _ & _ & Heq).
    exists o. apply and_comm, elem_of_at_price. rewrite Heq. left.
Qed.

(** The cached best price is the price of the first order in priority. *)
Lemma rep_best_price s : best b s = sp_best sp s.
Proof.
  rewrite (rep_best _ _ _ _ R). unfold sp_best.
  pose proof (rep_sorted _ _ _ _ R s) as Hs. pose proof (rep_level_key s) as Hk.
  destruct (sp_side sp s) as [|o L]; simpl.
  - assert (levels b s = ∅) as ->.
    { apply map_eq. intros p. rewrite lookup_empty. apply eq_None_not_Some.
      rewrite Hk. by intros (o & ?%elem_of_nil & _). }
    destruct s; [by apply last_key_None | by apply first_key_None].
  - apply StronglySorted_inv in Hs as [_ Hx]. rewrite Forall_forall in Hx.
    destruct s; [apply last_key_Some | apply first_key_Some];
      setoid_rewrite Hk; (split; [exists o; split; [left|done]|]);
      intros p (o' & [->|Ho']%elem_of_cons & <-); try lia;
      specialize (Hx _ Ho'); unfold prio in Hx; simpl in Hx; lia.
Qed.

End rep.

(** ** Changing one queue *)

Definition upd (q : Side -> Z -> list Z) (s : Side) (p : Z) (l : list Z) : Side -> Z -> list Z :=
  fun s' p' => if decide (s' = s /\ p' = p) then l else q s' p'.

Lemma best_key_ext s (m m' : gmap Z PriceLevel) :
  (forall p, is_Some (m !! p) <-> is_Some (m' !! p)) -> best_key s m = best_key s m'.
Proof.
  intros H. apply option_eq. intros k.
  destruct s; simpl; rewrite ?last_key_Some, ?first_key_Some; by setoid_rewrite H.
Qed.

(** A step that only touches the slots of queue [(s, p)] and the free list
    re-establishes the invariant; the index facts are about ids only. *)
Lemma rep_change b sp q free b' L' l' free' s p :
  book_rep b sp q free ->
  length (storage b') = length (storage b) ->
  (forall s' p' i, ~ (s' = s /\ p' = p) -> i ∈ q s' p' -> vget (storage b') i = vget (storage b) i) ->
  queue_ok (storage b') l' (at_price p L') ->
  (forall p', p' ≠ p -> at_price p' L' = at_price p' (sp_side sp s)) ->
  sorted s L' -> (forall o, o ∈ L' -> o_side o = s) -> NoDup (sp_ids (sp_set s L' sp)) ->
  (forall s' p', levels b' s' !! p' =
     if decide (s' = s /\ p' = p) then level_opt l' (at_price p L') else levels b s' !! p') ->
  free_chain (storage b') (a_free_head (b_arena b')) free' -> NoDup free' ->
  (forall i, i ∈ free' -> (i ∉ l') /\ (forall s' p', ~ (s' = s /\ p' = p) -> i ∉ q s' p')) ->
  (forall id i, b_order_index b' !! id = Some i <->
     (exists o, i ∈ l' /\ order_at (storage b') i = Some o /\ o_id o = id) \/
     (exists s' p' o, (~ (s' = s /\ p' = p)) /\ i ∈ q s' p' /\
                 order_at (storage b) i = Some o /\ o_id o = id)) ->
  a_count (b_arena b') = Z.of_nat (size (b_order_index b')) ->
  (size (b_order_index b') + length free' = length (storage b'))%nat ->
  (size (b_order_index b') + length (sp_side sp s) = size (b_order_index b) + length L')%nat ->
  a_capacity (b_arena b') = a_capacity (b_arena b) ->
  (forall s', best b' s' = best_key s' (levels b' s')) ->
  book_rep b' (sp_set s L' sp) (upd q s p l') free'.
Proof.
  intros R Hlen Hframe Hq Hother Hsort Hside Hids Hlev Hfc Hfnd Hfd Hidx Hcnt Hslots Htot Hcap Hbest.
  assert (forall s' p', ~ (s' = s /\ p' = p) ->
            at_price p' (sp_side (sp_set s L' sp) s') = at_price p' (sp_side sp s')) as Hat.
  { intros s' p' Hne. rewrite sp_side_set. case_decide; [|done]. subst. apply Hother. tauto. }
  assert (at_price p (sp_side (sp_set s L' sp) s) = at_price p L') as Hat'
    by (by rewrite sp_side_set, decide_True).
  constructor; try done.
  - intros s' p'. unfold upd. case_decide as Hd; [destruct Hd as [-> ->]; by rewrite Hat'|].
    rewrite Hat by done. eapply queue_frame; [|apply (rep_queue _ _ _ _ R)]. eauto.
  - intros s' p'. rewrite Hlev. unfold upd. case_decide as Hd; [destruct Hd as [-> ->]; by rewrite Hat'|].
    rewrite Hat by done. apply (rep_level _ _ _ _ R).
  - intros s'. rewrite sp_side_set. case_decide; [by subst|]. apply (rep_sorted _ _ _ _ R).
  - intros s' o. rewrite sp_side_set. case_decide; [subst; auto|]. apply (rep_side _ _ _ _ R).
  - intros s' p' i Hi. unfold upd. destruct (Hfd _ Hi). case_decide; auto.
  - intros id i. rewrite Hidx. unfold upd. split.
    + intros [(o & Hi & Ho & Hid)|(s' & p' & o & Hne & Hi & Ho & Hid)].
      * exists s, p, o. by rewrite decide_True.
      * exists s', p', o. rewrite decide_False by done. repeat split; try done.
        unfold order_at in *. by erewrite Hframe.
    + intros (s' & p' & o & Hi & Ho & Hid). case_decide; [left; eauto|].
      right. exists s', p', o. repeat split; try done. unfold order_at in *.
      by erewrite <- Hframe.
  - pose proof (rep_total _ _ _ _ R). pose proof (length_sp_set s L' sp). lia.
  - rewrite Hcap, Hlen. apply (rep_capacity _ _ _ _ R).
  - unfold addressable. rewrite Hlen. apply (rep_addressable _ _ _ _ R).
Qed.

(** ** Reading the book after an assignment to one of its fields *)

Create Rewrite HintDb book.

Lemma levels_set_levels s m b s' :
  levels (set_levels s m b) s' = if decide (s' = s) then m else levels b s'.
Proof. by destruct s, s'. Qed.
Lemma arena_set_levels s m b : b_arena (set_levels s m b) = b_arena b.
Proof. by destruct s. Qed.
Lemma index_set_levels s m b : b_order_index (set_levels s m b) = b_order_index b.
Proof. by destruct s. Qed.
Lemma best_set_levels s m b s' : best (set_levels s m b) s' = best b s'.
Proof. by destruct s, s'. Qed.
Lemma levels_set_arena a b s : levels (set_arena a b) s = levels b s.
Proof. by destruct s. Qed.
Lemma best_set_arena a b s : best (set_arena a b) s = best b s.
Proof. by destruct s. Qed.
Lemma levels_set_index m b s : levels (set_index m b) s = levels b s.
Proof. by destruct s. Qed.
Lemma best_set_index m b s : best (set_index m b) s = best b s.
Proof. by destruct s. Qed.
Lemma levels_update_best b s p s' : levels (update_best_after_insert b s p) s' = levels b s'.
Proof. by destruct s, s'. Qed.
Lemma arena_update_best b s p : b_arena (update_best_after_insert b s p) = b_arena b.
Proof. by destruct s. Qed.
Lemma index_update_best b s p : b_order_index (update_best_after_insert b s p) = b_order_index b.
Proof. by destruct s. Qed.
Lemma levels_drop_level b s p s' :
  levels (drop_level b s p) s' = if decide (s' = s) then delete p (levels b s) else levels b s'.
Proof. by destruct s, s'. Qed.
Lemma arena_drop_level b s p : b_arena (drop_level b s p) = b_arena b.
Proof. by destruct s. Qed.
Lemma index_drop_level b s p : b_order_index (drop_level b s p) = b_order_index b.
Proof. by destruct s. Qed.
Lemma best_drop_level b s p s' :
  best (drop_level b s p) s' =
  if decide (s' = s) then best_key s (delete p (levels b s)) else best b s'.
Proof. by destruct s, s'. Qed.

#[export] Hint Rewrite levels_set_levels arena_set_levels index_set_levels best_set_levels
  levels_set_arena best_set_arena levels_set_index best_set_index levels_update_best
  arena_update_best index_update_best levels_drop_level arena_drop_level index_drop_level
  best_drop_level : book.

Ltac book_simpl := repeat progress (simpl in *; autorewrite with book in *).

(** [b] with the queue [(s, p)] turned into [l'] holding [os'], as both
    [cancel_order] and [reduce_front_quantity] leave it. *)
Definition put_level (b : OrderBook) (s : Side) (p : Z) (a : Arena) (ix : gmap Z Z)
  (level : PriceLevel) : OrderBook :=
  let b := set_arena a (set_levels s (<[p := level]> (levels b s)) (set_index ix b)) in
  if decide (l_count level = 0) then drop_level b s p else b.

Lemma level_of_count_zero l os :
  Z.of_nat (length l) < 2 ^ 32 -> l_count (level_of l os) = 0 <-> l = [].
Proof.
  intros Hl. simpl. rewrite wrap_small by lia. destruct l; simpl; [done|]. split; [lia|done].
Qed.

Lemma levels_put_level b s p a ix l os s' p' :
  Z.of_nat (length l) < 2 ^ 32 ->
  levels (put_level b s p a ix (level_of l os)) s' !! p' =
  if decide (s' = s /\ p' = p) then level_opt l os else levels b s' !! p'.
Proof.
  intros Hl. unfold put_level.
  destruct (decide (l_count (level_of l os) = 0)) as [Hc|Hc];
    rewrite level_of_count_zero in Hc by done; book_simpl.
  - subst l. destruct (decide (s' = s)) as [->|Hs]; [|by rewrite decide_False by tauto].
    rewrite decide_True by done. destruct (decide (p' = p)) as [->|Hp].
    + rewrite lookup_delete_eq, decide_True by done. done.
    + rewrite lookup_delete_ne, lookup_insert_ne, decide_False by first [congruence|tauto]. done.
  - destruct (decide (s' = s)) as [->|Hs]; [|by rewrite decide_False by tauto].
    destruct (decide (p' = p)) as [->|Hp].
    + rewrite lookup_insert_eq, decide_True by done. by destruct l.
    + by rewrite lookup_insert_ne, decide_False by first [congruence|tauto].
Qed.

Lemma best_put_level b s p a ix l os s' :
  Z.of_nat (length l) < 2 ^ 32 -> is_Some (levels b s !! p) ->
  (forall s, best b s = best_key s (levels b s)) ->
  best (put_level b s p a ix (level_of l os)) s' =
  best_key s' (levels (put_level b s p a ix (level_of l os)) s').
Proof.
  intros Hl Hsome Hb. pose proof (fun p' => levels_put_level b s p a ix l os s' p' Hl) as Hlev.
  revert Hlev. unfold put_level.
  destruct (decide (l_count (level_of l os) = 0)) as [Hc|Hc]; rewrite level_of_count_zero in Hc by done.
  - intros _. book_simpl. destruct (decide (s' = s)) as [->|]; [done|]. apply Hb.
  - intros Hlev. transitivity (best b s'); [by book_simpl|]. rewrite Hb.
    apply best_key_ext. intros p'. rewrite Hlev.
    destruct (decide (s' = s /\ p' = p)) as [[-> ->]|]; [|done].
    destruct l; [done|]. simpl. split; intros; eauto.
Qed.

Lemma arena_put_level b s p a ix lvl : b_arena (put_level b s p a ix lvl) = a.
Proof. unfold put_level. case_decide; by book_simpl. Qed.
Lemma index_put_level b s p a ix lvl : b_order_index (put_level b s p a ix lvl) = ix.
Proof. unfold put_level. case_decide; by book_simpl. Qed.

(** ** [insert_order] *)

Lemma best_after_insert b s p (m : gmap Z PriceLevel) lvl :
  best b s = best_key s m ->
  best (update_best_after_insert b s p) s = best_key s (<[p := lvl]> m).
Proof.
  assert (forall k, is_Some (<[p := lvl]> m !! k) <-> k = p \/ is_Some (m !! k)) as Hk.
  { intros k. rewrite lookup_insert_is_Some'. split; intros [->|?]; auto. }
  intros Hb. symmetry. destruct s; simpl in *; unfold best_bid, best_ask in Hb; rewrite Hb;
    [apply last_key_Some | apply first_key_Some]; setoid_rewrite Hk.
  - destruct (last_key m) as [k|] eqn:E; simpl.
    + apply last_key_Some in E as [Hs Hm]. split.
      * destruct (Z.max_dec k p) as [-> | ->]; auto.
      * intros k' [->|Hk']; [lia|]. specialize (Hm _ Hk'). lia.
    + apply last_key_None in E as ->. split; [auto|]. intros k' [->|[??]]; [lia|].
      by rewrite lookup_empty in *.
  - destruct (first_key m) as [k|] eqn:E; simpl.
    + apply first_key_Some in E as [Hs Hm]. split.
      * destruct (Z.min_dec k p) as [-> | ->]; auto.
      * intros k' [->|Hk']; [lia|]. specialize (Hm _ Hk'). lia.
    + apply first_key_None in E as ->. split; [auto|]. intros k' [->|[??]]; [lia|].
      by rewrite lookup_empty in *.
Qed.

Lemma best_update_other b s p s' : s' <> s -> best (update_best_after_insert b s p) s' = best b s'.
Proof. by destruct s, s'. Qed.

(** The queue after [alloc] and [push_back]. *)
Lemma insert_queue b sp q i free o :
  book_rep b sp q (i :: free) ->
  let s := o_side o in let p := o_price o in
  let st1 := vset (storage b) i (from_order o) in
  exists fh st2,
    alloc (b_arena b) o = Some (mkArena st1 fh (u32_add (a_count (b_arena b)) 1)
                                        (a_capacity (b_arena b)), Ok i) /\
    push_back (mkArena st1 fh (u32_add (a_count (b_arena b)) 1) (a_capacity (b_arena b)))
              (level_of (q s p) (at_price p (sp_side sp s))) i =
      Some (mkArena st2 fh (u32_add (a_count (b_arena b)) 1) (a_capacity (b_arena b)),
            level_of (q s p ++ [i]) (at_price p (sp_side sp s) ++ [o])) /\
    free_chain st2 fh free /\ length st2 = length (storage b) /\
    queue_ok st2 (q s p ++ [i]) (at_price p (sp_side sp s) ++ [o]) /\
    order_at st2 i = Some o /\
    (forall j, j ∉ q s p -> j <> i -> vget st2 j = vget (storage b) j) /\
    (forall j, j <> i -> order_at st2 j = order_at (storage b) j).
Proof.
  intros R s p st1.
  assert (forall s p, i ∉ q s p) as Hi by (intros; eapply rep_free_disj; [done|left]).
  destruct (alloc_spec (b_arena b) o i free) as (fh & Ha & Hfc); [by eapply rep_addressable..|
    by eapply rep_free_nodup|by eapply rep_free|].
  destruct (free_chain_get _ _ _ i (rep_free _ _ _ _ R)) as [n0 Hn0]; [left|].
  assert (vget st1 i = Some (from_order o)) as Hni by (by eapply vget_vset_eq).
  assert (order_at st1 i = Some o) as Hoi by (unfold order_at; rewrite Hni; by destruct o).
  assert (queue_ok st1 (q s p) (at_price p (sp_side sp s))) as (Hnd & Hseg & Hord).
  { eapply queue_frame; [|apply (rep_queue _ _ _ _ R)]. intros j Hj. apply vget_vset_ne.
    intros ->. by apply (Hi s p). }
  destruct (push_back_spec (mkArena st1 fh (u32_add (a_count (b_arena b)) 1) (a_capacity (b_arena b)))
              (q s p) (at_price p (sp_side sp s)) i o)
    as (st2 & Hpb & Hseg2 & Hlen & Hsame & Hoff); try done; simpl in *.
  { unfold addressable, st1. rewrite length_vset. by eapply rep_addressable. }
  exists fh, st2. repeat split; try done.
  - eapply free_chain_frame; [|exact Hfc]. intros j Hj. apply Hoff.
    pose proof (rep_free_nodup _ _ _ _ R) as [? _]%NoDup_cons.
    rewrite not_elem_of_app. split; [eapply rep_free_disj; [done|by right]|]. set_solver.
  - unfold st1 in Hlen. by rewrite length_vset in Hlen.
  - apply NoDup_app. split; [done|]. split; [|apply NoDup_singleton]. intros j Hj ->%list_elem_of_singleton. by apply (Hi s p).
  - apply Forall2_app; [|by repeat constructor; rewrite Hsame].
    eapply Forall2_order_at_eq; [|exact Hord]. auto.
  - by rewrite Hsame.
  - intros j Hj Hne. rewrite Hoff by set_solver. by apply vget_vset_ne.
  - intros j Hne. rewrite Hsame. unfold order_at, st1. by rewrite vget_vset_ne.
Qed.

Lemma index_insert b sp q s p i o st2 {free} (R : book_rep b sp q free) :
  (forall s' p' j, j ∈ q s' p' -> j <> i) ->
  b_order_index b !! o_id o = None -> order_at st2 i = Some o ->
  (forall j, j <> i -> order_at st2 j = order_at (storage b) j) ->
  forall id j, <[o_id o := i]> (b_order_index b) !! id = Some j <->
    (exists o, j ∈ q s p ++ [i] /\ order_at st2 j = Some o /\ o_id o = id) \/
    (exists s' p' o, (~ (s' = s /\ p' = p)) /\ j ∈ q s' p' /\
                order_at (storage b) j = Some o /\ o_id o = id).
Proof.
  intros Hne Hnone Hoi Hoth id j. rewrite lookup_insert_Some, (rep_index _ _ _ _ R). split.
  - intros [[<- <-]|(Hid & s' & p' & o' & Hj & Ho' & Hid')].
    + left. exists o. rewrite elem_of_app. split; [right; left|]. done.
    + destruct (decide (s' = s /\ p' = p)) as [[-> ->]|Hd]; [left|right; eauto 10].
      exists o'. rewrite elem_of_app, Hoth by (by eapply Hne). auto.
  - intros [(o' & Hj & Ho' & <-)|(s' & p' & o' & Hd & Hj & Ho' & <-)].
    + apply elem_of_app in Hj as [Hj| ->%list_elem_of_singleton].
      * right. rewrite Hoth in Ho' by (by eapply Hne). split; [|eauto 10].
        intros Heq. apply eq_None_not_Some in Hnone. apply Hnone. rewrite Heq.
        exists j. apply (rep_index _ _ _ _ R). eauto 10.
      * left. by simplify_eq.
    + right. split; [|eauto 10]. intros Heq. apply eq_None_not_Some in Hnone. apply Hnone.
      rewrite Heq. exists j. apply (rep_index _ _ _ _ R). eauto 10.
Qed.

(** One level overwritten in the map of its side. *)
Lemma level_insert_at b s p lvl s' p' :
  (if decide (s' = s) then <[p := lvl]> (levels b s) else levels b s') !! p' =
  if decide (s' = s /\ p' = p) then Some lvl else levels b s' !! p'.
Proof.
  destruct (decide (s' = s)) as [->|]; [|by rewrite decide_False by tauto].
  rewrite lookup_insert. destruct (decide (p = p')) as [<-|Hp]; [by rewrite decide_True|].
  by rewrite decide_False by (by intros [_ ->]).
Qed.

(** The book after an order took the first free slot. *)
Lemma rep_join b sp q i free o fh st2 :
  book_rep b sp q (i :: free) -> b_order_index b !! o_id o = None -> o_id o ∉ sp_ids sp ->
  let s := o_side o in let p := o_price o in
  free_chain st2 fh free -> length st2 = length (storage b) ->
  queue_ok st2 (q s p ++ [i]) (at_price p (sp_side sp s) ++ [o]) -> order_at st2 i = Some o ->
  (forall j, j ∉ q s p -> j <> i -> vget st2 j = vget (storage b) j) ->
  (forall j, j <> i -> order_at st2 j = order_at (storage b) j) ->
  represents
    (update_best_after_insert
       (set_index (<[o_id o := i]> (b_order_index b))
          (set_arena (mkArena st2 fh (u32_add (a_count (b_arena b)) 1) (a_capacity (b_arena b)))
             (set_levels s (<[p := level_of (q s p ++ [i]) (at_price p (sp_side sp s) ++ [o])]> (levels b s)) b))) s p)
    (sp_set s (insert_prio s o (sp_side sp s)) sp).
Proof.
  intros R Hnone Hid s p Hfc Hlen Hq Hoi Hoff Hoth.
  pose proof (rep_slots _ _ _ _ R) as Hslots. simpl in Hslots.
  assert (forall s' p' j, j ∈ q s' p' -> j <> i) as Hne.
  { intros s' p' j Hj ->. by eapply (rep_free_disj _ _ _ _ R); [left|]. }
  assert (at_price p (insert_prio s o (sp_side sp s)) = at_price p (sp_side sp s) ++ [o]) as Hat.
  { rewrite at_price_insert_prio by apply (rep_sorted _ _ _ _ R). by rewrite decide_True. }
  eexists _, free.
  eapply (rep_change b sp q (i :: free) _ _ (q s p ++ [i]) free s p R); book_simpl.
  - done.
  - intros s' p' j Hd Hj. apply Hoff; [|by eapply Hne].
    intros Hj'. apply Hd, (rep_queues_disjoint R _ _ _ _ _ Hj Hj').
  - by rewrite Hat.
  - intros p' Hp'. rewrite at_price_insert_prio by apply (rep_sorted _ _ _ _ R).
    rewrite decide_False by done. by rewrite app_nil_r.
  - apply insert_prio_sorted, (rep_sorted _ _ _ _ R).
  - intros o' [->|Ho']%elem_of_insert_prio; [done|]. by apply (rep_side _ _ _ _ R).
  - rewrite sp_ids_insert. apply NoDup_cons. split; [tauto|]. apply (rep_ids _ _ _ _ R).
  - intros s' p'. rewrite Hat. book_simpl. rewrite level_insert_at. by destruct (q s p).
  - done.
  - by eapply NoDup_cons_1_2, (rep_free_nodup _ _ _ _ R).
  - intros j Hj. pose proof (rep_free_nodup _ _ _ _ R) as [Hi _]%NoDup_cons. split.
    + rewrite not_elem_of_app, list_elem_of_singleton. split; [|by intros ->].
      eapply (rep_free_disj _ _ _ _ R). by right.
    + intros. eapply (rep_free_disj _ _ _ _ R). by right.
  - apply (index_insert b sp q s p i o st2 R); auto.
  - rewrite map_size_insert_None, (rep_count _ _ _ _ R) by done.
    pose proof (rep_addressable _ _ _ _ R) as Had. unfold addressable, ARENA_NULL in Had.
    unfold u32_add. rewrite wrap_small; lia.
  - rewrite map_size_insert_None by done. simpl. lia.
  - rewrite map_size_insert_None, length_insert_prio by done. lia.
  - done.
  - intros s'. destruct (decide (s' = s)) as [->|Hs'].
    + book_simpl. rewrite decide_True by done. apply best_after_insert. book_simpl. apply (rep_best _ _ _ _ R).
    + book_simpl. rewrite best_update_other, decide_False by done. book_simpl. apply (rep_best _ _ _ _ R).
Qed.

Theorem insert_order_rep b sp o :
  represents b sp ->
  exists b', insert_order b o = Some (b', snd (spec_insert (a_capacity (b_arena b)) sp o)) /\
             represents b' (fst (spec_insert (a_capacity (b_arena b)) sp o)) /\
             a_capacity (b_arena b') = a_capacity (b_arena b).
Proof.
  intros (q & free & R). unfold insert_order, spec_insert.
  pose proof (rep_index_ids R (o_id o)) as Hid.
  destruct (decide (is_Some (b_order_index b !! o_id o))) as [Hs|Hs].
  { rewrite decide_True by tauto. exists b. split; [done|]. split; [by exists q, free|done]. }
  rewrite decide_False by tauto.
  pose proof (rep_slots _ _ _ _ R) as Hslots. pose proof (rep_total _ _ _ _ R) as Htot.
  pose proof (rep_capacity _ _ _ _ R) as Hcap.
  destruct free as [|i free]; simpl in Hslots.
  { rewrite decide_True by lia. rewrite (alloc_full_spec _ _ (rep_free _ _ _ _ R)). simpl.
    exists b. split; [by destruct b|]. split; [by exists q, []|done]. }
  rewrite decide_False by lia.
  destruct (insert_queue b sp q i free o R)
    as (fh & st2 & Ha & Hpb & Hfc & Hlen & Hq & Hoi & Hoff & Hoth).
  rewrite Ha. simpl. rewrite (rep_level _ _ _ _ R).
  rewrite (default_level_opt _ _ _ (rep_queue _ _ _ _ R _ _)), Hpb. simpl.
  eexists. split; [reflexivity|]. split; [|by book_simpl].
  rewrite index_set_levels. apply (rep_join b sp q i free o fh st2 R); try done; [by apply eq_None_not_Some|tauto].
Qed.

(** ** An order leaves the book: [cancel_order], and a maker fully filled *)

Lemma index_delete b sp q s p l1 i l2 o st2 {free} (R : book_rep b sp q free) :
  q s p = l1 ++ i :: l2 -> order_at (storage b) i = Some o ->
  (forall j, j <> i -> order_at st2 j = order_at (storage b) j) ->
  forall id j, delete (o_id o) (b_order_index b) !! id = Some j <->
    (exists o, j ∈ l1 ++ l2 /\ order_at st2 j = Some o /\ o_id o = id) \/
    (exists s' p' o, (~ (s' = s /\ p' = p)) /\ j ∈ q s' p' /\
                order_at (storage b) j = Some o /\ o_id o = id).
Proof.
  intros Hq Ho Hoth id j.
  assert (i ∈ q s p) as Hi by (rewrite Hq; set_solver).
  destruct (rep_queue _ _ _ _ R s p) as (Hnd & _). rewrite Hq in Hnd.
  assert (i ∉ l1 ++ l2) as Hni by (rewrite <- Permutation_middle, NoDup_cons in Hnd; tauto).
  rewrite lookup_delete_Some, (rep_index _ _ _ _ R). split.
  - intros (Hid & s' & p' & o' & Hj & Ho' & <-).
    destruct (decide (s' = s /\ p' = p)) as [[-> ->]|Hd]; [left|right; eauto 10].
    assert (j <> i) as Hji by (intros ->; congruence).
    exists o'. rewrite Hoth by done. split; [|done]. rewrite Hq in Hj. set_solver.
  - intros [(o' & Hj & Ho' & <-)|(s' & p' & o' & Hd & Hj & Ho' & <-)].
    + assert (j <> i) as Hji by (intros ->; done). rewrite Hoth in Ho' by done.
      assert (j ∈ q s p) as Hj' by (rewrite Hq; set_solver).
      split; [|eauto 10]. intros Heq. by apply Hji, (rep_id_unique R s p j o' s p i o).
    + split; [|eauto 10]. intros Heq.
      assert (j = i) as -> by (by apply (rep_id_unique R s' p' j o' s p i o)).
      by apply Hd, (rep_queues_disjoint R _ _ _ _ _ Hj Hi).
Qed.

Lemma queue_leave st st2 (l1 : list Z) i l2 os1 os2 o :
  NoDup (l1 ++ i :: l2) -> length l1 = length os1 ->
  Forall2 (fun i o => order_at st i = Some o) (l1 ++ i :: l2) (os1 ++ o :: os2) ->
  seg st2 ARENA_NULL (l1 ++ l2) ARENA_NULL ->
  (forall j, j ∈ l1 ++ l2 -> order_at st2 j = order_at st j) ->
  queue_ok st2 (l1 ++ l2) (os1 ++ os2).
Proof.
  intros Hnd Hl HF Hseg He. split; [|split; [done|]].
  - rewrite <- Permutation_middle, NoDup_cons in Hnd. tauto.
  - apply Forall2_app_inv in HF as [HF1 HF2]; [|done]. apply Forall2_cons_1 in HF2 as [_ HF2].
    eapply Forall2_order_at_eq; [exact He|]. by apply Forall2_app.
Qed.

Lemma rep_leave b sp q free s p l1 i l2 os1 o os2 st2 :
  book_rep b sp q free ->
  q s p = l1 ++ i :: l2 -> at_price p (sp_side sp s) = os1 ++ o :: os2 -> length l1 = length os1 ->
  order_at (storage b) i = Some o ->
  length st2 = length (storage b) ->
  (forall j, j ∉ q s p -> vget st2 j = vget (storage b) j) ->
  (forall j, j <> i -> order_at st2 j = order_at (storage b) j) ->
  seg st2 ARENA_NULL (l1 ++ l2) ARENA_NULL -> free_chain st2 i (i :: free) ->
  represents
    (put_level b s p
       (mkArena st2 i (u32_sub (a_count (b_arena b)) 1) (a_capacity (b_arena b)))
       (delete (o_id o) (b_order_index b)) (level_of (l1 ++ l2) (os1 ++ os2)))
    (sp_set s (without_id (o_id o) (sp_side sp s)) sp).
Proof.
  intros R Hq Hos Hl1 Ho Hlen Hoff Hoth Hseg Hfc.
  assert (i ∈ q s p) as Hi by (rewrite Hq; set_solver).
  destruct (rep_queue _ _ _ _ R s p) as (Hnd & _ & HF). rewrite Hq, Hos in HF. rewrite Hq in Hnd.
  pose proof (rep_queue_length R s p) as Hql. rewrite Hq, length_app in Hql. simpl in Hql.
  assert (o ∈ sp_side sp s) as HoL.
  { assert (o ∈ at_price p (sp_side sp s)) as [_ ?]%elem_of_at_price by (rewrite Hos; set_solver). done. }
  pose proof (sp_ids_side_nodup s _ (rep_ids _ _ _ _ R)) as Hids.
  destruct (without_id_unique _ _ Hids HoL) as (L1 & L2 & HL & HL' & HnL).
  pose proof (at_price_leave p _ _ _ _ Hids Hos) as Hat.
  assert (b_order_index b !! o_id o = Some i) as Hix by (apply (rep_index _ _ _ _ R); eauto 10).
  pose proof (rep_slots _ _ _ _ R) as Hslots. pose proof (rep_count _ _ _ _ R) as Hcnt.
  pose proof (rep_total _ _ _ _ R) as Htot. pose proof (rep_addressable _ _ _ _ R) as Had.
  unfold addressable, ARENA_NULL in Had.
  assert (size (b_order_index b) = S (size (delete (o_id o) (b_order_index b)))) as Hsz.
  { rewrite <- (insert_delete_id _ _ _ Hix) at 1. apply map_size_insert_None, lookup_delete_eq. }
  assert (i ∉ l1 ++ l2) as Hni by (rewrite <- Permutation_middle, NoDup_cons in Hnd; tauto).
  eexists _, (i :: free). eapply (rep_change b sp q free _ _ (l1 ++ l2) (i :: free) s p R);
    rewrite ?arena_put_level, ?index_put_level; simpl.
  - done.
  - intros s' p' j Hd Hj. apply Hoff. intros Hj'. apply Hd, (rep_queues_disjoint R _ _ _ _ _ Hj Hj').
  - rewrite Hat. apply (queue_leave _ _ _ _ _ _ _ o Hnd Hl1 HF Hseg).
    intros j Hj. apply Hoth. by intros ->.
  - intros p' Hp'. apply (at_price_leave_other p); try done.
    by destruct (rep_slot_order R _ _ _ Hi) as (o' & ? & _ & _ & ?); simplify_eq.
  - apply sorted_filter, (rep_sorted _ _ _ _ R).
  - intros o' [_ Ho']%list_elem_of_filter. by apply (rep_side _ _ _ _ R).
  - apply sp_ids_without, (rep_ids _ _ _ _ R).
  - intros s' p'. rewrite Hat. apply levels_put_level. rewrite length_app. lia.
  - done.
  - apply NoDup_cons. split; [|apply (rep_free_nodup _ _ _ _ R)]. intros Hf. by apply (rep_free_disj _ _ _ _ R s p i).
  - intros j [->|Hj]%elem_of_cons.
    + split; [done|]. intros s' p' Hd Hj. apply Hd, (rep_queues_disjoint R _ _ _ _ _ Hj Hi).
    + split; [|intros; by apply (rep_free_disj _ _ _ _ R)].
      intros Hj'. apply (rep_free_disj _ _ _ _ R s p j Hj). rewrite Hq. set_solver.
  - by apply (index_delete b sp q s p l1 i l2 o st2 R).
  - rewrite Hcnt, Hsz. unfold u32_sub. rewrite wrap_small; lia.
  - simpl. lia.
  - rewrite HL', HL, !length_app. simpl. lia.
  - done.
  - intros s'. apply best_put_level; [rewrite length_app; lia| |apply (rep_best _ _ _ _ R)].
    rewrite (rep_level _ _ _ _ R), Hq. destruct l1; simpl; eauto.
Qed.

Lemma order_at_get st i o :
  order_at st i = Some o -> exists n, vget st i = Some n /\ to_order n = o.
Proof. intros (n & Hn & ->)%fmap_Some. eauto. Qed.

Lemma spec_cancel_side sp s o :
  NoDup (sp_ids sp) -> o ∈ sp_side sp s ->
  spec_cancel sp (o_id o) = (sp_set s (without_id (o_id o) (sp_side sp s)) sp, Ok o).
Proof.
  intros Hids Ho. unfold spec_cancel.
  assert (filter (fun o' => o_id o' = o_id o) (sp_all sp) = [o]) as ->.
  { assert (o ∈ sp_all sp) as (L1 & L2 & HL)%list_elem_of_split by (apply elem_of_sp_all; eauto).
    unfold sp_ids in Hids. rewrite HL in *.
    rewrite fmap_app, fmap_cons, <- Permutation_middle, NoDup_cons, <- fmap_app in Hids.
    destruct Hids as [Hn _]. rewrite filter_app, filter_cons, decide_True by done.
    assert (forall L, o_id o ∉ o_id <$> L -> filter (fun o' => o_id o' = o_id o) L = []) as Hnil.
    { intros L HnL. destruct (filter _ L) as [|x l] eqn:E; [done|].
      assert (x ∈ filter (fun o' => o_id o' = o_id o) L) as [Hx HxL]%list_elem_of_filter
        by (rewrite E; left).
      destruct HnL. rewrite <- Hx. apply list_elem_of_fmap. eauto. }
    rewrite fmap_app, not_elem_of_app in Hn. by rewrite !Hnil by tauto. }
  simpl. f_equal. pose proof (without_id_notin _ _ (sp_ids_other _ _ _ Hids Ho)) as Hoth.
  destruct s; simpl in *; by rewrite Hoth.
Qed.

(** Unlinking and freeing a resting order, as [cancel_order] does. *)
Lemma remove_dealloc b sp q free s p l1 i l2 os1 o os2 :
  book_rep b sp q free ->
  q s p = l1 ++ i :: l2 -> at_price p (sp_side sp s) = os1 ++ o :: os2 ->
  order_at (storage b) i = Some o -> length l1 = length os1 ->
  exists st1 st2,
    remove (b_arena b) (level_of (l1 ++ i :: l2) (os1 ++ o :: os2)) i =
      Some (with_storage (b_arena b) st1, level_of (l1 ++ l2) (os1 ++ os2)) /\
    dealloc (with_storage (b_arena b) st1) i =
      Some (mkArena st2 i (u32_sub (a_count (b_arena b)) 1) (a_capacity (b_arena b))) /\
    represents
      (put_level b s p
         (mkArena st2 i (u32_sub (a_count (b_arena b)) 1) (a_capacity (b_arena b)))
         (delete (o_id o) (b_order_index b)) (level_of (l1 ++ l2) (os1 ++ os2)))
      (sp_set s (without_id (o_id o) (sp_side sp s)) sp).
Proof.
  intros R Hl Hos Ho Hlen. destruct (rep_queue _ _ _ _ R s p) as (Hnd & Hseg & _).
  rewrite Hl in Hnd, Hseg.
  assert (i ∉ l1 ++ l2) as Hni by (rewrite <- Permutation_middle, NoDup_cons in Hnd; tauto).
  assert (forall j, j ∈ free -> j ∉ l1 ++ i :: l2) as Hfd
    by (intros; rewrite <- Hl; by apply (rep_free_disj _ _ _ _ R)).
  destruct (remove_spec (b_arena b) l1 i l2 os1 o os2) as (st1 & Hrm & Hseg1 & Hr1);
    [by eapply rep_addressable|done..|].
  destruct (order_at_get _ _ _ Ho) as (n & Hn & _). pose proof Hr1 as (Hlen1 & Hsame1 & Hoff1).
  destruct (dealloc_spec (with_storage (b_arena b) st1) i n free) as (st2 & Hde & Hfc & Hr2); simpl in *.
  { by rewrite Hoff1. }
  { intros Hf. apply (Hfd _ Hf). set_solver. }
  { eapply free_chain_frame; [|apply (rep_free _ _ _ _ R)]. intros j Hj. apply Hoff1.
    specialize (Hfd _ Hj). set_solver. }
  pose proof Hr2 as (Hlen2 & Hsame2 & Hoff2).
  exists st1, st2. split; [done|]. split; [done|]. apply (rep_leave b sp q free); try done.
  - congruence.
  - rewrite Hl. intros j Hj. rewrite Hoff2, Hoff1; set_solver.
  - intros j _. by rewrite Hsame2.
  - eapply seg_relinked; [exact Hr2| |done]. set_solver.
Qed.

Theorem cancel_order_rep b sp id :
  represents b sp ->
  exists b', cancel_order b id = Some (b', snd (spec_cancel sp id)) /\
             represents b' (fst (spec_cancel sp id)) /\
             a_capacity (b_arena b') = a_capacity (b_arena b).
Proof.
  intros (q & free & R). unfold cancel_order.
  pose proof (rep_index_ids R id) as Hid. destruct (b_order_index b !! id) as [i|] eqn:Hix.
  2:{ exists b. unfold spec_cancel. destruct (filter _ _) as [|o l] eqn:E.
      - split; [done|]. split; [by exists q, free|done].
      - assert (o ∈ filter (fun o => o_id o = id) (sp_all sp)) as [Ho HoL]%list_elem_of_filter
          by (rewrite E; left).
        assert (is_Some (None : option Z)) as [??]; [|done]. apply Hid. subst id.
        apply list_elem_of_fmap. eauto. }
  apply (rep_index _ _ _ _ R) in Hix as (s & p & o & Hi & Ho & <-).
  destruct (rep_slot_order R _ _ _ Hi) as (o' & Ho' & HoL & Hs & Hp).
  rewrite Ho in Ho'. injection Ho' as <-. subst s p.
  destruct (order_at_get _ _ _ Ho) as (n & Hn & Hno). book_simpl.
  pose proof (f_equal o_side Hno) as Hns. pose proof (f_equal o_price Hno) as Hnp.
  unfold get. rewrite Hn. simpl in *. rewrite Hno, Hns, Hnp. book_simpl.
  rewrite (rep_level _ _ _ _ R).
  pose proof (rep_queue _ _ _ _ R (o_side o) (o_price o)) as Hq.
  apply list_elem_of_split in Hi as (l1 & l2 & Hl). rewrite Hl in *.
  destruct (queue_split _ _ _ _ _ Hq) as (os1 & o' & os2 & Hos & Ho'' & HF1 & HF2).
  rewrite Ho in Ho''. injection Ho'' as <-. rewrite Hos in *. destruct Hq as (Hnd & Hseg & HF).
  replace (level_opt (l1 ++ i :: l2) (os1 ++ o :: os2))
    with (Some (level_of (l1 ++ i :: l2) (os1 ++ o :: os2))) by (by destruct l1).
  destruct (remove_dealloc b sp q free (o_side o) (o_price o) l1 i l2 os1 o os2 R)
    as (st1 & st2 & Hrm & Hde & Hrep); [done|done|done|by eapply Forall2_length|].
  cbv beta iota. rewrite Hrm. simpl. rewrite Hde. simpl.
  rewrite (spec_cancel_side sp (o_side o) o (rep_ids _ _ _ _ R) HoL).
  eexists. split; [reflexivity|]. split; [exact Hrep|]. by case_decide; book_simpl.
Qed.

(** ** [peek_front] and [reduce_front_quantity] *)

(** The front of the best level is the first order in priority. *)
Lemma sorted_head_queue s o L :
  sorted s (o :: L) -> at_price (o_price o) (o :: L) = o :: at_price (o_price o) L.
Proof. intros _. by rewrite at_price_cons, decide_True. Qed.

Lemma rep_best_queue b sp q free s o L :
  book_rep b sp q free -> sp_side sp s = o :: L ->
  exists i l, q s (o_price o) = i :: l /\ order_at (storage b) i = Some o /\
    i <> ARENA_NULL /\
    levels b s !! o_price o = Some (level_of (i :: l) (o :: at_price (o_price o) L)).
Proof.
  intros R HL. pose proof (rep_queue _ _ _ _ R s (o_price o)) as (Hnd & Hseg & HF).
  pose proof (rep_level _ _ _ _ R s (o_price o)) as Hlev.
  rewrite HL, at_price_cons, decide_True in HF, Hlev by done.
  apply Forall2_cons_inv_r in HF as (i & l & Ho & HF & Hq). rewrite Hq in *.
  exists i, l. repeat split; try done.
  destruct (order_at_get _ _ _ Ho) as (n & Hn & _).
  by eapply (get_not_null (b_arena b)); [eapply rep_addressable|].
Qed.

Theorem peek_front_rep b sp s o L :
  represents b sp -> sp_side sp s = o :: L ->
  exists n, peek_front b s (o_price o) = Some (Some n) /\ to_order n = o.
Proof.
  intros (q & free & R) HL.
  destruct (rep_best_queue _ _ _ _ _ _ _ R HL) as (i & l & _ & Ho & Hnn & Hlev).
  destruct (order_at_get _ _ _ Ho) as (n & Hn & Hno). exists n. split; [|done].
  unfold peek_front. rewrite Hlev. simpl. rewrite decide_False by done.
  unfold get. by rewrite Hn.
Qed.

Lemma index_same b sp q s p st' {free} (R : book_rep b sp q free) :
  (forall j, o_id <$> order_at st' j = o_id <$> order_at (storage b) j) ->
  forall id j, b_order_index b !! id = Some j <->
    (exists o, j ∈ q s p /\ order_at st' j = Some o /\ o_id o = id) \/
    (exists s' p' o, (~ (s' = s /\ p' = p)) /\ j ∈ q s' p' /\
                order_at (storage b) j = Some o /\ o_id o = id).
Proof.
  intros He id j. specialize (He j). rewrite (rep_index _ _ _ _ R). split.
  - intros (s' & p' & o & Hj & Ho & <-).
    destruct (decide (s' = s /\ p' = p)) as [[-> ->]|Hd]; [left|right; eauto 10].
    rewrite Ho in He. apply fmap_Some in He as (o' & Ho' & Hid). eauto.
  - intros [(o & Hj & Ho & <-)|(s' & p' & o & _ & ?)]; [|eauto 10].
    rewrite Ho in He. symmetry in He. apply fmap_Some in He as (o' & Ho' & Hid). eauto 10.
Qed.

(** The front queue after a partial fill of its first order. *)
Lemma partial_queue st i l m os n r :
  queue_ok st (i :: l) (m :: os) -> vget st i = Some n -> to_order n = m ->
  queue_ok (vset st i (set_node_quantity r n)) (i :: l) (set_quantity r m :: os).
Proof.
  intros (Hnd & Hseg & HF) Hn Hnm. pose proof Hnd as [Hil _]%NoDup_cons. split; [done|]. split.
  - destruct Hseg as [(n' & Hn' & Hp & Hx) Hseg]. simpl. split; [|by apply seg_vset_ne].
    rewrite (vget_vset_eq _ _ _ _ Hn), Hn in *. injection Hn' as <-. by eexists.
  - constructor.
    + unfold order_at. rewrite (vget_vset_eq _ _ _ _ Hn). simpl. by rewrite <- Hnm.
    + apply Forall2_cons_1 in HF as [_ HF]. eapply Forall2_order_at_eq; [|exact HF].
      intros j Hj. unfold order_at. rewrite vget_vset_ne; [done|]. by intros ->.
Qed.

(** The abstract queue after it. *)
Lemma partial_at_price p r m os L :
  NoDup (o_id <$> L) -> at_price p L = m :: os ->
  at_price p (set_qty_id (o_id m) r L) = set_quantity r m :: os.
Proof.
  intros Hids Hos. assert (NoDup (o_id <$> m :: os)) as [Hmos _]%NoDup_cons.
  { rewrite <- Hos. eapply sublist_NoDup; [exact Hids|]. apply fmap_sublist, at_price_sublist. }
  rewrite at_price_set_qty_id, Hos. simpl. rewrite decide_True by done. f_equal.
  by apply set_qty_id_notin.
Qed.

(** A partial fill: only the quantities of the front node and level change. *)
Lemma rep_partial b sp q free s p i l m os n f :
  book_rep b sp q free -> q s p = i :: l -> at_price p (sp_side sp s) = m :: os ->
  vget (storage b) i = Some n -> to_order n = m ->
  is_u64 (o_quantity m) -> 0 <= f < o_quantity m ->
  let r := o_quantity m - f in
  represents
    (set_arena (with_storage (b_arena b) (vset (storage b) i (set_node_quantity r n)))
       (set_levels s (<[p := level_of (i :: l) (set_quantity r m :: os)]> (levels b s)) b))
    (sp_set s (set_qty_id (o_id m) r (sp_side sp s)) sp).
Proof.
  intros R Hq Hos Hn Hnm Hm Hf r. set (st0 := vset (storage b) i (set_node_quantity r n)).
  pose proof (rep_queue _ _ _ _ R s p) as Hqueue. rewrite Hq, Hos in Hqueue.
  assert (i ∈ q s p) as Hi by (rewrite Hq; left).
  assert (order_at (storage b) i = Some m) as Ho by (unfold order_at; rewrite Hn; simpl; congruence).
  pose proof (sp_ids_side_nodup s _ (rep_ids _ _ _ _ R)) as Hids.
  pose proof (partial_at_price p r m os _ Hids Hos) as Hat.
  assert (forall j, j <> i -> vget st0 j = vget (storage b) j) as Hoff
    by (intros; by apply vget_vset_ne).
  eexists _, free. eapply (rep_change b sp q free _ _ (i :: l) free s p R); book_simpl.
  - apply length_vset.
  - intros s' p' j Hd Hj. apply Hoff. intros ->. apply Hd, (rep_queues_disjoint R _ _ _ _ _ Hj Hi).
  - rewrite Hat. by apply partial_queue.
  - intros p' Hp'. rewrite at_price_set_qty_id. apply set_qty_id_notin.
    destruct (rep_slot_order R _ _ _ Hi) as (m' & Hm' & HmL & _ & Hmp).
    rewrite Ho in Hm'. injection Hm' as <-. by eapply other_price_id.
  - apply sorted_set_qty_id, (rep_sorted _ _ _ _ R).
  - intros o' (o'' & Ho'' & _ & <-)%elem_of_set_qty_id. by apply (rep_side _ _ _ _ R).
  - rewrite sp_ids_set, ids_set_qty_id, <- sp_ids_sides. apply (rep_ids _ _ _ _ R).
  - intros s' p'. rewrite Hat. book_simpl.
    rewrite level_insert_at. done.
  - eapply free_chain_frame; [|apply (rep_free _ _ _ _ R)]. intros j Hj. apply Hoff.
    intros ->. by apply (rep_free_disj _ _ _ _ R s p i).
  - apply (rep_free_nodup _ _ _ _ R).
  - intros j Hj. rewrite <- Hq. split; intros; by apply (rep_free_disj _ _ _ _ R).
  - rewrite <- Hq. apply (index_same b sp q s p st0 R). intros j.
    unfold order_at, st0. destruct (decide (j = i)) as [->|]; [|by rewrite Hoff].
    by rewrite (vget_vset_eq _ _ _ _ Hn), Hn.
  - apply (rep_count _ _ _ _ R).
  - unfold st0. rewrite length_vset. apply (rep_slots _ _ _ _ R).
  - by rewrite length_set_qty_id.
  - done.
  - intros s'. book_simpl. rewrite (rep_best _ _ _ _ R). apply best_key_ext. intros p'.
    case_decide; [subst|done]. rewrite lookup_insert_is_Some'. split; [auto|].
    intros [->|?]; [|done]. rewrite (rep_level _ _ _ _ R), Hq. simpl. eauto.
Qed.

(** The level after the fill quantity is taken off. *)
Lemma level_reduced i l m os f :
  (let lvl := level_of (i :: l) (m :: os) in
   mkLevel (l_head lvl) (l_tail lvl) (l_count lvl) (u64_sub (l_qty lvl) f)) =
  level_of (i :: l) (set_quantity (o_quantity m - f) m :: os).
Proof.
  unfold level_of. cbv zeta. cbn [l_head l_tail l_count l_qty]. f_equal.
  unfold u64_sub. rewrite wrap_sub_l. cbn [sum_qty foldr o_quantity set_quantity]. f_equal. lia.
Qed.

(** The maker is fully filled: its node is emptied, popped and freed. *)
Lemma pop_dealloc b sp q free s p i l m os n :
  book_rep b sp q free -> q s p = i :: l -> at_price p (sp_side sp s) = m :: os ->
  vget (storage b) i = Some n -> to_order n = m ->
  exists st1 st2,
    pop_front (with_storage (b_arena b) (vset (storage b) i (set_node_quantity 0 n)))
              (level_of (i :: l) (set_quantity 0 m :: os)) =
      Some (with_storage (b_arena b) st1, level_of l os, Some i) /\
    dealloc (with_storage (b_arena b) st1) i =
      Some (mkArena st2 i (u32_sub (a_count (b_arena b)) 1) (a_capacity (b_arena b))) /\
    represents
      (put_level b s p
         (mkArena st2 i (u32_sub (a_count (b_arena b)) 1) (a_capacity (b_arena b)))
         (delete (o_id m) (b_order_index b)) (level_of l os))
      (sp_set s (without_id (o_id m) (sp_side sp s)) sp).
Proof.
  intros R Hq Hos Hn Hnm. set (st0 := vset (storage b) i (set_node_quantity 0 n)).
  destruct (rep_queue _ _ _ _ R s p) as (Hnd & Hseg & _). rewrite Hq in Hnd, Hseg.
  pose proof Hnd as [Hil Hndl]%NoDup_cons.
  assert (vget st0 i = Some (set_node_quantity 0 n)) as Hn0 by (by eapply vget_vset_eq).
  assert (forall j, j ∈ free -> j ∉ i :: l) as Hfd
    by (intros; rewrite <- Hq; by apply (rep_free_disj _ _ _ _ R)).
  destruct (pop_front_spec (with_storage (b_arena b) st0) i l (set_quantity 0 m) os)
    as (st1 & Hpop & Hseg1 & Hr1); simpl.
  { unfold addressable, st0. rewrite length_vset. by eapply rep_addressable. }
  { done. }
  { destruct Hseg as [(n' & Hn' & Hp & Hx) Hseg]. split; [|by apply seg_vset_ne].
    rewrite Hn in Hn'. injection Hn' as <-. by eexists. }
  { unfold order_at. rewrite Hn0. simpl. by rewrite <- Hnm. }
  simpl in Hr1. pose proof Hr1 as (Hlen1 & Hsame1 & Hoff1).
  destruct (dealloc_spec (with_storage (b_arena b) st1) i (set_node_quantity 0 n) free)
    as (st2 & Hde & Hfc & Hr2); simpl in *.
  { by rewrite Hoff1. }
  { intros Hf. apply (Hfd _ Hf). left. }
  { eapply free_chain_frame; [|apply (rep_free _ _ _ _ R)]. intros j Hj. specialize (Hfd _ Hj).
    rewrite Hoff1 by set_solver. apply vget_vset_ne. set_solver. }
  pose proof Hr2 as (Hlen2 & Hsame2 & Hoff2).
  exists st1, st2. split; [done|]. split; [done|].
  apply (rep_leave b sp q free s p [] i l [] m os); try done.
  - unfold order_at. by rewrite Hn; simpl; rewrite Hnm.
  - rewrite Hlen2, Hlen1. apply length_vset.
  - rewrite Hq. intros j Hj. rewrite Hoff2, Hoff1 by set_solver. apply vget_vset_ne. set_solver.
  - intros j Hj. rewrite Hsame2, Hsame1. unfold order_at, st0. by rewrite vget_vset_ne.
  - eapply seg_relinked; [exact Hr2| |done]. set_solver.
Qed.

Theorem reduce_front_rep b sp s p f :
  represents b sp -> Forall (fun o => is_u64 (o_quantity o)) (sp_side sp s) -> 0 <= f ->
  exists b', reduce_front_quantity b s p f = Some (b', snd (spec_reduce sp s p f)) /\
             represents b' (fst (spec_reduce sp s p f)) /\
             a_capacity (b_arena b') = a_capacity (b_arena b).
Proof.
  intros (q & free & R) Hu64 Hf. unfold reduce_front_quantity, spec_reduce.
  pose proof (rep_queue _ _ _ _ R s p) as (Hnd & Hseg & HF). rewrite (rep_level _ _ _ _ R).
  destruct (at_price p (sp_side sp s)) as [|m os] eqn:Hos.
  { apply Forall2_nil_inv_r in HF as ->. exists b. split; [done|]. split; [by exists q, free|done]. }
  apply Forall2_cons_inv_r in HF as (i & l & Ho & _ & Hq). rewrite Hq. cbn [level_opt].
  destruct (order_at_get _ _ _ Ho) as (n & Hn & Hnm).
  assert (m ∈ sp_side sp s) as HmL.
  { assert (m ∈ at_price p (sp_side sp s)) as [_ ?]%elem_of_at_price by (rewrite Hos; left). done. }
  rewrite Forall_forall in Hu64. specialize (Hu64 _ HmL). unfold is_u64 in Hu64.
  assert (n_quantity n = o_quantity m) as Hnq by (by rewrite <- Hnm).
  assert (n_id n = o_id m) as Hnid by (by rewrite <- Hnm).
  pose proof (level_reduced i l m os f) as Hlvl. cbv zeta in Hlvl.
  assert (l_head (level_of (i :: l) (m :: os)) = i) as Hhd by done.
  rewrite Hhd in *. cbv zeta.
  rewrite decide_False by (eapply (get_not_null (b_arena b)); [by eapply rep_addressable|exact Hn]).
  unfold get. rewrite Hn. cbn [mbind option_bind]. rewrite Hnq.
  destruct (decide (f > o_quantity m)); [exists b; split; [done|]; split; [by exists q, free|done]|].
  replace (u64_sub (o_quantity m) f) with (o_quantity m - f)
    by (unfold u64_sub; rewrite wrap_small; lia).
  rewrite (update_get _ _ _ _ Hn), Hlvl. cbn [mbind option_bind].
  destruct (decide (o_quantity m - f = 0)) as [Hr|Hr].
  - rewrite Hr. destruct (pop_dealloc b sp q free s p i l m os n R Hq Hos Hn Hnm)
      as (st1 & st2 & Hpop & Hde & Hrep).
    cbn [with_storage a_storage]. rewrite (vget_vset_eq _ _ _ _ Hn).
    cbn [mbind option_bind]. rewrite Hpop. cbn [mbind option_bind]. rewrite Hde.
    cbn [mbind option_bind n_id set_node_quantity]. rewrite Hnid.
    eexists. split; [reflexivity|]. book_simpl. split; [exact Hrep|]. by case_decide; book_simpl.
  - eexists. split; [reflexivity|]. split; [|by book_simpl].
    apply (rep_partial b sp q free s p i l m os n f); try done. lia.
Qed.

(** ** [all_resting_orders] *)

Lemma walk_level_spec a fuel p l os :
  addressable (a_storage a) -> seg (a_storage a) p l ARENA_NULL ->
  Forall2 (fun i o => order_at (a_storage a) i = Some o) l os -> (length l < fuel)%nat ->
  walk_level fuel a (default ARENA_NULL (head l)) = Some os.
Proof.
  intros Ha. revert p os fuel. induction l as [|i l IH]; intros p os fuel Hs HF Hf.
  - apply Forall2_nil_inv_l in HF as ->. by destruct fuel; [lia|].
  - apply Forall2_cons_inv_l in HF as (o & os' & Ho & HF & ->).
    destruct fuel as [|fuel]; [simpl in Hf; lia|]. destruct Hs as [(n & Hn & _ & Hx) Hs].
    simpl. rewrite decide_True by (by eapply (get_not_null a)).
    unfold get. rewrite Hn. simpl. rewrite Hx, (IH i os') by (done || (simpl in Hf; lia)). simpl.
    apply order_at_get in Ho as (n' & Hn' & <-). by simplify_eq.
Qed.

Lemma walk_levels_keys b sp q free s ks :
  book_rep b sp q free -> (forall k, k ∈ ks -> is_Some (levels b s !! k)) ->
  walk_levels b (omap (fun k => levels b s !! k) ks) =
  Some (concat ((fun k => at_price k (sp_side sp s)) <$> ks)).
Proof.
  intros R Hks. unfold walk_levels. remember (S (length (storage b))) as fuel eqn:Hfuel.
  rewrite (mapM_Some_2 _ _ ((fun k => at_price k (sp_side sp s)) <$> ks)); [done|].
  induction ks as [|k ks IH]; [constructor|]. simpl.
  destruct (Hks k ltac:(left)) as [lvl Hlvl]. rewrite Hlvl. constructor; [|apply IH; set_solver].
  rewrite (rep_level _ _ _ _ R) in Hlvl. destruct (rep_queue _ _ _ _ R s k) as (Hnd & Hs & HF).
  pose proof (seg_length _ _ _ _ Hnd Hs) as Hlen.
  destruct (q s k) as [|i l] eqn:E; [done|]. injection Hlvl as <-.
  eapply (walk_level_spec _ _ _ (i :: l)); [by eapply rep_addressable|done|done|].
  simpl in *. lia.
Qed.

Theorem all_resting_orders_rep b sp :
  represents b sp -> all_resting_orders b = Some (sp_all sp).
Proof.
  intros (q & free & R). unfold all_resting_orders, values.
  assert (forall s o, o ∈ sp_side sp s -> o_price o ∈ keys (levels b s)) as Hin.
  { intros s o Ho. apply elem_of_keys, (rep_level_key R). eauto. }
  pose proof (walk_levels_keys b sp q free Ask (keys (b_asks b)) R) as Ha.
  pose proof (walk_levels_keys b sp q free Bid (reverse (keys (b_bids b))) R) as Hb.
  simpl in Ha, Hb. rewrite Ha by (intros k; apply elem_of_keys).
  rewrite omap_reverse, Hb by (intros k; rewrite elem_of_reverse; apply elem_of_keys). simpl.
  unfold sp_all. do 2 f_equal.
  - apply (concat_levels Ask); [apply (rep_sorted _ _ _ _ R Ask)|apply NoDup_keys| |apply (Hin Ask)].
    eapply StronglySorted_impl; [|apply keys_sorted]. simpl. intros; lia.
  - apply (concat_levels Bid); [apply (rep_sorted _ _ _ _ R Bid)|rewrite reverse_Permutation; apply NoDup_keys| |].
    + eapply StronglySorted_impl; [|apply StronglySorted_reverse, keys_sorted]. simpl. unfold flip. intros; lia.
    + intros o Ho. rewrite elem_of_reverse. by apply (Hin Bid).
Qed.

(** ** The empty book, and uniqueness of what a book stands for *)

Lemma with_capacity_rep cap : 0 <= cap < 2 ^ 32 -> represents (with_capacity cap) sp_empty.
Proof.
  intros Hcap. exists (fun _ _ => []), (seqZ 0 cap).
  assert (length (a_storage (Arena_new cap)) = Z.to_nat cap) as Hlen.
  { simpl. by rewrite length_fmap, length_seqZ. }
  constructor; simpl.
  - intros [] p; repeat split; constructor.
  - by intros [] p.
  - intros []; constructor.
  - by intros [] o ?%elem_of_nil.
  - constructor.
  - pose proof (Arena_new_free_chain cap 0 ltac:(lia)) as H. by rewrite Z.sub_0_r in H.
  - apply NoDup_seqZ.
  - intros. apply not_elem_of_nil.
  - intros id i. rewrite lookup_empty. split; [done|]. by intros (_ & _ & _ & ?%elem_of_nil & _).
  - by rewrite map_size_empty.
  - rewrite map_size_empty, length_fmap, length_seqZ. lia.
  - by rewrite map_size_empty.
  - rewrite length_fmap, length_seqZ. lia.
  - unfold addressable, ARENA_NULL. rewrite length_fmap, length_seqZ. lia.
  - by intros [].
Qed.

Lemma represents_unique b sp sp' : represents b sp -> represents b sp' -> sp_all sp = sp_all sp'.
Proof. intros H%all_resting_orders_rep H'%all_resting_orders_rep. congruence. Qed.
