(* ===== verification/Matching.v ===== *)
(** * Matching.v: the matching engine ([src/matching.rs])

    [add_order] matches the incoming order against the opposite side while
    prices cross, then rests what is left; [cancel_order] and
    [restore_from_orders] go to the book.  The two [while] loops of the source
    (one per side) take fuel; [add_order] gives them one step more than the
    book has orders, which [MatchingInv.v] proves to be enough. *)

From S2P Require Import Prelude.
From S2P Require Import Order.
From S2P Require Import Arena.
From S2P Require Import Book.

Record Fill : Type := mkFill {
  f_taker_order_id : Z;
  f_maker_order_id : Z;
  f_price : Z;
  f_quantity : Z;
  f_maker_fully_filled : bool
}.

#[global] Instance Fill_eq_dec : EqDecision Fill.
Proof. solve_decision. Defined.

Inductive OrderStatus : Type :=
| FullyFilled
| PartiallyFilled
| Resting
| CancelledSelfTrade.

#[global] Instance OrderStatus_eq_dec : EqDecision OrderStatus.
Proof. solve_decision. Defined.

Record AddOrderResult : Type := mkAddResult {
  r_order_id : Z;
  r_status : OrderStatus;
  r_fills : list Fill
}.

Inductive MatchingError : Type :=
| MBook (e : BookError)
| ZeroQuantity.

#[global] Instance MatchingError_eq_dec : EqDecision MatchingError.
Proof. solve_decision. Defined.

Record MatchingEngine : Type := mkEngine {
  e_book : OrderBook;
  e_fills_buf : list Fill
}.

(** What the matching loop leaves: the book, the fills, and either the rest of
    the taker with the self-trade flag or the error of an early return. *)
Definition loop_state : Type :=
  OrderBook * list Fill * result (Order * bool) MatchingError.

(** [impl From<BookError> for MatchingError]. *)
Definition MatchingError_from (e : BookError) : MatchingError := MBook e.

Module MatchingEngine.

Definition book (e : MatchingEngine) : OrderBook := e_book e.

Definition with_capacity (arena_capacity : Z) : MatchingEngine :=
  mkEngine (OrderBook.with_capacity arena_capacity) [].

Definition new : MatchingEngine := mkEngine OrderBook.new [].

(** [impl Default for MatchingEngine]. *)
Definition default_engine : MatchingEngine := new.

(** The fill recorded by one iteration. *)
Definition new_fill (order : Order) (maker : OrderNode) (fill_qty maker_remaining : Z) : Fill :=
  mkFill (o_id order) (n_id maker) (n_price maker) fill_qty (bool_decide (maker_remaining = 0)).

(** [Side::Bid => while order.quantity > 0 { ... }]. *)
Fixpoint bid_loop (fuel : nat) (book : OrderBook) (fills : list Fill) (order : Order)
  : option loop_state :=
  match fuel with
  | O => None
  | S fuel =>
      if decide (o_quantity order > 0) then
        match OrderBook.best_ask book with
        | None => Some (book, fills, Ok (order, false))
        | Some best_ask =>
            if decide (best_ask <= o_price order) then
              m ← OrderBook.peek_front book Ask best_ask;
              match m with
              | None => Some (book, fills, Ok (order, false))
              | Some maker =>
                  if decide (n_trader_id maker = o_trader_id order) then
                    Some (book, fills, Ok (order, true))
                  else
                    let fill_qty := Z.min (o_quantity order) (n_quantity maker) in
                    '(book, r) ← OrderBook.reduce_front_quantity book Ask best_ask fill_qty;
                    match r with
                    | Err e => Some (book, fills, Err (MatchingError_from e))
                    | Ok maker_remaining =>
                        bid_loop fuel book
                          (fills ++ [new_fill order maker fill_qty maker_remaining])
                          (set_quantity (u64_sub (o_quantity order) fill_qty) order)
                    end
              end
            else Some (book, fills, Ok (order, false))
        end
      else Some (book, fills, Ok (order, false))
  end.

(** [Side::Ask => while order.quantity > 0 { ... }]. *)
Fixpoint ask_loop (fuel : nat) (book : OrderBook) (fills : list Fill) (order : Order)
  : option loop_state :=
  match fuel with
  | O => None
  | S fuel =>
      if decide (o_quantity order > 0) then
        match OrderBook.best_bid book with
        | None => Some (book, fills, Ok (order, false))
        | Some best_bid =>
            if decide (best_bid >= o_price order) then
              m ← OrderBook.peek_front book Bid best_bid;
              match m with
              | None => Some (book, fills, Ok (order, false))
              | Some maker =>
                  if decide (n_trader_id maker = o_trader_id order) then
                    Some (book, fills, Ok (order, true))
                  else
                    let fill_qty := Z.min (o_quantity order) (n_quantity maker) in
                    '(book, r) ← OrderBook.reduce_front_quantity book Bid best_bid fill_qty;
                    match r with
                    | Err e => Some (book, fills, Err (MatchingError_from e))
                    | Ok maker_remaining =>
                        ask_loop fuel book
                          (fills ++ [new_fill order maker fill_qty maker_remaining])
                          (set_quantity (u64_sub (o_quantity order) fill_qty) order)
                    end
              end
            else Some (book, fills, Ok (order, false))
        end
      else Some (book, fills, Ok (order, false))
  end.

Definition add_order (e : MatchingEngine) (order : Order)
  : option (MatchingEngine * result AddOrderResult MatchingError) :=
  if decide (o_quantity order = 0) then Some (e, Err ZeroQuantity)
  else
    let order_id := o_id order in
    let fuel := S (OrderBook.order_count (e_book e)) in
    '(book, fills, r) ←
      (match o_side order with
       | Bid => bid_loop fuel (e_book e) [] order
       | Ask => ask_loop fuel (e_book e) [] order
       end);
    match r with
    | Err err => Some (mkEngine book fills, Err err)
    | Ok (order, self_trade) =>
        if (self_trade : bool) then
          Some (mkEngine book fills, Ok (mkAddResult order_id CancelledSelfTrade fills))
        else if decide (o_quantity order = 0) then
          Some (mkEngine book fills, Ok (mkAddResult order_id FullyFilled fills))
        else
          '(book, r) ← OrderBook.insert_order book order;
          match r with
          | Err err => Some (mkEngine book fills, Err (MatchingError_from err))
          | Ok _ =>
              let status := if decide (fills = []) then Resting else PartiallyFilled in
              Some (mkEngine book fills, Ok (mkAddResult order_id status fills))
          end
    end.

Definition cancel_order (e : MatchingEngine) (order_id : Z)
  : option (MatchingEngine * result Order MatchingError) :=
  '(book, r) ← OrderBook.cancel_order (e_book e) order_id;
  Some (mkEngine book (e_fills_buf e), map_err MatchingError_from r).

(** The loop of [restore_from_orders]; it stops at the first refused order. *)
Fixpoint restore_loop (e : MatchingEngine) (orders : list Order)
  : option (result MatchingEngine MatchingError) :=
  match orders with
  | [] => Some (Ok e)
  | order :: orders =>
      '(book, r) ← OrderBook.insert_order (e_book e) order;
      match r with
      | Err err => Some (Err (MatchingError_from err))
      | Ok _ => restore_loop (mkEngine book (e_fills_buf e)) orders
      end
  end.

Definition restore_from_orders (orders : list Order) (arena_capacity : Z)
  : option (result MatchingEngine MatchingError) :=
  restore_loop (with_capacity arena_capacity) orders.

End MatchingEngine.
