(* ===== verification/MatchingSpec.v ===== *)
(** * MatchingSpec.v: price-time priority matching on the abstract book

    The rules the engine of [src/matching.rs] implements, on the priority
    lists of [BookSpec.v], and the properties of these rules. *)

From S2P Require Import Prelude.
From S2P Require Import Order.
From S2P Require Import ArenaInv.
From S2P Require Import Book.
From S2P Require Import BookSpec.
From S2P Require Import Matching.

(** A taker on side [s] with limit [limit] accepts the maker price [p]. *)
Definition crosses (s : Side) (limit p : Z) : Prop :=
  match s with Bid => p <= limit | Ask => p >= limit end.

#[global] Instance crosses_dec s limit p : Decision (crosses s limit p).
Proof. destruct s; simpl; apply _. Defined.

(** Match [qty] of the taker against the makers [L] in priority order: the
    fills, the makers left, the quantity left, and whether it stopped at an
    order of the same trader. *)
Fixpoint spec_match (taker : Order) (qty : Z) (L : list Order)
  : list Fill * list Order * Z * bool :=
  match L with
  | [] => ([], [], qty, false)
  | m :: L' =>
      if decide (qty > 0) then
        if decide (crosses (o_side taker) (o_price taker) (o_price m)) then
          if decide (o_trader_id m = o_trader_id taker) then ([], L, qty, true)
          else
            let f := Z.min qty (o_quantity m) in
            let fill := mkFill (o_id taker) (o_id m) (o_price m) f (bool_decide (o_quantity m - f = 0)) in
            if decide (o_quantity m - f = 0) then
              let '(fills, L'', q, st) := spec_match taker (qty - f) L' in
              (fill :: fills, L'', q, st)
            else ([fill], set_quantity (o_quantity m - f) m :: L', qty - f, false)
        else ([], L, qty, false)
      else ([], L, qty, false)
  end.

(** Adding an order: match, then rest what is left unless the match stopped at
    an own order.  The fills are the ones executed, also when the result is an
    error. *)
Definition spec_add (cap : Z) (sp : SpecBook) (order : Order)
  : SpecBook * list Fill * result AddOrderResult MatchingError :=
  if decide (o_quantity order = 0) then (sp, [], Err ZeroQuantity) else
  let s := opposite (o_side order) in
  let '(fills, L, q, self_trade) := spec_match order (o_quantity order) (sp_side sp s) in
  let sp := sp_set s L sp in
  if (self_trade : bool) then (sp, fills, Ok (mkAddResult (o_id order) CancelledSelfTrade fills))
  else if decide (q = 0) then (sp, fills, Ok (mkAddResult (o_id order) FullyFilled fills))
  else
    match spec_insert cap sp (set_quantity q order) with
    | (sp, Err e) => (sp, fills, Err (MBook e))
    | (sp, Ok _) =>
        (sp, fills, Ok (mkAddResult (o_id order)
                          (if decide (fills = []) then Resting else PartiallyFilled) fills))
    end.

(** What a resting order must satisfy: typed fields, a positive quantity. *)
Definition resting_ok (o : Order) : Prop := order_typed o /\ 0 < o_quantity o.

Definition fills_qty (fs : list Fill) : Z := foldr (fun f s => f_quantity f + s) 0 fs.

(** The book is not crossed: every bid is below every ask. *)
Definition uncrossed (sp : SpecBook) : Prop :=
  forall x y, x ∈ sp_bids sp -> y ∈ sp_asks sp -> o_price x < o_price y.

(** ** Properties of the matching rules *)

(** Induction along [spec_match]: it suffices to treat the stops, the partial
    fill that ends the match, and a full fill followed by the rest. *)
Lemma spec_match_ind (taker : Order) (P : Z -> list Order -> list Fill * list Order * Z * bool -> Prop) :
  (forall qty L, (L = [] \/ qty <= 0 \/ (exists m L', L = m :: L' /\
       ~ crosses (o_side taker) (o_price taker) (o_price m))) ->
     P qty L ([], L, qty, false)) ->
  (forall qty m L, qty > 0 -> crosses (o_side taker) (o_price taker) (o_price m) ->
     o_trader_id m = o_trader_id taker -> P qty (m :: L) ([], m :: L, qty, true)) ->
  (forall qty m L, qty > 0 -> crosses (o_side taker) (o_price taker) (o_price m) ->
     o_trader_id m ≠ o_trader_id taker -> qty < o_quantity m ->
     P qty (m :: L) ([mkFill (o_id taker) (o_id m) (o_price m) qty false],
                     set_quantity (o_quantity m - qty) m :: L, 0, false)) ->
  (forall qty m L fs L' q st, qty > 0 -> crosses (o_side taker) (o_price taker) (o_price m) ->
     o_trader_id m ≠ o_trader_id taker -> o_quantity m <= qty ->
     spec_match taker (qty - o_quantity m) L = (fs, L', q, st) ->
     P (qty - o_quantity m) L (fs, L', q, st) ->
     P qty (m :: L) (mkFill (o_id taker) (o_id m) (o_price m) (o_quantity m) true :: fs, L', q, st)) ->
  forall qty L, P qty L (spec_match taker qty L).
Proof.
  intros Hstop Hself Hpart Hfull qty L. revert qty.
  induction L as [|m L IH]; intros qty; simpl; [apply Hstop; auto|].
  destruct (decide (qty > 0)); [|apply Hstop; lia || (right; left; lia)].
  destruct (decide (crosses _ _ _)); [|apply Hstop; right; right; eauto].
  destruct (decide (o_trader_id m = o_trader_id taker)); [by apply Hself|].
  destruct (decide (o_quantity m - Z.min qty (o_quantity m) = 0)) as [Hz|Hnz].
  - rewrite Z.min_r by lia. rewrite bool_decide_true by lia.
    specialize (IH (qty - o_quantity m)).
    destruct (spec_match taker (qty - o_quantity m) L) as [[[fs L'] q] st] eqn:E.
    apply Hfull; try done. lia.
  - rewrite Z.min_l by lia. rewrite bool_decide_false by lia.
    replace (qty - qty) with 0 by lia. apply Hpart; try done. lia.
Qed.

(** Nothing is created or lost: the fills account for what the taker and the
    makers give up. *)
Lemma spec_match_conserves taker qty L :
  let '(fs, L', q, _) := spec_match taker qty L in
  fills_qty fs + q = qty /\ sum_qty L' + fills_qty fs = sum_qty L.
Proof.
  apply (spec_match_ind taker (fun qty L '(fs, L', q, _) =>
           fills_qty fs + q = qty /\ sum_qty L' + fills_qty fs = sum_qty L)); intros; simpl in *; lia.
Qed.

Lemma spec_match_makers taker qty L :
  let '(_, L', q, _) := spec_match taker qty L in
  Forall resting_ok L -> 0 <= qty -> Forall resting_ok L' /\ 0 <= q <= qty.
Proof.
  revert qty L. apply (spec_match_ind taker (fun qty L '(_, L', q, _) =>
    Forall resting_ok L -> 0 <= qty -> Forall resting_ok L' /\ 0 <= q <= qty)).
  - intros; split; [done|lia].
  - intros; split; [done|lia].
  - intros qty m L ? _ _ ? [[Hm ?] HL]%Forall_cons ?. split; [|lia]. apply Forall_cons. split; [|done].
    unfold resting_ok, order_typed in *. unfold_ranges. simpl. lia.
  - intros qty m L fs L' q st ? _ _ ? _ IH [[_ ?] HL]%Forall_cons ?.
    destruct (IH HL ltac:(lia)). split; [done|lia].
Qed.

(** Each fill is positive, within the taker's limit and not a self-trade. *)
Lemma spec_match_fills taker qty L :
  let '(fs, _, _, _) := spec_match taker qty L in Forall resting_ok L ->
  Forall (fun f => 0 < f_quantity f /\ crosses (o_side taker) (o_price taker) (f_price f) /\
                   f_taker_order_id f = o_id taker) fs /\
  (exists L1 L2, L = L1 ++ L2 /\
    Forall2 (fun f m => f_maker_order_id f = o_id m /\ f_price f = o_price m /\
                        o_trader_id m ≠ o_trader_id taker /\ f_quantity f <= o_quantity m /\
                        f_maker_fully_filled f = bool_decide (f_quantity f = o_quantity m)) fs L1).
Proof.
  revert qty L. apply (spec_match_ind taker (fun qty L '(fs, _, _, _) => Forall resting_ok L ->
    Forall (fun f => 0 < f_quantity f /\ crosses (o_side taker) (o_price taker) (f_price f) /\
                   f_taker_order_id f = o_id taker) fs /\
    (exists L1 L2, L = L1 ++ L2 /\
    Forall2 (fun f m => f_maker_order_id f = o_id m /\ f_price f = o_price m /\
                        o_trader_id m ≠ o_trader_id taker /\ f_quantity f <= o_quantity m /\
                        f_maker_fully_filled f = bool_decide (f_quantity f = o_quantity m)) fs L1))).
  - intros qty L _ _. split; [constructor|]. exists [], L. split; [done|constructor].
  - intros qty m L _ _ _ _. split; [constructor|]. exists [], (m :: L). split; [done|constructor].
  - intros qty m L Hq Hc Ht Hlt _. split; [apply Forall_singleton; simpl; split_and!; done || lia|].
    exists [m], L. split; [done|]. constructor; [|constructor]. simpl.
    rewrite bool_decide_false by lia. split_and!; done || lia.
  - intros qty m L fs L' q st Hq Hc Ht Hle _ IH [[_ Hm] HL]%Forall_cons.
    destruct (IH HL) as (Hfs & L1 & L2 & -> & HF). split; [apply Forall_cons; done|].
    exists (m :: L1), L2. split; [done|]. constructor; [|done]. simpl.
    rewrite bool_decide_true by lia. split_and!; done || lia.
Qed.

(** What remains of the makers: the filled prefix is gone, at most the first
    remaining maker is reduced. *)
Lemma spec_match_suffix taker qty L :
  let '(fs, L', _, _) := spec_match taker qty L in
  exists L1 L2, L = L1 ++ L2 /\
    (L' = L2 /\ length fs = length L1 \/
     exists m L3 x, L2 = m :: L3 /\ L' = set_quantity x m :: L3 /\ length fs = S (length L1)).
Proof.
  revert qty L. apply (spec_match_ind taker (fun qty L '(fs, L', _, _) =>
  exists L1 L2, L = L1 ++ L2 /\
    (L' = L2 /\ length fs = length L1 \/
     exists m L3 x, L2 = m :: L3 /\ L' = set_quantity x m :: L3 /\ length fs = S (length L1)))).
  - intros qty L _. exists [], L. auto.
  - intros qty m L _ _ _. exists [], (m :: L). auto.
  - intros qty m L _ _ _ _. exists [], (m :: L). split; [done|]. right. by eexists m, L, _.
  - intros qty m L fs L' q st _ _ _ _ _ (L1 & L2 & -> & IH). exists (m :: L1), L2. split; [done|].
    simpl. destruct IH as [[-> ->]|(m' & L3 & x & -> & -> & ->)]; [auto|]. right. eauto 6.
Qed.

(** When something is left and it was not a self-trade, nothing more crosses. *)
Lemma spec_match_exhausts taker qty L :
  let '(_, L', q, st) := spec_match taker qty L in
  sorted (opposite (o_side taker)) L -> st = false -> 0 < q ->
  forall m, m ∈ L' -> ~ crosses (o_side taker) (o_price taker) (o_price m).
Proof.
  revert qty L. apply (spec_match_ind taker (fun qty L '(_, L', q, st) =>
    sorted (opposite (o_side taker)) L -> st = false -> 0 < q ->
    forall m, m ∈ L' -> ~ crosses (o_side taker) (o_price taker) (o_price m))).
  - intros qty L [->|[?|(m & L' & -> & Hc)]] Hs _ Hq x Hx; [by apply elem_of_nil in Hx|lia|].
    apply StronglySorted_inv in Hs as [_ Hm]. rewrite Forall_forall in Hm.
    apply elem_of_cons in Hx as [->|Hx]; [done|]. specialize (Hm _ Hx). unfold prio in Hm.
    destruct (o_side taker); simpl in *; lia.
  - done.
  - intros; lia.
  - intros qty m L fs L' q st _ _ _ _ _ IH [Hs _]%StronglySorted_inv. auto.
Qed.

(** A self-trade stop leaves the same trader's order first in the queue. *)
Lemma spec_match_self_trade taker qty L :
  let '(_, L', q, st) := spec_match taker qty L in
  st = true -> 0 < q /\ exists m L'', L' = m :: L'' /\ o_trader_id m = o_trader_id taker /\
                       crosses (o_side taker) (o_price taker) (o_price m).
Proof.
  revert qty L. apply (spec_match_ind taker (fun qty L '(_, L', q, st) => st = true ->
    0 < q /\ exists m L'', L' = m :: L'' /\ o_trader_id m = o_trader_id taker /\
                       crosses (o_side taker) (o_price taker) (o_price m))).
  - done.
  - intros qty m L ? ? ? _. split; [lia|]. eauto.
  - done.
  - auto.
Qed.

(** Fills with a remainder free at least one maker's slot. *)
Lemma spec_match_frees taker qty L :
  let '(fs, L', q, st) := spec_match taker qty L in
  0 < q -> (length L' + length fs = length L)%nat.
Proof.
  revert qty L. apply (spec_match_ind taker (fun qty L '(fs, L', q, st) =>
    0 < q -> (length L' + length fs = length L)%nat)); intros; simpl in *; try lia.
Qed.

(** An order up to the quantity that is left of it. *)
Definition unfilled (o : Order) : Order := set_quantity 0 o.

(** Matching takes orders from the list or reduces one; it moves none. *)
Lemma spec_match_keeps taker qty L :
  let '(_, L', _, _) := spec_match taker qty L in (unfilled <$> L') `sublist_of` (unfilled <$> L).
Proof.
  revert qty L. apply (spec_match_ind taker (fun qty L '(_, L', _, _) =>
    (unfilled <$> L') `sublist_of` (unfilled <$> L))); intros; simpl; try done.
  by apply sublist_cons.
Qed.

Lemma unfilled_ids (L : list Order) : o_id <$> (unfilled <$> L) = o_id <$> L.
Proof. by rewrite <- list_fmap_compose. Qed.

Lemma spec_match_ids taker qty L :
  let '(_, L', _, _) := spec_match taker qty L in (o_id <$> L') `sublist_of` (o_id <$> L).
Proof.
  pose proof (spec_match_keeps taker qty L) as H. destruct (spec_match taker qty L) as [[[fs L'] q] st].
  rewrite <- (unfilled_ids L), <- (unfilled_ids L'). by apply fmap_sublist.
Qed.

Lemma spec_match_subset taker qty L :
  let '(_, L', _, _) := spec_match taker qty L in
  forall o, o ∈ L' -> exists o', o' ∈ L /\ o_price o' = o_price o /\ o_side o' = o_side o /\ o_id o' = o_id o.
Proof.
  revert qty L. apply (spec_match_ind taker (fun qty L '(_, L', _, _) =>
    forall o, o ∈ L' -> exists o', o' ∈ L /\ o_price o' = o_price o /\ o_side o' = o_side o /\ o_id o' = o_id o)).
  - intros. eauto.
  - intros. eauto.
  - intros qty m L _ _ _ _ o [->|Ho]%elem_of_cons; [exists m; by split; [left|]|].
    exists o. by split; [right|].
  - intros qty m L fs L' q st _ _ _ _ _ IH o Ho. destruct (IH _ Ho) as (o' & ? & ?).
    exists o'. by split; [right|].
Qed.

(** ** Preservation of the book-wide invariants by [spec_add] *)

Lemma sp_set_Forall P s L sp :
  Forall P (sp_all sp) -> Forall P L -> Forall P (sp_all (sp_set s L sp)).
Proof. unfold sp_all. rewrite !Forall_app. by destruct s; simpl; intros [? ?] ?. Qed.

Lemma sp_side_Forall P s sp : Forall P (sp_all sp) -> Forall P (sp_side sp s).
Proof. unfold sp_all. rewrite Forall_app. destruct s; tauto. Qed.

Lemma uncrossed_sides sp :
  uncrossed sp <-> forall s x y, x ∈ sp_side sp s -> y ∈ sp_side sp (opposite s) ->
                     ~ crosses s (o_price x) (o_price y).
Proof.
  unfold uncrossed. split.
  - intros H s x y Hx Hy. destruct s; simpl in *; [specialize (H x y Hx Hy)|specialize (H y x Hy Hx)]; lia.
  - intros H x y Hx Hy. specialize (H Bid x y Hx Hy). simpl in H. lia.
Qed.

(** Replacing a side by orders at prices it already had. *)
Lemma uncrossed_subset s L sp :
  uncrossed sp -> (forall o, o ∈ L -> exists o', o' ∈ sp_side sp s /\ o_price o' = o_price o) ->
  uncrossed (sp_set s L sp).
Proof.
  unfold uncrossed. intros H HL x y Hx Hy. destruct s; simpl in *.
  - destruct (HL x Hx) as (x' & Hx' & <-). auto.
  - destruct (HL y Hy) as (y' & Hy' & <-). auto.
Qed.

Lemma uncrossed_insert o sp :
  uncrossed sp ->
  (forall m, m ∈ sp_side sp (opposite (o_side o)) -> ~ crosses (o_side o) (o_price o) (o_price m)) ->
  uncrossed (sp_set (o_side o) (insert_prio (o_side o) o (sp_side sp (o_side o))) sp).
Proof.
  unfold uncrossed. intros H Ho x y Hx Hy. destruct (o_side o); simpl in *.
  - apply elem_of_insert_prio in Hx as [->|Hx]; [|auto]. specialize (Ho y Hy). lia.
  - apply elem_of_insert_prio in Hy as [->|Hy]; [|auto]. specialize (Ho x Hx). lia.
Qed.

Lemma spec_insert_Forall P cap sp o :
  Forall P (sp_all sp) -> P o -> Forall P (sp_all (fst (spec_insert cap sp o))).
Proof.
  intros HP Ho. unfold spec_insert. repeat case_decide; try done. simpl.
  apply sp_set_Forall; [done|]. rewrite insert_prio_Permutation.
  apply Forall_cons. split; [done|]. by apply sp_side_Forall.
Qed.

Lemma Forall_without_id (P : Order -> Prop) id L : Forall P L -> Forall P (without_id id L).
Proof. rewrite !Forall_forall. intros H o [_ Ho]%list_elem_of_filter. auto. Qed.

Lemma spec_cancel_Forall P sp id :
  Forall P (sp_all sp) -> Forall P (sp_all (fst (spec_cancel sp id))).
Proof.
  intros HP. unfold spec_cancel. destruct (head _); [|done]. simpl. unfold sp_all in *. simpl.
  apply Forall_app in HP as [? ?]. apply Forall_app.
  split; by apply Forall_without_id.
Qed.

Lemma spec_cancel_uncrossed sp id : uncrossed sp -> uncrossed (fst (spec_cancel sp id)).
Proof.
  intros H. unfold spec_cancel. destruct (head _); [|done]. unfold uncrossed, without_id in *. simpl.
  intros x y [_ Hx]%list_elem_of_filter [_ Hy]%list_elem_of_filter. auto.
Qed.

Lemma spec_add_ok cap sp o :
  Forall resting_ok (sp_all sp) -> order_typed o ->
  Forall resting_ok (sp_all (fst (fst (spec_add cap sp o)))).
Proof.
  intros Hok Ho. unfold spec_add. destruct (decide (o_quantity o = 0)) as [|Hz]; [done|].
  pose proof (spec_match_makers o (o_quantity o) (sp_side sp (opposite (o_side o)))) as Hm.
  destruct (spec_match _ _ _) as [[[fs L] q] st].
  destruct Hm as [HL Hq]; [by apply sp_side_Forall|unfold order_typed in Ho; unfold_ranges; lia|].
  set (sp1 := sp_set _ L sp).
  assert (Forall resting_ok (sp_all sp1)) as Hok1 by (by apply sp_set_Forall).
  destruct st; [done|]. destruct (decide (q = 0)); [done|].
  assert (resting_ok (set_quantity q o)) as Hr.
  { unfold resting_ok, order_typed in *. unfold_ranges. simpl. lia. }
  pose proof (spec_insert_Forall resting_ok cap sp1 _ Hok1 Hr) as Hi.
  by destruct (spec_insert _ _ _) as [? []].
Qed.

Lemma spec_add_uncrossed cap sp o :
  uncrossed sp -> Forall resting_ok (sp_all sp) -> order_typed o ->
  (forall s, sorted s (sp_side sp s)) ->
  uncrossed (fst (fst (spec_add cap sp o))).
Proof.
  intros Hu Hok Ho Hs. unfold spec_add. destruct (decide (o_quantity o = 0)) as [|Hz]; [done|].
  set (s := opposite (o_side o)).
  pose proof (spec_match_makers o (o_quantity o) (sp_side sp s)) as Hm.
  pose proof (spec_match_exhausts o (o_quantity o) (sp_side sp s)) as Hx.
  pose proof (spec_match_subset o (o_quantity o) (sp_side sp s)) as Hsub.
  destruct (spec_match _ _ _) as [[[fs L] q] st].
  destruct Hm as [_ Hq]; [by apply sp_side_Forall|unfold order_typed in Ho; unfold_ranges; lia|].
  assert (uncrossed (sp_set s L sp)) as Hu1.
  { apply uncrossed_subset; [done|]. intros x Hxin. destruct (Hsub x Hxin) as (x' & ? & ? & _). eauto. }
  destruct st; [done|]. destruct (decide (q = 0)); [done|].
  unfold spec_insert. do 2 (case_decide; [done|]). simpl.
  apply (uncrossed_insert (set_quantity q o)); [done|]. simpl. fold s.
  rewrite sp_side_set, decide_True by done. apply Hx; [apply Hs|done|lia].
Qed.

(** ** Outcomes of [spec_add] *)

Lemma sum_qty_set s L sp :
  sum_qty (sp_all (sp_set s L sp)) = sum_qty (sp_all sp) - sum_qty (sp_side sp s) + sum_qty L.
Proof. unfold sp_all. rewrite !sum_qty_app. destruct s; simpl; lia. Qed.

Lemma sum_qty_insert_prio s o L : sum_qty (insert_prio s o L) = sum_qty L + o_quantity o.
Proof. induction L as [|x L IH]; simpl; [lia|]. case_decide; simpl; lia. Qed.

Lemma spec_insert_sum cap sp o sp' :
  spec_insert cap sp o = (sp', Ok tt) -> sum_qty (sp_all sp') = sum_qty (sp_all sp) + o_quantity o.
Proof.
  unfold spec_insert. repeat case_decide; intros; simplify_eq.
  rewrite sum_qty_set, sum_qty_insert_prio. lia.
Qed.

Lemma spec_insert_err cap sp o sp' err : spec_insert cap sp o = (sp', Err err) -> sp' = sp.
Proof. unfold spec_insert. repeat case_decide; intros; by simplify_eq. Qed.

(** Quantities and status of an accepted order. *)
Lemma spec_add_conserves cap sp o sp' fs res :
  Forall resting_ok (sp_all sp) -> order_typed o -> spec_add cap sp o = (sp', fs, Ok res) ->
  r_fills res = fs /\ r_order_id res = o_id o /\
  exists q, 0 <= q /\ fills_qty fs + q = o_quantity o /\
    sum_qty (sp_all sp') + fills_qty fs =
      sum_qty (sp_all sp) + (if decide (r_status res = CancelledSelfTrade) then 0 else q) /\
    match r_status res with
    | FullyFilled => q = 0
    | PartiallyFilled => 0 < q /\ fs ≠ []
    | Resting => fs = []
    | CancelledSelfTrade => 0 < q
    end.
Proof.
  intros Hok Ho. unfold spec_add. case_decide as Hz; [done|].
  set (s := opposite (o_side o)).
  pose proof (spec_match_conserves o (o_quantity o) (sp_side sp s)) as Hm.
  pose proof (spec_match_makers o (o_quantity o) (sp_side sp s)) as Hk.
  pose proof (spec_match_self_trade o (o_quantity o) (sp_side sp s)) as Hst.
  destruct (spec_match _ _ _) as [[[fs0 L] q] st]. destruct Hm as [Hq HL].
  destruct Hk as [_ Hq0]; [by apply sp_side_Forall|unfold order_typed in Ho; unfold_ranges; lia|].
  pose proof (sum_qty_set s L sp) as Hsum.
  destruct st; [|destruct (decide (q = 0))].
  - intros; simplify_eq/=. split; [done|]. split; [done|]. exists q.
    destruct (Hst eq_refl). split_and!; lia.
  - intros; simplify_eq/=. split; [done|]. split; [done|]. exists 0. split_and!; lia.
  - destruct (spec_insert _ _ _) as [sp2 [[]|err]] eqn:E; intros; simplify_eq.
    apply spec_insert_sum in E. simpl in E. split; [done|]. split; [done|]. exists q.
    simpl. destruct (decide (fs = [])); simpl; split_and!; done || lia.
Qed.

(** An order refused for lack of space has not been matched. *)
Lemma spec_add_full cap sp o sp' fs :
  Forall resting_ok (sp_all sp) -> order_typed o -> Z.of_nat (length (sp_all sp)) <= cap ->
  spec_add cap sp o = (sp', fs, Err (MBook ArenaFull)) ->
  fs = [] /\ sp' = sp /\ Z.of_nat (length (sp_all sp)) = cap.
Proof.
  intros Hok Ho Hlen. unfold spec_add. case_decide as Hz; [done|].
  set (s := opposite (o_side o)).
  pose proof (spec_match_suffix o (o_quantity o) (sp_side sp s)) as Hm.
  pose proof (spec_match_frees o (o_quantity o) (sp_side sp s)) as Hf.
  pose proof (spec_match_makers o (o_quantity o) (sp_side sp s)) as Hk.
  destruct (spec_match _ _ _) as [[[fs0 L] q] st].
  destruct Hk as [_ Hq0]; [by apply sp_side_Forall|unfold order_typed in Ho; unfold_ranges; lia|].
  destruct st; [done|]. destruct (decide (q = 0)); [done|].
  pose proof (length_sp_set s L sp) as Hls. specialize (Hf ltac:(lia)).
  unfold spec_insert. repeat case_decide; intros; simplify_eq.
  assert (length fs = 0%nat) as Hn by lia. destruct fs; [|done].
  destruct Hm as (L1 & L2 & E & [[-> Hl]|(m & L3 & x & _ & _ & Hl)]); [|done].
  destruct L1; [|done]. simpl in E, Hf. split; [done|]. split; [|lia].
  rewrite <- E. by destruct s, sp.
Qed.

(** Only the last maker can be left with a rest. *)
Lemma spec_match_all_but_last taker qty L :
  let '(fs, _, _, _) := spec_match taker qty L in
  forall fs1 f fs2, fs = fs1 ++ f :: fs2 -> fs2 ≠ [] -> f_maker_fully_filled f = true.
Proof.
  revert qty L. apply (spec_match_ind taker (fun qty L '(fs, _, _, _) =>
    forall fs1 f fs2, fs = fs1 ++ f :: fs2 -> fs2 ≠ [] -> f_maker_fully_filled f = true)).
  - intros qty L _ [|x fs1] f fs2 H; done.
  - intros qty m L _ _ _ [|x fs1] f fs2 H; done.
  - intros qty m L _ _ _ _ [|x [|y fs1]] f fs2 H Hn; simplify_eq/=.
  - intros qty m L fs L' q st _ _ _ _ _ IH [|x fs1] f fs2 H Hn; simplify_eq/=; [done|]. eauto.
Qed.

Lemma spec_add_fills cap sp o :
  o_quantity o ≠ 0 ->
  snd (fst (spec_add cap sp o)) =
    fst (fst (fst (spec_match o (o_quantity o) (sp_side sp (opposite (o_side o)))))).
Proof.
  intros Hz. unfold spec_add. rewrite decide_False by done.
  destruct (spec_match _ _ _) as [[[fs L] q] st]. destruct st; [done|]. case_decide; [done|].
  by destruct (spec_insert _ _ _) as [? []].
Qed.

(** The errors [spec_add] can return. *)
Lemma spec_add_errors cap sp o sp' fs err :
  spec_add cap sp o = (sp', fs, Err err) ->
  err = ZeroQuantity /\ o_quantity o = 0 /\ sp' = sp \/
  err = MBook ArenaFull /\ o_quantity o ≠ 0 \/
  err = MBook (DuplicateOrderId (o_id o)) /\ o_quantity o ≠ 0 /\ o_id o ∈ sp_ids sp'.
Proof.
  unfold spec_add. case_decide; [naive_solver|].
  destruct (spec_match _ _ _) as [[[fs0 L] q] st]. destruct st; [done|]. case_decide; [done|].
  unfold spec_insert. repeat case_decide; naive_solver.
Qed.

(** ** Cancelling *)

Lemma spec_cancel_all sp id :
  sp_all (fst (spec_cancel sp id)) = without_id id (sp_all sp) /\
  snd (spec_cancel sp id) =
    match head (filter (fun o => o_id o = id) (sp_all sp)) with
    | Some o => Ok o | None => Err (OrderNotFound id) end.
Proof.
  unfold spec_cancel. destruct (filter _ _) as [|o l] eqn:E; simpl.
  - split; [|done]. symmetry. apply without_id_notin. intros (x & -> & Hx)%list_elem_of_fmap.
    assert (x ∈ filter (fun o => o_id o = o_id x) (sp_all sp)) as Hin
      by (by apply list_elem_of_filter). rewrite E in Hin. by apply elem_of_nil in Hin.
  - split; [|done]. unfold sp_all, without_id. simpl. by rewrite filter_app.
Qed.

Lemma without_id_insert s o L :
  o_id o ∉ o_id <$> L -> without_id (o_id o) (insert_prio s o L) = L.
Proof.
  intros Hn. rewrite <- (without_id_notin _ L Hn) at 2. clear Hn. unfold without_id.
  induction L as [|x L IH]; simpl.
  - by rewrite filter_cons_False by (simpl; tauto).
  - case_decide; [by rewrite filter_cons_False by (simpl; tauto)|].
    by rewrite !filter_cons, IH.
Qed.

(** Resting and cancelling an order leaves the book as it was. *)
Lemma spec_insert_cancel cap sp o sp' :
  NoDup (sp_ids sp) -> spec_insert cap sp o = (sp', Ok tt) ->
  spec_cancel sp' (o_id o) = (sp, Ok o).
Proof.
  intros Hnd Hi. unfold spec_insert in Hi. repeat case_decide; simplify_eq.
  set (s := o_side o). set (sp' := sp_set s _ sp).
  assert (sp_ids sp' ≡ₚ o_id o :: sp_ids sp) as Hids by apply sp_ids_insert.
  assert (NoDup (sp_ids sp')) as Hnd' by (rewrite Hids; by apply NoDup_cons).
  assert (o ∈ sp_all sp') as Ho.
  { apply elem_of_sp_all. exists s. unfold sp'. rewrite sp_side_set, decide_True by done.
    apply elem_of_insert_prio. auto. }
  unfold spec_cancel. destruct (filter _ _) as [|x l] eqn:E.
  - assert (o ∈ filter (fun x => o_id x = o_id o) (sp_all sp')) as Hin
      by (by apply list_elem_of_filter). rewrite E in Hin. by apply elem_of_nil in Hin.
  - assert (x ∈ filter (fun x => o_id x = o_id o) (sp_all sp')) as [Hid Hx]%list_elem_of_filter
      by (rewrite E; left).
    assert (x = o) as -> by (eapply same_id_eq; eauto). simpl.
    assert (forall s', o_id o ∉ o_id <$> sp_side sp s') as Hn.
    { intros s' (y & Hy & Hin)%list_elem_of_fmap.
      assert (o_id o ∈ sp_ids sp); [|done]. rewrite Hy. unfold sp_ids.
      apply list_elem_of_fmap. exists y. split; [done|]. apply elem_of_sp_all. eauto. }
    f_equal. pose proof (Hn Bid) as Hb. pose proof (Hn Ask) as Ha. destruct sp as [bids asks].
    unfold sp'. destruct s; simpl in *; by rewrite without_id_insert, without_id_notin by done.
Qed.

(** An order that came to rest without a fill was only inserted. *)
Lemma spec_add_resting cap sp o sp' fs res :
  order_typed o -> spec_add cap sp o = (sp', fs, Ok res) -> r_status res = Resting ->
  spec_insert cap sp o = (sp', Ok tt).
Proof.
  intros Ho. unfold spec_add. case_decide as Hz; [done|].
  pose proof (spec_match_suffix o (o_quantity o) (sp_side sp (opposite (o_side o)))) as Hm.
  pose proof (spec_match_conserves o (o_quantity o) (sp_side sp (opposite (o_side o)))) as Hc.
  destruct (spec_match _ _ _) as [[[fs0 L] q] st].
  destruct st; [intros; by simplify_eq/=|]. case_decide; [intros; by simplify_eq/=|].
  destruct (spec_insert _ _ _) as [sp2 [[]|err]] eqn:E; intros; simplify_eq/=.
  destruct (decide (fs = [])) as [->|]; [|done].
  destruct Hm as (L1 & L2 & HL & [[-> Hl]|(m & L3 & x & _ & _ & Hl)]); [|done].
  destruct L1; [|done]. simpl in HL. rewrite <- HL in E.
  assert (q = o_quantity o) as -> by (simpl in Hc; lia).
  replace (sp_set _ _ sp) with sp in E by (by destruct (o_side o), sp).
  by replace (set_quantity (o_quantity o) o) with o in E by (by destruct o).
Qed.
