(* ===== verification/MatchingInv.v ===== *)
(** * MatchingInv.v: the matching engine implements the matching rules

    The loops and [add_order] of [Matching.v] terminate without panic and
    compute the rules of [MatchingSpec.v] on what the book stands for. *)

From S2P Require Import Prelude.
From S2P Require Import Order.
From S2P Require Import Arena.
From S2P Require Import ArenaInv.
From S2P Require Import Book.
From S2P Require Import BookSpec.
From S2P Require Import BookInv.
From S2P Require Import Matching.
From S2P Require Import MatchingSpec.

Import MatchingEngine.

(** ** Both loops are one loop over the side *)

Fixpoint side_loop (s : Side) (fuel : nat) (book : OrderBook) (fills : list Fill) (order : Order)
  : option loop_state :=
  match fuel with
  | O => None
  | S fuel =>
      if decide (o_quantity order > 0) then
        match best book (opposite s) with
        | None => Some (book, fills, Ok (order, false))
        | Some p =>
            if decide (crosses s (o_price order) p) then
              m ← OrderBook.peek_front book (opposite s) p;
              match m with
              | None => Some (book, fills, Ok (order, false))
              | Some maker =>
                  if decide (n_trader_id maker = o_trader_id order) then
                    Some (book, fills, Ok (order, true))
                  else
                    let fill_qty := Z.min (o_quantity order) (n_quantity maker) in
                    '(book, r) ← OrderBook.reduce_front_quantity book (opposite s) p fill_qty;
                    match r with
                    | Err e => Some (book, fills, Err (MBook e))
                    | Ok maker_remaining =>
                        side_loop s fuel book
                          (fills ++ [new_fill order maker fill_qty maker_remaining])
                          (set_quantity (u64_sub (o_quantity order) fill_qty) order)
                    end
              end
            else Some (book, fills, Ok (order, false))
        end
      else Some (book, fills, Ok (order, false))
  end.

Lemma bid_loop_side fuel b fs o : bid_loop fuel b fs o = side_loop Bid fuel b fs o.
Proof.
  revert b fs o. induction fuel as [|fuel IH]; [done|]. intros b fs o. simpl.
  destruct (decide (o_quantity o > 0)); [|done]. unfold best.
  destruct (OrderBook.best_ask b); [|done]. destruct (decide (_ <= _)); [|done].
  destruct (OrderBook.peek_front b Ask z) as [[m|]|]; [|done..]. simpl.
  destruct (decide _); [done|].
  destruct (OrderBook.reduce_front_quantity b Ask z _) as [[b' []]|]; simpl; auto.
Qed.

Lemma ask_loop_side fuel b fs o : ask_loop fuel b fs o = side_loop Ask fuel b fs o.
Proof.
  revert b fs o. induction fuel as [|fuel IH]; [done|]. intros b fs o. simpl.
  destruct (decide (o_quantity o > 0)); [|done]. unfold best.
  destruct (OrderBook.best_bid b); [|done]. destruct (decide (_ >= _)); [|done].
  destruct (OrderBook.peek_front b Bid z) as [[m|]|]; [|done..]. simpl.
  destruct (decide _); [done|].
  destruct (OrderBook.reduce_front_quantity b Bid z _) as [[b' []]|]; simpl; auto.
Qed.

(** ** The loop computes [spec_match] *)

Lemma spec_match_taker taker q L x :
  spec_match (set_quantity x taker) q L = spec_match taker q L.
Proof.
  revert q. induction L as [|m L IH]; intros q; [done|]. simpl.
  destruct (decide (q > 0)); [|done]. destruct (decide (crosses _ _ _)); [|done].
  destruct (decide (o_trader_id m = o_trader_id taker)); [done|].
  destruct (decide _); [|done]. by rewrite IH.
Qed.

Lemma set_quantity_id o : set_quantity (o_quantity o) o = o.
Proof. by destruct o. Qed.

Lemma sp_set_id s sp : sp_set s (sp_side sp s) sp = sp.
Proof. by destruct s, sp. Qed.

Lemma sp_set_set s L L' sp : sp_set s L (sp_set s L' sp) = sp_set s L sp.
Proof. by destruct s. Qed.

Lemma sp_side_set_eq s L sp : sp_side (sp_set s L sp) s = L.
Proof. by destruct s. Qed.

Lemma resting_u64 L : Forall resting_ok L -> Forall (fun o => is_u64 (o_quantity o)) L.
Proof. intros H. eapply Forall_impl; [exact H|]. unfold resting_ok, order_typed. tauto. Qed.

(** One iteration against the best maker. *)
Lemma reduce_best b sp s m L f :
  represents b sp -> sp_side sp s = m :: L -> Forall resting_ok (m :: L) ->
  0 <= f <= o_quantity m ->
  exists b', OrderBook.reduce_front_quantity b s (o_price m) f = Some (b', Ok (o_quantity m - f)) /\
        represents b' (sp_set s (reduce_head f (m :: L)) sp) /\
        a_capacity (b_arena b') = a_capacity (b_arena b).
Proof.
  intros R HL Hok Hf.
  destruct (reduce_front_rep b sp s (o_price m) f R) as (b' & Hr & R' & Hc);
    [rewrite HL; by apply resting_u64|lia|].
  destruct R as (q & free & R).
  rewrite (spec_reduce_best sp s m L f (rep_ids _ _ _ _ R) HL ltac:(lia)) in *. eauto.
Qed.

Lemma side_loop_done s fuel b fills order :
  ~ (o_quantity order > 0) -> (0 < fuel)%nat ->
  side_loop s fuel b fills order = Some (b, fills, Ok (order, false)).
Proof. intros Hq Hf. destruct fuel; [lia|]. simpl. by rewrite decide_False. Qed.

Lemma side_loop_spec L s fuel b sp fills order :
  represents b sp -> o_side order = s -> sp_side sp (opposite s) = L -> Forall resting_ok L ->
  is_u64 (o_quantity order) -> (length L < fuel)%nat ->
  let '(fs, L', q, st) := spec_match order (o_quantity order) L in
  exists b', side_loop s fuel b fills order =
               Some (b', fills ++ fs, Ok (set_quantity q order, st)) /\
        represents b' (sp_set (opposite s) L' sp) /\
        a_capacity (b_arena b') = a_capacity (b_arena b).
Proof.
  revert fuel b sp fills order.
  induction L as [|m L IH]; intros fuel b sp fills order R Hs HL Hok Hq Hfuel.
  - destruct fuel as [|fuel]; [simpl in Hfuel; lia|]. simpl. exists b.
    destruct R as (q & free & R). rewrite (rep_best_price R). unfold sp_best. rewrite HL. simpl.
    rewrite app_nil_r, set_quantity_id, <- HL, sp_set_id.
    split; [by case_decide|]. split; [by exists q, free|done].
  - destruct fuel as [|fuel]; [simpl in Hfuel; lia|]. simpl in Hfuel. simpl.
    assert (best b (opposite s) = Some (o_price m)) as ->.
    { destruct R as (q & free & R). rewrite (rep_best_price R). unfold sp_best. by rewrite HL. }
    assert (represents b (sp_set (opposite s) (m :: L) sp)) as Rid by (by rewrite <- HL, sp_set_id).
    rewrite Hs.
    destruct (decide (o_quantity order > 0)) as [Hpos|];
      [|exists b; by rewrite app_nil_r, set_quantity_id].
    destruct (decide (crosses s (o_price order) (o_price m)));
      [|exists b; by rewrite app_nil_r, set_quantity_id].
    destruct (peek_front_rep _ _ _ _ _ R HL) as (n & Hpk & Hn). rewrite Hpk. simpl.
    assert (n_trader_id n = o_trader_id m) as -> by (by rewrite <- Hn).
    assert (n_quantity n = o_quantity m) as -> by (by rewrite <- Hn).
    destruct (decide (o_trader_id m = o_trader_id order));
      [exists b; by rewrite app_nil_r, set_quantity_id|].
    assert (forall f r, new_fill order n f r =
              mkFill (o_id order) (o_id m) (o_price m) f (bool_decide (r = 0))) as Hfill
      by (by rewrite <- Hn).
    pose proof Hok as [[_ Hm] Hok']%Forall_cons.
    set (f := Z.min (o_quantity order) (o_quantity m)) in *.
    destruct (reduce_best b sp (opposite s) m L f R HL Hok ltac:(lia)) as (b1 & Hr & R1 & Hc1).
    rewrite Hr. simpl. rewrite Hfill.
    replace (u64_sub (o_quantity order) f) with (o_quantity order - f)
      by (unfold u64_sub, is_u64 in *; rewrite wrap_small; lia).
    simpl in R1. destruct (decide (o_quantity m - f = 0)) as [Hz|Hnz].
    + assert (is_u64 (o_quantity order - f)) as Hq' by (unfold is_u64 in *; lia).
      specialize (IH fuel b1 _ (fills ++ [mkFill (o_id order) (o_id m) (o_price m) f
                     (bool_decide (o_quantity m - f = 0))])
                  (set_quantity (o_quantity order - f) order) R1).
      rewrite spec_match_taker in IH. simpl in IH.
      destruct (spec_match order (o_quantity order - f) L) as [[[fs L'] q'] st].
      destruct IH as (b2 & Hl & R2 & Hc2); try done; [apply sp_side_set_eq|lia|].
      exists b2. rewrite Hl, <- app_assoc. rewrite sp_set_set in R2.
      split; [by destruct order|]. split; [done|congruence].
    + exists b1. rewrite side_loop_done by (simpl; lia). done.
Qed.

(** ** The engine invariant *)

Record engine_inv (cap : Z) (e : MatchingEngine) (sp : SpecBook) : Prop := {
  inv_rep : represents (e_book e) sp;
  inv_capacity : a_capacity (b_arena (e_book e)) = cap;
  inv_resting : Forall resting_ok (sp_all sp);
  inv_uncrossed : uncrossed sp
}.

Lemma with_capacity_inv cap : 0 <= cap < 2 ^ 32 -> engine_inv cap (with_capacity cap) sp_empty.
Proof.
  intros Hc. split; [by apply with_capacity_rep|done|constructor|]. by intros x y ?%elem_of_nil.
Qed.

Lemma represents_sorted b sp s : represents b sp -> sorted s (sp_side sp s).
Proof. intros (q & free & R). apply (rep_sorted _ _ _ _ R). Qed.

Lemma represents_count b sp : represents b sp -> OrderBook.order_count b = length (sp_all sp).
Proof. intros (q & free & R). apply (rep_total _ _ _ _ R). Qed.

Lemma length_side_le sp s : (length (sp_side sp s) <= length (sp_all sp))%nat.
Proof. unfold sp_all. rewrite length_app. destruct s; simpl; lia. Qed.

(** The engine a branch of [add_order] leaves satisfies the invariant. *)
Ltac finish_engine :=
  intros; eexists; split; [done|]; split; [split; simpl; done || congruence|done].

(** [add_order] always returns, with the outcome of the rules. *)
Lemma add_order_spec cap e sp o :
  engine_inv cap e sp -> order_typed o ->
  let '(sp', fills, r) := spec_add cap sp o in
  exists e', add_order e o = Some (e', r) /\ engine_inv cap e' sp' /\
        (o_quantity o ≠ 0 -> e_fills_buf e' = fills).
Proof.
  intros [R Hcap Hok Hu] Ho.
  pose proof (spec_add_ok cap sp o Hok Ho) as Hok'.
  pose proof (spec_add_uncrossed cap sp o Hu Hok Ho (fun s => represents_sorted _ _ s R)) as Hu'.
  revert Hok' Hu'. unfold add_order, spec_add.
  destruct (decide (o_quantity o = 0)) as [|Hz]; [intros; by exists e|].
  cbv zeta. set (s := o_side o). set (fuel := S (OrderBook.order_count (e_book e))).
  assert ((match s return option (OrderBook * list Fill * result (Order * bool) MatchingError) with
           Bid => bid_loop fuel (e_book e) [] o | Ask => ask_loop fuel (e_book e) [] o end)
          = side_loop s fuel (e_book e) [] o) as ->.
  { destruct s; [apply bid_loop_side | apply ask_loop_side]. }
  pose proof (side_loop_spec _ s fuel _ sp [] o R eq_refl eq_refl) as Hl.
  destruct (spec_match o (o_quantity o) (sp_side sp (opposite s))) as [[[fs L] q] st].
  destruct Hl as (b1 & Hl & R1 & Hc1).
  { by apply sp_side_Forall. }
  { unfold order_typed in Ho. tauto. }
  { unfold fuel. rewrite (represents_count _ _ R). pose proof (length_side_le sp (opposite s)). lia. }
  rewrite Hl. simpl. destruct st; [finish_engine|]. destruct (decide (q = 0)); [finish_engine|].
  destruct (insert_order_rep b1 _ (set_quantity q o) R1) as (b2 & Hi & R2 & Hc2).
  replace (a_capacity (b_arena b1)) with cap in * by congruence.
  rewrite Hi. simpl. destruct (spec_insert _ _ _) as [sp2 [[]|err]]; simpl in *; finish_engine.
Qed.

Lemma cancel_order_spec cap e sp id :
  engine_inv cap e sp ->
  exists e', cancel_order e id = Some (e', map_err MBook (snd (spec_cancel sp id))) /\
        engine_inv cap e' (fst (spec_cancel sp id)) /\ e_fills_buf e' = e_fills_buf e.
Proof.
  intros [R Hcap Hok Hu]. unfold cancel_order.
  destruct (cancel_order_rep _ _ id R) as (b' & Hc & R' & Hcap').
  rewrite Hc. simpl. eexists. split; [done|]. split; [|done].
  split; simpl; [done|congruence|by apply spec_cancel_Forall|by apply spec_cancel_uncrossed].
Qed.

(** ** Restoring from a list of orders *)

Lemma restore_loop_spec cap os e sp :
  represents (e_book e) sp -> a_capacity (b_arena (e_book e)) = cap ->
  match spec_inserts cap sp os with
  | (sp', Ok _) => exists e', restore_loop e os = Some (Ok e') /\ represents (e_book e') sp' /\
                     a_capacity (b_arena (e_book e')) = cap /\ e_fills_buf e' = e_fills_buf e
  | (_, Err err) => restore_loop e os = Some (Err (MBook err))
  end.
Proof.
  revert e sp. induction os as [|o os IH]; intros e sp R Hc; simpl; [by exists e|].
  destruct (insert_order_rep _ _ o R) as (b' & Hi & R' & Hc'). rewrite Hc in *. rewrite Hi. simpl.
  destruct (spec_insert cap sp o) as [sp' [[]|err]]; [|done].
  by apply (IH (mkEngine b' (e_fills_buf e)) sp').
Qed.

Lemma represents_fits b sp : represents b sp -> Z.of_nat (length (sp_all sp)) <= a_capacity (b_arena b).
Proof.
  intros (q & free & R). rewrite (rep_capacity _ _ _ _ R), <- (rep_total _ _ _ _ R).
  pose proof (rep_slots _ _ _ _ R). lia.
Qed.

Lemma represents_cap b sp : represents b sp -> 0 <= a_capacity (b_arena b) < 2 ^ 32.
Proof.
  intros (q & free & R). rewrite (rep_capacity _ _ _ _ R).
  pose proof (rep_addressable _ _ _ _ R). unfold addressable, ARENA_NULL in *. lia.
Qed.

Lemma represents_canonical b sp cap :
  represents b sp -> a_capacity (b_arena b) <= cap ->
  spec_inserts cap sp_empty (sp_all sp) = (sp, Ok tt).
Proof.
  intros R Hc. pose proof (represents_fits _ _ R). destruct R as (q & free & R).
  apply spec_inserts_canonical; [apply (rep_sorted _ _ _ _ R)|apply (rep_side _ _ _ _ R)
    |apply (rep_ids _ _ _ _ R)|lia].
Qed.

Lemma restore_canonical b sp cap :
  represents b sp -> a_capacity (b_arena b) <= cap < 2 ^ 32 ->
  exists e', restore_from_orders (sp_all sp) cap = Some (Ok e') /\ represents (e_book e') sp /\
        a_capacity (b_arena (e_book e')) = cap /\ e_fills_buf e' = [].
Proof.
  intros R Hc. pose proof (represents_cap _ _ R).
  pose proof (restore_loop_spec cap (sp_all sp) (with_capacity cap) sp_empty) as H1.
  rewrite (represents_canonical b sp cap) in H1 by (done || lia).
  apply H1; [|done]. apply with_capacity_rep. lia.
Qed.
