(* ===== verification/Matcher.v ===== *)
(** * Matcher.v: the interface of a price-time priority matcher

    [Matcher] lists what a user of an order book can call, [MatcherLaws] what the
    answers must be: those of the abstract book, while the abstract book accepts
    the orders.  [MatchingEngine] and the abstract book itself are instances
    here, the reference book of [tests/book_model.rs] is one in [BookModelThm];
    what follows from the laws alone is proved once, for any two matchers. *)

From S2P Require Import Prelude.
From S2P Require Import Order.
From S2P Require Import ArenaInv.
From S2P Require Import Book.
From S2P Require Import BookSpec.
From S2P Require Import BookInv.
From S2P Require Import Matching.
From S2P Require Import MatchingSpec.
From S2P Require Import MatchingInv.

(** A refused order or a panic is [None]. *)
Class Matcher (M : Type) : Type := {
  mt_add : M -> Order -> option (M * (OrderStatus * list Fill));
  mt_cancel : M -> Z -> option (M * option Order);
  mt_best : M -> Side -> option Z;
  mt_count : M -> nat;
  mt_orders : M -> option (list Order)
}.

(** What the abstract book satisfies at every moment. *)
Definition spec_ok (sp : SpecBook) : Prop := Forall resting_ok (sp_all sp) /\ NoDup (sp_ids sp).

Definition result_ok {A E} (r : result A E) : option A := match r with Ok a => Some a | Err _ => None end.

(** [mt_rep n m sp]: after at most [n] operations [m] stands for [sp]. *)
Class MatcherLaws (M : Type) `{Matcher M} (cap : Z) : Type := {
  mt_rep : Z -> M -> SpecBook -> Prop;
  mt_add_ok n m sp o sp' fs res :
    0 <= n < 2 ^ 64 - 1 -> spec_ok sp -> order_typed o -> mt_rep n m sp -> spec_add cap sp o = (sp', fs, Ok res) ->
    exists m', mt_add m o = Some (m', (r_status res, r_fills res)) /\ mt_rep (n + 1) m' sp';
  mt_cancel_ok n m sp id :
    spec_ok sp -> mt_rep n m sp ->
    exists m', mt_cancel m id = Some (m', result_ok (snd (spec_cancel sp id))) /\ mt_rep (n + 1) m' (fst (spec_cancel sp id));
  mt_best_ok n m sp s : mt_rep n m sp -> mt_best m s = sp_best sp s;
  mt_count_ok n m sp : mt_rep n m sp -> mt_count m = length (sp_all sp);
  mt_orders_ok n m sp : mt_rep n m sp -> mt_orders m = Some (sp_all sp)
}.

(** ** The abstract book stays well-formed *)

Lemma spec_ok_empty : spec_ok sp_empty.
Proof. split; constructor. Qed.

Lemma spec_add_NoDup cap sp o : NoDup (sp_ids sp) -> NoDup (sp_ids (fst (fst (spec_add cap sp o)))).
Proof.
  intros Hn. unfold spec_add. destruct (decide (o_quantity o = 0)); [done|]. set (s := opposite (o_side o)).
  pose proof (spec_match_ids o (o_quantity o) (sp_side sp s)) as Hsub.
  destruct (spec_match _ _ _) as [[[fs L] q] st].
  assert (NoDup (sp_ids (sp_set s L sp))) as Hn'.
  { rewrite sp_ids_set. rewrite (sp_ids_sides s sp) in Hn. apply NoDup_app in Hn as (H1 & H2 & H3).
    apply NoDup_app. split_and!; [exact (sublist_NoDup _ _ H1 Hsub)| |done].
    intros x Hx. apply H2. exact (elem_of_sublist _ _ _ Hx Hsub). }
  destruct st; [done|]. destruct (decide (q = 0)); [done|]. unfold spec_insert. cbn [o_id set_quantity o_side].
  destruct (decide (o_id o ∈ sp_ids (sp_set s L sp))) as [|Hid]; [done|]. case_decide; [done|]. cbn [fst].
  rewrite sp_ids_insert. by constructor.
Qed.

Lemma spec_add_spec_ok cap sp o : spec_ok sp -> order_typed o -> spec_ok (fst (fst (spec_add cap sp o))).
Proof.
  intros [Hok Hn] Ho. split; [|by apply spec_add_NoDup].
  by apply spec_add_ok.
Qed.

Lemma spec_cancel_spec_ok sp id : spec_ok sp -> spec_ok (fst (spec_cancel sp id)).
Proof.
  intros [Hok Hn]. split; [by apply spec_cancel_Forall|]. unfold sp_ids. rewrite (proj1 (spec_cancel_all sp id)).
  eapply sublist_NoDup; [exact Hn|]. apply fmap_sublist, without_id_sublist.
Qed.

(** ** Instances *)

#[global] Instance engine_matcher : Matcher MatchingEngine := {
  mt_add e o := '(e, r) ← MatchingEngine.add_order e o; res ← result_ok r; Some (e, (r_status res, r_fills res));
  mt_cancel e id := '(e, r) ← MatchingEngine.cancel_order e id; Some (e, result_ok r);
  mt_best e s := best (MatchingEngine.book e) s;
  mt_count e := OrderBook.order_count (MatchingEngine.book e);
  mt_orders e := OrderBook.all_resting_orders (MatchingEngine.book e)
}.

#[global] Program Instance engine_laws cap : MatcherLaws MatchingEngine cap := {
  mt_rep _ e sp := engine_inv cap e sp
}.
Next Obligation.
  intros cap n e sp o sp' fs res _ _ Ho He Hs. pose proof (add_order_spec cap e sp o He Ho) as H. rewrite Hs in H.
  destruct H as (e' & H & He' & _). exists e'. cbn [mt_add engine_matcher]. by rewrite H.
Qed.
Next Obligation.
  intros cap n e sp id _ He. destruct (cancel_order_spec cap e sp id He) as (e' & H & He' & _).
  exists e'. cbn [mt_cancel engine_matcher]. rewrite H. by destruct (snd (spec_cancel sp id)).
Qed.
Next Obligation. intros cap n e sp s [(q & free & R) _ _ _]. by apply (rep_best_price R). Qed.
Next Obligation. intros cap n e sp [R _ _ _]. by apply represents_count. Qed.
Next Obligation. intros cap n e sp [R _ _ _]. by apply all_resting_orders_rep. Qed.

(** The abstract book of a capacity. *)
Definition spec_matcher (cap : Z) : Matcher SpecBook := {|
  mt_add sp o := let '(sp, _, r) := spec_add cap sp o in res ← result_ok r; Some (sp, (r_status res, r_fills res));
  mt_cancel sp id := Some (fst (spec_cancel sp id), result_ok (snd (spec_cancel sp id)));
  mt_best := sp_best;
  mt_count sp := length (sp_all sp);
  mt_orders sp := Some (sp_all sp)
|}.

Program Definition spec_laws cap : MatcherLaws (H := spec_matcher cap) SpecBook cap := {|
  mt_rep _ m sp := m = sp
|}.
Next Obligation. intros cap n m sp o sp' fs res _ _ _ -> Hs. exists sp'. cbn. by rewrite Hs. Qed.
Next Obligation. intros cap n m sp id _ ->. by eexists. Qed.
Next Obligation. by intros cap n m sp s ->. Qed.
Next Obligation. by intros cap n m sp ->. Qed.
Next Obligation. by intros cap n m sp ->. Qed.

(** ** Runs of a matcher *)

Inductive MOp : Type :=
| MAdd (o : Order)
| MCancel (id : Z).

Inductive MAnswer : Type :=
| MAdded (status : OrderStatus) (fills : list Fill)
| MCancelled (order : option Order).

Definition mop_typed (op : MOp) : Prop := match op with MAdd o => order_typed o | MCancel _ => True end.

Definition mt_step {M} `{Matcher M} (m : M) (op : MOp) : option (M * MAnswer) :=
  match op with
  | MAdd o => '(m, (status, fills)) ← mt_add m o; Some (m, MAdded status fills)
  | MCancel id => '(m, r) ← mt_cancel m id; Some (m, MCancelled r)
  end.

Fixpoint mt_run {M} `{Matcher M} (m : M) (ops : list MOp) : option (M * list MAnswer) :=
  match ops with
  | [] => Some (m, [])
  | op :: ops => '(m, a) ← mt_step m op; '(m, l) ← mt_run m ops; Some (m, a :: l)
  end.

Section laws.
Context (cap : Z).

Abbreviation spec_step := (@mt_step SpecBook (spec_matcher cap)).
Abbreviation spec_run_ops := (@mt_run SpecBook (spec_matcher cap)).

Lemma spec_step_ok sp op sp' a : spec_ok sp -> mop_typed op -> spec_step sp op = Some (sp', a) -> spec_ok sp'.
Proof.
  intros Hok Ht. destruct op as [o|id]; cbn; intros H.
  - pose proof (spec_add_spec_ok cap sp o Hok Ht) as H'. destruct (spec_add cap sp o) as [[sp1 fs] [res|]]; [|done].
    cbn in H. by simplify_eq.
  - simplify_eq. by apply spec_cancel_spec_ok.
Qed.

Context {M : Type} `{MatcherLaws M cap}.

Lemma mt_step_refines n m sp op sp' a :
  0 <= n < 2 ^ 64 - 1 -> spec_ok sp -> mop_typed op -> mt_rep n m sp -> spec_step sp op = Some (sp', a) ->
  exists m', mt_step m op = Some (m', a) /\ mt_rep (n + 1) m' sp'.
Proof.
  intros Hn Hok Ht R. destruct op as [o|id]; cbn [mt_step mt_add mt_cancel spec_matcher]; intros Hs.
  - destruct (spec_add cap sp o) as [[sp1 fs] [res|]] eqn:E; [|done]. cbn in Hs. simplify_eq.
    destruct (mt_add_ok n m sp o _ fs res Hn Hok Ht R E) as (m' & -> & R'). by exists m'.
  - cbn in Hs. simplify_eq. destruct (mt_cancel_ok n m sp id Hok R) as (m' & -> & R'). by exists m'.
Qed.

(** A lawful matcher gives the answers of the abstract book, as long as the
    abstract book accepts the orders. *)
Theorem matcher_refines_spec n m sp ops sp' answers :
  0 <= n -> n + Z.of_nat (length ops) < 2 ^ 64 -> spec_ok sp -> Forall mop_typed ops -> mt_rep n m sp ->
  spec_run_ops sp ops = Some (sp', answers) ->
  exists m', mt_run m ops = Some (m', answers) /\ mt_rep (n + Z.of_nat (length ops)) m' sp' /\ spec_ok sp'.
Proof.
  revert n m sp answers. induction ops as [|op ops IH]; intros n m sp answers Hn Hlen Hok Ht R Hs.
  - cbn in Hs. simplify_eq. exists m. by rewrite Z.add_0_r.
  - apply Forall_cons in Ht as [Hop Ht]. cbn [mt_run length] in *. rewrite Nat2Z.inj_succ in *.
    destruct (spec_step sp op) as [[sp1 a]|] eqn:E; [|done]. cbn [mbind option_bind] in Hs.
    destruct (spec_run_ops sp1 ops) as [[sp2 l]|] eqn:E'; [|done]. cbn [mbind option_bind] in Hs. simplify_eq.
    destruct (mt_step_refines n m sp op sp1 a ltac:(lia) Hok Hop R E) as (m1 & -> & R1). cbn [mbind option_bind].
    destruct (IH (n + 1) m1 sp1 l ltac:(lia) ltac:(lia)) as (m' & -> & R' & Hok'); [by eapply spec_step_ok|done..|].
    exists m'. split; [done|]. by replace (n + Z.succ (Z.of_nat (length ops))) with (n + 1 + Z.of_nat (length ops)) by lia.
Qed.
End laws.

(** Any two lawful matchers that stand for the same book give the same answers,
    and afterwards show the same prices, count and orders. *)
Theorem matchers_agree cap {M1 M2 : Type} `{MatcherLaws M1 cap} `{MatcherLaws M2 cap} n (m1 : M1) (m2 : M2) sp ops :
  0 <= n -> n + Z.of_nat (length ops) < 2 ^ 64 -> spec_ok sp -> Forall mop_typed ops ->
  mt_rep n m1 sp -> mt_rep n m2 sp -> is_Some (@mt_run _ (spec_matcher cap) sp ops) ->
  exists m1' m2' answers, mt_run m1 ops = Some (m1', answers) /\ mt_run m2 ops = Some (m2', answers) /\
    (forall s, mt_best m1' s = mt_best m2' s) /\ mt_count m1' = mt_count m2' /\ mt_orders m1' = mt_orders m2'.
Proof.
  intros Hn Hlen Hok Ht R1 R2 [[sp' answers] Hs].
  destruct (matcher_refines_spec cap n m1 sp ops sp' answers) as (m1' & E1 & R1' & _); [done..|].
  destruct (matcher_refines_spec cap n m2 sp ops sp' answers) as (m2' & E2 & R2' & _); [done..|].
  exists m1', m2', answers. split; [done|]. split; [done|].
  split; [intros s; by rewrite (mt_best_ok _ _ _ s R1'), (mt_best_ok _ _ _ s R2')|].
  by rewrite (mt_count_ok _ _ _ R1'), (mt_count_ok _ _ _ R2'), (mt_orders_ok _ _ _ R1'), (mt_orders_ok _ _ _ R2').
Qed.
