(* ===== verification/ArenaTests.v ===== *)
(** * ArenaTests.v: the unit tests of [src/order.rs] and [src/arena.rs]

    Each [#[test]] function is a definition over the model; [order_tests_pass]
    and [arena_tests_pass] run them. *)

From S2P Require Import Prelude.
From S2P Require Import Order.
From S2P Require Import Arena.
From S2P Require Import Testing.

(** ** [src/order.rs] *)

Definition create_bid_order : option unit :=
  order ← Order_new 1 1 Bid 15005 100 1000000;
  assert_eq (o_id order) 1;;
  assert_eq (o_trader_id order) 1;;
  assert_eq (o_side order) Bid;;
  assert_eq (o_price order) 15005;;
  assert_eq (o_quantity order) 100;;
  assert_eq (o_timestamp order) 1000000.

Definition create_ask_order : option unit :=
  order ← Order_new 2 1 Ask 15010 50 2000000;
  assert_eq (o_side order) Ask;;
  assert_eq (o_quantity order) 50.

Definition reject_zero_quantity : option unit :=
  assert_eq (Order_new 1 1 Bid 15005 0 1000000) None.

Definition negative_price_allowed : option unit :=
  assert_that (bool_decide (is_Some (Order_new 1 1 Bid (-100) 10 0))).

Lemma order_tests_pass :
  suite_passes [create_bid_order; create_ask_order; reject_zero_quantity; negative_price_allowed].
Proof. run_suite. Qed.

(** ** [src/arena.rs] *)

Definition make_order (id price qty : Z) : option Order := Order_new id id Bid price qty id.

Definition ordernode_roundtrip : option unit :=
  order ← Order_new 1 2 Ask 100 50 999;
  let node := from_order order in
  let back := to_order node in
  assert_eq back order.

Definition arena_alloc_dealloc_cycle : option unit :=
  let arena := Arena_new 4 in
  '(arena, i0) ← call alloc arena (make_order 1 100 10);
  '(arena, i1) ← call alloc arena (make_order 2 101 20);
  '(arena, i2) ← call alloc arena (make_order 3 102 30);
  '(arena, i3) ← call alloc arena (make_order 4 103 40);
  assert_eq (count arena) 4;;
  assert_eq i0 0;;
  assert_eq i1 1;;
  assert_eq i2 2;;
  assert_eq i3 3;;
  arena ← dealloc arena i1;
  arena ← dealloc arena i3;
  assert_eq (count arena) 2;;
  '(arena, i4) ← call alloc arena (make_order 5 104 50);
  '(arena, i5) ← call alloc arena (make_order 6 105 60);
  assert_eq (count arena) 4;;
  assert_eq i4 3;;
  assert_eq i5 1.

#[global] Instance ArenaError_eq_dec : EqDecision ArenaError.
Proof. solve_decision. Defined.

Definition arena_full : option unit :=
  let arena := Arena_new 2 in
  '(arena, _) ← call alloc arena (make_order 1 100 10);
  '(arena, _) ← call alloc arena (make_order 2 101 20);
  '(arena, e) ← call_err alloc arena (make_order 3 102 30);
  assert_eq e Full.

Definition arena_zero_capacity : option unit :=
  let arena := Arena_new 0 in
  '(arena, e) ← call_err alloc arena (make_order 1 100 10);
  assert_eq e Full.

(** The lines that open most of the list tests: three orders at one price,
    chained in a level. *)
Definition three_in_level : option (Arena * PriceLevel * (Z * Z * Z)) :=
  let arena := Arena_new 8 in
  let level := PriceLevel_new in
  '(arena, i0) ← call alloc arena (make_order 1 100 10);
  '(arena, i1) ← call alloc arena (make_order 2 100 20);
  '(arena, i2) ← call alloc arena (make_order 3 100 30);
  '(arena, level) ← push_back arena level i0;
  '(arena, level) ← push_back arena level i1;
  '(arena, level) ← push_back arena level i2;
  Some (arena, level, (i0, i1, i2)).

(** [assert_eq!(arena.get(i).field, v)]. *)
Definition assert_node (arena : Arena) (i : Z) (field : OrderNode -> Z) (v : Z) : option unit :=
  n ← get arena i; assert_eq (field n) v.

Definition push_back_builds_list : option unit :=
  '(arena, level, (i0, i1, i2)) ← three_in_level;
  assert_eq (l_head level) i0;;
  assert_eq (l_tail level) i2;;
  assert_eq (l_count level) 3;;
  assert_eq (l_qty level) 60;;
  assert_node arena i0 n_prev ARENA_NULL;;
  assert_node arena i0 n_next i1;;
  assert_node arena i1 n_prev i0;;
  assert_node arena i1 n_next i2;;
  assert_node arena i2 n_prev i1;;
  assert_node arena i2 n_next ARENA_NULL.

Definition pop_front_drains_list : option unit :=
  '(arena, level, (i0, i1, i2)) ← three_in_level;
  '(arena, level, popped) ← pop_front arena level;
  assert_eq popped (Some i0);;
  assert_eq (l_head level) i1;;
  assert_eq (l_count level) 2;;
  assert_eq (l_qty level) 50;;
  assert_node arena i1 n_prev ARENA_NULL;;
  '(arena, level, popped) ← pop_front arena level;
  assert_eq popped (Some i1);;
  assert_eq (l_head level) i2;;
  assert_eq (l_count level) 1;;
  '(arena, level, popped) ← pop_front arena level;
  assert_eq popped (Some i2);;
  assert_eq (l_head level) ARENA_NULL;;
  assert_eq (l_tail level) ARENA_NULL;;
  assert_eq (l_count level) 0;;
  assert_eq (l_qty level) 0;;
  '(arena, level, popped) ← pop_front arena level;
  assert_eq popped None.

Definition remove_head : option unit :=
  '(arena, level, (i0, i1, i2)) ← three_in_level;
  '(arena, level) ← remove arena level i0;
  assert_eq (l_head level) i1;;
  assert_eq (l_tail level) i2;;
  assert_eq (l_count level) 2;;
  assert_eq (l_qty level) 50;;
  assert_node arena i1 n_prev ARENA_NULL.

Definition remove_tail : option unit :=
  '(arena, level, (i0, i1, i2)) ← three_in_level;
  '(arena, level) ← remove arena level i2;
  assert_eq (l_head level) i0;;
  assert_eq (l_tail level) i1;;
  assert_eq (l_count level) 2;;
  assert_eq (l_qty level) 30;;
  assert_node arena i1 n_next ARENA_NULL.

Definition remove_middle : option unit :=
  '(arena, level, (i0, i1, i2)) ← three_in_level;
  '(arena, level) ← remove arena level i1;
  assert_eq (l_head level) i0;;
  assert_eq (l_tail level) i2;;
  assert_eq (l_count level) 2;;
  assert_eq (l_qty level) 40;;
  assert_node arena i0 n_next i2;;
  assert_node arena i2 n_prev i0.

Definition remove_only_node : option unit :=
  let arena := Arena_new 8 in
  let level := PriceLevel_new in
  '(arena, i0) ← call alloc arena (make_order 1 100 10);
  '(arena, level) ← push_back arena level i0;
  '(arena, level) ← remove arena level i0;
  assert_eq (l_head level) ARENA_NULL;;
  assert_eq (l_tail level) ARENA_NULL;;
  assert_eq (l_count level) 0;;
  assert_eq (l_qty level) 0.

(** [while cur != ARENA_NULL { out.push(arena.get(cur).id); cur = .. }], along
    [next] or [prev]; eight slots bound the walk. *)
Fixpoint walk_ids (fuel : nat) (arena : Arena) (step : OrderNode -> Z) (cur : Z) : option (list Z) :=
  match fuel with
  | O => None
  | S fuel =>
      if decide (cur ≠ ARENA_NULL) then
        n ← get arena cur; ids ← walk_ids fuel arena step (step n); Some (n_id n :: ids)
      else Some []
  end.

Definition walk_forward_and_backward : option unit :=
  let ids := seqZ 1 5 in
  '(arena, level) ← for_each (fun '(arena, level) id =>
      '(arena, idx) ← call alloc arena (make_order id 100 id);
      push_back arena level idx) (Arena_new 8, PriceLevel_new) ids;
  forward ← walk_ids 9 arena n_next (l_head level);
  assert_eq forward ids;;
  backward ← walk_ids 9 arena n_prev (l_tail level);
  assert_eq backward (reverse ids).

Definition alloc_after_dealloc_reuses_slots : option unit :=
  let arena := Arena_new 3 in
  let level := PriceLevel_new in
  '(arena, i0) ← call alloc arena (make_order 1 100 10);
  '(arena, i1) ← call alloc arena (make_order 2 100 20);
  '(arena, i2) ← call alloc arena (make_order 3 100 30);
  '(arena, level) ← push_back arena level i0;
  '(arena, level) ← push_back arena level i1;
  '(arena, level) ← push_back arena level i2;
  '(arena, level) ← remove arena level i1;
  arena ← dealloc arena i1;
  '(arena, i3) ← call alloc arena (make_order 4 100 40);
  assert_eq i3 i1;;
  assert_node arena i3 n_id 4;;
  assert_eq (count arena) 3.

Lemma arena_tests_pass :
  suite_passes [ordernode_roundtrip; arena_alloc_dealloc_cycle; arena_full; arena_zero_capacity;
    push_back_builds_list; pop_front_drains_list; remove_head; remove_tail; remove_middle;
    remove_only_node; walk_forward_and_backward; alloc_after_dealloc_reuses_slots].
Proof. run_suite. Qed.
