(* ===== verification/BookTests.v ===== *)
(** * BookTests.v: the unit tests of [src/book.rs]

    Most tests build the book with the default capacity of 2^20 slots. *)

From S2P Require Import Prelude.
From S2P Require Import Order.
From S2P Require Import Arena.
From S2P Require Import Book.
From S2P Require Import Testing.

Import OrderBook.


Definition bid (id price qty ts : Z) : option Order := Order_new id 1 Bid price qty ts.
Definition ask (id price qty ts : Z) : option Order := Order_new id 1 Ask price qty ts.

(** [book.reduce_front_quantity(side, price, qty)]. *)
Definition reduce (side : Side) (price : Z) (b : OrderBook) (qty : Z) : option (OrderBook * result Z BookError) :=
  reduce_front_quantity b side price qty.

(** [book.peek_front(side, price).unwrap()]. *)
Definition front_of (b : OrderBook) (side : Side) (price : Z) : option OrderNode :=
  m ← peek_front b side price; m.

Definition insert_and_best_prices : option unit :=
  let book := new in
  '(book, _) ← call insert_order book (bid 1 100 10 1);
  '(book, _) ← call insert_order book (bid 2 102 10 2);
  '(book, _) ← call insert_order book (ask 3 105 10 3);
  '(book, _) ← call insert_order book (ask 4 103 10 4);
  assert_eq (best_bid book) (Some 102);;
  assert_eq (best_ask book) (Some 103);;
  assert_eq (order_count book) 4%nat.

Definition duplicate_id_rejected : option unit :=
  let book := new in
  '(book, _) ← call insert_order book (bid 1 100 10 1);
  '(book, err) ← call_err insert_order book (ask 1 105 5 2);
  assert_eq err (DuplicateOrderId 1).

Definition cancel_order_updates_best : option unit :=
  let book := new in
  '(book, _) ← call insert_order book (bid 1 100 10 1);
  '(book, _) ← call insert_order book (bid 2 102 10 2);
  '(book, cancelled) ← call cancel_order book (Some 2);
  assert_eq (o_id cancelled) 2;;
  assert_eq (best_bid book) (Some 100);;
  assert_eq (order_count book) 1%nat.

Definition cancel_last_order_clears_best : option unit :=
  let book := new in
  '(book, _) ← call insert_order book (ask 1 105 10 1);
  '(book, _) ← call cancel_order book (Some 1);
  assert_eq (best_ask book) None;;
  assert_eq (order_count book) 0%nat.

Definition cancel_nonexistent_order : option unit :=
  let book := new in
  '(book, err) ← call_err cancel_order book (Some 999);
  assert_eq err (OrderNotFound 999).

Definition fifo_ordering_within_level : option unit :=
  let book := new in
  '(book, _) ← call insert_order book (bid 1 100 10 1);
  '(book, _) ← call insert_order book (bid 2 100 20 2);
  '(book, _) ← call insert_order book (bid 3 100 30 3);
  front ← front_of book Bid 100;
  assert_eq (n_id front) 1.

Definition reduce_front_partial : option unit :=
  let book := new in
  '(book, _) ← call insert_order book (ask 1 105 100 1);
  '(book, remaining) ← call (reduce Ask 105) book (Some 40);
  assert_eq remaining 60;;
  assert_eq (order_count book) 1%nat;;
  front ← front_of book Ask 105;
  assert_eq (n_quantity front) 60.

Definition reduce_front_full_removes_order : option unit :=
  let book := new in
  '(book, _) ← call insert_order book (ask 1 105 100 1);
  '(book, _) ← call insert_order book (ask 2 105 50 2);
  '(book, remaining) ← call (reduce Ask 105) book (Some 100);
  assert_eq remaining 0;;
  assert_eq (order_count book) 1%nat;;
  front ← front_of book Ask 105;
  assert_eq (n_id front) 2.

Definition reduce_front_removes_empty_level : option unit :=
  let book := new in
  '(book, _) ← call insert_order book (ask 1 105 100 1);
  '(book, _) ← call insert_order book (ask 2 110 50 2);
  '(book, _) ← call (reduce Ask 105) book (Some 100);
  assert_eq (best_ask book) (Some 110).

Definition fill_exceeds_quantity_error : option unit :=
  let book := new in
  '(book, _) ← call insert_order book (bid 1 100 10 1);
  '(book, err) ← call_err (reduce Bid 100) book (Some 20);
  assert_eq err (FillExceedsQuantity 10 20).

Definition empty_book_defaults : option unit :=
  let book := new in
  assert_eq (best_bid book) None;;
  assert_eq (best_ask book) None;;
  assert_eq (order_count book) 0%nat;;
  m ← peek_front book Bid 100;
  assert_that (match m with None => true | Some _ => false end).

Definition arena_full_rejects_insert : option unit :=
  let book := with_capacity 2 in
  '(book, _) ← call insert_order book (bid 1 100 10 1);
  '(book, _) ← call insert_order book (bid 2 101 10 2);
  '(book, err) ← call_err insert_order book (bid 3 102 10 3);
  assert_eq err ArenaFull;;
  assert_eq (order_count book) 2%nat.

Definition cancel_frees_slot_for_reuse : option unit :=
  let book := with_capacity 2 in
  '(book, _) ← call insert_order book (bid 1 100 10 1);
  '(book, _) ← call insert_order book (bid 2 101 10 2);
  '(book, err) ← call_err insert_order book (bid 3 102 10 3);
  assert_eq err ArenaFull;;
  '(book, _) ← call cancel_order book (Some 1);
  '(book, _) ← call insert_order book (bid 3 102 10 3);
  assert_eq (order_count book) 2%nat;;
  assert_eq (best_bid book) (Some 102).

Definition all_resting_orders_empty_book : option unit :=
  let book := new in
  orders ← all_resting_orders book;
  assert_eq orders [].

Definition all_resting_orders_canonical_order : option unit :=
  let book := with_capacity 16 in
  '(book, _) ← call insert_order book (bid 1 100 10 1);
  '(book, _) ← call insert_order book (ask 2 110 20 2);
  '(book, _) ← call insert_order book (bid 3 102 30 3);
  '(book, _) ← call insert_order book (ask 4 108 40 4);
  '(book, _) ← call insert_order book (bid 5 100 50 5);
  orders ← all_resting_orders book;
  assert_eq (length orders) 5%nat;;
  assert_at orders 0 o_id 4;;
  assert_at orders 1 o_id 2;;
  assert_at orders 2 o_id 3;;
  assert_at orders 3 o_id 1;;
  assert_at orders 4 o_id 5.

Definition all_resting_orders_reflects_partial_fills : option unit :=
  let book := with_capacity 8 in
  '(book, _) ← call insert_order book (ask 1 105 100 1);
  '(book, _) ← call (reduce Ask 105) book (Some 40);
  orders ← all_resting_orders book;
  assert_eq (length orders) 1%nat;;
  assert_at orders 0 o_quantity 60.

Definition cancel_middle_of_level : option unit :=
  let book := with_capacity 8 in
  '(book, _) ← call insert_order book (bid 1 100 10 1);
  '(book, _) ← call insert_order book (bid 2 100 20 2);
  '(book, _) ← call insert_order book (bid 3 100 30 3);
  '(book, _) ← call cancel_order book (Some 2);
  assert_eq (order_count book) 2%nat;;
  front ← front_of book Bid 100;
  assert_eq (n_id front) 1;;
  '(book, _) ← call (reduce Bid 100) book (Some 10);
  front ← front_of book Bid 100;
  assert_eq (n_id front) 3.

Lemma book_tests_pass :
  suite_passes [insert_and_best_prices; duplicate_id_rejected; cancel_order_updates_best;
    cancel_last_order_clears_best; cancel_nonexistent_order; fifo_ordering_within_level;
    reduce_front_partial; reduce_front_full_removes_order; reduce_front_removes_empty_level;
    fill_exceeds_quantity_error; empty_book_defaults; arena_full_rejects_insert;
    cancel_frees_slot_for_reuse; all_resting_orders_empty_book; all_resting_orders_canonical_order;
    all_resting_orders_reflects_partial_fills; cancel_middle_of_level].
Proof. run_suite. Qed.
