(* ===== verification/MatchingTests.v ===== *)
(** * MatchingTests.v: the unit tests of [src/matching.rs] *)

From S2P Require Import Prelude.
From S2P Require Import Order.
From S2P Require Import Arena.
From S2P Require Import Book.
From S2P Require Import Matching.
From S2P Require Import Testing.

Import MatchingEngine.

Definition TEST_CAPACITY : Z := 1024.

Definition engine : MatchingEngine := with_capacity TEST_CAPACITY.

Definition bid (id price qty ts : Z) : option Order := Order_new id id Bid price qty ts.
Definition ask (id price qty ts : Z) : option Order := Order_new id id Ask price qty ts.
Definition bid_trader (id trader_id price qty ts : Z) : option Order := Order_new id trader_id Bid price qty ts.
Definition ask_trader (id trader_id price qty ts : Z) : option Order := Order_new id trader_id Ask price qty ts.

(** [engine.book().order_count()], [best_bid()], [best_ask()]. *)
Definition count_of (e : MatchingEngine) : nat := OrderBook.order_count (book e).
Definition bid_of (e : MatchingEngine) : option Z := OrderBook.best_bid (book e).
Definition ask_of (e : MatchingEngine) : option Z := OrderBook.best_ask (book e).

Definition no_match_resting : option unit :=
  let engine := engine in
  '(engine, result) ← call add_order engine (bid 1 100 10 1);
  assert_eq (r_status result) Resting;;
  assert_eq (r_fills result) [];;
  '(engine, result) ← call add_order engine (ask 2 105 10 2);
  assert_eq (r_status result) Resting;;
  assert_eq (r_fills result) [];;
  assert_eq (bid_of engine) (Some 100);;
  assert_eq (ask_of engine) (Some 105);;
  assert_eq (count_of engine) 2%nat.

Definition full_fill_equal_quantities : option unit :=
  let engine := engine in
  '(engine, _) ← call add_order engine (ask 1 100 10 1);
  '(engine, result) ← call add_order engine (bid 2 100 10 2);
  assert_eq (r_status result) FullyFilled;;
  assert_eq (length (r_fills result)) 1%nat;;
  assert_at (r_fills result) 0 f_quantity 10;;
  assert_at (r_fills result) 0 f_price 100;;
  assert_at (r_fills result) 0 f_taker_order_id 2;;
  assert_at (r_fills result) 0 f_maker_order_id 1;;
  assert_at (r_fills result) 0 f_maker_fully_filled true;;
  assert_eq (count_of engine) 0%nat.

Definition partial_fill_taker_has_more : option unit :=
  let engine := engine in
  '(engine, _) ← call add_order engine (ask 1 100 5 1);
  '(engine, result) ← call add_order engine (bid 2 100 10 2);
  assert_eq (r_status result) PartiallyFilled;;
  assert_eq (length (r_fills result)) 1%nat;;
  assert_at (r_fills result) 0 f_quantity 5;;
  assert_at (r_fills result) 0 f_maker_fully_filled true;;
  assert_eq (bid_of engine) (Some 100);;
  assert_eq (count_of engine) 1%nat.

Definition partial_fill_maker_has_more : option unit :=
  let engine := engine in
  '(engine, _) ← call add_order engine (bid 1 100 20 1);
  '(engine, result) ← call add_order engine (ask 2 100 5 2);
  assert_eq (r_status result) FullyFilled;;
  assert_eq (length (r_fills result)) 1%nat;;
  assert_at (r_fills result) 0 f_quantity 5;;
  assert_at (r_fills result) 0 f_maker_fully_filled false;;
  assert_eq (count_of engine) 1%nat;;
  assert_eq (bid_of engine) (Some 100).

Definition multi_level_matching : option unit :=
  let engine := engine in
  '(engine, _) ← call add_order engine (ask 1 100 5 1);
  '(engine, _) ← call add_order engine (ask 2 101 5 2);
  '(engine, _) ← call add_order engine (ask 3 102 5 3);
  '(engine, result) ← call add_order engine (bid 4 102 12 4);
  assert_eq (r_status result) FullyFilled;;
  assert_eq (length (r_fills result)) 3%nat;;
  assert_at (r_fills result) 0 f_price 100;;
  assert_at (r_fills result) 0 f_quantity 5;;
  assert_at (r_fills result) 1 f_price 101;;
  assert_at (r_fills result) 1 f_quantity 5;;
  assert_at (r_fills result) 2 f_price 102;;
  assert_at (r_fills result) 2 f_quantity 2;;
  assert_at (r_fills result) 2 f_maker_fully_filled false;;
  assert_eq (count_of engine) 1%nat;;
  assert_eq (ask_of engine) (Some 102).

Definition fifo_within_price_level : option unit :=
  let engine := engine in
  '(engine, _) ← call add_order engine (ask 1 100 10 1);
  '(engine, _) ← call add_order engine (ask 2 100 10 2);
  '(engine, _) ← call add_order engine (ask 3 100 10 3);
  '(engine, result) ← call add_order engine (bid 4 100 15 4);
  assert_eq (length (r_fills result)) 2%nat;;
  assert_at (r_fills result) 0 f_maker_order_id 1;;
  assert_at (r_fills result) 0 f_quantity 10;;
  assert_at (r_fills result) 1 f_maker_order_id 2;;
  assert_at (r_fills result) 1 f_quantity 5.

Definition fill_price_is_maker_price : option unit :=
  let engine := engine in
  '(engine, _) ← call add_order engine (ask 1 100 10 1);
  '(engine, result) ← call add_order engine (bid 2 110 10 2);
  assert_at (r_fills result) 0 f_price 100.

Definition ask_taker_matches_bids : option unit :=
  let engine := engine in
  '(engine, _) ← call add_order engine (bid 1 102 10 1);
  '(engine, _) ← call add_order engine (bid 2 101 10 2);
  '(engine, result) ← call add_order engine (ask 3 101 15 3);
  assert_eq (length (r_fills result)) 2%nat;;
  assert_at (r_fills result) 0 f_maker_order_id 1;;
  assert_at (r_fills result) 0 f_price 102;;
  assert_at (r_fills result) 0 f_quantity 10;;
  assert_at (r_fills result) 1 f_maker_order_id 2;;
  assert_at (r_fills result) 1 f_price 101;;
  assert_at (r_fills result) 1 f_quantity 5;;
  assert_eq (r_status result) FullyFilled.

Definition cancel_resting_order : option unit :=
  let engine := engine in
  '(engine, _) ← call add_order engine (bid 1 100 10 1);
  '(engine, cancelled) ← call cancel_order engine (Some 1);
  assert_eq (o_id cancelled) 1;;
  assert_eq (count_of engine) 0%nat.

Definition cancel_nonexistent_fails : option unit :=
  let engine := engine in
  '(engine, err) ← call_err cancel_order engine (Some 999);
  assert_eq err (MBook (OrderNotFound 999)).

Definition zero_quantity_rejected : option unit :=
  let engine := engine in
  let order := mkOrder 1 1 Bid 100 0 1 in
  '(engine, err) ← call_err add_order engine (Some order);
  assert_eq err ZeroQuantity.

Definition empty_book_no_match : option unit :=
  let engine := engine in
  '(engine, result) ← call add_order engine (bid 1 100 10 1);
  assert_eq (r_status result) Resting;;
  assert_eq (r_fills result) [].

Definition bid_below_best_ask_no_match : option unit :=
  let engine := engine in
  '(engine, _) ← call add_order engine (ask 1 105 10 1);
  '(engine, result) ← call add_order engine (bid 2 100 10 2);
  assert_eq (r_status result) Resting;;
  assert_eq (r_fills result) [];;
  assert_eq (count_of engine) 2%nat.

Definition self_trade_prevented_cancel_newest : option unit :=
  let engine := engine in
  '(engine, _) ← call add_order engine (ask_trader 1 1 100 10 1);
  '(engine, result) ← call add_order engine (bid_trader 2 1 100 10 2);
  assert_eq (r_status result) CancelledSelfTrade;;
  assert_eq (r_fills result) [];;
  assert_eq (count_of engine) 1%nat;;
  assert_eq (ask_of engine) (Some 100).

Definition self_trade_different_traders_allowed : option unit :=
  let engine := engine in
  '(engine, _) ← call add_order engine (ask_trader 1 1 100 10 1);
  '(engine, result) ← call add_order engine (bid_trader 2 2 100 10 2);
  assert_eq (r_status result) FullyFilled;;
  assert_eq (length (r_fills result)) 1%nat;;
  assert_at (r_fills result) 0 f_quantity 10;;
  assert_eq (count_of engine) 0%nat.

Definition self_trade_partial_fill_then_cancel : option unit :=
  let engine := engine in
  '(engine, _) ← call add_order engine (ask_trader 1 10 100 5 1);
  '(engine, _) ← call add_order engine (ask_trader 2 20 101 10 2);
  '(engine, result) ← call add_order engine (bid_trader 3 20 101 15 3);
  assert_eq (r_status result) CancelledSelfTrade;;
  assert_eq (length (r_fills result)) 1%nat;;
  assert_at (r_fills result) 0 f_maker_order_id 1;;
  assert_at (r_fills result) 0 f_quantity 5;;
  assert_eq (count_of engine) 1%nat;;
  assert_eq (ask_of engine) (Some 101).

(** [MatchingEngine::restore_from_orders(&orders, TEST_CAPACITY).unwrap()], the
    orders being built with [unwrap] too. *)
Definition restored (orders : list (option Order)) : option MatchingEngine :=
  orders ← mapM id orders;
  r ← restore_from_orders orders TEST_CAPACITY;
  unwrap r.

Definition restore_empty : option unit :=
  engine ← restored [];
  assert_eq (count_of engine) 0%nat;;
  assert_eq (bid_of engine) None;;
  assert_eq (ask_of engine) None.

Definition restore_from_orders_rebuilds_book : option unit :=
  engine ← restored [ask 1 105 10 1; ask 2 110 20 2; bid 3 100 30 3; bid 4 98 40 4];
  assert_eq (count_of engine) 4%nat;;
  assert_eq (bid_of engine) (Some 100);;
  assert_eq (ask_of engine) (Some 105).

Definition restore_then_match : option unit :=
  engine ← restored [ask 1 100 10 1; ask 2 101 20 2];
  '(engine, result) ← call add_order engine (bid 3 101 15 3);
  assert_eq (length (r_fills result)) 2%nat;;
  assert_at (r_fills result) 0 f_maker_order_id 1;;
  assert_at (r_fills result) 0 f_quantity 10;;
  assert_at (r_fills result) 1 f_maker_order_id 2;;
  assert_at (r_fills result) 1 f_quantity 5;;
  assert_eq (r_status result) FullyFilled.

Definition self_trade_multiple_resting_same_trader : option unit :=
  let engine := engine in
  '(engine, _) ← call add_order engine (ask_trader 1 1 100 10 1);
  '(engine, _) ← call add_order engine (ask_trader 2 1 101 10 2);
  '(engine, result) ← call add_order engine (bid_trader 3 1 105 30 3);
  assert_eq (r_status result) CancelledSelfTrade;;
  assert_eq (r_fills result) [];;
  assert_eq (count_of engine) 2%nat.

Lemma matching_tests_pass :
  suite_passes [no_match_resting; full_fill_equal_quantities; partial_fill_taker_has_more;
    partial_fill_maker_has_more; multi_level_matching; fifo_within_price_level;
    fill_price_is_maker_price; ask_taker_matches_bids; cancel_resting_order;
    cancel_nonexistent_fails; zero_quantity_rejected; empty_book_no_match;
    bid_below_best_ask_no_match; self_trade_prevented_cancel_newest;
    self_trade_different_traders_allowed; self_trade_partial_fill_then_cancel; restore_empty;
    restore_from_orders_rebuilds_book; restore_then_match; self_trade_multiple_resting_same_trader].
Proof. run_suite. Qed.
