(* ===== verification/MatchingProps.v ===== *)
(** * MatchingProps.v: the property tests of [src/matching.rs]

    The [proptest!] functions, over the inputs their strategies draw.  Where
    the crate samples small prices and quantities, the theorems hold for every
    input of the types. *)

From S2P Require Import Prelude.
From S2P Require Import Order.
From S2P Require Import Arena.
From S2P Require Import ArenaInv.
From S2P Require Import Book.
From S2P Require Import BookSpec.
From S2P Require Import BookInv.
From S2P Require Import Matching.
From S2P Require Import MatchingSpec.
From S2P Require Import MatchingInv.
From S2P Require Import Testing.
From S2P Require Import MatchingTests.

Import MatchingEngine.

(** [result.fills.iter().map(|f| f.quantity).sum()]. *)
Definition filled_of (result : AddOrderResult) : Z :=
  foldl (fun s f => u64_add s (f_quantity f)) 0 (r_fills result).

Definition quantity_conservation (price maker_qty taker_qty : Z) : option unit :=
  let engine := engine in
  '(engine, _) ← call add_order engine (Order_new 1 1 Ask price maker_qty 1);
  '(engine, result) ← call add_order engine (Order_new 2 2 Bid price taker_qty 2);
  let filled := filled_of result in
  let remainder :=
    match r_status result with
    | FullyFilled => 0
    | PartiallyFilled | Resting => u64_sub taker_qty filled
    | CancelledSelfTrade => u64_sub taker_qty filled
    end in
  assert_eq (u64_add filled remainder) taker_qty.

Definition crosses_produce_fills (price maker_qty taker_qty : Z) : option unit :=
  let engine := engine in
  '(engine, _) ← call add_order engine (Order_new 1 1 Ask price maker_qty 1);
  '(engine, result) ← call add_order engine (Order_new 2 2 Bid price taker_qty 2);
  assert_that (negb (bool_decide (r_fills result = []))).

Definition no_self_trade_fills (price maker_qty taker_qty : Z) : option unit :=
  let engine := engine in
  '(engine, _) ← call add_order engine (Order_new 1 42 Ask price maker_qty 1);
  '(engine, result) ← call add_order engine (Order_new 2 42 Bid price taker_qty 2);
  assert_eq (r_fills result) [];;
  assert_eq (r_status result) CancelledSelfTrade.

(** [for (i, (side, price, qty)) in orders.into_iter().enumerate()]: the orders
    are numbered from one; [check] looks at the result of each [add_order]. *)
Definition add_numbered (check : result AddOrderResult MatchingError -> option unit)
  (s : MatchingEngine * Z) (x : Side * Z * Z) : option (MatchingEngine * Z) :=
  let '(engine, i) := s in
  let '(side, price, qty) := x in
  let id := wrap 64 (i + 1) in
  order ← Order_new id id side price qty id;
  '(engine, r) ← add_order engine order;
  check r;;
  Some (engine, i + 1).

Definition no_crossed_book (orders : list (Side * Z * Z)) : option unit :=
  '(engine, _) ← for_each (add_numbered (fun _ => Some tt)) (engine, 0) orders;
  match bid_of engine, ask_of engine with
  | Some bb, Some ba => assert_that (bool_decide (bb < ba))
  | _, _ => Some tt
  end.

Definition fill_quantities_positive (orders : list (Side * Z * Z)) : option unit :=
  _ ← for_each (add_numbered (fun r =>
        match r with
        | Ok result => for_each (fun _ fill => assert_that (bool_decide (f_quantity fill > 0))) tt (r_fills result)
        | Err _ => Some tt
        end)) (engine, 0) orders;
  Some tt.

(** ** For all inputs *)

(** What the strategies draw, without their upper bounds. *)
Definition qty_ok (q : Z) : Prop := is_u64 q /\ 0 < q.
Definition input_ok (x : Side * Z * Z) : Prop := is_i64 (snd (fst x)) /\ qty_ok (snd x).

Lemma engine_start : engine_inv TEST_CAPACITY engine sp_empty.
Proof. by apply with_capacity_inv. Qed.

(** One [add_order] of an order the test builds, on the abstract book. *)
Lemma call_add_spec e sp id trader side price qty ts sp' fs r :
  engine_inv TEST_CAPACITY e sp -> is_u64 id -> is_u64 trader -> is_i64 price -> qty_ok qty -> is_u64 ts ->
  spec_add TEST_CAPACITY sp (mkOrder id trader side price qty ts) = (sp', fs, r) ->
  exists e', Order_new id trader side price qty ts = Some (mkOrder id trader side price qty ts) /\
    add_order e (mkOrder id trader side price qty ts) = Some (e', r) /\ engine_inv TEST_CAPACITY e' sp'.
Proof.
  intros He ? ? ? [? ?] ? Hs.
  pose proof (add_order_spec _ _ _ (mkOrder id trader side price qty ts) He) as Hadd.
  rewrite Hs in Hadd. destruct Hadd as (e' & ? & ? & _); [done|].
  exists e'. split; [|done]. unfold Order_new. by rewrite decide_False by lia.
Qed.

(** A resting ask, then a bid at its price by another trader: one fill of the
    smaller quantity. *)
Definition one_fill (price mq tq : Z) : AddOrderResult :=
  mkAddResult 2 (if decide (tq <= mq) then FullyFilled else PartiallyFilled)
    [mkFill 2 1 price (Z.min tq mq) (bool_decide (mq <= tq))].

Lemma spec_add_first trader price mq :
  0 < mq -> spec_add TEST_CAPACITY sp_empty (mkOrder 1 trader Ask price mq 1) =
  (mkSpec [] [mkOrder 1 trader Ask price mq 1], [], Ok (mkAddResult 1 Resting [])).
Proof.
  intros. unfold spec_add. cbn. rewrite decide_False by lia.
  rewrite decide_False by lia. unfold spec_insert. cbn.
  rewrite decide_False by set_solver. done.
Qed.

Lemma spec_add_cross price mq tq :
  0 < mq -> 0 < tq -> exists sp' fs,
  spec_add TEST_CAPACITY (mkSpec [] [mkOrder 1 1 Ask price mq 1]) (mkOrder 2 2 Bid price tq 2) =
  (sp', fs, Ok (one_fill price mq tq)).
Proof.
  intros. unfold spec_add, one_fill. cbn [o_quantity o_side opposite sp_side sp_asks].
  rewrite decide_False by lia. cbn [spec_match o_side o_price o_trader_id o_quantity o_id crosses].
  rewrite decide_True by lia. rewrite decide_True by lia. rewrite decide_False by lia.
  destruct (decide (mq - Z.min tq mq = 0)) as [Hz|Hz].
  - cbn [spec_match o_id]. rewrite (bool_decide_true (mq - _ = 0)) by lia. rewrite (bool_decide_true (mq <= tq)) by lia.
    destruct (decide (tq <= mq)).
    + rewrite decide_True by lia. eauto.
    + rewrite decide_False by lia. unfold spec_insert. cbn. rewrite decide_False by set_solver. cbn. eauto.
  - rewrite (bool_decide_false (mq - _ = 0)) by lia. rewrite (bool_decide_false (mq <= tq)) by lia.
    rewrite (decide_True (P := tq - _ = 0)) by lia. rewrite decide_True by lia. eauto.
Qed.

Lemma spec_add_own price mq tq :
  0 < tq -> exists sp' fs,
  spec_add TEST_CAPACITY (mkSpec [] [mkOrder 1 42 Ask price mq 1]) (mkOrder 2 42 Bid price tq 2) =
  (sp', fs, Ok (mkAddResult 2 CancelledSelfTrade [])).
Proof.
  intros. unfold spec_add. cbn [o_quantity o_side opposite sp_side sp_asks].
  rewrite decide_False by lia. cbn [spec_match o_side o_price o_trader_id o_quantity o_id crosses].
  rewrite decide_True by lia. rewrite decide_True by lia. rewrite decide_True by lia. eauto.
Qed.

Lemma for_each_numbered check :
  (forall e sp o sp' fs r, engine_inv TEST_CAPACITY e sp -> order_typed o -> 0 < o_quantity o ->
     spec_add TEST_CAPACITY sp o = (sp', fs, r) -> check r = Some tt) ->
  forall orders e sp i, engine_inv TEST_CAPACITY e sp -> Forall input_ok orders ->
  0 <= i -> i + Z.of_nat (length orders) < 2 ^ 64 ->
  exists e' sp' j, for_each (add_numbered check) (e, i) orders = Some (e', j) /\ engine_inv TEST_CAPACITY e' sp'.
Proof.
  intros Hcheck. induction orders as [|[[side price] qty] orders IH]; intros e sp i He Hok Hi Hlen.
  { by exists e, sp, i. }
  apply Forall_cons in Hok as [[Hp Hq] Hok]. simpl in Hp, Hq. cbn [length] in Hlen.
  assert (is_u64 (i + 1)) as Hid by (unfold_ranges; lia).
  destruct (spec_add TEST_CAPACITY sp (mkOrder (i + 1) (i + 1) side price qty (i + 1))) as [[sp' fs] r] eqn:Hs.
  destruct (call_add_spec e sp _ _ _ _ _ _ _ _ _ He Hid Hid Hp Hq Hid Hs) as (e' & Hn & Ha & He').
  cbn [for_each add_numbered]. rewrite wrap_small by (unfold_ranges; lia). rewrite Hn. cbn [mbind option_bind].
  rewrite Ha. cbn [mbind option_bind]. destruct Hq.
  rewrite (Hcheck e sp _ _ _ _ He) with (1 := conj Hid (conj Hid (conj Hp (conj H Hid)))) (3 := Hs) by done.
  cbn [mbind option_bind]. apply (IH e' sp' (i + 1)); [done|done|lia|lia].
Qed.

(** The fills of an accepted order are positive. *)
Lemma spec_add_fills_positive cap sp o sp' fs res :
  Forall resting_ok (sp_side sp (opposite (o_side o))) -> spec_add cap sp o = (sp', fs, Ok res) ->
  Forall (fun f => 0 < f_quantity f) (r_fills res).
Proof.
  intros Hok. unfold spec_add. destruct (decide (o_quantity o = 0)); [done|].
  pose proof (spec_match_fills o (o_quantity o) (sp_side sp (opposite (o_side o)))) as Hf.
  destruct (spec_match o (o_quantity o) (sp_side sp (opposite (o_side o)))) as [[[fs0 L] q] st].
  destruct (Hf Hok) as [Hpos _]. intros Hr.
  assert (r_fills res = fs0) as ->.
  { destruct st; [by simplify_eq|]. destruct (decide (q = 0)); [by simplify_eq|].
    destruct (spec_insert _ _ _) as [? []]; by simplify_eq. }
  eapply Forall_impl; [exact Hpos|]. by intros f (? & _).
Qed.

Lemma for_each_unit {X} (f : unit -> X -> option unit) xs :
  Forall (fun x => f tt x = Some tt) xs -> for_each f tt xs = Some tt.
Proof. induction 1 as [|x xs Hx _ IH]; [done|]. cbn. by rewrite Hx. Qed.

Lemma maker_taker_run price mq tq :
  is_i64 price -> qty_ok mq -> qty_ok tq ->
  exists e1 e2,
    call add_order engine (Order_new 1 1 Ask price mq 1) = Some (e1, mkAddResult 1 Resting []) /\
    call add_order e1 (Order_new 2 2 Bid price tq 2) = Some (e2, one_fill price mq tq).
Proof.
  intros Hp Hm Ht.
  destruct (call_add_spec _ _ 1 1 Ask price mq 1 _ _ _ engine_start ltac:(done) ltac:(done) Hp Hm ltac:(done)
    (spec_add_first 1 price mq (proj2 Hm))) as (e1 & Hn1 & Ha1 & He1).
  destruct (spec_add_cross price mq tq (proj2 Hm) (proj2 Ht)) as (sp2 & fs & Hs2).
  destruct (call_add_spec _ _ 2 2 Bid price tq 2 _ _ _ He1 ltac:(done) ltac:(done) Hp Ht ltac:(done) Hs2)
    as (e2 & Hn2 & Ha2 & _).
  exists e1, e2. unfold call. rewrite Hn1, Hn2. cbn [mbind option_bind]. by rewrite Ha1, Ha2.
Qed.

Lemma own_order_run price mq tq :
  is_i64 price -> qty_ok mq -> qty_ok tq ->
  exists e1 e2,
    call add_order engine (Order_new 1 42 Ask price mq 1) = Some (e1, mkAddResult 1 Resting []) /\
    call add_order e1 (Order_new 2 42 Bid price tq 2) = Some (e2, mkAddResult 2 CancelledSelfTrade []).
Proof.
  intros Hp Hm Ht.
  destruct (call_add_spec _ _ 1 42 Ask price mq 1 _ _ _ engine_start ltac:(done) ltac:(done) Hp Hm ltac:(done)
    (spec_add_first 42 price mq (proj2 Hm))) as (e1 & Hn1 & Ha1 & He1).
  destruct (spec_add_own price mq tq (proj2 Ht)) as (sp2 & fs & Hs2).
  destruct (call_add_spec _ _ 2 42 Bid price tq 2 _ _ _ He1 ltac:(done) ltac:(done) Hp Ht ltac:(done) Hs2)
    as (e2 & Hn2 & Ha2 & _).
  exists e1, e2. unfold call. rewrite Hn1, Hn2. cbn [mbind option_bind]. by rewrite Ha1, Ha2.
Qed.

Lemma quantity_conservation_holds price mq tq :
  is_i64 price -> qty_ok mq -> qty_ok tq -> quantity_conservation price mq tq = Some tt.
Proof.
  intros Hp Hm Ht. destruct (maker_taker_run price mq tq Hp Hm Ht) as (e1 & e2 & H1 & H2).
  unfold quantity_conservation. rewrite H1. cbn [mbind option_bind]. rewrite H2. cbn [mbind option_bind].
  apply assert_eq_pass. destruct Hm, Ht. unfold_ranges. unfold filled_of, one_fill, u64_add, u64_sub.
  cbn [r_status r_fills foldl f_quantity]. rewrite Z.add_0_l, (wrap_small 64 (Z.min tq mq)) by lia.
  destruct (decide (tq <= mq)); rewrite !wrap_small by (rewrite ?wrap_small by lia; lia); lia.
Qed.

Lemma no_crossed_book_holds orders :
  Forall input_ok orders -> Z.of_nat (length orders) < 2 ^ 64 -> no_crossed_book orders = Some tt.
Proof.
  intros Hok Hlen. unfold no_crossed_book.
  destruct (for_each_numbered (fun _ => Some tt) ltac:(done) orders engine sp_empty 0 engine_start Hok)
    as (e & sp & j & -> & He); [lia|lia|].
  cbn [mbind option_bind]. unfold bid_of, ask_of, book.
  destruct He as [(q & free & R) _ _ Hu].
  pose proof (rep_best_price R Bid) as Eb. pose proof (rep_best_price R Ask) as Ea.
  unfold best, sp_best in Eb, Ea. rewrite Eb, Ea. cbn [sp_side].
  destruct (sp_bids sp) as [|x bs] eqn:Ebs; [done|]. destruct (sp_asks sp) as [|y ys] eqn:Eas; [done|].
  cbn. apply assert_that_pass, bool_decide_eq_true_2, Hu; [rewrite Ebs | rewrite Eas]; left.
Qed.

Lemma fill_quantities_positive_holds orders :
  Forall input_ok orders -> Z.of_nat (length orders) < 2 ^ 64 -> fill_quantities_positive orders = Some tt.
Proof.
  intros Hok Hlen. unfold fill_quantities_positive.
  match goal with |- context [add_numbered ?c] => set (check := c) end.
  destruct (for_each_numbered check) with (orders := orders) (e := engine) (sp := sp_empty) (i := 0)
    as (e & sp & j & -> & _); [|exact engine_start|done|lia|lia|done].
  intros e sp o sp' fs [res|err] He Ho Hq Hs; [|done].
  apply for_each_unit. eapply Forall_impl.
  - eapply spec_add_fills_positive; [|exact Hs]. pose proof (inv_resting _ _ _ He) as Hr.
    unfold sp_all in Hr. apply Forall_app in Hr as [? ?]. by destruct (o_side o).
  - cbn. intros f Hf. apply assert_that_pass, bool_decide_eq_true_2. lia.
Qed.

(** The crate's property tests of the matching engine pass on every input
    of the types, not only on the samples drawn: quantity is conserved between
    a maker and a taker, crossing orders trade, an own order never does, and any
    sequence of orders leaves an uncrossed book with positive fills only. *)
Theorem property_tests_hold price mq tq orders :
  is_i64 price -> is_u64 mq -> is_u64 tq -> 0 < mq -> 0 < tq ->
  Forall (fun x => is_i64 (snd (fst x)) /\ is_u64 (snd x) /\ 0 < snd x) orders -> Z.of_nat (length orders) < 2 ^ 64 ->
  quantity_conservation price mq tq = Some tt /\ crosses_produce_fills price mq tq = Some tt /\
  no_self_trade_fills price mq tq = Some tt /\ no_crossed_book orders = Some tt /\
  fill_quantities_positive orders = Some tt.
Proof.
  intros Hp Hm Ht Hm0 Ht0 Hok Hlen.
  pose proof (maker_taker_run price mq tq Hp (conj Hm Hm0) (conj Ht Ht0)) as (e1 & e2 & H1 & H2).
  pose proof (own_order_run price mq tq Hp (conj Hm Hm0) (conj Ht Ht0)) as (e3 & e4 & H3 & H4).
  split_and!; [by apply quantity_conservation_holds| | |by apply no_crossed_book_holds|by apply fill_quantities_positive_holds].
  - unfold crosses_produce_fills. rewrite H1. cbn [mbind option_bind]. by rewrite H2.
  - unfold no_self_trade_fills. rewrite H3. cbn [mbind option_bind]. by rewrite H4.
Qed.

Lemma property_tests_hold_witness :
  quantity_conservation 100 7 9 = Some tt /\ crosses_produce_fills 100 7 9 = Some tt /\
  no_self_trade_fills 100 7 9 = Some tt /\ no_crossed_book [(Bid, 5, 3); (Ask, 4, 8)] = Some tt /\
  fill_quantities_positive [(Bid, 5, 3); (Ask, 4, 8)] = Some tt.
Proof. apply (property_tests_hold 100 7 9 [(Bid, 5, 3); (Ask, 4, 8)]); repeat constructor; simpl; lia. Defined.
