(* ===== verification/BookModel.v ===== *)
(** * BookModel.v: the reference model of [tests/book_model.rs]

    The repository tests the engine against a naive order book: one vector of
    resting orders, scanned for the best maker at every step.  Here that book,
    its operations and the differential run are translated, and [BookModelThm]
    proves that the engine agrees with it on every sequence of operations. *)

From S2P Require Import Prelude.
From S2P Require Import Order.
From S2P Require Import Arena.
From S2P Require Import Book.
From S2P Require Import Matching.
From S2P Require Import Testing.

Definition ARENA_CAPACITY : Z := 1024.

(** [Resting]: an order and the number of its arrival. *)
Record RestingOrder : Type := mkResting { ro_order : Order; ro_seq : Z }.

#[global] Instance RestingOrder_eq_dec : EqDecision RestingOrder.
Proof. solve_decision. Defined.

Module ReferenceBook.

Record ReferenceBook : Type := mkReference { rf_resting : list RestingOrder; rf_next_seq : Z }.

Definition default : ReferenceBook := mkReference [] 0.

(** The test of [best_index]: [r] is a better maker than [cur]. *)
Definition is_better (side : Side) (r cur : RestingOrder) : bool :=
  let better_price :=
    match side with
    | Ask => bool_decide (o_price (ro_order r) < o_price (ro_order cur))
    | Bid => bool_decide (o_price (ro_order r) > o_price (ro_order cur))
    end in
  let same_price_earlier :=
    bool_decide (o_price (ro_order r) = o_price (ro_order cur)) && bool_decide (ro_seq r < ro_seq cur) in
  better_price || same_price_earlier.

(** [best_index]: the loop over the entries from the [i]-th on. *)
Fixpoint best_from (side : Side) (all : list RestingOrder) (i : nat) (rest : list RestingOrder) (best : option nat)
  : option (option nat) :=
  match rest with
  | [] => Some best
  | r :: rest =>
      if decide (o_side (ro_order r) ≠ side) then best_from side all (S i) rest best
      else
        match best with
        | None => best_from side all (S i) rest (Some i)
        | Some b =>
            cur ← all !! b;
            best_from side all (S i) rest (Some (if is_better side r cur then i else b))
        end
  end.

Definition best_index (resting : list RestingOrder) (side : Side) : option (option nat) :=
  best_from side resting 0 resting None.

(** The [while] loop of [add]. *)
Fixpoint add_loop (fuel : nat) (maker_side : Side) (resting : list RestingOrder) (taker : Order) (fills : list Fill)
  : option (list RestingOrder * Order * list Fill * bool) :=
  match fuel with
  | O => None
  | S fuel =>
      if decide (o_quantity taker > 0) then
        best ← best_index resting maker_side;
        match best with
        | None => Some (resting, taker, fills, false)
        | Some i =>
            m ← resting !! i;
            let maker := ro_order m in
            let crosses :=
              match o_side taker with
              | Bid => bool_decide (o_price maker <= o_price taker)
              | Ask => bool_decide (o_price maker >= o_price taker)
              end in
            if crosses then
              if decide (o_trader_id maker = o_trader_id taker) then Some (resting, taker, fills, true)
              else
                let qty := Z.min (o_quantity taker) (o_quantity maker) in
                let fill := mkFill (o_id taker) (o_id maker) (o_price maker) qty (bool_decide (o_quantity maker = qty)) in
                let taker := set_quantity (u64_sub (o_quantity taker) qty) taker in
                let left := u64_sub (o_quantity maker) qty in
                let resting := <[i := mkResting (set_quantity left maker) (ro_seq m)]> resting in
                let resting := if decide (left = 0) then delete i resting else resting in
                add_loop fuel maker_side resting taker (fills ++ [fill])
            else Some (resting, taker, fills, false)
        end
      else Some (resting, taker, fills, false)
  end.

Definition add (b : ReferenceBook) (taker : Order) : option (ReferenceBook * (OrderStatus * list Fill)) :=
  let maker_side := match o_side taker with Bid => Ask | Ask => Bid end in
  '(resting, taker, fills, self_trade) ← add_loop (S (S (length (rf_resting b)))) maker_side (rf_resting b) taker [];
  Some (if (self_trade : bool) then (mkReference resting (rf_next_seq b), (CancelledSelfTrade, fills))
        else if decide (o_quantity taker = 0) then (mkReference resting (rf_next_seq b), (FullyFilled, fills))
        else
          let had_fills := negb (bool_decide (fills = [])) in
          (mkReference (resting ++ [mkResting taker (rf_next_seq b)]) (u64_add (rf_next_seq b) 1),
           (if had_fills then PartiallyFilled else Resting, fills))).

(** [cancel]: [iter().position(..)], then [remove]. *)
Definition cancel (b : ReferenceBook) (id : Z) : ReferenceBook * option Order :=
  match list_find (fun r => o_id (ro_order r) = id) (rf_resting b) with
  | None => (b, None)
  | Some (i, r) => (mkReference (delete i (rf_resting b)) (rf_next_seq b), Some (ro_order r))
  end.

(** The orders of a side, [Iterator::max] and [Iterator::min]. *)
Definition on_side (side : Side) (resting : list RestingOrder) : list RestingOrder :=
  filter (fun r => o_side (ro_order r) = side) resting.
Definition iter_fold (f : Z -> Z -> Z) (l : list Z) : option Z :=
  match l with [] => None | x :: l => Some (foldl f x l) end.

Definition best_bid (b : ReferenceBook) : option Z :=
  iter_fold Z.max ((fun r => o_price (ro_order r)) <$> on_side Bid (rf_resting b)).
Definition best_ask (b : ReferenceBook) : option Z :=
  iter_fold Z.min ((fun r => o_price (ro_order r)) <$> on_side Ask (rf_resting b)).

(** The sort keys, [(price, seq)] and [(Reverse(price), seq)]. *)
Definition key_le (side : Side) (x y : RestingOrder) : Prop :=
  match side with
  | Ask => o_price (ro_order x) < o_price (ro_order y)
  | Bid => o_price (ro_order x) > o_price (ro_order y)
  end \/ o_price (ro_order x) = o_price (ro_order y) /\ ro_seq x <= ro_seq y.

#[global] Instance key_le_dec side : RelDecision (key_le side).
Proof. intros x y. unfold key_le. destruct side; apply _. Defined.

Definition canonical (b : ReferenceBook) : list Order :=
  let asks := merge_sort (key_le Ask) (on_side Ask (rf_resting b)) in
  let bids := merge_sort (key_le Bid) (on_side Bid (rf_resting b)) in
  ro_order <$> (asks ++ bids).

End ReferenceBook.

(** ** The differential run *)

(** [Op]; the [Index] of a cancel turns the number of issued ids into one of
    their positions. *)
Inductive Op : Type :=
| OpAdd (side : Side) (price qty trader : Z)
| OpCancel (index : nat -> nat).

Record Diff : Type := mkDiff {
  df_engine : MatchingEngine;
  df_reference : ReferenceBook.ReferenceBook;
  df_issued_ids : list Z;
  df_transcript : list (OrderStatus * list Fill);
  df_step : Z
}.

(** The comparisons after an operation. *)
Definition compare_books (engine : MatchingEngine) (reference : ReferenceBook.ReferenceBook) : option unit :=
  let book := MatchingEngine.book engine in
  assert_eq (OrderBook.best_bid book) (ReferenceBook.best_bid reference);;
  assert_eq (OrderBook.best_ask book) (ReferenceBook.best_ask reference);;
  assert_eq (OrderBook.order_count book) (length (ReferenceBook.rf_resting reference));;
  orders ← OrderBook.all_resting_orders book;
  assert_eq orders (ReferenceBook.canonical reference).

(** One iteration of the loop of [run_differential]; a failed assertion or a
    panic is [None]. *)
Definition diff_step (d : Diff) (op : Op) : option Diff :=
  let step := df_step d in
  match op with
  | OpAdd side price qty trader =>
      let id := u64_add step 1 in
      order ← Order_new id trader side price qty id;
      '(reference, (ref_status, ref_fills)) ← ReferenceBook.add (df_reference d) order;
      '(engine, result) ← call MatchingEngine.add_order (df_engine d) (Some order);
      assert_eq (r_status result) ref_status;;
      assert_eq (r_fills result) ref_fills;;
      compare_books engine reference;;
      Some (mkDiff engine reference (df_issued_ids d ++ [id])
                   (df_transcript d ++ [(r_status result, r_fills result)]) (step + 1))
  | OpCancel idx =>
      if decide (df_issued_ids d = []) then
        Some (mkDiff (df_engine d) (df_reference d) [] (df_transcript d) (step + 1))
      else
        id ← df_issued_ids d !! idx (length (df_issued_ids d));
        let '(reference, ref_result) := ReferenceBook.cancel (df_reference d) id in
        '(engine, eng_result) ← MatchingEngine.cancel_order (df_engine d) id;
        assert_eq (match eng_result with Ok o => Some o | Err _ => None end) ref_result;;
        compare_books engine reference;;
        Some (mkDiff engine reference (df_issued_ids d) (df_transcript d) (step + 1))
  end.

Definition run_differential_at (arena_capacity : Z) (ops : list Op) : option (list (OrderStatus * list Fill)) :=
  d ← for_each diff_step
        (mkDiff (MatchingEngine.with_capacity arena_capacity) ReferenceBook.default [] [] 0) ops;
  Some (df_transcript d).

Definition run_differential : list Op -> option (list (OrderStatus * list Fill)) :=
  run_differential_at ARENA_CAPACITY.

(** ** The hand-checked scenario *)

Definition reference_model_sanity : option unit :=
  let add' r o := o ← o; ReferenceBook.add r o in
  '(r, (s, f)) ← add' ReferenceBook.default (Order_new 1 1 Ask 100 5 1);
  assert_eq (s, length f) (Resting, 0%nat);;
  '(r, (s, f)) ← add' r (Order_new 2 1 Ask 101 10 2);
  assert_eq (s, length f) (Resting, 0%nat);;
  '(r, (s, f)) ← add' r (Order_new 3 2 Bid 101 12 3);
  assert_eq s FullyFilled;;
  assert_eq (length f) 2%nat;;
  assert_at f 0 (fun f => (f_maker_order_id f, f_price f, f_quantity f, f_maker_fully_filled f)) (1, 100, 5, true);;
  assert_at f 1 (fun f => (f_maker_order_id f, f_price f, f_quantity f, f_maker_fully_filled f)) (2, 101, 7, false);;
  assert_eq (ReferenceBook.best_ask r) (Some 101);;
  assert_at (ReferenceBook.canonical r) 0 o_quantity 3;;
  '(r, (s, f)) ← add' r (Order_new 4 1 Bid 105 1 4);
  assert_eq (s, length f) (CancelledSelfTrade, 0%nat);;
  assert_eq (length (ReferenceBook.rf_resting r)) 1%nat.

Example reference_model_sanity_passes : reference_model_sanity = Some tt.
Proof. reflexivity. Qed.
