(* ===== verification/BookModelThm.v ===== *)
(** * BookModelThm.v: the engine agrees with the reference model

    [ranked s rs L]: the entries of the flat vector [rs] that are on side [s],
    best maker first.  A reference book represents an abstract book when its
    ranked entries carry the orders of each side; every operation of the
    reference model is then the abstract one, which the engine refines. *)

From S2P Require Import Prelude.
From S2P Require Import Order.
From S2P Require Import Arena.
From S2P Require Import ArenaInv.
From S2P Require Import Book.
From S2P Require Import BookSpec.
From S2P Require Import BookInv.
From S2P Require Import Matching.
From S2P Require Import MatchingSpec.
From S2P Require Import MatchingInv.
From S2P Require Import Matcher.
From S2P Require Import Testing.
From S2P Require Import BookModel.

Import ReferenceBook.

(** ** Ranking *)

Definition before (s : Side) (x y : RestingOrder) : Prop :=
  better s (o_price (ro_order x)) (o_price (ro_order y)) \/
  o_price (ro_order x) = o_price (ro_order y) /\ ro_seq x < ro_seq y.

Definition ranked (s : Side) (rs L : list RestingOrder) : Prop :=
  L ≡ₚ on_side s rs /\ StronglySorted (before s) L.

Lemma before_trans s : Transitive (before s).
Proof. intros x y z. unfold before. destruct s; simpl; lia. Qed.

Lemma before_irrefl s x : ~ before s x x.
Proof. unfold before. destruct s; simpl; lia. Qed.

Lemma is_better_before s x y : is_better s x y = true <-> before s x y.
Proof.
  unfold is_better, before. rewrite orb_true_iff, andb_true_iff.
  destruct s; simpl; rewrite !bool_decide_eq_true; lia.
Qed.

Lemma elem_of_on_side s r rs : r ∈ on_side s rs <-> o_side (ro_order r) = s /\ r ∈ rs.
Proof. unfold on_side. by rewrite list_elem_of_filter. Qed.

Lemma ranked_elem s rs L r : ranked s rs L -> r ∈ L <-> o_side (ro_order r) = s /\ r ∈ rs.
Proof. intros [H _]. rewrite H. apply elem_of_on_side. Qed.

Lemma ranked_Permutation s rs rs' L : rs ≡ₚ rs' -> ranked s rs L -> ranked s rs' L.
Proof. intros E [H Hs]. split; [|done]. rewrite H. unfold on_side. by rewrite E. Qed.

Lemma on_side_cons s r rs :
  on_side s (r :: rs) = if decide (o_side (ro_order r) = s) then r :: on_side s rs else on_side s rs.
Proof. unfold on_side. by rewrite filter_cons. Qed.

Lemma ranked_cons_other s r rs L : o_side (ro_order r) ≠ s -> ranked s (r :: rs) L <-> ranked s rs L.
Proof. intros H. unfold ranked. by rewrite on_side_cons, decide_False. Qed.

Lemma ranked_cons_tail s r rs L : o_side (ro_order r) = s -> ranked s (r :: rs) (r :: L) -> ranked s rs L.
Proof.
  intros H [Hp Hs]. rewrite on_side_cons, decide_True in Hp by done. apply (inj (r ::.)) in Hp.
  apply StronglySorted_inv in Hs as [Hs _]. by split.
Qed.

(** ** The best maker *)

(** What [best_from] knows after the first [i] entries. *)
Definition best_so_far (s : Side) (all : list RestingOrder) (i : nat) (best : option nat) : Prop :=
  match best with
  | None => forall r, r ∈ take i all -> o_side (ro_order r) ≠ s
  | Some b => exists x, all !! b = Some x /\ o_side (ro_order x) = s /\
                forall r, r ∈ take i all -> o_side (ro_order r) = s -> ~ before s r x
  end.

Lemma best_from_spec s all rest i best :
  drop i all = rest -> best_so_far s all i best ->
  exists best', best_from s all i rest best = Some best' /\ best_so_far s all (length all) best'.
Proof.
  revert i best. induction rest as [|r rest IH]; intros i best Hd Hb.
  - exists best. split; [done|]. assert (length all <= i)%nat as Hi by (apply (f_equal length) in Hd;
      rewrite length_drop in Hd; simpl in Hd; lia).
    unfold best_so_far in *. by rewrite (take_ge _ i) in Hb by lia; rewrite (take_ge _ (length all)) by lia.
  - assert (all !! i = Some r) as Hr.
    { replace i with (i + 0)%nat by lia. rewrite <- lookup_drop, Hd. done. }
    assert (drop (S i) all = rest) as Hd'.
    { replace (S i) with (i + 1)%nat by lia. by rewrite <- drop_drop, Hd. }
    pose proof (take_S_r _ _ _ Hr) as Ht. cbn [best_from].
    destruct (decide (o_side (ro_order r) ≠ s)) as [Hs|Hs].
    + apply IH; [done|]. unfold best_so_far in *. rewrite Ht.
      destruct best as [b|].
      * destruct Hb as (x & Hx & Hxs & Hmin). exists x. split; [done|]. split; [done|].
        intros y [Hy|Hy%list_elem_of_singleton]%elem_of_app; [by apply Hmin|]. by subst y.
      * intros y [Hy|Hy%list_elem_of_singleton]%elem_of_app; [by apply Hb|]. by subst y.
    + apply dec_stable in Hs. destruct best as [b|].
      * destruct Hb as (x & Hx & Hxs & Hmin). rewrite Hx. cbn [mbind option_bind]. apply IH; [done|].
        destruct (is_better s r x) eqn:Eb; unfold best_so_far; rewrite Ht.
        -- apply is_better_before in Eb. exists r. split; [done|]. split; [done|].
           intros y [Hy|Hy%list_elem_of_singleton]%elem_of_app Hys.
           ++ intros Hyr. apply (Hmin y Hy Hys). by eapply before_trans.
           ++ subst y. apply before_irrefl.
        -- exists x. split; [done|]. split; [done|].
           intros y [Hy|Hy%list_elem_of_singleton]%elem_of_app Hys; [by apply Hmin|].
           subst y. intros Hc%is_better_before. congruence.
      * apply IH; [done|]. unfold best_so_far. rewrite Ht. exists r. split; [done|]. split; [done|].
        intros y [Hy|Hy%list_elem_of_singleton]%elem_of_app Hys; [by apply Hb in Hys|].
        subst y. apply before_irrefl.
Qed.

Lemma best_index_spec s rs L :
  ranked s rs L ->
  match L with
  | [] => best_index rs s = Some None
  | m :: _ => exists i, best_index rs s = Some (Some i) /\ rs !! i = Some m
  end.
Proof.
  intros HL. destruct (best_from_spec s rs rs 0 None) as (best & Hb & Hok); [done|by intros r ?%elem_of_nil|].
  unfold best_index. rewrite Hb. unfold best_so_far in Hok. rewrite (take_ge rs) in Hok by lia.
  destruct L as [|m L].
  - destruct best as [b|]; [|done]. destruct Hok as (x & Hx & Hxs & _).
    apply list_elem_of_lookup_2 in Hx. by apply (conj Hxs), (ranked_elem _ _ _ _ HL), elem_of_nil in Hx.
  - assert (m ∈ m :: L) as Hm by left. apply (ranked_elem _ _ _ _ HL) in Hm as [Hms Hm].
    destruct best as [b|]; [|by apply Hok in Hm].
    destruct Hok as (x & Hx & Hxs & Hmin). exists b. split; [done|]. rewrite Hx. f_equal.
    pose proof (list_elem_of_lookup_2 _ _ _ Hx) as Hin. apply (conj Hxs), (ranked_elem _ _ _ _ HL) in Hin.
    apply elem_of_cons in Hin as [->|Hin]; [done|]. destruct HL as [_ [_ Hs]%StronglySorted_inv].
    rewrite Forall_forall in Hs. by destruct (Hmin m Hm Hms (Hs _ Hin)).
Qed.

(** ** Filling a maker *)

Definition all_ranked (rs : list RestingOrder) (Ls : Side -> list RestingOrder) : Prop := forall s, ranked s rs (Ls s).
Definition with_side (s : Side) (L : list RestingOrder) (Ls : Side -> list RestingOrder) : Side -> list RestingOrder :=
  fun s' => if decide (s' = s) then L else Ls s'.

Lemma with_side_eq s L Ls : with_side s L Ls s = L.
Proof. unfold with_side. by rewrite decide_True. Qed.

Lemma replace_Permutation (rs : list RestingOrder) i x y : rs !! i = Some x -> <[i := y]> rs ≡ₚ y :: delete i rs.
Proof.
  intros Hi. pose proof (lookup_lt_Some _ _ _ Hi). rewrite insert_take_drop by done.
  rewrite delete_take_drop. by rewrite Permutation_middle.
Qed.

Lemma delete_replace_Permutation (rs : list RestingOrder) i x y :
  rs !! i = Some x -> delete i (<[i := y]> rs) ≡ₚ delete i rs.
Proof.
  intros Hi. apply (inj (y ::.)). rewrite <- (replace_Permutation rs i x y Hi). symmetry.
  apply delete_Permutation, list_lookup_insert_eq. by eapply lookup_lt_Some.
Qed.

Lemma all_ranked_Permutation rs rs' Ls : rs ≡ₚ rs' -> all_ranked rs Ls -> all_ranked rs' Ls.
Proof. intros E H s. by eapply ranked_Permutation. Qed.

Lemma rank_remove rs Ls s m L i :
  all_ranked rs Ls -> Ls s = m :: L -> rs !! i = Some m -> all_ranked (delete i rs) (with_side s L Ls).
Proof.
  intros H Hm Hi s'. pose proof (delete_Permutation _ _ _ Hi) as Hp.
  assert (o_side (ro_order m) = s) as Hs by (eapply (ranked_elem _ _ _ _ (H s)); rewrite Hm; left).
  pose proof (ranked_Permutation _ _ _ _ Hp (H s')) as H'. unfold with_side.
  destruct (decide (s' = s)) as [->|Hne].
  - rewrite Hm in H'. by eapply ranked_cons_tail.
  - apply ranked_cons_other in H'; [done|congruence].
Qed.

Lemma rank_replace rs Ls s m m' L i :
  all_ranked rs Ls -> Ls s = m :: L -> rs !! i = Some m ->
  o_side (ro_order m') = s -> o_price (ro_order m') = o_price (ro_order m) -> ro_seq m' = ro_seq m ->
  all_ranked (<[i := m']> rs) (with_side s (m' :: L) Ls).
Proof.
  intros H Hm Hi Hs Hp Hq s'. pose proof (rank_remove _ _ _ _ _ _ H Hm Hi s') as H'.
  eapply ranked_Permutation; [symmetry; by apply (replace_Permutation rs i m m')|]. unfold with_side in *.
  destruct (decide (s' = s)) as [->|Hne].
  - destruct H' as [Hperm Hsort]. split; [by rewrite on_side_cons, decide_True, Hperm by done|].
    constructor; [done|]. destruct (H s) as [_ Hall]. rewrite Hm in Hall.
    apply StronglySorted_inv in Hall as [_ Hall]. eapply Forall_impl; [exact Hall|].
    intros y. unfold before. by rewrite Hp, Hq.
  - apply ranked_cons_other; [congruence|done].
Qed.

Lemma ro_orders_Forall (P : Order -> Prop) rs Ls s :
  all_ranked rs Ls -> Forall P (ro_order <$> rs) -> Forall P (ro_order <$> Ls s).
Proof.
  intros H. rewrite !Forall_forall. intros HP o (r & -> & Hr)%list_elem_of_fmap. apply HP.
  apply list_elem_of_fmap. exists r. split; [done|]. by apply (ranked_elem _ _ _ _ (H s)) in Hr as [_ ?].
Qed.

(** ** The loop of [add] *)

Lemma taker_left taker m :
  is_u64 (o_quantity taker) -> is_u64 m -> 0 <= m ->
  u64_sub (o_quantity taker) (Z.min (o_quantity taker) m) = o_quantity taker - Z.min (o_quantity taker) m.
Proof. unfold_ranges. intros. unfold u64_sub. apply wrap_small. lia. Qed.

Lemma set_quantity_twice a b o : set_quantity a (set_quantity b o) = set_quantity a o.
Proof. done. Qed.

(** One round at the best maker [m]. *)
Lemma add_loop_step fuel s rs L m taker fills Ls :
  all_ranked rs Ls -> Ls s = m :: L -> 0 < o_quantity taker -> is_u64 (o_quantity taker) ->
  is_u64 (o_quantity (ro_order m)) ->
  crosses (o_side taker) (o_price taker) (o_price (ro_order m)) -> o_trader_id (ro_order m) ≠ o_trader_id taker ->
  let f := Z.min (o_quantity taker) (o_quantity (ro_order m)) in
  let left := o_quantity (ro_order m) - f in
  exists rs', all_ranked rs' (with_side s (if decide (left = 0) then L
                 else mkResting (set_quantity left (ro_order m)) (ro_seq m) :: L) Ls) /\
    (forall r, r ∈ rs' -> exists r', r' ∈ rs /\ ro_seq r' = ro_seq r) /\ (length rs' <= length rs)%nat /\
    add_loop (S fuel) s rs taker fills =
    add_loop fuel s rs' (set_quantity (o_quantity taker - f) taker)
      (fills ++ [mkFill (o_id taker) (o_id (ro_order m)) (o_price (ro_order m)) f (bool_decide (left = 0))]).
Proof.
  intros HR Hm Hq Ht Hmq Hc Hid f left. pose proof (best_index_spec s rs (Ls s) (HR s)) as Hb.
  rewrite Hm in Hb. destruct Hb as (i & Hb & Hi).
  assert (o_side (ro_order m) = s) as Hs by (eapply (ranked_elem _ _ _ _ (HR s)); rewrite Hm; left).
  set (m' := mkResting (set_quantity left (ro_order m)) (ro_seq m)).
  assert (all_ranked (<[i := m']> rs) (with_side s (m' :: L) Ls)) as HR'
    by (by apply (rank_replace rs Ls s m m' L i)).
  exists (if decide (left = 0) then delete i (<[i := m']> rs) else <[i := m']> rs). split_and!.
  - destruct (decide (left = 0)); [|exact HR']. eapply all_ranked_Permutation.
    + symmetry. by apply (delete_replace_Permutation rs i m m').
    + by apply (rank_remove rs Ls s m L i).
  - assert (forall r, r ∈ <[i := m']> rs -> exists r', r' ∈ rs /\ ro_seq r' = ro_seq r) as Hin.
    { intros r Hr. rewrite (replace_Permutation rs i m m' Hi) in Hr. apply elem_of_cons in Hr as [->|Hr].
      - exists m. split; [by eapply list_elem_of_lookup_2|done].
      - exists r. split; [|done]. rewrite (delete_Permutation _ _ _ Hi). by right. }
    intros r Hr. apply Hin. destruct (decide (left = 0)); [|done].
    rewrite (delete_Permutation (<[i := m']> rs) i m'); [by right|].
    apply list_lookup_insert_eq. by eapply lookup_lt_Some.
  - destruct (decide (left = 0)); [rewrite length_delete|]; rewrite ?length_insert; [lia| |lia].
    apply lookup_lt_is_Some. rewrite length_insert. by eapply lookup_lt_Some.
  - cbn [add_loop]. rewrite decide_True by lia. rewrite Hb. cbn [mbind option_bind]. rewrite Hi. cbn [mbind option_bind].
    assert ((match o_side taker with
             | Bid => bool_decide (o_price (ro_order m) <= o_price taker)
             | Ask => bool_decide (o_price (ro_order m) >= o_price taker) end) = true) as ->.
    { destruct (o_side taker); by apply bool_decide_eq_true_2. }
    rewrite decide_False by done.
    rewrite taker_left by (unfold_ranges; lia).
    assert (u64_sub (o_quantity (ro_order m)) f = left) as E
      by (unfold u64_sub, left, f; apply wrap_small; unfold_ranges; lia).
    fold f. rewrite E. fold m'. f_equal. f_equal. f_equal. f_equal. apply bool_decide_ext. lia.
Qed.

Lemma with_side_id s Ls rs : all_ranked rs Ls -> all_ranked rs (with_side s (Ls s) Ls).
Proof. intros H s'. unfold with_side. destruct (decide (s' = s)) as [->|]; apply H. Qed.

Lemma with_side_twice s L L' Ls rs :
  all_ranked rs (with_side s L (with_side s L' Ls)) -> all_ranked rs (with_side s L Ls).
Proof. intros H s'. specialize (H s'). unfold with_side in *. by destruct (decide (s' = s)). Qed.

(** The loop at an end: the taker is filled, or the best maker does not match. *)
Lemma add_loop_stop fuel s rs L taker fills Ls st :
  all_ranked rs Ls -> Ls s = L ->
  (o_quantity taker <= 0 /\ st = false \/
   match L with
   | [] => st = false
   | m :: _ => if decide (crosses (o_side taker) (o_price taker) (o_price (ro_order m)))
               then o_trader_id (ro_order m) = o_trader_id taker /\ st = bool_decide (o_quantity taker > 0)
               else st = false
   end) ->
  add_loop (S fuel) s rs taker fills = Some (rs, taker, fills, st).
Proof.
  intros HR HL Hstop. cbn [add_loop]. destruct (decide (o_quantity taker > 0)) as [Hq|Hq]; cycle 1.
  { destruct Hstop as [[_ ->]|Hstop]; [done|]. do 2 f_equal. destruct L as [|m L]; [done|].
    case_decide; [|done]. destruct Hstop as [_ ->]. symmetry. by apply bool_decide_eq_false_2. }
  destruct Hstop as [[? _]|Hstop]; [lia|]. pose proof (best_index_spec s rs (Ls s) (HR s)) as Hb.
  rewrite HL in Hb. destruct L as [|m L]; [rewrite Hb; cbn; by subst st|].
  destruct Hb as (i & Hb & Hi). rewrite Hb. cbn [mbind option_bind]. rewrite Hi. cbn [mbind option_bind].
  destruct (decide (crosses (o_side taker) (o_price taker) (o_price (ro_order m)))) as [Hc|Hc].
  - destruct Hstop as [Hid ->]. rewrite (bool_decide_true (o_quantity taker > 0)) by done.
    destruct (o_side taker); simpl in Hc; rewrite bool_decide_true by done; by rewrite decide_True.
  - subst st. destruct (o_side taker); simpl in Hc; by rewrite bool_decide_false.
Qed.

Lemma add_loop_spec L fuel s rs taker fills Ls :
  all_ranked rs Ls -> Ls s = L -> is_u64 (o_quantity taker) -> Forall resting_ok (ro_order <$> L) ->
  (length L + 2 <= fuel)%nat ->
  let '(fs, L', q, st) := spec_match taker (o_quantity taker) (ro_order <$> L) in
  exists rs' Lr, add_loop fuel s rs taker fills = Some (rs', set_quantity q taker, fills ++ fs, st) /\
    all_ranked rs' (with_side s Lr Ls) /\ ro_order <$> Lr = L' /\
    (forall r, r ∈ rs' -> exists r', r' ∈ rs /\ ro_seq r' = ro_seq r) /\ (length rs' <= length rs)%nat.
Proof.
  revert fuel rs taker fills Ls. induction L as [|m L IH]; intros fuel rs taker fills Ls HR HL Hq Hok Hf;
    destruct fuel as [|fuel]; try (simpl in Hf; lia).
  { cbn [spec_match fmap list_fmap]. exists rs, []. rewrite set_quantity_id, app_nil_r. split_and!; try done; eauto.
    - eapply add_loop_stop; [done|exact HL|by right].
    - rewrite <- HL. by apply with_side_id. }
  apply Forall_cons in Hok as [Hm Hok]. fold (fmap ro_order L) in *. rewrite fmap_cons. cbn [spec_match].
  assert (forall st, add_loop (S fuel) s rs taker fills = Some (rs, taker, fills, st) ->
    exists rs' Lr, add_loop (S fuel) s rs taker fills = Some (rs', set_quantity (o_quantity taker) taker, fills ++ [], st) /\
      all_ranked rs' (with_side s Lr Ls) /\ ro_order <$> Lr = ro_order m :: (ro_order <$> L) /\
      (forall r, r ∈ rs' -> exists r', r' ∈ rs /\ ro_seq r' = ro_seq r) /\ (length rs' <= length rs)%nat) as Hend.
  { intros st E. exists rs, (m :: L). rewrite set_quantity_id, app_nil_r, E. split_and!; try done; eauto.
    rewrite <- HL. by apply with_side_id. }
  destruct (decide (o_quantity taker > 0)) as [Hpos|Hpos].
  2:{ apply Hend. eapply add_loop_stop; [done|exact HL|]. left. split; [lia|done]. }
  destruct (decide (crosses (o_side taker) (o_price taker) (o_price (ro_order m)))) as [Hc|Hc].
  2:{ apply Hend. eapply add_loop_stop; [done|exact HL|]. right. by rewrite decide_False. }
  destruct (decide (o_trader_id (ro_order m) = o_trader_id taker)) as [Hid|Hid].
  { apply Hend. eapply add_loop_stop; [done|exact HL|]. right. rewrite decide_True by done.
    split; [done|]. symmetry. by apply bool_decide_eq_true_2. }
  destruct Hm as [Hmt Hm0]. pose proof Hmt as (_ & _ & _ & Hmq & _).
  destruct (add_loop_step fuel s rs L m taker fills Ls HR HL ltac:(lia) Hq Hmq Hc Hid) as (rs1 & HR1 & Hseq & Hlen & E).
  set (f := Z.min (o_quantity taker) (o_quantity (ro_order m))) in *. rewrite E. clear E Hend.
  set (fill := mkFill _ _ _ _ _). set (taker1 := set_quantity (o_quantity taker - f) taker).
  destruct (decide (o_quantity (ro_order m) - f = 0)) as [Hz|Hz].
  - specialize (IH fuel rs1 taker1 (fills ++ [fill]) _ HR1 (with_side_eq s L Ls)).
    rewrite <- (spec_match_taker taker (o_quantity taker - f) (ro_order <$> L) (o_quantity taker - f)).
    change (set_quantity (o_quantity taker - f) taker) with taker1.
    change (o_quantity taker - f) with (o_quantity taker1) at 1.
    destruct (spec_match taker1 (o_quantity taker1) (ro_order <$> L)) as [[[fs L'] q] st].
    destruct IH as (rs' & Lr & E & HR' & HL' & Hseq' & Hlen').
    { unfold taker1. simpl. unfold_ranges. lia. } { done. } { simpl in Hf. lia. }
    exists rs', Lr. rewrite E, <- app_assoc. split; [done|]. split; [by eapply with_side_twice|].
    split; [done|]. split; [|lia]. intros r (r1 & Hr1 & <-)%Hseq'. by apply Hseq.
  - destruct fuel as [|fuel]; [simpl in Hf; lia|].
    set (m1 := mkResting (set_quantity (o_quantity (ro_order m) - f) (ro_order m)) (ro_seq m)) in *.
    exists rs1, (m1 :: L). split_and!; try done; [].
    eapply add_loop_stop; [exact HR1|apply with_side_eq|]. left. unfold taker1. simpl. split; [lia|done].
Qed.

(** ** The reference book represents an abstract one *)

Record ref_rep (b : ReferenceBook) (sp : SpecBook) : Prop := {
  rr_sides : exists Ls, all_ranked (rf_resting b) Ls /\ forall s, ro_order <$> Ls s = sp_side sp s;
  rr_seqs : forall r, r ∈ rf_resting b -> ro_seq r < rf_next_seq b
}.

Lemma ref_rep_empty : ref_rep ReferenceBook.default sp_empty.
Proof.
  split; [|by intros r ?%elem_of_nil]. exists (fun _ => []). split; [|by intros []].
  intros s. split; [done|constructor].
Qed.

(** A new entry goes behind all entries of the same or a better price. *)
Lemma rank_push s r L :
  StronglySorted (before s) L -> (forall x, x ∈ L -> ro_seq x < ro_seq r) ->
  exists L', L' ≡ₚ r :: L /\ StronglySorted (before s) L' /\
    ro_order <$> L' = insert_prio s (ro_order r) (ro_order <$> L).
Proof.
  induction L as [|x L IH]; intros Hs Hq; [exists [r]; split_and!; [done|repeat constructor|done]|].
  pose proof Hs as [Hs' Hx]%StronglySorted_inv. rewrite fmap_cons. cbn [insert_prio].
  destruct (decide (better s (o_price (ro_order r)) (o_price (ro_order x)))) as [Hb|Hb].
  - exists (r :: x :: L). split_and!; [done| |done]. constructor; [done|]. constructor; [by left|].
    eapply Forall_impl; [exact Hx|]. intros y Hy. eapply before_trans; [|exact Hy]. by left.
  - destruct IH as (L' & Hp & HL' & E); [done|intros; apply Hq; by right|].
    exists (x :: L'). split_and!.
    + rewrite Hp. apply Permutation_swap.
    + constructor; [done|]. rewrite Hp. constructor; [|done].
      pose proof (Hq x ltac:(left)). unfold before. destruct s; simpl in *; lia.
    + by rewrite fmap_cons, E.
Qed.

Lemma all_ranked_push rs Ls r :
  all_ranked rs Ls -> (forall x, x ∈ rs -> ro_seq x < ro_seq r) ->
  exists Ls', all_ranked (rs ++ [r]) Ls' /\
    forall s, ro_order <$> Ls' s = if decide (s = o_side (ro_order r))
                                   then insert_prio s (ro_order r) (ro_order <$> Ls s) else ro_order <$> Ls s.
Proof.
  intros H Hq. destruct (rank_push (o_side (ro_order r)) r (Ls (o_side (ro_order r)))) as (L' & Hp & Hs & E).
  { apply H. } { intros x Hx. apply Hq. by apply (ranked_elem _ _ _ _ (H _)) in Hx as [_ ?]. }
  exists (with_side (o_side (ro_order r)) L' Ls). split.
  - intros s. eapply ranked_Permutation; [apply Permutation_cons_append|]. unfold with_side.
    destruct (decide (s = o_side (ro_order r))) as [->|Hne].
    + split; [|done]. rewrite on_side_cons, decide_True, Hp by done. by rewrite (proj1 (H _)).
    + apply ranked_cons_other; [congruence|apply H].
  - intros s. unfold with_side. by destruct (decide (s = o_side (ro_order r))) as [->|].
Qed.

(** [add] is the abstract one. *)
Lemma ref_add_spec cap b sp o sp' fs res :
  ref_rep b sp -> Forall resting_ok (sp_all sp) -> order_typed o -> 0 <= rf_next_seq b < 2 ^ 64 - 1 ->
  spec_add cap sp o = (sp', fs, Ok res) ->
  exists b', add b o = Some (b', (r_status res, r_fills res)) /\ ref_rep b' sp' /\
    rf_next_seq b <= rf_next_seq b' <= rf_next_seq b + 1.
Proof.
  intros [(Ls & HR & HLs) Hq] Hok Ho Hnext. unfold spec_add. destruct (decide (o_quantity o = 0)) as [|Hz]; [done|].
  unfold add. set (s := opposite (o_side o)).
  assert ((match o_side o with Bid => Ask | Ask => Bid end) = s) as -> by (by destruct o).
  pose proof (add_loop_spec (Ls s) (S (S (length (rf_resting b)))) s (rf_resting b) o [] Ls HR eq_refl) as Hl.
  rewrite HLs in Hl. destruct (spec_match o (o_quantity o) (sp_side sp s)) as [[[fs0 L'] q] st] eqn:Em.
  destruct Hl as (rs' & Lr & E & HR' & HL' & Hseq & Hlen).
  { unfold order_typed in Ho. tauto. } { by apply sp_side_Forall. }
  { pose proof (Permutation_length (proj1 (HR s))) as Hp. unfold on_side in Hp.
    pose proof (length_filter (fun r => o_side (ro_order r) = s) (rf_resting b)). lia. }
  rewrite E. cbn [mbind option_bind].
  assert (forall r, r ∈ rs' -> ro_seq r < rf_next_seq b) as Hq' by (intros r (r' & Hr & <-)%Hseq; by apply Hq).
  assert (forall s', ro_order <$> with_side s Lr Ls s' = sp_side (sp_set s L' sp) s') as HLs'.
  { intros s'. rewrite sp_side_set. unfold with_side. by destruct (decide (s' = s)). }
  destruct st; intros Hr.
  { simplify_eq. eexists. split; [done|]. split; [|simpl; lia]. split; [by eexists|done]. }
  cbn [o_quantity set_quantity]. destruct (decide (q = 0)) as [Hq0|Hq0].
  { simplify_eq. eexists. split; [done|]. split; [|simpl; lia]. split; [by eexists|done]. }
  destruct (all_ranked_push rs' _ (mkResting (set_quantity q o) (rf_next_seq b)) HR' Hq') as (Ls2 & HR2 & HLs2).
  destruct (spec_insert cap (sp_set s L' sp) (set_quantity q o)) as [sp2 [[]|]] eqn:Ei; [|done]. simplify_eq.
  assert (u64_add (rf_next_seq b) 1 = rf_next_seq b + 1) as En by (unfold u64_add; apply wrap_small; lia).
  exists (mkReference (rs' ++ [mkResting (set_quantity q o) (rf_next_seq b)]) (rf_next_seq b + 1)).
  split; [|split; [|simpl; lia]].
  - cbn [r_status r_fills]. rewrite En. destruct (decide (fs = [])) as [->|Hf]; [done|].
    rewrite app_nil_l. by rewrite bool_decide_false.
  - split; cbn [rf_resting rf_next_seq].
    + exists Ls2. split; [done|]. unfold spec_insert in Ei. repeat case_decide; simplify_eq. intros s'.
      rewrite HLs2, !HLs', (sp_side_set (o_side _)). cbn [ro_order].
      by destruct (decide (s' = o_side (set_quantity q o))) as [->|].
    + intros r [Hr|Hr%list_elem_of_singleton]%elem_of_app; [specialize (Hq' r Hr); lia|]. subst r. simpl. lia.
Qed.

(** ** Cancelling *)

Lemma all_ranked_whole rs Ls : all_ranked rs Ls -> Ls Ask ++ Ls Bid ≡ₚ rs.
Proof.
  intros H. rewrite (proj1 (H Ask)), (proj1 (H Bid)). clear H. induction rs as [|r rs IH]; [done|].
  rewrite !on_side_cons. destruct (o_side (ro_order r)) eqn:E; repeat (destruct (decide _); try done); simpl.
  - by rewrite <- Permutation_middle, IH.
  - by rewrite IH.
Qed.

Lemma ref_rep_orders b sp : ref_rep b sp -> ro_order <$> rf_resting b ≡ₚ sp_all sp.
Proof.
  intros [(Ls & HR & HLs) _]. rewrite <- (all_ranked_whole _ _ HR), fmap_app, !HLs. done.
Qed.

Lemma StronglySorted_before_filter s (P : RestingOrder -> Prop) `{!forall x, Decision (P x)} L :
  StronglySorted (before s) L -> StronglySorted (before s) (filter P L).
Proof.
  induction L as [|x L IH]; [done|]. intros [Hs Hx]%StronglySorted_inv. rewrite filter_cons.
  case_decide; [|auto]. constructor; [auto|]. rewrite Forall_forall in *.
  intros y [_ Hy]%list_elem_of_filter. auto.
Qed.

Lemma ranked_filter s (P : RestingOrder -> Prop) `{!forall x, Decision (P x)} rs L :
  ranked s rs L -> ranked s (filter P rs) (filter P L).
Proof.
  intros [Hp Hs]. split; [|by apply StronglySorted_before_filter]. rewrite Hp. unfold on_side.
  rewrite !list_filter_filter. erewrite list_filter_iff; [done|]. intros x. simpl. tauto.
Qed.

Lemma fmap_without_id id L :
  ro_order <$> filter (fun r => o_id (ro_order r) ≠ id) L = without_id id (ro_order <$> L).
Proof.
  unfold without_id. induction L as [|r L IH]; [done|]. rewrite fmap_cons, !filter_cons.
  destruct (decide (o_id (ro_order r) ≠ id)); [by rewrite fmap_cons, IH|done].
Qed.

(** Under distinct ids, removing the entry with an id is filtering it out. *)
Lemma delete_filter (rs : list RestingOrder) i r :
  NoDup ((fun r => o_id (ro_order r)) <$> rs) -> rs !! i = Some r ->
  delete i rs ≡ₚ filter (fun x => o_id (ro_order x) ≠ o_id (ro_order r)) rs.
Proof.
  intros Hnd Hi. rewrite (delete_Permutation _ _ _ Hi) in Hnd |- * at 2.
  rewrite fmap_cons, NoDup_cons in Hnd. destruct Hnd as [Hn _].
  rewrite filter_cons, decide_False by tauto. rewrite list_filter_all; [done|].
  intros x Hx E. apply Hn. rewrite <- E. by apply (list_elem_of_fmap_2 (fun r => o_id (ro_order r))).
Qed.

Lemma ref_cancel_spec b sp id :
  ref_rep b sp -> NoDup (sp_ids sp) ->
  ref_rep (fst (cancel b id)) (fst (spec_cancel sp id)) /\
  snd (cancel b id) = (match snd (spec_cancel sp id) with Ok o => Some o | Err _ => None end) /\
  rf_next_seq (fst (cancel b id)) = rf_next_seq b.
Proof.
  intros R Hnd. pose proof (ref_rep_orders _ _ R) as Ho. destruct R as [(Ls & HR & HLs) Hq]. unfold cancel.
  destruct (list_find (fun r => o_id (ro_order r) = id) (rf_resting b)) as [[i r]|] eqn:E.
  - apply list_find_Some in E as (Hi & Hid & _).
    assert (ro_order r ∈ sp_all sp) as Hin
      by (rewrite <- Ho; apply list_elem_of_fmap_2; by eapply list_elem_of_lookup_2).
    assert (head (filter (fun o => o_id o = id) (sp_all sp)) = Some (ro_order r)) as Hh.
    { assert (ro_order r ∈ filter (fun o => o_id o = id) (sp_all sp)) as Hf by (by apply list_elem_of_filter).
      destruct (filter _ (sp_all sp)) as [|x l] eqn:Ex; [by apply elem_of_nil in Hf|]. simpl. f_equal.
      assert (x ∈ filter (fun o => o_id o = id) (sp_all sp)) as [Hx Hxin]%list_elem_of_filter
        by (rewrite Ex; left).
      eapply same_id_eq; [exact Hnd|done|done|congruence]. }
    unfold spec_cancel. rewrite Hh. cbn [fst snd rf_next_seq]. split_and!; [|done|done].
    assert (delete i (rf_resting b) ≡ₚ filter (fun x => o_id (ro_order x) ≠ id) (rf_resting b)) as Hd.
    { subst id. apply delete_filter; [|done]. change (NoDup ((fun r => o_id (ro_order r)) <$> rf_resting b)).
      rewrite (list_fmap_compose ro_order o_id). by rewrite Ho. }
    split; cbn [rf_resting].
    + exists (fun s => filter (fun x => o_id (ro_order x) ≠ id) (Ls s)). split.
      * intros s. eapply ranked_Permutation; [symmetry; exact Hd|]. apply ranked_filter, HR.
      * intros s. rewrite fmap_without_id, HLs. by destruct s.
    + cbn [rf_next_seq]. intros x Hx. rewrite Hd in Hx. apply list_elem_of_filter in Hx as [_ Hx]. by apply Hq.
  - apply list_find_None in E. unfold spec_cancel.
    destruct (filter (fun o => o_id o = id) (sp_all sp)) as [|x l] eqn:Ex; simpl.
    + split_and!; [|done|done]. split; [by eexists|done].
    + assert (x ∈ filter (fun o => o_id o = id) (sp_all sp)) as [Hx Hxin]%list_elem_of_filter by (rewrite Ex; left).
      rewrite <- Ho in Hxin. apply list_elem_of_fmap in Hxin as (r & -> & Hr).
      rewrite Forall_forall in E. by apply E in Hr.
Qed.

(** ** Best prices and the canonical order *)

(** A fold that keeps the greater of two values by [le] finds the greatest. *)
Lemma iter_fold_greatest (f : Z -> Z -> Z) (le : Z -> Z -> Prop) l m :
  (forall x y, le x m -> le y m -> le (f x y) m /\ (x = m \/ y = m -> f x y = m)) ->
  m ∈ l -> (forall x, x ∈ l -> le x m) -> iter_fold f l = Some m.
Proof.
  intros Hf. destruct l as [|x l]; [by intros ?%elem_of_nil|]. intros Hm Hall. simpl. f_equal.
  assert (x = m \/ m ∈ l) as Hin by (apply elem_of_cons in Hm as [->|]; auto).
  pose proof (Hall x ltac:(left)) as Hx. assert (forall y, y ∈ l -> le y m) as Hl by (intros; apply Hall; by right).
  clear Hm Hall. revert x Hin Hx. induction l as [|y l IH]; intros x Hin Hx; simpl.
  - by destruct Hin as [->|?%elem_of_nil].
  - destruct (Hf x y Hx (Hl y ltac:(left))) as [Hle Heq]. apply IH; [intros; apply Hl; by right| |done].
    rewrite elem_of_cons in Hin. destruct Hin as [->|[->|Hin]]; [left; auto|left; auto|by right].
Qed.

Lemma ref_best b sp s :
  ref_rep b sp -> (match s with Bid => best_bid b | Ask => best_ask b end) = sp_best sp s.
Proof.
  intros [(Ls & HR & HLs) _]. unfold sp_best. rewrite <- HLs. pose proof (HR s) as [Hp Hs].
  assert (forall x, x ∈ (fun r => o_price (ro_order r)) <$> on_side s (rf_resting b) <->
                    x ∈ (fun r => o_price (ro_order r)) <$> Ls s) as Hel by (intros x; by rewrite Hp).
  destruct (Ls s) as [|m L].
  - apply Permutation_nil_l in Hp. unfold best_bid, best_ask. by destruct s; rewrite <- Hp.
  - apply StronglySorted_inv in Hs as [_ Hs]. rewrite Forall_forall in Hs.
    assert (o_price (ro_order m) ∈ (fun r => o_price (ro_order r)) <$> on_side s (rf_resting b)) as Hm
      by (apply Hel; left).
    destruct s; [apply (iter_fold_greatest Z.max (fun x m => x <= m))|apply (iter_fold_greatest Z.min (fun x m => m <= x))];
      try done; try lia; intros x Hx%Hel; apply list_elem_of_fmap in Hx as (r & -> & [->|Hr]%elem_of_cons); try lia;
      specialize (Hs _ Hr); unfold before in Hs; simpl in Hs; lia.
Qed.

Lemma key_le_total s : Total (key_le s).
Proof. intros x y. unfold key_le. destruct s; lia. Qed.

Lemma key_le_trans s : Transitive (key_le s).
Proof. intros x y z. unfold key_le. destruct s; lia. Qed.

Lemma before_key_le s x y : before s x y -> key_le s x y /\ ~ key_le s y x.
Proof. unfold before, key_le. destruct s; simpl; lia. Qed.

Lemma sorted_comparable s L x y :
  StronglySorted (before s) L -> x ∈ L -> y ∈ L -> x = y \/ before s x y \/ before s y x.
Proof.
  induction 1 as [|z L _ IH Hz]; [by intros ?%elem_of_nil|]. rewrite Forall_forall in Hz.
  intros [->|Hx]%elem_of_cons [->|Hy]%elem_of_cons; eauto.
Qed.

(** Sorting the entries of a side ranks them. *)
Lemma merge_sort_ranked s rs L : ranked s rs L -> merge_sort (key_le s) (on_side s rs) = L.
Proof.
  intros [Hp Hs]. pose proof (key_le_total s). pose proof (key_le_trans s).
  pose proof (merge_sort_Permutation (key_le s) (on_side s rs)) as Hm.
  apply (StronglySorted_unique_strong (key_le s)).
  - intros x y Hx Hy Hxy Hyx. rewrite Hm, <- Hp in Hx.
    destruct (sorted_comparable _ _ _ _ Hs Hx Hy) as [?|[Hb|Hb]]; [done|by destruct (before_key_le _ _ _ Hb)..].
  - apply StronglySorted_merge_sort; apply _.
  - clear -Hs. induction Hs as [|x L _ IH Hx]; [constructor|]. constructor; [done|].
    eapply Forall_impl; [exact Hx|]. intros y Hy. by apply before_key_le.
  - by rewrite Hm, Hp.
Qed.

Lemma ref_canonical b sp : ref_rep b sp -> canonical b = sp_all sp.
Proof.
  intros [(Ls & HR & HLs) _]. unfold canonical, sp_all.
  rewrite (merge_sort_ranked Ask _ (Ls Ask)), (merge_sort_ranked Bid _ (Ls Bid)) by apply HR.
  by rewrite fmap_app, !HLs.
Qed.

(** ** The differential run *)

(** The reference book is a matcher. *)
#[global] Instance reference_matcher : Matcher ReferenceBook := {
  mt_add := add;
  mt_cancel b id := Some (cancel b id);
  mt_best b s := match s with Bid => best_bid b | Ask => best_ask b end;
  mt_count b := length (rf_resting b);
  mt_orders b := Some (canonical b)
}.

#[global] Program Instance reference_laws cap : MatcherLaws ReferenceBook cap := {
  mt_rep n b sp := ref_rep b sp /\ 0 <= rf_next_seq b <= n
}.
Next Obligation.
  intros cap n b sp o sp' fs res Hn [Hok _] Ho [R Hq] Hs.
  destruct (ref_add_spec cap b sp o sp' fs res R Hok Ho ltac:(lia) Hs) as (b' & Hb & R' & Hq').
  exists b'. split; [done|]. split; [done|lia].
Qed.
Next Obligation.
  intros cap n b sp id [_ Hnd] [R Hq]. destruct (ref_cancel_spec b sp id R Hnd) as (R' & Hr & Hq').
  exists (fst (cancel b id)). cbn [mt_cancel reference_matcher]. split; [|split; [done|lia]].
  unfold result_ok. rewrite <- Hr. by destruct (cancel b id).
Qed.
Next Obligation. intros cap n b sp s [R _]. exact (ref_best b sp s R). Qed.
Next Obligation. intros cap n b sp [R _]. cbn. rewrite <- (ref_rep_orders _ _ R). by rewrite length_fmap. Qed.
Next Obligation. intros cap n b sp [R _]. cbn. by rewrite (ref_canonical _ _ R). Qed.

(** The comparisons of the run are those of the interface. *)
Lemma compare_books_pass cap n e r sp :
  mt_rep (cap := cap) n e sp -> mt_rep (cap := cap) n r sp -> compare_books e r = Some tt.
Proof.
  intros Re Rr. unfold compare_books.
  rewrite assert_eq_seq by (exact (eq_trans (mt_best_ok _ _ _ Bid Re) (eq_sym (mt_best_ok _ _ _ Bid Rr)))).
  rewrite assert_eq_seq by (exact (eq_trans (mt_best_ok _ _ _ Ask Re) (eq_sym (mt_best_ok _ _ _ Ask Rr)))).
  rewrite assert_eq_seq by (exact (eq_trans (mt_count_ok _ _ _ Re) (eq_sym (mt_count_ok _ _ _ Rr)))).
  pose proof (mt_orders_ok _ _ _ Re) as He. pose proof (mt_orders_ok _ _ _ Rr) as Hr. cbn in He, Hr.
  rewrite He. cbn [mbind option_bind]. apply assert_eq_pass. congruence.
Qed.

(** A fresh order finds its place. *)
Lemma spec_add_fresh cap sp o :
  o_quantity o ≠ 0 -> o_id o ∉ sp_ids sp -> Z.of_nat (length (sp_all sp)) < cap ->
  exists sp' fs res, spec_add cap sp o = (sp', fs, Ok res) /\
    (forall id, id ∈ sp_ids sp' -> id = o_id o \/ id ∈ sp_ids sp) /\
    (length (sp_all sp') <= S (length (sp_all sp)))%nat.
Proof.
  intros Hz Hid Hlen. unfold spec_add. rewrite decide_False by done. set (s := opposite (o_side o)).
  pose proof (spec_match_ids o (o_quantity o) (sp_side sp s)) as Hsub.
  destruct (spec_match _ _ _) as [[[fs L] q] st].
  assert (forall id, id ∈ sp_ids (sp_set s L sp) -> id ∈ sp_ids sp) as Hids.
  { intros id. rewrite sp_ids_set, (sp_ids_sides s sp). rewrite !elem_of_app. intros [H|H]; [left|by right].
    eapply elem_of_sublist; [exact H|exact Hsub]. }
  assert (length (sp_all (sp_set s L sp)) <= length (sp_all sp))%nat as Hl.
  { pose proof (length_sp_set s L sp) as H. apply sublist_length in Hsub. rewrite !length_fmap in Hsub. lia. }
  destruct st; [eexists _, _, _; split_and!; [done|auto|lia]|].
  destruct (decide (q = 0)); [eexists _, _, _; split_and!; [done|auto|lia]|].
  unfold spec_insert. cbn [o_id set_quantity o_side]. rewrite decide_False by auto. rewrite decide_False by lia.
  eexists _, _, _. split_and!; [done| |].
  - intros id Hi. rewrite sp_ids_insert in Hi. apply elem_of_cons in Hi as [->|Hi]; [by left|auto].
  - pose proof (length_sp_set (o_side o) (insert_prio (o_side o) (set_quantity q o) (sp_side (sp_set s L sp) (o_side o)))
      (sp_set s L sp)) as H. rewrite length_insert_prio in H. lia.
Qed.

(** The operations the test draws, without the bounds of its strategies; a
    sampled index is a position of the list. *)
Definition op_ok (op : Op) : Prop :=
  match op with
  | OpAdd _ price qty trader => is_i64 price /\ is_u64 qty /\ 0 < qty /\ is_u64 trader
  | OpCancel index => forall n, (0 < n)%nat -> (index n < n)%nat
  end.

Record diff_inv (cap : Z) (d : Diff) : Prop := {
  di_books : exists sp, mt_rep (cap := cap) (df_step d) (df_engine d) sp /\
    mt_rep (cap := cap) (df_step d) (df_reference d) sp /\ spec_ok sp /\
    (forall id, id ∈ sp_ids sp -> id <= df_step d) /\ Z.of_nat (length (sp_all sp)) <= df_step d;
  di_step : 0 <= df_step d
}.

(** Waiting for the next operation changes nothing. *)
Lemma diff_inv_skip cap d :
  diff_inv cap d -> diff_inv cap (mkDiff (df_engine d) (df_reference d) [] (df_transcript d) (df_step d + 1)).
Proof.
  intros [(sp & He & [Rr Hq] & Hok & Hids & Hlen) Hs]. split; cbn [df_engine df_reference df_step]; [|lia].
  exists sp. split_and!; [exact He|split; [done|lia]|done| |lia]. intros id Hi%Hids. lia.
Qed.

Lemma diff_step_passes cap d op :
  0 <= cap < 2 ^ 32 -> op_ok op -> diff_inv cap d -> df_step d < cap ->
  exists d', diff_step d op = Some d' /\ diff_inv cap d' /\ df_step d' = df_step d + 1.
Proof.
  intros Hcap Hop I Hstep. pose proof I as [(sp & Re & Rr & Hok & Hids & Hlen) Hs0].
  destruct op as [side price qty trader|idx]; cbn [diff_step].
  - destruct Hop as (Hp & Hq & Hq0 & Ht).
    assert (u64_add (df_step d) 1 = df_step d + 1) as -> by (unfold u64_add; apply wrap_small; lia).
    unfold Order_new. rewrite decide_False by lia. cbn [mbind option_bind].
    set (o := mkOrder (df_step d + 1) trader side price qty (df_step d + 1)).
    assert (order_typed o) as Ho by (unfold order_typed, o; simpl; unfold_ranges; lia).
    destruct (spec_add_fresh cap sp o) as (sp' & fs & res & Hs & Hids' & Hlen'); [simpl; lia| |lia|].
    { intros H%Hids. unfold o in H. simpl in H. lia. }
    pose proof (spec_add_spec_ok cap sp o Hok Ho) as Hok'. rewrite Hs in Hok'. cbn [fst] in Hok'.
    destruct (mt_add_ok (df_step d) _ _ _ _ _ _ ltac:(lia) Hok Ho Rr Hs) as (r' & Hr & Rr').
    destruct (mt_add_ok (df_step d) _ _ _ _ _ _ ltac:(lia) Hok Ho Re Hs) as (e' & He & Re').
    cbn [mt_add reference_matcher] in Hr. rewrite Hr. cbn [mbind option_bind].
    cbn [mt_add engine_matcher] in He. unfold call. cbn [mbind option_bind].
    destruct (MatchingEngine.add_order (df_engine d) o) as [[e1 [res1|]]|]; try done. cbn in He.
    injection He as -> Est Efs. cbn [mbind option_bind unwrap].
    rewrite !assert_eq_seq by done. rewrite (compare_books_pass cap _ e' r' sp' Re' Rr'). cbn [mbind option_bind].
    eexists. split; [done|]. split; [|done]. split; cbn [df_engine df_reference df_step]; [|lia].
    exists sp'. split_and!; [done..| |lia]. intros id [->|Hi%Hids]%Hids'; [simpl; lia|lia].
  - destruct (decide (df_issued_ids d = [])) as [Hnil|Hne].
    { eexists. split; [done|]. split; [by apply diff_inv_skip|done]. }
    destruct (lookup_lt_is_Some_2 (df_issued_ids d) (idx (length (df_issued_ids d)))) as [id Hid].
    { apply Hop. destruct (df_issued_ids d); [done|simpl; lia]. }
    rewrite Hid. cbn [mbind option_bind].
    destruct (mt_cancel_ok _ _ _ id Hok Rr) as (r' & Hr & Rr'). destruct (mt_cancel_ok _ _ _ id Hok Re) as (e' & He & Re').
    cbn [mt_cancel reference_matcher] in Hr. injection Hr as Hr. rewrite Hr.
    cbn [mt_cancel engine_matcher] in He. destruct (MatchingEngine.cancel_order (df_engine d) id) as [[e1 r1]|]; [|done].
    cbn in He. injection He as -> Er. cbn [mbind option_bind].
    rewrite assert_eq_seq by (exact Er). rewrite (compare_books_pass cap _ e' r' _ Re' Rr'). cbn [mbind option_bind].
    eexists. split; [done|]. split; [|done]. split; cbn [df_engine df_reference df_step]; [|lia].
    destruct (spec_cancel_all sp id) as [Hall _].
    exists (fst (spec_cancel sp id)). split_and!; [done|done|by apply spec_cancel_spec_ok| |].
    + intros x Hx. unfold sp_ids in Hx. rewrite Hall in Hx.
      assert (x ∈ sp_ids sp) as Hi%Hids; [|lia].
      eapply elem_of_sublist; [exact Hx|]. apply fmap_sublist, without_id_sublist.
    + rewrite Hall. pose proof (sublist_length _ _ (without_id_sublist id (sp_all sp))). lia.
Qed.

Lemma differential_run cap ops d :
  0 <= cap < 2 ^ 32 -> Forall op_ok ops -> diff_inv cap d -> df_step d + Z.of_nat (length ops) <= cap ->
  exists d', for_each diff_step d ops = Some d'.
Proof.
  intros Hcap. revert d. induction ops as [|op ops IH]; intros d Hok I Hlen; [by exists d|].
  apply Forall_cons in Hok as [Hop Hok]. cbn [length] in Hlen.
  destruct (diff_step_passes cap d op Hcap Hop I) as (d' & E & I' & Hs); [lia|].
  cbn [for_each]. rewrite E. cbn [mbind option_bind]. apply IH; [done|done|lia].
Qed.

(** C19. The engine agrees with the repository's naive reference book on every
    sequence of adds and cancels that fits the arena, at any prices, quantities
    and traders: the same status and fills, the same cancelled orders, and after
    every operation the same best prices, count and book contents; no panic
    occurs on either side. *)
Theorem engine_matches_reference_model arena_capacity ops :
  0 <= arena_capacity < 2 ^ 32 -> Z.of_nat (length ops) <= arena_capacity -> Forall op_ok ops ->
  is_Some (run_differential_at arena_capacity ops).
Proof.
  intros Hcap Hlen Hok. unfold run_differential_at.
  destruct (differential_run arena_capacity ops
    (mkDiff (MatchingEngine.with_capacity arena_capacity) ReferenceBook.default [] [] 0)) as [d ->];
    [done|done| |simpl; lia|by eexists].
  split; cbn [df_engine df_reference df_step]; [|simpl; lia].
  exists sp_empty. split_and!; [by apply with_capacity_inv|split; [apply ref_rep_empty|simpl; lia]|apply spec_ok_empty| |simpl; lia].
  by intros id ?%elem_of_nil.
Qed.

(** A run that trades, cancels and trades again. *)
Definition demo_ops : list Op :=
  [OpAdd Ask 100 5 1; OpAdd Ask 99 4 2; OpAdd Bid 101 7 3; OpCancel (fun n => (n - 1)%nat); OpAdd Bid 100 9 1;
   OpCancel (fun _ => 0%nat); OpAdd Bid 98 2 0].

Lemma engine_matches_reference_model_witness :
  is_Some (run_differential_at 16 demo_ops) /\
  (length <$> run_differential_at 16 demo_ops) = Some 5%nat.
Proof.
  split; [|vm_compute; reflexivity].
  apply engine_matches_reference_model; [lia|simpl; lia|].
  repeat constructor; simpl; unfold_ranges; try lia; intros n Hn; lia.
Defined.
