(* ===== verification/Protocol.v ===== *)
(** * Protocol.v: the binary wire protocol ([src/protocol.rs])

    Fixed-size little-endian messages.  A byte buffer is a list of integers in
    [0, 256); the field accessors are bounds-checked slices as in the source,
    so every codec is total and returns a [ProtocolError] on bad input.  An
    encoder returns the buffer it leaves and the message size. *)

From S2P Require Import Prelude.
From S2P Require Import Order.
From S2P Require Import Matching.

(** ** Little-endian integers ([to_le_bytes], [from_le_bytes]) *)

Definition bytes_ok (l : list Z) : Prop := Forall is_u8 l.

Fixpoint to_le (n : nat) (z : Z) : list Z :=
  match n with
  | O => []
  | S n => z mod 2 ^ 8 :: to_le n (z / 2 ^ 8)
  end.

Fixpoint from_le (l : list Z) : Z :=
  match l with
  | [] => 0
  | b :: l => b + 2 ^ 8 * from_le l
  end.

(** Two's complement reading of a 64-bit word. *)
Definition i64_of_u64 (u : Z) : Z := if decide (u < 2 ^ 63) then u else u - 2 ^ 64.

(** [buf.get(off..off + len)] and [buf.get_mut(off..off + len)] followed by
    [copy_from_slice]. *)
Definition get_range (buf : list Z) (off len : nat) : option (list Z) :=
  if decide (off + len <= length buf)%nat then Some (take len (drop off buf)) else None.
Definition set_range (buf : list Z) (off : nat) (bytes : list Z) : option (list Z) :=
  if decide (off + length bytes <= length buf)%nat
  then Some (take off buf ++ bytes ++ drop (off + length bytes) buf) else None.

(** ** Messages *)

Definition MSG_NEW_ORDER : Z := 1.
Definition MSG_CANCEL_ORDER : Z := 2.
Definition MSG_EXECUTION_REPORT : Z := 3.

Definition NEW_ORDER_SIZE : nat := 40.
Definition CANCEL_ORDER_SIZE : nat := 16.
Definition EXECUTION_REPORT_SIZE : nat := 48.

Inductive EngineCommand : Type :=
| NewOrder (o : Order)
| CancelOrder (order_id : Z).

#[global] Instance EngineCommand_eq_dec : EqDecision EngineCommand.
Proof. solve_decision. Defined.

Record ExecutionReport : Type := mkReport {
  er_seq_num : Z;
  er_taker_order_id : Z;
  er_maker_order_id : Z;
  er_price : Z;
  er_quantity : Z;
  er_timestamp : Z
}.

Inductive ProtocolError : Type :=
| BufferTooShort
| UnknownMessageType (t : Z)
| InvalidSide (s : Z)
| ZeroQuantityMsg.

#[global] Instance ProtocolError_eq_dec : EqDecision ProtocolError.
Proof. solve_decision. Defined.

(** ** Field accessors *)

Definition read_u8 (buf : list Z) (offset : nat) : result Z ProtocolError :=
  ok_or BufferTooShort (buf !! offset).
Definition read_u32 (buf : list Z) (offset : nat) : result Z ProtocolError :=
  let? bytes := ok_or BufferTooShort (get_range buf offset 4) in Ok (from_le bytes).
Definition read_u64 (buf : list Z) (offset : nat) : result Z ProtocolError :=
  let? bytes := ok_or BufferTooShort (get_range buf offset 8) in Ok (from_le bytes).
Definition read_i64 (buf : list Z) (offset : nat) : result Z ProtocolError :=
  let? bytes := ok_or BufferTooShort (get_range buf offset 8) in Ok (i64_of_u64 (from_le bytes)).

Definition write_u8 (buf : list Z) (offset : nat) (val : Z) : result (list Z) ProtocolError :=
  ok_or BufferTooShort (set_range buf offset [val]).
Definition write_u32 (buf : list Z) (offset : nat) (val : Z) : result (list Z) ProtocolError :=
  ok_or BufferTooShort (set_range buf offset (to_le 4 val)).
Definition write_u64 (buf : list Z) (offset : nat) (val : Z) : result (list Z) ProtocolError :=
  ok_or BufferTooShort (set_range buf offset (to_le 8 val)).
Definition write_i64 (buf : list Z) (offset : nat) (val : Z) : result (list Z) ProtocolError :=
  ok_or BufferTooShort (set_range buf offset (to_le 8 val)).

Definition decode_side (val : Z) : result Side ProtocolError :=
  if decide (val = 0) then Ok Bid else if decide (val = 1) then Ok Ask else Err (InvalidSide val).
Definition encode_side (side : Side) : Z := match side with Bid => 0 | Ask => 1 end.

(** [buf[..n].fill(0)]. *)
Definition fill0 (n : nat) (buf : list Z) : list Z := replicate n 0 ++ drop n buf.

(** ** Codecs *)

Definition decode_new_order (buf : list Z) : result Order ProtocolError :=
  if decide (length buf < NEW_ORDER_SIZE)%nat then Err BufferTooShort
  else
    let? side_byte := read_u8 buf 1 in
    let? side := decode_side side_byte in
    let? order_id := read_u64 buf 8 in
    let? trader_id := read_u64 buf 16 in
    let? price := read_i64 buf 24 in
    let? quantity := read_u64 buf 32 in
    if decide (quantity = 0) then Err ZeroQuantityMsg
    else Ok (mkOrder order_id trader_id side price quantity 0).

Definition encode_new_order (buf : list Z) (order : Order) : result (list Z * nat) ProtocolError :=
  if decide (length buf < NEW_ORDER_SIZE)%nat then Err BufferTooShort
  else
    let buf := fill0 NEW_ORDER_SIZE buf in
    let? buf := write_u8 buf 0 MSG_NEW_ORDER in
    let? buf := write_u8 buf 1 (encode_side (o_side order)) in
    let? buf := write_u64 buf 8 (o_id order) in
    let? buf := write_u64 buf 16 (o_trader_id order) in
    let? buf := write_i64 buf 24 (o_price order) in
    let? buf := write_u64 buf 32 (o_quantity order) in
    Ok (buf, NEW_ORDER_SIZE).

Definition decode_cancel_order (buf : list Z) : result Z ProtocolError :=
  if decide (length buf < CANCEL_ORDER_SIZE)%nat then Err BufferTooShort
  else read_u64 buf 8.

Definition encode_cancel_order (buf : list Z) (order_id : Z) : result (list Z * nat) ProtocolError :=
  if decide (length buf < CANCEL_ORDER_SIZE)%nat then Err BufferTooShort
  else
    let buf := fill0 CANCEL_ORDER_SIZE buf in
    let? buf := write_u8 buf 0 MSG_CANCEL_ORDER in
    let? buf := write_u64 buf 8 order_id in
    Ok (buf, CANCEL_ORDER_SIZE).

Definition decode_message (buf : list Z) : result EngineCommand ProtocolError :=
  let? msg_type := read_u8 buf 0 in
  if decide (msg_type = MSG_NEW_ORDER) then result_map NewOrder (decode_new_order buf)
  else if decide (msg_type = MSG_CANCEL_ORDER) then result_map CancelOrder (decode_cancel_order buf)
  else Err (UnknownMessageType msg_type).

Definition message_size (msg_type : Z) : result nat ProtocolError :=
  if decide (msg_type = MSG_NEW_ORDER) then Ok NEW_ORDER_SIZE
  else if decide (msg_type = MSG_CANCEL_ORDER) then Ok CANCEL_ORDER_SIZE
  else Err (UnknownMessageType msg_type).

Definition encode_execution_report (buf : list Z) (seq_num : Z) (fill : Fill) (timestamp : Z)
  : result (list Z * nat) ProtocolError :=
  if decide (length buf < EXECUTION_REPORT_SIZE)%nat then Err BufferTooShort
  else
    let buf := fill0 EXECUTION_REPORT_SIZE buf in
    let? buf := write_u8 buf 0 MSG_EXECUTION_REPORT in
    let? buf := write_u32 buf 4 seq_num in
    let? buf := write_u64 buf 8 (f_taker_order_id fill) in
    let? buf := write_u64 buf 16 (f_maker_order_id fill) in
    let? buf := write_i64 buf 24 (f_price fill) in
    let? buf := write_u64 buf 32 (f_quantity fill) in
    let? buf := write_u64 buf 40 timestamp in
    Ok (buf, EXECUTION_REPORT_SIZE).

Definition decode_execution_report (buf : list Z) : result ExecutionReport ProtocolError :=
  if decide (length buf < EXECUTION_REPORT_SIZE)%nat then Err BufferTooShort
  else
    let? seq_num := read_u32 buf 4 in
    let? taker_order_id := read_u64 buf 8 in
    let? maker_order_id := read_u64 buf 16 in
    let? price := read_i64 buf 24 in
    let? quantity := read_u64 buf 32 in
    let? timestamp := read_u64 buf 40 in
    Ok (mkReport seq_num taker_order_id maker_order_id price quantity timestamp).
