(* ===== verification/ProtocolInv.v ===== *)
(** * ProtocolInv.v: the wire format and the codecs' correctness

    The byte layout of each message as one list, the proof that the encoders
    produce exactly that layout and leave the rest of the buffer alone, and
    that the decoders read it back. *)

From S2P Require Import Prelude.
From S2P Require Import Order.
From S2P Require Import Matching.
From S2P Require Import Protocol.

(** ** Little-endian integers *)

Lemma length_to_le n z : length (to_le n z) = n.
Proof. revert z. induction n; intros; simpl; auto. Qed.

Lemma to_le_ok n z : bytes_ok (to_le n z).
Proof.
  revert z. induction n as [|n IH]; intros z; constructor; [|apply IH].
  unfold is_u8. apply Z.mod_pos_bound. lia.
Qed.

Lemma from_to_le n z : from_le (to_le n z) = z mod 2 ^ (8 * Z.of_nat n).
Proof.
  revert z. induction n as [|n IH]; intros z; cbn [to_le from_le]; [by rewrite Z.mod_1_r|].
  rewrite IH. replace (8 * Z.of_nat (S n)) with (8 + 8 * Z.of_nat n) by lia.
  rewrite Z.pow_add_r by lia. rewrite Z.rem_mul_r by lia. lia.
Qed.

Lemma from_le_range l : bytes_ok l -> 0 <= from_le l < 2 ^ (8 * Z.of_nat (length l)).
Proof.
  induction 1 as [|b l Hb Hl IH]; [simpl; lia|]. cbn [from_le length].
  replace (8 * Z.of_nat (S (length l))) with (8 + 8 * Z.of_nat (length l)) by lia.
  rewrite Z.pow_add_r by lia. unfold is_u8 in Hb. nia.
Qed.

Lemma to_from_le l : bytes_ok l -> to_le (length l) (from_le l) = l.
Proof.
  induction 1 as [|b l Hb Hl IH]; [done|]. cbn [from_le length to_le]. unfold is_u8 in Hb.
  rewrite (Z.mul_comm (2 ^ 8)), Z.mod_add, Z.div_add, Z.mod_small, Z.div_small by lia.
  by rewrite Z.add_0_l, IH.
Qed.

Lemma i64_of_wrap z : is_i64 z -> i64_of_u64 (wrap 64 z) = z.
Proof.
  unfold is_i64, i64_of_u64, wrap. intros Hz. destruct (decide (0 <= z)).
  - rewrite Z.mod_small by lia. rewrite decide_True; lia.
  - replace (z mod 2 ^ 64) with (z + 2 ^ 64).
    + rewrite decide_False; lia.
    + rewrite <- (Z.mod_add z 1) by lia. rewrite Z.mod_small; lia.
Qed.

Lemma i64_of_u64_range u : is_u64 u -> is_i64 (i64_of_u64 u).
Proof. unfold_ranges. unfold i64_of_u64. case_decide; lia. Qed.

(** ** Slices *)

Lemma get_range_at l1 x l2 off len :
  off = length l1 -> len = length x -> get_range (l1 ++ x ++ l2) off len = Some x.
Proof.
  intros -> ->. unfold get_range. rewrite decide_True by (rewrite !length_app; lia).
  by rewrite drop_app_length, take_app_length.
Qed.

Lemma set_range_at l1 old new l2 off :
  off = length l1 -> length old = length new ->
  set_range (l1 ++ old ++ l2) off new = Some (l1 ++ new ++ l2).
Proof.
  intros -> Hl. unfold set_range. rewrite decide_True by (rewrite !length_app; lia).
  rewrite take_app_length, <- Hl. rewrite (app_assoc l1 old l2), <- length_app. by rewrite drop_app_length.
Qed.

Lemma get_range_Some buf off len l :
  get_range buf off len = Some l -> length l = len /\ exists l1 l2, buf = l1 ++ l ++ l2.
Proof.
  unfold get_range. case_decide; [|done]. intros [= <-]. rewrite length_take, length_drop.
  split; [lia|]. exists (take off buf), (drop len (drop off buf)).
  by rewrite take_drop, take_drop.
Qed.

Lemma get_range_ok buf off len :
  (off + len <= length buf)%nat -> bytes_ok buf ->
  exists l, get_range buf off len = Some l /\ length l = len /\ bytes_ok l.
Proof.
  intros Hl Hb. unfold get_range. rewrite decide_True by done. eexists. split; [done|].
  split; [rewrite length_take, length_drop; lia|]. by apply Forall_take, Forall_drop.
Qed.

(** Reads stay inside the slice they name. *)
Lemma get_range_app buf rest off len :
  (off + len <= length buf)%nat -> get_range (buf ++ rest) off len = get_range buf off len.
Proof.
  intros Hl. unfold get_range. rewrite !decide_True by (rewrite ?length_app; lia).
  rewrite drop_app_le by lia. by rewrite take_app_le by (rewrite length_drop; lia).
Qed.

(** ** Message layouts *)

Definition new_order_bytes (o : Order) : list Z :=
  [MSG_NEW_ORDER; encode_side (o_side o)] ++ replicate 6 0 ++ to_le 8 (o_id o) ++
  to_le 8 (o_trader_id o) ++ to_le 8 (o_price o) ++ to_le 8 (o_quantity o).

Definition cancel_bytes (id : Z) : list Z := [MSG_CANCEL_ORDER] ++ replicate 7 0 ++ to_le 8 id.

Definition report_bytes (seq : Z) (f : Fill) (ts : Z) : list Z :=
  [MSG_EXECUTION_REPORT] ++ replicate 3 0 ++ to_le 4 seq ++ to_le 8 (f_taker_order_id f) ++
  to_le 8 (f_maker_order_id f) ++ to_le 8 (f_price f) ++ to_le 8 (f_quantity f) ++ to_le 8 ts.

Lemma length_new_order_bytes o : length (new_order_bytes o) = NEW_ORDER_SIZE.
Proof. unfold new_order_bytes. by rewrite !length_app, length_replicate, !length_to_le. Qed.

Lemma length_cancel_bytes id : length (cancel_bytes id) = CANCEL_ORDER_SIZE.
Proof. unfold cancel_bytes. by rewrite !length_app, length_replicate, !length_to_le. Qed.

Lemma length_report_bytes seq f ts : length (report_bytes seq f ts) = EXECUTION_REPORT_SIZE.
Proof. unfold report_bytes. by rewrite !length_app, length_replicate, !length_to_le. Qed.

Create Rewrite HintDb wire.
#[export] Hint Rewrite length_to_le length_new_order_bytes length_cancel_bytes length_report_bytes
  @length_app @length_replicate : wire.

(** Write the next field after the prefix [l1], over zeroes. *)
Ltac write_field l1 n l2 new :=
  rewrite (set_range_at l1 (replicate n 0) new l2) by (autorewrite with wire; reflexivity);
  cbn [ok_or rbind].

Ltac read_field l1 x l2 :=
  rewrite (get_range_at l1 x l2) by (autorewrite with wire; reflexivity); cbn [ok_or rbind].

Lemma encode_new_order_eq buf o :
  (NEW_ORDER_SIZE <= length buf)%nat ->
  encode_new_order buf o = Ok (new_order_bytes o ++ drop NEW_ORDER_SIZE buf, NEW_ORDER_SIZE).
Proof.
  intros Hl. unfold encode_new_order. rewrite decide_False by lia.
  unfold write_u8, write_u64, write_i64, fill0. set (r := drop NEW_ORDER_SIZE buf).
  write_field (@nil Z) 1%nat (replicate 39 0 ++ r) [MSG_NEW_ORDER].
  write_field [MSG_NEW_ORDER] 1%nat (replicate 38 0 ++ r) [encode_side (o_side o)].
  set (h := [MSG_NEW_ORDER; encode_side (o_side o)] ++ replicate 6 0).
  write_field h 8%nat (replicate 24 0 ++ r) (to_le 8 (o_id o)). rewrite app_assoc.
  write_field (h ++ to_le 8 (o_id o)) 8%nat (replicate 16 0 ++ r) (to_le 8 (o_trader_id o)).
  rewrite app_assoc. set (h2 := (h ++ _) ++ _).
  write_field h2 8%nat (replicate 8 0 ++ r) (to_le 8 (o_price o)). rewrite app_assoc.
  write_field (h2 ++ to_le 8 (o_price o)) 8%nat r (to_le 8 (o_quantity o)).
  unfold h2, h, new_order_bytes. by rewrite <- !app_assoc.
Qed.

Lemma encode_cancel_eq buf id :
  (CANCEL_ORDER_SIZE <= length buf)%nat ->
  encode_cancel_order buf id = Ok (cancel_bytes id ++ drop CANCEL_ORDER_SIZE buf, CANCEL_ORDER_SIZE).
Proof.
  intros Hl. unfold encode_cancel_order. rewrite decide_False by lia.
  unfold write_u8, write_u64, fill0. set (r := drop CANCEL_ORDER_SIZE buf).
  write_field (@nil Z) 1%nat (replicate 15 0 ++ r) [MSG_CANCEL_ORDER].
  write_field ([MSG_CANCEL_ORDER] ++ replicate 7 0) 8%nat r (to_le 8 id).
  unfold cancel_bytes. by rewrite <- !app_assoc.
Qed.

Lemma encode_report_eq buf seq f ts :
  (EXECUTION_REPORT_SIZE <= length buf)%nat ->
  encode_execution_report buf seq f ts =
    Ok (report_bytes seq f ts ++ drop EXECUTION_REPORT_SIZE buf, EXECUTION_REPORT_SIZE).
Proof.
  intros Hl. unfold encode_execution_report. rewrite decide_False by lia.
  unfold write_u8, write_u32, write_u64, write_i64, fill0. set (r := drop EXECUTION_REPORT_SIZE buf).
  write_field (@nil Z) 1%nat (replicate 47 0 ++ r) [MSG_EXECUTION_REPORT].
  set (h := [MSG_EXECUTION_REPORT] ++ replicate 3 0).
  write_field h 4%nat (replicate 40 0 ++ r) (to_le 4 seq). rewrite app_assoc. set (h1 := h ++ _).
  write_field h1 8%nat (replicate 32 0 ++ r) (to_le 8 (f_taker_order_id f)).
  rewrite app_assoc. set (h2 := h1 ++ _).
  write_field h2 8%nat (replicate 24 0 ++ r) (to_le 8 (f_maker_order_id f)).
  rewrite app_assoc. set (h3 := h2 ++ _).
  write_field h3 8%nat (replicate 16 0 ++ r) (to_le 8 (f_price f)).
  rewrite app_assoc. set (h4 := h3 ++ _).
  write_field h4 8%nat (replicate 8 0 ++ r) (to_le 8 (f_quantity f)).
  rewrite app_assoc. write_field (h4 ++ to_le 8 (f_quantity f)) 8%nat r (to_le 8 ts).
  unfold h4, h3, h2, h1, h, report_bytes. by rewrite <- !app_assoc.
Qed.

(** ** Decoding what was encoded *)

Lemma from_to_u64 z : is_u64 z -> from_le (to_le 8 z) = z.
Proof. unfold is_u64. intros. rewrite from_to_le. apply Z.mod_small. lia. Qed.

Lemma from_to_u32 z : is_u32 z -> from_le (to_le 4 z) = z.
Proof. unfold is_u32. intros. rewrite from_to_le. apply Z.mod_small. lia. Qed.

Lemma from_to_i64 z : is_i64 z -> i64_of_u64 (from_le (to_le 8 z)) = z.
Proof. intros. rewrite from_to_le. by apply i64_of_wrap. Qed.

Lemma decode_encode_side s : decode_side (encode_side s) = Ok s.
Proof. by destruct s. Qed.

(** Read one field of a message: the slice is computed by conversion. *)
Lemma get_range_eq buf off len x :
  (off + len <= length buf)%nat -> take len (drop off buf) = x -> get_range buf off len = Some x.
Proof. intros Hl <-. unfold get_range. by rewrite decide_True. Qed.

Ltac read_fields xs :=
  lazymatch xs with
  | nil => idtac
  | ?x :: ?xs =>
      match goal with
      | |- context [get_range ?b ?off ?len] =>
          rewrite (get_range_eq b off len x) by (autorewrite with wire; simpl; lia || reflexivity)
      end; cbn [ok_or rbind]; read_fields xs
  end.

Lemma decode_report_bytes seq f ts rest :
  is_u32 seq -> is_u64 (f_taker_order_id f) -> is_u64 (f_maker_order_id f) -> is_i64 (f_price f) ->
  is_u64 (f_quantity f) -> is_u64 ts ->
  decode_execution_report (report_bytes seq f ts ++ rest) =
    Ok (mkReport seq (f_taker_order_id f) (f_maker_order_id f) (f_price f) (f_quantity f) ts).
Proof.
  intros. unfold decode_execution_report.
  rewrite decide_False by (rewrite length_app, length_report_bytes; lia).
  unfold read_u32, read_u64, read_i64.
  read_fields [to_le 4 seq; to_le 8 (f_taker_order_id f); to_le 8 (f_maker_order_id f);
               to_le 8 (f_price f); to_le 8 (f_quantity f); to_le 8 ts].
  rewrite from_to_i64, !from_to_u64, from_to_u32 by done. done.
Qed.

(** ** What the decoder accepts *)

(** What a client can send: the fields in range, a quantity, no timestamp. *)
Definition command_typed (c : EngineCommand) : Prop :=
  match c with
  | NewOrder o => order_typed o /\ o_quantity o ≠ 0
  | CancelOrder id => is_u64 id
  end.

#[global] Instance command_typed_dec c : Decision (command_typed c).
Proof. destruct c; simpl; apply _. Defined.

Definition untimed (c : EngineCommand) : EngineCommand :=
  match c with NewOrder o => NewOrder (set_timestamp 0 o) | CancelOrder id => CancelOrder id end.

(** The bytes of a command with arbitrary padding. *)
Definition command_layout (pad : list Z) (c : EngineCommand) : list Z :=
  match c with
  | NewOrder o =>
      [MSG_NEW_ORDER; encode_side (o_side o)] ++ pad ++ to_le 8 (o_id o) ++
      to_le 8 (o_trader_id o) ++ to_le 8 (o_price o) ++ to_le 8 (o_quantity o)
  | CancelOrder id => [MSG_CANCEL_ORDER] ++ pad ++ to_le 8 id
  end.

Definition pad_size (c : EngineCommand) : nat := match c with NewOrder _ => 6 | CancelOrder _ => 7 end.

Lemma split_field (buf : list Z) n k m :
  m = (n + k)%nat -> drop n buf = take k (drop n buf) ++ drop m buf.
Proof. intros ->. by rewrite <- drop_drop, take_drop. Qed.

Lemma read_u8_Ok buf n b : read_u8 buf n = Ok b -> take 1 (drop n buf) = [b].
Proof.
  unfold read_u8. destruct (buf !! n) as [x|] eqn:Hx; [|done]. intros [= ->].
  by rewrite (drop_S _ _ _ Hx).
Qed.

Lemma decode_side_Ok b s : decode_side b = Ok s -> b = encode_side s.
Proof. unfold decode_side. repeat case_decide; naive_solver. Qed.

Lemma field_u64 buf off :
  bytes_ok buf -> (off + 8 <= length buf)%nat ->
  exists v, read_u64 buf off = Ok v /\ is_u64 v /\ read_i64 buf off = Ok (i64_of_u64 v) /\
       take 8 (drop off buf) = to_le 8 v.
Proof.
  intros Hb Hl. unfold read_u64, read_i64.
  destruct (get_range_ok buf off 8 Hl Hb) as (l & Hg & Hl8 & Hlb). rewrite Hg. cbn [ok_or rbind].
  exists (from_le l). split; [done|]. pose proof (from_le_range l Hlb) as Hr. rewrite Hl8 in Hr.
  split; [exact Hr|]. split; [done|]. pose proof (to_from_le l Hlb) as E. rewrite Hl8 in E. rewrite E.
  unfold get_range in Hg. rewrite decide_True in Hg by done. congruence.
Qed.

Lemma to_le_i64 u : is_u64 u -> to_le 8 (i64_of_u64 u) = to_le 8 u.
Proof.
  intros Hu. assert (i64_of_u64 u mod 2 ^ 64 = u mod 2 ^ 64) as Hm.
  { unfold i64_of_u64. case_decide; [done|].
    replace (u - 2 ^ 64) with (u + (-1) * 2 ^ 64) by lia. by rewrite Z.mod_add. }
  rewrite <- (to_from_le (to_le 8 (i64_of_u64 u))), <- (to_from_le (to_le 8 u)) by apply to_le_ok.
  rewrite !from_to_le, !length_to_le. f_equal. exact Hm.
Qed.

(** The order a decoder builds: the wire carries no timestamp. *)
Lemma decode_layout pad c rest :
  length pad = pad_size c -> command_typed c ->
  decode_message (command_layout pad c ++ rest) = Ok (untimed c).
Proof.
  intros Hp Hc. unfold decode_message. destruct c as [o|id]; simpl in Hp;
    do 6 (destruct pad as [|? pad]; [done|]).
  - destruct pad; [|done]. destruct Hc as [(Hid & Htr & Hpr & Hq & _) Hz].
    unfold decode_new_order. set (buf := command_layout _ _ ++ rest).
    change (read_u8 buf 0) with (@Ok Z ProtocolError MSG_NEW_ORDER).
    change (read_u8 buf 1) with (@Ok Z ProtocolError (encode_side (o_side o))).
    cbn [rbind]. rewrite decode_encode_side, decide_True by done. unfold read_u64, read_i64.
    rewrite decide_False by (unfold buf, NEW_ORDER_SIZE; autorewrite with wire; simpl; lia). cbn [rbind].
    read_fields [to_le 8 (o_id o); to_le 8 (o_trader_id o); to_le 8 (o_price o); to_le 8 (o_quantity o)].
    rewrite from_to_i64, !from_to_u64 by done. by rewrite decide_False.
  - do 2 (destruct pad as [|? pad]; [try done|]); [|done].
    unfold decode_cancel_order. set (buf := command_layout _ _ ++ rest).
    change (read_u8 buf 0) with (@Ok Z ProtocolError MSG_CANCEL_ORDER). cbn [rbind].
    rewrite decide_False, decide_True by done. unfold read_u64.
    rewrite decide_False by (unfold buf, CANCEL_ORDER_SIZE; autorewrite with wire; simpl; lia).
    read_fields [to_le 8 id]. by rewrite from_to_u64.
Qed.

Lemma decode_new_order_bytes o rest :
  order_typed o -> o_quantity o ≠ 0 ->
  decode_message (new_order_bytes o ++ rest) = Ok (NewOrder (set_timestamp 0 o)).
Proof. intros. by apply (decode_layout (replicate 6 0) (NewOrder o) rest). Qed.

Lemma decode_cancel_bytes id rest :
  is_u64 id -> decode_message (cancel_bytes id ++ rest) = Ok (CancelOrder id).
Proof. intros. by apply (decode_layout (replicate 7 0) (CancelOrder id) rest). Qed.

(** A buffer the decoder accepts is such a layout. *)
Lemma decode_new_order_inv buf o :
  bytes_ok buf -> decode_new_order buf = Ok o -> read_u8 buf 0 = Ok MSG_NEW_ORDER ->
  order_typed o /\ o_quantity o ≠ 0 /\ o_timestamp o = 0 /\
  exists pad rest, length pad = 6%nat /\ buf = command_layout pad (NewOrder o) ++ rest.
Proof.
  intros Hb Hd H0%read_u8_Ok. unfold decode_new_order, NEW_ORDER_SIZE in Hd.
  case_decide as Hlen; [done|].
  destruct (read_u8 buf 1) as [sb|] eqn:H1; [|done]. apply read_u8_Ok in H1. simpl in Hd.
  destruct (decode_side sb) as [sd|] eqn:Hs; [|done]. apply decode_side_Ok in Hs as ->. simpl in Hd.
  destruct (field_u64 buf 8 Hb ltac:(lia)) as (id & R1 & Hid & _ & F1).
  destruct (field_u64 buf 16 Hb ltac:(lia)) as (tr & R2 & Htr & _ & F2).
  destruct (field_u64 buf 24 Hb ltac:(lia)) as (pr & _ & Hpr & R3 & F3).
  destruct (field_u64 buf 32 Hb ltac:(lia)) as (qt & R4 & Hqt & _ & F4).
  rewrite R1, R2, R3, R4 in Hd. simpl in Hd. case_decide; [done|]. injection Hd as <-.
  split; [unfold order_typed; simpl; split_and!; auto using i64_of_u64_range; unfold is_u64; lia|].
  split; [done|]. split; [done|]. exists (take 6 (drop 2 buf)), (drop 40 buf).
  split; [rewrite length_take, length_drop; lia|].
  cbn [command_layout o_id o_trader_id o_side o_price o_quantity].
  rewrite to_le_i64, <- F1, <- F2, <- F3, <- F4 by done.
  change (MSG_NEW_ORDER :: ?x) with ([MSG_NEW_ORDER] ++ x).
  change (encode_side sd :: ?x) with ([encode_side sd] ++ x).
  rewrite <- H0, <- H1. rewrite <- !app_assoc, app_nil_l.
  rewrite <- (split_field buf 32 8 40 eq_refl), <- (split_field buf 24 8 32 eq_refl), <- (split_field buf 16 8 24 eq_refl),
    <- (split_field buf 8 8 16 eq_refl), <- (split_field buf 2 6 8 eq_refl), <- (split_field buf 1 1 2 eq_refl).
  by rewrite <- (split_field buf 0 1 1 eq_refl).
Qed.

Lemma decode_cancel_inv buf id :
  bytes_ok buf -> decode_cancel_order buf = Ok id -> read_u8 buf 0 = Ok MSG_CANCEL_ORDER ->
  is_u64 id /\ exists pad rest, length pad = 7%nat /\ buf = command_layout pad (CancelOrder id) ++ rest.
Proof.
  intros Hb Hd H0%read_u8_Ok. unfold decode_cancel_order, CANCEL_ORDER_SIZE in Hd.
  case_decide as Hlen; [done|].
  destruct (field_u64 buf 8 Hb ltac:(lia)) as (v & Hr & Hv & _ & F1).
  rewrite Hr in Hd. injection Hd as <-. split; [done|].
  exists (take 7 (drop 1 buf)), (drop 16 buf). split; [rewrite length_take, length_drop; lia|].
  unfold command_layout. rewrite <- F1, <- H0. rewrite <- !app_assoc.
  rewrite <- (split_field buf 8 8 16 eq_refl), <- (split_field buf 1 7 8 eq_refl). by rewrite <- (split_field buf 0 1 1 eq_refl).
Qed.

Lemma decode_message_inv buf c :
  bytes_ok buf -> decode_message buf = Ok c ->
  command_typed c /\ untimed c = c /\
  exists pad rest, length pad = pad_size c /\ buf = command_layout pad c ++ rest.
Proof.
  intros Hb Hd. unfold decode_message in Hd.
  destruct (read_u8 buf 0) as [t|] eqn:H0; [|done]. simpl in Hd. repeat case_decide; subst.
  - destruct (decode_new_order buf) as [o|] eqn:E; [|done]. injection Hd as <-.
    destruct (decode_new_order_inv _ _ Hb E H0) as (Ht & Hq & Hz & Hl). split; [done|].
    split; [|done]. simpl. f_equal. destruct o; simpl in *. by subst.
  - destruct (decode_cancel_order buf) as [id|] eqn:E; [|done]. injection Hd as <-.
    by destruct (decode_cancel_inv _ _ Hb E H0) as (Ht & Hl).
  - done.
Qed.
