(* ===== verification/ProtocolThm.v ===== *)
(** * ProtocolThm.v: the correctness of the wire protocol *)

From S2P Require Import Prelude.
From S2P Require Import Order.
From S2P Require Import Matching.
From S2P Require Import Protocol.
From S2P Require Import ProtocolInv.

(** The encoder of a command, by its constructor. *)
Definition encode_command (buf : list Z) (c : EngineCommand) : result (list Z * nat) ProtocolError :=
  match c with
  | NewOrder o => encode_new_order buf o
  | CancelOrder id => encode_cancel_order buf id
  end.

Definition message_bytes (c : EngineCommand) : nat :=
  match c with NewOrder _ => NEW_ORDER_SIZE | CancelOrder _ => CANCEL_ORDER_SIZE end.

Lemma encode_command_layout buf c :
  (message_bytes c <= length buf)%nat ->
  encode_command buf c =
    Ok (command_layout (replicate (pad_size c) 0) c ++ drop (message_bytes c) buf, message_bytes c).
Proof. destruct c; intros; [by apply encode_new_order_eq|by apply encode_cancel_eq]. Qed.

Lemma length_layout pad c : length pad = pad_size c -> length (command_layout pad c) = message_bytes c.
Proof. destruct c; intros Hp; cbn [command_layout]; autorewrite with wire; rewrite Hp; reflexivity. Qed.

(** C38. Commands survive the wire: a command encoded into any buffer that has
    room for it keeps the buffer's length and the bytes behind the message,
    its first byte announces the message's size, and decoding the buffer
    gives the command back, less the time stamp, which is not sent.  A buffer
    without room is refused. *)
Theorem command_roundtrip buf c :
  command_typed c ->
  match encode_command buf c with
  | Ok (buf', n) =>
      length buf' = length buf /\ drop n buf' = drop n buf /\
      rbind (read_u8 buf' 0) message_size = Ok n /\ decode_message buf' = Ok (untimed c)
  | Err e => e = BufferTooShort /\ (length buf < message_bytes c)%nat
  end.
Proof.
  intros Hc. destruct (decide (message_bytes c <= length buf)%nat) as [Hl|Hl].
  - rewrite encode_command_layout by done. set (pad := replicate (pad_size c) 0).
    assert (length pad = pad_size c) as Hp by apply length_replicate.
    pose proof (length_layout pad c Hp) as Hlen.
    split; [rewrite length_app, Hlen, length_drop; lia|].
    split; [by rewrite drop_app_length'|]. split; [by destruct c|by apply decode_layout].
  - destruct c; unfold encode_command, encode_new_order, encode_cancel_order; simpl in Hl |- *;
      rewrite decide_True by lia; split; (done || lia).
Qed.

Lemma command_roundtrip_witness :
  exists buf' n, encode_command (replicate 50 255) (NewOrder (mkOrder 1 2 Ask (-7) 5 99)) = Ok (buf', n) /\
    decode_message buf' = Ok (NewOrder (mkOrder 1 2 Ask (-7) 5 0)).
Proof.
  pose proof (command_roundtrip (replicate 50 255) (NewOrder (mkOrder 1 2 Ask (-7) 5 99))) as H.
  destruct (encode_command _ _) as [[buf' n]|e] eqn:E.
  - exists buf', n. split; [reflexivity|]. apply H. repeat split; simpl; unfold_ranges; lia.
  - exfalso. vm_compute in E. discriminate E.
Defined.

(** C39. What the decoder accepts: a buffer decodes to [c] exactly when it starts
    with the layout of [c] (any padding, then anything), [c] being well-typed
    with a positive quantity and no time stamp.  Everything else, short
    buffers, unknown types, bad sides and zero quantities, is refused. *)
Theorem decode_message_accepts buf c :
  bytes_ok buf ->
  decode_message buf = Ok c <->
  command_typed c /\ untimed c = c /\
  exists pad rest, length pad = pad_size c /\ buf = command_layout pad c ++ rest.
Proof.
  intros Hb. split; [by apply decode_message_inv|].
  intros (Hc & Hu & pad & rest & Hp & ->). rewrite decode_layout by done. by rewrite Hu.
Qed.

Lemma decode_message_accepts_witness :
  exists pad rest, length pad = 7%nat /\
    [2; 9; 9; 9; 9; 9; 9; 9; 1; 2; 0; 0; 0; 0; 0; 0; 44] = command_layout pad (CancelOrder 513) ++ rest.
Proof.
  apply (decode_message_accepts [2; 9; 9; 9; 9; 9; 9; 9; 1; 2; 0; 0; 0; 0; 0; 0; 44] (CancelOrder 513)).
  - repeat constructor; unfold_ranges; lia.
  - vm_compute. reflexivity.
Defined.

(** Execution reports survive the wire: a fill published with any sequence
    number and time stamp is read back field by field by a subscriber; the
    encoder overwrites the old report completely, so two buffers of report
    size give the same datagram whatever they held before. *)
Theorem report_roundtrip buf seq_num fill timestamp :
  is_u32 seq_num -> is_u64 (f_taker_order_id fill) -> is_u64 (f_maker_order_id fill) ->
  is_i64 (f_price fill) -> is_u64 (f_quantity fill) -> is_u64 timestamp ->
  length buf = EXECUTION_REPORT_SIZE ->
  exists d, encode_execution_report buf seq_num fill timestamp = Ok (d, EXECUTION_REPORT_SIZE) /\
    bytes_ok d /\ length d = EXECUTION_REPORT_SIZE /\
    decode_execution_report d =
      Ok (mkReport seq_num (f_taker_order_id fill) (f_maker_order_id fill) (f_price fill) (f_quantity fill) timestamp) /\
    forall buf', length buf' = EXECUTION_REPORT_SIZE ->
      encode_execution_report buf' seq_num fill timestamp = Ok (d, EXECUTION_REPORT_SIZE).
Proof.
  intros H1 H2 H3 H4 H5 H6 Hl. exists (report_bytes seq_num fill timestamp ++ []).
  assert (forall b, length b = EXECUTION_REPORT_SIZE ->
            encode_execution_report b seq_num fill timestamp =
            Ok (report_bytes seq_num fill timestamp ++ [], EXECUTION_REPORT_SIZE)) as Henc.
  { intros b Hb. rewrite encode_report_eq by lia. by rewrite drop_ge by lia. }
  split; [by apply Henc|]. split.
  { rewrite app_nil_r. unfold report_bytes, bytes_ok.
    rewrite !Forall_app. repeat (split; [first [apply to_le_ok | by repeat constructor]|]). apply to_le_ok. }
  split; [by rewrite app_nil_r, length_report_bytes|]. split; [by apply decode_report_bytes|exact Henc].
Qed.

Lemma report_roundtrip_witness :
  exists d, encode_execution_report (replicate 48 7) 4294967295 (mkFill 2 1 (-5) 3 true) 8 = Ok (d, 48%nat) /\
    decode_execution_report d = Ok (mkReport 4294967295 2 1 (-5) 3 8).
Proof.
  destruct (report_roundtrip (replicate 48 7) 4294967295 (mkFill 2 1 (-5) 3 true) 8)
    as (d & H1 & _ & _ & H2 & _); [unfold_ranges; simpl; lia..|reflexivity|].
  exists d. split; [exact H1|exact H2].
Defined.
