(* ===== verification/ProtocolTests.v ===== *)
(** * ProtocolTests.v: the unit tests of [src/protocol.rs] *)

From S2P Require Import Prelude.
From S2P Require Import Order.
From S2P Require Import Matching.
From S2P Require Import Protocol.
From S2P Require Import Testing.

#[global] Instance ExecutionReport_eq_dec : EqDecision ExecutionReport.
Proof. solve_decision. Defined.

(** [let mut buf = [0u8; n]; encode(&mut buf, ..).unwrap();] *)
Definition encoded (r : result (list Z * nat) ProtocolError) : option (list Z) :=
  '(buf, _) ← unwrap r; Some buf.

Definition zeros (n : nat) : list Z := replicate n 0.

(** [buf[i] = v] on an index in range. *)
Definition set_byte (buf : list Z) (i : nat) (v : Z) : option (list Z) :=
  if decide (i < length buf)%nat then Some (<[i := v]> buf) else None.

(** [buf[a..b].copy_from_slice(bytes)], of equal lengths. *)
Definition copy_slice (buf : list Z) (a : nat) (bytes : list Z) : option (list Z) := set_range buf a bytes.

Definition roundtrip_new_order_bid : option unit :=
  let order := mkOrder 42 7 Bid 15005 100 0 in
  buf ← encoded (encode_new_order (zeros NEW_ORDER_SIZE) order);
  decoded ← unwrap (decode_new_order buf);
  assert_eq (o_id decoded) 42;;
  assert_eq (o_trader_id decoded) 7;;
  assert_eq (o_side decoded) Bid;;
  assert_eq (o_price decoded) 15005;;
  assert_eq (o_quantity decoded) 100;;
  assert_eq (o_timestamp decoded) 0.

Definition roundtrip_new_order_ask : option unit :=
  let order := mkOrder 99 3 Ask (-500) 1 0 in
  buf ← encoded (encode_new_order (zeros NEW_ORDER_SIZE) order);
  decoded ← unwrap (decode_new_order buf);
  assert_eq (o_side decoded) Ask;;
  assert_eq (o_price decoded) (-500).

Definition roundtrip_cancel_order : option unit :=
  buf ← encoded (encode_cancel_order (zeros CANCEL_ORDER_SIZE) 12345);
  assert_at buf 0 id MSG_CANCEL_ORDER;;
  order_id ← unwrap (decode_cancel_order buf);
  assert_eq order_id 12345.

Definition roundtrip_execution_report : option unit :=
  let fill := mkFill 10 20 9999 50 true in
  buf ← encoded (encode_execution_report (zeros EXECUTION_REPORT_SIZE) 1 fill 123456789);
  report ← unwrap (decode_execution_report buf);
  assert_eq (er_seq_num report) 1;;
  assert_eq (er_taker_order_id report) 10;;
  assert_eq (er_maker_order_id report) 20;;
  assert_eq (er_price report) 9999;;
  assert_eq (er_quantity report) 50;;
  assert_eq (er_timestamp report) 123456789.

Definition side_mapping_bid_is_zero_ask_is_one : option unit :=
  assert_eq (encode_side Bid) 0;;
  assert_eq (encode_side Ask) 1;;
  s0 ← unwrap (decode_side 0);
  assert_eq s0 Bid;;
  s1 ← unwrap (decode_side 1);
  assert_eq s1 Ask.

Definition new_order_buffer_too_short : option unit :=
  assert_eq (decode_new_order (zeros (NEW_ORDER_SIZE - 1))) (Err BufferTooShort).

Definition cancel_order_buffer_too_short : option unit :=
  assert_eq (decode_cancel_order (zeros (CANCEL_ORDER_SIZE - 1))) (Err BufferTooShort).

Definition execution_report_buffer_too_short : option unit :=
  assert_eq (decode_execution_report (zeros (EXECUTION_REPORT_SIZE - 1))) (Err BufferTooShort).

Definition unknown_message_type : option unit :=
  assert_eq (decode_message (replicate NEW_ORDER_SIZE 255)) (Err (UnknownMessageType 255)).

Definition invalid_side : option unit :=
  let buf := zeros NEW_ORDER_SIZE in
  buf ← set_byte buf 0 MSG_NEW_ORDER;
  buf ← set_byte buf 1 2;
  buf ← copy_slice buf 32 (to_le 8 100);
  assert_eq (decode_new_order buf) (Err (InvalidSide 2)).

Definition zero_quantity_rejected : option unit :=
  let buf := zeros NEW_ORDER_SIZE in
  buf ← set_byte buf 0 MSG_NEW_ORDER;
  buf ← set_byte buf 1 0;
  assert_eq (decode_new_order buf) (Err ZeroQuantityMsg).

Definition encode_new_order_buffer_too_short : option unit :=
  let order := mkOrder 1 1 Bid 100 10 0 in
  assert_eq (encode_new_order (zeros (NEW_ORDER_SIZE - 1)) order) (Err BufferTooShort).

Definition encode_execution_report_buffer_too_short : option unit :=
  let fill := mkFill 1 2 100 10 true in
  assert_eq (encode_execution_report (zeros (EXECUTION_REPORT_SIZE - 1)) 1 fill 0) (Err BufferTooShort).

Definition decode_message_dispatches_new_order : option unit :=
  let order := mkOrder 5 3 Ask 200 50 0 in
  buf ← encoded (encode_new_order (zeros NEW_ORDER_SIZE) order);
  cmd ← unwrap (decode_message buf);
  match cmd with
  | NewOrder o => assert_eq (o_id o) 5;; assert_eq (o_side o) Ask
  | _ => None
  end.

Definition decode_message_dispatches_cancel : option unit :=
  buf ← encoded (encode_cancel_order (zeros CANCEL_ORDER_SIZE) 999);
  cmd ← unwrap (decode_message buf);
  assert_eq cmd (CancelOrder 999).

Definition i64_MIN : Z := - 2 ^ 63.
Definition i64_MAX : Z := 2 ^ 63 - 1.
Definition u64_MAX : Z := 2 ^ 64 - 1.

Definition negative_price_roundtrips : option unit :=
  let order := mkOrder 1 1 Bid i64_MIN 1 0 in
  buf ← encoded (encode_new_order (zeros NEW_ORDER_SIZE) order);
  decoded ← unwrap (decode_new_order buf);
  assert_eq (o_price decoded) i64_MIN.

Definition max_values_roundtrip : option unit :=
  let order := mkOrder u64_MAX u64_MAX Ask i64_MAX u64_MAX 0 in
  buf ← encoded (encode_new_order (zeros NEW_ORDER_SIZE) order);
  decoded ← unwrap (decode_new_order buf);
  assert_eq (o_id decoded) u64_MAX;;
  assert_eq (o_trader_id decoded) u64_MAX;;
  assert_eq (o_price decoded) i64_MAX;;
  assert_eq (o_quantity decoded) u64_MAX.

Definition reserved_bytes_ignored : option unit :=
  let order := mkOrder 1 1 Bid 100 10 0 in
  buf ← encoded (encode_new_order (zeros NEW_ORDER_SIZE) order);
  buf ← copy_slice buf 2 (replicate 6 255);
  decoded ← unwrap (decode_new_order buf);
  assert_eq (o_id decoded) 1;;
  assert_eq (o_quantity decoded) 10.

Definition message_size_lookup : option unit :=
  n ← unwrap (message_size MSG_NEW_ORDER);
  assert_eq n NEW_ORDER_SIZE;;
  c ← unwrap (message_size MSG_CANCEL_ORDER);
  assert_eq c CANCEL_ORDER_SIZE;;
  assert_that (negb (is_ok (message_size 255))).

Definition empty_buffer_returns_error : option unit :=
  assert_eq (decode_message []) (Err BufferTooShort).

Lemma protocol_tests_pass :
  suite_passes [roundtrip_new_order_bid; roundtrip_new_order_ask; roundtrip_cancel_order;
    roundtrip_execution_report; side_mapping_bid_is_zero_ask_is_one; new_order_buffer_too_short;
    cancel_order_buffer_too_short; execution_report_buffer_too_short; unknown_message_type;
    invalid_side; zero_quantity_rejected; encode_new_order_buffer_too_short;
    encode_execution_report_buffer_too_short; decode_message_dispatches_new_order;
    decode_message_dispatches_cancel; negative_price_roundtrips; max_values_roundtrip;
    reserved_bytes_ignored; message_size_lookup; empty_buffer_returns_error].
Proof. run_suite. Qed.
