(* ===== verification/Engine.v ===== *)
(** * Engine.v: sequences of commands against the engine

    [exec] is the dispatch of one [EngineCommand] to the matching engine (the
    [match cmd] of [process_command] in [src/gateway.rs] and of
    [replay_command] in [src/recovery.rs]), keeping the result the source
    looks at or drops.  [run] executes a sequence; [spec_run] is the same
    sequence on the abstract book. *)

From S2P Require Import Prelude.
From S2P Require Import Order.
From S2P Require Import Arena.
From S2P Require Import ArenaInv.
From S2P Require Import Book.
From S2P Require Import BookSpec.
From S2P Require Import BookInv.
From S2P Require Import Matching.
From S2P Require Import MatchingSpec.
From S2P Require Import MatchingInv.
From S2P Require Import Protocol.
From S2P Require Import ProtocolInv.

Import MatchingEngine.

Inductive Response : Type :=
| RAdd (r : result AddOrderResult MatchingError)
| RCancel (r : result Order MatchingError).

Definition exec (e : MatchingEngine) (c : EngineCommand) : option (MatchingEngine * Response) :=
  match c with
  | NewOrder o => '(e, r) ← add_order e o; Some (e, RAdd r)
  | CancelOrder id => '(e, r) ← cancel_order e id; Some (e, RCancel r)
  end.

Fixpoint run (e : MatchingEngine) (cs : list EngineCommand) : option (MatchingEngine * list Response) :=
  match cs with
  | [] => Some (e, [])
  | c :: cs => '(e, r) ← exec e c; '(e, rs) ← run e cs; Some (e, r :: rs)
  end.

(** ** The same on the abstract book *)

Definition spec_exec (cap : Z) (sp : SpecBook) (c : EngineCommand) : SpecBook * Response :=
  match c with
  | NewOrder o => let '(sp, _, r) := spec_add cap sp o in (sp, RAdd r)
  | CancelOrder id => let '(sp, r) := spec_cancel sp id in (sp, RCancel (map_err MBook r))
  end.

Fixpoint spec_run (cap : Z) (sp : SpecBook) (cs : list EngineCommand) : SpecBook * list Response :=
  match cs with
  | [] => (sp, [])
  | c :: cs =>
      let '(sp, r) := spec_exec cap sp c in
      let '(sp, rs) := spec_run cap sp cs in (sp, r :: rs)
  end.

(** Fields in the range of their types; the engine refuses a zero quantity
    itself, so it is allowed here. *)
Definition command_in_range (c : EngineCommand) : Prop :=
  match c with NewOrder o => order_typed o | CancelOrder id => is_u64 id end.

#[global] Instance command_in_range_dec c : Decision (command_in_range c).
Proof. destruct c; simpl; apply _. Defined.

(** The engine states a sequence of commands can lead to. *)
Inductive reachable (cap : Z) : MatchingEngine -> Prop :=
| reachable_init : reachable cap (with_capacity cap)
| reachable_exec e c e' r :
    reachable cap e -> command_in_range c -> exec e c = Some (e', r) -> reachable cap e'.

(** ** One command, then all *)

Lemma exec_spec cap e sp c :
  engine_inv cap e sp -> command_in_range c ->
  exists e', exec e c = Some (e', snd (spec_exec cap sp c)) /\
        engine_inv cap e' (fst (spec_exec cap sp c)).
Proof.
  intros Hinv Hc. destruct c as [o|id]; simpl in *.
  - pose proof (add_order_spec cap e sp o Hinv Hc) as H.
    destruct (spec_add cap sp o) as [[sp' fs] r]. destruct H as (e' & -> & H & _). by exists e'.
  - destruct (cancel_order_spec cap e sp id Hinv) as (e' & -> & H & _).
    destruct (spec_cancel sp id) as [sp' r]. by exists e'.
Qed.

Lemma run_spec cap cs e sp :
  engine_inv cap e sp -> Forall command_in_range cs ->
  exists e', run e cs = Some (e', snd (spec_run cap sp cs)) /\
        engine_inv cap e' (fst (spec_run cap sp cs)).
Proof.
  intros Hinv Hcs. revert e sp Hinv. induction Hcs as [|c cs Hc _ IH]; intros e sp Hinv; simpl.
  { by exists e. }
  destruct (exec_spec cap e sp c Hinv Hc) as (e1 & -> & H1). simpl.
  destruct (spec_exec cap sp c) as [sp1 r]. simpl in *.
  destruct (IH e1 sp1 H1) as (e2 & -> & H2). simpl.
  destruct (spec_run cap sp1 cs) as [sp2 rs]. by exists e2.
Qed.

Lemma reachable_inv cap e : 0 <= cap < 2 ^ 32 -> reachable cap e -> exists sp, engine_inv cap e sp.
Proof.
  intros Hcap. induction 1 as [|e c e' r _ [sp IH] Hc Hex].
  - exists sp_empty. by apply with_capacity_inv.
  - destruct (exec_spec cap e sp c IH Hc) as (e1 & He1 & H1). simplify_eq. eauto.
Qed.

Lemma run_reachable cap cs e e' rs :
  reachable cap e -> Forall command_in_range cs -> run e cs = Some (e', rs) -> reachable cap e'.
Proof.
  intros He Hcs. revert e rs He. induction Hcs as [|c cs Hc _ IH]; simpl; intros e rs He H.
  { by simplify_eq. }
  destruct (exec e c) as [[e1 r]|] eqn:E; [|done]. simpl in H.
  destruct (run e1 cs) as [[e2 rs2]|] eqn:E2; [|done]. simplify_eq/=.
  eapply IH; [|done]. by eapply reachable_exec.
Qed.

(** What a book stands for is determined by the book. *)
Lemma sp_all_side sp s :
  (forall s o, o ∈ sp_side sp s -> o_side o = s) ->
  filter (fun o => o_side o = s) (sp_all sp) = sp_side sp s.
Proof.
  intros Hside. unfold sp_all. rewrite filter_app.
  assert (forall s', filter (fun o => o_side o = s) (sp_side sp s') =
                if decide (s' = s) then sp_side sp s' else []) as Hs.
  { intros s'. case_decide as Hd.
    - apply list_filter_all. intros o Ho. by rewrite (Hside _ _ Ho).
    - apply list_filter_none. intros o Ho. by rewrite (Hside _ _ Ho). }
  change (sp_asks sp) with (sp_side sp Ask). change (sp_bids sp) with (sp_side sp Bid).
  rewrite !Hs. destruct s; simpl; [done|apply app_nil_r].
Qed.

Lemma represents_side b sp s o : represents b sp -> o ∈ sp_side sp s -> o_side o = s.
Proof. intros (q & free & R). apply (rep_side _ _ _ _ R). Qed.

Lemma represents_eq b sp sp' : represents b sp -> represents b sp' -> sp = sp'.
Proof.
  intros R R'. pose proof (represents_unique _ _ _ R R') as Hall.
  assert (forall s, sp_side sp s = sp_side sp' s) as Hs.
  { intros s. rewrite <- (sp_all_side sp), <- (sp_all_side sp'), Hall; [done|..];
      intros s' o; by eapply represents_side. }
  pose proof (Hs Bid). pose proof (Hs Ask). destruct sp, sp'. simpl in *. by subst.
Qed.

(** ** Time priority *)

(** The orders of a sequence of commands as they arrive, up to their quantities. *)
Definition arrivals (cs : list EngineCommand) : list Order :=
  omap (fun c => match c with NewOrder o => Some (unfilled o) | CancelOrder _ => None end) cs.

Lemma arrivals_app cs1 cs2 : arrivals (cs1 ++ cs2) = arrivals cs1 ++ arrivals cs2.
Proof. apply omap_app. Qed.

Lemma at_price_unfilled p L : unfilled <$> at_price p L = at_price p (unfilled <$> L).
Proof.
  induction L as [|o L IH]; [done|]. rewrite fmap_cons, !at_price_cons, <- IH.
  change (o_price (unfilled o)) with (o_price o). by case_decide.
Qed.

Lemma at_price_mono p L1 L2 : L1 `sublist_of` L2 -> at_price p L1 `sublist_of` at_price p L2.
Proof.
  induction 1 as [|o L1 L2 _ IH|o L1 L2 _ IH]; [done|..]; rewrite ?at_price_cons; case_decide; try done.
  - by apply sublist_skip.
  - by apply sublist_cons.
Qed.

(** One command: at every price the queue loses orders or gets the new one at
    its end. *)
Lemma spec_exec_queue cap sp c s p :
  (forall s, sorted s (sp_side sp s)) ->
  (unfilled <$> at_price p (sp_side (fst (spec_exec cap sp c)) s))
    `sublist_of` ((unfilled <$> at_price p (sp_side sp s)) ++ arrivals [c]).
Proof.
  intros Hs. destruct c as [o|id]; cbn [spec_exec].
  2:{ unfold spec_cancel. rewrite app_nil_r. destruct (head _); [|done]. destruct s; cbn [fst sp_side sp_bids sp_asks];
      rewrite !at_price_unfilled; apply at_price_mono, fmap_sublist, without_id_sublist. }
  unfold spec_add. case_decide; [by apply sublist_inserts_r|].
  pose proof (spec_match_keeps o (o_quantity o) (sp_side sp (opposite (o_side o)))) as Hk.
  destruct (spec_match _ _ _) as [[[fs L] q] st].
  set (sp1 := sp_set (opposite (o_side o)) L sp).
  assert (forall s, (unfilled <$> at_price p (sp_side sp1 s)) `sublist_of` (unfilled <$> at_price p (sp_side sp s))) as H1.
  { intros s'. unfold sp1. rewrite sp_side_set. case_decide as E; [subst s'|done].
    rewrite !at_price_unfilled. by apply at_price_mono. }
  destruct st; [by apply sublist_inserts_r|]. case_decide; [by apply sublist_inserts_r|].
  unfold spec_insert. cbn [o_id o_side set_quantity]. case_decide; [by apply sublist_inserts_r|].
  case_decide; [by apply sublist_inserts_r|]. cbn [fst]. rewrite sp_side_set. case_decide as E.
  2:{ by apply sublist_inserts_r. }
  subst s. rewrite at_price_insert_prio.
  2:{ unfold sp1. rewrite sp_side_set, decide_False by (by destruct (o_side o)). apply Hs. }
  rewrite fmap_app. apply sublist_app; [apply H1|]. cbn [o_price set_quantity]. case_decide; [done|].
  apply sublist_nil_l.
Qed.

Lemma spec_run_queue cap cs e sp s p :
  engine_inv cap e sp -> Forall command_in_range cs ->
  (unfilled <$> at_price p (sp_side (fst (spec_run cap sp cs)) s))
    `sublist_of` ((unfilled <$> at_price p (sp_side sp s)) ++ arrivals cs).
Proof.
  intros I Hcs. revert e sp I. induction Hcs as [|c cs Hc _ IH]; intros e sp I; cbn [spec_run].
  { by rewrite app_nil_r. }
  destruct (exec_spec cap e sp c I Hc) as (e1 & _ & I1).
  pose proof (spec_exec_queue cap sp c s p (fun s => represents_sorted _ _ s (inv_rep _ _ _ I))) as H1.
  destruct (spec_exec cap sp c) as [sp1 r]. cbn [fst] in *. specialize (IH e1 sp1 I1).
  destruct (spec_run cap sp1 cs) as [sp2 rs]. cbn [fst] in *.
  etransitivity; [exact IH|]. change (c :: cs) with ([c] ++ cs). rewrite arrivals_app, app_assoc.
  by apply sublist_app.
Qed.
