(* ===== verification/EngineThm.v ===== *)
(** * EngineThm.v: the correctness of the matching engine

    The properties of [src/matching.rs], [src/book.rs] and [src/arena.rs] for
    every engine state a sequence of commands can reach: it implements
    price-time priority, never panics, keeps the book uncrossed and its
    accounting exact, and conserves quantity. *)

From S2P Require Import Prelude.
From S2P Require Import Order.
From S2P Require Import Arena.
From S2P Require Import ArenaInv.
From S2P Require Import Book.
From S2P Require Import BookSpec.
From S2P Require Import BookInv.
From S2P Require Import Matching.
From S2P Require Import MatchingSpec.
From S2P Require Import MatchingInv.
From S2P Require Import Protocol.
From S2P Require Import ProtocolInv.
From S2P Require Import Engine.

Import MatchingEngine.

(** ** A concrete session used by the witnesses *)

Definition demo : list EngineCommand :=
  [NewOrder (mkOrder 1 10 Ask 105 5 100); NewOrder (mkOrder 2 11 Ask 105 7 101);
   NewOrder (mkOrder 3 12 Bid 100 4 102); NewOrder (mkOrder 4 13 Bid 105 6 103)].

Definition demo_engine : MatchingEngine :=
  match run (with_capacity 4) demo with Some (e, _) => e | None => with_capacity 4 end.

Lemma demo_reachable : reachable 4 demo_engine.
Proof.
  apply (run_reachable 4 demo (with_capacity 4) demo_engine
           (match run (with_capacity 4) demo with Some (_, rs) => rs | None => [] end)).
  - constructor.
  - repeat constructor; simpl; lia.
  - vm_compute. reflexivity.
Qed.

(** What [add_order] does to a reachable engine, on the abstract book. *)
Lemma reachable_add cap e o :
  0 <= cap < 2 ^ 32 -> reachable cap e -> order_typed o ->
  exists sp e', engine_inv cap e sp /\
    add_order e o = Some (e', snd (spec_add cap sp o)) /\
    engine_inv cap e' (fst (fst (spec_add cap sp o))) /\
    (o_quantity o ≠ 0 -> e_fills_buf e' = snd (fst (spec_add cap sp o))).
Proof.
  intros Hcap He Ho. destruct (reachable_inv _ _ Hcap He) as [sp Hsp]. exists sp.
  pose proof (add_order_spec cap e sp o Hsp Ho) as H.
  destruct (spec_add cap sp o) as [[sp' fs] r]. destruct H as (e' & ? & ? & ?). by exists e'.
Qed.

Lemma engine_inv_orders cap e sp :
  engine_inv cap e sp -> OrderBook.all_resting_orders (e_book e) = Some (sp_all sp).
Proof. intros [R _ _ _]. by apply all_resting_orders_rep. Qed.

Lemma engine_inv_best cap e sp s : engine_inv cap e sp -> best (e_book e) s = sp_best sp s.
Proof. intros [(q & free & R) _ _ _]. by apply (rep_best_price R). Qed.

(** ** Refinement *)

(** C1. The engine refines price-time priority matching: on every sequence of
    in-range commands it returns (no panic, no endless loop) exactly the
    responses of the abstract book, and its book stands for the abstract one. *)
Theorem engine_refines_spec cap cs :
  0 <= cap < 2 ^ 32 -> Forall command_in_range cs ->
  exists e, run (with_capacity cap) cs = Some (e, snd (spec_run cap sp_empty cs)) /\
       represents (e_book e) (fst (spec_run cap sp_empty cs)).
Proof.
  intros Hcap Hcs.
  destruct (run_spec cap cs _ _ (with_capacity_inv cap Hcap) Hcs) as (e & Hr & H).
  exists e. split; [done|]. apply (inv_rep _ _ _ H).
Qed.

Lemma engine_refines_spec_witness :
  0 <= 4 < 2 ^ 32 /\ Forall command_in_range demo /\
  exists e, run (with_capacity 4) demo = Some (e, snd (spec_run 4 sp_empty demo)) /\
       represents (e_book e) (fst (spec_run 4 sp_empty demo)).
Proof.
  assert (Forall command_in_range demo) as H by (repeat constructor; simpl; lia).
  split; [lia|]. split; [exact H|]. apply (engine_refines_spec 4 demo); [lia|exact H].
Defined.

(** ** Invariants of every reachable engine *)

(** C11. The book is never crossed: the cached best bid is below the cached best
    ask after every sequence of commands. *)
Theorem never_crossed cap e pb pa :
  0 <= cap < 2 ^ 32 -> reachable cap e ->
  OrderBook.best_bid (e_book e) = Some pb -> OrderBook.best_ask (e_book e) = Some pa -> pb < pa.
Proof.
  intros Hcap He Hb Ha. destruct (reachable_inv _ _ Hcap He) as [sp Hsp].
  pose proof (engine_inv_best _ _ _ Bid Hsp) as Eb. pose proof (engine_inv_best _ _ _ Ask Hsp) as Ea.
  unfold best in Eb, Ea. rewrite Hb in Eb. rewrite Ha in Ea. unfold sp_best in Eb, Ea.
  pose proof (inv_uncrossed _ _ _ Hsp) as Hu. unfold uncrossed in Hu. simpl in Eb, Ea.
  destruct (sp_bids sp) as [|x]; [done|]. destruct (sp_asks sp) as [|y]; [done|].
  simplify_eq/=. apply Hu; left.
Qed.

Lemma never_crossed_witness :
  OrderBook.best_bid (e_book demo_engine) = Some 100 /\ OrderBook.best_ask (e_book demo_engine) = Some 105 /\
  100 < 105.
Proof.
  split; [vm_compute; reflexivity|]. split; [vm_compute; reflexivity|].
  apply (never_crossed 4 demo_engine); [lia|exact demo_reachable|vm_compute; reflexivity|vm_compute; reflexivity].
Defined.

(** C13. The accounting of the book is exact: the walk over all levels lists
    every resting order once, with distinct ids, as many as the index and the
    arena count, never more than the capacity, each with a positive quantity. *)
Theorem book_accounting cap e :
  0 <= cap < 2 ^ 32 -> reachable cap e ->
  exists os, OrderBook.all_resting_orders (e_book e) = Some os /\ NoDup (o_id <$> os) /\
    OrderBook.order_count (e_book e) = length os /\
    a_count (b_arena (e_book e)) = Z.of_nat (length os) /\ Z.of_nat (length os) <= cap /\
    Forall (fun o => order_typed o /\ 0 < o_quantity o) os.
Proof.
  intros Hcap He. destruct (reachable_inv _ _ Hcap He) as [sp Hsp].
  exists (sp_all sp). split; [by eapply engine_inv_orders|].
  destruct Hsp as [R <- Hok _]. pose proof (represents_fits _ _ R).
  destruct R as (q & free & R). split; [apply (rep_ids _ _ _ _ R)|].
  split; [apply (rep_total _ _ _ _ R)|].
  rewrite (rep_count _ _ _ _ R), (rep_total _ _ _ _ R). split_and!; done.
Qed.

Lemma book_accounting_witness :
  exists os, OrderBook.all_resting_orders (e_book demo_engine) = Some os /\ NoDup (o_id <$> os) /\
    OrderBook.order_count (e_book demo_engine) = length os /\
    a_count (b_arena (e_book demo_engine)) = Z.of_nat (length os) /\ Z.of_nat (length os) <= 4 /\
    Forall (fun o => order_typed o /\ 0 < o_quantity o) os.
Proof. apply (book_accounting 4 demo_engine); [lia|exact demo_reachable]. Defined.

(** C21. Each price level caches the number of its orders and their total
    quantity modulo 2^64, and a level exists exactly when an order rests at
    its price. *)
Theorem level_totals cap e s p os :
  0 <= cap < 2 ^ 32 -> reachable cap e -> OrderBook.all_resting_orders (e_book e) = Some os ->
  let here := filter (fun o => o_side o = s /\ o_price o = p) os in
  match OrderBook.levels (e_book e) s !! p with
  | Some l => here ≠ [] /\ l_count l = Z.of_nat (length here) /\ l_qty l = wrap 64 (sum_qty here)
  | None => here = []
  end.
Proof.
  intros Hcap He Hos. destruct (reachable_inv _ _ Hcap He) as [sp Hsp].
  pose proof (engine_inv_orders _ _ _ Hsp) as E. rewrite Hos in E. injection E as ->.
  destruct Hsp as [R _ _ _].
  assert (filter (fun o => o_side o = s /\ o_price o = p) (sp_all sp) = at_price p (sp_side sp s)) as ->.
  { rewrite <- (sp_all_side sp s) by (intros s' o; by apply (represents_side (e_book e))).
    unfold at_price. rewrite list_filter_filter. apply list_filter_iff. tauto. }
  cbv zeta. destruct R as (q & free & R). rewrite (rep_level _ _ _ _ R).
  pose proof (rep_queue _ _ _ _ R s p) as Hq. pose proof (rep_queue_length R s p) as Hlen.
  unfold level_opt. rewrite (queue_length _ _ _ Hq) in Hlen. destruct (q s p) as [|i l] eqn:E.
  - by apply queue_nil in Hq.
  - destruct Hq as (_ & _ & HF). apply Forall2_cons_inv_l in HF as (o & os' & _ & HF & Ho).
    split; [by rewrite Ho|]. rewrite Ho in *. simpl. apply Forall2_length in HF.
    rewrite HF, wrap_small; [done|simpl in Hlen; lia].
Qed.

Lemma level_totals_witness :
  match OrderBook.levels (e_book demo_engine) Ask !! 105 with
  | Some l => l_count l = 1 /\ l_qty l = 6 | None => False end.
Proof.
  pose proof (level_totals 4 demo_engine Ask 105 [mkOrder 2 11 Ask 105 6 101; mkOrder 3 12 Bid 100 4 102]
    ltac:(lia) demo_reachable ltac:(vm_compute; reflexivity)) as H.
  revert H. vm_compute. tauto.
Defined.

(** ** What [add_order] does *)

(** C9. Quantity is conserved by an accepted order: what the taker asked for is
    what was filled plus a rest, the makers lost exactly what was filled, and
    the rest is in the book unless the order stopped at an own order.  The
    status tells these cases apart. *)
Theorem add_order_conserves cap e o e' res os os' :
  0 <= cap < 2 ^ 32 -> reachable cap e -> order_typed o ->
  add_order e o = Some (e', Ok res) ->
  OrderBook.all_resting_orders (e_book e) = Some os ->
  OrderBook.all_resting_orders (e_book e') = Some os' ->
  r_order_id res = o_id o /\
  exists q, 0 <= q /\ fills_qty (r_fills res) + q = o_quantity o /\
    sum_qty os' + fills_qty (r_fills res) =
      sum_qty os + (if decide (r_status res = CancelledSelfTrade) then 0 else q) /\
    match r_status res with
    | FullyFilled => q = 0
    | PartiallyFilled => 0 < q /\ r_fills res ≠ []
    | Resting => r_fills res = []
    | CancelledSelfTrade => 0 < q
    end.
Proof.
  intros Hcap He Ho Hadd Hos Hos'.
  destruct (reachable_add cap e o Hcap He Ho) as (sp & e1 & Hsp & Hadd' & Hsp' & _).
  rewrite Hadd in Hadd'. injection Hadd' as <- Hres.
  rewrite (engine_inv_orders _ _ _ Hsp) in Hos. rewrite (engine_inv_orders _ _ _ Hsp') in Hos'.
  destruct (spec_add cap sp o) as [[sp' fs] r] eqn:E. simplify_eq/=.
  destruct (spec_add_conserves cap sp o sp' fs res) as (-> & ? & ?); auto. apply (inv_resting _ _ _ Hsp).
Qed.

(** The order used by the witnesses below: a bid that trades with order 2. *)
Definition demo_bid : Order := mkOrder 9 14 Bid 106 8 200.

Lemma demo_bid_typed : order_typed demo_bid.
Proof. unfold order_typed, demo_bid; unfold_ranges; simpl; lia. Qed.

(** The engine and result of adding an order to the demo engine. *)
Definition demo_add (o : Order) : MatchingEngine * result AddOrderResult MatchingError :=
  default (demo_engine, Err ZeroQuantity) (add_order demo_engine o).

Lemma add_order_conserves_witness :
  exists q, 0 <= q /\ 6 + q = 8 /\ sum_qty [mkOrder 9 14 Bid 106 2 200; mkOrder 3 12 Bid 100 4 102] + 6 = 10 + q.
Proof.
  destruct (add_order_conserves 4 demo_engine demo_bid (fst (demo_add demo_bid))
    (mkAddResult 9 PartiallyFilled [mkFill 9 2 105 6 true])
    [mkOrder 2 11 Ask 105 6 101; mkOrder 3 12 Bid 100 4 102]
    [mkOrder 9 14 Bid 106 2 200; mkOrder 3 12 Bid 100 4 102]
    ltac:(lia) demo_reachable demo_bid_typed ltac:(vm_compute; reflexivity)
    ltac:(vm_compute; reflexivity) ltac:(vm_compute; reflexivity)) as (_ & q & H1 & H2 & H3 & _).
  exists q. simpl in *. lia.
Defined.

(** C10. Fills respect price-time priority, after any sequence of commands: the
    makers stand in order of price, best first, and those of one price in the
    order in which the commands brought them (so the oldest first).  The fills
    go, in order, to a prefix of this list; each is positive, at the maker's
    price, within the taker's limit, never with the taker's own order, and all
    makers but the last are filled completely. *)
Theorem add_order_priority cap cs e rs o e' r os :
  0 <= cap < 2 ^ 32 -> Forall command_in_range cs -> run (with_capacity cap) cs = Some (e, rs) ->
  order_typed o -> o_quantity o ≠ 0 ->
  add_order e o = Some (e', r) -> OrderBook.all_resting_orders (e_book e) = Some os ->
  let makers := filter (fun m => o_side m = opposite (o_side o)) os in
  let fills := e_fills_buf e' in
  sorted (opposite (o_side o)) makers /\
  (forall p, (unfilled <$> at_price p makers) `sublist_of` arrivals cs) /\
  Forall (fun f => 0 < f_quantity f /\ crosses (o_side o) (o_price o) (f_price f) /\
                   f_taker_order_id f = o_id o) fills /\
  (exists front back, makers = front ++ back /\
    Forall2 (fun f m => f_maker_order_id f = o_id m /\ f_price f = o_price m /\
                        o_trader_id m ≠ o_trader_id o /\ f_quantity f <= o_quantity m /\
                        f_maker_fully_filled f = bool_decide (f_quantity f = o_quantity m)) fills front) /\
  (forall fs1 f fs2, fills = fs1 ++ f :: fs2 -> fs2 ≠ [] -> f_maker_fully_filled f = true).
Proof.
  intros Hcap Hcs Hrun Ho Hz Hadd Hos. pose proof (with_capacity_inv cap Hcap) as I0.
  destruct (run_spec cap cs _ _ I0 Hcs) as (e0 & Hrun' & Hsp). rewrite Hrun in Hrun'. injection Hrun' as <- _.
  set (s := opposite (o_side o)). pose proof (fun p => spec_run_queue cap cs _ _ s p I0 Hcs) as Hq.
  set (sp := fst (spec_run cap sp_empty cs)) in *.
  pose proof (add_order_spec cap e sp o Hsp Ho) as Hf. rewrite Hadd in Hf.
  rewrite (engine_inv_orders _ _ _ Hsp) in Hos. injection Hos as <-. cbv zeta. fold s.
  pose proof (inv_rep _ _ _ Hsp) as R.
  rewrite (sp_all_side sp s) by (intros s' x; by apply (represents_side (e_book e))).
  pose proof (spec_add_fills cap sp o Hz) as Efs. fold s in Efs.
  destruct (spec_add cap sp o) as [[sp' fs'] r']. destruct Hf as (e1 & [= <- <-] & _ & Hf). rewrite (Hf Hz).
  cbn [fst snd] in Efs. subst fs'.
  pose proof (spec_match_fills o (o_quantity o) (sp_side sp s)) as H1.
  pose proof (spec_match_all_but_last o (o_quantity o) (sp_side sp s)) as H2.
  destruct (spec_match _ _ _) as [[[fs L] q] st]. simpl.
  destruct H1 as [H1 H3]; [apply sp_side_Forall, (inv_resting _ _ _ Hsp)|].
  split; [by apply (represents_sorted (e_book e))|]. split; [|done].
  intros p. specialize (Hq p). by destruct s.
Qed.

(** Two asks at 105, the older one first; a bid takes all of the first and some of
    the second. *)
Definition demo_queue : list EngineCommand :=
  [NewOrder (mkOrder 1 10 Ask 105 5 100); NewOrder (mkOrder 2 11 Ask 105 6 101); NewOrder (mkOrder 3 12 Ask 104 1 102)].
Definition demo_queue_engine : MatchingEngine :=
  match run (with_capacity 4) demo_queue with Some (e, _) => e | None => with_capacity 4 end.

Lemma add_order_priority_witness :
  let makers := [mkOrder 3 12 Ask 104 1 102; mkOrder 1 10 Ask 105 5 100; mkOrder 2 11 Ask 105 6 101] in
  OrderBook.all_resting_orders (e_book demo_queue_engine) = Some makers /\
  (forall p, (unfilled <$> at_price p makers) `sublist_of` arrivals demo_queue) /\
  exists e' r, add_order demo_queue_engine (mkOrder 9 14 Bid 106 8 200) = Some (e', r) /\
    f_maker_order_id <$> e_fills_buf e' = [3; 1; 2] /\
    Forall (fun f => 0 < f_quantity f /\ f_price f <= 106 /\ f_taker_order_id f = 9) (e_fills_buf e').
Proof.
  intros makers. assert (OrderBook.all_resting_orders (e_book demo_queue_engine) = Some makers) as Hos
    by (vm_compute; reflexivity).
  set (add := add_order demo_queue_engine (mkOrder 9 14 Bid 106 8 200)).
  assert (exists e' r, add = Some (e', r) /\ f_maker_order_id <$> e_fills_buf e' = [3; 1; 2]) as (e' & r & Hadd & Hids)
    by (eexists _, _; unfold add; split; [vm_compute; reflexivity|reflexivity]).
  destruct (add_order_priority 4 demo_queue demo_queue_engine
    (match run (with_capacity 4) demo_queue with Some (_, rs) => rs | None => [] end)
    (mkOrder 9 14 Bid 106 8 200) e' r makers) as (_ & H1 & H2 & _).
  - lia.
  - repeat constructor; simpl; unfold_ranges; lia.
  - vm_compute. reflexivity.
  - unfold order_typed; unfold_ranges; simpl; lia.
  - done.
  - exact Hadd.
  - exact Hos.
  - split; [exact Hos|]. split; [exact H1|]. exists e', r. split; [exact Hadd|]. split; [exact Hids|exact H2].
Defined.

(** C22. An order refused with [ArenaFull] has had no effect: no fill was
    executed, the resting orders are the same, and the book was full. *)
Theorem arena_full_no_effect cap e o e' os :
  0 <= cap < 2 ^ 32 -> reachable cap e -> order_typed o ->
  add_order e o = Some (e', Err (MBook ArenaFull)) ->
  OrderBook.all_resting_orders (e_book e) = Some os ->
  e_fills_buf e' = [] /\ OrderBook.all_resting_orders (e_book e') = Some os /\
  Z.of_nat (length os) = cap.
Proof.
  intros Hcap He Ho Hadd Hos.
  destruct (reachable_add cap e o Hcap He Ho) as (sp & e1 & Hsp & Hadd' & Hsp' & Hf).
  rewrite Hadd in Hadd'. injection Hadd' as <- Hr.
  rewrite (engine_inv_orders _ _ _ Hsp) in Hos. injection Hos as <-.
  rewrite (engine_inv_orders _ _ _ Hsp').
  destruct (spec_add cap sp o) as [[sp' fs] r] eqn:E. simpl in *. subst r.
  destruct (decide (o_quantity o = 0)) as [Hz|Hz].
  { unfold spec_add in E. rewrite decide_True in E by done. done. }
  destruct Hsp as [R <- Hok _].
  destruct (spec_add_full _ _ _ _ _ Hok Ho (represents_fits _ _ R) E) as (-> & -> & Hl). auto.
Qed.

Definition demo_full : list EngineCommand :=
  [NewOrder (mkOrder 1 10 Ask 105 5 100); NewOrder (mkOrder 2 11 Bid 100 7 101)].

Definition demo_full_engine : MatchingEngine :=
  match run (with_capacity 2) demo_full with Some (e, _) => e | None => with_capacity 2 end.

Lemma demo_full_reachable : reachable 2 demo_full_engine.
Proof.
  apply (run_reachable 2 demo_full (with_capacity 2) demo_full_engine
           (match run (with_capacity 2) demo_full with Some (_, rs) => rs | None => [] end)).
  - constructor.
  - repeat constructor; simpl; lia.
  - vm_compute. reflexivity.
Qed.

Lemma arena_full_no_effect_witness :
  exists e', add_order demo_full_engine (mkOrder 3 12 Bid 99 1 102) = Some (e', Err (MBook ArenaFull)) /\
  e_fills_buf e' = [] /\
  OrderBook.all_resting_orders (e_book e') = Some [mkOrder 1 10 Ask 105 5 100; mkOrder 2 11 Bid 100 7 101].
Proof.
  set (r := add_order demo_full_engine (mkOrder 3 12 Bid 99 1 102)).
  assert (exists e', r = Some (e', Err (MBook ArenaFull))) as [e' He']
    by (eexists; unfold r; vm_compute; reflexivity).
  exists e'. split; [exact He'|].
  destruct (arena_full_no_effect 2 demo_full_engine (mkOrder 3 12 Bid 99 1 102) e'
    [mkOrder 1 10 Ask 105 5 100; mkOrder 2 11 Bid 100 7 101]) as (H1 & H2 & _);
    [lia|exact demo_full_reachable|unfold order_typed; unfold_ranges; simpl; lia|exact He'
    |vm_compute; reflexivity|]. split; [exact H1|exact H2].
Defined.

(** C23. The errors of [add_order] on a reachable engine: a zero quantity (and
    then nothing changes), a full book, or a duplicate id of an order that
    rests in the book; the internal errors of the book never surface. *)
Theorem add_order_errors cap e o e' err :
  0 <= cap < 2 ^ 32 -> reachable cap e -> order_typed o -> add_order e o = Some (e', Err err) ->
  err = ZeroQuantity /\ o_quantity o = 0 /\ e' = e \/
  err = MBook ArenaFull /\ o_quantity o ≠ 0 \/
  err = MBook (DuplicateOrderId (o_id o)) /\ o_quantity o ≠ 0 /\
    exists os, OrderBook.all_resting_orders (e_book e') = Some os /\ o_id o ∈ o_id <$> os.
Proof.
  intros Hcap He Ho Hadd.
  destruct (reachable_add cap e o Hcap He Ho) as (sp & e1 & Hsp & Hadd' & Hsp' & _).
  pose proof Hadd as Hcopy. rewrite Hadd in Hadd'. injection Hadd' as <- Hr.
  pose proof (engine_inv_orders _ _ _ Hsp') as Hos.
  destruct (spec_add cap sp o) as [[sp' fs] r] eqn:E. simpl in *. subst r.
  apply spec_add_errors in E as [(-> & Hz & _)|[H|(-> & Hz & Hin)]]; [left|by right; left|].
  - unfold add_order in Hcopy. rewrite decide_True in Hcopy by done. by simplify_eq.
  - right; right. eauto.
Qed.

(** An order with the id of order 3, which rests. *)
Lemma add_order_errors_witness :
  exists e' os, add_order demo_engine (mkOrder 3 14 Ask 120 8 200) = Some (e', Err (MBook (DuplicateOrderId 3))) /\
    OrderBook.all_resting_orders (e_book e') = Some os /\ 3 ∈ o_id <$> os.
Proof.
  set (r := add_order demo_engine (mkOrder 3 14 Ask 120 8 200)).
  assert (exists e', r = Some (e', Err (MBook (DuplicateOrderId 3)))) as [e' He']
    by (eexists; unfold r; vm_compute; reflexivity).
  destruct (add_order_errors 4 demo_engine (mkOrder 3 14 Ask 120 8 200) e' (MBook (DuplicateOrderId 3)))
    as [(H & _)|[(H & _)|(_ & _ & os & H1 & H2)]];
    [lia|exact demo_reachable|unfold order_typed; unfold_ranges; simpl; lia|exact He'
    |discriminate H|discriminate H|].
  exists e', os. split; [exact He'|]. split; [exact H1|exact H2].
Defined.

(** Submitting an order with the id of a resting one can execute trades and
    still report an error: the duplicate is only noticed when the rest of the
    order is inserted, after the fills. *)
Theorem duplicate_id_executes_fills :
  exists e o e' os os', reachable 4 e /\ order_typed o /\
    add_order e o = Some (e', Err (MBook (DuplicateOrderId (o_id o)))) /\ e_fills_buf e' ≠ [] /\
    OrderBook.all_resting_orders (e_book e) = Some os /\
    OrderBook.all_resting_orders (e_book e') = Some os' /\ sum_qty os' < sum_qty os.
Proof.
  set (o := mkOrder 3 14 Bid 106 8 200). exists demo_engine, o, (fst (demo_add o)).
  exists [mkOrder 2 11 Ask 105 6 101; mkOrder 3 12 Bid 100 4 102], [mkOrder 3 12 Bid 100 4 102].
  split; [exact demo_reachable|]. split; [unfold order_typed; unfold_ranges; simpl; lia|].
  split; [vm_compute; reflexivity|]. split; [vm_compute; discriminate|].
  split; [vm_compute; reflexivity|]. split; [vm_compute; reflexivity|]. simpl. lia.
Qed.

(** The cached quantity of a level wraps around: two orders of u64::MAX at
    one price leave a level whose quantity is 2^64 - 2. *)
Theorem level_quantity_wraps :
  exists e l, reachable 4 e /\ OrderBook.levels (e_book e) Bid !! 100 = Some l /\
    l_count l = 2 /\ l_qty l = 2 ^ 64 - 2.
Proof.
  set (cs := [NewOrder (mkOrder 1 10 Bid 100 (2 ^ 64 - 1) 0); NewOrder (mkOrder 2 11 Bid 100 (2 ^ 64 - 1) 0)]).
  set (e := match run (with_capacity 4) cs with Some (e, _) => e | None => with_capacity 4 end).
  exists e. eexists. split.
  - apply (run_reachable 4 cs (with_capacity 4) e
             (match run (with_capacity 4) cs with Some (_, rs) => rs | None => [] end)).
    + constructor.
    + repeat constructor; simpl; lia.
    + vm_compute. reflexivity.
  - split; [vm_compute; reflexivity|]. split; reflexivity.
Qed.

(** ** Cancelling *)

(** C14. Cancelling removes exactly the order with that id and returns it; an
    unknown id is reported and changes nothing. *)
Theorem cancel_order_exact cap e id os :
  0 <= cap < 2 ^ 32 -> reachable cap e -> OrderBook.all_resting_orders (e_book e) = Some os ->
  exists e' r, cancel_order e id = Some (e', r) /\
    OrderBook.all_resting_orders (e_book e') = Some (filter (fun o => o_id o ≠ id) os) /\
    r = match head (filter (fun o => o_id o = id) os) with
        | Some o => Ok o
        | None => Err (MBook (OrderNotFound id))
        end.
Proof.
  intros Hcap He Hos. destruct (reachable_inv _ _ Hcap He) as [sp Hsp].
  rewrite (engine_inv_orders _ _ _ Hsp) in Hos. injection Hos as <-.
  destruct (cancel_order_spec _ _ _ id Hsp) as (e' & Hc & Hsp' & _).
  eexists e', _. split; [exact Hc|]. rewrite (engine_inv_orders _ _ _ Hsp').
  destruct (spec_cancel_all sp id) as [-> ->]. split; [done|]. by destruct (head _).
Qed.

Lemma cancel_order_exact_witness :
  exists e' r, cancel_order demo_engine 2 = Some (e', r) /\
    OrderBook.all_resting_orders (e_book e') = Some [mkOrder 3 12 Bid 100 4 102] /\
    r = Ok (mkOrder 2 11 Ask 105 6 101).
Proof.
  exact (cancel_order_exact 4 demo_engine 2 [mkOrder 2 11 Ask 105 6 101; mkOrder 3 12 Bid 100 4 102]
    ltac:(lia) demo_reachable ltac:(vm_compute; reflexivity)).
Defined.

(** Adding an order that rests and cancelling it is a round trip: the order
    comes back as submitted and the book is as before. *)
Theorem add_then_cancel cap e o e' res os :
  0 <= cap < 2 ^ 32 -> reachable cap e -> order_typed o ->
  add_order e o = Some (e', Ok res) -> r_status res = Resting ->
  OrderBook.all_resting_orders (e_book e) = Some os ->
  exists e'', cancel_order e' (o_id o) = Some (e'', Ok o) /\
         OrderBook.all_resting_orders (e_book e'') = Some os.
Proof.
  intros Hcap He Ho Hadd Hst Hos.
  destruct (reachable_add cap e o Hcap He Ho) as (sp & e1 & Hsp & Hadd' & Hsp' & _).
  rewrite Hadd in Hadd'. injection Hadd' as <- Hr.
  rewrite (engine_inv_orders _ _ _ Hsp) in Hos. injection Hos as <-.
  destruct (spec_add cap sp o) as [[sp' fs] r] eqn:E. simpl in *. subst r.
  pose proof (spec_add_resting _ _ _ _ _ _ Ho E Hst) as Hi.
  destruct Hsp as [(q & free & R) _ _ _].
  apply spec_insert_cancel in Hi; [|apply (rep_ids _ _ _ _ R)].
  destruct (cancel_order_spec _ _ _ (o_id o) Hsp') as (e2 & Hc & Hsp2 & _).
  rewrite Hi in Hc, Hsp2. exists e2. split; [done|]. by apply engine_inv_orders in Hsp2.
Qed.

Definition demo_rest : Order := mkOrder 9 14 Bid 101 8 200.

Lemma add_then_cancel_witness :
  exists e'', cancel_order (fst (demo_add demo_rest)) 9 = Some (e'', Ok demo_rest) /\
    OrderBook.all_resting_orders (e_book e'') = Some [mkOrder 2 11 Ask 105 6 101; mkOrder 3 12 Bid 100 4 102].
Proof.
  apply (add_then_cancel 4 demo_engine demo_rest (fst (demo_add demo_rest)) (mkAddResult 9 Resting [])).
  - lia.
  - exact demo_reachable.
  - unfold order_typed, demo_rest; unfold_ranges; simpl; lia.
  - vm_compute. reflexivity.
  - reflexivity.
  - vm_compute. reflexivity.
Defined.

(** ** Restoring *)

(** C24. An engine restored from the canonical list of a reachable engine's
    resting orders is observationally the same: on every later sequence of
    commands both return the same responses and end with the same book. *)
Theorem restore_equivalent cap e os cs :
  0 <= cap < 2 ^ 32 -> reachable cap e -> OrderBook.all_resting_orders (e_book e) = Some os ->
  Forall command_in_range cs ->
  exists er e1 er1 rs, restore_from_orders os cap = Some (Ok er) /\
    run e cs = Some (e1, rs) /\ run er cs = Some (er1, rs) /\
    OrderBook.all_resting_orders (e_book e1) = OrderBook.all_resting_orders (e_book er1).
Proof.
  intros Hcap He Hos Hcs. destruct (reachable_inv _ _ Hcap He) as [sp Hsp].
  rewrite (engine_inv_orders _ _ _ Hsp) in Hos. injection Hos as <-.
  pose proof Hsp as [R Hc Hok Hu].
  destruct (restore_canonical (e_book e) sp cap R ltac:(lia)) as (er & Hr & Rr & Hcr & _).
  assert (engine_inv cap er sp) as Hspr by done.
  destruct (run_spec cap cs _ _ Hsp Hcs) as (e1 & H1 & I1).
  destruct (run_spec cap cs _ _ Hspr Hcs) as (er1 & H2 & I2).
  exists er, e1, er1, (snd (spec_run cap sp cs)). split_and!; try done.
  by rewrite (engine_inv_orders _ _ _ I1), (engine_inv_orders _ _ _ I2).
Qed.

Lemma restore_equivalent_witness :
  exists er e1 er1 rs,
    restore_from_orders [mkOrder 2 11 Ask 105 6 101; mkOrder 3 12 Bid 100 4 102] 4 = Some (Ok er) /\
    run demo_engine [NewOrder demo_bid] = Some (e1, rs) /\ run er [NewOrder demo_bid] = Some (er1, rs) /\
    OrderBook.all_resting_orders (e_book e1) = OrderBook.all_resting_orders (e_book er1).
Proof.
  apply (restore_equivalent 4 demo_engine).
  - lia.
  - exact demo_reachable.
  - vm_compute. reflexivity.
  - repeat constructor; simpl; lia.
Defined.
