(* ===== verification/EngineBounds.v ===== *)
(** * EngineBounds.v: the matching loop ends, and no index leaves the arena

    The number of iterations of the two [while] loops of [add_order], and the
    ranges of the 32-bit links, counters and slot numbers that the arena and the
    levels of a reachable engine store. *)

From S2P Require Import Prelude.
From S2P Require Import Order.
From S2P Require Import Arena.
From S2P Require Import ArenaInv.
From S2P Require Import Book.
From S2P Require Import BookSpec.
From S2P Require Import BookInv.
From S2P Require Import Matching.
From S2P Require Import MatchingSpec.
From S2P Require Import MatchingInv.
From S2P Require Import Protocol.
From S2P Require Import ProtocolInv.
From S2P Require Import Engine.
From S2P Require Import EngineThm.

Import MatchingEngine.

(** ** Iterations *)

(** The loop of [add_order] on the side of the order. *)
Definition matching_loop_of (fuel : nat) (book : OrderBook) (order : Order) : option loop_state :=
  match o_side order with
  | Bid => bid_loop fuel book [] order
  | Ask => ask_loop fuel book [] order
  end.

(** Every iteration but the last records one fill, so a loop that returned does
    the same under every larger bound, and needs exactly that many iterations. *)
Lemma side_loop_iterations s fuel b fills order b' fills' r :
  side_loop s fuel b fills order = Some (b', fills', r) ->
  exists new, fills' = fills ++ new /\ forall fuel', side_loop s fuel' b fills order =
    if decide (length new < fuel')%nat then Some (b', fills', r) else None.
Proof.
  revert b fills order. induction fuel as [|fuel IH]; intros b fills order; [done|].
  enough (side_loop s (S fuel) b fills order = Some (b', fills', r) ->
    exists new, fills' = fills ++ new /\ forall fuel', side_loop s (S fuel') b fills order =
      if decide (length new < S fuel')%nat then Some (b', fills', r) else None) as Hsucc.
  { intros (new & E & Hn)%Hsucc. exists new. split; [done|]. by intros [|fuel']. }
  assert (forall x : option loop_state, x = Some (b', fills', r) -> fills' = fills ->
    exists new, fills' = fills ++ new /\ forall fuel', x =
      if decide (length new < S fuel')%nat then Some (b', fills', r) else None) as Hstop.
  { intros x -> ->. exists []. rewrite app_nil_r. split; [done|]. intros fuel'. by rewrite decide_True by (simpl; lia). }
  cbn [side_loop].
  destruct (decide (o_quantity order > 0)); [|intros E; apply Hstop; by simplify_eq].
  destruct (best b (opposite s)) as [p|]; [|intros E; apply Hstop; by simplify_eq].
  destruct (decide (crosses s (o_price order) p)); [|intros E; apply Hstop; by simplify_eq].
  destruct (OrderBook.peek_front b (opposite s) p) as [[maker|]|]; [| |done]; cbn [mbind option_bind];
    [|intros E; apply Hstop; by simplify_eq].
  destruct (decide (n_trader_id maker = o_trader_id order)); [intros E; apply Hstop; by simplify_eq|].
  destruct (OrderBook.reduce_front_quantity b (opposite s) p _) as [[b1 [rem|err]]|]; [| |done];
    cbn [mbind option_bind]; [|intros E; apply Hstop; by simplify_eq].
  intros (new & -> & Hn)%IH. eexists (_ :: new). rewrite <- app_assoc.
  split; [done|]. intros fuel'. rewrite Hn, <- app_assoc. cbn [length].
  destruct (decide (length new < fuel')%nat); [by rewrite decide_True by lia|by rewrite decide_False by lia].
Qed.

Lemma spec_match_fills_length taker qty L :
  let '(fs, _, _, _) := spec_match taker qty L in (length fs <= length L)%nat.
Proof.
  apply (spec_match_ind taker (fun qty L '(fs, _, _, _) => (length fs <= length L)%nat)); intros; simpl; lia.
Qed.

(** C17. The matching loop of [add_order] ends: on every reachable engine and
    in-range order it does exactly one iteration per fill plus one, there are at
    most as many fills as resting orders, and any larger bound on the number of
    iterations gives the same outcome, which is not an error. *)
Theorem matching_loop_terminates cap e o :
  0 <= cap < 2 ^ 32 -> reachable cap e -> order_typed o ->
  exists b fills rest, (length fills <= OrderBook.order_count (e_book e))%nat /\
    forall fuel, matching_loop_of fuel (e_book e) o =
      if decide (length fills < fuel)%nat then Some (b, fills, Ok rest) else None.
Proof.
  intros Hcap He Ho. destruct (reachable_inv _ _ Hcap He) as [sp [R _ Hok _]]. set (s := o_side o).
  assert (forall fuel, matching_loop_of fuel (e_book e) o = side_loop s fuel (e_book e) [] o) as Hm.
  { intros fuel. unfold matching_loop_of. fold s. destruct s; [apply bid_loop_side|apply ask_loop_side]. }
  pose proof (side_loop_spec _ s (S (length (sp_side sp (opposite s)))) _ sp [] o R eq_refl eq_refl) as Hl.
  pose proof (spec_match_fills_length o (o_quantity o) (sp_side sp (opposite s))) as Hlen.
  destruct (spec_match o (o_quantity o) (sp_side sp (opposite s))) as [[[fs L] q] st].
  destruct Hl as (b1 & Hl & _); [by apply sp_side_Forall|unfold order_typed in Ho; tauto|lia|].
  destruct (side_loop_iterations _ _ _ _ _ _ _ _ Hl) as (new & E & Hf). simpl in E. subst new.
  exists b1, fs, (set_quantity q o, st). split.
  - rewrite (represents_count _ _ R). pose proof (length_side_le sp (opposite s)). lia.
  - intros fuel. rewrite Hm, Hf. done.
Qed.

Lemma matching_loop_terminates_witness :
  exists b fills rest, (length fills <= 2)%nat /\
    forall fuel, matching_loop_of fuel (e_book demo_engine) demo_bid =
      if decide (length fills < fuel)%nat then Some (b, fills, Ok rest) else None.
Proof.
  exact (matching_loop_terminates 4 demo_engine demo_bid ltac:(lia) demo_reachable demo_bid_typed).
Defined.

(** ** Ranges *)

(** A link: null, or a slot of the arena. *)
Definition link_in (cap i : Z) : Prop := i = ARENA_NULL \/ 0 <= i < cap.

Lemma seg_links st p l nx i n cap :
  zlen st = cap -> seg st p l nx -> link_in cap p -> link_in cap nx -> i ∈ l -> vget st i = Some n ->
  link_in cap (n_prev n) /\ link_in cap (n_next n).
Proof.
  intros Hlen. revert p. induction l as [|j l IH]; intros p; simpl; [by intros _ _ _ ?%elem_of_nil|].
  intros [(m & Hm & Hp & Hn) Hs] Lp Lnx Hi Hv.
  assert (forall k x, vget st k = Some x -> 0 <= k < cap) as Hr
    by (intros k x ?%vget_Some_range; unfold zlen in Hlen; lia).
  apply elem_of_cons in Hi as [->|Hi].
  - simplify_eq. split; [done|]. rewrite Hn. destruct l as [|k l]; [done|]. simpl.
    destruct Hs as [(m2 & Hk & _) _]. right. by eapply Hr.
  - apply (IH j Hs); try done. right. by eapply Hr.
Qed.

Lemma free_head_link st h l cap : zlen st = cap -> free_chain st h l -> link_in cap h.
Proof.
  intros Hlen. destruct l as [|i l]; [by left|]. intros (-> & n & ?%vget_Some_range & _). right. unfold zlen in Hlen. lia.
Qed.

(** What a live node and a level may hold. *)
Record node_in_range (cap id : Z) (n : OrderNode) : Prop := {
  nr_id : n_id n = id;
  nr_prev : link_in cap (n_prev n);
  nr_next : link_in cap (n_next n);
  nr_order : order_typed (to_order n);
  nr_quantity : 0 < n_quantity n
}.

Record level_in_range (cap : Z) (l : PriceLevel) : Prop := {
  lr_head : 0 <= l_head l < cap;
  lr_tail : 0 <= l_tail l < cap;
  lr_count : 1 <= l_count l <= cap;
  lr_qty : is_u64 (l_qty l)
}.

Lemma rep_level_in_range b sp q free s p l :
  book_rep b sp q free -> OrderBook.levels b s !! p = Some l -> level_in_range (a_capacity (b_arena b)) l.
Proof.
  intros R. rewrite (rep_level _ _ _ _ R). pose proof (rep_queue _ _ _ _ R s p) as (Hnd & Hs & _).
  pose proof (seg_length _ _ _ _ Hnd Hs) as Hlen. pose proof (rep_queue_length R s p) as H32.
  assert (forall i, i ∈ q s p -> 0 <= i < a_capacity (b_arena b)) as Hr.
  { intros i Hi. destruct (seg_get _ _ _ _ _ Hs Hi) as [n ?%vget_Some_range].
    rewrite (rep_capacity _ _ _ _ R). lia. }
  destruct (q s p) as [|i q'] eqn:Eq; [done|]. intros [= <-]. split; cbn [level_of l_head l_tail l_count l_qty].
  - simpl. apply Hr. left.
  - destruct (last (i :: q')) as [j|] eqn:El; [|by apply last_None in El]. simpl. apply Hr.
    by apply last_Some_elem_of.
  - rewrite wrap_small by lia. rewrite (rep_capacity _ _ _ _ R). simpl in *. lia.
  - apply wrap_range. lia.
Qed.

Lemma rep_node_in_range b sp q free id i :
  book_rep b sp q free -> Forall resting_ok (sp_all sp) -> b_order_index b !! id = Some i ->
  exists n, vget (storage b) i = Some n /\ node_in_range (a_capacity (b_arena b)) id n.
Proof.
  intros R Hok (s & p & o & Hi & Ho & Hid)%(rep_index _ _ _ _ R).
  destruct (rep_slot_order R _ _ _ Hi) as (o' & Ho' & Hin & _). simplify_eq.
  rewrite Forall_forall in Hok. destruct (Hok o) as [Ht Hq]; [by apply elem_of_sp_all; eauto|].
  unfold order_at in Ho. destruct (vget (storage b) i) as [n|] eqn:En; [|done]. simplify_eq/=.
  destruct (rep_queue _ _ _ _ R s p) as (_ & Hs & _).
  destruct (seg_links _ _ _ _ _ _ (a_capacity (b_arena b)) (eq_sym (rep_capacity _ _ _ _ R)) Hs
    (or_introl eq_refl) (or_introl eq_refl) Hi En).
  exists n. split; [done|]. by split.
Qed.

(** C18. No index leaves the arena: in every reachable engine the slot of each
    indexed order is a slot of the arena that holds that order with in-range
    fields, its links and the free list are null or slots, the number of used
    slots is at most the capacity, and the head, tail and count of every price
    level are in range. *)
Theorem indices_in_range cap e :
  0 <= cap < 2 ^ 32 -> reachable cap e ->
  let a := b_arena (e_book e) in
  zlen (a_storage a) = cap /\ a_capacity a = cap /\ 0 <= a_count a <= cap /\ link_in cap (a_free_head a) /\
  (forall id i, b_order_index (e_book e) !! id = Some i ->
     exists n, get a i = Some n /\ node_in_range cap id n) /\
  (forall s p l, OrderBook.levels (e_book e) s !! p = Some l -> level_in_range cap l).
Proof.
  intros Hcap He. destruct (reachable_inv _ _ Hcap He) as [sp [R <- Hok _]].
  pose proof (represents_fits _ _ R) as Hfit. destruct R as (q & free & R). cbv zeta.
  assert (zlen (storage (e_book e)) = a_capacity (b_arena (e_book e))) as Hlen
    by (symmetry; apply (rep_capacity _ _ _ _ R)).
  split; [done|]. split; [done|]. split.
  { rewrite (rep_count _ _ _ _ R), (rep_total _ _ _ _ R). lia. }
  split; [by eapply free_head_link; [|apply (rep_free _ _ _ _ R)]|]. split.
  - intros id i Hi. by eapply rep_node_in_range.
  - intros s p l. by eapply rep_level_in_range.
Qed.

Lemma indices_in_range_witness :
  exists n, get (b_arena (e_book demo_engine)) 1 = Some n /\ node_in_range 4 2 n.
Proof.
  destruct (indices_in_range 4 demo_engine ltac:(lia) demo_reachable) as (_ & _ & _ & _ & H & _).
  apply (H 2 1). vm_compute. reflexivity.
Defined.
