(* ===== verification/Wal.v ===== *)
(** * Wal.v: the write-ahead log ([src/wal.rs])

    The log is a file of aligned records
    [payload_len: u32][crc32: u32][payload][padding].  [w_file] is the content
    of the file; the shared mapping is its first [w_mapped_size] bytes, so a
    store through the mapping changes the file.  [set_len] truncates the file
    or extends it with zeroes.  The checksum ([crc32fast::hash], a crate) is
    the parameter [crc]; whether the system calls of an operation succeed is
    the argument [io].  Offsets and counters (u64) are not wrapped: they are
    bounded by the length of the file, sixteen bytes per record
    ([WalInv.wal_rep_bounds]), and a file is shorter than 2^63 bytes. *)

From S2P Require Import Prelude.
From S2P Require Import Order.
From S2P Require Import Protocol.

Definition HEADER_SIZE : Z := 8.
Definition ALIGNMENT : Z := 8.
Definition DEFAULT_INITIAL_SIZE : Z := 64 * 1024 * 1024.

(** [(n + ALIGNMENT - 1) & !(ALIGNMENT - 1)]. *)
Definition align_up (n : Z) : Z := Z.land (n + ALIGNMENT - 1) (Z.lnot (ALIGNMENT - 1)).

Inductive WalError : Type :=
| WalIo
| WalProtocol (e : ProtocolError)
| Corruption (offset : Z)
| TruncatedRecord (offset : Z).

#[global] Instance WalError_eq_dec : EqDecision WalError.
Proof. solve_decision. Defined.

(** [impl From<io::Error>] and [impl From<ProtocolError> for WalError]. *)
Definition WalError_from_io : WalError := WalIo.
Definition WalError_from (e : ProtocolError) : WalError := WalProtocol e.

Record Wal : Type := mkWal {
  w_file : list Z;
  w_write_pos : Z;
  w_mapped_size : Z;
  w_encode_buf : list Z;
  w_record_count : Z
}.

(** The outcome of the system calls made when the file has to grow. *)
Inductive IoOutcome : Type :=
| IoOk
| SetLenFails
| MapFails.

(** The system calls of [open_with_size], in order. *)
Inductive OpenCall : Type :=
| CallOpen       (* [OpenOptions::open] *)
| CallMetadata   (* [file.metadata()] *)
| CallGrow       (* [file.set_len(initial_size)], only for a short file *)
| CallMap        (* the mapping that is scanned *)
| CallCut        (* [file.set_len(scan.end)] *)
| CallRegrow     (* [file.set_len(mapped_size)] *)
| CallRemap.     (* the final mapping *)

#[global] Instance OpenCall_eq_dec : EqDecision OpenCall.
Proof. solve_decision. Defined.

Record Scan : Type := mkScan { sc_end : Z; sc_count : Z }.

Record WalIterator : Type := mkIter {
  it_mmap : list Z;
  it_read_pos : Z;
  it_end_pos : Z;
  it_current_record : Z;
  it_start_record : Z
}.

(** [File::set_len]. *)
Definition set_len (data : list Z) (n : Z) : list Z :=
  take (Z.to_nat n) data ++ replicate (Z.to_nat (n - zlen data)) 0.

(** The bytes visible through the mapping. *)
Definition w_mmap (w : Wal) : list Z := take (Z.to_nat (w_mapped_size w)) (w_file w).

(** [self.mmap[p..].copy_from_slice(bytes)]: panics outside the mapping. *)
Definition mmap_write (w : Wal) (p : Z) (bytes : list Z) : option Wal :=
  mmap ← splice (w_mmap w) p bytes;
  Some (mkWal (mmap ++ drop (Z.to_nat (w_mapped_size w)) (w_file w))
              (w_write_pos w) (w_mapped_size w) (w_encode_buf w) (w_record_count w)).

Definition set_encode_buf (buf : list Z) (w : Wal) : Wal :=
  mkWal (w_file w) (w_write_pos w) (w_mapped_size w) buf (w_record_count w).

Definition record_count (w : Wal) : Z := w_record_count w.
Definition write_pos (w : Wal) : Z := w_write_pos w.

Section wal.
Context (crc : list Z -> Z).

(** The loop of [scan_records]; every record takes at least sixteen bytes, so
    one step more than the data has bytes is enough. *)
Fixpoint scan_loop (fuel : nat) (data : list Z) (pos count : Z) : option Scan :=
  match fuel with
  | O => None
  | S fuel =>
      if decide (pos + HEADER_SIZE > zlen data) then Some (mkScan pos count)
      else
        len_bytes ← slice data pos 4;
        let payload_len := from_le len_bytes in
        if decide (payload_len = 0) then Some (mkScan pos count)
        else
          let record_size := align_up (HEADER_SIZE + payload_len) in
          if decide (pos + record_size > zlen data) then Some (mkScan pos count)
          else
            crc_bytes ← slice data (pos + 4) 4;
            payload ← slice data (pos + HEADER_SIZE) payload_len;
            if decide (from_le crc_bytes ≠ crc payload) then Some (mkScan pos count)
            else scan_loop fuel data (pos + record_size) (count + 1)
  end.

Definition scan_records (data : list Z) : option Scan :=
  scan_loop (S (length data)) data 0 0.

(** [file] is the content of the file before the call ([[]] when it is
    created). *)
Definition open_with_size (file : list Z) (initial_size : Z) (io : bool)
  : option (result Wal WalError) :=
  if io then
    let file_len := zlen file in
    let '(file, mapped_size) :=
      if decide (file_len < initial_size) then (set_len file initial_size, initial_size)
      else (file, file_len) in
    scan ← scan_records (take (Z.to_nat mapped_size) file);
    let file := set_len file (sc_end scan) in
    let file := set_len file mapped_size in
    Some (Ok (mkWal file (sc_end scan) mapped_size (replicate NEW_ORDER_SIZE 0) (sc_count scan)))
  else Some (Err WalError_from_io).

(** [open_with_size] call by call: the file it leaves behind and its result when
    the system call [fault], if any, fails. *)
Definition open_calls (file : list Z) (initial_size : Z) (fault : option OpenCall)
  : option (list Z * result Wal WalError) :=
  let fails c := bool_decide (fault = Some c) in
  if fails CallOpen || fails CallMetadata then Some (file, Err WalError_from_io)
  else
    let file_len := zlen file in
    if bool_decide (file_len < initial_size) && fails CallGrow then Some (file, Err WalError_from_io)
    else
      let '(file, mapped_size) :=
        if decide (file_len < initial_size) then (set_len file initial_size, initial_size)
        else (file, file_len) in
      if fails CallMap then Some (file, Err WalError_from_io)
      else
        scan ← scan_records (take (Z.to_nat mapped_size) file);
        if fails CallCut then Some (file, Err WalError_from_io)
        else
          let file := set_len file (sc_end scan) in
          if fails CallRegrow then Some (file, Err WalError_from_io)
          else
            let file := set_len file mapped_size in
            if fails CallRemap then Some (file, Err WalError_from_io)
            else
              Some (file, Ok (mkWal file (sc_end scan) mapped_size (replicate NEW_ORDER_SIZE 0) (sc_count scan))).

Definition open (file : list Z) (io : bool) : option (result Wal WalError) :=
  open_with_size file DEFAULT_INITIAL_SIZE io.

Definition ensure_capacity (w : Wal) (needed : Z) (io : IoOutcome) : Wal * result unit WalError :=
  if decide (w_write_pos w + needed <= w_mapped_size w) then (w, Ok tt)
  else
    let new_size := Z.max (w_mapped_size w * 2) (w_write_pos w + needed) in
    match io with
    | SetLenFails => (w, Err WalError_from_io)
    | MapFails =>
        (mkWal (set_len (w_file w) new_size) (w_write_pos w) (w_mapped_size w) (w_encode_buf w)
               (w_record_count w), Err WalError_from_io)
    | IoOk =>
        (mkWal (set_len (w_file w) new_size) (w_write_pos w) new_size (w_encode_buf w)
               (w_record_count w), Ok tt)
    end.

Definition append (w : Wal) (cmd : EngineCommand) (io : IoOutcome)
  : option (Wal * result Z WalError) :=
  match (match cmd with
         | NewOrder order => encode_new_order (w_encode_buf w) order
         | CancelOrder order_id => encode_cancel_order (w_encode_buf w) order_id
         end) with
  | Err e => Some (w, Err (WalError_from e))
  | Ok (buf, payload_len) =>
      let w := set_encode_buf buf w in
      let payload_len := Z.of_nat payload_len in
      let record_size := align_up (HEADER_SIZE + payload_len) in
      let '(w, r) := ensure_capacity w record_size io in
      match r with
      | Err e => Some (w, Err e)
      | Ok _ =>
          let pos := w_write_pos w in
          payload ← slice (w_encode_buf w) 0 payload_len;
          let crc := crc payload in
          w ← mmap_write w pos (to_le 4 payload_len);
          w ← mmap_write w (pos + 4) (to_le 4 crc);
          w ← mmap_write w (pos + HEADER_SIZE) payload;
          let pad_start := pos + HEADER_SIZE + payload_len in
          let pad_end := pos + record_size in
          w ← (if decide (pad_end > pad_start)
               then mmap_write w pad_start (replicate (Z.to_nat (pad_end - pad_start)) 0)
               else Some w);
          let count := w_record_count w + 1 in
          Some (mkWal (w_file w) (pos + record_size) (w_mapped_size w) (w_encode_buf w) count, Ok count)
      end
  end.

Definition iter_from (w : Wal) (start_record : Z) : WalIterator :=
  mkIter (w_mmap w) 0 (w_write_pos w) 0 start_record.

(** [WalIterator::next]: the outer [option] is the panic (or the fuel of the
    skipping loop), the inner one the end of the iteration. *)
Fixpoint next_loop (fuel : nat) (it : WalIterator)
  : option (WalIterator * option (result (Z * EngineCommand) WalError)) :=
  match fuel with
  | O => None
  | S fuel =>
      let pos := it_read_pos it in
      if decide (pos + HEADER_SIZE > it_end_pos it) then Some (it, None)
      else
        len_bytes ← slice (it_mmap it) pos 4;
        let payload_len := from_le len_bytes in
        if decide (payload_len = 0) then Some (it, None)
        else
          let record_size := align_up (HEADER_SIZE + payload_len) in
          if decide (pos + record_size > it_end_pos it) then Some (it, Some (Err (TruncatedRecord pos)))
          else
            crc_bytes ← slice (it_mmap it) (pos + 4) 4;
            payload ← slice (it_mmap it) (pos + HEADER_SIZE) payload_len;
            if decide (from_le crc_bytes ≠ crc payload) then Some (it, Some (Err (Corruption pos)))
            else
              let it := mkIter (it_mmap it) (pos + record_size) (it_end_pos it)
                               (it_current_record it + 1) (it_start_record it) in
              if decide (it_current_record it <= it_start_record it) then next_loop fuel it
              else
                match decode_message payload with
                | Ok cmd => Some (it, Some (Ok (it_current_record it, cmd)))
                | Err e => Some (it, Some (Err (WalProtocol e)))
                end
  end.

Definition next (it : WalIterator)
  : option (WalIterator * option (result (Z * EngineCommand) WalError)) :=
  next_loop (S (length (it_mmap it))) it.

(** [flush_async]: asks the system to write the mapping back; nothing of the log
    changes. *)
Definition flush_async (io : bool) : result unit WalError :=
  if io then Ok tt else Err WalError_from_io.

(** [truncate_to]: clears the log from [offset] on. *)
Definition truncate_to (w : Wal) (offset record_count : Z) : option Wal :=
  let start := offset in
  let stop := w_write_pos w in
  w ← (if decide (stop > start)
       then mmap_write w start (replicate (Z.to_nat (stop - start)) 0) else Some w);
  Some (mkWal (w_file w) offset (w_mapped_size w) (w_encode_buf w) record_count).

End wal.
