(* ===== verification/WalInv.v ===== *)
(** * WalInv.v: the record format and the log's invariant

    A log is a sequence of frames followed by a tail.  [scan_records] finds
    the longest prefix of frames; [wal_rep] says what an open log holds. *)

From S2P Require Import Prelude.
From S2P Require Import Order.
From S2P Require Import Protocol.
From S2P Require Import ProtocolInv.
From S2P Require Import Wal.

(** ** Alignment *)

Lemma align_up_eq n : align_up n = (n + 7) / 8 * 8.
Proof.
  unfold align_up, ALIGNMENT. replace (n + 8 - 1) with (n + 7) by lia.
  change (8 - 1) with (Z.ones 3). rewrite <- Z.ldiff_land, Z.ldiff_ones_r by lia.
  rewrite Z.shiftr_div_pow2, Z.shiftl_mul_pow2 by lia. done.
Qed.

Lemma align_up_bounds n : n <= align_up n < n + 8 /\ exists k, align_up n = 8 * k.
Proof.
  rewrite align_up_eq. split; [|exists ((n + 7) / 8); lia].
  pose proof (Z.div_mod (n + 7) 8). pose proof (Z.mod_pos_bound (n + 7) 8). lia.
Qed.

(** ** Frames *)

Record Frame : Type := mkFrame { fr_payload : list Z; fr_pad : list Z }.

Definition frame_ok (f : Frame) : Prop :=
  0 < zlen (fr_payload f) < 2 ^ 32 /\
  HEADER_SIZE + zlen (fr_payload f) + zlen (fr_pad f) = align_up (HEADER_SIZE + zlen (fr_payload f)).

Section frames.
Context (crc : list Z -> Z).

Definition frame_bytes (f : Frame) : list Z :=
  to_le 4 (zlen (fr_payload f)) ++ to_le 4 (crc (fr_payload f)) ++ fr_payload f ++ fr_pad f.

Definition log_bytes (fs : list Frame) : list Z := concat (frame_bytes <$> fs).

(** Nothing readable starts here. *)
Definition no_frame (tail : list Z) : Prop :=
  forall f rest, frame_ok f -> tail ≠ frame_bytes f ++ rest.

Hypothesis crc_u32 : forall l, is_u32 (crc l).

Lemma zlen_to_le n z : zlen (to_le n z) = Z.of_nat n.
Proof. unfold zlen. by rewrite length_to_le. Qed.

Lemma zlen_frame f : frame_ok f -> zlen (frame_bytes f) = align_up (HEADER_SIZE + zlen (fr_payload f)).
Proof. intros [_ <-]. unfold frame_bytes. rewrite !zlen_app, !zlen_to_le. unfold HEADER_SIZE. lia. Qed.

Lemma zlen_frame_min f : frame_ok f -> 16 <= zlen (frame_bytes f).
Proof.
  intros Hf. rewrite zlen_frame by done. destruct Hf as [Hp _]. unfold HEADER_SIZE.
  destruct (align_up_bounds (8 + zlen (fr_payload f))) as [? [k Hk]]. lia.
Qed.

Lemma log_bytes_app fs1 fs2 : log_bytes (fs1 ++ fs2) = log_bytes fs1 ++ log_bytes fs2.
Proof. unfold log_bytes. by rewrite fmap_app, concat_app. Qed.

Lemma log_bytes_cons f fs : log_bytes (f :: fs) = frame_bytes f ++ log_bytes fs.
Proof. done. Qed.

Lemma log_bytes_snoc fs f : log_bytes (fs ++ [f]) = log_bytes fs ++ frame_bytes f.
Proof. rewrite log_bytes_app, log_bytes_cons. cbn. by rewrite app_nil_r. Qed.

Lemma log_bytes_min fs : Forall frame_ok fs -> 16 * Z.of_nat (length fs) <= zlen (log_bytes fs).
Proof.
  induction 1 as [|f fs Hf _ IH]; [done|]. rewrite log_bytes_cons, zlen_app.
  pose proof (zlen_frame_min f Hf). cbn [length]. lia.
Qed.

(** The three fields read at the start of a frame. *)
Lemma read_frame pre f rest :
  frame_ok f ->
  let data := pre ++ frame_bytes f ++ rest in
  exists len_bytes crc_bytes,
    slice data (zlen pre) 4 = Some len_bytes /\ from_le len_bytes = zlen (fr_payload f) /\
    slice data (zlen pre + 4) 4 = Some crc_bytes /\ from_le crc_bytes = crc (fr_payload f) /\
    slice data (zlen pre + HEADER_SIZE) (zlen (fr_payload f)) = Some (fr_payload f).
Proof.
  intros [Hp _] data. unfold data, frame_bytes.
  exists (to_le 4 (zlen (fr_payload f))), (to_le 4 (crc (fr_payload f))).
  rewrite !from_to_u32 by (apply crc_u32 || (unfold is_u32; lia)).
  split; [|split; [done|split; [|split; [done|]]]].
  - rewrite <- !app_assoc. by apply slice_at; [|rewrite zlen_to_le].
  - rewrite <- !app_assoc, (app_assoc pre). apply slice_at; rewrite ?zlen_app, !zlen_to_le; lia.
  - rewrite <- !app_assoc, (app_assoc pre), (app_assoc (pre ++ _)).
    apply slice_at; rewrite ?zlen_app, ?zlen_to_le; unfold HEADER_SIZE; lia.
Qed.

(** Conversely, fields that pass the checks are a frame. *)
Lemma frame_of_fields pre tail len_bytes crc_bytes payload :
  bytes_ok tail ->
  let data := pre ++ tail in
  slice data (zlen pre) 4 = Some len_bytes -> from_le len_bytes ≠ 0 ->
  zlen pre + align_up (HEADER_SIZE + from_le len_bytes) <= zlen data ->
  slice data (zlen pre + 4) 4 = Some crc_bytes ->
  slice data (zlen pre + HEADER_SIZE) (from_le len_bytes) = Some payload ->
  from_le crc_bytes = crc payload ->
  exists pad rest, frame_ok (mkFrame payload pad) /\
              tail = frame_bytes (mkFrame payload pad) ++ rest.
Proof.
  intros Hb data Hl Hnz Hfit Hc Hp Hcrc. subst data. rewrite zlen_app in Hfit.
  pose proof (align_up_bounds (HEADER_SIZE + from_le len_bytes)) as Hal. unfold HEADER_SIZE in *.
  apply slice_Some in Hl as (p1 & r1 & E1 & L1 & Z1). apply app_zlen_inj in E1 as [<- ->]; [|done].
  rewrite zlen_app in Hfit.
  apply slice_Some in Hc as (p2 & r2 & E2 & L2 & Z2). rewrite app_assoc in E2.
  apply app_zlen_inj in E2 as [<- ->]; [|rewrite zlen_app; lia].
  apply slice_Some in Hp as (p3 & r3 & E3 & L3 & Z3). rewrite !app_assoc in E3.
  rewrite <- (app_assoc _ payload r3) in E3.
  apply app_zlen_inj in E3 as [<- ->]; [|rewrite !zlen_app; lia].
  unfold bytes_ok in Hb. rewrite !Forall_app in Hb. destruct Hb as (B1 & B2 & B3 & B4).
  rewrite !zlen_app in Hfit.
  pose proof (from_le_range _ B1) as Hr.
  assert (length len_bytes = 4%nat /\ length crc_bytes = 4%nat) as [N1 N2] by (unfold zlen in *; lia).
  rewrite N1 in Hr.
  destruct (zlen_split r3 (align_up (8 + zlen payload) - (8 + zlen payload))) as (pad & rest & -> & Hpad).
  { rewrite <- Z3. lia. }
  exists pad, rest. split.
  - unfold frame_ok, HEADER_SIZE. simpl fr_payload. simpl fr_pad. rewrite <- Z3 in *. lia.
  - unfold frame_bytes. simpl fr_payload. simpl fr_pad. rewrite <- Z3, <- Hcrc.
    rewrite <- N1 at 1. rewrite to_from_le by done. rewrite <- N2. rewrite to_from_le by done.
    by rewrite <- !app_assoc.
Qed.

(** ** The scan finds the longest prefix of frames *)

Lemma scan_frame fuel pre f rest count :
  frame_ok f ->
  scan_loop crc (S fuel) (pre ++ frame_bytes f ++ rest) (zlen pre) count =
  scan_loop crc fuel (pre ++ frame_bytes f ++ rest) (zlen pre + zlen (frame_bytes f)) (count + 1).
Proof.
  intros Hf. destruct (read_frame pre f rest Hf) as (lb & cb & H1 & E1 & H2 & E2 & H3).
  pose proof (zlen_frame_min f Hf) as Hmin.
  assert (zlen pre + zlen (frame_bytes f) <= zlen (pre ++ frame_bytes f ++ rest)) as Hfit.
  { rewrite !zlen_app. pose proof (zlen_nonneg rest). lia. }
  revert H1 H2 H3 Hfit. generalize (pre ++ frame_bytes f ++ rest). intros data H1 H2 H3 Hfit.
  cbn [scan_loop]. rewrite decide_False by (unfold HEADER_SIZE; lia).
  rewrite H1. cbn. rewrite E1. pose proof Hf as [Hp _]. rewrite decide_False by lia.
  rewrite <- (zlen_frame f) by done. rewrite decide_False by lia.
  rewrite H2. cbn. rewrite H3. cbn. rewrite E2. rewrite decide_False by tauto. done.
Qed.

Lemma scan_stop fuel pre tail count :
  bytes_ok tail -> no_frame tail ->
  scan_loop crc (S fuel) (pre ++ tail) (zlen pre) count = Some (mkScan (zlen pre) count).
Proof.
  intros Hb Hno. pose proof (zlen_nonneg pre) as Hpre. simpl.
  case_decide as H0; [done|]. unfold HEADER_SIZE in H0.
  destruct (slice_is_Some (pre ++ tail) (zlen pre) 4) as [lb Hl]; [lia..|].
  rewrite Hl. simpl. case_decide as H1; [done|]. case_decide as H2; [done|].
  assert (bytes_ok lb) as Hlb.
  { pose proof Hl as (p1 & r1 & E1 & L1 & _)%slice_Some. apply app_zlen_inj in E1 as [_ ->]; [|done].
    unfold bytes_ok in *. by apply Forall_app in Hb as [? _]. }
  pose proof (from_le_range _ Hlb) as Hr.
  pose proof (align_up_bounds (HEADER_SIZE + from_le lb)) as Hal. unfold HEADER_SIZE in *.
  destruct (slice_is_Some (pre ++ tail) (zlen pre + 4) 4) as [cb Hc]; [lia..|]. rewrite Hc. simpl.
  destruct (slice_is_Some (pre ++ tail) (zlen pre + 8) (from_le lb)) as [pl Hp]; [lia..|].
  rewrite Hp. simpl. case_decide as H3; [done|].
  destruct (frame_of_fields pre tail lb cb pl) as (pad & rest & Hok & E);
    [done|done|done|unfold HEADER_SIZE; lia|done|done|lia|].
  by apply Hno in E.
Qed.

Lemma frame_dec tail :
  bytes_ok tail -> no_frame tail \/ exists f rest, frame_ok f /\ tail = frame_bytes f ++ rest.
Proof.
  intros Hb.
  set (checks := match slice tail 0 4 with
                 | Some lb => match slice tail 4 4, slice tail HEADER_SIZE (from_le lb) with
                              | Some cb, Some pl => from_le lb ≠ 0 /\ from_le cb = crc pl /\
                                                    align_up (HEADER_SIZE + from_le lb) <= zlen tail
                              | _, _ => False
                              end
                 | None => False
                 end).
  assert (Decision checks) as [Hc|Hc] by (unfold checks; repeat case_match; apply _).
  - right. unfold checks in Hc. repeat case_match; try done. destruct Hc as (Hnz & Hcrc & Hfit).
    destruct (frame_of_fields [] tail l l0 l1) as (pad & rest & Hok & E); eauto.
  - left. intros f rest Hf E. apply Hc. unfold checks.
    destruct (read_frame [] f rest Hf) as (lb & cb & H1 & E1 & H2 & E2 & H3).
    rewrite app_nil_l, <- E in *. change (zlen (@nil Z)) with 0 in *. rewrite Z.add_0_l in H2, H3.
    rewrite H1, H2, E1, H3, E2. destruct Hf as [Hp Hpad]. split; [lia|]. split; [done|].
    rewrite <- (zlen_frame f) by (by split). rewrite E, zlen_app. pose proof (zlen_nonneg rest). lia.
Qed.

Lemma scan_loop_spec fuel pre tail count :
  bytes_ok tail -> (length tail < fuel)%nat ->
  exists fs rest, Forall frame_ok fs /\ tail = log_bytes fs ++ rest /\ no_frame rest /\
    scan_loop crc fuel (pre ++ tail) (zlen pre) count =
      Some (mkScan (zlen pre + zlen (log_bytes fs)) (count + Z.of_nat (length fs))).
Proof.
  revert pre tail count. induction fuel as [|fuel IH]; intros pre tail count Hb Hfuel; [lia|].
  destruct (frame_dec tail Hb) as [Hno|(f & rest & Hf & ->)].
  - exists [], tail. split; [done|]. split; [done|]. split; [done|].
    rewrite scan_stop by done. simpl. by rewrite !Z.add_0_r.
  - pose proof (zlen_frame_min f Hf) as Hmin. unfold zlen in Hmin. rewrite length_app in Hfuel.
    unfold bytes_ok in Hb. apply Forall_app in Hb as [_ Hb].
    destruct (IH (pre ++ frame_bytes f) rest (count + 1) Hb ltac:(lia)) as (fs & rest' & Hfs & -> & Hno & Hs).
    exists (f :: fs), rest'. split; [by constructor|].
    split; [by rewrite log_bytes_cons, app_assoc|]. split; [done|].
    rewrite scan_frame by done. rewrite <- zlen_app, (app_assoc pre). rewrite Hs.
    rewrite log_bytes_cons, !zlen_app. f_equal. f_equal; cbn [length]; lia.
Qed.

Lemma scan_records_spec data :
  bytes_ok data ->
  exists fs rest, Forall frame_ok fs /\ data = log_bytes fs ++ rest /\ no_frame rest /\
    scan_records crc data = Some (mkScan (zlen (log_bytes fs)) (Z.of_nat (length fs))).
Proof. intros Hb. apply (scan_loop_spec (S (length data)) [] data 0 Hb). lia. Qed.

(** ** A byte sequence has one reading as a log *)

Lemma frame_inj f f' rest rest' :
  frame_ok f -> frame_ok f' -> frame_bytes f ++ rest = frame_bytes f' ++ rest' ->
  f = f' /\ rest = rest'.
Proof.
  intros Hf Hf' E. unfold frame_bytes in E. rewrite <- !app_assoc in E.
  apply app_zlen_inj in E as [El E]; [|by rewrite !zlen_to_le].
  assert (zlen (fr_payload f) = zlen (fr_payload f')) as Hl.
  { destruct Hf as [Hp _], Hf' as [Hp' _].
    rewrite <- (from_to_u32 (zlen (fr_payload f))), El, from_to_u32; [done|unfold is_u32; lia..]. }
  apply app_zlen_inj in E as [_ E]; [|by rewrite !zlen_to_le].
  apply app_zlen_inj in E as [Ep E]; [|done].
  apply app_zlen_inj in E as [Epad ->].
  - split; [|done]. destruct f, f'; simpl in *. by subst.
  - destruct Hf as [_ Hp], Hf' as [_ Hp']. rewrite Hl in Hp. lia.
Qed.

Lemma log_unique fs fs' rest rest' :
  Forall frame_ok fs -> Forall frame_ok fs' -> no_frame rest -> no_frame rest' ->
  log_bytes fs ++ rest = log_bytes fs' ++ rest' -> fs = fs' /\ rest = rest'.
Proof.
  intros Hfs. revert fs'. induction Hfs as [|f fs Hf Hfs IH]; intros fs' Hfs' Hn Hn' E.
  - destruct Hfs' as [|f' fs' Hf' Hfs']; [done|]. rewrite log_bytes_cons, <- app_assoc in E.
    by apply Hn in E.
  - destruct Hfs' as [|f' fs' Hf' Hfs'].
    + rewrite log_bytes_cons, <- app_assoc in E. symmetry in E. by apply Hn' in E.
    + rewrite !log_bytes_cons, <- !app_assoc in E. apply frame_inj in E as [-> E]; [|done..].
      apply IH in E as [-> ->]; done.
Qed.

(** Reading what was written. *)
Lemma scan_records_log fs rest :
  Forall frame_ok fs -> bytes_ok (log_bytes fs ++ rest) -> no_frame rest ->
  scan_records crc (log_bytes fs ++ rest) = Some (mkScan (zlen (log_bytes fs)) (Z.of_nat (length fs))).
Proof.
  intros Hfs Hb Hno. destruct (scan_records_spec _ Hb) as (fs' & rest' & Hfs' & E & Hno' & Hs).
  by apply log_unique in E as [-> ->].
Qed.

(** Zeroes are not a frame. *)
Lemma no_frame_zeros n : no_frame (replicate n 0).
Proof.
  intros f rest [Hp _] E. unfold frame_bytes in E. rewrite <- !app_assoc in E.
  assert (Forall (eq 0) (to_le 4 (zlen (fr_payload f)))) as Hz.
  { assert (Forall (eq 0) (replicate n 0)) as H by (by apply Forall_replicate).
    rewrite E in H. by apply Forall_app in H as [? _]. }
  pose proof (from_to_u32 (zlen (fr_payload f)) ltac:(unfold is_u32; lia)) as Hv.
  assert (forall l, Forall (eq 0) l -> from_le l = 0) as H0.
  { induction 1 as [|x l <- _ IH]; [done|]. simpl. by rewrite IH. }
  rewrite H0 in Hv by done. lia.
Qed.

End frames.

(** ** Growing and writing the mapped file *)

Lemma set_len_grow data n : zlen data <= n -> set_len data n = data ++ replicate (Z.to_nat (n - zlen data)) 0.
Proof. intros Hn. unfold set_len. unfold zlen in *. by rewrite take_ge by lia. Qed.

Lemma set_len_cut l1 l2 : set_len (l1 ++ l2) (zlen l1) = l1.
Proof.
  unfold set_len. rewrite zlen_app. unfold zlen. rewrite Nat2Z.id, take_app_length.
  replace (Z.to_nat _) with 0%nat by lia. apply app_nil_r.
Qed.

Lemma zlen_set_len data n : 0 <= n -> zlen (set_len data n) = n.
Proof.
  intros Hn. unfold set_len. rewrite zlen_app, zlen_replicate. unfold zlen. rewrite length_take. lia.
Qed.

Definition set_file (file : list Z) (w : Wal) : Wal :=
  mkWal file (w_write_pos w) (w_mapped_size w) (w_encode_buf w) (w_record_count w).

Lemma mmap_write_at w pre old new post :
  w_file w = pre ++ old ++ post -> zlen old = zlen new ->
  zlen pre + zlen new <= w_mapped_size w <= zlen (w_file w) ->
  mmap_write w (zlen pre) new = Some (set_file (pre ++ new ++ post) w).
Proof.
  intros Hf Hl Hm. unfold mmap_write, w_mmap. rewrite Hf in *. rewrite !zlen_app in Hm.
  destruct (zlen_split post (w_mapped_size w - zlen pre - zlen new)) as (p1 & p2 & -> & Hp1); [lia|].
  assert (forall x, zlen x = zlen new ->
            take (Z.to_nat (w_mapped_size w)) (pre ++ x ++ p1 ++ p2) = pre ++ x ++ p1 /\
            drop (Z.to_nat (w_mapped_size w)) (pre ++ x ++ p1 ++ p2) = p2) as Htd.
  { intros x Hx. assert (Z.to_nat (w_mapped_size w) = length (pre ++ x ++ p1)) as ->.
    { rewrite !length_app. unfold zlen in *. lia. }
    replace (pre ++ x ++ p1 ++ p2) with ((pre ++ x ++ p1) ++ p2) by (by rewrite <- !app_assoc).
    by rewrite take_app_length, drop_app_length. }
  destruct (Htd old Hl) as [-> ->]. rewrite splice_at by done. simpl.
  unfold set_file. by rewrite <- !app_assoc.
Qed.

Lemma mmap_write_at' w p pre old new post :
  w_file w = pre ++ old ++ post -> p = zlen pre -> zlen old = zlen new ->
  zlen pre + zlen new <= w_mapped_size w <= zlen (w_file w) ->
  mmap_write w p new = Some (set_file (pre ++ new ++ post) w).
Proof. intros ? ->. apply mmap_write_at. done. Qed.

(** ** The invariant of an open log *)

Section log.
Context (crc : list Z -> Z).
Hypothesis crc_u32 : forall l, is_u32 (crc l).

Record wal_rep (w : Wal) (fs : list Frame) : Prop := {
  wr_frames : Forall frame_ok fs;
  wr_bytes : bytes_ok (log_bytes crc fs);
  (* every byte at or beyond [write_pos] is zero *)
  wr_file : exists n, w_file w = log_bytes crc fs ++ replicate n 0;
  wr_pos : w_write_pos w = zlen (log_bytes crc fs);
  wr_count : w_record_count w = Z.of_nat (length fs);
  wr_mapped : zlen (log_bytes crc fs) <= w_mapped_size w <= zlen (w_file w);
  wr_buf : length (w_encode_buf w) = NEW_ORDER_SIZE
}.

Lemma wal_rep_bounds w fs :
  wal_rep w fs -> 0 <= 16 * w_record_count w <= w_write_pos w /\
                  w_write_pos w <= w_mapped_size w <= zlen (w_file w).
Proof.
  intros R. rewrite (wr_count _ _ R), (wr_pos _ _ R).
  pose proof (log_bytes_min crc fs (wr_frames _ _ R)). pose proof (wr_mapped _ _ R). lia.
Qed.

Lemma bytes_ok_zeros n : bytes_ok (replicate n 0).
Proof. apply Forall_replicate. unfold is_u8. lia. Qed.

(** Opening any file: the log is the longest prefix of frames of the file
    (extended with zeroes to the initial size); the rest is discarded. *)
Lemma open_spec file size :
  bytes_ok file -> 0 <= size ->
  exists w fs rest, open_with_size crc file size true = Some (Ok w) /\ wal_rep w fs /\
    file ++ replicate (Z.to_nat (size - zlen file)) 0 = log_bytes crc fs ++ rest /\
    no_frame crc rest /\ zlen (w_file w) = w_mapped_size w /\ w_mapped_size w = Z.max size (zlen file).
Proof.
  intros Hb Hsize. unfold open_with_size.
  set (data := file ++ replicate (Z.to_nat (size - zlen file)) 0).
  assert (bytes_ok data) as Hbd by (unfold data, bytes_ok; apply Forall_app; split; [done|apply bytes_ok_zeros]).
  assert (zlen data = Z.max size (zlen file)) as Hlen by (unfold data; rewrite zlen_app, zlen_replicate; lia).
  assert ((if decide (zlen file < size) then (set_len file size, size) else (file, zlen file)) =
          (data, zlen data)) as ->.
  { rewrite Hlen. case_decide.
    - rewrite set_len_grow by lia. unfold data. f_equal. lia.
    - unfold data. replace (Z.to_nat (size - zlen file)) with 0%nat by lia. simpl.
      rewrite app_nil_r. f_equal. lia. }
  cbv beta iota zeta.
  assert (take (Z.to_nat (zlen data)) data = data) as ->
    by (unfold zlen; rewrite Nat2Z.id; by apply take_ge).
  destruct (scan_records_spec crc crc_u32 data Hbd) as (fs & rest & Hfs & E & Hno & ->). simpl.
  rewrite E in *. rewrite set_len_cut. pose proof (zlen_nonneg rest).
  rewrite zlen_app in *. eexists _, fs, rest. split; [done|].
  split; [split; simpl|].
  - done.
  - unfold bytes_ok in *. by apply Forall_app in Hbd as [? _].
  - rewrite set_len_grow by lia. eauto.
  - done.
  - done.
  - rewrite zlen_set_len; [lia|]. pose proof (zlen_nonneg (log_bytes crc fs)). lia.
  - done.
  - split; [done|]. split; [done|]. simpl. rewrite zlen_set_len; [done|].
    pose proof (zlen_nonneg (log_bytes crc fs)). lia.
Qed.

(** ** Appending *)

Definition command_bytes (c : EngineCommand) : list Z :=
  match c with NewOrder o => new_order_bytes o | CancelOrder id => cancel_bytes id end.

(** Both payloads fill their record: there is never any padding. *)
Definition command_frame (c : EngineCommand) : Frame := mkFrame (command_bytes c) [].

Lemma command_frame_ok c : frame_ok (command_frame c).
Proof.
  unfold frame_ok, command_frame, zlen. destruct c; simpl fr_payload; simpl command_bytes;
    rewrite ?length_new_order_bytes, ?length_cancel_bytes; simpl; split; done || lia.
Qed.

Lemma zlen_command_bytes c : zlen (command_bytes c) = 40 \/ zlen (command_bytes c) = 16.
Proof.
  unfold zlen. destruct c; simpl command_bytes; rewrite ?length_new_order_bytes, ?length_cancel_bytes; auto.
Qed.

Lemma command_frame_bytes_ok c : Forall is_u8 (frame_bytes crc (command_frame c)).
Proof.
  unfold frame_bytes, command_frame. cbn [fr_payload fr_pad]. rewrite !Forall_app.
  split; [apply to_le_ok|]. split; [apply to_le_ok|]. split; [|done].
  assert (forall n, Forall is_u8 (replicate n 0)) as Hz by apply bytes_ok_zeros.
  destruct c as [o|id]; cbn [command_bytes].
  - unfold new_order_bytes. rewrite !Forall_app. split_and!; try apply to_le_ok; [|apply Hz].
    repeat constructor; unfold_ranges; destruct (o_side o); simpl; unfold MSG_NEW_ORDER; lia.
  - unfold cancel_bytes. rewrite !Forall_app. split_and!; try apply to_le_ok; [|apply Hz].
    repeat constructor; unfold_ranges; unfold MSG_CANCEL_ORDER; lia.
Qed.

Lemma encode_command_eq buf c :
  length buf = NEW_ORDER_SIZE ->
  (match c with
   | NewOrder order => encode_new_order buf order
   | CancelOrder order_id => encode_cancel_order buf order_id
   end) = Ok (command_bytes c ++ drop (length (command_bytes c)) buf, length (command_bytes c)).
Proof.
  intros Hl. destruct c; simpl command_bytes.
  - rewrite encode_new_order_eq by lia. by rewrite length_new_order_bytes.
  - rewrite encode_cancel_eq by (rewrite Hl; unfold CANCEL_ORDER_SIZE, NEW_ORDER_SIZE; lia).
    by rewrite length_cancel_bytes.
Qed.

(** Whether an append has to grow the file. *)
Definition must_grow (w : Wal) (c : EngineCommand) : Prop :=
  w_mapped_size w < w_write_pos w + align_up (HEADER_SIZE + zlen (command_bytes c)).

Lemma ensure_capacity_spec w fs needed io w' r :
  wal_rep w fs -> 0 <= needed -> ensure_capacity w needed io = (w', r) ->
  wal_rep w' fs /\ w_encode_buf w' = w_encode_buf w /\
  (r = Ok tt /\ w_write_pos w' + needed <= w_mapped_size w' /\
     (w_mapped_size w < w_write_pos w + needed -> io = IoOk) \/
   r = Err WalIo /\ w_mapped_size w < w_write_pos w + needed /\ io ≠ IoOk).
Proof.
  intros R Hn. unfold ensure_capacity. case_decide as Hd.
  { intros [= <- <-]. split; [done|]. split; [done|]. left. split_and!; [done|done|lia]. }
  destruct R as [Hfs Hb [n Hfile] Hpos Hcnt Hm Hbuf].
  set (size := Z.max _ _). pose proof (zlen_nonneg (log_bytes crc fs)) as Hnn.
  assert (exists k, set_len (w_file w) size = log_bytes crc fs ++ replicate k 0) as [k Hk].
  { unfold set_len. rewrite Hfile. rewrite take_app_ge by (unfold zlen in *; lia).
    rewrite take_replicate, <- app_assoc, <- replicate_add. eauto. }
  assert (zlen (set_len (w_file w) size) = size) as Hz by (apply zlen_set_len; lia).
  destruct io; intros [= <- <-].
  - split; [split; simpl; eauto; lia|]. split; [done|]. left. simpl. split_and!; [done|lia|done].
  - split; [by split; eauto|]. split; [done|]. right. split_and!; [done|lia|done].
  - split; [split; simpl; eauto; lia|]. split; [done|]. right. split_and!; [done|lia|done].
Qed.

(** One store of [append], at the end of [pre]. *)
Ltac write_at pre old new post :=
  etransitivity;
    [apply (mmap_write_at' _ _ pre old new post); cbn [w_file w_mapped_size set_file];
      rewrite ?zlen_app, ?zlen_replicate, ?zlen_to_le; rewrite <- ?app_assoc; done || (unfold zlen in *; lia)
    |by rewrite <- !app_assoc].

(** The stores of [append] put one frame at the write position. *)
Lemma write_frame w fs c :
  wal_rep w fs -> w_write_pos w + align_up (HEADER_SIZE + zlen (command_bytes c)) <= w_mapped_size w ->
  let pos := w_write_pos w in let p := command_bytes c in
  exists n w1 w2 w3, mmap_write w pos (to_le 4 (zlen p)) = Some w1 /\
    mmap_write w1 (pos + 4) (to_le 4 (crc p)) = Some w2 /\
    mmap_write w2 (pos + HEADER_SIZE) p = Some w3 /\
    w3 = set_file (log_bytes crc (fs ++ [command_frame c]) ++ replicate n 0) w /\
    zlen (w_file w3) = zlen (w_file w).
Proof.
  intros R Hroom pos p. pose proof R as [Hfs Hb [n Hfile] Hpos Hcnt Hm Hbuf].
  pose proof (command_frame_ok c) as [_ Hal]. simpl fr_payload in Hal. simpl fr_pad in Hal.
  change (zlen (@nil Z)) with 0 in Hal. fold p in Hal, Hroom. unfold HEADER_SIZE in *.
  assert (zlen (w_file w) = zlen (log_bytes crc fs) + Z.of_nat n) as Hlen
    by (by rewrite Hfile, zlen_app, zlen_replicate).
  pose proof (zlen_nonneg p) as Hp0. set (k := (n - 8 - length p)%nat).
  assert (n = (4 + (4 + (length p + k)))%nat) as Hn by (unfold k, zlen in *; lia).
  assert (forall x : list Z, zlen (replicate (length x) 0) = zlen x) as Hrep by (intros; apply zlen_replicate).
  rewrite Hn, !replicate_add in Hfile. unfold pos. rewrite Hpos in *.
  set (L := log_bytes crc fs) in *. set (l4 := to_le 4 (zlen p)). set (c4 := to_le 4 (crc p)).
  assert (zlen l4 = 4) as H4 by apply zlen_to_le. assert (zlen c4 = 4) as H4' by apply zlen_to_le.
  exists k, (set_file (L ++ l4 ++ replicate 4 0 ++ replicate (length p) 0 ++ replicate k 0) w),
    (set_file (L ++ l4 ++ c4 ++ replicate (length p) 0 ++ replicate k 0) w), 
    (set_file (L ++ l4 ++ c4 ++ p ++ replicate k 0) w).
  split; [|split; [|split; [|split]]].
  - apply (mmap_write_at w L (replicate 4 0) l4); [done|by rewrite H4|lia].
  - write_at (L ++ l4) (replicate 4 0) c4 (replicate (length p) 0 ++ replicate k 0).
  - write_at (L ++ l4 ++ c4) (replicate (length p) 0) p (replicate k 0).
  - f_equal. rewrite log_bytes_snoc. unfold frame_bytes, command_frame. simpl fr_payload. simpl fr_pad.
    fold L p l4 c4. by rewrite app_nil_r, <- !app_assoc.
  - cbn [w_file set_file]. rewrite Hlen, !zlen_app, zlen_replicate, H4, H4'. unfold zlen. lia.
Qed.

Lemma append_spec w fs c io :
  wal_rep w fs ->
  exists w', append crc w c io = Some (w', Ok (w_record_count w + 1)) /\
        wal_rep w' (fs ++ [command_frame c]) /\ (must_grow w c -> io = IoOk) \/
        append crc w c io = Some (w', Err WalIo) /\ wal_rep w' fs /\ must_grow w c /\ io ≠ IoOk.
Proof.
  intros R. unfold append. rewrite encode_command_eq by apply R.
  set (buf := command_bytes c ++ _). set (p := command_bytes c).
  change (Z.of_nat (length p)) with (zlen p).
  assert (length buf = NEW_ORDER_SIZE) as Hbuf.
  { unfold buf. rewrite length_app, length_drop, (wr_buf _ _ R).
    destruct (zlen_command_bytes c) as [H|H]; unfold zlen, NEW_ORDER_SIZE in *; lia. }
  assert (wal_rep (set_encode_buf buf w) fs) as R0 by (destruct R; by split).
  assert (0 <= align_up (HEADER_SIZE + zlen p)) as Hrs.
  { pose proof (align_up_bounds (HEADER_SIZE + zlen p)). pose proof (zlen_nonneg p).
    unfold HEADER_SIZE in *. lia. }
  destruct (ensure_capacity _ _ io) as [w1 r] eqn:E.
  pose proof (ensure_capacity_spec _ _ _ _ _ _ R0 Hrs E) as (R1 & Hb1 & [(-> & Hroom & Hg)|(-> & Hg & Hio)]).
  2:{ exists w1. right. done. }
  destruct (write_frame w1 fs c R1 Hroom) as (n & w2 & w3 & w4 & H2 & H3 & H4 & Hw4 & Hlen4).
  fold p in H2, H3, H4.
  assert (slice (w_encode_buf w1) 0 (zlen p) = Some p) as Hsl.
  { rewrite Hb1. cbn [w_encode_buf set_encode_buf]. unfold buf. rewrite <- (app_nil_l (command_bytes c ++ _)).
    by apply slice_at. }
  rewrite Hsl. cbn [mbind option_bind]. rewrite H2. cbn [mbind option_bind]. rewrite H3. cbn [mbind option_bind]. rewrite H4. cbn [mbind option_bind].
  pose proof (command_frame_ok c) as Hok. pose proof Hok as [_ Hal]. simpl fr_payload in Hal. fold p in Hal.
  simpl fr_pad in Hal. change (zlen (@nil Z)) with 0 in Hal.
  rewrite decide_False by lia. cbn [mbind option_bind]. rewrite Hw4.
  eexists. left. cbn [set_file w_file w_mapped_size w_encode_buf w_record_count].
  assert (w_record_count w1 = w_record_count w) as -> by (by rewrite (wr_count _ _ R1), (wr_count _ _ R)).
  split; [done|]. split; [|done].
  assert (zlen (log_bytes crc (fs ++ [command_frame c])) = w_write_pos w1 + align_up (HEADER_SIZE + zlen p)) as Hz.
  { rewrite log_bytes_snoc, zlen_app, (zlen_frame crc _ Hok), (wr_pos _ _ R1). done. }
  split; cbn [w_file w_write_pos w_mapped_size w_encode_buf w_record_count].
  - apply Forall_app. split; [apply R1|by constructor].
  - unfold bytes_ok. rewrite log_bytes_snoc. apply Forall_app. split; [apply R1|].
    apply command_frame_bytes_ok.
  - eauto.
  - done.
  - rewrite (wr_count _ _ R), length_app. simpl. lia.
  - rewrite Hw4 in Hlen4. cbn [w_file set_file] in Hlen4. rewrite Hlen4, Hz.
    pose proof (wr_mapped _ _ R1). lia.
  - by rewrite Hb1.
Qed.

(** ** Iterating *)

(** The iterator stands after the frames [fs1]; [fs2] is still to be read. *)
Record it_at (it : WalIterator) (fs1 fs2 : list Frame) : Prop := {
  ia_frames : Forall frame_ok fs2;
  ia_data : exists tail, it_mmap it = log_bytes crc fs1 ++ log_bytes crc fs2 ++ tail;
  ia_pos : it_read_pos it = zlen (log_bytes crc fs1);
  ia_end : it_end_pos it = zlen (log_bytes crc fs1) + zlen (log_bytes crc fs2);
  ia_current : it_current_record it = Z.of_nat (length fs1)
}.

Lemma iter_from_at w fs start : wal_rep w fs -> it_at (iter_from w start) [] fs.
Proof.
  intros R. pose proof R as [Hfs Hb [n Hfile] Hpos Hcnt Hm Hbuf].
  split; cbn [iter_from it_mmap it_read_pos it_end_pos it_current_record]; try done.
  unfold w_mmap. rewrite Hfile. rewrite take_app_ge by (unfold zlen in *; lia). eauto.
Qed.

(** What one record yields. *)
Definition record_item (n : Z) (f : Frame) : result (Z * EngineCommand) WalError :=
  match decode_message (fr_payload f) with Ok c => Ok (n, c) | Err e => Err (WalProtocol e) end.

Definition advance (it : WalIterator) (f : Frame) : WalIterator :=
  mkIter (it_mmap it) (it_read_pos it + zlen (frame_bytes crc f)) (it_end_pos it)
         (it_current_record it + 1) (it_start_record it).

Lemma advance_at it fs1 f fs2 : it_at it fs1 (f :: fs2) -> it_at (advance it f) (fs1 ++ [f]) fs2.
Proof.
  intros [Hfs [tail Hd] Hp He Hc].
  split; cbn [advance it_mmap it_read_pos it_end_pos it_current_record].
  - by apply Forall_cons in Hfs as [_ ?].
  - exists tail. by rewrite Hd, log_bytes_snoc, log_bytes_cons, <- !app_assoc.
  - by rewrite Hp, log_bytes_snoc, zlen_app.
  - rewrite He, log_bytes_snoc, log_bytes_cons, !zlen_app. lia.
  - rewrite Hc, length_app. simpl. lia.
Qed.

Lemma next_loop_end fuel it fs1 :
  it_at it fs1 [] -> next_loop crc (S fuel) it = Some (it, None).
Proof.
  intros [_ _ Hp He _]. cbn [next_loop]. rewrite decide_True; [done|].
  rewrite Hp, He. change (zlen (log_bytes crc [])) with 0. unfold HEADER_SIZE. lia.
Qed.

(** A valid record where the iterator stands, whatever follows it. *)
Lemma next_loop_read fuel it pre f rest :
  frame_ok f -> it_mmap it = pre ++ frame_bytes crc f ++ rest -> it_read_pos it = zlen pre ->
  zlen pre + zlen (frame_bytes crc f) <= it_end_pos it ->
  next_loop crc (S fuel) it =
    (if decide (it_current_record it + 1 <= it_start_record it) then next_loop crc fuel (advance it f)
     else Some (advance it f, Some (record_item (it_current_record it + 1) f))).
Proof.
  intros Hf Hd Hp He. pose proof (zlen_frame_min crc f Hf) as Hmin.
  destruct (read_frame crc crc_u32 pre f rest Hf) as (lb & cb & H1 & E1 & H2 & E2 & H3).
  rewrite <- Hd, <- Hp in H1, H2, H3. cbn [next_loop].
  rewrite decide_False by (unfold HEADER_SIZE; lia). rewrite H1. cbn [mbind option_bind].
  rewrite E1. pose proof Hf as [Hpl _]. rewrite decide_False by lia.
  rewrite <- (zlen_frame crc f Hf). rewrite decide_False by lia.
  rewrite H2. cbn [mbind option_bind]. rewrite H3. cbn [mbind option_bind]. rewrite E2.
  rewrite decide_False by tauto. cbn [it_current_record it_start_record].
  case_decide; [done|]. unfold record_item. by destruct (decode_message (fr_payload f)).
Qed.

Lemma next_loop_frame fuel it fs1 f fs2 :
  it_at it fs1 (f :: fs2) ->
  next_loop crc (S fuel) it =
    (if decide (it_current_record it + 1 <= it_start_record it) then next_loop crc fuel (advance it f)
     else Some (advance it f, Some (record_item (it_current_record it + 1) f))).
Proof.
  intros [Hfs [tail Hd] Hp He Hc]. apply Forall_cons in Hfs as [Hf Hfs].
  rewrite log_bytes_cons in Hd, He. rewrite <- app_assoc in Hd. rewrite zlen_app in He.
  pose proof (zlen_nonneg (log_bytes crc fs2)).
  eapply next_loop_read; [done|exact Hd|done|lia].
Qed.

Lemma next_spec fs2 fuel it fs1 :
  it_at it fs1 fs2 -> (length fs2 < fuel)%nat ->
  let k := Z.to_nat (it_start_record it - it_current_record it) in
  match drop k fs2 with
  | [] => exists it', next_loop crc fuel it = Some (it', None)
  | f :: fs3 => exists it', it_at it' (fs1 ++ take k fs2 ++ [f]) fs3 /\
                  it_start_record it' = it_start_record it /\ it_mmap it' = it_mmap it /\
                  next_loop crc fuel it = Some (it', Some (record_item (it_current_record it') f))
  end.
Proof.
  revert fuel it fs1. induction fs2 as [|f fs2 IH]; intros fuel it fs1 Hit Hfuel k;
    (destruct fuel as [|fuel]; [simpl in Hfuel; lia|]).
  - rewrite drop_nil. exists it. by eapply next_loop_end.
  - rewrite (next_loop_frame _ _ _ _ _ Hit). pose proof (advance_at _ _ _ _ Hit) as Hadv.
    case_decide as Hd.
    + specialize (IH fuel (advance it f) (fs1 ++ [f]) Hadv ltac:(simpl in Hfuel; lia)). simpl in IH.
      assert (k = S (Z.to_nat (it_start_record it - (it_current_record it + 1)))) as -> by lia.
      simpl. destruct (drop _ fs2) as [|g fs3]; [done|].
      destruct IH as (it' & Ha & Hs & Hm & Hn). exists it'. by rewrite <- app_assoc in Ha.
    + assert (k = 0%nat) as -> by lia. simpl. exists (advance it f). done.
Qed.

Lemma length_log_data it fs1 fs2 : it_at it fs1 fs2 -> (length fs2 <= length (it_mmap it))%nat.
Proof.
  intros [Hfs [tail ->] _ _ _]. rewrite !length_app.
  pose proof (log_bytes_min crc fs2 Hfs). unfold zlen in *. lia.
Qed.

End log.
