(* ===== verification/WalThm.v ===== *)
(** * WalThm.v: the correctness of the write-ahead log

    What opening an arbitrary file recovers, that appended commands are read
    back after a reopen, and which damage to the file the log survives. *)

From S2P Require Import Prelude.
From S2P Require Import Order.
From S2P Require Import Matching.
From S2P Require Import Protocol.
From S2P Require Import ProtocolInv.
From S2P Require Import Wal.
From S2P Require Import WalInv.

(** ** Sequences of appends, and all items of an iterator *)

Section sequences.
Context (crc : list Z -> Z).

(** Append the commands; every system call succeeds. *)
Fixpoint append_all (w : Wal) (cs : list EngineCommand) : option (result Wal WalError) :=
  match cs with
  | [] => Some (Ok w)
  | c :: cs =>
      '(w, r) ← append crc w c IoOk;
      match r with Ok _ => append_all w cs | Err e => Some (Err e) end
  end.

(** The items [next] returns until it ends. *)
Fixpoint collect (fuel : nat) (it : WalIterator)
  : option (list (result (Z * EngineCommand) WalError)) :=
  match fuel with
  | O => None
  | S fuel =>
      '(it, item) ← next crc it;
      match item with
      | None => Some []
      | Some r => rs ← collect fuel it; Some (r :: rs)
      end
  end.

(** Every record of the log after number [start]. *)
Definition records_from (w : Wal) (start : Z) : option (list (result (Z * EngineCommand) WalError)) :=
  collect (S (length (w_mmap w))) (iter_from w start).

(** Records numbered from [n + 1]. *)
Fixpoint numbered (n : Z) (cs : list EngineCommand) : list (result (Z * EngineCommand) WalError) :=
  match cs with [] => [] | c :: cs => Ok (n + 1, c) :: numbered (n + 1) cs end.

(** The states of a log: any file opened, then appends, failed or not, and
    truncations to the end of any record ([off] and [n] are what scanning the
    bytes kept gives). *)
Inductive log_reachable : Wal -> Prop :=
| log_open file size w :
    bytes_ok file -> 0 <= size -> open_with_size crc file size true = Some (Ok w) -> log_reachable w
| log_append w c io w' r :
    log_reachable w -> append crc w c io = Some (w', r) -> log_reachable w'
| log_truncate w off n w' :
    log_reachable w -> scan_records crc (take (Z.to_nat off) (w_file w)) = Some (mkScan off n) ->
    truncate_to w off n = Some w' -> log_reachable w'.

Hypothesis crc_u32 : forall l, is_u32 (crc l).

Lemma append_all_spec cs w fs :
  wal_rep crc w fs ->
  exists w', append_all w cs = Some (Ok w') /\ wal_rep crc w' (fs ++ (command_frame <$> cs)).
Proof.
  revert w fs. induction cs as [|c cs IH]; intros w fs R; simpl.
  { exists w. by rewrite app_nil_r. }
  destruct (append_spec crc w fs c IoOk R) as (w' & [(-> & R' & _)|(_ & _ & _ & H)]); [|done].
  simpl. destruct (IH w' _ R') as (w2 & -> & R2). exists w2. by rewrite <- app_assoc in R2.
Qed.

Lemma collect_spec fs2 fuel it fs1 :
  it_at crc it fs1 fs2 -> (length fs2 < fuel)%nat ->
  it_start_record it <= it_current_record it ->
  exists rs, collect fuel it = Some rs /\
    rs = imap (fun i f => record_item (it_current_record it + 1 + Z.of_nat i) f) fs2.
Proof.
  revert fuel it fs1. induction fs2 as [|f fs2 IH]; intros fuel it fs1 Hit Hfuel Hst;
    (destruct fuel as [|fuel]; [simpl in Hfuel; lia|]); cbn [collect].
  - unfold next. rewrite (next_loop_end crc _ _ _ Hit). simpl. eauto.
  - unfold next. rewrite (next_loop_frame crc crc_u32 _ _ _ _ _ Hit). rewrite decide_False by lia.
    cbn [mbind option_bind].
    destruct (IH fuel (advance crc it f) _ (advance_at crc _ _ _ _ Hit)) as (rs & -> & ->);
      [simpl in Hfuel; lia|simpl; lia|]. simpl. eexists. split; [done|].
    rewrite Z.add_0_r. f_equal. apply imap_ext. intros i g _. simpl. f_equal. lia.
Qed.

Lemma records_from_spec w fs start :
  wal_rep crc w fs -> 0 <= start ->
  records_from w start =
    Some (imap (fun i f => record_item (start + 1 + Z.of_nat i) f) (drop (Z.to_nat start) fs)).
Proof.
  intros R Hst. unfold records_from. pose proof (iter_from_at crc w fs start R) as Hit.
  pose proof (length_log_data crc _ _ _ Hit) as Hlen.
  change (it_mmap (iter_from w start)) with (w_mmap w) in Hlen.
  pose proof (next_spec crc crc_u32 fs (S (length (w_mmap w))) _ [] Hit ltac:(lia)) as Hn.
  cbn [collect]. unfold next. change (it_mmap (iter_from w start)) with (w_mmap w) in *.
  change (it_start_record (iter_from w start)) with start in Hn.
  change (it_current_record (iter_from w start)) with 0 in Hn. cbv zeta in Hn. rewrite Z.sub_0_r in Hn. pose proof (length_drop fs (Z.to_nat start)) as Hdl.
  destruct (drop (Z.to_nat start) fs) as [|f fs3] eqn:E.
  - destruct Hn as (it' & Hn). by rewrite Hn.
  - destruct Hn as (it' & Hat & Hs & Hm & Hn). rewrite Hn. cbn [mbind option_bind].
    assert (it_current_record it' = start + 1) as Hcur.
    { rewrite (ia_current crc _ _ _ Hat), !length_app, length_take. simpl in *. lia. }
    destruct (collect_spec fs3 (length (w_mmap w)) it' _ Hat) as (rs & -> & ->); [simpl in Hdl; lia|lia|].
    simpl. rewrite Hcur. f_equal. f_equal; [f_equal; lia|]. apply imap_ext. intros i g _. simpl. f_equal. lia.
Qed.

Lemma record_item_command n c :
  command_typed c -> record_item n (command_frame c) = Ok (n, untimed c).
Proof.
  intros Hc. unfold record_item, command_frame. cbn [fr_payload].
  rewrite <- (app_nil_r (command_bytes c)). destruct c as [o|id]; cbn [command_bytes].
  - destruct Hc. by rewrite decode_new_order_bytes.
  - by rewrite decode_cancel_bytes.
Qed.

Lemma imap_record_items n cs :
  Forall command_typed cs ->
  imap (fun i f => record_item (n + 1 + Z.of_nat i) f) (command_frame <$> cs) =
  numbered n (untimed <$> cs).
Proof.
  intros Hcs. revert n. induction Hcs as [|c cs Hc _ IH]; intros n; [done|].
  simpl. rewrite Z.add_0_r, record_item_command by done. f_equal. rewrite <- IH.
  apply imap_ext. intros i f _. simpl. f_equal. lia.
Qed.

(** Whole frames at the start of a file are kept by [open]. *)
Lemma log_prefix fs fs' junk rest :
  Forall frame_ok fs -> Forall frame_ok fs' -> no_frame crc rest ->
  log_bytes crc fs ++ junk = log_bytes crc fs' ++ rest ->
  exists fs2, fs' = fs ++ fs2 /\ junk = log_bytes crc fs2 ++ rest.
Proof.
  intros Hfs. revert fs'. induction Hfs as [|f fs Hf _ IH]; intros fs' Hfs' Hn E.
  { by exists fs'. }
  destruct Hfs' as [|f' fs' Hf' Hfs'].
  - rewrite log_bytes_cons, <- app_assoc in E. symmetry in E. by apply Hn in E.
  - rewrite !log_bytes_cons, <- !app_assoc in E. apply (frame_inj crc) in E as [-> E]; [|done..].
    destruct (IH _ Hfs' Hn E) as (fs2 & -> & ->). by exists fs2.
Qed.

(** A file cut at any byte: whole frames, then something unreadable. *)
Lemma cut_log fs n p :
  Forall frame_ok fs ->
  exists k tail, (k <= length fs)%nat /\
    take p (log_bytes crc fs ++ replicate n 0) = log_bytes crc (take k fs) ++ tail /\
    no_frame crc tail /\ (length (log_bytes crc (take k fs)) <= p)%nat /\
    (k < length fs -> p < length (log_bytes crc (take (S k) fs)))%nat.
Proof.
  intros Hfs. revert p. induction Hfs as [|f fs Hf Hfs IH]; intros p.
  - exists 0%nat, (take p (replicate n 0)). simpl. rewrite take_replicate.
    split_and!; [lia|done|apply no_frame_zeros|lia|lia].
  - rewrite log_bytes_cons, <- app_assoc. destruct (decide (length (frame_bytes crc f) <= p)%nat) as [Hp|Hp].
    + destruct (IH (p - length (frame_bytes crc f))%nat) as (k & tail & Hk & Ht & Hn & Hl & Hm).
      exists (S k), tail. rewrite take_app_ge by done. rewrite Ht. cbn [take].
      rewrite !log_bytes_cons, !length_app, <- app_assoc. cbn [length].
      split_and!; [lia|done|done|lia|lia].
    + exists 0%nat, (take p (frame_bytes crc f)). rewrite take_app_le by lia. cbn [take].
      rewrite take_0, log_bytes_cons. cbn [length]. rewrite length_app.
      split_and!; [lia|done| |simpl; lia|lia].
      intros g rest Hg E. pose proof (take_drop p (frame_bytes crc f)) as Hfull. rewrite E in Hfull.
      rewrite <- (app_nil_r (frame_bytes crc f)) in Hfull. rewrite <- app_assoc in Hfull.
      apply (frame_inj crc) in Hfull as [_ Hfull]; [|done..].
      apply (f_equal length) in Hfull. rewrite !length_app, length_drop, ?length_app in Hfull. cbn [length] in Hfull. lia.
Qed.

(** Truncation to the end of a record keeps the records before it and clears the
    rest. *)
Lemma truncate_spec w fs1 fs2 :
  wal_rep crc w (fs1 ++ fs2) ->
  exists w', truncate_to w (zlen (log_bytes crc fs1)) (Z.of_nat (length fs1)) = Some w' /\ wal_rep crc w' fs1.
Proof.
  intros R. pose proof R as [Hfs Hb [n Hfile] Hpos _ Hm Hbuf].
  rewrite log_bytes_app in *. rewrite zlen_app in Hpos, Hm. apply Forall_app in Hfs as [Hfs _].
  unfold bytes_ok in Hb. apply Forall_app in Hb as [Hb _].
  set (pre := log_bytes crc fs1) in *. set (post := log_bytes crc fs2) in *.
  pose proof (zlen_nonneg post). unfold truncate_to. rewrite Hpos. cbv zeta.
  set (w1 := set_file (pre ++ replicate (length post + n) 0) w).
  assert ((if decide (zlen pre + zlen post > zlen pre)
     then mmap_write w (zlen pre) (replicate (Z.to_nat (zlen pre + zlen post - zlen pre)) 0) else Some w) = Some w1) as ->.
  { case_decide as Hd.
    - rewrite (mmap_write_at' w _ pre post _ (replicate n 0)).
      + unfold w1. f_equal. f_equal. rewrite replicate_add. do 2 f_equal. f_equal. unfold zlen. lia.
      + by rewrite Hfile, <- app_assoc.
      + done.
      + rewrite zlen_replicate. lia.
      + rewrite zlen_replicate. lia.
    - unfold w1, set_file. destruct w; simpl in *. f_equal. f_equal. rewrite Hfile.
      assert (length post = 0%nat) as E0 by (unfold zlen in *; lia). apply nil_length_inv in E0. by rewrite E0, app_nil_r. }
  cbn [mbind option_bind]. eexists. split; [done|]. split; cbn [w_file w_write_pos w_record_count w_mapped_size w_encode_buf];
    try done; [by eexists|]. revert Hm. unfold w1, set_file. cbn [w_file w_mapped_size]. rewrite Hfile, !zlen_app, !zlen_replicate.
  fold pre. unfold zlen. lia.
Qed.

(** A scan that ends at the end of the bytes kept ends at a record. *)
Lemma scan_boundary w fs off n :
  wal_rep crc w fs -> scan_records crc (take (Z.to_nat off) (w_file w)) = Some (mkScan off n) ->
  exists fs1 fs2, fs = fs1 ++ fs2 /\ off = zlen (log_bytes crc fs1) /\ n = Z.of_nat (length fs1).
Proof.
  intros R Hsc. destruct (wr_file _ _ _ R) as [z Hz].
  destruct (cut_log fs z (Z.to_nat off) (wr_frames _ _ _ R)) as (k & tail & Hk & Ht & Hno & Hl & _).
  rewrite Hz, Ht in Hsc.
  assert (bytes_ok (log_bytes crc (take k fs) ++ tail)) as Hb.
  { rewrite <- Ht. apply Forall_take, Forall_app. split; [apply R|apply bytes_ok_zeros]. }
  rewrite (scan_records_log crc crc_u32 _ _ (Forall_take _ _ _ (wr_frames _ _ _ R)) Hb Hno) in Hsc. injection Hsc as <- <-.
  exists (take k fs), (drop k fs). by rewrite take_drop.
Qed.

Lemma log_reachable_rep w : log_reachable w -> exists fs, wal_rep crc w fs.
Proof.
  induction 1 as [file size w Hb Hs Ho|w c io w' r _ [fs R] Ha|w off n w' _ [fs R] Hsc Ht].
  - destruct (open_spec crc crc_u32 file size Hb Hs) as (w1 & fs & rest & Ho1 & R & _).
    simplify_eq. eauto.
  - destruct (append_spec crc w fs c io R) as (w1 & [(Ha' & R' & _)|(Ha' & R' & _)]);
      rewrite Ha in Ha'; simplify_eq; eauto.
  - destruct (scan_boundary w fs off n R Hsc) as (fs1 & fs2 & -> & -> & ->).
    destruct (truncate_spec w fs1 fs2 R) as (w1 & Ht' & R1). rewrite Ht in Ht'. simplify_eq. eauto.
Qed.

(** A log created empty and appended to. *)
Lemma fresh_log size cs w0 w :
  0 <= size -> open_with_size crc [] size true = Some (Ok w0) -> append_all w0 cs = Some (Ok w) ->
  wal_rep crc w (command_frame <$> cs) /\ bytes_ok (w_file w).
Proof.
  intros Hs Ho Ha.
  destruct (open_spec crc crc_u32 [] size) as (w1 & fs0 & rest & Ho' & R0 & E & Hno & _); [constructor|done|].
  simplify_eq. assert (fs0 = []) as ->.
  { by destruct (log_unique crc [] fs0 _ _ (Forall_nil_2 _) (wr_frames _ _ _ R0)
                   (no_frame_zeros crc _) Hno E) as [<- _]. }
  destruct (append_all_spec cs w0 [] R0) as (w2 & Ha' & R). simplify_eq. split; [done|].
  destruct (wr_file _ _ _ R) as [n ->].
  apply Forall_app. split; [apply (wr_bytes _ _ _ R)|apply bytes_ok_zeros].
Qed.

(** Reopening a log finds the records it holds. *)
Lemma reopen_log w fs size :
  wal_rep crc w fs -> 0 <= size ->
  exists w', open_with_size crc (w_file w) size true = Some (Ok w') /\ wal_rep crc w' fs.
Proof.
  intros R Hs. destruct (wr_file _ _ _ R) as [n Hn].
  assert (bytes_ok (w_file w)) as Hb.
  { rewrite Hn. apply Forall_app. split; [apply (wr_bytes _ _ _ R)|apply bytes_ok_zeros]. }
  destruct (open_spec crc crc_u32 (w_file w) size Hb Hs) as (w' & fs' & rest' & Ho' & R' & E' & Hno' & _).
  rewrite Hn, <- app_assoc, <- replicate_add in E'.
  apply (log_unique crc) in E' as [<- _]; [|apply R|apply R'|apply no_frame_zeros|done].
  by exists w'.
Qed.

(** Opening a file that is a log followed by something else. *)
Lemma open_finds file size fs rest :
  bytes_ok file -> 0 <= size -> Forall frame_ok fs ->
  file ++ replicate (Z.to_nat (size - zlen file)) 0 = log_bytes crc fs ++ rest -> no_frame crc rest ->
  exists w, open_with_size crc file size true = Some (Ok w) /\ wal_rep crc w fs.
Proof.
  intros Hb Hs Hfs E Hno. destruct (open_spec crc crc_u32 file size Hb Hs) as (w & fs' & rest' & Ho & R & E' & Hno' & _).
  rewrite E in E'. apply (log_unique crc) in E' as [<- _]; [|done|apply R|done|done]. by exists w.
Qed.

(** The files [open_with_size] leaves behind on the way: as it was, extended, cut
    after the records, and final. *)
Lemma open_calls_files file size w fault :
  open_with_size crc file size true = Some (Ok w) ->
  exists file' r, open_calls crc file size fault = Some (file', r) /\
    (fault = None -> open_calls crc file size fault = Some (w_file w, Ok w)) /\
    r = (match fault with
         | None => Ok w
         | Some CallGrow => if decide (zlen file < size) then Err WalIo else Ok w
         | Some _ => Err WalIo
         end) /\
    let data := file ++ replicate (Z.to_nat (size - zlen file)) 0 in
    (file' = file \/ file' = data \/ file' = set_len data (w_write_pos w) \/ file' = w_file w).
Proof.
  intros Ho. unfold open_with_size in Ho. unfold open_calls. cbv zeta.
  set (data := file ++ replicate (Z.to_nat (size - zlen file)) 0).
  assert (exists n, (if decide (zlen file < size) then (set_len file size, size) else (file, zlen file)) = (data, n))
    as (n & En).
  { case_decide; eexists.
    - rewrite set_len_grow by lia. done.
    - unfold data. replace (Z.to_nat (size - zlen file)) with 0%nat by lia. by rewrite app_nil_r. }
  rewrite En in *. destruct (scan_records crc (take (Z.to_nat n) data)) as [sc|] eqn:Es; [|done].
  cbn [mbind option_bind] in *. injection Ho as <-. cbn [w_file w_write_pos].
  assert (bool_decide (zlen file < size) = if decide (zlen file < size) then true else false) as -> by done.
  destruct fault as [[]|]; destruct (decide (zlen file < size)); cbn [bool_decide decide_rel]; rewrite ?andb_false_r, ?andb_true_r; cbn [orb];
    repeat (case_match; try done); eexists _, _; (split; [done|]); (split; [done|]); split; eauto.
Qed.

(** Opening again after an open that failed on the way. *)
Lemma open_failure_rep file size w fs fault file' r :
  bytes_ok file -> 0 <= size -> open_with_size crc file size true = Some (Ok w) -> wal_rep crc w fs ->
  open_calls crc file size fault = Some (file', r) ->
  exists w', open_with_size crc file' size true = Some (Ok w') /\ wal_rep crc w' fs /\ bytes_ok file'.
Proof.
  intros Hb Hs Ho R Hc. destruct (open_spec crc crc_u32 file size Hb Hs) as (w1 & fs1 & rest & Ho1 & R1 & E & Hno & _).
  simplify_eq. assert (fs1 = fs) as ->.
  { destruct (wr_file _ _ _ R) as [n Hn], (wr_file _ _ _ R1) as [n1 Hn1]. rewrite Hn in Hn1.
    apply (log_unique crc) in Hn1 as [<- _]; [done|apply R|apply R1|apply no_frame_zeros|apply no_frame_zeros]. }
  destruct (open_calls_files file size w fault Ho) as (file1 & r1 & Hc1 & _ & _ & Hf). simplify_eq.
  pose proof (wr_pos _ _ _ R) as Hp. pose proof (wr_bytes _ _ _ R) as Hbl.
  assert (bytes_ok (file ++ replicate (Z.to_nat (size - zlen file)) 0)) as Hbd
    by (apply Forall_app; split; [done|apply bytes_ok_zeros]).
  destruct Hf as [->|[->|[->| ->]]].
  - by exists w.
  - destruct (open_finds (file ++ replicate (Z.to_nat (size - zlen file)) 0) size fs rest) as (w' & ? & ?);
      [done|done|apply R| |done|by exists w'].
    rewrite <- E, zlen_app, zlen_replicate.
    assert (Z.to_nat (size - (zlen file + Z.of_nat (Z.to_nat (size - zlen file)))) = 0%nat) as -> by lia.
    apply app_nil_r.
  - rewrite E, Hp, set_len_cut.
    destruct (open_finds (log_bytes crc fs) size fs (replicate (Z.to_nat (size - zlen (log_bytes crc fs))) 0))
      as (w' & ? & ?); [done|done|apply R|done|apply no_frame_zeros|by exists w'].
  - destruct (reopen_log w fs size R Hs) as (w' & ? & ?). exists w'. split; [done|]. split; [done|].
    destruct (wr_file _ _ _ R) as [n ->]. apply Forall_app. split; [done|apply bytes_ok_zeros].
Qed.

(** Opening a log file cut at any byte. *)
Lemma open_cut w cs p :
  wal_rep crc w (command_frame <$> cs) -> bytes_ok (w_file w) ->
  exists w' k, open_with_size crc (take p (w_file w)) 0 true = Some (Ok w') /\
    wal_rep crc w' (command_frame <$> take k cs) /\ (k <= length cs)%nat /\
    (length (log_bytes crc (command_frame <$> take k cs)) <= p)%nat /\
    (k < length cs -> p < length (log_bytes crc (command_frame <$> take (S k) cs)))%nat.
Proof.
  intros R Hb. destruct (wr_file _ _ _ R) as [n Hn].
  destruct (cut_log (command_frame <$> cs) n p (wr_frames _ _ _ R)) as (k & tail & Hk & Ht & Hno & Hl & Hm).
  rewrite length_fmap in Hk, Hm. rewrite <- !fmap_take in *. rewrite <- Hn in Ht.
  assert (bytes_ok (take p (w_file w))) as Hbt by (by apply Forall_take).
  destruct (open_spec crc crc_u32 _ 0 Hbt ltac:(lia)) as (w' & fs & rest & Ho' & R' & E & Hno' & _).
  assert (Forall frame_ok (command_frame <$> take k cs)) as Hfk.
  { rewrite fmap_take. apply Forall_take, R. }
  pose proof (zlen_nonneg (take p (w_file w))).
  replace (Z.to_nat (0 - zlen (take p (w_file w)))) with 0%nat in E by lia.
  cbn [replicate] in E. rewrite app_nil_r, Ht in E.
  apply (log_unique crc) in E as [<- _]; [|done|apply R'|done|done].
  exists w', k. done.
Qed.

End sequences.

(** ** Properties *)

(** A checksum for the witnesses. *)
Definition byte_sum (l : list Z) : Z := foldr Z.add 0 l mod 2 ^ 32.

Lemma byte_sum_u32 l : is_u32 (byte_sum l).
Proof. unfold is_u32, byte_sum. apply Z.mod_pos_bound. lia. Qed.

Definition wal_demo : list EngineCommand :=
  [NewOrder (mkOrder 1 10 Ask 105 5 100); CancelOrder 1; NewOrder (mkOrder 2 11 Bid (-3) 7 0)].

Lemma wal_demo_typed : Forall command_typed wal_demo.
Proof. repeat constructor; simpl; unfold_ranges; try lia. Qed.

(** C25. Appended commands are read back after a reopen: on a fresh log every
    append succeeds, and opening the file again finds all records, in order,
    numbered from 1, each with its timestamp dropped; iterating from record
    [k] skips exactly the first [k]. *)
Theorem wal_roundtrip crc size size' cs k :
  (forall l, is_u32 (crc l)) -> 0 <= size -> 0 <= size' -> Forall command_typed cs -> 0 <= k ->
  exists w0 w w', open_with_size crc [] size true = Some (Ok w0) /\
    append_all crc w0 cs = Some (Ok w) /\
    open_with_size crc (w_file w) size' true = Some (Ok w') /\
    w_record_count w' = Z.of_nat (length cs) /\ w_write_pos w' = w_write_pos w /\
    records_from crc w' k = Some (numbered k (untimed <$> drop (Z.to_nat k) cs)).
Proof.
  intros Hcrc Hs Hs' Hcs Hk.
  destruct (open_spec crc Hcrc [] size) as (w0 & fs0 & rest & Ho & R0 & _); [constructor|done|].
  destruct (append_all_spec crc cs w0 fs0 R0) as (w & Ha & _).
  destruct (fresh_log crc Hcrc size cs w0 w Hs Ho Ha) as [R Hb].
  destruct (reopen_log crc Hcrc w _ size' R Hs') as (w' & Ho' & R').
  exists w0, w, w'. split; [done|]. split; [done|]. split; [done|].
  rewrite (wr_count _ _ _ R'), length_fmap. split; [done|].
  rewrite (wr_pos _ _ _ R), (wr_pos _ _ _ R'). split; [done|].
  rewrite (records_from_spec crc Hcrc _ _ _ R' Hk), <- fmap_drop, imap_record_items; [done|].
  by apply Forall_drop.
Qed.

Lemma wal_roundtrip_witness :
  exists w0 w w', open_with_size byte_sum [] 64 true = Some (Ok w0) /\
    append_all byte_sum w0 wal_demo = Some (Ok w) /\
    open_with_size byte_sum (w_file w) 0 true = Some (Ok w') /\
    w_record_count w' = 3 /\ w_write_pos w' = w_write_pos w /\
    records_from byte_sum w' 1 = Some [Ok (2, CancelOrder 1); Ok (3, NewOrder (mkOrder 2 11 Bid (-3) 7 0))].
Proof.
  exact (wal_roundtrip byte_sum 64 0 wal_demo 1 byte_sum_u32 ltac:(lia) ltac:(lia) wal_demo_typed ltac:(lia)).
Defined.

(** C15. Opening any file never panics and finds the longest readable log: the
    file (extended with zeroes to the initial size) splits into the records
    found and a rest that does not start with a valid record; the log is cut
    right after the records, which are exactly what iterating returns. *)
Theorem open_longest_prefix crc file size :
  (forall l, is_u32 (crc l)) -> bytes_ok file -> 0 <= size ->
  exists w fs rest, open_with_size crc file size true = Some (Ok w) /\
    file ++ replicate (Z.to_nat (size - zlen file)) 0 = log_bytes crc fs ++ rest /\
    Forall frame_ok fs /\ no_frame crc rest /\
    w_write_pos w = zlen (log_bytes crc fs) /\ w_record_count w = Z.of_nat (length fs) /\
    records_from crc w 0 = Some (imap (fun i f => record_item (1 + Z.of_nat i) f) fs).
Proof.
  intros Hcrc Hb Hs. destruct (open_spec crc Hcrc file size Hb Hs) as (w & fs & rest & Ho & R & E & Hno & _).
  exists w, fs, rest. split_and!; try done; try apply R.
  rewrite (records_from_spec crc Hcrc _ _ _ R) by lia. by rewrite drop_0.
Qed.

Lemma open_longest_prefix_witness :
  exists w fs rest, open_with_size byte_sum [1; 0; 0; 0; 7; 0; 0; 0; 9; 1; 2; 3] 32 true = Some (Ok w) /\
    [1; 0; 0; 0; 7; 0; 0; 0; 9; 1; 2; 3] ++ replicate 20 0 = log_bytes byte_sum fs ++ rest /\
    Forall frame_ok fs /\ no_frame byte_sum rest /\
    w_write_pos w = zlen (log_bytes byte_sum fs) /\ w_record_count w = Z.of_nat (length fs) /\
    records_from byte_sum w 0 = Some (imap (fun i f => record_item (1 + Z.of_nat i) f) fs).
Proof.
  apply (open_longest_prefix byte_sum [1; 0; 0; 0; 7; 0; 0; 0; 9; 1; 2; 3] 32).
  - exact byte_sum_u32.
  - repeat constructor; unfold_ranges; lia.
  - lia.
Defined.

(** C26. A failure while opening loses no record: whichever system call of
    [open_with_size] fails (or the process dies at), the result is an I/O error,
    and opening the file it leaves behind finds the same records as opening the
    original file does.  Without a failure it is [open_with_size]; so it is if
    the failing call is the one that extends the file and the file is already
    long enough, since that call is then not made. *)
Theorem open_failure_keeps_records crc file size :
  (forall l, is_u32 (crc l)) -> bytes_ok file -> 0 <= size ->
  exists w, open_with_size crc file size true = Some (Ok w) /\
    open_calls crc file size None = Some (w_file w, Ok w) /\
    forall fault, exists file' r, open_calls crc file size fault = Some (file', r) /\
      r = (match fault with
           | None => Ok w
           | Some CallGrow => if decide (zlen file < size) then Err WalIo else Ok w
           | Some _ => Err WalIo
           end) /\
      exists w', open_with_size crc file' size true = Some (Ok w') /\
        w_write_pos w' = w_write_pos w /\ w_record_count w' = w_record_count w /\
        forall k, 0 <= k -> records_from crc w' k = records_from crc w k.
Proof.
  intros Hcrc Hb Hs. destruct (open_spec crc Hcrc file size Hb Hs) as (w & fs & rest & Ho & R & E & Hno & _).
  exists w. split; [done|].
  destruct (open_calls_files crc file size w None Ho) as (_ & _ & _ & Hnone & _). split; [by apply Hnone|].
  intros fault. destruct (open_calls_files crc file size w fault Ho) as (file' & r & Hc & _ & Hr & _).
  destruct (open_failure_rep crc Hcrc file size w fs fault file' r Hb Hs Ho R Hc) as (w' & Ho' & R' & _).
  exists file', r. split; [done|]. split; [done|]. exists w'. split; [done|].
  rewrite (wr_pos _ _ _ R'), (wr_pos _ _ _ R), (wr_count _ _ _ R'), (wr_count _ _ _ R).
  split; [done|]. split; [done|]. intros k Hk.
  by rewrite (records_from_spec crc Hcrc _ _ _ R' Hk), (records_from_spec crc Hcrc _ _ _ R Hk).
Qed.

Lemma open_failure_keeps_records_witness :
  exists file' w', open_calls byte_sum (log_bytes byte_sum (command_frame <$> wal_demo) ++ [1; 2; 3]) 256 (Some CallRegrow)
      = Some (file', Err WalIo) /\
    open_with_size byte_sum file' 256 true = Some (Ok w') /\ w_record_count w' = 3.
Proof.
  destruct (open_failure_keeps_records byte_sum
    (log_bytes byte_sum (command_frame <$> wal_demo) ++ [1; 2; 3]) 256 byte_sum_u32) as (w & Ho & _ & H).
  - apply (bool_decide_unpack _). vm_compute. exact I.
  - lia.
  - destruct (H (Some CallRegrow)) as (file' & r & Hc & -> & w' & Ho' & _ & Hn & _).
    exists file', w'. split; [exact Hc|]. split; [exact Ho'|]. rewrite Hn. vm_compute in Ho. injection Ho as <-. reflexivity.
Defined.

(** C28. The module invariant: in every state of a log opened on any file, after
    any appends (failed or not) and truncations to the end of a record, every
    byte at or beyond the write position is zero, and the counters are bounded
    by the file (so they cannot overflow). *)
Theorem zero_tail crc w :
  (forall l, is_u32 (crc l)) -> log_reachable crc w ->
  Forall (eq 0) (drop (Z.to_nat (w_write_pos w)) (w_file w)) /\
  0 <= 16 * w_record_count w <= w_write_pos w /\ w_write_pos w <= w_mapped_size w <= zlen (w_file w).
Proof.
  intros Hcrc Hw. destruct (log_reachable_rep crc Hcrc w Hw) as [fs R].
  split; [|by eapply wal_rep_bounds].
  destruct (wr_file _ _ _ R) as [n ->]. rewrite (wr_pos _ _ _ R). unfold zlen.
  rewrite Nat2Z.id, drop_app_length. by apply Forall_replicate.
Qed.

(** An append to a file of garbage, and its truncation. *)
Lemma zero_tail_witness :
  exists w w', log_reachable byte_sum w /\ w_record_count w = 1 /\
    Forall (eq 0) (drop (Z.to_nat (w_write_pos w)) (w_file w)) /\
    truncate_to w 0 0 = Some w' /\ w_write_pos w' = 0 /\ Forall (eq 0) (w_file w').
Proof.
  set (w0 := mkWal (replicate 32 0) 0 32 (replicate 40 0) 0).
  assert (log_reachable byte_sum w0) as H0.
  { apply (log_open byte_sum (replicate 8 7) 32); [repeat constructor; unfold_ranges; lia|lia|].
    vm_compute. reflexivity. }
  set (r := append byte_sum w0 (CancelOrder 5) IoOk).
  assert (exists w1 x w2, r = Some (w1, x) /\ w_record_count w1 = 1 /\ truncate_to w1 0 0 = Some w2 /\ w_write_pos w2 = 0)
    as (w1 & x & w2 & Hr & Hc & Ht & Hp)
    by (eexists _, _, _; unfold r; split; [vm_compute; reflexivity|]; split; [reflexivity|];
        split; [vm_compute; reflexivity|reflexivity]).
  assert (log_reachable byte_sum w1) as H1 by (exact (log_append byte_sum w0 _ IoOk w1 x H0 Hr)).
  assert (log_reachable byte_sum w2) as H2.
  { refine (log_truncate byte_sum w1 0 0 w2 H1 _ Ht). reflexivity. }
  exists w1, w2. split; [exact H1|]. split; [exact Hc|].
  split; [exact (proj1 (zero_tail byte_sum w1 byte_sum_u32 H1))|]. split; [exact Ht|]. split; [exact Hp|].
  pose proof (proj1 (zero_tail byte_sum w2 byte_sum_u32 H2)) as H. rewrite Hp in H. exact H.
Defined.

(** C27. An append never panics: it adds one record with the next number, or, if
    the file has to grow and the system refuses, reports an I/O error and
    leaves every record as it was. *)
Theorem append_outcomes crc w c io rs :
  (forall l, is_u32 (crc l)) -> log_reachable crc w -> command_typed c ->
  records_from crc w 0 = Some rs ->
  exists w' r, append crc w c io = Some (w', r) /\
    (r = Ok (w_record_count w + 1) /\
       records_from crc w' 0 = Some (rs ++ [Ok (w_record_count w + 1, untimed c)]) \/
     r = Err WalIo /\ io ≠ IoOk /\ must_grow w c /\ records_from crc w' 0 = Some rs).
Proof.
  intros Hcrc Hw Hc Hrs. destruct (log_reachable_rep crc Hcrc w Hw) as [fs R].
  rewrite (records_from_spec crc Hcrc _ _ _ R) in Hrs by lia. rewrite drop_0 in Hrs. injection Hrs as <-.
  destruct (append_spec crc w fs c io R) as (w' & [(Ha & R' & _)|(Ha & R' & Hg & Hio)]);
    eexists w', _; (split; [exact Ha|]); [left|right];
    rewrite (records_from_spec crc Hcrc _ _ _ R'), drop_0 by lia.
  - split; [done|]. rewrite imap_app. simpl. rewrite Nat.add_0_r, (wr_count _ _ _ R).
    rewrite record_item_command by done. do 4 f_equal. f_equal. lia.
  - done.
Qed.

Lemma append_outcomes_witness :
  exists w' r, append byte_sum (mkWal (replicate 16 0) 0 16 (replicate 40 0) 0) (CancelOrder 5) SetLenFails
                 = Some (w', r) /\ r = Err WalIo.
Proof.
  set (w0 := mkWal (replicate 16 0) 0 16 (replicate 40 0) 0).
  assert (log_reachable byte_sum w0) as H0.
  { apply (log_open byte_sum [] 16); [constructor|lia|vm_compute; reflexivity]. }
  destruct (append_outcomes byte_sum w0 (CancelOrder 5) SetLenFails [] byte_sum_u32 H0
              ltac:(simpl; unfold_ranges; lia) ltac:(vm_compute; reflexivity))
    as (w' & r & Ha & Hr).
  exists w', r. split; [exact Ha|]. vm_compute in Ha. injection Ha as _ <-. reflexivity.
Defined.

(** Whatever a crash writes after the end of the log, the completely written
    records survive: reopening a file whose first bytes are the log of [cs]
    and whose rest is arbitrary yields all of [cs] first. *)
Theorem damage_after_log crc size cs w0 w junk size' :
  (forall l, is_u32 (crc l)) -> 0 <= size -> 0 <= size' -> Forall command_typed cs -> bytes_ok junk ->
  open_with_size crc [] size true = Some (Ok w0) -> append_all crc w0 cs = Some (Ok w) ->
  exists w' more, open_with_size crc (take (Z.to_nat (w_write_pos w)) (w_file w) ++ junk) size' true = Some (Ok w') /\
    records_from crc w' 0 = Some (numbered 0 (untimed <$> cs) ++ more).
Proof.
  intros Hcrc Hs Hs' Hcs Hj Ho Ha. destruct (fresh_log crc Hcrc size cs w0 w Hs Ho Ha) as [R Hb].
  destruct (wr_file _ _ _ R) as [n Hn].
  assert (take (Z.to_nat (w_write_pos w)) (w_file w) = log_bytes crc (command_frame <$> cs)) as ->.
  { rewrite Hn, (wr_pos _ _ _ R). unfold zlen. by rewrite Nat2Z.id, take_app_length. }
  set (L := log_bytes crc _).
  assert (bytes_ok (L ++ junk)) as HLj by (apply Forall_app; split; [apply (wr_bytes _ _ _ R)|done]).
  destruct (open_spec crc Hcrc (L ++ junk) size' HLj Hs') as (w' & fs & rest & Ho' & R' & E & Hno & _).
  rewrite <- app_assoc in E.
  destruct (log_prefix crc _ _ _ _ (wr_frames _ _ _ R) (wr_frames _ _ _ R') Hno E) as (fs2 & -> & _).
  exists w'. eexists. split; [done|].
  rewrite (records_from_spec crc Hcrc _ _ _ R'), drop_0 by lia. rewrite imap_app.
  pose proof (imap_record_items 0 cs Hcs) as H1. rewrite H1. reflexivity.
Qed.

(** A file cut at any byte loses only whole records at the end: reopening it
    finds exactly the records that fit completely into the bytes kept. *)
Theorem truncated_file_prefix crc size cs w0 w p :
  (forall l, is_u32 (crc l)) -> 0 <= size -> Forall command_typed cs ->
  open_with_size crc [] size true = Some (Ok w0) -> append_all crc w0 cs = Some (Ok w) ->
  exists w' k, open_with_size crc (take p (w_file w)) 0 true = Some (Ok w') /\ (k <= length cs)%nat /\
    records_from crc w' 0 = Some (numbered 0 (untimed <$> take k cs)) /\
    (length (log_bytes crc (command_frame <$> take k cs)) <= p)%nat /\
    (k < length cs -> p < length (log_bytes crc (command_frame <$> take (S k) cs)))%nat.
Proof.
  intros Hcrc Hs Hcs Ho Ha. destruct (fresh_log crc Hcrc size cs w0 w Hs Ho Ha) as [R Hb].
  destruct (open_cut crc Hcrc w cs p R Hb) as (w' & k & Ho' & R' & Hk & Hl & Hm).
  exists w', k. split; [done|]. split; [done|]. split; [|done].
  rewrite (records_from_spec crc Hcrc _ _ _ R'), drop_0 by lia.
  pose proof (imap_record_items 0 (take k cs) ltac:(by apply Forall_take)) as H1. rewrite H1. done.
Qed.

(** Iterating a log never reports a corrupt or truncated record: what
    [open] keeps is readable, so the only error an item can carry is a record
    that is not a known message. *)
Theorem no_corruption_after_open crc w k rs :
  (forall l, is_u32 (crc l)) -> log_reachable crc w -> 0 <= k -> records_from crc w k = Some rs ->
  Forall (fun r => forall off, r ≠ Err (Corruption off) /\ r ≠ Err (TruncatedRecord off)) rs.
Proof.
  intros Hcrc Hw Hk Hrs. destruct (log_reachable_rep crc Hcrc w Hw) as [fs R].
  rewrite (records_from_spec crc Hcrc _ _ _ R Hk) in Hrs. injection Hrs as <-.
  apply Forall_forall. intros r (i & f & -> & _)%elem_of_lookup_imap off.
  unfold record_item. by destruct (decode_message _).
Qed.

(** The fresh log of the demo commands. *)
Definition wal_demo_open : Wal := mkWal (replicate 64 0) 0 64 (replicate 40 0) 0.

Lemma wal_demo_append : exists w, append_all byte_sum wal_demo_open wal_demo = Some (Ok w).
Proof. eexists. vm_compute. reflexivity. Qed.

Lemma damage_after_log_witness :
  exists w w' more, append_all byte_sum wal_demo_open wal_demo = Some (Ok w) /\
    open_with_size byte_sum (take (Z.to_nat (w_write_pos w)) (w_file w) ++ [24; 0; 0; 0; 255]) 0 true
      = Some (Ok w') /\
    records_from byte_sum w' 0 = Some (numbered 0 (untimed <$> wal_demo) ++ more).
Proof.
  destruct wal_demo_append as [w Hw]. exists w.
  destruct (damage_after_log byte_sum 64 wal_demo wal_demo_open w [24; 0; 0; 0; 255] 0
    byte_sum_u32 ltac:(lia) ltac:(lia) wal_demo_typed ltac:(repeat constructor; unfold_ranges; lia)
    ltac:(vm_compute; reflexivity) Hw) as (w' & more & H1 & H2).
  exists w', more. split; [exact Hw|]. split; [exact H1|exact H2].
Defined.

Lemma truncated_file_prefix_witness :
  exists w w' k, append_all byte_sum wal_demo_open wal_demo = Some (Ok w) /\
    open_with_size byte_sum (take 60 (w_file w)) 0 true = Some (Ok w') /\
    records_from byte_sum w' 0 = Some (numbered 0 (untimed <$> take k wal_demo)).
Proof.
  destruct wal_demo_append as [w Hw]. exists w.
  destruct (truncated_file_prefix byte_sum 64 wal_demo wal_demo_open w 60
    byte_sum_u32 ltac:(lia) wal_demo_typed ltac:(vm_compute; reflexivity) Hw) as (w' & k & H1 & _ & H2 & _).
  exists w', k. split; [exact Hw|]. split; [exact H1|exact H2].
Defined.

Lemma no_corruption_after_open_witness :
  exists rs, records_from byte_sum wal_demo_open 0 = Some rs /\
    Forall (fun r => forall off, r ≠ Err (Corruption off) /\ r ≠ Err (TruncatedRecord off)) rs.
Proof.
  assert (log_reachable byte_sum wal_demo_open) as H0.
  { apply (log_open byte_sum [] 64); [constructor|lia|vm_compute; reflexivity]. }
  exists []. split; [vm_compute; reflexivity|].
  exact (no_corruption_after_open byte_sum wal_demo_open 0 [] byte_sum_u32 H0 ltac:(lia)
           ltac:(vm_compute; reflexivity)).
Defined.
