(* ===== verification/WalDamage.v ===== *)
(** * WalDamage.v: what the log does with a damaged record

    A record whose checksum field or payload was overwritten in place: the
    iterator of the open log returns the records before it and then the
    corruption with its offset, and the next [open] keeps exactly the records
    before it. *)

From S2P Require Import Prelude.
From S2P Require Import Order.
From S2P Require Import Protocol.
From S2P Require Import ProtocolInv.
From S2P Require Import Wal.
From S2P Require Import WalInv.
From S2P Require Import WalThm.

Section damage.
Context (crc : list Z -> Z).

(** [collect::<Result<Vec<_>, _>>()]: the records up to the first error, and
    that error. *)
Fixpoint read_until (fuel : nat) (it : WalIterator)
  : option (list (Z * EngineCommand) * option WalError) :=
  match fuel with
  | O => None
  | S fuel =>
      '(it, item) ← next crc it;
      match item with
      | None => Some ([], None)
      | Some (Err e) => Some ([], Some e)
      | Some (Ok r) => '(rs, e) ← read_until fuel it; Some (r :: rs, e)
      end
  end.

Definition read_log (w : Wal) (start : Z) : option (list (Z * EngineCommand) * option WalError) :=
  read_until (S (length (w_mmap w))) (iter_from w start).

(** The bytes of a record whose stored checksum is [cb]. *)
Definition stored (cb payload pad : list Z) : list Z :=
  to_le 4 (zlen payload) ++ cb ++ payload ++ pad.

(** Numbered records. *)
Fixpoint records (n : Z) (cs : list EngineCommand) : list (Z * EngineCommand) :=
  match cs with [] => [] | c :: cs => (n + 1, c) :: records (n + 1) cs end.

Lemma numbered_records n cs : numbered n cs = Ok <$> records n cs.
Proof. revert n. induction cs as [|c cs IH]; intros n; [done|]. simpl. by rewrite IH. Qed.

Hypothesis crc_u32 : forall l, is_u32 (crc l).

Lemma read_until_collect fuel it l :
  collect crc fuel it = Some (Ok <$> l) -> read_until fuel it = Some (l, None).
Proof.
  revert it l. induction fuel as [|fuel IH]; intros it l; [done|]. cbn [collect read_until].
  destruct (next crc it) as [[it' [r|]]|]; cbn [mbind option_bind]; [| |done].
  - destruct (collect crc fuel it') as [rs|] eqn:E; cbn [mbind option_bind]; [|done].
    destruct l as [|x l]; [done|]. intros [= -> ->]. by rewrite (IH _ _ E).
  - destruct l; [done|]. intros [=].
Qed.

(** A log of commands is read completely. *)
Lemma read_log_spec w cs start :
  wal_rep crc w (command_frame <$> cs) -> Forall command_typed cs -> 0 <= start ->
  read_log w start = Some (records start (untimed <$> drop (Z.to_nat start) cs), None).
Proof.
  intros R Hcs Hst. apply read_until_collect. fold (records_from crc w start).
  rewrite (records_from_spec crc crc_u32 _ _ _ R Hst), <- fmap_drop, imap_record_items
    by (by apply Forall_drop). by rewrite numbered_records.
Qed.

(** Reading over valid records in front of something else. *)
Lemma read_until_prefix cs n it pre rest :
  Forall command_typed cs -> it_mmap it = pre ++ log_bytes crc (command_frame <$> cs) ++ rest ->
  it_read_pos it = zlen pre -> zlen pre + zlen (log_bytes crc (command_frame <$> cs)) <= it_end_pos it ->
  it_start_record it <= it_current_record it ->
  exists it', it_mmap it' = it_mmap it /\
    it_read_pos it' = zlen pre + zlen (log_bytes crc (command_frame <$> cs)) /\ it_end_pos it' = it_end_pos it /\
    read_until (length cs + n) it =
      ('(rs, e) ← read_until n it'; Some (records (it_current_record it) (untimed <$> cs) ++ rs, e)).
Proof.
  intros Hcs. revert it pre. induction Hcs as [|c cs Hc _ IH]; intros it pre Hd Hp He Hst.
  { exists it. change (zlen (log_bytes crc (command_frame <$> []))) with 0. rewrite Z.add_0_r. split_and!; try done.
    cbn. by destruct (read_until n it) as [[? ?]|]. }
  rewrite fmap_cons, log_bytes_cons in Hd, He |- *. rewrite <- app_assoc in Hd. rewrite zlen_app in He |- *.
  pose proof (command_frame_ok c) as Hf. pose proof (zlen_nonneg (log_bytes crc (command_frame <$> cs))).
  cbn [length Nat.add read_until]. unfold next.
  rewrite (next_loop_read crc crc_u32 _ _ _ _ _ Hf Hd Hp) by lia.
  rewrite decide_False by lia. cbn [mbind option_bind]. rewrite record_item_command by done.
  destruct (IH (advance crc it (command_frame c)) (pre ++ frame_bytes crc (command_frame c)))
    as (it' & Hm & Hpos & Hend & Hr);
    cbn [advance it_mmap it_read_pos it_end_pos it_current_record it_start_record];
    [by rewrite <- app_assoc|by rewrite Hp, zlen_app|rewrite zlen_app; lia|lia|].
  exists it'. rewrite zlen_app in Hpos. split_and!; [done|lia|done|]. rewrite Hr.
  cbn [advance it_current_record]. by destruct (read_until n it') as [[? ?]|].
Qed.

(** ** A record that does not match its checksum *)

Section record.
Context (cb payload pad : list Z).
Context (Hf : frame_ok (mkFrame payload pad)) (Hcb : length cb = 4%nat) (Hbad : from_le cb ≠ crc payload).

Lemma zlen_stored : zlen (stored cb payload pad) = align_up (HEADER_SIZE + zlen payload).
Proof.
  destruct Hf as [_ E]. cbn [fr_payload fr_pad] in E. rewrite <- E. unfold stored.
  rewrite !zlen_app, zlen_to_le. unfold zlen at 1. rewrite Hcb. unfold HEADER_SIZE. lia.
Qed.

Lemma no_frame_stored rest : no_frame crc (stored cb payload pad ++ rest).
Proof.
  intros f rest' Hok E. unfold stored, frame_bytes in E. rewrite <- !app_assoc in E.
  apply app_zlen_inj in E as [El E]; [|by rewrite !zlen_to_le].
  assert (zlen payload = zlen (fr_payload f)) as Hl.
  { destruct Hok as [Hp _]. destruct Hf as [Hp' _]. simpl in Hp'.
    rewrite <- (from_to_u32 (zlen payload)), <- (from_to_u32 (zlen (fr_payload f))) by (unfold is_u32; lia).
    by rewrite El. }
  apply app_zlen_inj in E as [Ec E]; [|unfold zlen; by rewrite Hcb, length_to_le].
  apply app_zlen_inj in E as [Ep _]; [|done].
  apply Hbad. by rewrite Ec, Ep, from_to_u32 by apply crc_u32.
Qed.

Lemma next_stored fuel it pre rest :
  it_mmap it = pre ++ stored cb payload pad ++ rest -> it_read_pos it = zlen pre ->
  zlen pre + zlen (stored cb payload pad) <= it_end_pos it ->
  next_loop crc (S fuel) it = Some (it, Some (Err (Corruption (zlen pre)))).
Proof.
  intros Hd Hp He. pose proof zlen_stored as Hz. pose proof (align_up_bounds (HEADER_SIZE + zlen payload)) as Hal.
  destruct Hf as [Hl _]. simpl in Hl. rewrite Hz in He. unfold HEADER_SIZE in *.
  assert (slice (it_mmap it) (zlen pre) 4 = Some (to_le 4 (zlen payload))) as H1.
  { rewrite Hd. unfold stored. rewrite <- !app_assoc. by apply slice_at; [|rewrite zlen_to_le]. }
  assert (slice (it_mmap it) (zlen pre + 4) 4 = Some cb) as H2.
  { rewrite Hd. unfold stored. rewrite <- !app_assoc, (app_assoc pre).
    apply slice_at; [rewrite zlen_app, zlen_to_le; lia|unfold zlen; lia]. }
  assert (slice (it_mmap it) (zlen pre + 8) (zlen payload) = Some payload) as H3.
  { rewrite Hd. unfold stored. rewrite <- !app_assoc, (app_assoc pre), (app_assoc (pre ++ _)).
    apply slice_at; [|done]. rewrite !zlen_app, zlen_to_le. unfold zlen at 3. rewrite Hcb. lia. }
  cbn [next_loop]. unfold HEADER_SIZE. rewrite Hp. rewrite decide_False by lia. rewrite H1. cbn [mbind option_bind].
  rewrite from_to_u32 by (unfold is_u32; lia). rewrite decide_False by lia. rewrite decide_False by lia.
  rewrite H2. cbn [mbind option_bind]. rewrite H3. cbn [mbind option_bind]. by rewrite decide_True.
Qed.

End record.

(** Overwriting the checksum and the payload of the record after [cs1]. *)
Lemma overwrite_record w cs1 c cs2 cb p :
  wal_rep crc w (command_frame <$> (cs1 ++ c :: cs2)) -> length cb = 4%nat -> length p = length (command_bytes c) ->
  exists tail, bytes_ok tail /\
  mmap_write w (zlen (log_bytes crc (command_frame <$> cs1)) + 4) (cb ++ p) =
    Some (set_file (log_bytes crc (command_frame <$> cs1) ++ stored cb p [] ++ tail) w) /\
  zlen (log_bytes crc (command_frame <$> cs1)) + zlen (stored cb p []) <= w_write_pos w /\
  zlen (log_bytes crc (command_frame <$> cs1) ++ stored cb p [] ++ tail) = zlen (w_file w).
Proof.
  intros R Hcb Hp. destruct R as [_ Hb [n Hfile] Hpos _ Hm _].
  rewrite fmap_app, fmap_cons, log_bytes_app, log_bytes_cons in Hb, Hfile, Hpos, Hm.
  set (pre := log_bytes crc (command_frame <$> cs1)) in *. set (post := log_bytes crc (command_frame <$> cs2)) in *.
  exists (post ++ replicate n 0).
  assert (frame_bytes crc (command_frame c) =
    to_le 4 (zlen p) ++ (to_le 4 (crc (command_bytes c)) ++ command_bytes c) ++ []) as Ef.
  { unfold frame_bytes, command_frame. cbn [fr_payload fr_pad]. unfold zlen. by rewrite Hp, <- !app_assoc. }
  assert (zlen cb = 4 /\ zlen p = zlen (command_bytes c)) as [Hc4 Hpl] by (unfold zlen; lia).
  pose proof (zlen_nonneg post). pose proof (zlen_nonneg p).
  rewrite Ef in Hfile, Hpos, Hm. rewrite !zlen_app, !zlen_to_le in Hpos, Hm.
  change (zlen (@nil Z)) with 0 in Hpos, Hm. split; [|split; [|split]].
  - apply Forall_app. split; [|apply bytes_ok_zeros]. unfold bytes_ok in Hb. by rewrite !Forall_app in Hb; destruct Hb as (_ & _ & ?).
  - rewrite (mmap_write_at' w _ (pre ++ to_le 4 (zlen p)) (to_le 4 (crc (command_bytes c)) ++ command_bytes c)
      (cb ++ p) (post ++ replicate n 0)).
    + unfold stored. by rewrite app_nil_r, <- !app_assoc.
    + by rewrite Hfile, app_nil_r, <- !app_assoc.
    + rewrite zlen_app, zlen_to_le. lia.
    + rewrite !zlen_app, zlen_to_le. lia.
    + rewrite !zlen_app, zlen_to_le. lia.
  - unfold stored. rewrite !zlen_app, zlen_to_le. change (zlen (@nil Z)) with 0. lia.
  - rewrite Hfile. unfold stored. rewrite !zlen_app, !zlen_to_le. change (zlen (@nil Z)) with 0. lia.
Qed.

Lemma damaged_frame c p : length p = length (command_bytes c) -> frame_ok (mkFrame p []).
Proof.
  intros Hp. pose proof (command_frame_ok c) as [Hl Hpad]. unfold frame_ok, command_frame in *.
  cbn [fr_payload fr_pad] in *. assert (zlen p = zlen (command_bytes c)) as -> by (unfold zlen; lia). done.
Qed.

(** Reading the damaged log, and reopening its file. *)
Lemma damaged_log w cs1 c cs2 cb p size :
  wal_rep crc w (command_frame <$> (cs1 ++ c :: cs2)) -> Forall command_typed cs1 ->
  length cb = 4%nat -> length p = length (command_bytes c) -> bytes_ok cb -> bytes_ok p ->
  from_le cb ≠ crc p -> 0 <= size ->
  let off := zlen (log_bytes crc (command_frame <$> cs1)) in
  exists w' w'', mmap_write w (off + 4) (cb ++ p) = Some w' /\
    read_log w' 0 = Some (records 0 (untimed <$> cs1), Some (Corruption off)) /\
    open_with_size crc (w_file w') size true = Some (Ok w'') /\ wal_rep crc w'' (command_frame <$> cs1).
Proof.
  intros R Hcs Hcb Hp Bcb Bp Hbad Hs off.
  destruct (overwrite_record w cs1 c cs2 cb p R Hcb Hp) as (tail & Btail & Hw & Hend & Hlen).
  pose proof (damaged_frame c p Hp) as Hok. fold off in Hw, Hend.
  set (pre := log_bytes crc (command_frame <$> cs1)) in *. set (bad := stored cb p []) in *.
  assert (bytes_ok pre) as Bpre.
  { pose proof (wr_bytes _ _ _ R) as B. rewrite fmap_app, log_bytes_app in B. by apply Forall_app in B as [? _]. }
  assert (bytes_ok bad) as Bbad.
  { unfold bad, stored, bytes_ok. rewrite !Forall_app. split_and!; [apply to_le_ok|done..]. }
  destruct (open_finds crc crc_u32 (pre ++ bad ++ tail) size (command_frame <$> cs1)
    (bad ++ tail ++ replicate (Z.to_nat (size - zlen (pre ++ bad ++ tail))) 0)) as (w'' & Ho & R'').
  { unfold bytes_ok. by rewrite !Forall_app. }
  { done. }
  { pose proof (wr_frames _ _ _ R) as F. rewrite fmap_app in F. by apply Forall_app in F as [? _]. }
  { by rewrite <- !app_assoc. }
  { by apply no_frame_stored. }
  eexists _, w''. split; [exact Hw|]. split; [|by split].
  unfold read_log. set (w' := set_file _ w). pose proof (wal_rep_bounds crc _ _ R) as [_ Hbnd].
  assert (exists rest, w_mmap w' = pre ++ bad ++ rest) as [rest Hm].
  { unfold w_mmap, w'. cbn [set_file w_file w_mapped_size].
    rewrite (app_assoc pre), take_app_ge; [rewrite <- app_assoc; eauto|].
    unfold off, pre in *. rewrite length_app. unfold zlen in *. lia. }
  destruct (read_until_prefix cs1 (S (length (w_mmap w') - length cs1)) (iter_from w' 0) [] (bad ++ rest))
    as (it' & Hm' & Hpos' & Hend' & Hread); [done|exact Hm|done| |done|].
  { change (it_end_pos (iter_from w' 0)) with (w_write_pos w). fold pre. change (zlen (@nil Z)) with 0.
    pose proof (zlen_nonneg bad). unfold off in Hend. lia. }
  assert (length cs1 <= length (w_mmap w'))%nat as Hl.
  { rewrite Hm, length_app. pose proof (log_bytes_min crc (command_frame <$> cs1)) as Hmin.
    rewrite length_fmap in Hmin. fold pre in Hmin. unfold zlen in Hmin.
    assert (Forall frame_ok (command_frame <$> cs1)) as F.
    { pose proof (wr_frames _ _ _ R) as F. rewrite fmap_app in F. by apply Forall_app in F as [? _]. }
    specialize (Hmin F). lia. }
  replace (S (length (w_mmap w'))) with (length cs1 + S (length (w_mmap w') - length cs1))%nat by lia.
  rewrite Hread. cbn [read_until]. unfold next.
  rewrite (next_stored cb p [] Hok Hcb Hbad _ it' pre rest);
    [|by rewrite Hm'|by rewrite Hpos'|by rewrite Hend'].
  cbn [mbind option_bind]. by rewrite app_nil_r.
Qed.
End damage.

(** C12. Damage inside the log is found: if the checksum field and the payload of
    a record are overwritten so that they no longer match, reading the open log
    returns the records before it and then the corruption with its offset, and
    a reopen keeps exactly the records before it and cuts the rest off. *)
Theorem damage_detected crc size cs1 c cs2 w0 w cb p size' :
  (forall l, is_u32 (crc l)) -> 0 <= size -> 0 <= size' -> Forall command_typed cs1 ->
  open_with_size crc [] size true = Some (Ok w0) -> append_all crc w0 (cs1 ++ c :: cs2) = Some (Ok w) ->
  length cb = 4%nat -> length p = length (command_bytes c) -> bytes_ok cb -> bytes_ok p -> from_le cb ≠ crc p ->
  exists off w' w'', mmap_write w (off + 4) (cb ++ p) = Some w' /\
    off = zlen (log_bytes crc (command_frame <$> cs1)) /\
    read_log crc w' 0 = Some (records 0 (untimed <$> cs1), Some (Corruption off)) /\
    open_with_size crc (w_file w') size' true = Some (Ok w'') /\ w_write_pos w'' = off /\
    read_log crc w'' 0 = Some (records 0 (untimed <$> cs1), None).
Proof.
  intros Hcrc Hs Hs' Hcs Ho Ha Hcb Hp Bcb Bp Hbad.
  destruct (fresh_log crc Hcrc size _ w0 w Hs Ho Ha) as [R _].
  destruct (damaged_log crc Hcrc w cs1 c cs2 cb p size' R Hcs Hcb Hp Bcb Bp Hbad Hs') as (w' & w'' & Hw & Hr & Ho' & R').
  eexists _, w', w''. split_and!; [exact Hw|done|exact Hr|exact Ho'|apply R'|].
  by rewrite (read_log_spec crc Hcrc w'' cs1 0 R' Hcs).
Qed.

Lemma damage_detected_witness :
  exists w off w' w'', append_all byte_sum wal_demo_open wal_demo = Some (Ok w) /\
    mmap_write w (off + 4) ([1; 2; 3; 4] ++ command_bytes (CancelOrder 1)) = Some w' /\
    read_log byte_sum w' 0 = Some ([(1, NewOrder (mkOrder 1 10 Ask 105 5 0))], Some (Corruption off)) /\
    open_with_size byte_sum (w_file w') 0 true = Some (Ok w'') /\
    read_log byte_sum w'' 0 = Some ([(1, NewOrder (mkOrder 1 10 Ask 105 5 0))], None).
Proof.
  destruct wal_demo_append as [w Ha]. exists w.
  destruct (damage_detected byte_sum 64 [NewOrder (mkOrder 1 10 Ask 105 5 100)] (CancelOrder 1)
    [NewOrder (mkOrder 2 11 Bid (-3) 7 0)] wal_demo_open w [1; 2; 3; 4] (command_bytes (CancelOrder 1)) 0)
    as (off & w' & w'' & Hw & _ & Hr & Ho & _ & Hr').
  - exact byte_sum_u32.
  - lia.
  - lia.
  - repeat constructor; simpl; unfold_ranges; try lia.
  - vm_compute. reflexivity.
  - exact Ha.
  - reflexivity.
  - reflexivity.
  - repeat constructor; unfold_ranges; lia.
  - apply (bool_decide_unpack _). vm_compute. exact I.
  - vm_compute. discriminate.
  - exists off, w', w''. split; [exact Ha|]. split; [exact Hw|]. split; [exact Hr|]. split; [exact Ho|exact Hr'].
Defined.
