(* ===== verification/WalTests.v ===== *)
(** * WalTests.v: the unit tests of [src/wal.rs]

    The tests create the log with its default size of 64 MiB and compare real
    checksums, so they are proved rather than run: for every checksum function
    with 32-bit values they pass.  Only [corrupt_payload_detected] depends on
    the checksum telling two payloads apart.  Where a test looks at the file
    system ([path.exists()]) there is nothing to check: a log of the model has
    its file. *)

From S2P Require Import Prelude.
From S2P Require Import Order.
From S2P Require Import Protocol.
From S2P Require Import ProtocolInv.
From S2P Require Import Wal.
From S2P Require Import WalInv.
From S2P Require Import WalThm.
From S2P Require Import WalDamage.
From S2P Require Import Testing.

Definition make_order (id : Z) : Order := mkOrder id 1 Bid 15005 100 1000000.
Definition new_order_cmd (id : Z) : EngineCommand := NewOrder (make_order id).
Definition cancel_cmd (id : Z) : EngineCommand := CancelOrder id.

Section tests.
Context (crc : list Z -> Z).

(** [Wal::open(&path).unwrap()] on a path with the given content. *)
Definition opened (file : list Z) : option Wal := r ← Wal.open crc file true; unwrap r.

(** [wal.append(&cmd).unwrap()]. *)
Definition appended (w : Wal) (c : EngineCommand) : option (Wal * Z) :=
  '(w, r) ← append crc w c IoOk; n ← unwrap r; Some (w, n).

(** [wal.append(&cmd).unwrap();] for each command. *)
Definition append_each (w : Wal) (cs : list EngineCommand) : option Wal :=
  for_each (fun w c => '(w, _) ← appended w c; Some w) w cs.

(** [wal.iter_from(k).collect::<Result<Vec<_>, _>>().unwrap()]. *)
Definition collected (w : Wal) (k : Z) : option (list (Z * EngineCommand)) :=
  '(rs, e) ← read_log crc w k; match e with None => Some rs | Some _ => None end.

(** [wal.mmap[i] ^= v]. *)
Definition mmap_xor (w : Wal) (i v : Z) : option Wal :=
  b ← vget (w_mmap w) i; mmap_write w i [Z.lxor b v].

(** [match cmd { EngineCommand::NewOrder(o) => assert_eq!(o.id, id), _ => panic!() }]. *)
Definition assert_new_order (cmd : EngineCommand) (id : Z) : option unit :=
  match cmd with NewOrder o => assert_eq (o_id o) id | _ => None end.

Definition is_new_order (cmd : EngineCommand) : bool := match cmd with NewOrder _ => true | _ => false end.

Definition create_new_wal : option unit :=
  wal ← opened [];
  assert_eq (record_count wal) 0;;
  assert_eq (write_pos wal) 0.

Definition append_single_new_order : option unit :=
  wal ← opened [];
  '(wal, seq) ← appended wal (new_order_cmd 1);
  assert_eq seq 1;;
  assert_eq (record_count wal) 1;;
  assert_eq (write_pos wal) 48.

Definition append_cancel_order : option unit :=
  wal ← opened [];
  '(wal, seq) ← appended wal (cancel_cmd 42);
  assert_eq seq 1;;
  assert_eq (write_pos wal) 24.

Definition append_multiple_records : option unit :=
  wal ← opened [];
  wal ← for_each (fun wal i =>
    '(wal, seq) ← appended wal (new_order_cmd i);
    assert_eq seq i;;
    Some wal) wal (seqZ 1 100);
  assert_eq (record_count wal) 100;;
  assert_eq (write_pos wal) (100 * 48).

Definition iterate_all_records : option unit :=
  wal ← opened [];
  wal ← append_each wal [new_order_cmd 10; cancel_cmd 10; new_order_cmd 20];
  records ← collected wal 0;
  assert_eq (length records) 3%nat;;
  r0 ← vget records 0;
  assert_eq (fst r0) 1;;
  assert_new_order (snd r0) 10;;
  r1 ← vget records 1;
  assert_eq (fst r1) 2;;
  assert_eq (snd r1) (CancelOrder 10);;
  r2 ← vget records 2;
  assert_eq (fst r2) 3;;
  assert_new_order (snd r2) 20.

Definition iterate_from_offset : option unit :=
  wal ← opened [];
  wal ← append_each wal (new_order_cmd <$> seqZ 1 10);
  records ← collected wal 5;
  assert_eq (length records) 5%nat;;
  assert_at records 0 fst 6;;
  assert_at records 4 fst 10.

Definition iterate_empty_wal : option unit :=
  wal ← opened [];
  records ← collected wal 0;
  assert_eq records [].

Definition reopen_preserves_state : option unit :=
  wal ← opened [];
  wal ← append_each wal [new_order_cmd 1; new_order_cmd 2; cancel_cmd 1];
  wal ← opened (w_file wal);
  assert_eq (record_count wal) 3;;
  assert_eq (write_pos wal) (48 + 48 + 24);;
  records ← collected wal 0;
  assert_eq (length records) 3%nat.

Definition record_format_on_disk : option unit :=
  wal ← opened [];
  wal ← append_each wal [new_order_cmd 42];
  len_bytes ← slice (w_mmap wal) 0 4;
  assert_eq (from_le len_bytes) (Z.of_nat NEW_ORDER_SIZE);;
  crc_bytes ← slice (w_mmap wal) 4 4;
  payload ← slice (w_mmap wal) 8 (Z.of_nat NEW_ORDER_SIZE);
  assert_eq (from_le crc_bytes) (crc payload);;
  assert_at (w_mmap wal) 8 id MSG_NEW_ORDER.

(** [assert!(iter.next().unwrap().is_ok())] and
    [iter.next().unwrap().unwrap_err()]; the [matches!] on the error is not
    asserted in the source. *)
Definition corrupt_crc_detected : option unit :=
  wal ← opened [];
  wal ← append_each wal [new_order_cmd 1; new_order_cmd 2];
  wal ← mmap_xor wal (48 + 4) 255;
  '(iter, item) ← next crc (iter_from wal 0);
  r ← item;
  assert_that (is_ok r);;
  '(iter, item) ← next crc iter;
  r ← item;
  _ ← unwrap_err r;
  Some tt.

Definition corrupt_payload_detected : option unit :=
  wal ← opened [];
  wal ← append_each wal [new_order_cmd 1];
  wal ← mmap_xor wal (HEADER_SIZE + 5) 255;
  '(iter, item) ← next crc (iter_from wal 0);
  r ← item;
  _ ← unwrap_err r;
  Some tt.

Definition reopen_detects_truncated_record : option unit :=
  wal ← opened [];
  wal ← append_each wal [new_order_cmd 1; new_order_cmd 2];
  let pos := write_pos wal in
  wal ← mmap_write wal pos (to_le 4 40);
  wal ← opened (w_file wal);
  assert_eq (record_count wal) 2.

Definition reopen_detects_corrupt_record : option unit :=
  wal ← opened [];
  wal ← append_each wal [new_order_cmd 1; new_order_cmd 2; new_order_cmd 3];
  wal ← mmap_xor wal (48 + 4) 255;
  wal ← opened (w_file wal);
  assert_eq (record_count wal) 1;;
  assert_eq (write_pos wal) 48.

Definition truncate_to_discards_records : option unit :=
  wal ← opened [];
  wal ← append_each wal [new_order_cmd 1; new_order_cmd 2; new_order_cmd 3];
  wal ← truncate_to wal 48 1;
  assert_eq (record_count wal) 1;;
  assert_eq (write_pos wal) 48;;
  records ← collected wal 0;
  assert_eq (length records) 1%nat.

Definition remap_on_growth : option unit :=
  r ← open_with_size crc [] 256 true;
  wal ← unwrap r;
  assert_eq (w_mapped_size wal) 256;;
  wal ← append_each wal (new_order_cmd <$> seqZ 1 10);
  assert_that (bool_decide (w_mapped_size wal > 256));;
  assert_eq (record_count wal) 10;;
  records ← collected wal 0;
  assert_eq (length records) 10%nat.

Definition mixed_new_order_and_cancel : option unit :=
  wal ← opened [];
  wal ← append_each wal [new_order_cmd 1; new_order_cmd 2; cancel_cmd 1; new_order_cmd 3];
  records ← collected wal 0;
  assert_eq (length records) 4%nat;;
  assert_at records 0 (is_new_order ∘ snd) true;;
  assert_at records 1 (is_new_order ∘ snd) true;;
  assert_at records 2 (is_new_order ∘ snd) false;;
  assert_at records 3 (is_new_order ∘ snd) true;;
  assert_eq (write_pos wal) 168.

Definition flush_async_does_not_error : option unit :=
  wal ← opened [];
  wal ← append_each wal [new_order_cmd 1];
  unwrap (flush_async true).

Definition new_order_preserves_fields : option unit :=
  let order := mkOrder 999 42 Ask (-12345) (2 ^ 64 - 1) 0 in
  wal ← opened [];
  wal ← append_each wal [NewOrder order];
  records ← collected wal 0;
  r0 ← vget records 0;
  match snd r0 with
  | NewOrder o =>
      assert_eq (o_id o) 999;;
      assert_eq (o_trader_id o) 42;;
      assert_eq (o_side o) Ask;;
      assert_eq (o_price o) (-12345);;
      assert_eq (o_quantity o) (2 ^ 64 - 1)
  | _ => None
  end.

(** ** Why they pass *)

Hypothesis crc_u32 : forall l, is_u32 (crc l).

(** The log holds these commands. *)
Definition holds (w : Wal) (cs : list EngineCommand) : Prop := wal_rep crc w (command_frame <$> cs).

Definition record_bytes (c : EngineCommand) : Z := match c with NewOrder _ => 48 | CancelOrder _ => 24 end.
Definition log_size (cs : list EngineCommand) : Z := foldr (fun c s => record_bytes c + s) 0 cs.

Lemma zlen_log cs : zlen (log_bytes crc (command_frame <$> cs)) = log_size cs.
Proof.
  induction cs as [|c cs IH]; [done|]. rewrite fmap_cons, log_bytes_cons, zlen_app, IH.
  rewrite zlen_frame by apply command_frame_ok. unfold command_frame, zlen. cbn [fr_payload].
  destruct c; cbn [command_bytes]; rewrite ?length_new_order_bytes, ?length_cancel_bytes; done.
Qed.

Lemma fresh_open size :
  0 <= size -> exists w, open_with_size crc [] size true = Some (Ok w) /\ holds w [] /\ w_mapped_size w = size.
Proof.
  intros Hs. destruct (open_spec crc crc_u32 [] size ltac:(constructor) Hs) as (w & fs & rest & Ho & R & E & Hno & _ & Hm).
  assert (fs = []) as ->.
  { by destruct (log_unique crc [] fs _ _ (Forall_nil_2 _) (wr_frames _ _ _ R) (no_frame_zeros crc _) Hno E) as [<- _]. }
  exists w. split_and!; [done|done|]. change (zlen []) with 0 in Hm. lia.
Qed.

Lemma opened_mapped : exists w, opened [] = Some w /\ holds w [] /\ w_mapped_size w = DEFAULT_INITIAL_SIZE.
Proof.
  destruct (fresh_open DEFAULT_INITIAL_SIZE) as (w & Ho & R & Hm); [unfold DEFAULT_INITIAL_SIZE; lia|].
  exists w. split; [|by split]. unfold opened, Wal.open. rewrite Ho. reflexivity.
Qed.

Lemma opened_fresh : exists w, opened [] = Some w /\ holds w [].
Proof. destruct opened_mapped as (w & Ho & R & _). exists w; exact (conj Ho R). Qed.

Lemma opened_again w cs : holds w cs -> exists w', opened (w_file w) = Some w' /\ holds w' cs.
Proof.
  intros R. destruct (reopen_log crc crc_u32 w _ DEFAULT_INITIAL_SIZE R) as (w' & Ho & R'); [unfold DEFAULT_INITIAL_SIZE; lia|].
  exists w'. split; [|exact R']. unfold opened, Wal.open. rewrite Ho. reflexivity.
Qed.

Lemma appended_spec w cs c :
  holds w cs -> exists w', appended w c = Some (w', Z.of_nat (length cs) + 1) /\ holds w' (cs ++ [c]).
Proof.
  intros R. destruct (append_spec crc w _ c IoOk R) as (w' & [(Ha & R' & _)|(_ & _ & _ & H)]); [|done].
  exists w'. unfold appended, holds. rewrite Ha, fmap_app. cbn [mbind option_bind unwrap].
  by rewrite (wr_count _ _ _ R), length_fmap.
Qed.

Lemma append_each_spec cs' w cs : holds w cs -> exists w', append_each w cs' = Some w' /\ holds w' (cs ++ cs').
Proof.
  revert w cs. induction cs' as [|c cs' IH]; intros w cs R; cbn.
  { exists w. by rewrite app_nil_r. }
  destruct (appended_spec w cs c R) as (w1 & -> & R1). cbn [mbind option_bind].
  destruct (IH w1 _ R1) as (w2 & H2 & R2). exists w2. by rewrite <- app_assoc in R2.
Qed.

Lemma holds_facts w cs :
  holds w cs -> record_count w = Z.of_nat (length cs) /\ write_pos w = log_size cs.
Proof.
  intros R. unfold record_count, write_pos. rewrite (wr_count _ _ _ R), (wr_pos _ _ _ R), zlen_log.
  by rewrite length_fmap.
Qed.

Lemma collected_spec w cs k :
  holds w cs -> Forall command_typed cs -> 0 <= k ->
  collected w k = Some (records k (untimed <$> drop (Z.to_nat k) cs)).
Proof. intros R Hcs Hk. unfold collected. by rewrite (read_log_spec crc crc_u32 w cs k R Hcs Hk). Qed.

Lemma append_counted n w cs :
  holds w cs -> exists w',
  for_each (fun wal i => '(wal, seq) ← appended wal (new_order_cmd i); assert_eq seq i;; Some wal) w
    (seqZ (Z.of_nat (length cs) + 1) (Z.of_nat n)) = Some w' /\
  holds w' (cs ++ (new_order_cmd <$> seqZ (Z.of_nat (length cs) + 1) (Z.of_nat n))).
Proof.
  revert w cs. induction n as [|n IH]; intros w cs R.
  { exists w. rewrite seqZ_nil by lia. by rewrite app_nil_r. }
  rewrite seqZ_cons by lia. cbn [for_each]. set (c := new_order_cmd _).
  destruct (appended_spec w cs c R) as (w1 & Ha & R1). fold c. rewrite Ha. cbn [mbind option_bind].
  rewrite assert_eq_pass by done. cbn [mbind option_bind].
  destruct (IH w1 _ R1) as (w2 & H2 & R2). exists w2.
  rewrite length_app in H2, R2. cbn [length] in H2, R2.
  replace (Z.of_nat (length cs + 1) + 1) with (Z.succ (Z.of_nat (length cs) + 1)) in H2, R2 by lia.
  replace (Z.pred (Z.of_nat (S n))) with (Z.of_nat n) by lia.
  split; [exact H2|]. rewrite fmap_cons. fold c. by rewrite <- app_assoc in R2.
Qed.

(** Flipping one byte of the checksum or the payload of a record is
    overwriting both. *)
Lemma mmap_xor_body w cs1 c cs2 b1 x b2 v :
  holds w (cs1 ++ c :: cs2) -> to_le 4 (crc (command_bytes c)) ++ command_bytes c = b1 ++ x :: b2 ->
  mmap_xor w (log_size cs1 + 4 + zlen b1) v =
  mmap_write w (zlen (log_bytes crc (command_frame <$> cs1)) + 4) (b1 ++ Z.lxor x v :: b2).
Proof.
  intros R E. rewrite <- zlen_log. destruct R as [_ _ [n Hfile] _ _ Hm _].
  rewrite fmap_app, fmap_cons, log_bytes_app, log_bytes_cons in Hfile, Hm.
  set (pre := log_bytes crc (command_frame <$> cs1)) in *. set (post := log_bytes crc (command_frame <$> cs2)) in *.
  assert (frame_bytes crc (command_frame c) = to_le 4 (zlen (command_bytes c)) ++ b1 ++ [x] ++ b2) as Ef.
  { unfold frame_bytes, command_frame. cbn [fr_payload fr_pad]. by rewrite (app_nil_r (command_bytes c)), E. }
  set (len := to_le 4 (zlen (command_bytes c))) in *.
  assert (zlen len = 4) as Hl by apply zlen_to_le.
  rewrite Ef in Hfile, Hm. rewrite !zlen_app in Hm. change (zlen [x]) with 1 in Hm.
  pose proof (zlen_nonneg post). pose proof (zlen_nonneg b1). pose proof (zlen_nonneg b2). pose proof (zlen_nonneg pre).
  assert (w_file w = (pre ++ len ++ b1) ++ [x] ++ b2 ++ post ++ replicate n 0) as Hf1.
  { by rewrite Hfile, <- !app_assoc. }
  unfold mmap_xor.
  assert (vget (w_mmap w) (zlen pre + 4 + zlen b1) = Some x) as ->.
  { unfold vget. rewrite decide_True by lia. unfold w_mmap. rewrite lookup_take_lt by (unfold zlen in *; lia).
    rewrite Hf1. apply list_lookup_middle. rewrite !length_app. unfold zlen in *. lia. }
  cbn [mbind option_bind].
  rewrite (mmap_write_at' w _ (pre ++ len ++ b1) [x] [Z.lxor x v] (b2 ++ post ++ replicate n 0) Hf1);
    [|rewrite !zlen_app; lia|done|rewrite !zlen_app; change (zlen [Z.lxor x v]) with 1; lia].
  rewrite (mmap_write_at' w _ (pre ++ len) (b1 ++ [x] ++ b2) (b1 ++ Z.lxor x v :: b2) (post ++ replicate n 0)).
  - f_equal. f_equal. rewrite <- !app_assoc. done.
  - by rewrite Hfile, <- !app_assoc.
  - rewrite zlen_app. lia.
  - unfold zlen. rewrite !length_app. cbn [length]. lia.
  - rewrite !zlen_app. change (Z.lxor x v :: b2) with ([Z.lxor x v] ++ b2). rewrite zlen_app. change (zlen [Z.lxor x v]) with 1. lia.
Qed.

Lemma lxor_byte x : is_u8 x -> is_u8 (Z.lxor x 255) /\ Z.lxor x 255 ≠ x.
Proof.
  unfold is_u8. intros Hx. split.
  - split; [apply Z.lxor_nonneg; lia|]. apply Z.log2_lt_cancel. 
    assert (Z.log2 (Z.lxor x 255) <= Z.max (Z.log2 x) (Z.log2 255)) by (apply Z.log2_lxor; lia).
    assert (Z.log2 x <= Z.log2 255) by (apply Z.log2_le_mono; lia).
    change (Z.log2 255) with 7 in *. change (Z.log2 (2 ^ 8)) with 8. lia.
  - intros H. assert (Z.lxor (Z.lxor x 255) x = 0) as H0 by (rewrite H; apply Z.lxor_nilpotent).
    rewrite Z.lxor_comm, <- Z.lxor_assoc, Z.lxor_nilpotent in H0. done.
Qed.

(** Truncation to the end of a record keeps the records before it. *)
Lemma truncate_holds w cs1 cs2 :
  holds w (cs1 ++ cs2) ->
  exists w', truncate_to w (log_size cs1) (Z.of_nat (length cs1)) = Some w' /\ holds w' cs1.
Proof.
  unfold holds. rewrite fmap_app. intros R. destruct (truncate_spec crc w _ _ R) as (w' & Ht & R').
  exists w'. rewrite <- zlen_log. rewrite length_fmap in Ht. by split.
Qed.

(** Open a fresh log and append the commands of the test. *)
Ltac start_log :=
  let w := fresh "w" in let R := fresh "R" in
  destruct opened_fresh as (w & -> & R); cbn [mbind option_bind].
Ltac append_log :=
  match goal with
  | R : holds ?w ?cs |- context [append_each ?w ?cs'] =>
      let w' := fresh "w" in let R' := fresh "R" in
      destruct (append_each_spec cs' w cs R) as (w' & -> & R'); cbn [mbind option_bind]; clear R
  | R : holds ?w ?cs |- context [appended ?w ?c] =>
      let w' := fresh "w" in let R' := fresh "R" in
      destruct (appended_spec w cs c R) as (w' & -> & R'); cbn [mbind option_bind]; clear R
  end.
Ltac typed_commands := repeat constructor; simpl; unfold_ranges; lia.
(** Compare what the log holds. *)
Ltac check_log :=
  match goal with
  | R : holds ?w ?cs |- _ =>
      let Hc := fresh "Hc" in let Hp := fresh "Hp" in
      destruct (holds_facts w cs R) as [Hc Hp]; try rewrite Hc; try rewrite Hp;
      try (rewrite (collected_spec w cs) by (exact R || lia || typed_commands)); reflexivity
  end.

Lemma appending_tests_pass :
  suite_passes [create_new_wal; append_single_new_order; append_cancel_order; iterate_all_records;
    iterate_from_offset; iterate_empty_wal; mixed_new_order_and_cancel; flush_async_does_not_error;
    new_order_preserves_fields].
Proof.
  unfold suite_passes. repeat apply List.Forall_cons; try apply List.Forall_nil.
  - unfold create_new_wal. start_log. check_log.
  - unfold append_single_new_order. start_log. append_log. check_log.
  - unfold append_cancel_order. start_log. append_log. check_log.
  - unfold iterate_all_records. start_log. append_log. check_log.
  - unfold iterate_from_offset. start_log. append_log. check_log.
  - unfold iterate_empty_wal. start_log. check_log.
  - unfold mixed_new_order_and_cancel. start_log. append_log. check_log.
  - unfold flush_async_does_not_error. start_log. append_log. reflexivity.
  - unfold new_order_preserves_fields. cbv zeta. start_log. append_log. check_log.
Qed.

Lemma append_multiple_records_passes : append_multiple_records = Some tt.
Proof.
  unfold append_multiple_records. start_log.
  destruct (append_counted 100 w [] R) as (w' & Hw & R').
  change (seqZ (Z.of_nat (length (@nil EngineCommand)) + 1) (Z.of_nat 100)) with (seqZ 1 100) in *.
  rewrite Hw. cbn [mbind option_bind]. clear R. check_log.
Qed.

Lemma reopen_preserves_state_passes : reopen_preserves_state = Some tt.
Proof.
  unfold reopen_preserves_state. start_log. append_log.
  destruct (opened_again _ _ R0) as (w' & -> & R'). cbn [mbind option_bind]. clear R0. check_log.
Qed.

Lemma truncate_to_discards_records_passes : truncate_to_discards_records = Some tt.
Proof.
  unfold truncate_to_discards_records. start_log. append_log.
  destruct (truncate_holds w0 [new_order_cmd 1] [new_order_cmd 2; new_order_cmd 3] R0) as (w' & Hw & R').
  change (log_size [new_order_cmd 1]) with 48 in Hw. change (Z.of_nat (length [new_order_cmd 1])) with 1 in Hw.
  rewrite Hw. cbn [mbind option_bind]. clear R0. check_log.
Qed.

Lemma remap_on_growth_passes : remap_on_growth = Some tt.
Proof.
  unfold remap_on_growth. destruct (fresh_open 256) as (w & -> & R & Hm); [lia|]. cbn [mbind option_bind unwrap].
  rewrite Hm, assert_eq_pass by done. cbn [mbind option_bind]. append_log.
  pose proof (wr_mapped _ _ _ R0) as [Hle _]. rewrite zlen_log in Hle.
  assert (480 <= w_mapped_size w0) as H480 by exact Hle.
  rewrite assert_that_pass by (apply bool_decide_eq_true_2; lia). cbn [mbind option_bind]. check_log.
Qed.

Lemma record_format_on_disk_passes : record_format_on_disk = Some tt.
Proof.
  unfold record_format_on_disk. start_log. append_log. cbn [app] in R0.
  pose proof R0 as [Hfs _ [n Hfile] _ _ Hm _]. apply Forall_cons in Hfs as [Hf _].
  destruct (iter_from_at crc w0 _ 0 R0) as [_ [tail Hd] _ _ _].
  change (it_mmap (iter_from w0 0)) with (w_mmap w0) in Hd. cbn [fmap list_fmap] in Hd.
  rewrite log_bytes_cons, <- app_assoc in Hd. change (log_bytes crc []) with (@nil Z) in Hd. cbn [app] in Hd.
  destruct (read_frame crc crc_u32 [] (command_frame (new_order_cmd 42)) tail Hf) as (lb & cb & H1 & E1 & H2 & E2 & H3).
  cbn [app] in H1, H2, H3. rewrite <- Hd in H1, H2, H3.
  change (zlen (@nil Z)) with 0 in *. change (0 + 4) with 4 in H2. change (0 + HEADER_SIZE) with 8 in H3.
  change (zlen (fr_payload (command_frame (new_order_cmd 42)))) with (Z.of_nat NEW_ORDER_SIZE) in H3, E1.
  rewrite H1, H2, H3. cbn [mbind option_bind]. rewrite !assert_eq_pass by done. cbn [mbind option_bind].
  unfold assert_at. rewrite Hd. reflexivity.
Qed.

(** The steps of the iterator behind what is read. *)
Lemma read_until_ok fuel it r rs e :
  read_until crc fuel it = Some (r :: rs, e) ->
  exists it' fuel', next crc it = Some (it', Some (Ok r)) /\ read_until crc fuel' it' = Some (rs, e).
Proof.
  destruct fuel as [|fuel]; [done|]. cbn [read_until].
  destruct (next crc it) as [[it' [[r'|e']|]]|]; cbn [mbind option_bind]; [|done..].
  destruct (read_until crc fuel it') as [[rs' e']|] eqn:E; cbn [mbind option_bind]; [|done].
  intros [= -> -> ->]. by exists it', fuel.
Qed.

Lemma read_until_err fuel it e :
  read_until crc fuel it = Some ([], Some e) -> exists it', next crc it = Some (it', Some (Err e)).
Proof.
  destruct fuel as [|fuel]; [done|]. cbn [read_until].
  destruct (next crc it) as [[it' [[r'|e']|]]|]; cbn [mbind option_bind]; [|intros [= ->]; by exists it'|done..].
  by destruct (read_until crc fuel it') as [[? ?]|].
Qed.

(** Flipping the first byte of a stored checksum. *)
Lemma xor_checksum w cs1 c cs2 :
  holds w (cs1 ++ c :: cs2) -> Forall command_typed cs1 ->
  exists w' w'', mmap_xor w (log_size cs1 + 4) 255 = Some w' /\
    read_log crc w' 0 = Some (records 0 (untimed <$> cs1), Some (Corruption (log_size cs1))) /\
    opened (w_file w') = Some w'' /\ holds w'' cs1.
Proof.
  intros R Hcs. pose proof (to_le_ok 4 (crc (command_bytes c))) as Hok. pose proof (length_to_le 4 (crc (command_bytes c))) as Hlen.
  destruct (to_le 4 (crc (command_bytes c))) as [|x t] eqn:E; [done|].
  apply Forall_cons in Hok as [Hx Ht]. destruct (lxor_byte x Hx) as [Hx' Hne].
  pose proof (mmap_xor_body w cs1 c cs2 [] x (t ++ command_bytes c) 255 R) as Hxor.
  rewrite E in Hxor. specialize (Hxor eq_refl). change (zlen (@nil Z)) with 0 in Hxor. rewrite Z.add_0_r in Hxor.
  destruct (damaged_log crc crc_u32 w cs1 c cs2 (Z.lxor x 255 :: t) (command_bytes c) DEFAULT_INITIAL_SIZE)
    as (w' & w'' & Hw & Hr & Ho & R''); try done.
  - by apply Forall_cons.
  - pose proof (command_frame_bytes_ok crc c) as B. unfold frame_bytes, command_frame in B. cbn [fr_payload fr_pad] in B.
    by rewrite !Forall_app in B; destruct B as (_ & _ & ? & _).
  - intros H. apply Hne. rewrite <- (from_to_u32 (crc (command_bytes c))), E in H by apply crc_u32.
    cbn [from_le] in H. lia.
  - rewrite zlen_log in Hr. exists w', w''. split_and!; [by rewrite Hxor|exact Hr| |exact R''].
    unfold opened, Wal.open. rewrite Ho. reflexivity.
Qed.

Lemma corrupt_crc_detected_passes : corrupt_crc_detected = Some tt.
Proof.
  unfold corrupt_crc_detected. start_log. append_log.
  destruct (xor_checksum w0 [new_order_cmd 1] (new_order_cmd 2) [] R0) as (w' & w'' & Hw & Hr & _); [typed_commands|].
  change (log_size [new_order_cmd 1] + 4) with (48 + 4) in Hw. rewrite Hw. cbn [mbind option_bind].
  apply read_until_ok in Hr as (it' & fuel' & -> & Hr). apply read_until_err in Hr as (it'' & Hr).
  cbn [mbind option_bind is_ok assert_that]. rewrite Hr. reflexivity.
Qed.

Lemma reopen_detects_corrupt_record_passes : reopen_detects_corrupt_record = Some tt.
Proof.
  unfold reopen_detects_corrupt_record. start_log. append_log.
  destruct (xor_checksum w0 [new_order_cmd 1] (new_order_cmd 2) [new_order_cmd 3] R0)
    as (w' & w'' & Hw & _ & Ho & R''); [typed_commands|].
  change (log_size [new_order_cmd 1] + 4) with (48 + 4) in Hw. rewrite Hw. cbn [mbind option_bind].
  rewrite Ho. cbn [mbind option_bind]. clear R0. check_log.
Qed.

(** The two places where the checksum has to tell payloads apart: the flipped
    payload byte, and a header whose checksum and payload are still zero. *)
Definition flipped : list Z := alter (fun b => Z.lxor b 255) 5%nat (command_bytes (new_order_cmd 1)).

Lemma corrupt_payload_detected_passes :
  crc flipped ≠ crc (command_bytes (new_order_cmd 1)) -> corrupt_payload_detected = Some tt.
Proof.
  intros Hne. unfold corrupt_payload_detected. start_log. append_log. cbn [app] in R0.
  set (p := command_bytes (new_order_cmd 1)) in *. set (cb := to_le 4 (crc p)).
  assert (exists b1 x b2, p = b1 ++ x :: b2 /\ length b1 = 5%nat /\ flipped = b1 ++ Z.lxor x 255 :: b2) as (b1 & x & b2 & Ep & Hl & Efl).
  { exists (take 5 p), 0, (drop 6 p). split_and!; vm_compute; reflexivity. }
  pose proof (mmap_xor_body w0 [] (new_order_cmd 1) [] (cb ++ b1) x b2 255 R0) as Hxor.
  fold p in Hxor. fold cb in Hxor. rewrite <- app_assoc, <- Ep in Hxor. specialize (Hxor eq_refl).
  assert (log_size [] + 4 + zlen (cb ++ b1) = HEADER_SIZE + 5) as Epos.
  { unfold zlen. rewrite length_app, Hl. unfold cb. rewrite length_to_le. reflexivity. }
  rewrite Epos in Hxor. rewrite Hxor, <- app_assoc, <- Efl.
  destruct (damaged_log crc crc_u32 w0 [] (new_order_cmd 1) [] cb flipped 0)
    as (w' & w'' & Hw & Hr & _); try done.
  - apply to_le_ok.
  - apply (bool_decide_unpack _). vm_compute. exact I.
  - unfold cb. rewrite from_to_u32 by apply crc_u32. congruence.
  - rewrite Hw. cbn [mbind option_bind]. apply read_until_err in Hr as (it' & ->). reflexivity.
Qed.

(** The mapping only grows. *)
Lemma mmap_write_mapped w p bs w' : mmap_write w p bs = Some w' -> w_mapped_size w' = w_mapped_size w.
Proof. unfold mmap_write. destruct (splice _ _ _); cbn [mbind option_bind]; [|done]. by intros [= <-]. Qed.

Lemma append_mapped w c w' r :
  0 <= w_mapped_size w -> append crc w c IoOk = Some (w', r) -> w_mapped_size w <= w_mapped_size w'.
Proof.
  intros H0. unfold append. destruct (match c with NewOrder _ => _ | CancelOrder _ => _ end) as [[buf n]|]; [|by intros [= <-]].
  set (size := align_up _). unfold ensure_capacity.
  set (w1 := if decide _ then _ else _).
  assert (w_mapped_size w <= w_mapped_size (fst w1) /\ snd w1 = Ok tt) as [Hm Hr].
  { unfold w1. case_decide; cbn; (split; [lia|done]). }
  destruct w1 as [w1 r1]. cbn in Hm, Hr. subst r1.
  destruct (slice _ _ _) as [payload|]; cbn [mbind option_bind]; [|done].
  destruct (mmap_write w1 _ _) as [w2|] eqn:E2; cbn [mbind option_bind]; [|done].
  destruct (mmap_write w2 _ _) as [w3|] eqn:E3; cbn [mbind option_bind]; [|done].
  destruct (mmap_write w3 _ _) as [w4|] eqn:E4; cbn [mbind option_bind]; [|done].
  apply mmap_write_mapped in E2, E3, E4.
  case_decide; cbn [mbind option_bind].
  - destruct (mmap_write w4 _ _) as [w5|] eqn:E5; cbn [mbind option_bind]; [|done].
    apply mmap_write_mapped in E5. intros [= <- _]. cbn [w_mapped_size]. lia.
  - intros [= <- _]. cbn [w_mapped_size]. lia.
Qed.

Lemma appended_mapped w c w' n :
  0 <= w_mapped_size w -> appended w c = Some (w', n) -> w_mapped_size w <= w_mapped_size w'.
Proof.
  intros H0. unfold appended. destruct (append crc w c IoOk) as [[w1 r]|] eqn:E; cbn [mbind option_bind]; [|done].
  destruct (unwrap r); cbn [mbind option_bind]; [|done]. intros [= <- _]. by eapply append_mapped.
Qed.

Lemma append_each_mapped cs w w' :
  0 <= w_mapped_size w -> append_each w cs = Some w' -> w_mapped_size w <= w_mapped_size w'.
Proof.
  unfold append_each. revert w. induction cs as [|c cs IH]; intros w H0; cbn [for_each]; [intros [= ->]; lia|].
  destruct (appended w c) as [[w1 n]|] eqn:E; cbn [mbind option_bind]; [|done].
  apply appended_mapped in E; [|done]. intros H%IH; lia.
Qed.

(** A header without its record. *)
Lemma open_after_header w cs :
  holds w cs -> write_pos w + 48 <= w_mapped_size w -> crc (replicate 40 0) ≠ 0 ->
  exists w' w'', mmap_write w (write_pos w) (to_le 4 40) = Some w' /\ opened (w_file w') = Some w'' /\ holds w'' cs.
Proof.
  intros R Hm Hne. destruct (wr_file _ _ _ R) as [n Hfile]. destruct (wr_mapped _ _ _ R) as [_ Hmap].
  unfold write_pos in *. rewrite (wr_pos _ _ _ R) in *. set (pre := log_bytes crc (command_frame <$> cs)) in *.
  rewrite Hfile, zlen_app, zlen_replicate in Hmap.
  assert (replicate n 0 = replicate 4 0 ++ replicate (n - 4) 0) as Hz by (rewrite <- replicate_add; f_equal; lia).
  set (tail := replicate (n - 48) 0).
  assert (replicate (n - 4) 0 = replicate 4 0 ++ replicate 40 0 ++ tail) as Hz2
    by (unfold tail; rewrite <- !replicate_add; f_equal; lia).
  destruct (open_finds crc crc_u32 (pre ++ stored (replicate 4 0) (replicate 40 0) [] ++ tail) DEFAULT_INITIAL_SIZE
    (command_frame <$> cs) (stored (replicate 4 0) (replicate 40 0) [] ++ tail ++
      replicate (Z.to_nat (DEFAULT_INITIAL_SIZE - zlen (pre ++ stored (replicate 4 0) (replicate 40 0) [] ++ tail))) 0))
    as (w'' & Ho & R'').
  - unfold bytes_ok, stored. rewrite !Forall_app. split_and!; try apply bytes_ok_zeros; [apply (wr_bytes _ _ _ R)|apply to_le_ok|constructor].
  - unfold DEFAULT_INITIAL_SIZE. lia.
  - apply (wr_frames _ _ _ R).
  - by rewrite <- !app_assoc.
  - apply no_frame_stored; [done|by split|done|exact (not_eq_sym Hne)].
  - exists (set_file (pre ++ to_le 4 40 ++ replicate (n - 4) 0) w), w''. split_and!; [|  |exact R''].
    + apply (mmap_write_at' w _ pre (replicate 4 0)); [by rewrite Hfile, Hz|done|done|].
      rewrite Hfile, zlen_app, zlen_replicate. change (zlen (to_le 4 40)) with 4. lia.
    + unfold opened, Wal.open. cbn [set_file w_file].
      assert (pre ++ to_le 4 40 ++ replicate (n - 4) 0 = pre ++ stored (replicate 4 0) (replicate 40 0) [] ++ tail) as ->.
      { unfold stored. rewrite Hz2, app_nil_r, <- !app_assoc. reflexivity. }
      rewrite Ho. reflexivity.
Qed.

Lemma reopen_detects_truncated_record_passes :
  crc (replicate 40 0) ≠ 0 -> reopen_detects_truncated_record = Some tt.
Proof.
  intros Hne. unfold reopen_detects_truncated_record.
  destruct opened_mapped as (w & -> & R & Hm). cbn [mbind option_bind].
  destruct (append_each_spec [new_order_cmd 1; new_order_cmd 2] w [] R) as (w0 & Ha & R0). cbn [app] in R0.
  pose proof Ha as Hgrow%append_each_mapped; [|rewrite Hm; unfold DEFAULT_INITIAL_SIZE; lia].
  rewrite Ha. cbn [mbind option_bind].
  destruct (open_after_header w0 _ R0) as (w' & w'' & -> & H2 & R''); [|done|].
  { destruct (holds_facts _ _ R0) as [_ ->]. change (log_size _) with 96. rewrite Hm in Hgrow. unfold DEFAULT_INITIAL_SIZE in Hgrow. lia. }
  cbn [mbind option_bind]. rewrite H2. cbn [mbind option_bind]. clear R R0. check_log.
Qed.
End tests.

(** The tests of the log pass for every 32-bit checksum that notices the flipped
    byte and is not zero on a zero payload. *)
Lemma wal_tests_pass crc :
  (forall l, is_u32 (crc l)) -> crc flipped ≠ crc (command_bytes (new_order_cmd 1)) -> crc (replicate 40 0) ≠ 0 ->
  suite_passes ([create_new_wal crc; append_single_new_order crc; append_cancel_order crc; iterate_all_records crc;
    iterate_from_offset crc; iterate_empty_wal crc; mixed_new_order_and_cancel crc;
    flush_async_does_not_error crc; new_order_preserves_fields crc] ++
   [append_multiple_records crc; reopen_preserves_state crc; record_format_on_disk crc;
    corrupt_crc_detected crc; corrupt_payload_detected crc; reopen_detects_truncated_record crc;
    reopen_detects_corrupt_record crc; truncate_to_discards_records crc; remap_on_growth crc]).
Proof.
  intros Hcrc Hflip Hzero. apply Forall_app_2; [exact (appending_tests_pass crc Hcrc)|].
  repeat apply List.Forall_cons.
  - exact (append_multiple_records_passes crc Hcrc).
  - exact (reopen_preserves_state_passes crc Hcrc).
  - exact (record_format_on_disk_passes crc Hcrc).
  - exact (corrupt_crc_detected_passes crc Hcrc).
  - exact (corrupt_payload_detected_passes crc Hcrc Hflip).
  - exact (reopen_detects_truncated_record_passes crc Hcrc Hzero).
  - exact (reopen_detects_corrupt_record_passes crc Hcrc).
  - exact (truncate_to_discards_records_passes crc Hcrc).
  - exact (remap_on_growth_passes crc Hcrc).
  - apply List.Forall_nil.
Qed.

(** Such checksums exist. *)
Definition byte_sum1 (l : list Z) : Z := foldr Z.add 1 l mod 2 ^ 32.

Lemma byte_sum1_u32 l : is_u32 (byte_sum1 l).
Proof. apply (wrap_range 32). lia. Qed.

Lemma wal_tests_pass_witness : append_multiple_records byte_sum1 = Some tt.
Proof.
  assert (byte_sum1 flipped ≠ byte_sum1 (command_bytes (new_order_cmd 1))) as Hflip by (vm_compute; discriminate).
  assert (byte_sum1 (replicate 40 0) ≠ 0) as Hzero by (vm_compute; discriminate).
  pose proof (wal_tests_pass byte_sum1 byte_sum1_u32 Hflip Hzero) as H.
  apply Forall_app in H as [_ H]. exact (List.Forall_inv H).
Defined.
