(* ===== verification/Snapshot.v ===== *)
(** * Snapshot.v: snapshots of the book ([src/snapshot.rs])

    A snapshot is the canonical list of resting orders with the number of WAL
    records it covers and a checksum.  The serializer ([bincode], a crate) and
    the checksum ([crc32fast], a crate) are parameters, collected in the class
    [Codec]; [CodecLaws] states that deserializing a serialized snapshot gives
    it back.  The snapshot directory is a finite map from file names to
    contents. *)

From stdpp Require Import strings.
From S2P Require Import Prelude.
From S2P Require Import Order.
From S2P Require Import Book.
From S2P Require Import Matching.

Record Snapshot : Type := mkSnapshot {
  sn_wal_record_count : Z;
  sn_orders : list Order;
  sn_best_bid : option Z;
  sn_best_ask : option Z;
  sn_checksum : Z
}.

#[global] Instance Snapshot_eq_dec : EqDecision Snapshot.
Proof. solve_decision. Defined.

Inductive SnapshotError : Type :=
| SnapIo
| SnapSerialize
| SnapDeserialize
| ChecksumMismatch (expected actual : Z)
| SnapRestore (e : MatchingError).

(** [impl From<io::Error> for SnapshotError]. *)
Definition SnapshotError_from_io : SnapshotError := SnapIo.

(** The crates the module calls. *)
Class Codec := {
  crc32 : list Z -> Z;
  serialize_fields : Z -> option Z -> option Z -> list Order -> list Z;
  serialize : Snapshot -> list Z;
  deserialize : list Z -> option Snapshot
}.

Definition opt_i64 (p : option Z) : Prop := from_option is_i64 True p.

Definition snapshot_typed (s : Snapshot) : Prop :=
  is_u64 (sn_wal_record_count s) /\ Forall order_typed (sn_orders s) /\
  opt_i64 (sn_best_bid s) /\ opt_i64 (sn_best_ask s) /\ is_u32 (sn_checksum s).

Class CodecLaws (C : Codec) := {
  crc32_range : forall l, is_u32 (crc32 l);
  deserialize_serialize : forall s, snapshot_typed s -> deserialize (serialize s) = Some s
}.

(** ** File names *)

(** The digit [d] (0 to 9) as a character. *)
Definition digit (d : Z) : Ascii.ascii := Ascii.ascii_of_nat (Z.to_nat (48 + d)).

(** The last [w] decimal digits of [n], most significant first. *)
Fixpoint digits (w : nat) (n : Z) (acc : string) : string :=
  match w with
  | O => acc
  | S w => digits w (n / 10) (String (digit (n mod 10)) acc)
  end.

(** The number of digits [format!("{:010}", n)] prints: at least ten. *)
Fixpoint width_from (fuel : nat) (w : nat) (n : Z) : nat :=
  match fuel with
  | O => w
  | S fuel => if decide (n < 10 ^ Z.of_nat w) then w else width_from fuel (S w) n
  end.

(** [format!("{:010}", n)] of a u64, which has at most twenty digits. *)
Definition format_010 (n : Z) : string := digits (width_from 10 10 n) n EmptyString.

Definition snapshot_filename (n : Z) : string :=
  String.append "snapshot_" (String.append (format_010 n) ".bin").

Definition tmp_filename (n : Z) : string := String.append (snapshot_filename n) ".tmp".

Definition starts_with (p s : string) : bool := String.prefix p s.
Definition ends_with (p s : string) : bool :=
  let k := (String.length s - String.length p)%nat in
  bool_decide (String.length p <= String.length s)%nat &&
  String.eqb (String.substring k (String.length p) s) p.

Definition is_snapshot_name (n : string) : bool := starts_with "snapshot_" n && ends_with ".bin" n.

Abbreviation Dir := (gmap string (list Z)).

Section snapshot.
Context {C : Codec}.

Definition compute_checksum (wal_record_count : Z) (best_bid best_ask : option Z) (orders : list Order) : Z :=
  crc32 (serialize_fields wal_record_count best_bid best_ask orders).

Definition capture (engine : MatchingEngine) (wal_record_count : Z) : option Snapshot :=
  orders ← OrderBook.all_resting_orders (MatchingEngine.book engine);
  let best_bid := OrderBook.best_bid (MatchingEngine.book engine) in
  let best_ask := OrderBook.best_ask (MatchingEngine.book engine) in
  let checksum := compute_checksum wal_record_count best_bid best_ask orders in
  Some (mkSnapshot wal_record_count orders best_bid best_ask checksum).

(** [save] writes the temporary file and renames it: the directory after each
    of the two steps.  A write that fails, or a crash, leaves some [data] in the
    temporary file. *)
Definition save_write (s : Snapshot) (data : list Z) (dir : Dir) : Dir :=
  <[tmp_filename (sn_wal_record_count s) := data]> dir.
Definition save_rename (s : Snapshot) (dir : Dir) : Dir :=
  match dir !! tmp_filename (sn_wal_record_count s) with
  | Some data => <[snapshot_filename (sn_wal_record_count s) := data]>
                   (delete (tmp_filename (sn_wal_record_count s)) dir)
  | None => dir
  end.
Definition save (s : Snapshot) (dir : Dir) : Dir := save_rename s (save_write s (serialize s) dir).

Definition verify_checksum (s : Snapshot) : result unit SnapshotError :=
  let actual := compute_checksum (sn_wal_record_count s) (sn_best_bid s) (sn_best_ask s) (sn_orders s) in
  if decide (sn_checksum s = actual) then Ok tt else Err (ChecksumMismatch (sn_checksum s) actual).

Definition load_from_file (dir : Dir) (name : string) : result Snapshot SnapshotError :=
  match dir !! name with
  | None => Err SnapshotError_from_io
  | Some data => ok_or SnapDeserialize (deserialize data)
  end.

(** The [while let Some(path) = snapshot_files.pop()] loop, on the names from
    the last one down. *)
Fixpoint load_loop (dir : Dir) (names : list string) : option Snapshot :=
  match names with
  | [] => None
  | name :: names =>
      match load_from_file dir name with
      | Ok snap => if is_ok (verify_checksum snap) then Some snap else load_loop dir names
      | Err _ => load_loop dir names
      end
  end.

(** The names of snapshot files, sorted byte-wise. *)
Definition snapshot_files (dir : Dir) : list string :=
  merge_sort String.le (filter (fun n => is_snapshot_name n = true) (map_to_list dir).*1).

(** [dir] is [None] when the directory does not exist; [io] says whether it
    can be read. *)
Definition load_latest (dir : option Dir) (io : bool) : result (option Snapshot) SnapshotError :=
  match dir with
  | None => Ok None
  | Some dir =>
      if io then Ok (load_loop dir (reverse (snapshot_files dir))) else Err SnapIo
  end.

Definition restore (s : Snapshot) (arena_capacity : Z) : option (result MatchingEngine SnapshotError) :=
  r ← MatchingEngine.restore_from_orders (sn_orders s) arena_capacity;
  Some (map_err SnapRestore r).

End snapshot.
