(* ===== verification/SnapshotInv.v ===== *)
(** * SnapshotInv.v: names, saving and loading of snapshots

    The order of snapshot file names is the order of their record counts (up
    to ten digits), so the last name is the newest snapshot; a temporary file
    is never taken for one. *)

From stdpp Require Import strings.
From S2P Require Import Prelude.
From S2P Require Import Order.
From S2P Require Import Arena.
From S2P Require Import ArenaInv.
From S2P Require Import Book.
From S2P Require Import BookSpec.
From S2P Require Import BookInv.
From S2P Require Import Matching.
From S2P Require Import MatchingSpec.
From S2P Require Import MatchingInv.
From S2P Require Import Snapshot.

(** ** Decimal names *)

Lemma digit_code d : 0 <= d < 10 -> Ascii.N_of_ascii (digit d) = Z.to_N (48 + d).
Proof.
  intros Hd. assert (d = 0 \/ d = 1 \/ d = 2 \/ d = 3 \/ d = 4 \/ d = 5 \/ d = 6 \/ d = 7 \/ d = 8 \/ d = 9)
    as H by lia. naive_solver.
Qed.

Lemma digits_S w n acc :
  0 <= n -> digits (S w) n acc = String (digit (n / 10 ^ Z.of_nat w mod 10)) (digits w n acc).
Proof.
  revert n acc. induction w as [|w IH]; intros n acc Hn.
  { simpl. by rewrite Z.div_1_r. }
  change (digits (S (S w)) n acc) with (digits (S w) (n / 10) (String (digit (n mod 10)) acc)).
  rewrite IH by (apply Z.div_pos; lia). f_equal. f_equal. f_equal.
  rewrite Z.div_div by lia. f_equal. rewrite Nat2Z.inj_succ, Z.pow_succ_r by lia. done.
Qed.

Lemma mod_pow_S w n :
  0 <= n -> n mod 10 ^ Z.of_nat (S w) = n / 10 ^ Z.of_nat w mod 10 * 10 ^ Z.of_nat w + n mod 10 ^ Z.of_nat w.
Proof.
  intros Hn. rewrite Nat2Z.inj_succ, Z.pow_succ_r by lia. rewrite (Z.mul_comm 10).
  rewrite Z.rem_mul_r by lia. lia.
Qed.

(** Names of the same width compare like their numbers. *)
Lemma digits_lt w m n acc1 acc2 :
  0 <= m -> 0 <= n -> m mod 10 ^ Z.of_nat w < n mod 10 ^ Z.of_nat w ->
  String.compare (digits w m acc1) (digits w n acc2) = Lt.
Proof.
  intros Hm Hn. induction w as [|w IH]; intros H.
  { change (10 ^ Z.of_nat 0) with 1 in H. rewrite !Z.mod_1_r in H. lia. }
  rewrite !mod_pow_S in H by done. rewrite !digits_S by done. simpl String.compare.
  pose proof (Z.mod_pos_bound (m / 10 ^ Z.of_nat w) 10 ltac:(lia)).
  pose proof (Z.mod_pos_bound (n / 10 ^ Z.of_nat w) 10 ltac:(lia)).
  pose proof (Z.mod_pos_bound m (10 ^ Z.of_nat w) ltac:(lia)).
  pose proof (Z.mod_pos_bound n (10 ^ Z.of_nat w) ltac:(lia)).
  set (dm := m / _ mod 10) in *. set (dn := n / _ mod 10) in *.
  unfold Ascii.compare. rewrite !digit_code by done.
  destruct (N.compare_spec (Z.to_N (48 + dm)) (Z.to_N (48 + dn))) as [E|E|E].
  - apply IH. assert (dm = dn) as Hd by lia. rewrite Hd in H. lia.
  - done.
  - assert (dn < dm) by lia. nia.
Qed.

Lemma width_10 n : n < 10 ^ 10 -> width_from 10 10 n = 10%nat.
Proof. intros Hn. simpl. by rewrite decide_True. Qed.

Lemma compare_app p s t : String.compare (String.append p s) (String.append p t) = String.compare s t.
Proof.
  induction p as [|c p IH]; [done|].
  change (String.append (String c p) ?x) with (String c (String.append p x)). simpl String.compare.
  unfold Ascii.compare. by rewrite N.compare_refl.
Qed.

Lemma digits_app w n acc s : String.append (digits w n acc) s = digits w n (String.append acc s).
Proof. revert n acc. induction w as [|w IH]; intros n acc; [done|]. simpl. by rewrite IH. Qed.

Lemma filename_lt m n :
  0 <= m -> m < n -> n < 10 ^ 10 ->
  String.compare (snapshot_filename m) (snapshot_filename n) = Lt.
Proof.
  intros Hm Hlt Hn. unfold snapshot_filename. rewrite compare_app. unfold format_010.
  rewrite !width_10 by lia. rewrite !digits_app. apply digits_lt; [lia|lia|].
  rewrite !Z.mod_small by lia. done.
Qed.

Lemma filename_le m n : 0 <= m -> m <= n -> n < 10 ^ 10 -> String.le (snapshot_filename m) (snapshot_filename n).
Proof.
  intros Hm Hle Hn. destruct (decide (m = n)) as [->|]; [done|].
  unfold String.le, String.leb. by rewrite filename_lt by lia.
Qed.

(** ** Recognizing names *)

Lemma substring_app s p : String.substring (String.length s) (String.length p) (String.append s p) = p.
Proof.
  induction s as [|c s IH].
  - change (String.append EmptyString p) with p. simpl String.length.
    induction p as [|c p IH]; [done|]. simpl. by rewrite IH.
  - exact IH.
Qed.

Lemma length_append s p : String.length (String.append s p) = (String.length s + String.length p)%nat.
Proof. induction s as [|c s IH]; [done|]. simpl. f_equal. exact IH. Qed.

Lemma ends_with_app s p q :
  String.length p = String.length q -> ends_with q (String.append s p) = String.eqb p q.
Proof.
  intros Hl. unfold ends_with. rewrite length_append, <- Hl, bool_decide_true by lia.
  replace (_ + _ - _)%nat with (String.length s) by lia. by rewrite substring_app.
Qed.

Lemma append_assoc a b c : String.append a (String.append b c) = String.append (String.append a b) c.
Proof. induction a as [|x a IH]; [done|]. exact (f_equal (String x) IH). Qed.

Lemma snapshot_name_ok n : is_snapshot_name (snapshot_filename n) = true.
Proof.
  unfold is_snapshot_name, snapshot_filename. apply andb_true_intro. split.
  - unfold starts_with. generalize (String.append (format_010 n) ".bin"). by intros [|].
  - rewrite append_assoc. by rewrite ends_with_app.
Qed.

Lemma tmp_name_ignored n : is_snapshot_name (tmp_filename n) = false.
Proof.
  unfold is_snapshot_name, tmp_filename. rewrite ends_with_app by done. apply andb_false_r.
Qed.

Lemma tmp_ne_filename m n : tmp_filename m ≠ snapshot_filename n.
Proof. intros E. pose proof (snapshot_name_ok n) as H. rewrite <- E, tmp_name_ignored in H. done. Qed.

(** ** The list of snapshot files *)

Lemma elem_of_snapshot_files dir name :
  name ∈ snapshot_files dir <-> is_snapshot_name name = true /\ is_Some (dir !! name).
Proof.
  unfold snapshot_files. rewrite (merge_sort_Permutation String.le), list_elem_of_filter, list_elem_of_fmap.
  split.
  - intros [Hn ([k v] & -> & Hv%elem_of_map_to_list)]. split; [done|]. by exists v.
  - intros [Hn [v Hv]]. split; [done|]. exists (name, v).
    split; [done|]. by apply elem_of_map_to_list.
Qed.

(** The newest file is tried first. *)
Lemma snapshot_files_last dir name :
  name ∈ snapshot_files dir -> (forall n, n ∈ snapshot_files dir -> String.le n name) ->
  exists names, reverse (snapshot_files dir) = name :: names.
Proof.
  intros Hin Hmax. pose proof (StronglySorted_merge_sort String.le
    (filter (fun n => is_snapshot_name n = true) (map_to_list dir).*1)) as Hs.
  fold (snapshot_files dir) in Hs. revert Hin Hmax Hs.
  generalize (snapshot_files dir). intros l Hin Hmax Hs.
  destruct l as [|x l _] using rev_ind; [by apply elem_of_nil in Hin|].
  exists (reverse l). rewrite reverse_snoc. f_equal.
  apply StronglySorted_app in Hs as (Hs & _).
  apply elem_of_app in Hin as [Hin| ->%list_elem_of_singleton]; [|done].
  apply (anti_symm String.le); [apply Hmax; set_solver|]. apply Hs; [done|left].
Qed.

(** ** Saving and loading *)

Section snapshots.
Context {C : Codec} {L : CodecLaws C}.

Lemma save_lookup s dir : save s dir !! snapshot_filename (sn_wal_record_count s) = Some (serialize s).
Proof.
  unfold save, save_rename, save_write. rewrite lookup_insert_eq. by rewrite lookup_insert_eq.
Qed.

Lemma save_lookup_other s dir name :
  name ≠ snapshot_filename (sn_wal_record_count s) -> is_snapshot_name name = true ->
  save s dir !! name = dir !! name.
Proof.
  intros Hn Hs. assert (name ≠ tmp_filename (sn_wal_record_count s)) as Ht.
  { intros ->. by rewrite tmp_name_ignored in Hs. }
  unfold save, save_rename, save_write. rewrite lookup_insert_eq.
  rewrite lookup_insert_ne by done. rewrite lookup_delete_ne by done. by rewrite lookup_insert_ne.
Qed.

Lemma capture_spec cap e sp n :
  engine_inv cap e sp -> is_u64 n ->
  exists s, capture e n = Some s /\ sn_wal_record_count s = n /\ sn_orders s = sp_all sp /\
       sn_best_bid s = OrderBook.best_bid (e_book e) /\ sn_best_ask s = OrderBook.best_ask (e_book e) /\
       verify_checksum s = Ok tt /\ snapshot_typed s.
Proof.
  intros [R Hcap Hok Hu] Hn. unfold capture, MatchingEngine.book. rewrite (all_resting_orders_rep _ _ R). simpl.
  eexists. split; [done|]. do 4 (split; [done|]).
  split; [unfold verify_checksum; simpl; by rewrite decide_True|].
  assert (Forall order_typed (sp_all sp)) as Ht by (eapply Forall_impl; [exact Hok|]; by intros o [? _]).
  assert (forall s, opt_i64 (best (e_book e) s)) as Hb.
  { intros s. destruct R as (q & free & R). rewrite (rep_best_price R). unfold sp_best, opt_i64.
    apply (sp_side_Forall order_typed s) in Ht. destruct Ht as [|o l Ho _]; simpl; [done|].
    unfold order_typed in Ho. tauto. }
  split_and!; simpl; [done|done|apply (Hb Bid)|apply (Hb Ask)|apply crc32_range].
Qed.

(** The snapshot just saved is the one loaded. *)
Lemma save_load s dir :
  snapshot_typed s -> verify_checksum s = Ok tt -> 0 <= sn_wal_record_count s < 10 ^ 10 ->
  (forall name, is_snapshot_name name = true -> is_Some (dir !! name) ->
     exists m, 0 <= m <= sn_wal_record_count s /\ name = snapshot_filename m) ->
  load_latest (Some (save s dir)) true = Ok (Some s).
Proof.
  intros Ht Hv Hn Hdir. unfold load_latest. set (name := snapshot_filename (sn_wal_record_count s)).
  destruct (snapshot_files_last (save s dir) name) as [names ->].
  - apply elem_of_snapshot_files. split; [apply snapshot_name_ok|]. unfold name. rewrite save_lookup. eauto.
  - intros x [Hx Hd]%elem_of_snapshot_files. destruct (decide (x = name)) as [->|Hne]; [done|].
    rewrite save_lookup_other in Hd by done. destruct (Hdir x Hx Hd) as (m & Hm & ->).
    apply filename_le; lia.
  - simpl. unfold load_from_file, name. rewrite save_lookup, deserialize_serialize by done. simpl.
    by rewrite Hv.
Qed.

Lemma snapshot_files_ext dir dir' :
  (forall name, is_snapshot_name name = true -> dir !! name = dir' !! name) ->
  snapshot_files dir = snapshot_files dir'.
Proof.
  intros H. apply (StronglySorted_unique String.le); try apply (StronglySorted_merge_sort String.le).
  apply NoDup_Permutation.
  - unfold snapshot_files. rewrite (merge_sort_Permutation String.le).
    apply NoDup_filter, NoDup_fst_map_to_list.
  - unfold snapshot_files. rewrite (merge_sort_Permutation String.le).
    apply NoDup_filter, NoDup_fst_map_to_list.
  - intros name. rewrite !elem_of_snapshot_files. split; intros [Hn Hd]; (split; [done|]).
    + by rewrite <- H. 
    + by rewrite H.
Qed.

Lemma load_loop_ext dir dir' names :
  (forall name, name ∈ names -> dir !! name = dir' !! name) -> load_loop dir names = load_loop dir' names.
Proof.
  induction names as [|x names IH]; intros H; [done|]. simpl. unfold load_from_file.
  rewrite H by left. rewrite IH by (intros y Hy; apply H; by right). done.
Qed.

(** Between the two steps of a save the directory still shows the old state. *)
Lemma load_after_write s data dir io :
  load_latest (Some (save_write s data dir)) io = load_latest (Some dir) io.
Proof.
  unfold load_latest. destruct io; [|done].
  assert (forall name, is_snapshot_name name = true -> save_write s data dir !! name = dir !! name) as H.
  { intros name Hn. unfold save_write. apply lookup_insert_ne. intros <-.
    by rewrite tmp_name_ignored in Hn. }
  rewrite (snapshot_files_ext _ dir H), (load_loop_ext _ dir); [done|].
  intros name [Hn _]%elem_of_reverse%elem_of_snapshot_files. auto.
Qed.

(** A file that loads and verifies. *)
Definition valid_file (dir : Dir) (name : string) (s : Snapshot) : Prop :=
  load_from_file dir name = Ok s /\ verify_checksum s = Ok tt.

Lemma load_loop_spec dir names :
  match load_loop dir names with
  | Some s => exists l1 name l2, names = l1 ++ name :: l2 /\ valid_file dir name s /\
                forall n s', n ∈ l1 -> ~ valid_file dir n s'
  | None => forall n s', n ∈ names -> ~ valid_file dir n s'
  end.
Proof.
  induction names as [|x names IH]; simpl; [by intros n s' ?%elem_of_nil|].
  assert ((forall s', ~ valid_file dir x s') \/ exists s', valid_file dir x s' /\
            load_from_file dir x = Ok s' /\ is_ok (verify_checksum s') = true)
    as [Hno|(s & Hv & Hl & Hok)].
  { unfold valid_file. destruct (load_from_file dir x) as [s|]; [|left; by intros s' [? _]].
    destruct (verify_checksum s) as [[]|] eqn:E; [right; exists s; by rewrite E|].
    left. intros s' [[= <-] H]. congruence. }
  - assert ((match load_from_file dir x with
             | Ok snap => if is_ok (verify_checksum snap) then Some snap else load_loop dir names
             | Err _ => load_loop dir names end) = load_loop dir names) as ->.
    { destruct (load_from_file dir x) as [s|] eqn:El; [|done].
      destruct (verify_checksum s) as [[]|] eqn:Ev; [|done]. by destruct (Hno s). }
    destruct (load_loop dir names) as [s|].
    + destruct IH as (l1 & name & l2 & -> & Hv & Hn). exists (x :: l1), name, l2. split; [done|].
      split; [done|]. intros n s' [->|Hin]%elem_of_cons; [apply Hno|by apply Hn].
    + intros n s' [->|Hin]%elem_of_cons; [apply Hno|by apply IH].
  - rewrite Hl, Hok. exists [], x, names. split; [done|]. split; [done|]. by intros n s' ?%elem_of_nil.
Qed.

End snapshots.
