(* ===== verification/SnapshotTests.v ===== *)
(** * SnapshotTests.v: the unit tests of [src/snapshot.rs]

    Definitions over the serialization and checksum the crates provide; the
    lemmas say what a test needs of them.  [tempdir()] is an empty directory. *)

From stdpp Require Import strings.
From S2P Require Import Prelude.
From S2P Require Import Order.
From S2P Require Import Arena.
From S2P Require Import Book.
From S2P Require Import Matching.
From S2P Require Import Snapshot.
From S2P Require Import SnapshotInv.
From S2P Require Import Testing.
From S2P Require Import MatchingTests.

Definition bid (id price qty : Z) : option Order := Order_new id 1 Bid price qty id.
Definition ask (id price qty : Z) : option Order := Order_new id 1 Ask price qty id.

(** [engine_with_orders(&[..])]; each [add_order] is unwrapped. *)
Definition engine_with_orders (orders : list (option Order)) : option MatchingEngine :=
  for_each (fun engine o => '(engine, _) ← call MatchingEngine.add_order engine o; Some engine)
    (MatchingEngine.with_capacity 1024) orders.

Section tests.
Context {C : Codec}.

(** [snap.verify_checksum().unwrap()]. *)
Definition verified (s : Snapshot) : option unit := unwrap (verify_checksum s).

(** [Snapshot::load_latest(dir).unwrap().unwrap()]. *)
Definition loaded_latest (dir : option Dir) : option Snapshot := s ← unwrap (load_latest dir true); s.

Definition capture_empty_book : option unit :=
  let engine := MatchingEngine.with_capacity 64 in
  snap ← capture engine 0;
  assert_eq (sn_wal_record_count snap) 0;;
  assert_eq (sn_orders snap) [];;
  assert_eq (sn_best_bid snap) None;;
  assert_eq (sn_best_ask snap) None;;
  verified snap.

Definition capture_with_orders : option unit :=
  engine ← engine_with_orders [bid 1 100 10; ask 2 110 20];
  snap ← capture engine 5;
  assert_eq (sn_wal_record_count snap) 5;;
  assert_eq (length (sn_orders snap)) 2%nat;;
  assert_eq (sn_best_bid snap) (Some 100);;
  assert_eq (sn_best_ask snap) (Some 110);;
  verified snap.

(** The path [save] returns ends in [snapshot_filename]; the test looks for the
    ten digits in it. *)
Definition save_load_roundtrip : option unit :=
  engine ← engine_with_orders [bid 1 100 10; ask 2 110 20; bid 3 98 30];
  snap ← capture engine 42;
  let dir := save snap ∅ in
  let path := snapshot_filename (sn_wal_record_count snap) in
  assert_that (bool_decide (is_Some (dir !! path)));;
  assert_that (match String.index 0 "0000000042" path with Some _ => true | None => false end);;
  loaded ← loaded_latest (Some dir);
  assert_eq (sn_wal_record_count loaded) 42;;
  assert_eq (length (sn_orders loaded)) 3%nat;;
  assert_eq (sn_best_bid loaded) (Some 100);;
  assert_eq (sn_best_ask loaded) (Some 110);;
  verified loaded.

(** [snap.orders[0].quantity = 999]. *)
Definition set_first_quantity (q : Z) (s : Snapshot) : option Snapshot :=
  match sn_orders s with
  | [] => None
  | o :: os => Some (mkSnapshot (sn_wal_record_count s) (set_quantity q o :: os) (sn_best_bid s) (sn_best_ask s) (sn_checksum s))
  end.

Definition checksum_detects_corruption : option unit :=
  engine ← engine_with_orders [bid 1 100 10];
  snap ← capture engine 1;
  verified snap;;
  snap ← set_first_quantity 999 snap;
  assert_that (negb (is_ok (verify_checksum snap))).

Definition checksum_covers_wal_record_count : option unit :=
  engine ← engine_with_orders [bid 1 100 10];
  snap ← capture engine 7;
  verified snap;;
  let snap := mkSnapshot 6 (sn_orders snap) (sn_best_bid snap) (sn_best_ask snap) (sn_checksum snap) in
  assert_that (negb (is_ok (verify_checksum snap))).

(** [snap.restore(1024).unwrap()]. *)
Definition restored (s : Snapshot) : option MatchingEngine := r ← restore s 1024; unwrap r.

(** The loop over [zip]ped orders that compares their fields. *)
Definition assert_same_orders (xs ys : list Order) : option unit :=
  for_each (fun _ '(orig, rest) =>
    assert_eq (o_id orig) (o_id rest);;
    assert_eq (o_price orig) (o_price rest);;
    assert_eq (o_quantity orig) (o_quantity rest);;
    assert_eq (o_side orig) (o_side rest)) tt (zip xs ys).

Definition restore_produces_identical_book : option unit :=
  engine ← engine_with_orders [bid 1 100 10; ask 2 110 20; bid 3 98 30];
  snap ← capture engine 10;
  restored ← restored snap;
  assert_eq (count_of restored) 3%nat;;
  assert_eq (bid_of restored) (Some 100);;
  assert_eq (ask_of restored) (Some 110);;
  restored_orders ← OrderBook.all_resting_orders (MatchingEngine.book restored);
  assert_eq (length restored_orders) (length (sn_orders snap));;
  assert_same_orders (sn_orders snap) restored_orders.

Definition restore_then_match : option unit :=
  engine ← engine_with_orders [ask 1 100 10];
  snap ← capture engine 1;
  restored ← restored snap;
  '(restored, result) ← call MatchingEngine.add_order restored (Order_new 2 2 Bid 100 10 2);
  assert_eq (length (r_fills result)) 1%nat;;
  assert_at (r_fills result) 0 f_maker_order_id 1.

Definition load_latest_picks_newest : option unit :=
  engine1 ← engine_with_orders [bid 1 100 10];
  snap1 ← capture engine1 10;
  let dir := save snap1 ∅ in
  engine2 ← engine_with_orders [bid 1 100 10; ask 2 110 20];
  snap2 ← capture engine2 20;
  let dir := save snap2 dir in
  loaded ← loaded_latest (Some dir);
  assert_eq (sn_wal_record_count loaded) 20;;
  assert_eq (length (sn_orders loaded)) 2%nat.

Definition load_latest_empty_dir : option unit :=
  loaded ← unwrap (load_latest (Some ∅) true);
  assert_eq loaded None.

Definition load_latest_nonexistent_dir : option unit :=
  loaded ← unwrap (load_latest None true);
  assert_eq loaded None.

(** [b"garbage data"]. *)
Definition garbage : list Z := [103; 97; 114; 98; 97; 103; 101; 32; 100; 97; 116; 97].

Definition load_latest_skips_corrupt_file : option unit :=
  engine ← engine_with_orders [bid 1 100 10];
  snap ← capture engine 10;
  let dir := save snap ∅ in
  let dir := <["snapshot_0000000020.bin"%string := garbage]> dir in
  loaded ← loaded_latest (Some dir);
  assert_eq (sn_wal_record_count loaded) 10.

(** ** Why they pass *)

Lemma verified_own n os bb ba : verified (mkSnapshot n os bb ba (compute_checksum n bb ba os)) = Some tt.
Proof. unfold verified, verify_checksum. cbn. by rewrite decide_True. Qed.

Lemma capture_tests_pass :
  suite_passes [capture_empty_book; capture_with_orders; restore_produces_identical_book; restore_then_match;
    load_latest_empty_dir; load_latest_nonexistent_dir].
Proof.
  unfold suite_passes. repeat apply List.Forall_cons; try apply List.Forall_nil.
  - change (verified (mkSnapshot 0 [] None None (compute_checksum 0 None None [])) = Some tt). apply verified_own.
  - change (verified (mkSnapshot 5 [mkOrder 2 1 Ask 110 20 2; mkOrder 1 1 Bid 100 10 1] (Some 100) (Some 110)
      (compute_checksum 5 (Some 100) (Some 110) [mkOrder 2 1 Ask 110 20 2; mkOrder 1 1 Bid 100 10 1])) = Some tt).
    apply verified_own.
  - reflexivity.
  - reflexivity.
  - reflexivity.
  - reflexivity.
Qed.

(** The snapshots the tests take. *)
Definition snap_of (n : Z) (os : list Order) (bb ba : option Z) : Snapshot :=
  mkSnapshot n os bb ba (compute_checksum n bb ba os).
Definition one_bid : list Order := [mkOrder 1 1 Bid 100 10 1].
Definition bid_ask : list Order := [mkOrder 2 1 Ask 110 20 2; mkOrder 1 1 Bid 100 10 1].
Definition three : list Order := [mkOrder 2 1 Ask 110 20 2; mkOrder 1 1 Bid 100 10 1; mkOrder 3 1 Bid 98 30 3].

Context {L : CodecLaws C}.

Lemma snap_of_typed n os bb ba :
  is_u64 n -> Forall order_typed os -> opt_i64 bb -> opt_i64 ba -> snapshot_typed (snap_of n os bb ba).
Proof. intros. unfold snapshot_typed, snap_of. cbn. split_and!; try done. apply crc32_range. Qed.

Lemma snap_of_valid n os bb ba : verify_checksum (snap_of n os bb ba) = Ok tt.
Proof. unfold verify_checksum, snap_of. cbn. by rewrite decide_True. Qed.

(** A snapshot saved over older ones is the one loaded. *)
Lemma load_saved n os bb ba dir :
  0 <= n < 10 ^ 10 -> Forall order_typed os -> opt_i64 bb -> opt_i64 ba ->
  (forall name, is_snapshot_name name = true -> is_Some (dir !! name) ->
     exists m, 0 <= m <= n /\ name = snapshot_filename m) ->
  loaded_latest (Some (save (snap_of n os bb ba) dir)) = Some (snap_of n os bb ba).
Proof.
  intros Hn Hos Hb Ha Hdir. unfold loaded_latest. rewrite save_load; [done| |apply snap_of_valid|done|done].
  apply snap_of_typed; [unfold is_u64; lia|done..].
Qed.

Ltac typed_snapshot := repeat constructor; simpl; unfold_ranges; lia.

(** Evaluating the lines that build the engine and capture it. *)
Lemma take_snapshot {A} orders n s (k : Snapshot -> option A) :
  (e ← engine_with_orders orders; capture e n) = Some s ->
  (e ← engine_with_orders orders; s ← capture e n; k s) = k s.
Proof. destruct (engine_with_orders orders) as [e|]; cbn [mbind option_bind]; [|done]. by intros ->. Qed.

Lemma save_load_roundtrip_passes : save_load_roundtrip = Some tt.
Proof.
  unfold save_load_roundtrip.
  etransitivity; [apply (take_snapshot _ _ (snap_of 42 three (Some 100) (Some 110))); reflexivity|]. cbv zeta.
  rewrite load_saved; [|lia|typed_snapshot..|].
  2: { intros name _ [x Hx]. by rewrite lookup_empty in Hx. }
  change (sn_wal_record_count (snap_of 42 three (Some 100) (Some 110))) with 42.
  rewrite (assert_that_pass (bool_decide (is_Some _))).
  2: { apply bool_decide_eq_true_2. eexists. exact (save_lookup (snap_of 42 three (Some 100) (Some 110)) ∅). }
  cbn [mbind option_bind]. exact (verified_own 42 three (Some 100) (Some 110)).
Qed.

Lemma load_latest_picks_newest_passes : load_latest_picks_newest = Some tt.
Proof.
  unfold load_latest_picks_newest.
  etransitivity; [apply (take_snapshot _ _ (snap_of 10 one_bid (Some 100) None)); reflexivity|]. cbv zeta.
  etransitivity; [apply (take_snapshot _ _ (snap_of 20 bid_ask (Some 100) (Some 110))); reflexivity|].
  rewrite load_saved; [reflexivity|lia|typed_snapshot..|].
  intros name Hn [x Hx]. destruct (decide (name = snapshot_filename 10)) as [->|Hne]; [exists 10; split; [lia|done]|].
  rewrite save_lookup_other in Hx by done. by rewrite lookup_empty in Hx.
Qed.

Lemma load_latest_skips_corrupt_file_passes : deserialize garbage = None -> load_latest_skips_corrupt_file = Some tt.
Proof.
  intros Hg. unfold load_latest_skips_corrupt_file.
  etransitivity; [apply (take_snapshot _ _ (snap_of 10 one_bid (Some 100) None)); reflexivity|]. cbv zeta.
  set (s := snap_of 10 one_bid (Some 100) None). set (dir := <[_ := garbage]> _).
  assert (reverse (snapshot_files dir) = [snapshot_filename 20; snapshot_filename 10]) as Hfiles by reflexivity.
  assert (load_from_file dir (snapshot_filename 20) = Err SnapDeserialize) as H20.
  { unfold load_from_file. change (dir !! snapshot_filename 20) with (Some garbage). cbv beta iota. by rewrite Hg. }
  assert (load_from_file dir (snapshot_filename 10) = Ok s) as H10.
  { unfold load_from_file. change (dir !! snapshot_filename 10) with (Some (serialize s)). cbv beta iota.
    rewrite deserialize_serialize; [done|]. apply snap_of_typed; typed_snapshot. }
  unfold loaded_latest, load_latest. rewrite Hfiles. cbn [load_loop]. rewrite H20, H10.
  rewrite (snap_of_valid 10 one_bid (Some 100) None : verify_checksum s = Ok tt). reflexivity.
Qed.

(** The checksum tells the changed contents apart. *)
Definition separates : Prop :=
  compute_checksum 1 (Some 100) None [mkOrder 1 1 Bid 100 999 1] ≠ compute_checksum 1 (Some 100) None one_bid /\
  compute_checksum 6 (Some 100) None one_bid ≠ compute_checksum 7 (Some 100) None one_bid.

Lemma rejects n os bb ba c : c ≠ compute_checksum n bb ba os -> is_ok (verify_checksum (mkSnapshot n os bb ba c)) = false.
Proof. intros. unfold verify_checksum. cbn. by rewrite decide_False. Qed.

Lemma checksum_tests_pass : separates -> suite_passes [checksum_detects_corruption; checksum_covers_wal_record_count].
Proof.
  intros [H1 H2]. unfold suite_passes. repeat apply List.Forall_cons; try apply List.Forall_nil.
  - change ((verified (snap_of 1 one_bid (Some 100) None);;
      assert_that (negb (is_ok (verify_checksum (mkSnapshot 1 [mkOrder 1 1 Bid 100 999 1] (Some 100) None
        (compute_checksum 1 (Some 100) None one_bid)))))) = Some tt).
    unfold snap_of. rewrite verified_own, rejects by congruence. reflexivity.
  - change ((verified (snap_of 7 one_bid (Some 100) None);;
      assert_that (negb (is_ok (verify_checksum (mkSnapshot 6 one_bid (Some 100) None
        (compute_checksum 7 (Some 100) None one_bid)))))) = Some tt).
    unfold snap_of. rewrite verified_own, rejects by congruence. reflexivity.
Qed.
End tests.
