(* ===== verification/Recovery.v ===== *)
(** * Recovery.v: rebuilding the engine after a restart ([src/recovery.rs])

    The latest valid snapshot, then the WAL records after the ones it covers. *)

From stdpp Require Import strings.
From S2P Require Import Prelude.
From S2P Require Import Order.
From S2P Require Import Book.
From S2P Require Import Matching.
From S2P Require Import Protocol.
From S2P Require Import Wal.
From S2P Require Import Snapshot.

Inductive RecoveryError : Type :=
| RecWal (e : WalError)
| RecSnapshot (e : SnapshotError).

(** [impl From<WalError>] and [impl From<SnapshotError> for RecoveryError]. *)
Definition RecoveryError_from_wal (e : WalError) : RecoveryError := RecWal e.
Definition RecoveryError_from_snapshot (e : SnapshotError) : RecoveryError := RecSnapshot e.

(** The result of the engine is dropped, as in the live path. *)
Definition replay_command (engine : MatchingEngine) (cmd : EngineCommand) : option MatchingEngine :=
  match cmd with
  | NewOrder order => '(engine, _) ← MatchingEngine.add_order engine order; Some engine
  | CancelOrder order_id => '(engine, _) ← MatchingEngine.cancel_order engine order_id; Some engine
  end.

Section recovery.
Context {C : Codec}.

(** [for result in wal.iter_from(start_record)]. *)
Fixpoint replay_loop (fuel : nat) (engine : MatchingEngine) (wal : Wal) (it : WalIterator)
  (record_count_at_replay : Z) : option (result (MatchingEngine * Wal) RecoveryError) :=
  match fuel with
  | O => None
  | S fuel =>
      '(it, item) ← next crc32 it;
      match item with
      | None => Some (Ok (engine, wal))
      | Some (Ok (_, cmd)) =>
          engine ← replay_command engine cmd;
          replay_loop fuel engine wal it (record_count_at_replay + 1)
      | Some (Err (Corruption offset)) | Some (Err (TruncatedRecord offset)) =>
          wal ← truncate_to wal offset record_count_at_replay;
          Some (Ok (engine, wal))
      | Some (Err e) => Some (Err (RecWal e))
      end
  end.

(** [snapshot_dir] and [wal_file] are what the data directory holds;
    [dir_io], [snap_io] and [wal_io] say whether the system calls that create
    the directory and read the two succeed. *)
Definition recover_with_wal_size (snapshot_dir : option Dir) (wal_file : list Z) (arena_capacity : Z)
  (wal_initial_size : option Z) (dir_io snap_io wal_io : bool)
  : option (result (MatchingEngine * Wal) RecoveryError) :=
  if negb dir_io then Some (Err (RecoveryError_from_wal WalIo)) else
  match load_latest snapshot_dir snap_io with
  | Err e => Some (Err (RecoveryError_from_snapshot e))
  | Ok latest =>
      start ←
        (match latest with
         | Some snap =>
             r ← restore snap arena_capacity;
             Some (result_map (fun engine => (engine, sn_wal_record_count snap)) r)
         | None => Some (Ok (MatchingEngine.with_capacity arena_capacity, 0))
         end);
      match start with
      | Err e => Some (Err (RecoveryError_from_snapshot e))
      | Ok (engine, start_record) =>
          w ← (match wal_initial_size with
               | Some size => open_with_size crc32 wal_file size wal_io
               | None => open crc32 wal_file wal_io
               end);
          match w with
          | Err e => Some (Err (RecoveryError_from_wal e))
          | Ok wal =>
              replay_loop (S (length (w_mmap wal))) engine wal (iter_from wal start_record) start_record
          end
      end
  end.

Definition recover (snapshot_dir : option Dir) (wal_file : list Z) (arena_capacity : Z)
  (dir_io snap_io wal_io : bool)
  : option (result (MatchingEngine * Wal) RecoveryError) :=
  recover_with_wal_size snapshot_dir wal_file arena_capacity None dir_io snap_io wal_io.

End recovery.
