(* ===== verification/RecoveryInv.v ===== *)
(** * RecoveryInv.v: replaying a log

    Matching does not look at timestamps, so replaying the WAL (which does not
    store them) leads to the same book up to timestamps; the replay loop runs
    exactly the commands of the records after the snapshot. *)

From stdpp Require Import strings.
From S2P Require Import Prelude.
From S2P Require Import Order.
From S2P Require Import Arena.
From S2P Require Import ArenaInv.
From S2P Require Import Book.
From S2P Require Import BookSpec.
From S2P Require Import BookInv.
From S2P Require Import Matching.
From S2P Require Import MatchingSpec.
From S2P Require Import MatchingInv.
From S2P Require Import Protocol.
From S2P Require Import ProtocolInv.
From S2P Require Import Engine.
From S2P Require Import Wal.
From S2P Require Import WalInv.
From S2P Require Import WalThm.
From S2P Require Import Snapshot.
From S2P Require Import SnapshotInv.
From S2P Require Import Recovery.

(** ** Timestamps do not matter *)

Abbreviation strip := (set_timestamp 0).

Definition strip_book (sp : SpecBook) : SpecBook := mkSpec (strip <$> sp_bids sp) (strip <$> sp_asks sp).

Definition strip_response (r : Response) : Response :=
  match r with
  | RAdd r => RAdd r
  | RCancel r => RCancel (result_map strip r)
  end.

Lemma sp_side_strip sp s : sp_side (strip_book sp) s = strip <$> sp_side sp s.
Proof. by destruct s. Qed.

Lemma sp_all_strip sp : sp_all (strip_book sp) = strip <$> sp_all sp.
Proof. unfold sp_all. simpl. by rewrite fmap_app. Qed.

Lemma ids_strip (L : list Order) : o_id <$> (strip <$> L) = o_id <$> L.
Proof. rewrite <- list_fmap_compose. by apply list_fmap_ext. Qed.

Lemma sp_ids_strip sp : sp_ids (strip_book sp) = sp_ids sp.
Proof. unfold sp_ids. by rewrite sp_all_strip, ids_strip. Qed.

Lemma sp_set_strip s L sp : sp_set s (strip <$> L) (strip_book sp) = strip_book (sp_set s L sp).
Proof. by destruct s. Qed.

Lemma strip_set_quantity q o : set_quantity q (strip o) = strip (set_quantity q o).
Proof. done. Qed.

Lemma insert_prio_strip s o (L : list Order) : insert_prio s (strip o) (strip <$> L) = strip <$> insert_prio s o L.
Proof.
  induction L as [|x L IH]; [done|]. rewrite fmap_cons. cbn [insert_prio].
  change (o_price (strip ?y)) with (o_price y). case_decide; rewrite !fmap_cons; [done|]. by rewrite IH.
Qed.

Lemma spec_match_strip taker q (L : list Order) :
  spec_match (strip taker) q (strip <$> L) =
    let '(fs, L', q', st) := spec_match taker q L in (fs, strip <$> L', q', st).
Proof.
  revert q. induction L as [|m L IH]; intros q; [done|]. rewrite fmap_cons. cbn [spec_match].
  cbn [set_timestamp o_id o_trader_id o_side o_price o_quantity].
  destruct (decide (q > 0)); [|done]. destruct (decide (crosses _ _ _)); [|done].
  destruct (decide (o_trader_id m = o_trader_id taker)); [done|].
  destruct (decide _); [|done]. rewrite IH. by destruct (spec_match taker _ L) as [[[??]?]?].
Qed.

Lemma spec_insert_strip cap sp o :
  spec_insert cap (strip_book sp) (strip o) =
    let '(sp', r) := spec_insert cap sp o in (strip_book sp', r).
Proof.
  unfold spec_insert. rewrite sp_ids_strip, sp_all_strip, length_fmap. simpl.
  repeat case_decide; try done. by rewrite sp_side_strip, insert_prio_strip, sp_set_strip.
Qed.

Lemma spec_add_strip cap sp o :
  spec_add cap (strip_book sp) (strip o) =
    let '(sp', fs, r) := spec_add cap sp o in (strip_book sp', fs, r).
Proof.
  unfold spec_add. simpl. case_decide; [done|]. rewrite sp_side_strip, spec_match_strip.
  destruct (spec_match _ _ _) as [[[fs L] q] st]. rewrite sp_set_strip.
  destruct st; [done|]. case_decide; [done|]. rewrite strip_set_quantity, spec_insert_strip.
  by destruct (spec_insert _ _ _) as [? []].
Qed.

Lemma filter_strip (P : Order -> Prop) `{!forall x, Decision (P x)} (L : list Order) :
  (forall o, P (strip o) <-> P o) -> filter P (strip <$> L) = strip <$> filter P L.
Proof.
  intros HP. induction L as [|x L IH]; [done|]. rewrite fmap_cons, !filter_cons, IH.
  repeat case_decide; naive_solver.
Qed.

Lemma spec_cancel_strip sp id :
  spec_cancel (strip_book sp) id =
    let '(sp', r) := spec_cancel sp id in (strip_book sp', result_map strip r).
Proof.
  unfold spec_cancel. rewrite sp_all_strip, filter_strip by done.
  destruct (filter _ _) as [|o l]; [done|]. simpl. f_equal.
  unfold strip_book, without_id. simpl. f_equal; by apply filter_strip.
Qed.

Lemma spec_exec_strip cap sp c :
  spec_exec cap (strip_book sp) (untimed c) =
    let '(sp', r) := spec_exec cap sp c in (strip_book sp', strip_response r).
Proof.
  destruct c as [o|id]; simpl.
  - rewrite spec_add_strip. by destruct (spec_add cap sp o) as [[??]?].
  - rewrite spec_cancel_strip. by destruct (spec_cancel sp id) as [? []].
Qed.

Lemma spec_run_strip cap cs sp :
  spec_run cap (strip_book sp) (untimed <$> cs) =
    let '(sp', rs) := spec_run cap sp cs in (strip_book sp', strip_response <$> rs).
Proof.
  revert sp. induction cs as [|c cs IH]; intros sp; [done|]. rewrite fmap_cons. simpl.
  rewrite spec_exec_strip. destruct (spec_exec cap sp c) as [sp1 r]. rewrite IH.
  by destruct (spec_run cap sp1 cs).
Qed.

(** Books and commands that agree up to timestamps stay so, with the same
    responses up to timestamps. *)
Lemma spec_run_up_to cap cs cs' sp sp' :
  strip_book sp = strip_book sp' -> untimed <$> cs = untimed <$> cs' ->
  strip_book (fst (spec_run cap sp cs)) = strip_book (fst (spec_run cap sp' cs')) /\
  strip_response <$> snd (spec_run cap sp cs) = strip_response <$> snd (spec_run cap sp' cs').
Proof.
  intros Hsp Hcs. pose proof (spec_run_strip cap cs sp) as H1. pose proof (spec_run_strip cap cs' sp') as H2.
  rewrite <- Hsp, <- Hcs, H1 in H2.
  destruct (spec_run cap sp cs), (spec_run cap sp' cs').
  split; [exact (f_equal fst H2)|exact (f_equal snd H2)].
Qed.

Lemma strip_orders sp sp' : strip_book sp = strip_book sp' -> strip <$> sp_all sp = strip <$> sp_all sp'.
Proof. intros H. by rewrite <- !sp_all_strip, H. Qed.

Lemma strip_best sp sp' s : strip_book sp = strip_book sp' -> sp_best sp s = sp_best sp' s.
Proof.
  intros H. apply (f_equal (fun sp => sp_side sp s)) in H. rewrite !sp_side_strip in H. unfold sp_best.
  destruct (sp_side sp s) as [|x l], (sp_side sp' s) as [|y l']; try done.
  rewrite !fmap_cons in H. assert (strip x = strip y) as E by congruence.
  apply (f_equal o_price) in E. simpl in *. congruence.
Qed.

(** ** Replaying the records of a log *)

Lemma replay_command_exec e c : replay_command e c = fst <$> exec e c.
Proof.
  destruct c as [o|id]; simpl.
  - by destruct (MatchingEngine.add_order e o) as [[??]|].
  - by destruct (MatchingEngine.cancel_order e id) as [[??]|].
Qed.

Lemma typed_untimed_in_range c : command_typed c -> command_in_range (untimed c).
Proof.
  destruct c as [o|id]; simpl; [|done]. intros [(? & ? & ? & ? & ?) _].
  unfold order_typed; simpl. split_and!; try done; unfold is_u64; lia.
Qed.

Lemma replay_command_spec cap e sp c :
  engine_inv cap e sp -> command_typed c ->
  exists e', replay_command e (untimed c) = Some e' /\
        engine_inv cap e' (fst (spec_exec cap sp (untimed c))).
Proof.
  intros Hinv Hc%typed_untimed_in_range. rewrite replay_command_exec.
  destruct (exec_spec cap e sp _ Hinv Hc) as (e' & -> & H). by exists e'.
Qed.

Section replay.
Context {C : Codec} {L : CodecLaws C}.

Lemma replay_loop_spec cap cs fuel e sp w it fs1 k :
  it_at crc32 it fs1 (command_frame <$> cs) -> it_start_record it <= it_current_record it ->
  Forall command_typed cs -> (length cs < fuel)%nat -> engine_inv cap e sp ->
  exists e', replay_loop fuel e w it k = Some (Ok (e', w)) /\
        engine_inv cap e' (fst (spec_run cap sp (untimed <$> cs))).
Proof.
  intros Hit Hst Hcs. revert fuel e sp it fs1 k Hit Hst.
  induction Hcs as [|c cs Hc _ IH]; intros fuel e sp it fs1 k Hit Hst Hfuel Hinv;
    (destruct fuel as [|fuel]; [simpl in Hfuel; lia|]); cbn [replay_loop]; unfold next.
  - rewrite (next_loop_end crc32 _ _ _ Hit). simpl. by exists e.
  - rewrite fmap_cons in *. rewrite (next_loop_frame crc32 crc32_range _ _ _ _ _ Hit).
    rewrite decide_False by lia. cbn [mbind option_bind].
    rewrite record_item_command by done.
    destruct (replay_command_spec cap e sp c Hinv Hc) as (e1 & -> & H1). cbn [mbind option_bind].
    destruct (IH fuel e1 (fst (spec_exec cap sp (untimed c))) (advance crc32 it (command_frame c)) _ (k + 1)
                (advance_at crc32 _ _ _ _ Hit)) as (e' & Hr & H');
      [simpl; lia|simpl in Hfuel; lia|exact H1|].
    exists e'. split; [done|]. cbn [spec_run].
    destruct (spec_exec cap sp (untimed c)) as [sp1 r]. simpl in *.
    by destruct (spec_run cap sp1 (untimed <$> cs)).
Qed.

(** Replaying from record [start] runs the commands after it. *)
Lemma replay_from cap w fs start cs e sp :
  wal_rep crc32 w fs -> 0 <= start -> drop (Z.to_nat start) fs = command_frame <$> cs ->
  Forall command_typed cs -> engine_inv cap e sp ->
  exists e', replay_loop (S (length (w_mmap w))) e w (iter_from w start) start = Some (Ok (e', w)) /\
        engine_inv cap e' (fst (spec_run cap sp (untimed <$> cs))).
Proof.
  intros R Hst Hdrop Hcs Hinv. pose proof (iter_from_at crc32 w fs start R) as Hit.
  pose proof (length_log_data crc32 _ _ _ Hit) as Hlen.
  change (it_mmap (iter_from w start)) with (w_mmap w) in Hlen.
  pose proof (next_spec crc32 crc32_range fs (S (length (w_mmap w))) _ [] Hit ltac:(lia)) as Hn.
  change (it_start_record (iter_from w start)) with start in Hn.
  change (it_current_record (iter_from w start)) with 0 in Hn. cbv zeta in Hn. rewrite Z.sub_0_r in Hn.
  cbn [replay_loop]. unfold next. change (it_mmap (iter_from w start)) with (w_mmap w).
  pose proof (length_drop fs (Z.to_nat start)) as Hdl. rewrite Hdrop in Hn, Hdl.
  destruct Hcs as [|c cs Hc Hcs].
  - destruct Hn as (it' & ->). simpl. by exists e.
  - destruct Hn as (it' & Hat & Hs & Hm & ->). cbn [mbind option_bind].
    rewrite record_item_command by done.
    destruct (replay_command_spec cap e sp c Hinv Hc) as (e1 & -> & H1). cbn [mbind option_bind].
    assert (it_current_record it' = start + 1) as Hcur.
    { rewrite (ia_current crc32 _ _ _ Hat), !length_app, length_take. simpl in *. lia. }
    destruct (replay_loop_spec cap cs (length (w_mmap w)) e1 (fst (spec_exec cap sp (untimed c))) w it' _ (start + 1) Hat)
      as (e' & Hr & H'); [lia|done| |exact H1|].
    { simpl in Hdl. rewrite length_fmap in Hdl. lia. }
    exists e'. split; [done|]. rewrite fmap_cons. cbn [spec_run].
    destruct (spec_exec cap sp (untimed c)) as [sp1 r]. simpl in *.
    by destruct (spec_run cap sp1 (untimed <$> cs)).
Qed.

Lemma spec_run_app cap cs1 cs2 sp :
  fst (spec_run cap sp (cs1 ++ cs2)) = fst (spec_run cap (fst (spec_run cap sp cs1)) cs2).
Proof.
  revert sp. induction cs1 as [|c cs1 IH]; intros sp; [done|]. simpl.
  destruct (spec_exec cap sp c) as [sp1 r]. specialize (IH sp1).
  destruct (spec_run cap sp1 (cs1 ++ cs2)), (spec_run cap sp1 cs1). simpl in *. congruence.
Qed.

(** [sp] is the book after the commands [cs] from the empty book, up to timestamps. *)
Definition book_after (cap : Z) (cs : list EngineCommand) (sp : SpecBook) : Prop :=
  strip_book sp = strip_book (fst (spec_run cap sp_empty cs)).

Lemma book_after_app cap cs cs' sp :
  book_after cap cs sp -> book_after cap (cs ++ cs') (fst (spec_run cap sp cs')).
Proof.
  intros H. unfold book_after. rewrite spec_run_app. by apply spec_run_up_to.
Qed.

(** [s] is a snapshot of an engine after the commands [cs]. *)
Definition snapshot_after (cap : Z) (cs : list EngineCommand) (s : Snapshot) : Prop :=
  exists e sp, engine_inv cap e sp /\ book_after cap cs sp /\ sn_orders s = sp_all sp /\
    sn_wal_record_count s = Z.of_nat (length cs).

(** The engine recovery starts from stands for [sp1], and [n] records are covered:
    by the snapshot, or none without a snapshot. *)
Definition starts_from (cap : Z) (latest : option Snapshot) (n : nat) (sp1 : SpecBook) : Prop :=
  match latest with
  | Some s => sn_orders s = sp_all sp1 /\ sn_wal_record_count s = Z.of_nat n /\ exists e1, engine_inv cap e1 sp1
  | None => n = 0%nat /\ sp1 = sp_empty
  end.

Lemma recover_start cap latest n sp1 :
  0 <= cap < 2 ^ 32 -> starts_from cap latest n sp1 ->
  exists e0, (match latest with
            | Some snap => r ← restore snap cap; Some (result_map (fun engine => (engine, sn_wal_record_count snap)) r)
            | None => Some (Ok (MatchingEngine.with_capacity cap, 0)) end)
            = Some (Ok (e0, Z.of_nat n)) /\ engine_inv cap e0 sp1.
Proof.
  intros Hcap Hsnap. destruct latest as [s|].
  - destruct Hsnap as (Hso & Hsc & e1 & I1). unfold restore. rewrite Hso, Hsc.
    destruct (restore_canonical (e_book e1) sp1 cap (inv_rep _ _ _ I1)) as (e0 & -> & R0 & Hc0 & _).
    { rewrite (inv_capacity _ _ _ I1). lia. }
    simpl. exists e0. split; [done|]. destruct I1. by split.
  - destruct Hsnap as [-> ->]. exists (MatchingEngine.with_capacity cap). split; [done|by apply with_capacity_inv].
Qed.

(** Recovery restores the book [sp1] of the snapshot (the empty one without a
    snapshot) and runs the commands of the records it does not cover. *)
Lemma recover_runs cap dir latest file size w fs n cs sp1 :
  0 <= cap < 2 ^ 32 -> Forall command_typed cs -> load_latest dir true = Ok latest ->
  starts_from cap latest n sp1 ->
  open_with_size crc32 file size true = Some (Ok w) -> wal_rep crc32 w fs ->
  drop n fs = command_frame <$> cs ->
  exists e, recover_with_wal_size dir file cap (Some size) true true true = Some (Ok (e, w)) /\
    engine_inv cap e (fst (spec_run cap sp1 (untimed <$> cs))).
Proof.
  intros Hcap Hcs Hl Hsnap Ho R Hdrop. destruct (recover_start cap latest n sp1 Hcap Hsnap) as (e0 & Hstart & I0).
  unfold recover_with_wal_size. rewrite Hl, Hstart. cbn [mbind option_bind]. rewrite Ho. cbn [mbind option_bind].
  destruct (replay_from cap w _ (Z.of_nat n) cs e0 sp1 R ltac:(lia)) as (e' & -> & I'); try done.
  { by rewrite Nat2Z.id. }
  by exists e'.
Qed.

(** Recovery from a snapshot of the state after [cs1] and a log whose records
    after the first [length cs1] are [cs2]: the book after all of them. *)
Lemma recover_from cap dir latest file size w fs cs1 cs2 :
  0 <= cap < 2 ^ 32 -> Forall command_typed cs2 -> load_latest dir true = Ok latest ->
  match latest with Some s => snapshot_after cap cs1 s | None => cs1 = [] end ->
  open_with_size crc32 file size true = Some (Ok w) -> wal_rep crc32 w fs ->
  drop (length cs1) fs = command_frame <$> cs2 ->
  exists e sp', recover_with_wal_size dir file cap (Some size) true true true = Some (Ok (e, w)) /\
    engine_inv cap e sp' /\ book_after cap (cs1 ++ cs2) sp'.
Proof.
  intros Hcap Hcs2 Hl Hsnap Ho R Hdrop.
  assert (exists sp1, book_after cap cs1 sp1 /\ match latest with
    | Some s => sn_orders s = sp_all sp1 /\ sn_wal_record_count s = Z.of_nat (length cs1) /\ exists e1, engine_inv cap e1 sp1
    | None => length cs1 = 0%nat /\ sp1 = sp_empty end) as (sp1 & B1 & Hlat).
  { destruct latest as [s|]; [|subst cs1; by exists sp_empty].
    destruct Hsnap as (e1 & sp1 & I1 & B1 & Hso & Hsc). exists sp1. eauto. }
  destruct (recover_runs cap dir latest file size w fs _ cs2 sp1 Hcap Hcs2 Hl Hlat Ho R Hdrop) as (e & Hr & I).
  exists e. eexists. split; [done|]. split; [exact I|]. unfold book_after.
  rewrite spec_run_app. apply spec_run_up_to; [done|].
  rewrite <- list_fmap_compose. apply list_fmap_ext. intros i [o|id] _; done.
Qed.

(** The usual case: the log holds [cs1 ++ cs2]. *)
Lemma recover_spec cap dir latest file size w cs1 cs2 :
  0 <= cap < 2 ^ 32 -> Forall command_typed (cs1 ++ cs2) ->
  load_latest dir true = Ok latest ->
  match latest with Some s => snapshot_after cap cs1 s | None => cs1 = [] end ->
  open_with_size crc32 file size true = Some (Ok w) ->
  wal_rep crc32 w (command_frame <$> (cs1 ++ cs2)) ->
  exists e sp', recover_with_wal_size dir file cap (Some size) true true true = Some (Ok (e, w)) /\
    engine_inv cap e sp' /\ book_after cap (cs1 ++ cs2) sp'.
Proof.
  intros Hcap Hcs Hl Hsnap Ho R. apply Forall_app in Hcs as [_ Hcs2].
  eapply recover_from; try done. rewrite fmap_app. by rewrite drop_app_length' by (by rewrite length_fmap).
Qed.

Lemma replay_loop_refuses cap cs fuel e sp w it fs1 f fs2 err k :
  it_at crc32 it fs1 ((command_frame <$> cs) ++ f :: fs2) -> it_start_record it <= it_current_record it ->
  Forall command_typed cs -> (length cs < fuel)%nat -> engine_inv cap e sp ->
  decode_message (fr_payload f) = Err err ->
  replay_loop fuel e w it k = Some (Err (RecWal (WalProtocol err))).
Proof.
  intros Hit Hst Hcs. revert fuel e sp it fs1 k Hit Hst.
  induction Hcs as [|c cs Hc _ IH]; intros fuel e sp it fs1 k Hit Hst Hfuel Hinv Hf;
    (destruct fuel as [|fuel]; [simpl in Hfuel; lia|]); cbn [replay_loop]; unfold next.
  - rewrite (next_loop_frame crc32 crc32_range _ _ _ _ _ Hit). rewrite decide_False by lia.
    unfold record_item. rewrite Hf. done.
  - rewrite fmap_cons in Hit. rewrite (next_loop_frame crc32 crc32_range _ _ _ _ _ Hit).
    rewrite decide_False by lia. cbn [mbind option_bind]. rewrite record_item_command by done.
    destruct (replay_command_spec cap e sp c Hinv Hc) as (e1 & -> & H1). cbn [mbind option_bind].
    eapply (IH fuel e1 _ (advance crc32 it (command_frame c)) _ (k + 1));
      [apply (advance_at crc32 _ _ _ _ Hit)|simpl; lia|simpl in Hfuel; lia|exact H1|exact Hf].
Qed.

Lemma replay_from_refuses cap w fs1 cs f fs2 err e sp :
  wal_rep crc32 w (fs1 ++ (command_frame <$> cs) ++ f :: fs2) -> Forall command_typed cs ->
  decode_message (fr_payload f) = Err err -> engine_inv cap e sp ->
  replay_loop (S (length (w_mmap w))) e w (iter_from w (Z.of_nat (length fs1))) (Z.of_nat (length fs1)) =
    Some (Err (RecWal (WalProtocol err))).
Proof.
  intros R Hcs Herr Hinv. set (fs := fs1 ++ _) in R. set (start := Z.of_nat (length fs1)).
  pose proof (iter_from_at crc32 w fs start R) as Hit. pose proof (length_log_data crc32 _ _ _ Hit) as Hlen.
  change (it_mmap (iter_from w start)) with (w_mmap w) in Hlen.
  assert (length fs = (length fs1 + (length cs + S (length fs2)))%nat) as Hfs.
  { unfold fs. rewrite !length_app, length_fmap. done. }
  pose proof (next_spec crc32 crc32_range fs (S (length (w_mmap w))) _ [] Hit ltac:(lia)) as Hn.
  change (it_start_record (iter_from w start)) with start in Hn.
  change (it_current_record (iter_from w start)) with 0 in Hn. cbv zeta in Hn. rewrite Z.sub_0_r in Hn.
  assert (Z.to_nat start = length fs1) as Est by (unfold start; lia).
  rewrite Est in Hn. assert (drop (length fs1) fs = (command_frame <$> cs) ++ f :: fs2) as Hd by apply drop_app_length.
  rewrite Hd in Hn.
  cbn [replay_loop]. unfold next. change (it_mmap (iter_from w start)) with (w_mmap w).
  destruct Hcs as [|c cs Hc Hcs].
  - destruct Hn as (it' & _ & _ & _ & ->). cbn [mbind option_bind]. unfold record_item. by rewrite Herr.
  - destruct Hn as (it' & Hat & Hs & Hm & ->). cbn [mbind option_bind]. rewrite record_item_command by done.
    destruct (replay_command_spec cap e sp c Hinv Hc) as (e1 & -> & H1). cbn [mbind option_bind].
    assert (it_current_record it' = start + 1) as Hcur.
    { rewrite (ia_current crc32 _ _ _ Hat), !length_app, length_take. cbn [length] in *. lia. }
    eapply (replay_loop_refuses cap cs); [exact Hat|lia|done| |exact H1|exact Herr].
    cbn [length] in Hfs. lia.
Qed.

(** Recovery from a log that holds, after the records covered, commands and then a
    record that is no message. *)
Lemma recover_refuses cap dir latest file size w fs1 sp1 cs f fs2 err :
  0 <= cap < 2 ^ 32 -> Forall command_typed cs -> decode_message (fr_payload f) = Err err ->
  load_latest dir true = Ok latest -> starts_from cap latest (length fs1) sp1 ->
  open_with_size crc32 file size true = Some (Ok w) -> wal_rep crc32 w (fs1 ++ (command_frame <$> cs) ++ f :: fs2) ->
  recover_with_wal_size dir file cap (Some size) true true true = Some (Err (RecWal (WalProtocol err))).
Proof.
  intros Hcap Hcs Herr Hl Hsnap Ho R. destruct (recover_start cap latest _ sp1 Hcap Hsnap) as (e0 & Hstart & I0).
  unfold recover_with_wal_size. rewrite Hl, Hstart. cbn [mbind option_bind negb]. rewrite Ho. cbn [mbind option_bind].
  by eapply replay_from_refuses.
Qed.

End replay.
