(* ===== verification/RecoveryTests.v ===== *)
(** * RecoveryTests.v: the unit tests of [src/recovery.rs]

    The tests run recovery with the default log size, so they are proved from
    the lemmas on recovery, for every codec and checksum with the documented
    laws. *)

From stdpp Require Import strings.
From S2P Require Import Prelude.
From S2P Require Import Order.
From S2P Require Import Arena.
From S2P Require Import Book.
From S2P Require Import BookSpec.
From S2P Require Import BookInv.
From S2P Require Import Matching.
From S2P Require Import MatchingSpec.
From S2P Require Import MatchingInv.
From S2P Require Import Protocol.
From S2P Require Import ProtocolInv.
From S2P Require Import Engine.
From S2P Require Import Wal.
From S2P Require Import WalInv.
From S2P Require Import WalThm.
From S2P Require Import Snapshot.
From S2P Require Import SnapshotInv.
From S2P Require Import Recovery.
From S2P Require Import RecoveryInv.
From S2P Require Import Testing.
From S2P Require Import MatchingTests.
From S2P Require Import WalTests.
From S2P Require Import SnapshotTests.

(** [Order::new(id, id, side, price, qty, id).unwrap()]; the quantities are positive. *)
Definition bid (id price qty : Z) : Order := mkOrder id id Bid price qty id.
Definition ask (id price qty : Z) : Order := mkOrder id id Ask price qty id.

Section tests.
Context {C : Codec}.

(** [recover(&data_dir, 1024).unwrap()]; the snapshot directory is [dir], the
    log file holds [file]. *)
Definition recovered (dir : option Dir) (file : list Z) : option (MatchingEngine * Wal) :=
  r ← recover dir file 1024 true true true; unwrap r.

(** [{ let mut wal = Wal::open(..).unwrap(); wal.append(..).unwrap(); .. }]:
    the file left behind. *)
Definition log_file (cs : list EngineCommand) : option (list Z) :=
  wal ← opened crc32 []; wal ← append_each crc32 wal cs; Some (w_file wal).

(** [engine.add_order(order).unwrap();] for each. *)
Definition engine_of (orders : list Order) : option MatchingEngine :=
  for_each (fun engine o => '(engine, _) ← call MatchingEngine.add_order engine (Some o); Some engine)
    (MatchingEngine.with_capacity 1024) orders.

(** [Snapshot::capture(&engine, n).save(&snap_dir).unwrap()] into a new directory. *)
Definition snapshot_dir (orders : list Order) (n : Z) : option Dir :=
  engine ← engine_of orders; snap ← capture engine n; Some (save snap ∅).

Definition fresh_start_no_files : option unit :=
  '(engine, wal) ← recovered None [];
  assert_eq (count_of engine) 0%nat;;
  assert_eq (record_count wal) 0.

(** [[payload_len = 1][crc32 = 0xFF000000][payload 0xFF][7 bytes padding]]. *)
Definition bad_record : list Z := to_le 4 1 ++ to_le 4 4278190080 ++ [255] ++ replicate 7 0.

(** One [recover_with_wal_size] of the loop: the protocol error, and the file as
    [open] leaves it. *)
Definition refused_recovery (file : list Z) : option (list Z) :=
  r ← recover_with_wal_size None file 1024 (Some 65536) true true true;
  match r with
  | Err (RecWal (WalProtocol e)) => assert_eq e (UnknownMessageType 255)
  | _ => None
  end;;
  w ← open_with_size crc32 file 65536 true;
  w ← unwrap w;
  Some (w_file w).

Definition crc_valid_undecodable_record_refuses_to_start : option unit :=
  assert_eq (crc32 [255]) 4278190080;;
  let record := bad_record in
  assert_eq (length record) 16%nat;;
  w ← open_with_size crc32 record 65536 true;
  wal ← unwrap w;
  assert_eq (record_count wal) 1;;
  file ← refused_recovery (w_file wal);
  file ← refused_recovery file;
  assert_eq (take 16 file) record.

Definition wal_only_recovery : option unit :=
  file ← log_file [NewOrder (bid 1 100 10); NewOrder (ask 2 110 20); NewOrder (bid 3 98 30)];
  '(engine, wal) ← recovered None file;
  assert_eq (count_of engine) 3%nat;;
  assert_eq (bid_of engine) (Some 100);;
  assert_eq (ask_of engine) (Some 110);;
  assert_eq (record_count wal) 3.

Definition snapshot_only_recovery : option unit :=
  dir ← snapshot_dir [bid 1 100 10; ask 2 110 20] 2;
  '(recovered, wal) ← recovered (Some dir) [];
  assert_eq (count_of recovered) 2%nat;;
  assert_eq (bid_of recovered) (Some 100);;
  assert_eq (ask_of recovered) (Some 110);;
  assert_eq (record_count wal) 0.

Definition snapshot_plus_wal_recovery : option unit :=
  dir ← snapshot_dir [bid 1 100 10; ask 2 110 20] 2;
  file ← log_file [NewOrder (bid 1 100 10); NewOrder (ask 2 110 20); NewOrder (bid 3 98 30)];
  '(recovered, wal) ← recovered (Some dir) file;
  assert_eq (count_of recovered) 3%nat;;
  assert_eq (bid_of recovered) (Some 100);;
  assert_eq (record_count wal) 3.

Definition recovery_matches_full_replay : option unit :=
  let orders := [bid 1 100 10; ask 2 110 20; bid 3 98 30; ask 4 105 15] in
  full_engine ← engine_of orders;
  dir ← snapshot_dir [bid 1 100 10; ask 2 110 20] 2;
  file ← log_file (NewOrder <$> orders);
  '(recovered, _) ← recovered (Some dir) file;
  full_orders ← OrderBook.all_resting_orders (MatchingEngine.book full_engine);
  recovered_orders ← OrderBook.all_resting_orders (MatchingEngine.book recovered);
  assert_eq (length full_orders) (length recovered_orders);;
  assert_same_orders full_orders recovered_orders.

Definition truncated_wal_recovery : option unit :=
  file ← log_file [NewOrder (bid 1 100 10); NewOrder (ask 2 110 20); NewOrder (bid 3 98 30)];
  '(engine, wal) ← recovered None file;
  assert_eq (count_of engine) 3%nat;;
  assert_eq (record_count wal) 3.

Definition deterministic_replay : option unit :=
  let orders := [bid 1 100 10; ask 2 110 20; bid 3 98 30; ask 4 105 15; bid 5 108 25] in
  data1 ← log_file (NewOrder <$> orders);
  data2 ← log_file (NewOrder <$> orders);
  '(engine1, _) ← recovered None data1;
  '(engine2, _) ← recovered None data2;
  orders1 ← OrderBook.all_resting_orders (MatchingEngine.book engine1);
  orders2 ← OrderBook.all_resting_orders (MatchingEngine.book engine2);
  assert_eq (length orders1) (length orders2);;
  assert_same_orders orders1 orders2.

Definition recovery_with_cancels : option unit :=
  file ← log_file [NewOrder (bid 1 100 10); NewOrder (ask 2 110 20); CancelOrder 1];
  '(engine, wal) ← recovered None file;
  assert_eq (count_of engine) 1%nat;;
  assert_eq (bid_of engine) None;;
  assert_eq (ask_of engine) (Some 110);;
  assert_eq (record_count wal) 3.

(** ** Why they pass *)

Context {L : CodecLaws C}.

Lemma log_file_spec cs :
  exists file w, log_file cs = Some file /\
    open_with_size crc32 file DEFAULT_INITIAL_SIZE true = Some (Ok w) /\ wal_rep crc32 w (command_frame <$> cs).
Proof.
  unfold log_file. destruct (opened_fresh crc32 crc32_range) as (w0 & -> & R0). cbn [mbind option_bind].
  destruct (append_each_spec crc32 cs w0 [] R0) as (w & -> & R). cbn [mbind option_bind app] in *.
  destruct (reopen_log crc32 crc32_range w _ DEFAULT_INITIAL_SIZE R) as (w' & Ho & R'); [unfold DEFAULT_INITIAL_SIZE; lia|].
  exists (w_file w), w'. split; [reflexivity|]. exact (conj Ho R').
Qed.

(** What a recovered engine shows, given the commands behind its book. *)
Definition shows (e : MatchingEngine) (cs : list EngineCommand) : Prop :=
  let sp := fst (spec_run 1024 sp_empty cs) in
  count_of e = length (sp_all sp) /\ bid_of e = sp_best sp Bid /\ ask_of e = sp_best sp Ask /\
  exists os, OrderBook.all_resting_orders (MatchingEngine.book e) = Some os /\ strip <$> os = strip <$> sp_all sp.

Lemma strip_length (xs ys : list Order) : strip <$> xs = strip <$> ys -> length xs = length ys.
Proof. intros H%(f_equal length). by rewrite !length_fmap in H. Qed.

Lemma book_after_shows e sp cs : engine_inv 1024 e sp -> book_after 1024 cs sp -> shows e cs.
Proof.
  intros I B. unfold shows, count_of, bid_of, ask_of, MatchingEngine.book. cbv zeta.
  assert (strip <$> sp_all sp = strip <$> sp_all (fst (spec_run 1024 sp_empty cs))) as Hs.
  { by apply strip_orders. }
  pose proof (inv_rep _ _ _ I) as R. split_and!.
  - rewrite (represents_count _ _ R). by apply strip_length.
  - destruct R as (q & free & R). rewrite <- (strip_best _ _ Bid B). exact (rep_best_price R Bid).
  - destruct R as (q & free & R). rewrite <- (strip_best _ _ Ask B). exact (rep_best_price R Ask).
  - exists (sp_all sp). split; [|done]. by apply all_resting_orders_rep.
Qed.

Lemma recovered_shows dir latest file w fs cs1 cs2 :
  Forall command_typed cs2 -> load_latest dir true = Ok latest ->
  match latest with Some s => snapshot_after 1024 cs1 s | None => cs1 = [] end ->
  open_with_size crc32 file DEFAULT_INITIAL_SIZE true = Some (Ok w) -> wal_rep crc32 w fs ->
  drop (length cs1) fs = command_frame <$> cs2 ->
  exists e, recovered dir file = Some (e, w) /\ shows e (cs1 ++ cs2) /\ record_count w = Z.of_nat (length fs).
Proof.
  intros Hcs Hl Hsnap Ho R Hd.
  destruct (recover_from 1024 dir latest file DEFAULT_INITIAL_SIZE w fs cs1 cs2 ltac:(lia) Hcs Hl Hsnap Ho R Hd)
    as (e & sp & Hr & I & B).
  exists e. split; [|split; [by eapply book_after_shows|apply (wr_count _ _ _ R)]].
  unfold recovered, recover.
  change (recover_with_wal_size dir file 1024 None true true true)
    with (recover_with_wal_size dir file 1024 (Some DEFAULT_INITIAL_SIZE) true true true).
  rewrite Hr. reflexivity.
Qed.

(** Recovery from a log alone. *)
Lemma wal_recovered cs :
  Forall command_typed cs ->
  exists file e w, log_file cs = Some file /\ recovered None file = Some (e, w) /\ shows e cs /\
    record_count w = Z.of_nat (length cs).
Proof.
  intros Hcs. destruct (log_file_spec cs) as (file & w & Hf & Ho & R).
  destruct (recovered_shows None None file w _ [] cs Hcs eq_refl eq_refl Ho R eq_refl) as (e & Hr & Hs & Hc).
  exists file, e, w. rewrite length_fmap in Hc. exact (conj Hf (conj Hr (conj Hs Hc))).
Qed.

Definition first_two : list EngineCommand := [NewOrder (bid 1 100 10); NewOrder (ask 2 110 20)].

Lemma first_two_dir :
  exists dir s, snapshot_dir [bid 1 100 10; ask 2 110 20] 2 = Some dir /\
    load_latest (Some dir) true = Ok (Some s) /\ snapshot_after 1024 first_two s.
Proof.
  set (s := snap_of 2 [ask 2 110 20; bid 1 100 10] (Some 100) (Some 110)).
  exists (save s ∅), s. split; [reflexivity|]. split.
  - apply save_load; [apply snap_of_typed; repeat constructor; simpl; unfold_ranges; lia|apply snap_of_valid|cbn; lia|].
    intros name _ [x Hx]. by rewrite lookup_empty in Hx.
  - destruct (run_spec 1024 first_two _ _ (with_capacity_inv 1024 ltac:(lia))) as (e & _ & I).
    { repeat constructor; simpl; unfold_ranges; lia. }
    exists e. eexists. split; [exact I|]. split; [done|]. split; reflexivity.
Qed.

(** Recovery from the snapshot after them and the log. *)
Lemma snapshot_recovered cs :
  Forall command_typed cs ->
  exists dir file e w, snapshot_dir [bid 1 100 10; ask 2 110 20] 2 = Some dir /\
    log_file (first_two ++ cs) = Some file /\ recovered (Some dir) file = Some (e, w) /\
    shows e (first_two ++ cs) /\ record_count w = Z.of_nat (length (first_two ++ cs)).
Proof.
  intros Hcs. destruct first_two_dir as (dir & s & Hdir & Hl & Hsn).
  destruct (log_file_spec (first_two ++ cs)) as (file & w & Hf & Ho & R).
  destruct (recovered_shows (Some dir) (Some s) file w _ first_two cs Hcs Hl Hsn Ho R) as (e & Hr & Hs & Hc).
  { rewrite fmap_app. by rewrite drop_app_length' by (by rewrite length_fmap). }
  exists dir, file, e, w. rewrite length_fmap in Hc. exact (conj Hdir (conj Hf (conj Hr (conj Hs Hc)))).
Qed.

Ltac typed_log := repeat constructor; simpl; unfold_ranges; lia.
Ltac check_shows H := destruct H as (-> & -> & -> & _); reflexivity.

Lemma fresh_start_no_files_passes : fresh_start_no_files = Some tt.
Proof.
  unfold fresh_start_no_files. destruct (fresh_open crc32 crc32_range DEFAULT_INITIAL_SIZE) as (w & Ho & R & _);
    [unfold DEFAULT_INITIAL_SIZE; lia|].
  destruct (recovered_shows None None [] w _ [] [] ltac:(constructor) eq_refl eq_refl Ho R eq_refl)
    as (e & -> & (Hs & _) & Hc). cbn [mbind option_bind]. rewrite Hs, Hc. reflexivity.
Qed.

Lemma wal_only_recovery_passes : wal_only_recovery = Some tt.
Proof.
  unfold wal_only_recovery. destruct (wal_recovered [NewOrder (bid 1 100 10); NewOrder (ask 2 110 20); NewOrder (bid 3 98 30)])
    as (file & e & w & -> & Hr & Hs & Hc); [typed_log|].
  cbn [mbind option_bind]. rewrite Hr. cbn [mbind option_bind]. rewrite Hc. check_shows Hs.
Qed.

Lemma truncated_wal_recovery_passes : truncated_wal_recovery = Some tt.
Proof.
  unfold truncated_wal_recovery. destruct (wal_recovered [NewOrder (bid 1 100 10); NewOrder (ask 2 110 20); NewOrder (bid 3 98 30)])
    as (file & e & w & -> & Hr & Hs & Hc); [typed_log|].
  cbn [mbind option_bind]. rewrite Hr. cbn [mbind option_bind]. rewrite Hc. destruct Hs as (-> & _). reflexivity.
Qed.

Lemma recovery_with_cancels_passes : recovery_with_cancels = Some tt.
Proof.
  unfold recovery_with_cancels. destruct (wal_recovered [NewOrder (bid 1 100 10); NewOrder (ask 2 110 20); CancelOrder 1])
    as (file & e & w & -> & Hr & Hs & Hc); [typed_log|].
  cbn [mbind option_bind]. rewrite Hr. cbn [mbind option_bind]. rewrite Hc. check_shows Hs.
Qed.

Lemma snapshot_only_recovery_passes : snapshot_only_recovery = Some tt.
Proof.
  unfold snapshot_only_recovery. destruct first_two_dir as (dir & s & -> & Hl & Hsn). cbn [mbind option_bind].
  destruct (fresh_open crc32 crc32_range DEFAULT_INITIAL_SIZE) as (w & Ho & R & _); [unfold DEFAULT_INITIAL_SIZE; lia|].
  destruct (recovered_shows (Some dir) (Some s) [] w _ first_two [] ltac:(constructor) Hl Hsn Ho R eq_refl)
    as (e & -> & Hs & Hc). cbn [mbind option_bind]. rewrite Hc. check_shows Hs.
Qed.

Lemma snapshot_plus_wal_recovery_passes : snapshot_plus_wal_recovery = Some tt.
Proof.
  unfold snapshot_plus_wal_recovery.
  destruct (snapshot_recovered [NewOrder (bid 3 98 30)]) as (dir & file & e & w & -> & Hf & Hr & Hs & Hc); [typed_log|].
  cbn [first_two app] in Hf. rewrite Hf. cbn [mbind option_bind]. rewrite Hr.
  cbn [mbind option_bind]. rewrite Hc. destruct Hs as (-> & -> & _). reflexivity.
Qed.

(** Orders that agree up to timestamps pass the field-by-field comparison. *)
Lemma assert_same_strip xs ys : strip <$> xs = strip <$> ys -> assert_same_orders xs ys = Some tt.
Proof.
  unfold assert_same_orders. revert ys. induction xs as [|x xs IH]; intros [|y ys] H; try done.
  rewrite !fmap_cons in H. assert (strip x = strip y) as Hx by congruence.
  assert (strip <$> xs = strip <$> ys) as Ht by congruence. destruct x, y. unfold set_timestamp in Hx. simpl in Hx.
  simplify_eq. cbn [zip zip_with for_each]. rewrite !assert_eq_pass by done. cbn [mbind option_bind]. by apply IH.
Qed.

Lemma deterministic_replay_passes : deterministic_replay = Some tt.
Proof.
  unfold deterministic_replay. cbv zeta.
  destruct (wal_recovered (NewOrder <$> [bid 1 100 10; ask 2 110 20; bid 3 98 30; ask 4 105 15; bid 5 108 25]))
    as (file & e & w & -> & Hr & (_ & _ & _ & os & Hos & _) & _); [typed_log|].
  cbn [mbind option_bind]. rewrite Hr. cbn [mbind option_bind]. rewrite Hos. cbn [mbind option_bind].
  rewrite assert_eq_pass by done. cbn [mbind option_bind]. by apply assert_same_strip.
Qed.

Lemma recovery_matches_full_replay_passes : recovery_matches_full_replay = Some tt.
Proof.
  unfold recovery_matches_full_replay. cbv zeta.
  set (orders := [bid 1 100 10; ask 2 110 20; bid 3 98 30; ask 4 105 15]).
  set (full := [ask 4 105 15; ask 2 110 20; bid 1 100 10; bid 3 98 30]).
  assert ((e ← engine_of orders; OrderBook.all_resting_orders (MatchingEngine.book e)) = Some full) as He0 by reflexivity.
  destruct (engine_of orders) as [e0|]; cbn [mbind option_bind] in He0; [|done].
  destruct (snapshot_recovered [NewOrder (bid 3 98 30); NewOrder (ask 4 105 15)])
    as (dir & file & e & w & -> & Hf & Hr & (_ & _ & _ & os & Hos & Hstrip) & _); [typed_log|].
  change (NewOrder <$> orders) with (first_two ++ [NewOrder (bid 3 98 30); NewOrder (ask 4 105 15)]).
  rewrite Hf. cbn [mbind option_bind]. rewrite Hr. cbn [mbind option_bind]. rewrite He0. cbn [mbind option_bind]. rewrite Hos. cbn [mbind option_bind].
  assert (strip <$> full = strip <$> os) as Hfull by (rewrite Hstrip; reflexivity).
  rewrite assert_eq_pass by (by apply strip_length). cbn [mbind option_bind]. by apply assert_same_strip.
Qed.

(** ** The undecodable record *)

Definition bad_frame : Frame := mkFrame [255] (replicate 7 0).

Lemma bad_frame_ok : frame_ok bad_frame.
Proof. split; [split; reflexivity|reflexivity]. Qed.

Section undecodable.
Hypothesis crc_255 : crc32 [255] = 4278190080.

Lemma bad_record_frame : bad_record = log_bytes crc32 [bad_frame].
Proof. unfold log_bytes, frame_bytes. cbn [fmap list_fmap bad_frame fr_payload fr_pad]. rewrite crc_255. reflexivity. Qed.

(** A file with the record and zeroes after it. *)
Lemma open_bad n :
  exists w, open_with_size crc32 (bad_record ++ replicate n 0) 65536 true = Some (Ok w) /\ wal_rep crc32 w [bad_frame].
Proof.
  rewrite bad_record_frame.
  apply (open_finds crc32 crc32_range _ 65536 [bad_frame]
    (replicate n 0 ++ replicate (Z.to_nat (65536 - zlen (log_bytes crc32 [bad_frame] ++ replicate n 0))) 0)).
  - apply Forall_app. split; [|apply bytes_ok_zeros]. rewrite <- bad_record_frame.
    apply (bool_decide_unpack _). vm_compute. exact I.
  - lia.
  - constructor; [apply bad_frame_ok|constructor].
  - by rewrite <- app_assoc.
  - rewrite <- replicate_add. apply no_frame_zeros.
Qed.

Lemma refused_step n : exists m, refused_recovery (bad_record ++ replicate n 0) = Some (bad_record ++ replicate m 0).
Proof.
  destruct (open_bad n) as (w & Ho & R). destruct (wr_file _ _ _ R) as [m Hm].
  exists m. unfold refused_recovery.
  rewrite (recover_refuses 1024 None None _ 65536 w [] sp_empty [] bad_frame [] (UnknownMessageType 255));
    [|lia|constructor|reflexivity|reflexivity|by split|exact Ho|exact R].
  cbn [mbind option_bind]. rewrite assert_eq_pass by done. cbn [mbind option_bind]. rewrite Ho. cbn [mbind option_bind unwrap].
  by rewrite Hm, <- bad_record_frame.
Qed.

Lemma crc_valid_undecodable_record_refuses_to_start_passes :
  crc_valid_undecodable_record_refuses_to_start = Some tt.
Proof.
  destruct (open_bad 0) as (w & Ho & R). rewrite app_nil_r in Ho.
  destruct (wr_file _ _ _ R) as [n Hn]. rewrite <- bad_record_frame in Hn.
  destruct (refused_step n) as (n1 & H1). destruct (refused_step n1) as (n2 & H2).
  unfold crc_valid_undecodable_record_refuses_to_start.
  etransitivity; [apply assert_eq_seq; exact crc_255|]. cbv zeta.
  etransitivity; [apply assert_eq_seq; reflexivity|].
  rewrite Ho. cbn [mbind option_bind unwrap].
  etransitivity; [apply assert_eq_seq; exact (wr_count _ _ _ R)|].
  rewrite Hn, H1. cbn [mbind option_bind]. rewrite H2. cbn [mbind option_bind]. apply assert_eq_pass.
  exact (take_app_length' bad_record (replicate n2 0) 16 eq_refl).
Qed.
End undecodable.
End tests.
