(* ===== verification/RecoveryThm.v ===== *)
(** * RecoveryThm.v: the correctness of snapshots and recovery

    A restart rebuilds the live book (up to timestamps) from the latest valid
    snapshot and the log; what a crash can lose; what is refused. *)

From stdpp Require Import strings.
From S2P Require Import Prelude.
From S2P Require Import Order.
From S2P Require Import Arena.
From S2P Require Import ArenaInv.
From S2P Require Import Book.
From S2P Require Import BookSpec.
From S2P Require Import BookInv.
From S2P Require Import Matching.
From S2P Require Import MatchingSpec.
From S2P Require Import MatchingInv.
From S2P Require Import Protocol.
From S2P Require Import ProtocolInv.
From S2P Require Import Engine.
From S2P Require Import Wal.
From S2P Require Import WalInv.
From S2P Require Import WalThm.
From S2P Require Import Snapshot.
From S2P Require Import SnapshotInv.
From S2P Require Import Recovery.
From S2P Require Import RecoveryInv.

(** ** A codec for the witnesses: fields as plain numbers *)

Definition demo_opt (p : option Z) : list Z := match p with Some z => [1; z] | None => [0; 0] end.
Definition demo_unopt (t z : Z) : option Z := if decide (t = 1) then Some z else None.

Definition demo_ser_order (o : Order) : list Z :=
  [o_id o; o_trader_id o; encode_side (o_side o); o_price o; o_quantity o; o_timestamp o].

Fixpoint demo_orders (fuel : nat) (l : list Z) : list Order :=
  match fuel, l with
  | S fuel, id :: tr :: sd :: pr :: qt :: ts :: l =>
      mkOrder id tr (if decide (sd = 0) then Bid else Ask) pr qt ts :: demo_orders fuel l
  | _, _ => []
  end.

#[global] Instance demo_codec : Codec := {
  crc32 := byte_sum;
  serialize_fields n bb ba os := n :: demo_opt bb ++ demo_opt ba ++ concat (demo_ser_order <$> os);
  serialize s := sn_wal_record_count s :: sn_checksum s :: demo_opt (sn_best_bid s) ++
                 demo_opt (sn_best_ask s) ++ concat (demo_ser_order <$> sn_orders s);
  deserialize l :=
    match l with
    | n :: ck :: t1 :: z1 :: t2 :: z2 :: l =>
        Some (mkSnapshot n (demo_orders (S (length l)) l) (demo_unopt t1 z1) (demo_unopt t2 z2) ck)
    | _ => None
    end
}.

Lemma demo_orders_ser os n :
  (length os < n)%nat -> demo_orders n (concat (demo_ser_order <$> os)) = os.
Proof.
  revert n. induction os as [|o os IH]; intros n Hn; (destruct n as [|n]; [simpl in Hn; lia|]); [done|].
  simpl. rewrite IH by (simpl in Hn; lia). by destruct o as [? ? [] ? ? ?].
Qed.

Lemma demo_ser_length os : (length os <= length (concat (demo_ser_order <$> os)))%nat.
Proof.
  induction os as [|o os IH]; [done|]. rewrite fmap_cons. cbn [concat]. rewrite length_app.
  cbn [length demo_ser_order]. lia.
Qed.

#[global] Instance demo_laws : CodecLaws demo_codec.
Proof.
  split; [apply byte_sum_u32|]. intros [n os bb ba ck] _.
  pose proof (demo_ser_length os).
  destruct bb, ba; cbn -[demo_orders]; rewrite demo_orders_ser by lia; done.
Defined.

(** ** Recovery *)

Lemma typed_in_range cs : Forall command_typed cs -> Forall command_in_range cs.
Proof. intros H. eapply Forall_impl; [exact H|]. intros [o|id]; simpl; tauto. Qed.

(** Engines whose books agree up to timestamps answer alike. *)
Lemma up_to_timestamps cap e1 e2 sp1 sp2 cs :
  engine_inv cap e1 sp1 -> engine_inv cap e2 sp2 -> strip_book sp1 = strip_book sp2 ->
  Forall command_in_range cs ->
  exists e1' e2' rs1 rs2,
    run e1 cs = Some (e1', rs1) /\ run e2 cs = Some (e2', rs2) /\
    strip_response <$> rs1 = strip_response <$> rs2.
Proof.
  intros I1 I2 Hs Hcs. destruct (run_spec cap cs _ _ I1 Hcs) as (e1' & H1 & _).
  destruct (run_spec cap cs _ _ I2 Hcs) as (e2' & H2 & _).
  exists e1', e2'. eexists _, _. split; [exact H1|]. split; [exact H2|].
  by apply spec_run_up_to.
Qed.

(** C5. A restart restores the live state: after any commands [cs1 ++ cs2] with a
    snapshot saved after [cs1], recovery from the snapshot directory and the
    log succeeds with an engine whose resting orders are those of the live
    engine up to timestamps, with the same best prices; the log keeps all
    records; and every later command gets the same response (up to the
    timestamp of a cancelled order). *)
Theorem recovery_restores_live_state (C : Codec) cap size size' cs1 cs2 dir e1 e2 rs1 rs2 s w0 w cs3 :
  CodecLaws C -> 0 <= cap < 2 ^ 32 -> 0 <= size -> 0 <= size' ->
  Forall command_typed (cs1 ++ cs2) -> Z.of_nat (length cs1) < 10 ^ 10 ->
  run (MatchingEngine.with_capacity cap) cs1 = Some (e1, rs1) -> run e1 cs2 = Some (e2, rs2) ->
  capture e1 (Z.of_nat (length cs1)) = Some s ->
  (forall name, is_snapshot_name name = true -> is_Some (dir !! name) ->
     exists m, 0 <= m <= Z.of_nat (length cs1) /\ name = snapshot_filename m) ->
  open_with_size crc32 [] size true = Some (Ok w0) ->
  append_all crc32 w0 (cs1 ++ cs2) = Some (Ok w) ->
  Forall command_in_range cs3 ->
  exists er wr os osr e3 er3 rs3 rsr3,
    recover_with_wal_size (Some (save s dir)) (w_file w) cap (Some size') true true true = Some (Ok (er, wr)) /\
    OrderBook.all_resting_orders (e_book e2) = Some os /\
    OrderBook.all_resting_orders (e_book er) = Some osr /\ strip <$> osr = strip <$> os /\
    OrderBook.best_bid (e_book er) = OrderBook.best_bid (e_book e2) /\
    OrderBook.best_ask (e_book er) = OrderBook.best_ask (e_book e2) /\
    w_record_count wr = Z.of_nat (length (cs1 ++ cs2)) /\
    run e2 cs3 = Some (e3, rs3) /\ run er cs3 = Some (er3, rsr3) /\
    strip_response <$> rsr3 = strip_response <$> rs3.
Proof.
  intros Laws Hcap Hs Hs' Hcs Hn Hr1 Hr2 Hcapt Hdir Ho Ha Hcs3.
  pose proof Hcs as [Hcs1%typed_in_range Hcs2%typed_in_range]%Forall_app.
  destruct (run_spec cap cs1 _ _ (with_capacity_inv cap Hcap) Hcs1) as (e1' & H1 & I1). simplify_eq.
  destruct (run_spec cap cs2 _ _ I1 Hcs2) as (e2' & H2 & I2). simplify_eq.
  destruct (capture_spec cap e1 _ (Z.of_nat (length cs1)) I1) as (s' & Hc' & Hcnt & Hso & _ & _ & Hv & Ht);
    [unfold is_u64; lia|]. simplify_eq.
  assert (load_latest (Some (save s dir)) true = Ok (Some s)) as Hl.
  { apply save_load; [done|done|rewrite Hcnt; lia|]. by rewrite Hcnt. }
  destruct (fresh_log crc32 crc32_range size (cs1 ++ cs2) w0 w Hs Ho Ha) as [R Hb].
  destruct (reopen_log crc32 crc32_range w _ size' R Hs') as (wr & Hor & Rr).
  destruct (recover_spec cap (Some (save s dir)) (Some s) (w_file w) size' wr cs1 cs2 Hcap Hcs Hl)
    as (er & spr & Hrec & Ir & Hsp); [by exists e1, (fst (spec_run cap sp_empty cs1))|done|done|].
  unfold book_after in Hsp. rewrite spec_run_app in Hsp.
  destruct (up_to_timestamps cap e2 er _ _ cs3 I2 Ir (eq_sym Hsp) Hcs3) as (e3 & er3 & rs3 & rsr3 & Q1 & Q2 & Q3).
  exists er, wr. eexists _, _, e3, er3, rs3, rsr3. split; [exact Hrec|].
  split; [apply all_resting_orders_rep, (inv_rep _ _ _ I2)|].
  split; [apply all_resting_orders_rep, (inv_rep _ _ _ Ir)|].
  split; [by apply strip_orders|].
  assert (forall sd, best (e_book er) sd = best (e_book e2) sd) as Hbest.
  { intros sd. destruct (inv_rep _ _ _ I2) as (q & fr & R2), (inv_rep _ _ _ Ir) as (q' & fr' & R2').
    rewrite (rep_best_price R2), (rep_best_price R2'). by apply strip_best. }
  split; [apply (Hbest Bid)|]. split; [apply (Hbest Ask)|].
  split; [by rewrite (wr_count _ _ _ Rr), length_fmap|]. done.
Qed.

(** The session of the witnesses: two orders, a snapshot, then a trade. *)
Definition rec_cs1 : list EngineCommand :=
  [NewOrder (mkOrder 1 10 Ask 105 5 100); NewOrder (mkOrder 2 11 Bid 100 7 101)].
Definition rec_cs2 : list EngineCommand :=
  [NewOrder (mkOrder 3 12 Bid 105 2 102); CancelOrder 2; NewOrder (mkOrder 4 12 Bid 99 6 103)].

Definition run_engine (e : MatchingEngine) (cs : list EngineCommand) : MatchingEngine :=
  match run e cs with Some (e, _) => e | None => e end.
Definition run_responses (e : MatchingEngine) (cs : list EngineCommand) : list Response :=
  match run e cs with Some (_, rs) => rs | None => [] end.

Lemma run_engine_eq cap cs :
  0 <= cap < 2 ^ 32 -> Forall command_in_range cs ->
  run (MatchingEngine.with_capacity cap) cs =
    Some (run_engine (MatchingEngine.with_capacity cap) cs, run_responses (MatchingEngine.with_capacity cap) cs).
Proof.
  intros Hcap Hcs. destruct (run_spec cap cs _ _ (with_capacity_inv cap Hcap) Hcs) as (e & H & _).
  unfold run_engine, run_responses. by rewrite H.
Qed.

Definition rec_e1 : MatchingEngine := run_engine (MatchingEngine.with_capacity 4) rec_cs1.
Definition rec_snapshot : Snapshot := default (mkSnapshot 0 [] None None 0) (capture rec_e1 2).
Definition rec_wal : Wal :=
  match append_all byte_sum (mkWal (replicate 64 0) 0 64 (replicate 40 0) 0) (rec_cs1 ++ rec_cs2) with
  | Some (Ok w) => w | _ => mkWal [] 0 0 [] 0 end.

Lemma rec_typed : Forall command_typed (rec_cs1 ++ rec_cs2).
Proof. repeat constructor; simpl; unfold_ranges; lia. Qed.

Lemma recovery_restores_live_state_witness :
  exists er wr os osr, recover_with_wal_size (Some (save rec_snapshot ∅)) (w_file rec_wal) 4 (Some 64) true true true
                  = Some (Ok (er, wr)) /\
    OrderBook.all_resting_orders (e_book (run_engine rec_e1 rec_cs2)) = Some os /\
    OrderBook.all_resting_orders (e_book er) = Some osr /\ strip <$> osr = strip <$> os /\
    w_record_count wr = 5.
Proof.
  destruct (recovery_restores_live_state demo_codec 4 64 64 rec_cs1 rec_cs2 ∅ rec_e1
    (run_engine rec_e1 rec_cs2) (run_responses (MatchingEngine.with_capacity 4) rec_cs1)
    (run_responses rec_e1 rec_cs2) rec_snapshot (mkWal (replicate 64 0) 0 64 (replicate 40 0) 0) rec_wal [])
    as (er & wr & os & osr & _ & _ & _ & _ & H1 & H2 & H3 & H4 & _ & _ & H5 & _).
  - exact demo_laws.
  - lia.
  - lia.
  - lia.
  - exact rec_typed.
  - simpl. lia.
  - vm_compute. reflexivity.
  - vm_compute. reflexivity.
  - vm_compute. reflexivity.
  - intros name _ [x Hx]. rewrite lookup_empty in Hx. discriminate Hx.
  - vm_compute. reflexivity.
  - vm_compute. reflexivity.
  - constructor.
  - exists er, wr, os, osr. split; [exact H1|]. split; [exact H2|]. split; [exact H3|].
    split; [exact H4|exact H5].
Defined.

(** Crash consistency: if the log file is cut at any byte, recovery (here
    without a snapshot) yields the state after some first [k] commands, where
    [k] counts every command whose record is completely within the bytes
    kept. *)
Theorem recovery_after_cut (C : Codec) cap size cs w0 w p :
  CodecLaws C -> 0 <= cap < 2 ^ 32 -> 0 <= size -> Forall command_typed cs ->
  open_with_size crc32 [] size true = Some (Ok w0) -> append_all crc32 w0 cs = Some (Ok w) ->
  exists er wr k ek rsk os osk,
    recover_with_wal_size None (take p (w_file w)) cap (Some 0) true true true = Some (Ok (er, wr)) /\
    (k <= length cs)%nat /\
    (k < length cs -> p < length (log_bytes crc32 (command_frame <$> take (S k) cs)))%nat /\
    run (MatchingEngine.with_capacity cap) (take k cs) = Some (ek, rsk) /\
    OrderBook.all_resting_orders (e_book ek) = Some osk /\
    OrderBook.all_resting_orders (e_book er) = Some os /\ strip <$> os = strip <$> osk.
Proof.
  intros Laws Hcap Hs Hcs Ho Ha.
  destruct (fresh_log crc32 crc32_range size cs w0 w Hs Ho Ha) as [R Hb].
  destruct (open_cut crc32 crc32_range w cs p R Hb) as (wr & k & Hor & Rr & Hk & _ & Hm).
  assert (Forall command_typed (take k cs)) as Hck by (by apply Forall_take).
  destruct (recover_spec cap None None (take p (w_file w)) 0 wr [] (take k cs) Hcap Hck)
    as (er & spr & Hrec & Ir & Hsp); [done|done|done|done|].
  destruct (run_spec cap (take k cs) _ _ (with_capacity_inv cap Hcap) (typed_in_range _ Hck)) as (ek & Hek & Ik).
  exists er, wr, k, ek. eexists _, _, _. split; [exact Hrec|]. split; [done|]. split; [done|].
  split; [exact Hek|]. split; [apply all_resting_orders_rep, (inv_rep _ _ _ Ik)|].
  split; [apply all_resting_orders_rep, (inv_rep _ _ _ Ir)|]. by apply strip_orders.
Qed.

Lemma recovery_after_cut_witness :
  exists er wr k, recover_with_wal_size None (take 100 (w_file rec_wal)) 4 (Some 0) true true true = Some (Ok (er, wr)) /\
    (k <= 5)%nat.
Proof.
  destruct (recovery_after_cut demo_codec 4 64 (rec_cs1 ++ rec_cs2)
    (mkWal (replicate 64 0) 0 64 (replicate 40 0) 0) rec_wal 100) as (er & wr & k & _ & _ & _ & _ & H1 & H2 & _).
  - exact demo_laws.
  - lia.
  - lia.
  - exact rec_typed.
  - vm_compute. reflexivity.
  - vm_compute. reflexivity.
  - exists er, wr, k. split; [exact H1|exact H2].
Defined.

(** ** Snapshots *)

(** C30. A snapshot of a reachable engine survives the disk: saved into a
    directory of older snapshots it is the one [load_latest] returns, and
    restoring it gives a book with the same resting orders and best prices. *)
Theorem snapshot_roundtrip (C : Codec) cap e n dir :
  CodecLaws C -> 0 <= cap < 2 ^ 32 -> reachable cap e -> 0 <= n < 10 ^ 10 ->
  (forall name, is_snapshot_name name = true -> is_Some (dir !! name) ->
     exists m, 0 <= m <= n /\ name = snapshot_filename m) ->
  exists s er, capture e n = Some s /\ load_latest (Some (save s dir)) true = Ok (Some s) /\
    restore s cap = Some (Ok er) /\
    OrderBook.all_resting_orders (e_book er) = OrderBook.all_resting_orders (e_book e) /\
    OrderBook.best_bid (e_book er) = sn_best_bid s /\ OrderBook.best_ask (e_book er) = sn_best_ask s.
Proof.
  intros Laws Hcap He Hn Hdir. destruct (reachable_inv _ _ Hcap He) as [sp I].
  destruct (capture_spec cap e sp n I) as (s & Hc & Hcnt & Hso & Hbb & Hba & Hv & Ht); [unfold is_u64; lia|].
  pose proof I as [R Hcp Hok Hu].
  destruct (restore_canonical (e_book e) sp cap R) as (er & Hr & Rr & Hcr & _); [lia|].
  exists s, er. split; [done|]. split; [apply save_load; rewrite ?Hcnt; done|].
  split; [unfold restore; by rewrite Hso, Hr|].
  rewrite (all_resting_orders_rep _ _ R), (all_resting_orders_rep _ _ Rr). split; [done|].
  rewrite Hbb, Hba. destruct R as (q & fr & R), Rr as (q' & fr' & Rr).
  split; [change (best (e_book er) Bid = best (e_book e) Bid)|change (best (e_book er) Ask = best (e_book e) Ask)];
    by rewrite (rep_best_price R), (rep_best_price Rr).
Qed.

Lemma snapshot_roundtrip_witness :
  exists s er, capture rec_e1 2 = Some s /\ load_latest (Some (save s ∅)) true = Ok (Some s) /\
    restore s 4 = Some (Ok er) /\
    OrderBook.all_resting_orders (e_book er) = OrderBook.all_resting_orders (e_book rec_e1) /\
    OrderBook.best_bid (e_book er) = sn_best_bid s /\ OrderBook.best_ask (e_book er) = sn_best_ask s.
Proof.
  apply (snapshot_roundtrip demo_codec 4 rec_e1 2).
  - exact demo_laws.
  - lia.
  - apply (run_reachable 4 rec_cs1 (MatchingEngine.with_capacity 4) rec_e1
             (run_responses (MatchingEngine.with_capacity 4) rec_cs1)).
    + constructor.
    + repeat constructor; simpl; unfold_ranges; lia.
    + vm_compute. reflexivity.
  - lia.
  - intros name _ [x Hx]. rewrite lookup_empty in Hx. discriminate Hx.
Defined.

(** Saving is atomic for the loader: until the temporary file is renamed,
    whatever part of it is written, the directory loads the same snapshot as
    before. *)
Theorem save_is_atomic (C : Codec) s data dir io :
  load_latest (Some (save_write s data dir)) io = load_latest (Some dir) io.
Proof. apply load_after_write. Qed.

(** C31. [load_latest] returns the valid snapshot with the greatest file name, or
    nothing only if no snapshot file is valid: a corrupt newer file falls back
    to the next older one. *)
Theorem load_latest_newest_valid (C : Codec) dir :
  exists r, load_latest (Some dir) true = Ok r /\
  match r with
  | Some s => exists name, is_snapshot_name name = true /\ valid_file dir name s /\
                forall n s', is_snapshot_name n = true -> valid_file dir n s' -> String.le n name
  | None => forall n s', is_snapshot_name n = true -> ~ valid_file dir n s'
  end.
Proof.
  unfold load_latest. eexists. split; [done|]. pose proof (load_loop_spec dir (reverse (snapshot_files dir))) as H.
  assert (forall n s', is_snapshot_name n = true -> valid_file dir n s' -> n ∈ reverse (snapshot_files dir)) as Hin.
  { intros n s' Hn [Hl _]. apply elem_of_reverse, elem_of_snapshot_files. split; [done|].
    unfold load_from_file in Hl. destruct (dir !! n); [eauto|done]. }
  destruct (load_loop _ _) as [s|]; [|intros n s' Hn Hv; by eapply H, Hv; eapply Hin].
  destruct H as (l1 & name & l2 & El & Hv & Hno). exists name.
  assert (name ∈ reverse (snapshot_files dir)) as [Hname _]%elem_of_reverse%elem_of_snapshot_files
    by (rewrite El; set_solver).
  split; [done|]. split; [done|]. intros n s' Hn Hv'. pose proof (Hin n s' Hn Hv') as Hm.
  rewrite El in Hm. apply elem_of_app in Hm as [Hm|[->|Hm]%elem_of_cons]; [by destruct (Hno n s')|done|].
  pose proof (StronglySorted_merge_sort String.le
    (filter (fun n => is_snapshot_name n = true) (map_to_list dir).*1)) as Hs.
  fold (snapshot_files dir) in Hs. apply StronglySorted_reverse in Hs. rewrite El in Hs.
  apply StronglySorted_app in Hs as (_ & _ & [_ Hs]%StronglySorted_inv).
  rewrite Forall_forall in Hs. by apply Hs.
Qed.

(** Past ten digits the names no longer sort by record count: the snapshot of
    record 10000000000 sorts before the one of record 9999999999. *)
Theorem snapshot_names_past_ten_digits :
  String.compare (snapshot_filename 9999999999) (snapshot_filename 10000000000) = Gt.
Proof. vm_compute. reflexivity. Qed.

(** ** What recovery refuses, and what it loses *)

(** C29. A record that is no message, although its checksum is right, is not
    skipped and not taken for the end of the log when recovery has to replay it:
    if the newest valid snapshot covers the records [fs] (none without a
    snapshot), commands follow, and then such a record, recovery stops with its
    protocol error and hands out no engine.  The records covered are not decoded
    and may be anything. *)
Theorem undecodable_record_refused (C : Codec) cap dir latest file size fs cs f rest err :
  CodecLaws C -> 0 <= cap < 2 ^ 32 -> 0 <= size ->
  load_latest dir true = Ok latest ->
  match latest with
  | Some s => exists e, reachable cap e /\ capture e (Z.of_nat (length fs)) = Some s
  | None => fs = []
  end ->
  Forall frame_ok fs -> Forall command_typed cs -> frame_ok f -> decode_message (fr_payload f) = Err err ->
  bytes_ok file -> file = log_bytes crc32 (fs ++ (command_frame <$> cs) ++ [f]) ++ rest ->
  recover_with_wal_size dir file cap (Some size) true true true = Some (Err (RecWal (WalProtocol err))).
Proof.
  intros Laws Hcap Hs Hl Hsnap Hfs0 Hcs Hf Herr Hb ->.
  assert (exists sp1, starts_from cap latest (length fs) sp1) as [sp1 Hst].
  { destruct latest as [s|]; [|subst fs; by exists sp_empty]. destruct Hsnap as (e & He & Hc).
    destruct (reachable_inv _ _ Hcap He) as [sp I]. exists sp. unfold capture, MatchingEngine.book in Hc.
    rewrite (all_resting_orders_rep _ _ (inv_rep _ _ _ I)) in Hc. cbn [mbind option_bind] in Hc. injection Hc as <-. split_and!; [done|done|by exists e]. }
  destruct (open_spec crc32 crc32_range _ size Hb Hs) as (w & fs' & rest' & Ho & R & E & Hno & _).
  rewrite <- app_assoc in E.
  assert (Forall frame_ok (fs ++ (command_frame <$> cs) ++ [f])) as Hfs.
  { rewrite !Forall_app. split_and!; [done| |by constructor]. apply Forall_fmap, Forall_true. intros c. apply command_frame_ok. }
  destruct (log_prefix crc32 _ _ _ _ Hfs (wr_frames _ _ _ R) Hno E) as (fs2 & -> & _).
  rewrite <- !app_assoc in R. by eapply recover_refuses.
Qed.

Lemma rec_reachable : reachable 4 rec_e1.
Proof.
  apply (run_reachable 4 rec_cs1 (MatchingEngine.with_capacity 4) rec_e1 (run_responses (MatchingEngine.with_capacity 4) rec_cs1)).
  - constructor.
  - apply typed_in_range. apply (Forall_app _ rec_cs1 rec_cs2), rec_typed.
  - apply run_engine_eq; [lia|]. apply typed_in_range. apply (Forall_app _ rec_cs1 rec_cs2), rec_typed.
Qed.

(** A snapshot that covers two records, one of them no message; then a command and
    a record of an unknown type. *)
Definition refused_frame : Frame := mkFrame [255] [0; 0; 0; 0; 0; 0; 0].
Definition refused_log : list Z :=
  log_bytes byte_sum ([refused_frame; command_frame (CancelOrder 7)] ++ (command_frame <$> [CancelOrder 1]) ++ [refused_frame]).

Lemma undecodable_record_refused_witness :
  recover_with_wal_size (Some (save rec_snapshot ∅)) refused_log 4 (Some 64) true true true =
    Some (Err (RecWal (WalProtocol (UnknownMessageType 255)))).
Proof.
  apply (undecodable_record_refused demo_codec 4 _ (Some rec_snapshot) _ 64
    [refused_frame; command_frame (CancelOrder 7)] [CancelOrder 1] refused_frame []).
  - exact demo_laws.
  - lia.
  - lia.
  - vm_compute. reflexivity.
  - exists rec_e1. split; [exact rec_reachable|vm_compute; reflexivity].
  - repeat constructor.
  - repeat constructor; unfold_ranges; lia.
  - repeat constructor.
  - reflexivity.
  - apply (bool_decide_unpack _). vm_compute. exact I.
  - symmetry. apply app_nil_r.
Defined.

(** A snapshot ahead of the log (the log file was lost) makes later commands
    disappear: recovery succeeds, a command is appended as record 1 and
    executed, and the next recovery skips it, because the snapshot claims
    that the first two records are already covered. *)
Theorem snapshot_ahead_of_log_loses_commands :
  exists e w w' live r os_live er wr osr,
    recover_with_wal_size (Some (save rec_snapshot ∅)) [] 4 (Some 64) true true true = Some (Ok (e, w)) /\
    append byte_sum w (CancelOrder 2) IoOk = Some (w', Ok 1) /\ exec e (CancelOrder 2) = Some (live, r) /\
    OrderBook.all_resting_orders (e_book live) = Some os_live /\
    recover_with_wal_size (Some (save rec_snapshot ∅)) (w_file w') 4 (Some 64) true true true = Some (Ok (er, wr)) /\
    OrderBook.all_resting_orders (e_book er) = Some osr /\ length osr = S (length os_live).
Proof.
  eexists _, _, _, _, _, _, _, _, _. split; [vm_compute; reflexivity|].
  split; [vm_compute; reflexivity|]. split; [vm_compute; reflexivity|]. split; [vm_compute; reflexivity|].
  split; [vm_compute; reflexivity|]. split; [vm_compute; reflexivity|]. reflexivity.
Qed.
