(* ===== verification/Crc32.v ===== *)
(** * Crc32.v: the checksum of the log

    [crc32fast::hash] is the CRC-32 of IEEE 802.3 (reflected polynomial
    0xEDB88320, initial value and final complement 0xFFFFFFFF).  It is defined
    here bit by bit, as the documentation of that checksum gives it.  A changed
    byte always changes the checksum; a run of zeroes is a linear map, which
    repeated squaring applies quickly. *)

From stdpp Require Import list_numbers.
From S2P Require Import Prelude.
From S2P Require Import Protocol.

Definition POLY : Z := 0xEDB88320.
Definition ONES : Z := 0xFFFFFFFF.

Definition bit_step (s : Z) : Z := Z.lxor (Z.shiftr s 1) (if Z.odd s then POLY else 0).
Definition byte_step (s b : Z) : Z := Nat.iter 8 bit_step (Z.lxor s b).
Definition crc_state (s : Z) (l : list Z) : Z := foldl byte_step s l.
Definition crc32_ieee (l : list Z) : Z := Z.lxor (crc_state ONES l) ONES.

(** The check value of the standard: the checksum of "123456789". *)
Example crc_check : crc32_ieee [49; 50; 51; 52; 53; 54; 55; 56; 57] = 0xCBF43926.
Proof. vm_compute. reflexivity. Qed.

(** ** Range *)

Lemma lxor_range n a b : 0 <= n -> 0 <= a < 2 ^ n -> 0 <= b < 2 ^ n -> 0 <= Z.lxor a b < 2 ^ n.
Proof.
  intros Hn Ha Hb. assert (0 <= Z.lxor a b) as H0 by (apply Z.lxor_nonneg; lia). split; [done|].
  destruct (decide (Z.lxor a b = 0)) as [->|Hne]; [lia|]. apply Z.log2_lt_pow2; [lia|].
  eapply Z.le_lt_trans; [apply Z.log2_lxor; lia|].
  assert (forall x, 0 <= x < 2 ^ n -> 0 < n -> Z.log2 x < n) as Hlog.
  { intros x Hx Hn0. destruct (decide (x = 0)) as [->|]; [by rewrite Z.log2_nonpos|]. apply Z.log2_lt_pow2; lia. }
  destruct (decide (n = 0)) as [->|]; [|apply Z.max_lub_lt; apply Hlog; lia].
  assert (a = 0) as -> by lia. assert (b = 0) as -> by lia. done.
Qed.

Lemma bit_step_range s : is_u32 s -> is_u32 (bit_step s).
Proof.
  unfold is_u32. intros Hs. unfold bit_step. apply lxor_range; [done| |].
  - rewrite Z.shiftr_div_pow2 by done. change (2 ^ 1) with 2. split; [apply Z.div_pos; lia|apply Z.div_lt_upper_bound; lia].
  - unfold POLY. destruct (Z.odd s); lia.
Qed.

Lemma iter_ind {A} (P : A -> Prop) f n x : P x -> (forall y, P y -> P (f y)) -> P (Nat.iter n f x).
Proof. intros H0 HS. induction n as [|n IH]; [done|]. simpl. auto. Qed.

Lemma byte_step_range s b : is_u32 s -> is_u8 b -> is_u32 (byte_step s b).
Proof.
  intros Hs Hb. apply (iter_ind is_u32); [|exact bit_step_range].
  unfold is_u32, is_u8 in *. apply lxor_range; lia.
Qed.

Lemma crc_state_range l s : is_u32 s -> bytes_ok l -> is_u32 (crc_state s l).
Proof.
  intros Hs Hl. revert s Hs. induction Hl as [|b l Hb _ IH]; intros s Hs; [done|]. apply IH. by apply byte_step_range.
Qed.

Lemma crc32_ieee_range l : bytes_ok l -> is_u32 (crc32_ieee l).
Proof.
  intros Hl. apply lxor_range; [done| |by unfold ONES; lia]. apply crc_state_range; [|done]. unfold is_u32, ONES. lia.
Qed.

(** ** A changed byte is always detected *)

(** The top bit of the result is the bit shifted out. *)
Lemma bit_step_inj s s' : is_u32 s -> is_u32 s' -> bit_step s = bit_step s' -> s = s'.
Proof.
  unfold is_u32. intros Hs Hs' E.
  assert (forall x, 0 <= x < 2 ^ 32 -> Z.testbit (bit_step x) 31 = Z.odd x) as Htop.
  { intros x Hx. unfold bit_step. rewrite Z.lxor_spec, Z.shiftr_spec by done. change (31 + 1) with 32.
    rewrite (Z.bits_above_log2 x 32); [|lia|].
    - by destruct (Z.odd x).
    - destruct (decide (x = 0)) as [->|]; [done|]. apply Z.log2_lt_pow2; lia. }
  pose proof (f_equal (fun z => Z.testbit z 31) E) as Ho. cbn beta in Ho. rewrite !Htop in Ho by done.
  unfold bit_step in E. rewrite Ho in E.
  apply (f_equal (fun z => Z.lxor z (if Z.odd s' then POLY else 0))) in E.
  rewrite !Z.lxor_assoc, Z.lxor_nilpotent, !Z.lxor_0_r in E.
  rewrite (Z.div2_odd s), (Z.div2_odd s'), !Z.div2_spec, E, Ho. done.
Qed.

Lemma iter_bit_inj n s s' : is_u32 s -> is_u32 s' -> Nat.iter n bit_step s = Nat.iter n bit_step s' -> s = s'.
Proof.
  intros Hs Hs'. induction n as [|n IH]; [done|]. simpl. intros E%bit_step_inj; [auto|..];
    (apply (iter_ind is_u32); [done|exact bit_step_range]).
Qed.

Lemma lxor_cancel_r a b c : Z.lxor a c = Z.lxor b c -> a = b.
Proof.
  intros E%(f_equal (fun z => Z.lxor z c)). by rewrite !Z.lxor_assoc, Z.lxor_nilpotent, !Z.lxor_0_r in E.
Qed.

Lemma byte_step_inj s s' b b' :
  is_u32 s -> is_u32 s' -> is_u8 b -> is_u8 b' -> byte_step s b = byte_step s' b' -> Z.lxor s b = Z.lxor s' b'.
Proof. intros Hs Hs' Hb Hb'. unfold is_u8 in *. apply iter_bit_inj; apply lxor_range; unfold is_u32 in *; lia. Qed.

Lemma crc_state_inj l s s' : is_u32 s -> is_u32 s' -> bytes_ok l -> crc_state s l = crc_state s' l -> s = s'.
Proof.
  intros Hs Hs' Hl. revert s s' Hs Hs'. induction Hl as [|b l Hb _ IH]; intros s s' Hs Hs' E; [done|].
  apply IH in E; [|by apply byte_step_range..]. by apply byte_step_inj, lxor_cancel_r in E.
Qed.

Lemma one_byte_detected l1 l2 b b' :
  bytes_ok l1 -> bytes_ok l2 -> is_u8 b -> is_u8 b' -> b ≠ b' -> crc32_ieee (l1 ++ b :: l2) ≠ crc32_ieee (l1 ++ b' :: l2).
Proof.
  intros H1 H2 Hb Hb' Hne E%lxor_cancel_r. unfold crc_state in E. rewrite !foldl_app in E. cbn [foldl] in E.
  assert (is_u32 ONES) as Hones by (unfold is_u32, ONES; lia). pose proof (crc_state_range l1 ONES Hones H1) as Hs.
  apply crc_state_inj in E; [|by apply byte_step_range..|done].
  apply byte_step_inj in E; [|done..]. rewrite !(Z.lxor_comm (foldl _ _ _)) in E. by apply lxor_cancel_r in E.
Qed.

(** ** Runs of zeroes *)

Definition linear (f : Z -> Z) : Prop := forall a b, f (Z.lxor a b) = Z.lxor (f a) (f b).

Lemma bit_step_linear : linear bit_step.
Proof.
  intros a b. unfold bit_step. rewrite Z.shiftr_lxor.
  assert (Z.odd (Z.lxor a b) = xorb (Z.odd a) (Z.odd b)) as -> by (rewrite <- !Z.bit0_odd; apply Z.lxor_spec).
  rewrite !Z.lxor_assoc. f_equal. rewrite !(Z.lxor_comm _ (Z.lxor (Z.shiftr b 1) _)), !Z.lxor_assoc. f_equal.
  by destruct (Z.odd a), (Z.odd b).
Qed.

Lemma linear_zero f : linear f -> f 0 = 0.
Proof. intros H. specialize (H 0 0). by rewrite !Z.lxor_nilpotent in H. Qed.

Lemma linear_iter n f : linear f -> linear (Nat.iter n f).
Proof. intros H a b. induction n as [|n IH]; [done|]. simpl. by rewrite IH, H. Qed.

(** A linear map as the images of the 32 bits. *)
Definition columns (f : Z -> Z) : list Z := (fun i => f (Z.shiftl 1 i)) <$> seqZ 0 32.

Fixpoint mat_apply (m : list Z) (v : Z) : Z :=
  match m with
  | [] => 0
  | c :: m => Z.lxor (if Z.odd v then c else 0) (mat_apply m (Z.shiftr v 1))
  end.

Lemma mat_apply_seq f (n : nat) : linear f -> forall k v, 0 <= k -> 0 <= v < 2 ^ Z.of_nat n ->
  mat_apply ((fun i => f (Z.shiftl 1 i)) <$> seqZ k (Z.of_nat n)) v = f (Z.shiftl v k).
Proof.
  intros Hf. induction n as [|n IH]; intros k v Hk Hv.
  - assert (v = 0) as -> by (simpl in Hv; lia). rewrite Z.shiftl_0_l. by rewrite (linear_zero f).
  - rewrite seqZ_cons, Nat2Z.inj_succ, Z.pred_succ, fmap_cons by lia. cbn [mat_apply].
    assert (0 <= Z.shiftr v 1 < 2 ^ Z.of_nat n) as Hv'.
    { rewrite Nat2Z.inj_succ, Z.pow_succ_r in Hv by lia. rewrite Z.shiftr_div_pow2 by done. change (2 ^ 1) with 2.
      split; [apply Z.div_pos; lia|apply Z.div_lt_upper_bound; lia]. }
    rewrite (IH (Z.succ k)) by (done || lia).
    assert (Z.shiftl v k = Z.lxor (if Z.odd v then Z.shiftl 1 k else 0) (Z.shiftl (Z.shiftr v 1) (Z.succ k))) as ->.
    { replace (Z.succ k) with (1 + k) by lia. rewrite <- Z.shiftl_shiftl by done.
      assert ((if Z.odd v then Z.shiftl 1 k else 0) = Z.shiftl (Z.b2z (Z.odd v)) k) as -> by (by destruct (Z.odd v); rewrite ?Z.shiftl_0_l).
      rewrite <- Z.shiftl_lxor. f_equal. apply Z.bits_inj'. intros i Hi. rewrite Z.lxor_spec.
      destruct (decide (i = 0)) as [->|].
      - rewrite Z.b2z_bit0, Z.shiftl_spec_low by lia. rewrite Z.bit0_odd. by destruct (Z.odd v).
      - replace i with (Z.succ (i - 1)) at 2 by lia. rewrite Z.shiftl_spec, Z.shiftr_spec by lia. replace (i - 1 + 1) with i by lia.
        assert (Z.testbit (Z.b2z (Z.odd v)) (Z.succ (i - 1)) = false) as ->; [|done].
        destruct (Z.odd v); [|apply Z.bits_0]. apply Z.bits_above_log2; simpl; lia. }
    rewrite Hf. f_equal. destruct (Z.odd v); [done|by rewrite (linear_zero f)].
Qed.

Lemma mat_apply_columns f v : linear f -> is_u32 v -> mat_apply (columns f) v = f v.
Proof.
  intros Hf Hv. unfold columns. change 32 with (Z.of_nat 32). rewrite (mat_apply_seq f 32 Hf 0 v); [|done|exact Hv].
  by rewrite Z.shiftl_0_r.
Qed.

(** The maps [f], [f^2], [f^4], ... *)
Fixpoint squares (n : nat) (m : list Z) : list (list Z) :=
  match n with O => [] | S n => m :: squares n (mat_apply m <$> m) end.

Fixpoint iterate (ms : list (list Z)) (n s : Z) : Z :=
  match ms with
  | [] => s
  | m :: ms => iterate ms (Z.shiftr n 1) (if Z.odd n then mat_apply m s else s)
  end.

Lemma columns_square f : linear f -> (forall v, is_u32 v -> is_u32 (f v)) ->
  mat_apply (columns f) <$> columns f = columns (fun v => f (f v)).
Proof.
  intros Hf Hr.
  assert (forall i, i ∈ seqZ 0 32 -> mat_apply (columns f) (f (Z.shiftl 1 i)) = f (f (Z.shiftl 1 i))) as H.
  { intros i Hi%elem_of_seqZ. apply mat_apply_columns; [done|]. apply Hr. rewrite Z.shiftl_1_l. unfold is_u32.
    split; [by apply Z.pow_nonneg|apply Z.pow_lt_mono_r; lia]. }
  revert H. generalize (mat_apply (columns f)). intros g H. unfold columns. revert H.
  generalize (seqZ 0 32). intros l. induction l as [|i l IH]; intros H; [done|].
  rewrite !fmap_cons. f_equal; [apply H; by left|apply IH; intros; apply H; by right].
Qed.

Lemma iterate_spec k : forall f n s, linear f -> (forall v, is_u32 v -> is_u32 (f v)) -> is_u32 s ->
  0 <= n < 2 ^ Z.of_nat k -> iterate (squares k (columns f)) n s = Nat.iter (Z.to_nat n) f s.
Proof.
  induction k as [|k IH]; intros f n s Hf Hr Hs Hn; [by assert (n = 0) as -> by (simpl in Hn; lia)|].
  cbn [squares iterate]. rewrite columns_square, mat_apply_columns by done.
  rewrite Nat2Z.inj_succ, Z.pow_succ_r in Hn by lia.
  assert (Z.shiftr n 1 = n / 2) as E by (by rewrite Z.shiftr_div_pow2).
  rewrite IH; [|intros a b; by rewrite !Hf|auto|by destruct (Z.odd n); auto|].
  2:{ rewrite E. split; [apply Z.div_pos; lia|apply Z.div_lt_upper_bound; lia]. }
  assert (forall m x, Nat.iter m (fun v => f (f v)) x = Nat.iter (2 * m) f x) as H2.
  { intros m x. induction m as [|m IHm]; [done|]. replace (2 * S m)%nat with (S (S (2 * m))) by lia.
    cbn [Nat.iter nat_rect]. unfold Nat.iter in IHm. by rewrite IHm. }
  rewrite H2, E. assert (n = 2 * (n / 2) + Z.b2z (Z.odd n)) as Hdiv by (rewrite <- Z.div2_div; apply Z.div2_odd).
  assert (0 <= n / 2) by (apply Z.div_pos; lia).
  destruct (Z.odd n); simpl Z.b2z in Hdiv.
  - replace (Z.to_nat n) with (S (2 * Z.to_nat (n / 2))) by lia. rewrite Nat.iter_succ_r. done.
  - by replace (Z.to_nat n) with (2 * Z.to_nat (n / 2))%nat by lia.
Qed.

Definition zero_step (s : Z) : Z := byte_step s 0.

Lemma zero_step_linear : linear zero_step.
Proof.
  intros a b. unfold zero_step, byte_step. rewrite !Z.lxor_0_r. apply (linear_iter 8 _ bit_step_linear).
Qed.

Lemma zeros_state n s : foldl byte_step s (replicate n 0) = Nat.iter n zero_step s.
Proof.
  revert s. induction n as [|n IH]; intros s; [reflexivity|]. rewrite Nat.iter_succ_r. unfold zero_step at 2. exact (IH _).
Qed.

(** Enough squares for runs below 2^17. *)
Definition zero_tables : list (list Z) := Eval vm_compute in squares 17 (columns zero_step).

Lemma zero_tables_eq : zero_tables = squares 17 (columns zero_step).
Proof. vm_compute. reflexivity. Qed.

(** The checksum of [l] followed by [n] zeroes. *)
Definition crc_padded (l : list Z) (n : Z) : Z := Z.lxor (iterate zero_tables n (crc_state ONES l)) ONES.

Lemma crc_padded_spec l n :
  bytes_ok l -> 0 <= n < 2 ^ 17 -> crc32_ieee (l ++ replicate (Z.to_nat n) 0) = crc_padded l n.
Proof.
  intros Hl Hn. unfold crc32_ieee, crc_padded. f_equal. unfold crc_state at 1. rewrite foldl_app. fold (crc_state ONES l).
  assert (is_u32 (crc_state ONES l)) as Hs by (apply crc_state_range; [unfold is_u32, ONES; lia|done]).
  rewrite zero_tables_eq, iterate_spec; [|exact zero_step_linear| |done|done].
  - apply zeros_state.
  - intros v Hv. exact (byte_step_range v 0 Hv ltac:(unfold is_u8; lia)).
Qed.
