(* ===== verification/CrashModel.v ===== *)
(** * CrashModel.v: the crash tests ([tests/crash_recovery.rs])

    The fault injection of the repository as definitions: its command stream,
    its oracles, the three tests that damage files at every byte offset, and the
    writer process that is killed and restarted.  A file is the list of its
    bytes and the data directory holds the log and the snapshots; where the
    process is killed, the log shows any mixture of the bytes before and after
    the append under way ([torn]); [accidental] says when such a mixture passes
    the checksum without being complete.  What the tests print is left out. *)

From stdpp Require Import strings list_numbers.
From S2P Require Import Prelude.
From S2P Require Import Order.
From S2P Require Import Book.
From S2P Require Import Matching.
From S2P Require Import Protocol.
From S2P Require Import Wal.
From S2P Require Import Snapshot.
From S2P Require Import Recovery.
From S2P Require Import Testing.
From S2P Require Import WalTests.

Definition ARENA : Z := 8192.
Definition NEW_ORDER_RECORD : Z := 48.
Definition CANCEL_RECORD : Z := 24.
Definition WAL_SIZE : Z := 2 ^ 20.
Definition SNAPSHOT_EVERY : Z := 500.

(** The data directory: [snapshots/], if it exists, and [wal.bin] ([[]] before
    it is created). *)
Record Data : Type := mkData { d_snapshots : option Dir; d_wal : list Z }.

(** ** The command stream *)

(** The mixed bits a command is made from. *)
Definition mix (seed i : Z) : Z :=
  let z := Z.lxor seed (wrap 64 (i * 0x9E3779B97F4A7C15)) in
  let z := wrap 64 (Z.lxor z (Z.shiftr z 30) * 0xBF58476D1CE4E5B9) in
  let z := wrap 64 (Z.lxor z (Z.shiftr z 27) * 0x94D049BB133111EB) in
  Z.lxor z (Z.shiftr z 31).

Definition command (seed i : Z) : option EngineCommand :=
  let z := mix seed i in
  if decide (0 < i /\ z mod 4 = 0) then Some (CancelOrder (1 + Z.shiftr z 8 mod i))
  else
    let side := if decide (Z.land (Z.shiftr z 2) 1 = 0) then Bid else Ask in
    let price := 100 + Z.shiftr z 3 mod 11 in
    let qty := 1 + Z.shiftr z 16 mod 20 in
    let trader := Z.shiftr z 24 mod 4 in
    order ← Order_new (wrap 64 (i + 1)) trader side price qty 0;
    Some (NewOrder order).

Definition record_size (cmd : EngineCommand) : Z :=
  match cmd with NewOrder _ => NEW_ORDER_RECORD | CancelOrder _ => CANCEL_RECORD end.

Definition apply (engine : MatchingEngine) (cmd : EngineCommand) : option MatchingEngine :=
  match cmd with
  | NewOrder o => '(engine, _) ← MatchingEngine.add_order engine o; Some engine
  | CancelOrder order_id => '(engine, _) ← MatchingEngine.cancel_order engine order_id; Some engine
  end.

Definition replay (seed n : Z) : option MatchingEngine :=
  for_each (fun engine i => cmd ← command seed i; apply engine cmd)
    (MatchingEngine.with_capacity ARENA) (seqZ 0 n).

Abbreviation BookState := (list Order * option Z * option Z * nat)%type.

Definition state (engine : MatchingEngine) : option BookState :=
  let book := MatchingEngine.book engine in
  orders ← OrderBook.all_resting_orders book;
  Some (orders, OrderBook.best_bid book, OrderBook.best_ask book, OrderBook.order_count book).

(** ** The checks *)

(** What [check_recovery] describes in its messages. *)
Inductive Failure : Type :=
| RecoverFailed (e : RecoveryError)
| WrongCount (recovered expected : Z)
| StateDiffers (records : Z)
| SecondRecoverFailed (e : RecoveryError)
| WrongCountAfter (recovered expected : Z)
| StateDiffersAfter
| Panicked.

(** [assert!(failures.is_empty())]. *)
Definition report (failures : list Failure) : option unit :=
  assert_that (match failures with [] => true | _ => false end).

(** [|b| b ^ 0xFF], [|_| 0], [|b| b ^ 0x01]. *)
Definition mutations : list (Z -> Z) := [fun b => Z.lxor b 0xFF; fun _ => 0; fun b => Z.lxor b 1].

(** [bytes[offset] = mutate(bytes[offset])], unless that changes nothing. *)
Definition mutated (bytes : list Z) (offset : Z) (mutate : Z -> Z) : option (option (list Z)) :=
  b ← vget bytes offset;
  let new := mutate b in
  if decide (new = b) then Some None else Some (Some (vset bytes offset new)).

(** The loop over [ends] that counts the leading records whose bytes are unchanged. *)
Fixpoint unchanged (zero_extended full : list Z) (ends : list Z) (expected_k start : Z) : option Z :=
  match ends with
  | [] => Some expected_k
  | stop :: ends =>
      z ← slice zero_extended start (stop - start);
      f ← slice full start (stop - start);
      if decide (z ≠ f) then Some expected_k
      else unchanged zero_extended full ends (expected_k + 1) stop
  end.

(** [ends.iter().filter(|&&e| e <= len).count()]. *)
Definition complete (ends : list Z) (len : Z) : Z := zlen (filter (fun e => e <= len) ends).

Section crash.
Context {C : Codec}.

Definition recover (data : Data) : option (result (MatchingEngine * Wal) RecoveryError) :=
  recover_with_wal_size (d_snapshots data) (d_wal data) ARENA (Some WAL_SIZE) true true true.

(** [wal.append(&cmd).unwrap()] (or [expect]); the disk does not fail. *)
Definition append_cmd (wal : Wal) (cmd : EngineCommand) : option Wal :=
  '(wal, _) ← appended crc32 wal cmd; Some wal.

(** One record of [build_wal]. *)
Definition build_record (seed : Z) (s : Wal * list Z * Z) (i : Z) : option (Wal * list Z * Z) :=
  let '(wal, ends, pos) := s in
  cmd ← command seed i;
  wal ← append_cmd wal cmd;
  let pos := pos + record_size cmd in
  Some (wal, ends ++ [pos], pos).

(** The content of the file, its valid bytes, and the end of every record. *)
Definition build_wal (seed n : Z) : option (list Z * list Z * list Z) :=
  wal ← opened crc32 [];
  '(wal, ends, pos) ← for_each (build_record seed) (wal, [], 0) (seqZ 0 n);
  assert_eq (write_pos wal) pos;;
  let bytes := w_file wal in
  Some (bytes, take (Z.to_nat pos) bytes, ends).

(** One command of the survivor. *)
Definition survive (seed n : Z) (s : MatchingEngine * Wal) (j : Z) : option (MatchingEngine * Wal) :=
  let '(engine, wal) := s in
  cmd ← command seed (n + j);
  wal ← append_cmd wal cmd;
  engine ← apply engine cmd;
  Some (engine, wal).

(** The closure of [check_recovery]: [None] is a panic, [Some None] success. *)
Definition check_body (data : Data) (seed n expected_k : Z) : option (option Failure) :=
  r ← recover data;
  match r with
  | Err e => Some (Some (RecoverFailed e))
  | Ok (engine, wal) =>
      if decide (record_count wal ≠ expected_k) then Some (Some (WrongCount (record_count wal) expected_k))
      else
        recovered ← state engine;
        reference ← replay seed expected_k;
        expected ← state reference;
        if decide (recovered ≠ expected) then Some (Some (StateDiffers expected_k))
        else
          '(engine, wal) ← for_each (survive seed n) (engine, wal) (seqZ 0 3);
          expected_after ← state engine;
          r2 ← recover (mkData (d_snapshots data) (w_file wal));
          match r2 with
          | Err e => Some (Some (SecondRecoverFailed e))
          | Ok (engine2, wal2) =>
              if decide (record_count wal2 ≠ expected_k + 3)
              then Some (Some (WrongCountAfter (record_count wal2) (expected_k + 3)))
              else
                state2 ← state engine2;
                if decide (state2 ≠ expected_after) then Some (Some StateDiffersAfter) else Some None
          end
  end.

(** [catch_unwind] turns a panic into a failure. *)
Definition check_recovery (data : Data) (seed n expected_k : Z) : option Failure :=
  match check_body data seed n expected_k with Some r => r | None => Some Panicked end.

(** ** Damaged files *)

(** The source runs the first test with seed [0x5EED_0001] and 16 commands, the
    second with [0x5EED_0002] and 16, the third with [0x5EED_0003], 40 commands
    and the snapshot after 25. *)
Definition truncated_case (seed n : Z) (full ends : list Z) (failures : list Failure) (len : Z)
  : option (list Failure) :=
  let bytes := take (Z.to_nat len) full in
  let zero_extended := bytes ++ replicate (length full - length bytes) 0 in
  expected_k ← unchanged zero_extended full ends 0 0;
  Some (failures ++ option_list (check_recovery (mkData None bytes) seed n expected_k)).

Definition wal_truncated_at_every_byte_offset_recovers_the_longest_valid_prefix (seed n : Z) : option unit :=
  '(_, full, ends) ← build_wal seed n;
  failures ← for_each (truncated_case seed n full ends) [] (seqZ 0 (zlen full + 1));
  report failures.

Definition corrupted_case (seed n : Z) (full ends : list Z) (offset : Z) (failures : list Failure)
  (mutate : Z -> Z) : option (list Failure) :=
  let expected_k := complete ends offset in
  bytes ← mutated full offset mutate;
  match bytes with
  | None => Some failures
  | Some bytes => Some (failures ++ option_list (check_recovery (mkData None bytes) seed n expected_k))
  end.

Definition wal_corrupted_at_every_byte_offset_recovers_the_prefix_before_the_damage (seed n : Z) : option unit :=
  '(_, full, ends) ← build_wal seed n;
  failures ← for_each (fun failures offset => for_each (corrupted_case seed n full ends offset) failures mutations)
    [] (seqZ 0 (zlen full));
  report failures.

(** The closure of the third test. *)
Definition check_snapshot (data : Data) (n : Z) (truth : BookState) : option (option Failure) :=
  r ← recover data;
  match r with
  | Ok (engine, wal) =>
      if decide (record_count wal ≠ n) then Some (Some (WrongCount (record_count wal) n))
      else
        s ← state engine;
        if decide (s ≠ truth) then Some (Some (StateDiffers n)) else Some None
  | Err e => Some (Some (RecoverFailed e))
  end.

Definition snapshot_case (n : Z) (truth : BookState) (wal_bytes snap_bytes : list Z) (snap_name : string)
  (offset : Z) (failures : list Failure) (mutate : Z -> Z) : option (list Failure) :=
  bytes ← mutated snap_bytes offset mutate;
  match bytes with
  | None => Some failures
  | Some bytes =>
      let data := mkData (Some {[snap_name := bytes]}) wal_bytes in
      let outcome := match check_snapshot data n truth with Some r => r | None => Some Panicked end in
      Some (failures ++ option_list outcome)
  end.

Definition snapshot_corrupted_at_every_byte_offset_never_yields_a_divergent_state (seed n k : Z) : option unit :=
  '(file, wal_bytes, _) ← build_wal seed n;
  at_k ← replay seed k;
  snap ← capture at_k k;
  let snap_dir := save snap ∅ in
  let snap_name := snapshot_filename (sn_wal_record_count snap) in
  snap_bytes ← snap_dir !! snap_name;
  at_n ← replay seed n;
  truth ← state at_n;
  r ← recover (mkData (Some snap_dir) file);
  '(engine, wal) ← unwrap r;
  assert_eq (record_count wal) n;;
  s ← state engine;
  assert_eq s truth;;
  failures ← for_each (fun failures offset =>
      for_each (snapshot_case n truth wal_bytes snap_bytes snap_name offset) failures mutations)
    [] (seqZ 0 (zlen snap_bytes));
  report failures.

(** ** The writer process *)

(** A line of its output.  A line is flushed as a whole, and the parent reads
    all of them before it looks at the last. *)
Inductive Line : Type :=
| Resumed (i : Z)
| Acked (i : Z).

(** The writer at the head of its loop. *)
Record Child : Type := mkChild {
  ch_engine : MatchingEngine;
  ch_wal : Wal;
  ch_i : Z;
  ch_out : list Line;
  ch_snapshots : option Dir
}.

Definition child_data (ch : Child) : Data := mkData (ch_snapshots ch) (w_file (ch_wal ch)).

(** [crash_child_main] up to its loop. *)
Definition child_start (data : Data) : option Child :=
  r ← recover data;
  '(engine, wal) ← unwrap r;
  let i := record_count wal in
  Some (mkChild engine wal i [Resumed i] (d_snapshots data)).

(** The loop body up to the acknowledgement. *)
Definition child_command (seed : Z) (ch : Child) : option Child :=
  cmd ← command seed (ch_i ch);
  wal ← append_cmd (ch_wal ch) cmd;
  engine ← apply (ch_engine ch) cmd;
  let i := ch_i ch + 1 in
  Some (mkChild engine wal i (ch_out ch ++ [Acked i]) (ch_snapshots ch)).

(** The rest of the loop body. *)
Definition child_snapshot (ch : Child) : option Child :=
  if decide (ch_i ch mod SNAPSHOT_EVERY = 0) then
    snap ← capture (ch_engine ch) (ch_i ch);
    Some (mkChild (ch_engine ch) (ch_wal ch) (ch_i ch) (ch_out ch)
            (Some (save snap (default ∅ (ch_snapshots ch)))))
  else Some ch.

Definition child_iteration (seed : Z) (ch : Child) : option Child :=
  ch ← child_command seed ch; child_snapshot ch.

(** The states of a writer started on [data]. *)
Inductive child_runs (seed : Z) (data : Data) : Child -> Prop :=
| runs_start ch : child_start data = Some ch -> child_runs seed data ch
| runs_step ch ch' :
    child_runs seed data ch -> child_iteration seed ch = Some ch' -> child_runs seed data ch'.

(** Every byte is the old or the new one: the stores of an append, in whatever
    order the compiler and the copies make them. *)
Definition torn (old new img : list Z) : Prop := Forall3 (fun o n b => b = o \/ b = n) old new img.

(** Killed in the iteration that starts at [ch]: the lines printed and what the
    directory holds. *)
Inductive killed (seed : Z) (ch : Child) : list Line -> Data -> Prop :=
| killed_before : killed seed ch (ch_out ch) (child_data ch)
| killed_append cmd wal img :
    (* inside the append (the file may already be longer), or after it and
       before the line is out *)
    command seed (ch_i ch) = Some cmd -> append_cmd (ch_wal ch) cmd = Some wal ->
    torn (set_len (w_file (ch_wal ch)) (zlen (w_file wal))) (w_file wal) img ->
    killed seed ch (ch_out ch) (mkData (ch_snapshots ch) img)
| killed_acked ch' : child_command seed ch = Some ch' -> killed seed ch (ch_out ch') (child_data ch')
| killed_mkdir ch' :
    child_command seed ch = Some ch' -> ch_i ch' mod SNAPSHOT_EVERY = 0 ->
    killed seed ch (ch_out ch') (mkData (Some (default ∅ (ch_snapshots ch'))) (w_file (ch_wal ch')))
| killed_save ch' snap bytes :
    (* inside [Snapshot::save], before the rename *)
    child_command seed ch = Some ch' -> ch_i ch' mod SNAPSHOT_EVERY = 0 ->
    capture (ch_engine ch') (ch_i ch') = Some snap ->
    killed seed ch (ch_out ch')
      (mkData (Some (save_write snap bytes (default ∅ (ch_snapshots ch')))) (w_file (ch_wal ch'))).

(** ** The parent *)

Definition resumed (text : list Line) : option Z :=
  head (omap (fun l => match l with Resumed i => Some i | Acked _ => None end) text).

Definition last_ack (text : list Line) : option Z :=
  last (omap (fun l => match l with Acked i => Some i | Resumed _ => None end) text).

(** One cycle of [killed_writer_recovers_to_a_consistent_prefix] after the kill:
    the new [last_count] and the directory recovery leaves. *)
Definition check_cycle (seed last_count : Z) (text : list Line) (data : Data) : option (Z * Data) :=
  assert_eq (resumed text) (Some last_count);;
  r ← recover data;
  '(engine, wal) ← unwrap r;
  let count := record_count wal in
  (match last_ack text with
   | Some ack => assert_that (bool_decide (count >= ack /\ count <= ack + 1))
   | None => Some tt
   end);;
  assert_that (bool_decide (count >= last_count));;
  recovered ← state engine;
  reference ← replay seed count;
  expected ← state reference;
  assert_eq recovered expected;;
  records ← collected crc32 wal 0;
  wal_only ← for_each (fun engine '(_, cmd) => apply engine cmd) (MatchingEngine.with_capacity ARENA) records;
  by_log ← state wal_only;
  assert_eq recovered by_log;;
  _ ← unwrap (load_latest (d_snapshots data) true);
  Some (count, mkData (d_snapshots data) (w_file wal)).

(** What the scan of the log asks of the bytes at a position: a length, and a
    payload of that length with the stored checksum. *)
Definition checksum_passes (crc : list Z -> Z) (l : list Z) : bool :=
  let len := from_le (take 4 l) in
  bool_decide (len ≠ 0) && bool_decide (from_le (take 4 (drop 4 l)) = crc (take (Z.to_nat len) (drop 8 l))).

(** The accident a checksum cannot exclude: the record under way is not the one
    appended, and still passes. *)
Definition accidental (seed : Z) (ch : Child) (data : Data) : Prop :=
  exists cmd wal, command seed (ch_i ch) = Some cmd /\ append_cmd (ch_wal ch) cmd = Some wal /\
    d_wal data ≠ w_file wal /\ checksum_passes crc32 (drop (Z.to_nat (write_pos (ch_wal ch))) (d_wal data)) = true.

(** The directory and [last_count] between cycles; each writer is killed before
    its log has more than [limit] records, and leaves no torn record that passes
    its checksum by accident. *)
Inductive cycles (seed limit : Z) : Data -> Z -> Prop :=
| cycles_start : cycles seed limit (mkData None []) 0
| cycles_step data last_count ch text data' count data'' :
    cycles seed limit data last_count -> child_runs seed data ch -> ch_i ch < limit -> killed seed ch text data' ->
    ~ accidental seed ch data' ->
    check_cycle seed last_count text data' = Some (count, data'') ->
    cycles seed limit data'' count.

End crash.
