(* ===== verification/CrashThm.v ===== *)
(** * CrashThm.v: the crash tests pass

    A writer killed at any point of any cycle leaves a directory from which
    recovery gives exactly the replay of the commands that survive, and from which
    the writer goes on, unless a torn record passes its checksum by accident.  The
    tests that cut the log at every byte and damage every byte of it pass with the
    seeds of the repository: the checksum is CRC-32 ([Crc32]), a damaged byte of a
    checksum or payload is always detected, and that no cut record and no damaged
    length is accepted is computed.  For a damaged snapshot, whose bytes depend on
    the serializer, detection is a hypothesis ([snapshot_passes]). *)

From stdpp Require Import strings list_numbers.
From S2P Require Import Prelude.
From S2P Require Import Order.
From S2P Require Import Arena.
From S2P Require Import ArenaInv.
From S2P Require Import Book.
From S2P Require Import BookSpec.
From S2P Require Import BookInv.
From S2P Require Import Matching.
From S2P Require Import MatchingSpec.
From S2P Require Import MatchingInv.
From S2P Require Import Protocol.
From S2P Require Import ProtocolInv.
From S2P Require Import Engine.
From S2P Require Import Wal.
From S2P Require Import WalInv.
From S2P Require Import WalThm.
From S2P Require Import WalDamage.
From S2P Require Import Snapshot.
From S2P Require Import SnapshotInv.
From S2P Require Import Recovery.
From S2P Require Import RecoveryInv.
From S2P Require Import RecoveryThm.
From S2P Require Import Testing.
From S2P Require Import WalTests.
From S2P Require Import Crc32.
From S2P Require Import CrashModel.

(** ** The command stream *)

(** Indices far from the end of u64. *)
Definition stream_max : Z := 2 ^ 63.

Definition nth_command (seed : Z) (i : Z) : EngineCommand := default (CancelOrder 0) (command seed i).

(** The first [n] commands. *)
Definition stream (seed n : Z) : list EngineCommand := nth_command seed <$> seqZ 0 n.

(** Well-typed and without a timestamp, so that the log loses nothing of it. *)
Definition plain (c : EngineCommand) : Prop := command_typed c /\ untimed c = c.

Lemma command_plain seed i : 0 <= i < stream_max -> exists c, command seed i = Some c /\ plain c.
Proof.
  intros Hi. unfold command, stream_max in *. set (z := mix seed i). case_decide as Hc.
  - eexists. split; [done|]. split; [|done]. simpl. unfold_ranges.
    pose proof (Z.mod_pos_bound (Z.shiftr z 8) i). lia.
  - pose proof (Z.mod_pos_bound (Z.shiftr z 3) 11). pose proof (Z.mod_pos_bound (Z.shiftr z 16) 20).
    pose proof (Z.mod_pos_bound (Z.shiftr z 24) 4). unfold Order_new. rewrite decide_False by lia.
    cbn [mbind option_bind]. eexists. split; [done|]. split; [|done]. simpl.
    unfold order_typed. cbn [o_id o_trader_id o_price o_quantity o_timestamp o_side].
    rewrite wrap_small by lia. unfold_ranges. lia.
Qed.

Lemma nth_command_spec seed i : 0 <= i < stream_max -> command seed i = Some (nth_command seed i) /\ plain (nth_command seed i).
Proof. intros Hi. unfold nth_command. by destruct (command_plain seed i Hi) as (c & -> & Hp). Qed.

Lemma stream_plain seed n : n <= stream_max -> Forall plain (stream seed n).
Proof.
  intros Hn. apply Forall_fmap, Forall_forall. intros i Hi%elem_of_seqZ. apply nth_command_spec. lia.
Qed.

Lemma stream_succ seed n : 0 <= n -> stream seed (n + 1) = stream seed n ++ [nth_command seed n].
Proof. intros Hn. unfold stream. rewrite seqZ_app by lia. by rewrite fmap_app. Qed.

Lemma length_stream seed n : 0 <= n -> Z.of_nat (length (stream seed n)) = n.
Proof. intros Hn. unfold stream. rewrite length_fmap, length_seqZ. lia. Qed.

Lemma stream_prefix seed k n : 0 <= k <= n -> exists cs, stream seed n = stream seed k ++ cs.
Proof.
  intros H. unfold stream. exists (nth_command seed <$> seqZ k (n - k)).
  rewrite <- fmap_app. f_equal. replace (seqZ k (n - k)) with (seqZ (0 + k) (n - k)) by (f_equal; lia).
  rewrite <- seqZ_app by lia. f_equal. lia.
Qed.

Lemma plain_typed cs : Forall plain cs -> Forall command_typed cs.
Proof. intros H. eapply Forall_impl; [exact H|]. by intros c []. Qed.

Lemma plain_untimed cs : Forall plain cs -> untimed <$> cs = cs.
Proof. induction 1 as [|c cs [_ E] _ IH]; [done|]. rewrite fmap_cons. by rewrite E, IH. Qed.

Lemma plain_in_range cs : Forall plain cs -> Forall command_in_range cs.
Proof. intros. by apply typed_in_range, plain_typed. Qed.

(** ** The engine after commands *)

Definition book_of (cs : list EngineCommand) : SpecBook := fst (spec_run ARENA sp_empty cs).

Lemma arena_range : 0 <= ARENA < 2 ^ 32.
Proof. unfold ARENA. lia. Qed.

Lemma apply_replays e c : CrashModel.apply e c = replay_command e c.
Proof. done. Qed.

Lemma apply_spec e cs c :
  engine_inv ARENA e (book_of cs) -> plain c ->
  exists e', CrashModel.apply e c = Some e' /\ engine_inv ARENA e' (book_of (cs ++ [c])).
Proof.
  intros I [Ht Hu]. destruct (replay_command_spec ARENA e _ c I Ht) as (e' & Hr & I'). rewrite Hu in *.
  exists e'. split; [exact Hr|]. unfold book_of. rewrite spec_run_app. simpl. fold (book_of cs).
  by destruct (spec_exec ARENA (book_of cs) c).
Qed.

Lemma book_reached cs : Forall plain cs -> exists e, engine_inv ARENA e (book_of cs).
Proof.
  intros Hcs%plain_in_range. destruct (run_spec ARENA cs _ _ (with_capacity_inv ARENA arena_range) Hcs) as (e & _ & I).
  by exists e.
Qed.

Definition book_state (sp : SpecBook) : BookState :=
  (sp_all sp, sp_best sp Bid, sp_best sp Ask, length (sp_all sp)).

Lemma state_spec e sp : engine_inv ARENA e sp -> state e = Some (book_state sp).
Proof.
  intros [R _ _ _]. unfold state, MatchingEngine.book. rewrite (all_resting_orders_rep _ _ R). cbn [mbind option_bind].
  rewrite (represents_count _ _ R). destruct R as (q & free & R).
  pose proof (rep_best_price R Bid) as Hb. pose proof (rep_best_price R Ask) as Ha. cbn [best] in Hb, Ha.
  unfold book_state. by rewrite <- Hb, <- Ha.
Qed.

Lemma for_each_plain (f : MatchingEngine -> EngineCommand -> option MatchingEngine) e cs0 cs :
  (forall e c, f e c = CrashModel.apply e c) -> engine_inv ARENA e (book_of cs0) -> Forall plain cs ->
  exists e', for_each f e cs = Some e' /\ engine_inv ARENA e' (book_of (cs0 ++ cs)).
Proof.
  intros Hf I Hcs. revert e cs0 I. induction Hcs as [|c cs Hc _ IH]; intros e cs0 I.
  - exists e. by rewrite app_nil_r.
  - cbn [for_each]. rewrite Hf. destruct (apply_spec e cs0 c I Hc) as (e1 & -> & I1). cbn [mbind option_bind].
    destruct (IH e1 _ I1) as (e' & -> & I'). exists e'. by rewrite <- app_assoc in I'.
Qed.

Lemma for_each_fmap {S X Y} (g : S -> Y -> option S) (h : X -> Y) (s : S) (xs : list X) :
  for_each (fun s x => g s (h x)) s xs = for_each g s (h <$> xs).
Proof.
  revert s. induction xs as [|x xs IH]; intros s; [done|]. rewrite fmap_cons. cbn [for_each].
  destruct (g s (h x)); [apply IH|done].
Qed.

Lemma for_each_ext {S X} (f g : S -> X -> option S) (s : S) (xs : list X) :
  (forall s x, x ∈ xs -> f s x = g s x) -> for_each f s xs = for_each g s xs.
Proof.
  revert s. induction xs as [|x xs IH]; intros s H; [done|]. cbn [for_each]. rewrite H by left.
  destruct (g s x); [|done]. apply IH. intros s' y Hy. apply H. by right.
Qed.

Lemma replay_spec seed n :
  n <= stream_max -> exists e, replay seed n = Some e /\ engine_inv ARENA e (book_of (stream seed n)).
Proof.
  intros Hn. unfold replay.
  rewrite (for_each_ext _ (fun e i => CrashModel.apply e (nth_command seed i))).
  - rewrite for_each_fmap. apply (for_each_plain _ _ []); [done|apply with_capacity_inv, arena_range|by apply stream_plain].
  - intros e i Hi%elem_of_seqZ. by destruct (nth_command_spec seed i ltac:(lia)) as [-> _].
Qed.

(** ** What the directory holds *)

Section disk.
Context {C : Codec} {L : CodecLaws C}.

(** The newest valid snapshot is the book after the first [n] commands. *)
Definition snapshots_of (cs : list EngineCommand) (dir : option Dir) : Prop :=
  (forall name, is_snapshot_name name = true -> is_Some (default ∅ dir !! name) ->
     exists m, 0 <= m <= Z.of_nat (length cs) /\ name = snapshot_filename m) /\
  exists latest n, load_latest dir true = Ok latest /\ (n <= length cs)%nat /\
    match latest with
    | Some s => sn_orders s = sp_all (book_of (take n cs)) /\ sn_wal_record_count s = Z.of_nat n
    | None => n = 0%nat
    end.

(** The log opens to the records of the commands. *)
Definition opens_to (file : list Z) (cs : list EngineCommand) : Prop :=
  bytes_ok file /\ exists w, open_with_size crc32 file WAL_SIZE true = Some (Ok w) /\ wal_rep crc32 w (command_frame <$> cs).

Definition disk_holds (cs : list EngineCommand) (d : Data) : Prop :=
  opens_to (d_wal d) cs /\ snapshots_of cs (d_snapshots d).

Lemma wal_size_nonneg : 0 <= WAL_SIZE.
Proof. unfold WAL_SIZE. lia. Qed.

Lemma wal_holds w cs : wal_rep crc32 w (command_frame <$> cs) -> opens_to (w_file w) cs.
Proof.
  intros R. split; [|apply (reopen_log crc32 crc32_range w _ _ R), wal_size_nonneg].
  destruct (wr_file _ _ _ R) as [n ->]. apply Forall_app. split; [apply R|apply bytes_ok_zeros].
Qed.

Lemma no_snapshots cs : snapshots_of cs None.
Proof.
  split; [intros name _ [x Hx]; cbn in Hx; by rewrite lookup_empty in Hx|].
  exists None, 0%nat. split_and!; [done|lia|done].
Qed.

Lemma snapshots_app cs cs' dir : snapshots_of cs dir -> snapshots_of (cs ++ cs') dir.
Proof.
  intros [Hn (latest & n & Hl & Hlen & Hs)]. split.
  - intros name H1 H2. destruct (Hn name H1 H2) as (m & Hm & ->). exists m. rewrite length_app. split; [lia|done].
  - exists latest, n. rewrite length_app. split; [done|]. split; [lia|]. by rewrite take_app_le.
Qed.

Lemma recover_disk cs d :
  Forall plain cs -> disk_holds cs d ->
  exists e w, CrashModel.recover d = Some (Ok (e, w)) /\ engine_inv ARENA e (book_of cs) /\
    wal_rep crc32 w (command_frame <$> cs) /\ record_count w = Z.of_nat (length cs).
Proof.
  intros Hcs [[Hb (w & Ho & R)] [_ (latest & n & Hl & Hn & Hs)]].
  assert (Forall plain (take n cs) /\ Forall plain (drop n cs)) as [Hc1 Hc2]
    by (apply Forall_app; by rewrite take_drop).
  destruct (recover_runs ARENA (d_snapshots d) latest (d_wal d) WAL_SIZE w (command_frame <$> cs) n (drop n cs) (book_of (take n cs))
    arena_range (plain_typed _ Hc2) Hl) as (e & Hr & I); [|exact Ho|exact R|by rewrite fmap_drop|].
  { destruct latest as [s|]; [|subst n; by split].
    destruct Hs as [H1 H2]. split_and!; [done|done|by apply book_reached]. }
  exists e, w. split; [exact Hr|]. rewrite plain_untimed in I by done. unfold book_of in I. rewrite <- spec_run_app, take_drop in I.
  split; [exact I|]. split; [exact R|]. rewrite <- (length_fmap command_frame). apply (wr_count _ _ _ R).
Qed.

Lemma append_cmd_spec w cs c :
  wal_rep crc32 w (command_frame <$> cs) ->
  exists w', append_cmd w c = Some w' /\ wal_rep crc32 w' (command_frame <$> (cs ++ [c])) /\
    record_count w' = record_count w + 1.
Proof.
  intros R. unfold append_cmd, appended. destruct (append_spec crc32 w _ c IoOk R) as (w' & [(-> & R' & _)|(_ & _ & _ & H)]); [|done].
  cbn [mbind option_bind unwrap]. exists w'. split; [done|]. rewrite fmap_app. split; [exact R'|].
  pose proof (wr_count _ _ _ R) as H1. pose proof (wr_count _ _ _ R') as H2.
  rewrite length_app in H2. unfold record_count. simpl in H2. lia.
Qed.

(** The survivor's three commands. *)
Lemma survive_spec seed n js e w cs :
  engine_inv ARENA e (book_of cs) -> wal_rep crc32 w (command_frame <$> cs) ->
  Forall (fun j => 0 <= n + j < stream_max) js ->
  exists e' w', for_each (survive seed n) (e, w) js = Some (e', w') /\
    let cs' := cs ++ ((fun j => nth_command seed (n + j)) <$> js) in
    engine_inv ARENA e' (book_of cs') /\ wal_rep crc32 w' (command_frame <$> cs').
Proof.
  intros I R Hjs. revert e w cs I R. induction Hjs as [|j js Hj _ IH]; intros e w cs I R.
  { exists e, w. split; [done|]. by rewrite app_nil_r. }
  cbn [for_each survive]. destruct (nth_command_spec seed (n + j) Hj) as [-> Hp]. cbn [mbind option_bind].
  destruct (append_cmd_spec w cs (nth_command seed (n + j)) R) as (w1 & -> & R1 & _). cbn [mbind option_bind].
  destruct (apply_spec e cs _ I Hp) as (e1 & -> & I1). cbn [mbind option_bind].
  destruct (IH e1 w1 _ I1 R1) as (e' & w' & -> & I' & R'). exists e', w'. split; [done|].
  rewrite fmap_cons. by rewrite <- !app_assoc in I', R'.
Qed.

(** Any directory that holds a prefix of the stream passes. *)
Lemma check_recovery_passes seed n k d :
  0 <= k <= stream_max -> 0 <= n -> n + 3 <= stream_max -> disk_holds (stream seed k) d ->
  check_recovery d seed n k = None.
Proof.
  intros Hk Hn Hn3 D. pose proof (stream_plain seed k ltac:(lia)) as Hp.
  destruct (recover_disk _ _ Hp D) as (e & w & Hr & I & R & Hc). rewrite length_stream in Hc by lia.
  unfold check_recovery, check_body. rewrite Hr. cbn [mbind option_bind]. rewrite decide_False by (intros []; exact Hc).
  rewrite (state_spec _ _ I). cbn [mbind option_bind].
  destruct (replay_spec seed k ltac:(lia)) as (e0 & -> & I0). cbn [mbind option_bind].
  rewrite (state_spec _ _ I0). cbn [mbind option_bind]. rewrite decide_False by (by intros []).
  destruct (survive_spec seed n (seqZ 0 3) e w _ I R) as (e1 & w1 & Hsv & I1 & R1).
  { apply Forall_forall. intros j Hj%elem_of_seqZ. lia. }
  rewrite Hsv. cbn [mbind option_bind].
  rewrite (state_spec _ _ I1). cbn [mbind option_bind].
  set (cs1 := stream seed k ++ _) in *.
  assert (disk_holds cs1 (mkData (d_snapshots d) (w_file w1))) as D1.
  { split; [by apply wal_holds|]. apply snapshots_app, D. }
  assert (Forall plain cs1) as Hp1.
  { apply Forall_app. split; [done|]. apply Forall_fmap, Forall_forall. intros j Hj%elem_of_seqZ.
    apply nth_command_spec. lia. }
  destruct (recover_disk _ _ Hp1 D1) as (e2 & w2 & -> & I2 & R2 & Hc2). cbn [mbind option_bind].
  rewrite decide_False.
  2:{ intros []. rewrite Hc2. unfold cs1. rewrite length_app, Nat2Z.inj_add, length_stream by lia. done. }
  rewrite (state_spec _ _ I2). cbn [mbind option_bind]. by rewrite decide_False by (by intros []).
Qed.

(** ** The log of the first commands *)

Abbreviation log_of cs := (log_bytes crc32 (command_frame <$> cs)).

Lemma zlen_record c : zlen (frame_bytes crc32 (command_frame c)) = record_size c.
Proof.
  rewrite (zlen_frame crc32) by apply command_frame_ok. unfold command_frame, HEADER_SIZE. cbn [fr_payload].
  by destruct c.
Qed.

(** The end of every record of a log that starts at [pos]. *)
Fixpoint ends_from (pos : Z) (cs : list EngineCommand) : list Z :=
  match cs with [] => [] | c :: cs => (pos + record_size c) :: ends_from (pos + record_size c) cs end.

Lemma log_of_cons c cs : log_of (c :: cs) = frame_bytes crc32 (command_frame c) ++ log_of cs.
Proof. done. Qed.

Lemma log_of_app cs1 cs2 : log_of (cs1 ++ cs2) = log_of cs1 ++ log_of cs2.
Proof. by rewrite fmap_app, log_bytes_app. Qed.

Lemma log_of_bytes cs : bytes_ok (log_of cs).
Proof.
  induction cs as [|c cs IH]; [constructor|]. rewrite log_of_cons. apply Forall_app.
  split; [apply command_frame_bytes_ok|exact IH].
Qed.

Lemma log_of_frames cs : Forall frame_ok (command_frame <$> cs).
Proof. apply Forall_fmap, Forall_true. intros c. apply command_frame_ok. Qed.

Lemma build_records seed js w cs ends pos :
  wal_rep crc32 w (command_frame <$> cs) -> pos = zlen (log_of cs) -> Forall (fun i => 0 <= i < stream_max) js ->
  exists w', let cs' := nth_command seed <$> js in
    for_each (build_record seed) (w, ends, pos) js =
      Some (w', ends ++ ends_from pos cs', zlen (log_of (cs ++ cs'))) /\
    wal_rep crc32 w' (command_frame <$> (cs ++ cs')).
Proof.
  intros R Hpos Hjs. revert w cs ends pos R Hpos. induction Hjs as [|i js Hi _ IH]; intros w cs ends pos R Hpos.
  { exists w. cbn [fmap list_fmap for_each ends_from]. rewrite !app_nil_r. by rewrite Hpos. }
  cbn [for_each build_record]. destruct (nth_command_spec seed i Hi) as [-> Hp]. cbn [mbind option_bind].
  destruct (append_cmd_spec w cs (nth_command seed i) R) as (w1 & -> & R1 & _). cbn [mbind option_bind].
  destruct (IH w1 _ (ends ++ [pos + record_size (nth_command seed i)]) (pos + record_size (nth_command seed i)) R1)
    as (w' & Hf & R').
  { rewrite log_of_app, zlen_app, Hpos, log_of_cons, zlen_app, zlen_record. change (zlen (log_of [])) with 0. lia. }
  exists w'. rewrite <- !app_assoc in Hf. rewrite <- app_assoc in R'. exact (conj Hf R').
Qed.

Lemma build_wal_spec seed n :
  n <= stream_max ->
  exists file, build_wal seed n = Some (file, log_of (stream seed n), ends_from 0 (stream seed n)) /\
    opens_to file (stream seed n).
Proof.
  intros Hn. unfold build_wal. destruct (opened_fresh crc32 crc32_range) as (w0 & -> & R0). cbn [mbind option_bind].
  destruct (build_records seed (seqZ 0 n) w0 [] [] 0 R0 eq_refl) as (w & Hf & R).
  { apply Forall_forall. intros i Hi%elem_of_seqZ. lia. }
  cbn [app] in Hf, R. fold (stream seed n) in Hf, R. rewrite Hf. cbn [mbind option_bind].
  rewrite assert_eq_pass by apply R. cbn [mbind option_bind]. exists (w_file w). split; [|by apply wal_holds].
  destruct (wr_file _ _ _ R) as [z Hz]. do 3 f_equal. rewrite Hz at 1. unfold zlen. rewrite Nat2Z.id.
  by rewrite take_app_length.
Qed.

(** A log followed by something that is no record. *)
Lemma opens_prefix cs rest file :
  bytes_ok file -> file ++ replicate (Z.to_nat (WAL_SIZE - zlen file)) 0 = log_of cs ++ rest -> no_frame crc32 rest ->
  opens_to file cs.
Proof.
  intros Hb E Hno. split; [done|].
  apply (open_finds crc32 crc32_range file WAL_SIZE _ rest); [done|apply wal_size_nonneg|apply log_of_frames|exact E|done].
Qed.

Lemma opens_log cs : opens_to (log_of cs) cs.
Proof. eapply opens_prefix; [apply log_of_bytes|done|apply no_frame_zeros]. Qed.

(** ** Torn records *)

Lemma torn_bytes old new img : torn old new img -> bytes_ok old -> bytes_ok new -> bytes_ok img.
Proof.
  unfold bytes_ok. induction 1 as [|o n b old new img [-> | ->] _ IH]; [done|..]; intros [? ?]%Forall_cons [? ?]%Forall_cons;
    constructor; auto.
Qed.

Lemma torn_length old new img : torn old new img -> length img = length new.
Proof. intros H. by rewrite <- (Forall3_length_lr _ _ _ _ H), <- (Forall3_length_lm _ _ _ _ H). Qed.

Lemma torn_app_inv o1 o2 n1 n2 img :
  torn (o1 ++ o2) (n1 ++ n2) img -> length o1 = length n1 ->
  exists i1 i2, img = i1 ++ i2 /\ torn o1 n1 i1 /\ torn o2 n2 i2.
Proof.
  intros (l1 & l2 & i1 & i2 & E & -> & H1 & H2)%Forall3_app_inv_m Hl. exists i1, i2. split; [done|].
  apply app_inj_1 in E as [-> ->]; [done|]. by rewrite (Forall3_length_lm _ _ _ _ H1).
Qed.

(** Where nothing changes, there is nothing to tear. *)
Lemma torn_same l img : torn l l img -> img = l.
Proof.
  revert img. induction l as [|x l IH]; intros img H; inversion H; [done|]. subst. f_equal; [tauto|auto].
Qed.

Lemma no_frame_length0 rest : no_frame crc32 (replicate 4 0 ++ rest).
Proof.
  intros f rest' [Hl _] E. unfold frame_bytes in E. rewrite <- !app_assoc in E.
  apply app_zlen_inj in E as [E _]; [|by rewrite zlen_to_le].
  apply (f_equal from_le) in E. rewrite from_to_u32 in E by (unfold is_u32; lia). change (from_le (replicate 4 0)) with 0 in E. lia.
Qed.

Lemma checksum_passes_record c cb p rest :
  length cb = 4%nat -> length p = length (command_bytes c) ->
  checksum_passes crc32 (to_le 4 (zlen (command_bytes c)) ++ cb ++ p ++ rest) = true <-> from_le cb = crc32 p.
Proof.
  intros Hcb Hp. pose proof (command_frame_ok c) as [Hlen _]. unfold command_frame in Hlen. cbn [fr_payload] in Hlen.
  unfold checksum_passes. rewrite andb_true_iff, !bool_decide_eq_true.
  rewrite (take_app_length' _ _ 4) by (by rewrite length_to_le). rewrite !(drop_app_length' (to_le _ _) _ 4) by (by rewrite length_to_le).
  rewrite (take_app_length' cb _ 4) by done. change 8%nat with (4 + 4)%nat. rewrite <- drop_drop.
  rewrite (drop_app_length' (to_le _ _) _ 4) by (by rewrite length_to_le). rewrite (drop_app_length' cb _ 4) by done.
  rewrite from_to_u32 by (unfold is_u32; lia). unfold zlen in *. rewrite Nat2Z.id, take_app_length' by done.
  split; [by intros []|]. intros H. split; [lia|done].
Qed.

(** A record whose checksum does not match its payload cannot be read. *)
Lemma mismatch_no_frame c cb p rest :
  length cb = 4%nat -> length p = length (command_bytes c) -> from_le cb ≠ crc32 p ->
  no_frame crc32 (to_le 4 (zlen (command_bytes c)) ++ cb ++ p ++ rest).
Proof.
  intros Hcb Hp Hne. pose proof (no_frame_stored crc32 crc32_range cb p [] (damaged_frame c p Hp) Hcb Hne rest) as H.
  unfold stored in H. rewrite app_nil_r, <- !app_assoc in H. unfold zlen in *. by rewrite Hp in H.
Qed.

(** The record of a command, torn over zeroes: complete, or unreadable, or its
    checksum passes by accident. *)
Lemma torn_record c b :
  torn (replicate (length (frame_bytes crc32 (command_frame c))) 0) (frame_bytes crc32 (command_frame c)) b ->
  b = frame_bytes crc32 (command_frame c) \/ (forall rest, no_frame crc32 (b ++ rest)) \/
  (forall rest, checksum_passes crc32 (b ++ rest) = true).
Proof.
  intros Ht. unfold frame_bytes, command_frame in *. cbn [fr_payload fr_pad] in *. rewrite app_nil_r in *.
  rewrite !length_app, !replicate_add, !length_to_le in Ht.
  apply torn_app_inv in Ht as (lb & b' & -> & Hlb & Ht); [|by rewrite length_replicate, length_to_le].
  apply torn_app_inv in Ht as (cb & p & -> & Hcb & Hp); [|by rewrite length_replicate, length_to_le].
  pose proof (torn_length _ _ _ Hp) as Hl. pose proof (torn_length _ _ _ Hcb) as Hlc. rewrite length_to_le in Hlc.
  assert (lb = to_le 4 (zlen (command_bytes c)) \/ lb = replicate 4 0) as [->| ->].
  { destruct (zlen_command_bytes c) as [E|E]; rewrite E in *;
      (inversion Hlb as [|? ? x ? ? l1 Hx H1]; subst; cbn in Hx;
       apply (torn_same [0; 0; 0]) in H1 as ->; destruct Hx as [-> | ->]; [by right|by left]). }
  - right. destruct (decide (from_le cb = crc32 p)) as [E|E].
    + right. intros rest. rewrite <- !app_assoc. by apply checksum_passes_record.
    + left. intros rest. rewrite <- !app_assoc. by apply mismatch_no_frame.
  - right. left. intros rest. rewrite <- app_assoc. apply no_frame_length0.
Qed.

(** ** The log cut anywhere *)

Lemma stream_take seed n k : 0 <= n -> (k <= length (stream seed n))%nat -> take k (stream seed n) = stream seed (Z.of_nat k).
Proof.
  intros Hn Hk. assert (0 <= Z.of_nat k <= n) as Hkn.
  { unfold stream in Hk. rewrite length_fmap, length_seqZ in Hk. lia. }
  destruct (stream_prefix seed (Z.of_nat k) n Hkn) as [cs E].
  rewrite E. apply take_app_length'. pose proof (length_stream seed (Z.of_nat k)). lia.
Qed.

Lemma zlen_log_max cs : zlen (log_of cs) <= 48 * Z.of_nat (length cs).
Proof.
  induction cs as [|c cs IH]; [done|]. rewrite log_of_cons, zlen_app, zlen_record. cbn [length].
  assert (record_size c <= 48) by (by destruct c). lia.
Qed.

(** The first [p] bytes, and zeroes instead of the others. *)
Definition cut (l : list Z) (p : nat) : list Z := take p l ++ replicate (length l - p) 0.

Lemma torn_cut (l : list Z) p : torn (replicate (length l) 0) l (cut l p).
Proof.
  unfold cut. revert p. induction l as [|x l IH]; intros [|p]; cbn [take length app replicate Nat.sub]; constructor.
  - by left.
  - specialize (IH 0%nat). rewrite take_0, Nat.sub_0_r in IH. exact IH.
  - by right.
  - apply IH.
Qed.

Lemma cut_app f l p : cut (f ++ l) p = cut f p ++ cut l (p - length f).
Proof.
  unfold cut. rewrite take_app, length_app, <- !app_assoc. f_equal. destruct (decide (p <= length f)%nat) as [Hp|Hp].
  - replace (p - length f)%nat with 0%nat by lia. rewrite take_0, Nat.sub_0_r, !app_nil_l, <- replicate_add. f_equal. lia.
  - replace (length f - p)%nat with 0%nat by lia. rewrite app_nil_l. do 2 f_equal. lia.
Qed.

(** The checksum tells a record that is cut short from a complete one. *)
Definition cut_detected (c : EngineCommand) : Prop :=
  let f := frame_bytes crc32 (command_frame c) in
  forall p, cut f p = f \/ checksum_passes crc32 (cut f p) = false.

(** The oracle of the truncation test: it counts the records that are complete,
    and nothing can be read after them. *)
Lemma unchanged_spec cs pre p k0 :
  Forall cut_detected cs ->
  exists k tail, (k <= length cs)%nat /\
    unchanged (pre ++ cut (log_of cs) p) (pre ++ log_of cs) (ends_from (zlen pre) cs) k0 (zlen pre) = Some (k0 + Z.of_nat k) /\
    cut (log_of cs) p = log_of (take k cs) ++ tail /\ forall n, no_frame crc32 (tail ++ replicate n 0).
Proof.
  intros Hcs. revert pre p k0. induction Hcs as [|c cs Hc _ IH]; intros pre p k0.
  { exists 0%nat, []. split_and!; [done|by rewrite Z.add_0_r|by destruct p|intros n; apply no_frame_zeros]. }
  rewrite log_of_cons. set (f := frame_bytes crc32 (command_frame c)). rewrite cut_app.
  pose proof (torn_cut f p) as Hb. set (b := cut f p) in *. set (q := (p - length f)%nat).
  assert (zlen f = record_size c) as Hf by apply zlen_record. cbn [ends_from unchanged].
  replace (zlen pre + record_size c - zlen pre) with (zlen f) by lia.
  assert (zlen b = zlen f) as Hbl by (unfold zlen; by rewrite (torn_length _ _ _ Hb)).
  rewrite !slice_at by done. cbn [mbind option_bind]. case_decide as E.
  - exists 0%nat, (b ++ cut (log_of cs) q). split_and!; [lia|by rewrite Z.add_0_r|done|]. intros n. rewrite <- app_assoc.
    destruct (torn_record c b Hb) as [?|[Hno|Hp]]; [done|apply Hno|]. specialize (Hp []). rewrite app_nil_r in Hp.
    destruct (Hc p) as [?|Hn]; [done|]. fold f b in Hn. congruence.
  - rewrite E. destruct (IH (pre ++ f) q (k0 + 1)) as (k & tail & Hk & Hu & Ecut & Hno).
    exists (S k), tail. rewrite <- !app_assoc in Hu. rewrite zlen_app, Hf in Hu.
    split_and!; [simpl; lia|rewrite Hu; f_equal; lia|cbn [take]; by rewrite Ecut, log_of_cons, <- app_assoc|done].
Qed.

Lemma truncated_case_passes seed n len failures :
  0 <= n < 20000 -> Forall cut_detected (stream seed n) -> 0 <= len ->
  truncated_case seed n (log_of (stream seed n)) (ends_from 0 (stream seed n)) failures len = Some failures.
Proof.
  intros Hn Hd Hlen. set (full := log_of (stream seed n)). set (bytes := take (Z.to_nat len) full).
  destruct (unchanged_spec (stream seed n) [] (Z.to_nat len) 0 Hd) as (k & tail & Hk & Hu & E & Hno).
  assert (bytes ++ replicate (length full - length bytes) 0 = cut full (Z.to_nat len)) as Ecut.
  { unfold cut, bytes. rewrite length_take. f_equal. f_equal. lia. }
  unfold truncated_case. fold bytes. rewrite Ecut. change (zlen []) with 0 in Hu. cbn [app] in Hu. fold full in Hu, E.
  rewrite Hu. cbn [mbind option_bind]. rewrite stream_take in E by (done || lia).
  rewrite Z.add_0_l, check_recovery_passes; [by rewrite app_nil_r|..].
  - pose proof (length_stream seed n). unfold stream_max. lia.
  - lia.
  - unfold stream_max. lia.
  - split; [|apply no_snapshots]. cbn [d_wal].
    pose proof (zlen_log_max (stream seed n)) as Hmax. rewrite length_stream in Hmax by lia. fold full in Hmax.
    assert (length bytes <= length full)%nat as Hlb by (unfold bytes; rewrite length_take; lia).
    apply (opens_prefix _ (tail ++ replicate (Z.to_nat WAL_SIZE - length full) 0)); [apply Forall_take, log_of_bytes| |done].
    rewrite (app_assoc (log_of _)), <- E, <- Ecut, <- app_assoc, <- replicate_add. f_equal. f_equal.
    unfold zlen, WAL_SIZE in *. lia.
Qed.

Lemma for_each_const {S X} (f : S -> X -> option S) (s : S) (xs : list X) :
  (forall x, x ∈ xs -> f s x = Some s) -> for_each f s xs = Some s.
Proof.
  induction xs as [|x xs IH]; intros H; [done|]. cbn [for_each]. rewrite H by left. cbn [mbind option_bind].
  apply IH. intros y Hy. apply H. by right.
Qed.

Lemma truncation_passes seed n :
  0 <= n < 20000 -> Forall cut_detected (stream seed n) ->
  wal_truncated_at_every_byte_offset_recovers_the_longest_valid_prefix seed n = Some tt.
Proof.
  intros Hn Hcrc. unfold wal_truncated_at_every_byte_offset_recovers_the_longest_valid_prefix.
  destruct (build_wal_spec seed n) as (file & -> & _); [unfold stream_max; lia|]. cbn [mbind option_bind].
  rewrite for_each_const; [done|]. intros len Hlen%elem_of_seqZ. apply truncated_case_passes; [done|done|lia].
Qed.

(** ** One byte damaged *)

(** The checksum of the log is CRC-32. *)
Definition crc32_is_ieee : Prop := forall l, bytes_ok l -> crc32 l = crc32_ieee l.

(** A byte of the stored checksum or of the payload: always detected. *)
Lemma damaged_record c i x rest :
  crc32_is_ieee -> let f := frame_bytes crc32 (command_frame c) in
  (4 <= i < length f)%nat -> is_u8 x -> f !! i ≠ Some x -> no_frame crc32 (<[i:=x]> f ++ rest).
Proof.
  intros Hcrc f Hi Hx Hne. pose proof (command_frame_bytes_ok crc32 c) as Hb. fold f in Hb.
  unfold f, frame_bytes, command_frame in *. cbn [fr_payload fr_pad] in *. rewrite app_nil_r in *. clear f.
  set (p := command_bytes c) in *. set (cb := to_le 4 (crc32 p)) in *.
  unfold bytes_ok in Hb. rewrite !Forall_app in Hb. destruct Hb as (_ & Hcb & Hp).
  assert (length cb = 4%nat) as Hlc by apply length_to_le. rewrite !length_app, length_to_le, Hlc in Hi.
  rewrite insert_app_r_alt by (rewrite length_to_le; lia). rewrite lookup_app_r in Hne by (rewrite length_to_le; lia).
  rewrite length_to_le in *. destruct (decide (i - 4 < 4)%nat) as [Hlt|Hge].
  - rewrite insert_app_l, <- !app_assoc by lia. rewrite lookup_app_l in Hne by lia.
    apply mismatch_no_frame; [by rewrite length_insert|done|].
    intros E. apply Hne. apply (f_equal (to_le 4)) in E. fold cb in E.
    replace 4%nat with (length (<[i - 4:=x]> cb))%nat in E at 1 by (by rewrite length_insert).
    rewrite to_from_le in E by (by apply Forall_insert). rewrite <- E. apply list_lookup_insert_eq. lia.
  - rewrite insert_app_r_alt by lia. rewrite lookup_app_r in Hne by lia. rewrite Hlc in *.
    set (j := (i - 4 - 4)%nat) in *. assert (j < length p)%nat as Hj by lia.
    rewrite <- !app_assoc. apply mismatch_no_frame; [done|by rewrite length_insert|].
    unfold cb. rewrite from_to_u32 by apply crc32_range.
    destruct (lookup_lt_is_Some_2 p j Hj) as [y Hy]. rewrite insert_take_drop by done.
    rewrite <- (take_drop_middle p j y Hy) at 1.
    assert (is_u8 y) as Hy8 by (by eapply Forall_lookup_1).
    assert (bytes_ok (take j p) /\ bytes_ok (drop (S j) p)) as [Ht Hd] by (split; [by apply Forall_take|by apply Forall_drop]).
    rewrite !Hcrc by (apply Forall_app; split; [done|by constructor]).
    apply one_byte_detected; [done..|]. intros ->. by apply Hne.
Qed.

(** A byte of the length: [t] is the log from the damaged record on.  The length
    it announces is zero or more than the file holds, or its checksum differs. *)
Definition length_rejected (t : list Z) : bool :=
  let len := from_le (take 4 t) in
  let body := drop 8 t in
  if decide (len = 0 \/ WAL_SIZE < len) then true
  else
    let payload := if decide (zlen body <= len) then body else take (Z.to_nat len) body in
    if decide (len - zlen payload < 2 ^ 17)
    then negb (bool_decide (from_le (take 4 (drop 4 t)) = crc_padded payload (len - zlen payload)))
    else false.

Lemma length_rejected_sound t m :
  crc32_is_ieee -> bytes_ok t -> (8 <= length t)%nat -> Z.of_nat (length t + m) <= WAL_SIZE ->
  length_rejected t = true -> no_frame crc32 (t ++ replicate m 0).
Proof.
  intros Hcrc Hb Hl Hm H f rest [Hf _] E. set (q := fr_payload f) in *.
  pose proof (f_equal length E) as Elen. unfold frame_bytes in E, Elen. fold q in E, Elen.
  rewrite !length_app, length_replicate, !length_to_le in Elen. rewrite <- !app_assoc in E.
  assert (to_le 4 (zlen q) = take 4 t /\ to_le 4 (crc32 q) = take 4 (drop 4 t) /\
    drop 8 t ++ replicate m 0 = q ++ fr_pad f ++ rest) as (E1 & E2 & E3).
  { rewrite <- (take_drop 4 t), <- !app_assoc in E. apply app_inj_1 in E as [<- E]; [|rewrite length_take, length_to_le; lia].
    rewrite <- (take_drop 4 (drop 4 t)), <- !app_assoc in E.
    apply app_inj_1 in E as [<- E]; [|rewrite length_take, length_drop, length_to_le; lia].
    rewrite drop_drop in E. by split_and!. }
  unfold length_rejected in H. rewrite <- E1, <- E2, !from_to_u32 in H by (apply crc32_range || (unfold is_u32; lia)).
  assert (0 < zlen q <= WAL_SIZE) as Hq by (split; [lia|]; unfold zlen; lia).
  rewrite decide_False in H by lia.
  set (payload := if decide (zlen (drop 8 t) <= zlen q) then _ else _) in H. case_decide as Hn; [|done].
  apply negb_true_iff, bool_decide_eq_false_1 in H. apply H.
  assert (bytes_ok (drop 8 t)) as Hbd by (by apply Forall_drop).
  assert (q = payload ++ replicate (Z.to_nat (zlen q - zlen payload)) 0 /\ zlen payload <= zlen q /\ bytes_ok payload)
    as (Eq & Hle & Hp).
  { assert (q = take (length q) (drop 8 t ++ replicate m 0)) as Eq by (rewrite E3; by rewrite take_app_length).
    unfold payload, zlen in *. case_decide as Hd.
    - split; [|by split]. rewrite Eq at 1. rewrite take_app_ge, take_replicate by lia. f_equal. f_equal.
      apply (f_equal length) in E3. rewrite !length_app, length_replicate in E3. lia.
    - rewrite Eq at 1. rewrite Nat2Z.id, take_app_le by lia. rewrite length_take.
      split; [|split; [lia|by apply Forall_take]]. replace (Z.to_nat _) with 0%nat by lia. by rewrite app_nil_r. }
  rewrite <- crc_padded_spec by (done || lia). rewrite <- Eq. apply Hcrc.
  rewrite Eq. apply Forall_app. split; [done|apply bytes_ok_zeros].
Qed.

(** All damages of the lengths of the records of [cs]. *)
Definition lengths_rejected (cs : list EngineCommand) : bool :=
  forallb (fun k => forallb (fun j => forallb (fun mutate =>
      match mutated (log_bytes crc32_ieee (command_frame <$> drop k cs)) j mutate with
      | Some (Some t) => length_rejected t
      | _ => true
      end) mutations) (seqZ 0 4)) (seq 0 (length cs)).

Lemma mutate_byte mutate b : mutate ∈ mutations -> is_u8 b -> is_u8 (mutate b).
Proof.
  intros Hm Hb. assert (Forall (fun b => is_u8 (mutate b)) (seqZ 0 256)) as H.
  { unfold mutations in Hm. set_unfold in Hm. destruct Hm as [->|[->|[->|[]]]]; apply (bool_decide_unpack _); vm_compute; exact I. }
  rewrite Forall_forall in H. apply H, elem_of_seqZ. unfold is_u8 in Hb. lia.
Qed.

Lemma mutated_inv bytes offset mutate r :
  mutated bytes offset mutate = Some (Some r) ->
  exists b, vget bytes offset = Some b /\ mutate b ≠ b /\ r = vset bytes offset (mutate b).
Proof.
  unfold mutated. destruct (vget bytes offset) as [b|]; cbn [mbind option_bind]; [|done]. case_decide; [done|].
  intros [= <-]. by exists b.
Qed.

Lemma ends_above cs pos x : x ∈ ends_from pos cs -> pos < x.
Proof.
  revert pos. induction cs as [|c cs IH]; intros pos Hx; [by apply elem_of_nil in Hx|].
  assert (0 < record_size c) by (by destruct c). cbn [ends_from] in Hx.
  apply elem_of_cons in Hx as [->|Hx%IH]; lia.
Qed.

(** The damaged byte lies in the record after the complete ones. *)
Lemma complete_spec cs pos offset :
  pos <= offset < pos + zlen (log_of cs) ->
  exists k, (k < length cs)%nat /\ complete (ends_from pos cs) offset = Z.of_nat k /\
    pos + zlen (log_of (take k cs)) <= offset < pos + zlen (log_of (take (S k) cs)).
Proof.
  revert pos. induction cs as [|c cs IH]; intros pos H.
  { change (zlen (log_of [])) with 0 in H. lia. }
  assert (0 < record_size c) as Hc by (by destruct c).
  rewrite log_of_cons, zlen_app, zlen_record in H. unfold complete. cbn [ends_from].
  rewrite filter_cons. case_decide as Hd.
  - destruct (IH (pos + record_size c) ltac:(lia)) as (k & Hk & Hc' & Hb). exists (S k).
    unfold complete in Hc'. split; [simpl; lia|]. split; [unfold zlen in *; cbn [length]; lia|].
    cbn [take]. rewrite !log_of_cons, !zlen_app, zlen_record. cbn [take] in Hb. lia.
  - exists 0%nat. rewrite list_filter_none.
    2:{ intros x Hx%ends_above. lia. }
    split; [simpl; lia|]. split; [done|]. cbn [take]. rewrite log_of_cons, zlen_app, zlen_record.
    change (zlen (log_of [])) with 0. split; [lia|]. rewrite take_0. change (zlen (log_of [])) with 0. lia.
Qed.

Lemma ieee_frame c :
  crc32_is_ieee -> frame_bytes crc32 (command_frame c) = frame_bytes crc32_ieee (command_frame c).
Proof.
  intros Hcrc. unfold frame_bytes, command_frame. cbn [fr_payload fr_pad].
  pose proof (command_frame_bytes_ok crc32 c) as Hb. unfold frame_bytes, command_frame, bytes_ok in Hb.
  cbn [fr_payload fr_pad] in Hb. rewrite !Forall_app in Hb. by rewrite Hcrc by apply Hb.
Qed.

Lemma ieee_log cs : crc32_is_ieee -> log_of cs = log_bytes crc32_ieee (command_frame <$> cs).
Proof.
  intros Hcrc. unfold log_bytes. f_equal. rewrite <- !list_fmap_compose. apply list_fmap_ext. intros i c _.
  by apply ieee_frame.
Qed.

(** No record can be read where the damaged one was. *)
Lemma damaged_tail cs k c i mutate b t m :
  crc32_is_ieee -> lengths_rejected cs = true -> cs !! k = Some c -> mutate ∈ mutations ->
  (i < length (frame_bytes crc32 (command_frame c)))%nat -> log_of (drop k cs) !! i = Some b -> mutate b ≠ b ->
  t = <[i:=mutate b]> (log_of (drop k cs)) -> Z.of_nat (length t + m) <= WAL_SIZE ->
  no_frame crc32 (t ++ replicate m 0).
Proof.
  intros Hcrc Hlen Hk Hm Hi Hb Hne Et Ht. pose proof (lookup_lt_Some _ _ _ Hk) as Hkl.
  assert (is_u8 (mutate b)) as Hx.
  { apply mutate_byte; [done|]. by eapply Forall_lookup_1; [apply log_of_bytes|exact Hb]. }
  destruct (decide (i < 4)%nat) as [Hi4|Hi4].
  - apply length_rejected_sound; [done|rewrite Et; apply Forall_insert; [apply log_of_bytes|done]| |done|].
    + rewrite Et, length_insert, (drop_S _ _ _ Hk), log_of_cons, length_app. unfold frame_bytes. rewrite !length_app, !length_to_le. lia.
    + unfold lengths_rejected in Hlen. rewrite forallb_forall in Hlen.
      specialize (Hlen k ltac:(apply list_elem_of_In, elem_of_seq; lia)). rewrite forallb_forall in Hlen.
      specialize (Hlen (Z.of_nat i) ltac:(apply list_elem_of_In, elem_of_seqZ; lia)). rewrite forallb_forall in Hlen.
      specialize (Hlen mutate ltac:(by apply list_elem_of_In)). rewrite <- ieee_log in Hlen by done.
      unfold mutated, vget, vset in Hlen. rewrite !decide_True in Hlen by lia. rewrite Nat2Z.id, Hb in Hlen.
      cbn [mbind option_bind] in Hlen. rewrite decide_False, decide_True, <- Et in Hlen by (done || lia). exact Hlen.
  - rewrite (drop_S _ _ _ Hk), log_of_cons in *. rewrite lookup_app_l in Hb by done.
    rewrite Et, insert_app_l, <- app_assoc by done. apply damaged_record; [done|lia|done|]. rewrite Hb. intros [= E]. by apply Hne.
Qed.

Lemma corrupted_case_passes seed n offset failures mutate :
  0 <= n < 20000 -> crc32_is_ieee -> lengths_rejected (stream seed n) = true ->
  0 <= offset < zlen (log_of (stream seed n)) -> mutate ∈ mutations ->
  corrupted_case seed n (log_of (stream seed n)) (ends_from 0 (stream seed n)) offset failures mutate = Some failures.
Proof.
  intros Hn Hcrc Hlen Hoff Hm. unfold corrupted_case. set (full := log_of (stream seed n)) in *.
  pose proof (zlen_log_max (stream seed n)) as Hmax. rewrite length_stream in Hmax by lia. fold full in Hmax.
  destruct (mutated full offset mutate) as [[bytes|]|] eqn:E; cbn [mbind option_bind]; [|done|].
  2:{ unfold mutated in E. destruct (vget_lt_is_Some full offset Hoff) as [b Hb]. rewrite Hb in E. simpl in E. by case_decide. }
  destruct (complete_spec (stream seed n) 0 offset Hoff) as (k & Hk & -> & Hkb).
  pose proof (length_stream seed n ltac:(lia)) as Hls.
  rewrite check_recovery_passes; [by rewrite app_nil_r|unfold stream_max; lia..|].
  split; [|apply no_snapshots]. cbn [d_wal]. rewrite <- (stream_take seed n) by lia.
  destruct (mutated_inv _ _ _ _ E) as (b & Hb & Hne & Er). unfold vget in Hb. rewrite decide_True in Hb by lia.
  unfold vset in Er. rewrite decide_True in Er by lia. set (cs := stream seed n) in *.
  assert (full = log_of (take k cs) ++ log_of (drop k cs)) as Hfull by (rewrite <- log_of_app; by rewrite take_drop).
  set (pre := log_of (take k cs)) in *. unfold zlen in Hkb, Hmax. set (i := (Z.to_nat offset - length pre)%nat).
  destruct (lookup_lt_is_Some_2 cs k Hk) as [c Hc]. rewrite (take_S_r _ _ _ Hc), log_of_app, log_of_cons, app_nil_r, length_app in Hkb.
  fold pre in Hkb. rewrite Hfull, lookup_app_r in Hb by lia.
  assert (bytes = pre ++ <[i:=mutate b]> (log_of (drop k cs))) as Ebytes by (rewrite Er, Hfull, insert_app_r_alt by lia; done).
  assert (length bytes = length full) as Hlb by (rewrite Er; apply length_insert).
  apply (opens_prefix _ (<[i:=mutate b]> (log_of (drop k cs)) ++ replicate (Z.to_nat (WAL_SIZE - zlen bytes)) 0)).
  - rewrite Er. apply Forall_insert; [apply log_of_bytes|]. apply mutate_byte; [done|].
    by eapply Forall_lookup_1; [apply log_of_bytes|exact Hb].
  - rewrite Ebytes at 1. by rewrite <- app_assoc.
  - apply (damaged_tail cs k c i mutate b); [done..|lia|exact Hb|done|done|].
    rewrite length_insert. unfold zlen, WAL_SIZE. rewrite Hlb, Hfull, length_app in *. lia.
Qed.

Lemma corruption_passes seed n :
  0 <= n < 20000 -> crc32_is_ieee -> lengths_rejected (stream seed n) = true ->
  wal_corrupted_at_every_byte_offset_recovers_the_prefix_before_the_damage seed n = Some tt.
Proof.
  intros Hn Hcrc Hlen. unfold wal_corrupted_at_every_byte_offset_recovers_the_prefix_before_the_damage.
  destruct (build_wal_spec seed n) as (file & -> & _); [unfold stream_max; lia|]. cbn [mbind option_bind].
  rewrite for_each_const; [done|]. intros offset Ho%elem_of_seqZ. apply for_each_const. intros mutate Hm.
  apply corrupted_case_passes; [done|done|done|lia|done].
Qed.

(** ** One byte of a snapshot damaged *)

(** A damaged snapshot that still passes its checksum is the intact one. *)
Definition snapshot_damage_detected (snap : Snapshot) : Prop :=
  forall offset mutate bytes s, mutate ∈ mutations -> mutated (serialize snap) offset mutate = Some (Some bytes) ->
    deserialize bytes = Some s -> verify_checksum s = Ok tt -> s = snap.

Lemma single_file name (bytes : list Z) :
  is_snapshot_name name = true -> snapshot_files {[name := bytes]} = [name].
Proof.
  intros Hn. unfold snapshot_files. rewrite map_to_list_singleton. cbn [fmap list_fmap fst].
  by rewrite filter_cons_True.
Qed.

(** The snapshot taken after [k] commands, or what is left of it. *)
Lemma damaged_snapshots cs k snap bytes :
  (k <= length cs)%nat -> sn_orders snap = sp_all (book_of (take k cs)) -> sn_wal_record_count snap = Z.of_nat k ->
  (forall s, deserialize bytes = Some s -> verify_checksum s = Ok tt -> s = snap) ->
  snapshots_of cs (Some {[snapshot_filename (Z.of_nat k) := bytes]}).
Proof.
  intros Hk Ho Hc Hd. set (name := snapshot_filename (Z.of_nat k)). split.
  - intros x _ [y Hy]. cbn in Hy. apply lookup_singleton_Some in Hy as [<- _].
    exists (Z.of_nat k). split; [lia|done].
  - unfold load_latest. rewrite single_file by apply snapshot_name_ok. cbn [reverse rev_append load_loop].
    unfold load_from_file. rewrite lookup_singleton_eq. destruct (deserialize bytes) as [s|] eqn:Es; cbn [ok_or].
    + destruct (verify_checksum s) as [[]|] eqn:Ev; cbn [is_ok].
      * destruct (Hd s eq_refl Ev). exists (Some s), k. done.
      * exists None, 0%nat. split_and!; [done|lia|done].
    + exists None, 0%nat. split_and!; [done|lia|done].
Qed.

Lemma check_snapshot_passes d n truth seed :
  0 <= n <= stream_max -> truth = book_state (book_of (stream seed n)) -> disk_holds (stream seed n) d ->
  check_snapshot d n truth = Some None.
Proof.
  intros Hn -> D. destruct (recover_disk _ _ (stream_plain seed n ltac:(lia)) D) as (e & w & Hr & I & _ & Hc).
  rewrite length_stream in Hc by lia. unfold check_snapshot. rewrite Hr. cbn [mbind option_bind].
  rewrite decide_False by (intros []; exact Hc). rewrite (state_spec _ _ I). cbn [mbind option_bind].
  by rewrite decide_False by (by intros []).
Qed.

Lemma saved_snapshot e sp n dir :
  engine_inv ARENA e sp -> 0 <= n < 10 ^ 10 ->
  (forall name, is_snapshot_name name = true -> is_Some (dir !! name) ->
     exists m, 0 <= m <= n /\ name = snapshot_filename m) ->
  exists snap, capture e n = Some snap /\ sn_orders snap = sp_all sp /\ sn_wal_record_count snap = n /\
    load_latest (Some (save snap dir)) true = Ok (Some snap).
Proof.
  intros I Hn Hdir. destruct (capture_spec ARENA e sp n I) as (snap & Hc & Hcnt & Hso & _ & _ & Hv & Ht); [unfold is_u64; lia|].
  exists snap. split_and!; [done|done|done|]. apply save_load; [done|done|by rewrite Hcnt|by rewrite Hcnt].
Qed.

Lemma snapshots_saved cs e dir :
  engine_inv ARENA e (book_of cs) -> Z.of_nat (length cs) < 10 ^ 10 -> snapshots_of cs dir ->
  exists snap, capture e (Z.of_nat (length cs)) = Some snap /\ sn_orders snap = sp_all (book_of cs) /\
    sn_wal_record_count snap = Z.of_nat (length cs) /\ snapshots_of cs (Some (save snap (default ∅ dir))).
Proof.
  intros I Hlen [Hn _]. destruct (saved_snapshot e _ (Z.of_nat (length cs)) (default ∅ dir) I ltac:(lia) Hn)
    as (snap & Hc & Ho & Hcnt & Hl).
  exists snap. split_and!; [done|done|done|]. split.
  - intros name H1 H2. cbn [default from_option id] in H2.
    destruct (decide (name = snapshot_filename (sn_wal_record_count snap))) as [->|Hne].
    + rewrite Hcnt. exists (Z.of_nat (length cs)). split; [lia|done].
    + rewrite save_lookup_other in H2 by done. by apply Hn.
  - exists (Some snap), (length cs). rewrite firstn_all. split_and!; [exact Hl|done|done|done].
Qed.

Lemma snapshot_passes seed n k :
  0 <= k <= n -> n < 20000 ->
  (forall e snap, replay seed k = Some e -> capture e k = Some snap -> snapshot_damage_detected snap) ->
  snapshot_corrupted_at_every_byte_offset_never_yields_a_divergent_state seed n k = Some tt.
Proof.
  intros Hk Hn Hcrc. assert (n <= stream_max) as Hmax by (unfold stream_max; lia).
  unfold snapshot_corrupted_at_every_byte_offset_never_yields_a_divergent_state.
  destruct (build_wal_spec seed n Hmax) as (file & -> & Hfile). cbn [mbind option_bind].
  destruct (replay_spec seed k ltac:(lia)) as (ek & Hek & Ik). rewrite Hek. cbn [mbind option_bind].
  destruct (saved_snapshot ek _ k ∅ Ik ltac:(lia)) as (snap & Hcap & Hso & Hcnt & Hl).
  { intros name _ [x Hx]. by rewrite lookup_empty in Hx. }
  specialize (Hcrc ek snap Hek Hcap). rewrite Hcap. cbn [mbind option_bind].
  rewrite save_lookup. cbn [mbind option_bind].
  destruct (replay_spec seed n Hmax) as (en & -> & In). cbn [mbind option_bind].
  rewrite (state_spec _ _ In). cbn [mbind option_bind].
  assert (take (Z.to_nat k) (stream seed n) = stream seed k) as Hpre.
  { rewrite stream_take; [f_equal; lia|lia|]. pose proof (length_stream seed n). lia. }
  assert (disk_holds (stream seed n) (mkData (Some (save snap ∅)) file)) as D.
  { split; [done|]. split.
    - intros name H1 H2. cbn [default from_option id d_snapshots] in H2.
      destruct (decide (name = snapshot_filename (sn_wal_record_count snap))) as [->|Hne].
      + rewrite Hcnt. exists k. rewrite length_stream by lia. split; [lia|done].
      + rewrite save_lookup_other, lookup_empty in H2 by done. by destruct H2.
    - exists (Some snap), (Z.to_nat k). split; [exact Hl|]. rewrite Hpre, Hcnt.
      pose proof (length_stream seed n). split_and!; [lia|done|lia]. }
  destruct (recover_disk _ _ (stream_plain seed n Hmax) D) as (e & w & -> & I & _ & Hc). cbn [mbind option_bind unwrap].
  rewrite length_stream in Hc by lia. rewrite assert_eq_pass by exact Hc. cbn [mbind option_bind].
  rewrite (state_spec _ _ I). cbn [mbind option_bind]. rewrite assert_eq_pass by done. cbn [mbind option_bind].
  rewrite for_each_const; [done|]. intros offset Ho%elem_of_seqZ. apply for_each_const. intros mutate Hm.
  unfold snapshot_case. destruct (mutated (serialize snap) offset mutate) as [[bytes|]|] eqn:E; cbn [mbind option_bind]; [|done|].
  2:{ unfold mutated in E. destruct (vget_lt_is_Some (serialize snap) offset) as [b Hb]; [unfold zlen in Ho; lia|].
      rewrite Hb in E. simpl in E. by case_decide. }
  rewrite (check_snapshot_passes _ n _ seed); [by rewrite app_nil_r|lia|done|]. split.
  - apply opens_log.
  - cbn [d_snapshots]. rewrite Hcnt. rewrite <- (Z2Nat.id k) by lia.
    apply (damaged_snapshots _ _ snap); [pose proof (length_stream seed n); lia|by rewrite Hpre|lia|].
    intros s Hs Hv. by apply (Hcrc offset mutate bytes s).
Qed.

(** ** The killed writer *)

(** The writer at the head of its loop after [cs0] and the commands up to [ch_i]. *)
Record writes (seed last : Z) (ch : Child) : Prop := {
  wt_from : 0 <= last <= ch_i ch;
  wt_engine : engine_inv ARENA (ch_engine ch) (book_of (stream seed (ch_i ch)));
  wt_wal : wal_rep crc32 (ch_wal ch) (command_frame <$> stream seed (ch_i ch));
  wt_snapshots : snapshots_of (stream seed (ch_i ch)) (ch_snapshots ch);
  wt_resumed : resumed (ch_out ch) = Some last;
  wt_acked : last_ack (ch_out ch) = if decide (ch_i ch = last) then None else Some (ch_i ch)
}.

Lemma child_start_spec seed d last :
  0 <= last <= stream_max -> disk_holds (stream seed last) d ->
  exists ch, child_start d = Some ch /\ writes seed last ch /\ ch_i ch = last.
Proof.
  intros Hl D. destruct (recover_disk _ _ (stream_plain seed last ltac:(lia)) D) as (e & w & Hr & I & R & Hc).
  rewrite length_stream in Hc by lia. unfold child_start. rewrite Hr. cbn [mbind option_bind unwrap]. rewrite Hc.
  eexists. split; [done|]. split; [|done]. split; cbn [ch_i ch_engine ch_wal ch_snapshots ch_out]; try done; [lia|apply D|].
  by rewrite decide_True.
Qed.

Lemma resumed_snoc out i : resumed (out ++ [Acked i]) = resumed out.
Proof. unfold resumed. rewrite omap_app. by rewrite app_nil_r. Qed.

Lemma last_ack_snoc out i : last_ack (out ++ [Acked i]) = Some i.
Proof. unfold last_ack. rewrite omap_app. cbn. by rewrite last_snoc. Qed.

Lemma child_command_spec seed last ch :
  writes seed last ch -> ch_i ch < stream_max ->
  exists ch', child_command seed ch = Some ch' /\ writes seed last ch' /\ ch_i ch' = ch_i ch + 1 /\
    ch_snapshots ch' = ch_snapshots ch.
Proof.
  intros [Hf I R S Hr Ha] Hi. destruct (nth_command_spec seed (ch_i ch) ltac:(lia)) as [Hc Hp].
  destruct (append_cmd_spec (ch_wal ch) _ (nth_command seed (ch_i ch)) R) as (w & Hw & R' & _).
  destruct (apply_spec _ _ _ I Hp) as (e & He & I').
  rewrite <- stream_succ in R', I' by lia.
  unfold child_command. rewrite Hc. cbn [mbind option_bind]. rewrite Hw. cbn [mbind option_bind].
  rewrite He. cbn [mbind option_bind]. eexists. split; [done|]. split; [|done].
  split; cbn [ch_i ch_engine ch_wal ch_snapshots ch_out]; [lia|done|done| | |].
  - rewrite stream_succ by lia. by apply snapshots_app.
  - by rewrite resumed_snoc.
  - rewrite last_ack_snoc, decide_False by lia. done.
Qed.

Lemma child_saves seed last ch :
  writes seed last ch -> ch_i ch < 10 ^ 10 ->
  exists snap, capture (ch_engine ch) (ch_i ch) = Some snap /\ sn_wal_record_count snap = ch_i ch /\
    snapshots_of (stream seed (ch_i ch)) (Some (save snap (default ∅ (ch_snapshots ch)))).
Proof.
  intros [Hf I R S Hr Ha] Hi. pose proof (length_stream seed (ch_i ch) ltac:(lia)) as Hlen.
  destruct (snapshots_saved _ _ _ I ltac:(lia) S) as (snap & Hc & _ & Hcnt & Hs). rewrite Hlen in Hc, Hcnt.
  by exists snap.
Qed.

Lemma child_iteration_spec seed last ch :
  writes seed last ch -> ch_i ch + 1 < 10 ^ 10 ->
  exists ch', child_iteration seed ch = Some ch' /\ writes seed last ch' /\ ch_i ch' = ch_i ch + 1.
Proof.
  intros W Hi. destruct (child_command_spec seed last ch W) as (ch1 & H1 & W1 & Hi1 & _); [unfold stream_max; lia|].
  unfold child_iteration, child_snapshot. rewrite H1. cbn [mbind option_bind]. case_decide.
  - destruct (child_saves seed last ch1 W1 ltac:(lia)) as (snap & -> & _ & S). cbn [mbind option_bind].
    eexists. split; [done|]. split; [|done]. destruct W1. by split.
  - by exists ch1.
Qed.

Lemma child_runs_writes seed d last ch :
  0 <= last <= stream_max -> disk_holds (stream seed last) d -> child_runs seed d ch -> ch_i ch < 10 ^ 10 ->
  writes seed last ch.
Proof.
  intros Hl D Hrun. induction Hrun as [ch Hs|ch ch' Hrun IH Hit]; intros Hi.
  - destruct (child_start_spec seed d last Hl D) as (ch1 & H1 & W & _). congruence.
  - assert (ch_i ch' = ch_i ch + 1) as Hi'.
    { unfold child_iteration, child_command, child_snapshot in Hit.
      destruct (command _ _); [|done]. cbn [mbind option_bind] in Hit. destruct (append_cmd _ _); [|done]. cbn [mbind option_bind] in Hit.
      destruct (CrashModel.apply _ _); [|done]. cbn [mbind option_bind] in Hit.
      case_decide; [|by simplify_eq]. destruct (capture _ _); [|done]. cbn [mbind option_bind] in Hit. by simplify_eq. }
    destruct (child_iteration_spec seed last ch (IH ltac:(lia)) ltac:(lia)) as (ch1 & H1 & W & _). congruence.
Qed.

(** What a torn append leaves: the log before it or after it, or a torn record
    whose checksum passes by accident. *)
Lemma torn_append w w' cs c img :
  wal_rep crc32 w (command_frame <$> cs) -> wal_rep crc32 w' (command_frame <$> (cs ++ [c])) ->
  torn (set_len (w_file w) (zlen (w_file w'))) (w_file w') img ->
  opens_to img cs \/ opens_to img (cs ++ [c]) \/
  (img ≠ w_file w' /\ checksum_passes crc32 (drop (Z.to_nat (write_pos w)) img) = true).
Proof.
  intros R R' Ht. destruct (wr_file _ _ _ R) as [n Hn], (wr_file _ _ _ R') as [n' Hn'].
  set (f := frame_bytes crc32 (command_frame c)).
  assert (log_of (cs ++ [c]) = log_of cs ++ f) as Hlog by (rewrite log_of_app, log_of_cons; by rewrite app_nil_r).
  rewrite Hlog, <- app_assoc in Hn'.
  assert (set_len (w_file w) (zlen (w_file w')) = log_of cs ++ replicate (length f) 0 ++ replicate n' 0) as Hold.
  { rewrite <- replicate_add. rewrite Hn'. unfold set_len. rewrite Hn, !zlen_app, !zlen_replicate. unfold zlen.
    rewrite take_app_ge by lia. rewrite take_replicate, <- app_assoc, <- replicate_add. f_equal. f_equal. lia. }
  assert (bytes_ok img) as Hb.
  { apply (torn_bytes _ _ _ Ht).
    - rewrite Hold. apply Forall_app. split; [apply log_of_bytes|]. apply Forall_app. split; apply bytes_ok_zeros.
    - by destruct (wal_holds _ _ R'). }
  rewrite Hold in Ht. rewrite Hn' in Ht. apply torn_app_inv in Ht as (l & i2 & -> & Hl & Ht); [|done].
  apply torn_app_inv in Ht as (b & z & -> & Hbt & Hz); [|by rewrite length_replicate].
  apply torn_same in Hl as ->. apply torn_same in Hz as ->.
  destruct (decide (b = f)) as [->|Hbf].
  { right. left. apply (opens_prefix _ (replicate (n' + Z.to_nat (WAL_SIZE - zlen (log_of cs ++ f ++ replicate n' 0))) 0));
      [done| |apply no_frame_zeros]. rewrite Hlog, <- !app_assoc, replicate_add. done. }
  destruct (torn_record c b Hbt) as [?|[Hno|Hacc]]; [done| |].
  - left. eapply opens_prefix; [done|by rewrite <- !app_assoc|apply Hno].
  - right. right. rewrite Hn'. split; [by intros Heq%app_inv_head%app_inv_tail|].
    assert (write_pos w = zlen (log_of cs)) as -> by apply R.
    unfold zlen. rewrite Nat2Z.id, drop_app_length. apply Hacc.
Qed.

Lemma snapshots_unsaved cs dir :
  snapshots_of cs dir ->
  snapshots_of cs (Some (default ∅ dir)) /\
  forall snap bytes, snapshots_of cs (Some (save_write snap bytes (default ∅ dir))).
Proof.
  intros [Hn (latest & n & Hl & Hrest)].
  assert (load_latest (Some (default ∅ dir)) true = Ok latest) as Hl'.
  { destruct dir; [done|]. rewrite <- Hl. unfold load_latest, snapshot_files. cbn. by rewrite map_to_list_empty. }
  split; [|intros snap bytes]; (split; [|exists latest, n; rewrite ?load_after_write; by split]).
  - exact Hn.
  - intros name H1 H2. apply Hn; [done|]. cbn [default from_option id] in H2. unfold save_write in H2.
    rewrite lookup_insert_ne in H2; [done|]. intros <-. by rewrite tmp_name_ignored in H1.
Qed.

Lemma killed_holds seed last ch text d :
  writes seed last ch -> ch_i ch < 10 ^ 10 -> killed seed ch text d -> ~ accidental seed ch d ->
  exists count, last <= count <= ch_i ch + 1 /\ disk_holds (stream seed count) d /\ resumed text = Some last /\
    forall ack, last_ack text = Some ack -> 0 < ack /\ ack <= count <= ack + 1.
Proof.
  intros W Hi K Hacc. pose proof (wt_from _ _ _ W) as Hf.
  assert (forall ack, last_ack (ch_out ch) = Some ack -> ack = ch_i ch /\ 0 < ack) as Hack.
  { intros ack. rewrite (wt_acked _ _ _ W). case_decide; [done|]. intros [= <-]. lia. }
  assert (forall ch', child_command seed ch = Some ch' -> writes seed last ch' /\ ch_i ch' = ch_i ch + 1 /\
            forall ack, last_ack (ch_out ch') = Some ack -> ack = ch_i ch + 1) as Hcmd.
  { intros ch' Hc. destruct (child_command_spec seed last ch W) as (ch1 & H1 & W1 & Hi1 & _); [unfold stream_max; lia|].
    assert (ch1 = ch') as -> by congruence. split; [done|]. split; [done|]. intros ack. rewrite (wt_acked _ _ _ W1), decide_False by lia.
    congruence. }
  destruct K as [|cmd wal img Hc Hw Ht|ch' Hc|ch' Hc _|ch' snap bytes Hc _ _].
  - exists (ch_i ch). split; [lia|]. split; [split; [apply wal_holds|]; apply W|]. split; [apply W|].
    intros ack [-> ?]%Hack. lia.
  - destruct (nth_command_spec seed (ch_i ch)) as [Hc' _]; [unfold stream_max; lia|].
    rewrite Hc in Hc'. injection Hc' as ->.
    destruct (append_cmd_spec (ch_wal ch) _ (nth_command seed (ch_i ch)) (wt_wal _ _ _ W)) as (w & Hw' & R' & _).
    rewrite Hw in Hw'. injection Hw' as <-.
    destruct (torn_append _ _ _ _ _ (wt_wal _ _ _ W) R' Ht) as [O|[O|[Hne Hp]]]; [exists (ch_i ch)|exists (ch_i ch + 1)|].
    + split; [lia|]. split; [split; [done|apply W]|]. split; [apply W|]. intros ack [-> ?]%Hack. lia.
    + split; [lia|]. split; [|split; [apply W|intros ack [-> ?]%Hack; lia]]. rewrite stream_succ by lia.
      split; [done|]. apply snapshots_app, W.
    + destruct Hacc. by exists (nth_command seed (ch_i ch)), wal.
  - destruct (Hcmd ch' Hc) as (W' & Hi' & Ha'). exists (ch_i ch'). split; [lia|].
    split; [split; [apply wal_holds|]; apply W'|]. split; [apply W'|]. intros ack ->%Ha'. lia.
  - destruct (Hcmd ch' Hc) as (W' & Hi' & Ha'). exists (ch_i ch'). split; [lia|].
    split; [split; [apply wal_holds, W'|apply snapshots_unsaved, W']|]. split; [apply W'|]. intros ack ->%Ha'. lia.
  - destruct (Hcmd ch' Hc) as (W' & Hi' & Ha'). exists (ch_i ch'). split; [lia|].
    split; [split; [apply wal_holds, W'|apply snapshots_unsaved, W']|]. split; [apply W'|]. intros ack ->%Ha'. lia.
Qed.

Lemma check_cycle_spec seed last text d count :
  0 <= count <= stream_max -> last <= count -> disk_holds (stream seed count) d -> resumed text = Some last ->
  (forall ack, last_ack text = Some ack -> ack <= count <= ack + 1) ->
  exists d', check_cycle seed last text d = Some (count, d') /\ disk_holds (stream seed count) d'.
Proof.
  intros Hc Hl D Hr Ha. pose proof (stream_plain seed count ltac:(lia)) as Hp.
  destruct (recover_disk _ _ Hp D) as (e & w & Hrec & I & R & Hcnt). rewrite length_stream in Hcnt by lia.
  unfold check_cycle. rewrite assert_eq_pass by done. cbn [mbind option_bind]. rewrite Hrec. cbn [mbind option_bind unwrap].
  rewrite Hcnt.
  assert ((match last_ack text with Some ack => assert_that (bool_decide (count >= ack /\ count <= ack + 1)) | None => Some tt end)
            = Some tt) as ->.
  { destruct (last_ack text) as [ack|]; [|done]. specialize (Ha ack eq_refl). by rewrite bool_decide_eq_true_2 by lia. }
  cbn [mbind option_bind]. rewrite bool_decide_eq_true_2 by lia. cbn [assert_that mbind option_bind].
  rewrite (state_spec _ _ I). cbn [mbind option_bind].
  destruct (replay_spec seed count ltac:(lia)) as (e0 & -> & I0). cbn [mbind option_bind].
  rewrite (state_spec _ _ I0). cbn [mbind option_bind]. rewrite assert_eq_pass by done. cbn [mbind option_bind].
  unfold collected. rewrite (read_log_spec crc32 crc32_range w _ 0 R (plain_typed _ Hp)) by done.
  cbn [mbind option_bind]. change (drop (Z.to_nat 0) ?l) with l. rewrite plain_untimed by done.
  rewrite (for_each_ext _ (fun engine r => CrashModel.apply engine r.2)) by (by intros ? []). rewrite for_each_fmap.
  assert (forall n cs, snd <$> records n cs = cs) as Hrecs.
  { intros n cs. revert n. induction cs as [|c cs IH]; intros n; [done|]. cbn [records]. rewrite fmap_cons. by rewrite IH. }
  rewrite Hrecs. destruct (for_each_plain CrashModel.apply _ [] _ ltac:(done) (with_capacity_inv ARENA arena_range) Hp)
    as (e1 & -> & I1). cbn [mbind option_bind].
  rewrite (state_spec _ _ I1). cbn [mbind option_bind]. rewrite assert_eq_pass by done. cbn [mbind option_bind].
  destruct D as [O S]. pose proof S as [_ (latest & n & -> & _)]. cbn [unwrap mbind option_bind].
  eexists. split; [done|]. split; [by apply wal_holds|exact S].
Qed.

Lemma cycles_hold seed limit d last :
  limit <= 10 ^ 10 -> cycles seed limit d last -> 0 <= last <= 10 ^ 10 /\ disk_holds (stream seed last) d.
Proof.
  intros Hlim. induction 1 as [|d last ch text d' count d'' _ [IHl IH] Hrun Hi K Hacc Hck].
  - split; [lia|]. split; [|apply no_snapshots].
    exact (opens_log []).
  - assert (writes seed last ch) as W by (apply (child_runs_writes seed d); [unfold stream_max; lia|done|done|lia]).
    pose proof (wt_from _ _ _ W).
    destruct (killed_holds seed last ch text d' W ltac:(lia) K Hacc) as (count' & Hcount & D & Hr & Ha).
    destruct (check_cycle_spec seed last text d' count') as (d1 & Hck' & D1); [unfold stream_max; lia|lia|done|done|intros ack ?%Ha; tauto|].
    rewrite Hck in Hck'. simplify_eq. split; [lia|done].
Qed.

(** ** No accident *)

(** Nothing is torn once the append has returned. *)
Lemma appended_not_accidental seed ch ch' snapshots :
  child_command seed ch = Some ch' -> ~ accidental seed ch (mkData snapshots (w_file (ch_wal ch'))).
Proof.
  intros Hc (cmd & wal & E1 & E2 & Hne & _). apply Hne. unfold child_command in Hc. rewrite E1 in Hc.
  cbn [mbind option_bind] in Hc. rewrite E2 in Hc. cbn [mbind option_bind] in Hc.
  destruct (CrashModel.apply _ _); [|done]. by injection Hc as <-.
Qed.

(** Nor before it: there is no length where the record would be. *)
Lemma unstarted_not_accidental seed last ch :
  writes seed last ch -> ~ accidental seed ch (child_data ch).
Proof.
  intros W (cmd & wal & _ & _ & _ & Hp). pose proof (wt_wal _ _ _ W) as R. destruct (wr_file _ _ _ R) as [n Hn].
  unfold child_data in Hp. cbn [d_wal] in Hp. rewrite Hn in Hp.
  assert (write_pos (ch_wal ch) = zlen (log_of (stream seed (ch_i ch)))) as E by apply R.
  rewrite E in Hp. unfold zlen in Hp. rewrite Nat2Z.id, drop_app_length in Hp.
  unfold checksum_passes in Hp. rewrite take_replicate in Hp.
  assert (forall k, from_le (replicate k 0) = 0) as H0 by (induction k as [|k IH]; [done|]; cbn [replicate from_le]; lia).
  by rewrite H0 in Hp.
Qed.

(** ** The repository's parameters *)

(** No record of [cs] passes its checksum when it is cut short. *)
Definition cuts_rejected (cs : list EngineCommand) : bool :=
  forallb (fun c =>
    let f := frame_bytes crc32_ieee (command_frame c) in
    forallb (fun p => if decide (cut f p = f) then true else negb (checksum_passes crc32_ieee (cut f p)))
      (seq 0 (length f))) cs.

Lemma cuts_rejected_sound cs : crc32_is_ieee -> cuts_rejected cs = true -> Forall cut_detected cs.
Proof.
  intros Hcrc H. unfold cuts_rejected in H. rewrite forallb_forall in H. apply Forall_forall. intros c Hc p.
  pose proof (command_frame_bytes_ok crc32 c) as Hb.
  set (f := frame_bytes crc32 (command_frame c)) in *.
  destruct (decide (p < length f)%nat) as [Hp|Hp].
  2:{ left. unfold cut. rewrite take_ge by lia. replace (length f - p)%nat with 0%nat by lia. by rewrite app_nil_r. }
  specialize (H c ltac:(by apply list_elem_of_In)). cbn beta zeta in H. rewrite <- ieee_frame in H by done. fold f in H. rewrite forallb_forall in H.
  specialize (H p ltac:(apply list_elem_of_In, elem_of_seq; lia)). case_decide as Hd; [by left|right].
  apply negb_true_iff in H. rewrite <- H. unfold checksum_passes. rewrite Hcrc; [done|].
  apply Forall_take, Forall_drop. unfold cut. apply Forall_app. split; [by apply Forall_take|apply bytes_ok_zeros].
Qed.

End disk.

Lemma truncation_checks : cuts_rejected (stream 0x5EED0001 16) = true.
Proof. vm_compute. reflexivity. Qed.

Lemma corruption_checks : lengths_rejected (stream 0x5EED0002 16) = true.
Proof. vm_compute. reflexivity. Qed.

(** The codec of the witnesses. *)
Definition ieee_codec : Codec := {|
  crc32 := fun l => wrap 32 (crc32_ieee l);
  serialize_fields := @serialize_fields demo_codec;
  serialize := @serialize demo_codec;
  deserialize := @deserialize demo_codec
|}.

Lemma ieee_laws : CodecLaws ieee_codec.
Proof. split; [intros l; apply wrap_range; lia|exact (@deserialize_serialize demo_codec demo_laws)]. Qed.

Lemma ieee_codec_crc : crc32_is_ieee (C := ieee_codec).
Proof. intros l Hl. apply wrap_small, crc32_ieee_range, Hl. Qed.

(** ** Properties *)

(** C4. Killed writers: in any sequence of cycles in which a writer resumes,
    executes commands of the stream, saves snapshots and is killed at any point
    (inside an append with any of its bytes written, or inside a save), the next
    writer starts with the recovered count, never panics, and the checks after
    the next kill pass: no acknowledged record is lost, at most one more is
    found, the recovered book is exactly the replay of that many commands with
    and without the snapshot, and the count never falls.  Two limits: the log
    stays below 10^10 records (beyond, the names of the snapshots no longer
    sort), and no kill leaves a record that is torn and still passes its
    checksum ([accidental]), which no 32-bit checksum can exclude. *)
Theorem killed_writer_recovers_to_a_consistent_prefix (C : Codec) seed limit d last_count :
  CodecLaws C -> limit < 10 ^ 10 -> cycles seed limit d last_count ->
  exists ch0, child_start d = Some ch0 /\ ch_i ch0 = last_count /\
    forall ch, child_runs seed d ch -> ch_i ch < limit ->
      (exists ch', child_iteration seed ch = Some ch' /\ ch_i ch' = ch_i ch + 1) /\
      forall text d', killed seed ch text d' -> ~ accidental seed ch d' ->
        exists count d'', check_cycle seed last_count text d' = Some (count, d'') /\ cycles seed limit d'' count /\
          last_count <= count <= ch_i ch + 1 /\ (is_Some (last_ack text) -> 0 < count).
Proof.
  intros Laws Hlim Hcy. destruct (cycles_hold seed limit d last_count ltac:(lia) Hcy) as [Hl D].
  assert (0 <= last_count <= stream_max) as Hl' by (unfold stream_max; lia).
  destruct (child_start_spec seed d last_count Hl' D) as (ch0 & H0 & W0 & Hi0). exists ch0. split; [done|]. split; [done|].
  intros ch Hrun Hi. pose proof (child_runs_writes seed d last_count ch Hl' D Hrun ltac:(lia)) as W. split.
  - destruct (child_iteration_spec seed last_count ch W ltac:(lia)) as (ch' & ? & _ & ?). by exists ch'.
  - intros text d' K Hacc. pose proof (wt_from _ _ _ W).
    destruct (killed_holds seed last_count ch text d' W ltac:(lia) K Hacc) as (count & Hcount & Dk & Hr & Ha).
    destruct (check_cycle_spec seed last_count text d' count) as (d'' & Hck & _); [unfold stream_max; lia|lia|done|done|intros ack ?%Ha; tauto|].
    exists count, d''. split; [done|]. split; [by eapply cycles_step|]. split; [lia|].
    intros [ack ?%Ha]. lia.
Qed.

(** Two cycles: a writer killed after its first acknowledgement, and the next one
    killed before its first append. *)
Lemma killed_writer_recovers_to_a_consistent_prefix_witness :
  exists d1 count1 d2 count2, 0 < count1 <= count2 /\
    cycles (C := ieee_codec) 0xC0FFEE42 5 d1 count1 /\ cycles (C := ieee_codec) 0xC0FFEE42 5 d2 count2.
Proof.
  pose proof (fun d n => killed_writer_recovers_to_a_consistent_prefix ieee_codec 0xC0FFEE42 5 d n ieee_laws ltac:(lia)) as T.
  destruct (T _ _ (cycles_start _ _)) as (ch0 & H0 & Hi0 & Hall).
  destruct (Hall ch0 (runs_start _ _ _ H0)) as [(ch1 & H1 & _) Hk]; [lia|].
  unfold child_iteration in H1. destruct (child_command 0xC0FFEE42 ch0) as [chc|] eqn:Hc; [|done].
  assert (is_Some (last_ack (ch_out chc))) as Hack.
  { unfold child_command in Hc. destruct (command _ _); [|done]. cbn [mbind option_bind] in Hc.
    destruct (append_cmd _ _); [|done]. cbn [mbind option_bind] in Hc. destruct (CrashModel.apply _ _); [|done].
    injection Hc as <-. cbn [ch_out]. rewrite last_ack_snoc. by eexists. }
  destruct (Hk _ _ (killed_acked _ _ _ Hc) (appended_not_accidental _ _ _ _ Hc)) as (n1 & d1 & _ & C1 & Hn1 & Hpos).
  destruct (T _ _ C1) as (ch2 & H2 & Hi2 & Hall2). pose proof (runs_start 0xC0FFEE42 _ _ H2) as Hrun2.
  destruct (Hall2 ch2 Hrun2) as [_ Hk2]; [lia|].
  assert (writes (C := ieee_codec) 0xC0FFEE42 n1 ch2) as W2.
  { destruct (cycles_hold (L := ieee_laws) 0xC0FFEE42 5 d1 n1 ltac:(lia) C1) as [_ D].
    apply (child_runs_writes (L := ieee_laws) _ d1); [unfold stream_max; lia|done|done|lia]. }
  destruct (Hk2 _ _ (killed_before _ _) (unstarted_not_accidental _ _ _ W2)) as (n2 & d2 & _ & C2 & Hn2 & _).
  exists d1, n1, d2, n2. split; [|by split]. specialize (Hpos Hack). lia.
Defined.

(** C6. The fault injection of the log passes with the parameters of the
    repository: the log of 16 commands of seed 0x5EED0001 cut at every byte, and
    the log of 16 commands of seed 0x5EED0002 with any byte damaged in any of the
    three ways, always leave a file from which recovery gives exactly the replay
    of the records the oracle expects, and from which three more commands can be
    logged and recovered.  [crc32fast] is the CRC-32 of IEEE 802.3, computed here
    bit by bit; nothing else is assumed of it. *)
Theorem fault_injection_passes (C : Codec) :
  CodecLaws C -> crc32_is_ieee ->
  wal_truncated_at_every_byte_offset_recovers_the_longest_valid_prefix 0x5EED0001 16 = Some tt /\
  wal_corrupted_at_every_byte_offset_recovers_the_prefix_before_the_damage 0x5EED0002 16 = Some tt.
Proof.
  intros Laws Hcrc. split.
  - apply truncation_passes; [lia|]. apply cuts_rejected_sound; [done|exact truncation_checks].
  - apply corruption_passes; [lia|done|exact corruption_checks].
Qed.

Lemma fault_injection_passes_witness :
  wal_truncated_at_every_byte_offset_recovers_the_longest_valid_prefix (C := ieee_codec) 0x5EED0001 16 = Some tt /\
  wal_corrupted_at_every_byte_offset_recovers_the_prefix_before_the_damage (C := ieee_codec) 0x5EED0002 16 = Some tt.
Proof. exact (fault_injection_passes ieee_codec ieee_laws ieee_codec_crc). Defined.
