(* ===== verification/Ring.v ===== *)
(** * Ring.v: the lock-free SPSC ring buffer ([src/ring.rs])

    An atomic cursor is the list of the values stored to it, in modification
    order.  A load may return any of them that is not older than what the same
    thread has already seen (coherence of an acquire load, which may be
    stale); the argument [k] of a load says which.  A slot holds [Some v] when
    it is initialized and [None] when it is not (never written, or moved out).

    [push] and [pop] are split at their shared-memory accesses, so that the
    two threads can be interleaved between any two of them; [push] and [pop]
    themselves run the pieces without interruption.  Cursors are 64-bit and
    wrap around. *)

From S2P Require Import Prelude.

Definition wrapping_add (a b : Z) : Z := wrap 64 (a + b).
Definition wrapping_sub (a b : Z) : Z := wrap 64 (a - b).

(** [usize::is_power_of_two]. *)
Definition is_power_of_two (n : Z) : bool :=
  bool_decide (0 < n) && bool_decide (Z.land n (n - 1) = 0).

(** ** Atomic cursors *)

Record Atomic : Type := mkAtomic { at_history : list Z }.

Definition atomic_new (v : Z) : Atomic := mkAtomic [v].
Definition store (a : Atomic) (v : Z) : Atomic := mkAtomic (at_history a ++ [v]).
(** The [k]-th value stored, if the thread has not seen a newer one. *)
Definition load (a : Atomic) (seen k : nat) : option Z :=
  if decide (seen <= k)%nat then at_history a !! k else None.
Definition last_value (a : Atomic) : Z := default 0 (last (at_history a)).
Definition latest (a : Atomic) : nat := pred (length (at_history a)).

Section ring.
Context {T : Type}.

Record RingBufferInner : Type := mkInner {
  rb_buffer : list (option T);
  rb_capacity : Z;
  rb_mask : Z;
  rb_head : Atomic;
  rb_tail : Atomic
}.

Record Producer : Type := mkProducer {
  p_cached_head : Z;
  p_cached_tail : Z;
  p_seen : nat   (* position in the history of [tail] last loaded *)
}.

Record Consumer : Type := mkConsumer {
  c_cached_tail : Z;
  c_cached_head : Z;
  c_seen : nat   (* position in the history of [head] last loaded *)
}.

(** [Producer::capacity] and [Consumer::capacity]. *)
Definition producer_capacity (r : RingBufferInner) : Z := rb_capacity r.
Definition consumer_capacity (r : RingBufferInner) : Z := rb_capacity r.

(** [Slot::uninit]. *)
Definition slot_uninit : option T := None.

(** [ring_buffer]: the assertions panic. *)
Definition ring_buffer (capacity : Z) : option (RingBufferInner * Producer * Consumer) :=
  if decide (capacity > 0) then
    if is_power_of_two capacity then
      Some (mkInner (replicate (Z.to_nat capacity) slot_uninit) capacity (capacity - 1)
                    (atomic_new 0) (atomic_new 0),
            mkProducer 0 0 0, mkConsumer 0 0 0)
    else None
  else None.

(** [slot]: the index of a free-running cursor; out of range it panics. *)
Definition slot (r : RingBufferInner) (cursor : Z) : option Z :=
  let index := Z.land cursor (rb_mask r) in
  if decide (0 <= index < zlen (rb_buffer r)) then Some index else None.

(** [Slot::write]: stores the value whatever the slot held. *)
Definition slot_write (r : RingBufferInner) (i : Z) (v : T) : RingBufferInner :=
  mkInner (vset (rb_buffer r) i (Some v)) (rb_capacity r) (rb_mask r) (rb_head r) (rb_tail r).

(** [Slot::read]: moves the value out; undefined on an uninitialized slot. *)
Definition slot_read (r : RingBufferInner) (i : Z) : option (RingBufferInner * T) :=
  o ← vget (rb_buffer r) i;
  v ← o;
  Some (mkInner (vset (rb_buffer r) i None) (rb_capacity r) (rb_mask r) (rb_head r) (rb_tail r), v).

(** [Slot::drop_in_place]: drops the value; undefined on an uninitialized slot. *)
Definition slot_drop (r : RingBufferInner) (i : Z) : option (RingBufferInner * T) :=
  o ← vget (rb_buffer r) i;
  v ← o;
  Some (mkInner (vset (rb_buffer r) i slot_uninit) (rb_capacity r) (rb_mask r) (rb_head r) (rb_tail r), v).

(** ** [Producer::push], piece by piece *)

(** Where the producer is: between calls, about to load [tail], about to write
    the slot, about to store [head]. *)
Inductive PPc : Type :=
| PIdle
| PLoad (value : T)
| PWrite (value : T)
| PStore.

Definition push_begin (r : RingBufferInner) (p : Producer) (value : T) : PPc :=
  if decide (wrapping_sub (p_cached_head p) (p_cached_tail p) = rb_capacity r)
  then PLoad value else PWrite value.

(** Reload [tail]; [Err] is [Full]. *)
Definition push_load (r : RingBufferInner) (p : Producer) (value : T) (k : nat)
  : option (Producer * result PPc T) :=
  t ← load (rb_tail r) (p_seen p) k;
  let p := mkProducer (p_cached_head p) t k in
  if decide (wrapping_sub (p_cached_head p) (p_cached_tail p) = rb_capacity r)
  then Some (p, Err value) else Some (p, Ok (PWrite value)).

Definition push_write (r : RingBufferInner) (p : Producer) (value : T) : option RingBufferInner :=
  i ← slot r (p_cached_head p);
  Some (slot_write r i value).

Definition push_store (r : RingBufferInner) (p : Producer) : RingBufferInner * Producer :=
  let head := wrapping_add (p_cached_head p) 1 in
  (mkInner (rb_buffer r) (rb_capacity r) (rb_mask r) (store (rb_head r) head) (rb_tail r),
   mkProducer head (p_cached_tail p) (p_seen p)).

(** [push] without interruption; the load, if there is one, sees position [k]. *)
Definition push (r : RingBufferInner) (p : Producer) (value : T) (k : nat)
  : option (RingBufferInner * Producer * result unit T) :=
  '(p, pc) ← (match push_begin r p value with
              | PLoad value => push_load r p value k
              | pc => Some (p, Ok pc)
              end);
  match pc with
  | Err v => Some (r, p, Err v)
  | Ok _ =>
      r ← push_write r p value;
      let '(r, p) := push_store r p in
      Some (r, p, Ok tt)
  end.

(** ** [Consumer::pop], piece by piece *)

Inductive CPc : Type :=
| CIdle
| CLoad
| CRead
| CStore (value : T).

Definition pop_begin (c : Consumer) : CPc :=
  if decide (c_cached_tail c = c_cached_head c) then CLoad else CRead.

(** Reload [head]; [Err tt] is [Empty]. *)
Definition pop_load (r : RingBufferInner) (c : Consumer) (k : nat) : option (Consumer * result CPc unit) :=
  h ← load (rb_head r) (c_seen c) k;
  let c := mkConsumer (c_cached_tail c) h k in
  if decide (c_cached_tail c = c_cached_head c) then Some (c, Err tt) else Some (c, Ok CRead).

Definition pop_read (r : RingBufferInner) (c : Consumer) : option (RingBufferInner * T) :=
  i ← slot r (c_cached_tail c);
  slot_read r i.

Definition pop_store (r : RingBufferInner) (c : Consumer) : RingBufferInner * Consumer :=
  let tail := wrapping_add (c_cached_tail c) 1 in
  (mkInner (rb_buffer r) (rb_capacity r) (rb_mask r) (rb_head r) (store (rb_tail r) tail),
   mkConsumer tail (c_cached_head c) (c_seen c)).

Definition pop (r : RingBufferInner) (c : Consumer) (k : nat)
  : option (RingBufferInner * Consumer * result T unit) :=
  '(c, pc) ← (match pop_begin c with
              | CLoad => pop_load r c k
              | pc => Some (c, Ok pc)
              end);
  match pc with
  | Err _ => Some (r, c, Err tt)
  | Ok _ =>
      '(r, v) ← pop_read r c;
      let '(r, c) := pop_store r c in
      Some (r, c, Ok v)
  end.

(** ** [Drop for RingBufferInner]

    Drops the values in [tail..head]; undefined on an uninitialized slot.  The
    result lists the dropped values. *)
Fixpoint drop_loop (fuel : nat) (r : RingBufferInner) (i head : Z) : option (list T) :=
  match fuel with
  | O => None
  | S fuel =>
      if decide (i ≠ head) then
        '(r, v) ← slot_drop r (Z.land i (rb_mask r));
        vs ← drop_loop fuel r (wrapping_add i 1) head;
        Some (v :: vs)
      else Some []
  end.

Definition drop_ring (r : RingBufferInner) : option (list T) :=
  drop_loop (S (Z.to_nat (rb_capacity r))) r (last_value (rb_tail r)) (last_value (rb_head r)).

(** ** The two threads *)

Record Machine : Type := mkMachine {
  m_ring : RingBufferInner;
  m_prod : Producer;
  m_cons : Consumer;
  m_ppc : PPc;
  m_cpc : CPc
}.

(** What a step makes visible: a value that entered the ring, one that left
    it, or a refused push or pop. *)
Inductive Event : Type :=
| EPushed (v : T)
| EFull (v : T)
| EPopped (v : T)
| EEmpty.

Inductive step : Machine -> option Event -> Machine -> Prop :=
| step_push_begin r p c cpc v :
    step (mkMachine r p c PIdle cpc) None (mkMachine r p c (push_begin r p v) cpc)
| step_push_load r p c cpc v k p' pc :
    push_load r p v k = Some (p', Ok pc) ->
    step (mkMachine r p c (PLoad v) cpc) None (mkMachine r p' c pc cpc)
| step_push_full r p c cpc v k p' v' :
    push_load r p v k = Some (p', Err v') ->
    step (mkMachine r p c (PLoad v) cpc) (Some (EFull v')) (mkMachine r p' c PIdle cpc)
| step_push_write r p c cpc v r' :
    push_write r p v = Some r' ->
    step (mkMachine r p c (PWrite v) cpc) (Some (EPushed v)) (mkMachine r' p c PStore cpc)
| step_push_store r p c cpc r' p' :
    push_store r p = (r', p') ->
    step (mkMachine r p c PStore cpc) None (mkMachine r' p' c PIdle cpc)
| step_pop_begin r p c ppc :
    step (mkMachine r p c ppc CIdle) None (mkMachine r p c ppc (pop_begin c))
| step_pop_load r p c ppc k c' pc :
    pop_load r c k = Some (c', Ok pc) ->
    step (mkMachine r p c ppc CLoad) None (mkMachine r p c' ppc pc)
| step_pop_empty r p c ppc k c' :
    pop_load r c k = Some (c', Err tt) ->
    step (mkMachine r p c ppc CLoad) (Some EEmpty) (mkMachine r p c' ppc CIdle)
| step_pop_read r p c ppc r' v :
    pop_read r c = Some (r', v) ->
    step (mkMachine r p c ppc CRead) (Some (EPopped v)) (mkMachine r' p c ppc (CStore v))
| step_pop_store r p c ppc v r' c' :
    pop_store r c = (r', c') ->
    step (mkMachine r p c ppc (CStore v)) None (mkMachine r' p c' ppc CIdle).

(** The values written into and moved out of the slots so far. *)
Definition pushed_event (e : option Event) : list T := match e with Some (EPushed v) => [v] | _ => [] end.
Definition popped_event (e : option Event) : list T := match e with Some (EPopped v) => [v] | _ => [] end.

(** A machine with the history of its run. *)
Inductive reach (capacity : Z) : Machine -> list T -> list T -> Prop :=
| reach_init r p c :
    ring_buffer capacity = Some (r, p, c) -> reach capacity (mkMachine r p c PIdle CIdle) [] []
| reach_step m e m' pushed popped :
    reach capacity m pushed popped -> step m e m' ->
    reach capacity m' (pushed ++ pushed_event e) (popped ++ popped_event e).

End ring.
Arguments RingBufferInner : clear implicits.
Arguments PPc : clear implicits.
Arguments CPc : clear implicits.
Arguments Machine : clear implicits.
Arguments Event : clear implicits.
