(* ===== verification/RingInv.v ===== *)
(** * RingInv.v: the invariant of the ring under every interleaving

    The cursors are the numbers of completed pushes and pops modulo 2^64, the
    window between them never exceeds the capacity, and the initialized slots
    are exactly those of the window, holding the values in order. *)

From S2P Require Import Prelude.
From S2P Require Import Ring.

(** ** Arithmetic of the cursors *)

Lemma power_of_two_spec n : is_power_of_two n = true -> exists j, 0 <= j /\ n = 2 ^ j.
Proof.
  unfold is_power_of_two. intros [Hp%bool_decide_eq_true Hl%bool_decide_eq_true]%andb_prop.
  exists (Z.log2 n). split; [apply Z.log2_nonneg|].
  pose proof (Z.log2_spec n Hp) as [Hlo Hhi].
  destruct (decide (n = 2 ^ Z.log2 n)) as [|Hne]; [done|]. exfalso.
  pose proof (Z.pow_pos_nonneg 2 (Z.log2 n) ltac:(lia) (Z.log2_nonneg n)).
  assert (Z.log2 (n - 1) = Z.log2 n) as Hlog by (apply Z.log2_unique; [apply Z.log2_nonneg|lia]).
  assert (Z.testbit (Z.land n (n - 1)) (Z.log2 n) = true) as Hb.
  { rewrite Z.land_spec, Z.bit_log2 by lia. rewrite <- Hlog. by rewrite Z.bit_log2 by lia. }
  rewrite Hl, Z.bits_0 in Hb. done.
Qed.

Lemma wrap_sub_wrap a b : wrapping_sub (wrap 64 a) (wrap 64 b) = wrap 64 (a - b).
Proof. unfold wrapping_sub, wrap. by rewrite <- Zminus_mod. Qed.

Lemma wrap_succ n : wrapping_add (wrap 64 (Z.of_nat n)) 1 = wrap 64 (Z.of_nat (S n)).
Proof. unfold wrapping_add. rewrite wrap_add_l. f_equal. lia. Qed.

Lemma wrap_eq a b : 0 <= a - b < 2 ^ 64 -> wrap 64 a = wrap 64 b -> a = b.
Proof.
  intros Hab E. assert (wrap 64 (a - b) = 0) as H.
  { unfold wrap in *. rewrite Zminus_mod, E, Z.sub_diag. done. }
  rewrite wrap_small in H by lia. lia.
Qed.

Lemma land_mask x j : 0 <= j <= 64 -> Z.land (wrap 64 x) (2 ^ j - 1) = x mod 2 ^ j.
Proof.
  intros Hj. replace (2 ^ j - 1) with (Z.ones j) by (rewrite Z.ones_equiv; lia).
  rewrite Z.land_ones by lia. unfold wrap. apply Z.mod_mod_divide.
  exists (2 ^ (64 - j)). rewrite <- Z.pow_add_r by lia. f_equal. lia.
Qed.

(** In a window of at most [c] cursors no two share a slot. *)
Lemma window_inj c a b : 0 < c -> - c < a - b < c -> a mod c = b mod c -> a = b.
Proof.
  intros Hc Hab E. pose proof (Z.div_mod a c ltac:(lia)). pose proof (Z.div_mod b c ltac:(lia)).
  rewrite E in *. assert (a - b = c * (a / c - b / c)) as Hd by lia.
  assert (a / c - b / c = 0) as Hz; [|rewrite Hz in Hd; lia].
  destruct (Z.lt_trichotomy (a / c - b / c) 0) as [Hl|[Hz|Hl]]; [nia|done|nia].
Qed.

(** ** The history of a cursor *)

Definition hist (n : nat) : list Z := (fun i => wrap 64 (Z.of_nat i)) <$> seq 0 (S n).

Lemma hist_lookup n k v : hist n !! k = Some v -> (k <= n)%nat /\ v = wrap 64 (Z.of_nat k).
Proof.
  unfold hist. rewrite list_lookup_fmap. destruct (seq 0 (S n) !! k) as [i|] eqn:E; [|done].
  apply lookup_seq in E as [-> Hk]. simpl. intros [= <-]. split; [lia|done].
Qed.

Lemma hist_store n : store (mkAtomic (hist n)) (wrap 64 (Z.of_nat (S n))) = mkAtomic (hist (S n)).
Proof.
  unfold store, hist. cbn [at_history]. f_equal. rewrite (seq_S (S n) 0), fmap_app. done.
Qed.

Lemma hist_last n : last_value (mkAtomic (hist n)) = wrap 64 (Z.of_nat n).
Proof.
  unfold last_value, hist. cbn [at_history]. rewrite (seq_S n 0), fmap_app.
  change ((fun i => wrap 64 (Z.of_nat i)) <$> [(0 + n)%nat]) with [wrap 64 (Z.of_nat n)].
  by rewrite last_snoc.
Qed.

Lemma load_hist n seen k v :
  load (mkAtomic (hist n)) seen k = Some v -> (seen <= k <= n)%nat /\ v = wrap 64 (Z.of_nat k).
Proof. unfold load. case_decide; [|done]. intros [? ->]%hist_lookup. split; [lia|done]. Qed.

Lemma load_hist_eq n seen k :
  (seen <= k <= n)%nat -> load (mkAtomic (hist n)) seen k = Some (wrap 64 (Z.of_nat k)).
Proof.
  intros Hk. unfold load, hist. rewrite decide_True by lia. cbn [at_history].
  by rewrite list_lookup_fmap, lookup_seq_lt by lia.
Qed.

Lemma latest_hist n : latest (mkAtomic (hist n)) = n.
Proof. unfold latest, hist. cbn [at_history]. by rewrite length_fmap, length_seq. Qed.

(** ** The invariant *)

Section inv.
Context {T : Type}.

(** The slots: position [n] of the window [lo, lo + length vs) holds the [n]-th
    value, every other slot is uninitialized. *)
Definition slots_hold (buf : list (option T)) (cap : Z) (lo : nat) (vs : list T) : Prop :=
  (forall n v, vs !! n = Some v -> vget buf (Z.of_nat (lo + n) mod cap) = Some (Some v)) /\
  (forall i, 0 <= i < cap -> (forall n, (n < length vs)%nat -> Z.of_nat (lo + n) mod cap ≠ i) ->
     vget buf i = Some None).

Lemma slots_push buf cap lo vs v :
  0 < cap -> zlen buf = cap -> slots_hold buf cap lo vs -> Z.of_nat (length vs) < cap ->
  vget buf (Z.of_nat (lo + length vs) mod cap) = Some None /\
  slots_hold (vset buf (Z.of_nat (lo + length vs) mod cap) (Some v)) cap lo (vs ++ [v]).
Proof.
  intros Hc Hlen [Hin Hout] Hroom. set (i := Z.of_nat (lo + length vs) mod cap).
  assert (0 <= i < cap) as Hi by (apply Z.mod_pos_bound; lia).
  assert (forall n, (n < length vs)%nat -> Z.of_nat (lo + n) mod cap ≠ i) as Hne.
  { intros n Hn E. apply window_inj in E; lia. }
  assert (vget buf i = Some None) as Hnone by (by apply Hout). split; [done|]. split.
  - intros n x [Hx|[Hn Hx]]%lookup_app_Some.
    + pose proof (lookup_lt_Some _ _ _ Hx). rewrite vget_vset_ne by (apply not_eq_sym, Hne; done). by apply Hin.
    + destruct (n - length vs)%nat as [|m] eqn:E; simplify_eq/=.
      assert (n = length vs) as -> by lia. by eapply vget_vset_eq.
  - intros k Hk Hno. rewrite length_app in Hno. simpl in Hno.
    assert (i ≠ k) as Hik by (apply (Hno (length vs)); lia).
    rewrite vget_vset_ne by done. apply Hout; [done|]. intros n Hn. apply Hno. lia.
Qed.

Lemma slots_pop buf cap lo v vs :
  0 < cap -> slots_hold buf cap lo (v :: vs) -> Z.of_nat (length (v :: vs)) <= cap ->
  vget buf (Z.of_nat lo mod cap) = Some (Some v) /\
  slots_hold (vset buf (Z.of_nat lo mod cap) None) cap (S lo) vs.
Proof.
  intros Hc [Hin Hout] Hroom. set (i := Z.of_nat lo mod cap). simpl in Hroom.
  assert (vget buf i = Some (Some v)) as Hv.
  { unfold i. rewrite <- (Hin 0%nat v eq_refl). by rewrite Nat.add_0_r. }
  split; [done|]. split.
  - intros n x Hx. pose proof (lookup_lt_Some _ _ _ Hx). rewrite vget_vset_ne.
    + rewrite <- (Hin (S n) x Hx). do 3 f_equal. lia.
    + intros E. apply window_inj in E; lia.
  - intros k Hk Hno. destruct (decide (i = k)) as [<-|Hne]; [by eapply vget_vset_eq|].
    rewrite vget_vset_ne by done. apply Hout; [done|]. intros [|n] Hn.
    + rewrite Nat.add_0_r. done.
    + replace (lo + S n)%nat with (S lo + n)%nat by lia. apply Hno. simpl in Hn. lia.
Qed.

(** Values a thread has moved but not yet published. *)
Definition ppc_extra (pc : PPc T) : nat := match pc with PStore => 1 | _ => 0 end.
Definition cpc_extra (pc : CPc T) : nat := match pc with CStore _ => 1 | _ => 0 end.

(** [H] and [L] are the numbers of published pushes and pops. *)
Record ring_inv (cap : Z) (m : Machine T) (pushed popped : list T) (H L : nat) : Prop := {
  ri_pow : exists j, 0 <= j < 64 /\ cap = 2 ^ j;
  ri_capacity : rb_capacity (m_ring m) = cap;
  ri_mask : rb_mask (m_ring m) = cap - 1;
  ri_len : zlen (rb_buffer (m_ring m)) = cap;
  ri_head : rb_head (m_ring m) = mkAtomic (hist H);
  ri_tail : rb_tail (m_ring m) = mkAtomic (hist L);
  ri_phead : p_cached_head (m_prod m) = wrap 64 (Z.of_nat H);
  ri_ptail : p_cached_tail (m_prod m) = wrap 64 (Z.of_nat (p_seen (m_prod m)));
  ri_ctail : c_cached_tail (m_cons m) = wrap 64 (Z.of_nat L);
  ri_chead : c_cached_head (m_cons m) = wrap 64 (Z.of_nat (c_seen (m_cons m)));
  ri_order : (p_seen (m_prod m) <= L <= c_seen (m_cons m))%nat /\ (c_seen (m_cons m) <= H)%nat;
  ri_window : Z.of_nat H <= Z.of_nat (p_seen (m_prod m)) + cap;
  (* a push past its check has room, as far as the producer knows *)
  ri_room : match m_ppc m with
            | PWrite _ | PStore => Z.of_nat H < Z.of_nat (p_seen (m_prod m)) + cap
            | _ => True end;
  (* a pop past its check has a published value *)
  ri_avail : match m_cpc m with CRead | CStore _ => (L < c_seen (m_cons m))%nat | _ => True end;
  ri_pushed : length pushed = (H + ppc_extra (m_ppc m))%nat;
  ri_popped : length popped = (L + cpc_extra (m_cpc m))%nat;
  ri_fifo : popped = take (length popped) pushed;
  ri_slots : slots_hold (rb_buffer (m_ring m)) cap (length popped) (drop (length popped) pushed)
}.

Lemma ring_inv_init capacity r p c :
  capacity < 2 ^ 64 -> ring_buffer capacity = Some (r, p, c) ->
  ring_inv capacity (mkMachine r p c PIdle CIdle) [] [] 0 0.
Proof.
  intros H64. unfold ring_buffer. case_decide as Hpos; [|done].
  destruct (is_power_of_two capacity) eqn:Hp; [|done]. intros [= <- <- <-].
  apply power_of_two_spec in Hp as (j & Hj & ->).
  split; simpl; try done; try lia.
  - exists j. split; [|done]. split; [done|].
    destruct (decide (64 <= j)) as [H|]; [|lia]. pose proof (Z.pow_le_mono_r 2 64 j ltac:(lia) H). lia.
  - rewrite zlen_replicate. lia.
  - split; [done|]. intros i Hi _. unfold vget. rewrite decide_True by lia.
    apply lookup_replicate. split; [done|lia].
Qed.

Lemma cap_range cap j : 0 <= j < 64 -> cap = 2 ^ j -> 0 < cap < 2 ^ 64.
Proof.
  intros Hj ->. split; [apply Z.pow_pos_nonneg; lia|]. apply Z.pow_lt_mono_r; lia.
Qed.

(** The index [slot] computes. *)
Lemma slot_index cap m pushed popped H L n :
  ring_inv cap m pushed popped H L -> slot (m_ring m) (wrap 64 (Z.of_nat n)) = Some (Z.of_nat n mod cap).
Proof.
  intros I. destruct (ri_pow _ _ _ _ _ _ I) as (j & Hj & Hcap).
  pose proof (cap_range _ _ Hj Hcap). unfold slot.
  rewrite (ri_mask _ _ _ _ _ _ I), (ri_len _ _ _ _ _ _ I).
  assert (Z.land (wrap 64 (Z.of_nat n)) (cap - 1) = Z.of_nat n mod cap) as ->.
  { rewrite Hcap. apply land_mask. lia. }
  rewrite decide_True; [done|]. apply Z.mod_pos_bound. lia.
Qed.

(** The full test compares the true distance. *)
Lemma full_test cap m pushed popped H L k :
  ring_inv cap m pushed popped H L -> (p_seen (m_prod m) <= k <= L)%nat ->
  wrapping_sub (wrap 64 (Z.of_nat H)) (wrap 64 (Z.of_nat k)) = Z.of_nat H - Z.of_nat k /\
  Z.of_nat H <= Z.of_nat k + cap.
Proof.
  intros I Hk. destruct (ri_pow _ _ _ _ _ _ I) as (j & Hj & Hcap). pose proof (cap_range _ _ Hj Hcap).
  pose proof (ri_window _ _ _ _ _ _ I). pose proof (ri_order _ _ _ _ _ _ I).
  rewrite wrap_sub_wrap, wrap_small by lia. lia.
Qed.

(** The empty test compares the true cursors. *)
Lemma empty_test cap m pushed popped H L k :
  ring_inv cap m pushed popped H L -> (L <= k <= H)%nat ->
  wrap 64 (Z.of_nat L) = wrap 64 (Z.of_nat k) <-> k = L.
Proof.
  intros I Hk. destruct (ri_pow _ _ _ _ _ _ I) as (j & Hj & Hcap). pose proof (cap_range _ _ Hj Hcap).
  pose proof (ri_window _ _ _ _ _ _ I). pose proof (ri_order _ _ _ _ _ _ I).
  split; [|by intros ->]. intros E. symmetry in E. apply wrap_eq in E; lia.
Qed.

End inv.

(** ** Preservation *)

(** Split the invariant of the next state; the unchanged parts are immediate. *)
Ltac ring_split I :=
  destruct I; split; cbn [m_ring m_prod m_cons m_ppc m_cpc rb_buffer rb_capacity rb_mask rb_head rb_tail
    p_cached_head p_cached_tail p_seen c_cached_tail c_cached_head c_seen ppc_extra cpc_extra] in *;
  try done; try lia.

(** The facts of the invariant of a machine given by its parts. *)
Ltac ring_facts I :=
  let I' := fresh in pose proof I as I';
  destruct I' as [Ipow Icap Imask Ilen Ihead Itail Iph Ipt Ict Ich Iord Iwin Iroom Iav Ipu Ipo Ifi Isl];
  cbn [m_ring m_prod m_cons m_ppc m_cpc ppc_extra cpc_extra] in
    Ipow, Icap, Imask, Ilen, Ihead, Itail, Iph, Ipt, Ict, Ich, Iord, Iwin, Iroom, Iav, Ipu, Ipo, Ifi, Isl.

Section preservation.
Context {T : Type}.

Lemma push_begin_inv cap r p c cpc (v : T) (pushed popped : list T) H L :
  ring_inv cap (mkMachine r p c PIdle cpc) pushed popped H L ->
  ring_inv cap (mkMachine r p c (push_begin r p v) cpc) pushed popped H L.
Proof.
  intros I. ring_facts I. destruct (full_test _ _ _ _ _ _ (p_seen p) I ltac:(simpl; lia)) as [Hd Hw].
  unfold push_begin. rewrite Iph, Ipt, Hd, Icap.
  case_decide; ring_split I.
Qed.

Lemma push_load_inv cap r p c cpc v k p' res (pushed popped : list T) H L :
  ring_inv cap (mkMachine r p c (PLoad v) cpc) pushed popped H L ->
  push_load r p v k = Some (p', res) ->
  match res with
  | Ok pc => ring_inv cap (mkMachine r p' c pc cpc) pushed popped H L
  | Err v' => ring_inv cap (mkMachine r p' c PIdle cpc) pushed popped H L /\ v' = v /\
              Z.of_nat H = Z.of_nat k + cap
  end.
Proof.
  intros I. ring_facts I. unfold push_load. rewrite Itail.
  destruct (load _ _ _) as [t|] eqn:El; [|done]. apply load_hist in El as [Hk ->].
  cbn [mbind option_bind p_cached_head p_cached_tail].
  pose proof (full_test _ _ _ _ _ _ k I Hk) as [Hd Hw].
  rewrite Iph, Hd, Icap.
  case_decide; intros [= <- <-]; [split; [|split; [done|lia]]|]; ring_split I.
Qed.

Lemma push_write_inv cap r p c cpc v (pushed popped : list T) H L :
  ring_inv cap (mkMachine r p c (PWrite v) cpc) pushed popped H L ->
  exists i r', push_write r p v = Some r' /\ slot r (p_cached_head p) = Some i /\
    vget (rb_buffer r) i = Some None /\
    ring_inv cap (mkMachine r' p c PStore cpc) (pushed ++ [v]) popped H L.
Proof.
  intros I. ring_facts I. destruct Ipow as (j & Hj & Hcap). pose proof (cap_range _ _ Hj Hcap) as Hc.
  pose proof (slot_index _ _ _ _ _ _ H I) as Hs. cbn [m_ring] in Hs.
  unfold push_write. rewrite Iph, Hs. cbn [mbind option_bind].
  assert (length popped <= length pushed)%nat as Hle.
  { rewrite Ifi, length_take. lia. }
  destruct (slots_push _ _ _ _ v (proj1 Hc) Ilen Isl) as [Hn Hsl'].
  { rewrite length_drop. destruct cpc; cbn [cpc_extra] in *; lia. }
  rewrite length_drop in Hn, Hsl'.
  replace (length popped + (length pushed - length popped))%nat with H in Hn, Hsl' by lia.
  exists (Z.of_nat H mod cap). eexists. split; [done|]. split; [done|]. split; [done|].
  assert (drop (length popped) (pushed ++ [v]) = drop (length popped) pushed ++ [v]) as Hdr
    by (by rewrite drop_app_le).
  unfold slot_write. ring_split I.
  - unfold zlen. by rewrite length_vset.
  - rewrite length_app. simpl. lia.
  - by rewrite take_app_le.
  - rewrite Hdr. done.
Qed.

Lemma push_store_inv cap r p c cpc r' p' (pushed popped : list T) H L :
  ring_inv cap (mkMachine r p c PStore cpc) pushed popped H L -> push_store r p = (r', p') ->
  ring_inv cap (mkMachine r' p' c PIdle cpc) pushed popped (S H) L.
Proof.
  intros I. ring_facts I. unfold push_store. rewrite Iph, wrap_succ, Ihead, hist_store.
  intros [= <- <-]. ring_split I.
Qed.

Lemma pop_begin_inv cap r p c ppc (pushed popped : list T) H L :
  ring_inv cap (mkMachine r p c ppc CIdle) pushed popped H L ->
  ring_inv cap (mkMachine r p c ppc (pop_begin c)) pushed popped H L.
Proof.
  intros I. ring_facts I. pose proof (empty_test _ _ _ _ _ _ (c_seen c) I ltac:(simpl; lia)) as Hf.
  unfold pop_begin. rewrite Ict, Ich.
  case_decide as Hd; rewrite Hf in Hd; ring_split I.
Qed.

Lemma pop_load_inv cap r p c ppc k c' res (pushed popped : list T) H L :
  ring_inv cap (mkMachine r p c ppc CLoad) pushed popped H L -> pop_load r c k = Some (c', res) ->
  match res with
  | Ok pc => ring_inv cap (mkMachine r p c' ppc pc) pushed popped H L
  | Err _ => ring_inv cap (mkMachine r p c' ppc CIdle) pushed popped H L /\ k = L
  end.
Proof.
  intros I. ring_facts I. unfold pop_load. rewrite Ihead.
  destruct (load _ _ _) as [h|] eqn:El; [|done]. apply load_hist in El as [Hk ->].
  cbn [mbind option_bind c_cached_head c_cached_tail].
  pose proof (empty_test _ _ _ _ _ _ k I ltac:(lia)) as Hd. rewrite Ict.
  case_decide as He; rewrite Hd in He; intros [= <- <-]; [split; [|done]|]; ring_split I.
Qed.

Lemma pop_read_inv cap r p c ppc (pushed popped : list T) H L :
  ring_inv cap (mkMachine r p c ppc CRead) pushed popped H L ->
  exists r' v, pop_read r c = Some (r', v) /\ pushed !! L = Some v /\
    ring_inv cap (mkMachine r' p c ppc (CStore v)) pushed (popped ++ [v]) H L.
Proof.
  intros I. ring_facts I. destruct Ipow as (j & Hj & Hcap). pose proof (cap_range _ _ Hj Hcap) as Hc.
  pose proof (slot_index _ _ _ _ _ _ L I) as Hs. cbn [m_ring] in Hs.
  unfold pop_read. rewrite Ict, Hs. cbn [mbind option_bind].
  replace (length popped) with L in Isl, Ifi by lia.
  destruct (lookup_lt_is_Some_2 pushed L ltac:(lia)) as [v Hv]. pose proof Hv as Hd%drop_S.
  assert (length (drop L pushed) = (length pushed - L)%nat) as Hdl by apply length_drop.
  rewrite Hd in Isl, Hdl.
  destruct (slots_pop _ _ _ _ _ (proj1 Hc) Isl) as [Hg Hsl'].
  { rewrite Hdl. destruct ppc; cbn [ppc_extra] in *; lia. }
  unfold slot_read. rewrite Hg. simpl. eexists _, v. split; [done|]. split; [done|].
  ring_split I.
  - unfold zlen. by rewrite length_vset.
  - rewrite length_app. simpl. lia.
  - rewrite length_app. replace (length popped + length [v])%nat with (S L) by (simpl; lia).
    rewrite (take_S_r _ _ _ Hv). by f_equal.
  - rewrite length_app. replace (length popped + length [v])%nat with (S L) by (simpl; lia). done.
Qed.

Lemma pop_store_inv cap r p c ppc v r' c' (pushed popped : list T) H L :
  ring_inv cap (mkMachine r p c ppc (CStore v)) pushed popped H L -> pop_store r c = (r', c') ->
  ring_inv cap (mkMachine r' p c' ppc CIdle) pushed popped H (S L).
Proof.
  intros I. ring_facts I. unfold pop_store. rewrite Ict, wrap_succ, Itail, hist_store.
  intros [= <- <-]. ring_split I.
Qed.

(** Loads that see everything decide exactly. *)
Lemma push_load_latest cap r p c cpc v (pushed popped : list T) H L :
  ring_inv cap (mkMachine r p c (PLoad v) cpc) pushed popped H L ->
  exists p', push_load r p v (latest (rb_tail r)) =
    Some (p', if decide (Z.of_nat (H - L) = cap) then Err v else Ok (PWrite v)).
Proof.
  intros I. ring_facts I. unfold push_load. rewrite Itail, latest_hist, load_hist_eq by lia.
  cbn [mbind option_bind p_cached_head p_cached_tail]. rewrite Iph, Icap.
  destruct (full_test _ _ _ _ _ _ L I ltac:(simpl; lia)) as [-> _]. eexists.
  rewrite Nat2Z.inj_sub by lia. by case_decide.
Qed.

Lemma pop_load_latest cap r p c ppc (pushed popped : list T) H L :
  ring_inv cap (mkMachine r p c ppc CLoad) pushed popped H L ->
  exists c', pop_load r c (latest (rb_head r)) =
    Some (c', if decide (H = L) then Err tt else Ok CRead).
Proof.
  intros I. ring_facts I. unfold pop_load. rewrite Ihead, latest_hist, load_hist_eq by lia.
  cbn [mbind option_bind c_cached_head c_cached_tail]. rewrite Ict.
  pose proof (empty_test _ _ _ _ _ _ H I ltac:(lia)) as He. eexists.
  destruct (decide (H = L)); [rewrite decide_True by tauto|rewrite decide_False by tauto]; done.
Qed.

Lemma step_inv cap m e m' (pushed popped : list T) H L :
  ring_inv cap m pushed popped H L -> step m e m' ->
  exists H' L', ring_inv cap m' (pushed ++ pushed_event e) (popped ++ popped_event e) H' L'.
Proof.
  intros I Hst.
  destruct Hst as [r p c cpc v|r p c cpc v k p' pc Hl|r p c cpc v k p' v' Hl|r p c cpc v r' Hw
    |r p c cpc r' p' Hs|r p c ppc|r p c ppc k c' pc Hl|r p c ppc k c' Hl|r p c ppc r' v Hr
    |r p c ppc v r' c' Hs]; cbn [pushed_event popped_event]; rewrite ?app_nil_r.
  - exists H, L. by apply push_begin_inv.
  - exists H, L. exact (push_load_inv _ _ _ _ _ _ _ _ _ _ _ _ _ I Hl).
  - exists H, L. exact (proj1 (push_load_inv _ _ _ _ _ _ _ _ _ _ _ _ _ I Hl)).
  - destruct (push_write_inv _ _ _ _ _ _ _ _ _ _ I) as (i & r1 & E & _ & _ & I').
    simplify_eq. by exists H, L.
  - exists (S H), L. by apply (push_store_inv _ _ _ _ _ _ _ _ _ _ _ I).
  - exists H, L. by apply pop_begin_inv.
  - exists H, L. exact (pop_load_inv _ _ _ _ _ _ _ _ _ _ _ _ I Hl).
  - exists H, L. exact (proj1 (pop_load_inv _ _ _ _ _ _ _ _ _ _ _ _ I Hl)).
  - destruct (pop_read_inv _ _ _ _ _ _ _ _ _ I) as (r1 & v1 & E & _ & I'). simplify_eq. by exists H, L.
  - exists H, (S L). by apply (pop_store_inv _ _ _ _ _ _ _ _ _ _ _ _ I).
Qed.

Lemma reach_inv cap m (pushed popped : list T) :
  cap < 2 ^ 64 -> reach cap m pushed popped -> exists H L, ring_inv cap m pushed popped H L.
Proof.
  intros Hc. induction 1 as [r p c Hr|m e m' pushed popped _ (H & L & I) Hst].
  - exists 0%nat, 0%nat. by apply ring_inv_init.
  - by eapply step_inv.
Qed.

End preservation.
