(* ===== verification/RingThm.v ===== *)
(** * RingThm.v: the correctness of the ring buffer

    For every interleaving of the producer and the consumer, with cursor loads
    that may be stale: first-in-first-out, no slot read uninitialized or
    overwritten while live, no slot touched by both threads at once, and every
    value accounted for when the ring is dropped. *)

From S2P Require Import Prelude.
From S2P Require Import Ring.
From S2P Require Import RingInv.

Section ring.
Context {T : Type}.

(** The window between the cursors. *)
Lemma inv_window cap m (pushed popped : list T) H L :
  ring_inv cap m pushed popped H L ->
  (length popped <= length pushed)%nat /\ Z.of_nat (length pushed) <= Z.of_nat (length popped) + cap.
Proof.
  intros [_ _ _ _ _ _ _ _ _ _ Ho Hw Hr Ha Hp Hq Hf _]. split.
  - rewrite Hf, length_take. lia.
  - destruct (m_ppc m), (m_cpc m); cbn [ppc_extra cpc_extra] in *; lia.
Qed.

Lemma drop_loop_spec cap j r vs lo fuel :
  0 <= j < 64 -> cap = 2 ^ j -> rb_mask r = cap - 1 -> slots_hold (T := T) (rb_buffer r) cap lo vs ->
  Z.of_nat (length vs) <= cap -> (length vs < fuel)%nat ->
  drop_loop fuel r (wrap 64 (Z.of_nat lo)) (wrap 64 (Z.of_nat (lo + length vs))) = Some vs.
Proof.
  intros Hj Hcap. pose proof (cap_range _ _ Hj Hcap) as Hc. revert r vs lo.
  induction fuel as [|fuel IH]; intros r vs lo Hm Hs Hlen Hfuel; [lia|]. cbn [drop_loop].
  destruct vs as [|v vs].
  - rewrite Nat.add_0_r, decide_False by tauto. done.
  - rewrite decide_True.
    2:{ intros E. symmetry in E. apply wrap_eq in E; simpl length in *; lia. }
    assert (Z.land (wrap 64 (Z.of_nat lo)) (rb_mask r) = Z.of_nat lo mod cap) as ->.
    { rewrite Hm, Hcap. apply land_mask. lia. }
    destruct (slots_pop _ _ _ _ _ (proj1 Hc) Hs Hlen) as [Hg Hs']. unfold slot_drop. rewrite Hg.
    cbn [mbind option_bind]. rewrite wrap_succ.
    replace (lo + length (v :: vs))%nat with (S lo + length vs)%nat by (simpl; lia).
    rewrite IH; [done|done|done|simpl length in Hlen; lia|simpl length in Hfuel; lia].
Qed.

(** What is inside the ring. *)
Lemma inv_split cap m (pushed popped : list T) H L :
  ring_inv cap m pushed popped H L -> pushed = popped ++ drop (length popped) pushed.
Proof. intros I. rewrite (ri_fifo _ _ _ _ _ _ I) at 1. symmetry. apply take_drop. Qed.

(** [Drop] with both threads between operations. *)
Lemma drop_ring_inv cap r p c (pushed popped : list T) H L :
  ring_inv cap (mkMachine r p c PIdle CIdle) pushed popped H L ->
  drop_ring r = Some (drop (length popped) pushed).
Proof.
  intros I. pose proof (inv_window _ _ _ _ _ _ I) as Hw.
  destruct (ri_pow _ _ _ _ _ _ I) as (j & Hj & Hcap).
  pose proof (ri_pushed _ _ _ _ _ _ I) as Hp. pose proof (ri_popped _ _ _ _ _ _ I) as Hq.
  simpl in Hp, Hq. rewrite Nat.add_0_r in Hp, Hq.
  unfold drop_ring. rewrite (ri_head _ _ _ _ _ _ I : rb_head r = _), (ri_tail _ _ _ _ _ _ I : rb_tail r = _).
  rewrite !hist_last. rewrite (ri_capacity _ _ _ _ _ _ I : rb_capacity r = cap).
  pose proof (drop_loop_spec cap j r (drop (length popped) pushed) (length popped)
    (S (Z.to_nat cap)) Hj Hcap (ri_mask _ _ _ _ _ _ I) (ri_slots _ _ _ _ _ _ I)) as Hd.
  rewrite length_drop in Hd. rewrite <- Hq.
  replace H with (length popped + (length pushed - length popped))%nat by lia. apply Hd; lia.
Qed.

(** Uninterrupted operations are runs of the machine. *)
Lemma push_runs cap r p c cpc (v : T) pushed popped r' p' res k :
  reach cap (mkMachine r p c PIdle cpc) pushed popped -> push r p v k = Some (r', p', res) ->
  reach cap (mkMachine r' p' c PIdle cpc) (pushed ++ match res with Ok _ => [v] | Err _ => [] end) popped.
Proof.
  intros Hr Hp. unfold push in Hp.
  pose proof (reach_step _ _ _ _ _ _ Hr (step_push_begin r p c cpc v)) as H1.
  cbn [pushed_event popped_event] in H1. rewrite !app_nil_r in H1.
  assert (forall p1, reach cap (mkMachine r p1 c (PWrite v) cpc) pushed popped ->
            (r1 ← push_write r p1 v; let '(r2, p2) := push_store r1 p1 in Some (r2, p2, Ok tt)) = Some (r', p', res) ->
            reach cap (mkMachine r' p' c PIdle cpc) (pushed ++ match res with Ok _ => [v] | Err _ => [] end) popped)
    as Hw.
  { intros p1 Hr1 E. destruct (push_write r p1 v) as [r1|] eqn:Ew; [|done]. cbn [mbind option_bind] in E.
    destruct (push_store r1 p1) as [r2 p2] eqn:Es. simplify_eq.
    pose proof (reach_step _ _ _ _ _ _ Hr1 (step_push_write _ _ _ _ _ _ Ew)) as H2.
    pose proof (reach_step _ _ _ _ _ _ H2 (step_push_store _ _ _ _ _ _ Es)) as H3.
    cbn [pushed_event popped_event] in H3. by rewrite !app_nil_r in H3. }
  unfold push_begin in *. case_decide; cbn [mbind option_bind] in Hp.
  - destruct (push_load r p v k) as [[p1 [pc|v']]|] eqn:El; [| |done]; cbn [mbind option_bind] in Hp.
    + pose proof El as Epc. unfold push_load in Epc.
      destruct (load _ _ _); [|done]. cbn [mbind option_bind] in Epc. case_decide; simplify_eq.
      pose proof (reach_step _ _ _ _ _ _ H1 (step_push_load _ _ _ _ _ _ _ _ El)) as H2.
      cbn [pushed_event popped_event] in H2. rewrite !app_nil_r in H2. by apply (Hw _ H2).
    + simplify_eq. pose proof (reach_step _ _ _ _ _ _ H1 (step_push_full _ _ _ _ _ _ _ _ El)) as H2.
      cbn [pushed_event popped_event] in H2. by rewrite !app_nil_r in *.
  - by apply (Hw _ H1).
Qed.

Lemma pop_runs cap r p c ppc (pushed popped : list T) r' c' res k :
  reach cap (mkMachine r p c ppc CIdle) pushed popped -> pop r c k = Some (r', c', res) ->
  reach cap (mkMachine r' p c' ppc CIdle) pushed (popped ++ match res with Ok v => [v] | Err _ => [] end).
Proof.
  intros Hr Hp. unfold pop in Hp.
  pose proof (reach_step _ _ _ _ _ _ Hr (step_pop_begin r p c ppc)) as H1.
  cbn [pushed_event popped_event] in H1. rewrite !app_nil_r in H1.
  assert (forall c1, reach cap (mkMachine r p c1 ppc CRead) pushed popped ->
            ('(r1, v) ← pop_read r c1; let '(r2, c2) := pop_store r1 c1 in Some (r2, c2, Ok v)) = Some (r', c', res) ->
            reach cap (mkMachine r' p c' ppc CIdle) pushed (popped ++ match res with Ok v => [v] | Err _ => [] end))
    as Hw.
  { intros c1 Hr1 E. destruct (pop_read r c1) as [[r1 v]|] eqn:Ew; [|done]. cbn [mbind option_bind] in E.
    destruct (pop_store r1 c1) as [r2 c2] eqn:Es. simplify_eq.
    pose proof (reach_step _ _ _ _ _ _ Hr1 (step_pop_read _ _ _ _ _ _ Ew)) as H2.
    pose proof (reach_step _ _ _ _ _ _ H2 (step_pop_store _ _ _ _ _ _ _ Es)) as H3.
    cbn [pushed_event popped_event] in H3. by rewrite !app_nil_r in H3. }
  unfold pop_begin in *. case_decide; cbn [mbind option_bind] in Hp.
  - destruct (pop_load r c k) as [[c1 [pc|[]]]|] eqn:El; [| |done]; cbn [mbind option_bind] in Hp.
    + pose proof El as Epc. unfold pop_load in Epc.
      destruct (load _ _ _); [|done]. cbn [mbind option_bind] in Epc. case_decide; simplify_eq.
      pose proof (reach_step _ _ _ _ _ _ H1 (step_pop_load _ _ _ _ _ _ _ El)) as H2.
      cbn [pushed_event popped_event] in H2. rewrite !app_nil_r in H2. by apply (Hw _ H2).
    + simplify_eq. pose proof (reach_step _ _ _ _ _ _ H1 (step_pop_empty _ _ _ _ _ _ El)) as H2.
      cbn [pushed_event popped_event] in H2. by rewrite !app_nil_r in *.
  - by apply (Hw _ H1).
Qed.

Lemma push_quiet cap r p c cpc (v : T) pushed popped H L :
  ring_inv cap (mkMachine r p c PIdle cpc) pushed popped H L -> cpc = CIdle ->
  exists r' p', push r p v (latest (rb_tail r)) =
    Some (r', p', if decide (Z.of_nat (length pushed - length popped) = cap) then Err v else Ok tt).
Proof.
  intros I ->. ring_facts I. rewrite Nat.add_0_r in Ipu, Ipo. rewrite Ipu, Ipo.
  pose proof (push_begin_inv _ _ _ _ _ v _ _ _ _ I) as I1.
  assert (forall p1, ring_inv cap (mkMachine r p1 c (PWrite v) CIdle) pushed popped H L ->
            exists r2 p2, (r1 ← push_write r p1 v; let '(r2, p2) := push_store r1 p1 in
               Some (r2, p2, @Ok unit T tt)) = Some (r2, p2, Ok tt)) as Hwr.
  { intros p1 I2. destruct (push_write_inv _ _ _ _ _ _ _ _ _ _ I2) as (i & r1 & -> & _). simpl. eauto. }
  unfold push. destruct (push_begin r p v) as [|v'|v'|] eqn:Eb.
  - unfold push_begin in Eb. by case_decide.
  - assert (v' = v) as -> by (unfold push_begin in Eb; case_decide; congruence).
    destruct (push_load_latest _ _ _ _ _ _ _ _ _ _ I1) as [p' Hl].
    pose proof (push_load_inv _ _ _ _ _ _ _ _ _ _ _ _ _ I1 Hl) as I2. rewrite Hl.
    case_decide; cbn [mbind option_bind]; [by eexists _, _|by apply Hwr].
  - assert (v' = v) as -> by (unfold push_begin in Eb; case_decide; congruence).
    cbn [mbind option_bind]. rewrite decide_False; [by apply Hwr|].
    pose proof (ri_room _ _ _ _ _ _ I1) as Hr. simpl in Hr. lia.
  - unfold push_begin in Eb. by case_decide.
Qed.

Lemma pop_quiet cap r p c ppc (pushed popped : list T) H L :
  ring_inv cap (mkMachine r p c ppc CIdle) pushed popped H L -> ppc = PIdle ->
  exists r' c', pop r c (latest (rb_head r)) =
    Some (r', c', match drop (length popped) pushed with [] => Err tt | v :: _ => Ok v end).
Proof.
  intros I ->. ring_facts I. rewrite Nat.add_0_r in Ipu, Ipo. rewrite Ipo.
  pose proof (pop_begin_inv _ _ _ _ _ _ _ _ _ I) as I1.
  assert (forall c1, ring_inv cap (mkMachine r p c1 PIdle CRead) pushed popped H L ->
            exists r2 c2, ('(r1, v) ← pop_read r c1; let '(r2, c2) := pop_store r1 c1 in
               Some (r2, c2, @Ok T unit v)) =
               Some (r2, c2, match drop L pushed with [] => Err tt | v :: _ => Ok v end)) as Hwr.
  { intros c1 I2. destruct (pop_read_inv _ _ _ _ _ _ _ _ _ I2) as (r1 & v & -> & Hv & _).
    rewrite (drop_S _ _ _ Hv). simpl. eauto. }
  unfold pop. destruct (pop_begin c) as [| | |v] eqn:Eb.
  - unfold pop_begin in Eb. by case_decide.
  - destruct (pop_load_latest _ _ _ _ _ _ _ _ _ I1) as [c' Hl].
    pose proof (pop_load_inv _ _ _ _ _ _ _ _ _ _ _ _ I1 Hl) as I2. rewrite Hl.
    case_decide as Hd; cbn [mbind option_bind]; [|by apply Hwr].
    rewrite drop_ge by lia. by eexists _, _.
  - cbn [mbind option_bind]. by apply Hwr.
  - unfold pop_begin in Eb. by case_decide.
Qed.

End ring.

(** C7. The ring is a FIFO of bounded capacity under every interleaving: the
    values taken out are a prefix, in order, of the values put in, and at most
    [cap] of them are inside. *)
Theorem ring_fifo (T : Type) cap (m : Machine T) pushed popped :
  cap < 2 ^ 64 -> reach cap m pushed popped ->
  exists inside, pushed = popped ++ inside /\ Z.of_nat (length inside) <= cap.
Proof.
  intros Hc Hr. destruct (reach_inv _ _ _ _ Hc Hr) as (H & L & I).
  exists (drop (length popped) pushed). split.
  - by eapply inv_split.
  - rewrite length_drop. pose proof (inv_window _ _ _ _ _ _ I). lia.
Qed.

(** The unsafe accesses are justified in every reachable state: a producer
    past its check writes a slot in range that holds no live value, a consumer
    past its check reads an initialized slot, namely the oldest value inside,
    and when both are about to access the buffer the slots are different. *)
Theorem ring_accesses_safe (T : Type) cap (m : Machine T) pushed popped :
  cap < 2 ^ 64 -> reach cap m pushed popped ->
  (forall v, m_ppc m = PWrite v -> exists i r', slot (m_ring m) (p_cached_head (m_prod m)) = Some i /\
     vget (rb_buffer (m_ring m)) i = Some None /\ push_write (m_ring m) (m_prod m) v = Some r') /\
  (m_cpc m = CRead -> exists r' v, pop_read (m_ring m) (m_cons m) = Some (r', v) /\
     pushed !! length popped = Some v) /\
  (forall v, m_ppc m = PWrite v -> m_cpc m = CRead ->
     slot (m_ring m) (p_cached_head (m_prod m)) ≠ slot (m_ring m) (c_cached_tail (m_cons m))).
Proof.
  intros Hc Hr. destruct (reach_inv _ _ _ _ Hc Hr) as (H & L & I). destruct m as [r p c ppc cpc]. simpl.
  assert (forall v, ppc = PWrite v -> exists i r', slot r (p_cached_head p) = Some i /\
     vget (rb_buffer r) i = Some None /\ push_write r p v = Some r') as HP.
  { intros v ->. destruct (push_write_inv _ _ _ _ _ _ _ _ _ _ I) as (i & r' & E & Hs & Hn & _). eauto. }
  assert (cpc = CRead -> exists r' v, pop_read r c = Some (r', v) /\ pushed !! length popped = Some v) as HC.
  { intros ->. destruct (pop_read_inv _ _ _ _ _ _ _ _ _ I) as (r' & v & E & Hv & _).
    pose proof (ri_popped _ _ _ _ _ _ I) as Hq. simpl in Hq. rewrite Nat.add_0_r in Hq. rewrite Hq. eauto. }
  split; [done|]. split; [done|]. intros v Hw Hrd E.
  destruct (HP v Hw) as (i & _ & Hs & Hn & _). destruct (HC Hrd) as (r' & x & Hx & _).
  unfold pop_read in Hx. rewrite <- E, Hs in Hx. cbn [mbind option_bind] in Hx.
  unfold slot_read in Hx. by rewrite Hn in Hx.
Qed.

(** Dropping the ring when both threads are done drops exactly the values
    that were pushed and not popped, each once, and touches no uninitialized
    slot. *)
Theorem ring_drop_exact (T : Type) cap r p c (pushed popped : list T) :
  cap < 2 ^ 64 -> reach cap (mkMachine r p c PIdle CIdle) pushed popped ->
  exists vs, drop_ring r = Some vs /\ pushed = popped ++ vs.
Proof.
  intros Hc Hr. destruct (reach_inv _ _ _ _ Hc Hr) as (H & L & I).
  exists (drop (length popped) pushed). split; [by eapply drop_ring_inv|by eapply inv_split].
Qed.

(** On a quiet ring [push] with an up-to-date load behaves as the bounded
    queue: it returns [Full] with the value exactly when [cap] values are
    inside, and otherwise puts the value at the end; it always returns. *)
Theorem push_bounded_queue (T : Type) cap r p c (v : T) pushed popped :
  cap < 2 ^ 64 -> reach cap (mkMachine r p c PIdle CIdle) pushed popped ->
  exists r' p', push r p v (latest (rb_tail r)) =
      Some (r', p', if decide (Z.of_nat (length pushed - length popped) = cap) then Err v else Ok tt) /\
    reach cap (mkMachine r' p' c PIdle CIdle)
      (pushed ++ if decide (Z.of_nat (length pushed - length popped) = cap) then [] else [v]) popped.
Proof.
  intros Hc Hr. destruct (reach_inv _ _ _ _ Hc Hr) as (H & L & I).
  assert (exists r' p', push r p v (latest (rb_tail r)) =
      Some (r', p', if decide (Z.of_nat (length pushed - length popped) = cap) then Err v else Ok tt)) as (r' & p' & E).
  2:{ exists r', p'. split; [done|]. pose proof (push_runs _ _ _ _ _ _ _ _ _ _ _ _ Hr E) as H1. by case_decide. }
  by apply (push_quiet cap r p c CIdle v pushed popped H L I).
Qed.

(** On a quiet ring [pop] with an up-to-date load returns [Empty] exactly
    when the ring is empty, and otherwise the oldest value, which leaves the
    ring; it always returns. *)
Theorem pop_bounded_queue (T : Type) cap r p c (pushed popped : list T) :
  cap < 2 ^ 64 -> reach cap (mkMachine r p c PIdle CIdle) pushed popped ->
  exists r' c', pop r c (latest (rb_head r)) =
      Some (r', c', match drop (length popped) pushed with [] => Err tt | v :: _ => Ok v end) /\
    reach cap (mkMachine r' p c' PIdle CIdle) pushed
      (popped ++ match drop (length popped) pushed with [] => [] | v :: _ => [v] end).
Proof.
  intros Hc Hr. destruct (reach_inv _ _ _ _ Hc Hr) as (H & L & I).
  destruct (pop_quiet cap r p c PIdle pushed popped H L I eq_refl) as (r' & c' & E).
  exists r', c'. split; [done|]. pose proof (pop_runs _ _ _ _ _ _ _ _ _ _ _ Hr E) as H1.
  by destruct (drop _ _).
Qed.

(** ** Witnesses *)

Definition demo_ring : RingBufferInner Z := mkInner [None; None] 2 1 (atomic_new 0) (atomic_new 0).

Lemma demo_ring_start : reach 2 (mkMachine demo_ring (mkProducer 0 0 0) (mkConsumer 0 0 0) PIdle CIdle) [] [].
Proof. constructor. reflexivity. Qed.

(** After one push of 7. *)
Definition demo_ring1 : RingBufferInner Z := mkInner [Some 7; None] 2 1 (mkAtomic [0; 1]) (atomic_new 0).

Lemma demo_ring_one : reach 2 (mkMachine demo_ring1 (mkProducer 1 0 0) (mkConsumer 0 0 0) PIdle CIdle) [7] [].
Proof.
  exact (push_runs 2 demo_ring (mkProducer 0 0 0) (mkConsumer 0 0 0) CIdle 7 [] [] demo_ring1
           (mkProducer 1 0 0) (Ok tt) 0 demo_ring_start eq_refl).
Qed.

Lemma ring_fifo_witness : exists inside : list Z, [7] = [] ++ inside /\ Z.of_nat (length inside) <= 2.
Proof. exact (ring_fifo Z 2 _ [7] [] ltac:(lia) demo_ring_one). Defined.

(** A consumer about to read while the producer is about to write. *)
Lemma ring_accesses_safe_witness :
  exists m : Machine Z, reach 2 m [7] [] /\ m_ppc m = PWrite 8 /\ m_cpc m = CRead /\
    slot (m_ring m) (p_cached_head (m_prod m)) ≠ slot (m_ring m) (c_cached_tail (m_cons m)).
Proof.
  set (m := mkMachine demo_ring1 (mkProducer 1 0 0) (mkConsumer 0 1 1) (PWrite 8) CRead).
  assert (reach 2 m [7] []) as Hm.
  { pose proof (reach_step 2 _ _ _ _ _ demo_ring_one (step_push_begin _ _ _ _ 8)) as H1.
    pose proof (reach_step 2 _ _ _ _ _ H1 (step_pop_begin _ _ _ _)) as H2.
    exact (reach_step 2 _ _ _ _ _ H2 (step_pop_load demo_ring1 _ (mkConsumer 0 0 0) _ 1 (mkConsumer 0 1 1) CRead eq_refl)). }
  exists m. split; [exact Hm|]. split; [reflexivity|]. split; [reflexivity|].
  exact (proj2 (proj2 (ring_accesses_safe Z 2 m [7] [] ltac:(lia) Hm)) 8 eq_refl eq_refl).
Defined.

Lemma ring_drop_exact_witness : exists vs, drop_ring demo_ring1 = Some vs /\ [7] = [] ++ vs.
Proof. exact (ring_drop_exact Z 2 _ _ _ [7] [] ltac:(lia) demo_ring_one). Defined.

Lemma push_bounded_queue_witness :
  exists r' p', push demo_ring1 (mkProducer 1 0 0) 8 0 = Some (r', p', Ok tt) /\
    reach 2 (mkMachine r' p' (mkConsumer 0 0 0) PIdle CIdle) [7; 8] [].
Proof. exact (push_bounded_queue Z 2 _ _ _ 8 [7] [] ltac:(lia) demo_ring_one). Defined.

Lemma pop_bounded_queue_witness :
  exists r' c', pop demo_ring1 (mkConsumer 0 0 0) 1 = Some (r', c', Ok 7) /\
    reach 2 (mkMachine r' (mkProducer 1 0 0) c' PIdle CIdle) [7] [7].
Proof. exact (pop_bounded_queue Z 2 _ _ _ [7] [] ltac:(lia) demo_ring_one). Defined.
