(* ===== verification/RingTests.v ===== *)
(** * RingTests.v: the unit tests of [src/ring.rs]

    The single-threaded tests run on the model: a thread that owns both ends
    sees its own latest stores.  The concurrent tests are a transition system
    of their two threads over the shared-memory steps of the ring; whenever
    both loops are through, what was received is what was sent, under every
    interleaving. *)

From S2P Require Import Prelude.
From S2P Require Import Ring.
From S2P Require Import RingInv.
From S2P Require Import RingThm.
From S2P Require Import Testing.

Section tests.
Context {T : Type} `{EqDecision T}.

(** Both handles in one thread. *)
Definition Both : Type := RingBufferInner T * Producer * Consumer.

(** [p.push(v)] and [c.pop()]. *)
Definition do_push (s : Both) (v : T) : option (Both * result unit T) :=
  let '(r, p, c) := s in
  '(r, p, res) ← push r p v (latest (rb_tail r)); Some ((r, p, c), res).
Definition do_pop (s : Both) (_ : unit) : option (Both * result T unit) :=
  let '(r, p, c) := s in
  '(r, c, res) ← pop r c (latest (rb_head r)); Some ((r, p, c), res).

(** [for v in vs { p.push(v).unwrap(); }]. *)
Definition push_all (s : Both) (vs : list T) : option Both :=
  for_each (fun s v => '(s, _) ← call do_push s (Some v); Some s) s vs.

(** [for v in vs { assert_eq!(c.pop().unwrap(), v); }]. *)
Definition expect_all (s : Both) (vs : list T) : option Both :=
  for_each (fun s v => '(s, x) ← call do_pop s (Some tt); assert_eq x v;; Some s) s vs.
End tests.

Definition push_pop_single : option unit :=
  s ← ring_buffer (T := Z) 4;
  '(s, _) ← call do_push s (Some 42);
  '(s, x) ← call do_pop s (Some tt);
  assert_eq x 42.

Definition push_pop_fifo : option unit :=
  s ← ring_buffer (T := Z) 8;
  s ← push_all s (seqZ 0 8);
  s ← expect_all s (seqZ 0 8);
  Some tt.

Definition full_returns_error : option unit :=
  s ← ring_buffer (T := Z) 4;
  s ← push_all s (seqZ 0 4);
  '(s, err) ← call_err do_push s (Some 99);
  assert_eq err 99.

Definition empty_returns_error : option unit :=
  s ← ring_buffer (T := Z) 4;
  '(s, r) ← do_pop s tt;
  assert_that (negb (is_ok r)).

Definition wraparound : option unit :=
  s ← ring_buffer (T := Z) 4;
  s ← for_each (fun s i =>
        '(s, _) ← call do_push s (Some i);
        '(s, x) ← call do_pop s (Some tt);
        assert_eq x i;;
        Some s) s (seqZ 0 100);
  Some tt.

Definition fill_then_drain : option unit :=
  s ← ring_buffer (T := Z) 8;
  s ← push_all s (seqZ 0 8);
  '(s, r) ← do_push s 99;
  assert_that (negb (is_ok r));;
  s ← expect_all s (seqZ 0 8);
  '(s, r) ← do_pop s tt;
  assert_that (negb (is_ok r));;
  s ← push_all s (seqZ 100 8);
  s ← expect_all s (seqZ 100 8);
  Some tt.

Definition capacity_accessor : option unit :=
  '(r, _, _) ← ring_buffer (T := Z) 16;
  assert_eq (producer_capacity r) 16;;
  assert_eq (consumer_capacity r) 16.

(** [#[should_panic]]: the constructor does not return. *)
Definition zero_capacity_panics : option unit :=
  match ring_buffer (T := Z) 0 with None => Some tt | Some _ => None end.
Definition non_power_of_two_panics : option unit :=
  match ring_buffer (T := Z) 3 with None => Some tt | Some _ => None end.

(** The handles go out of scope with three values inside; each drop of a value
    adds one to the counter. *)
Definition drop_remaining_items : option unit :=
  s ← ring_buffer (T := unit) 4;
  s ← push_all s [tt; tt; tt];
  dropped ← drop_ring (fst (fst s));
  assert_eq (length dropped) 3%nat.

Lemma ring_tests_pass :
  suite_passes [push_pop_single; push_pop_fifo; full_returns_error; empty_returns_error; wraparound;
    fill_then_drain; capacity_accessor; zero_capacity_panics; non_power_of_two_panics; drop_remaining_items].
Proof. run_suite. Qed.

(** ** The concurrent tests *)

Section transfer.
Context {T : Type} (items : list T).

(** The machine, the index of the item the producer is at, and what the
    consumer has received. *)
Record Transfer : Type := mkTransfer { t_machine : Machine T; t_next : nat; t_received : list T }.

(** The steps of the producer thread, [for i in .. { while p.push(i).is_err() {} }],
    and of the consumer thread, [for _ in .. { loop { match c.pop() .. } } }]. *)
Inductive transfer : Transfer -> Transfer -> Prop :=
| tr_push_begin r p c cpc n rs v :
    items !! n = Some v ->
    transfer (mkTransfer (mkMachine r p c PIdle cpc) n rs) (mkTransfer (mkMachine r p c (push_begin r p v) cpc) n rs)
| tr_push_load r p c cpc n rs v k p' pc :
    push_load r p v k = Some (p', Ok pc) ->
    transfer (mkTransfer (mkMachine r p c (PLoad v) cpc) n rs) (mkTransfer (mkMachine r p' c pc cpc) n rs)
| tr_push_full r p c cpc n rs v k p' v' :
    push_load r p v k = Some (p', Err v') ->
    transfer (mkTransfer (mkMachine r p c (PLoad v) cpc) n rs) (mkTransfer (mkMachine r p' c PIdle cpc) n rs)
| tr_push_write r p c cpc n rs v r' :
    push_write r p v = Some r' ->
    transfer (mkTransfer (mkMachine r p c (PWrite v) cpc) n rs) (mkTransfer (mkMachine r' p c PStore cpc) n rs)
| tr_push_store r p c cpc n rs r' p' :
    push_store r p = (r', p') ->
    transfer (mkTransfer (mkMachine r p c PStore cpc) n rs) (mkTransfer (mkMachine r' p' c PIdle cpc) (S n) rs)
| tr_pop_begin r p c ppc n rs :
    (length rs < length items)%nat ->
    transfer (mkTransfer (mkMachine r p c ppc CIdle) n rs) (mkTransfer (mkMachine r p c ppc (pop_begin c)) n rs)
| tr_pop_load r p c ppc n rs k c' pc :
    pop_load r c k = Some (c', Ok pc) ->
    transfer (mkTransfer (mkMachine r p c ppc CLoad) n rs) (mkTransfer (mkMachine r p c' ppc pc) n rs)
| tr_pop_empty r p c ppc n rs k c' :
    pop_load r c k = Some (c', Err tt) ->
    transfer (mkTransfer (mkMachine r p c ppc CLoad) n rs) (mkTransfer (mkMachine r p c' ppc CIdle) n rs)
| tr_pop_read r p c ppc n rs r' v :
    pop_read r c = Some (r', v) ->
    transfer (mkTransfer (mkMachine r p c ppc CRead) n rs) (mkTransfer (mkMachine r' p c ppc (CStore v)) n (rs ++ [v]))
| tr_pop_store r p c ppc n rs v r' c' :
    pop_store r c = (r', c') ->
    transfer (mkTransfer (mkMachine r p c ppc (CStore v)) n rs) (mkTransfer (mkMachine r' p c' ppc CIdle) n rs).

(** The test has come this far. *)
Inductive transferring (capacity : Z) : Transfer -> Prop :=
| transferring_start r p c :
    ring_buffer capacity = Some (r, p, c) -> transferring capacity (mkTransfer (mkMachine r p c PIdle CIdle) 0 [])
| transferring_step t t' : transferring capacity t -> transfer t t' -> transferring capacity t'.

(** The producer has been joined and the consumer has all it waits for. *)
Definition test_over (t : Transfer) : Prop :=
  t_next t = length items /\ length (t_received t) = length items.

(** The machine is reachable, and the values pushed are the first items. *)
Definition sent_prefix (capacity : Z) (t : Transfer) : Prop :=
  exists k, reach capacity (t_machine t) (take k items) (t_received t) /\
    match m_ppc (t_machine t) with
    | PIdle => k = t_next t
    | PLoad v | PWrite v => k = t_next t /\ items !! k = Some v
    | PStore => k = S (t_next t)
    end.

Lemma reach_step' capacity (m : Machine T) e m' pushed popped pushed' popped' :
  reach capacity m pushed popped -> step m e m' ->
  pushed' = pushed ++ pushed_event e -> popped' = popped ++ popped_event e -> reach capacity m' pushed' popped'.
Proof. intros H Hs -> ->. by eapply reach_step. Qed.

Lemma sent_prefix_step capacity t t' : sent_prefix capacity t -> transfer t t' -> sent_prefix capacity t'.
Proof.
  intros (k & Hr & Hk) Ht.
  assert (forall m : list T, m = m ++ []) as Hnil by (intros; by rewrite app_nil_r).
  destruct Ht; cbn [t_machine m_ppc t_next t_received] in *.
  - subst k. exists n. split; [eapply reach_step'; [exact Hr|apply step_push_begin|apply Hnil|apply Hnil]|].
    unfold push_begin. by case_decide.
  - exists k. split; [eapply reach_step'; [exact Hr|by eapply step_push_load|apply Hnil|apply Hnil]|].
    unfold push_load in H. destruct (load _ _ _); [|done]. cbn [mbind option_bind] in H. case_decide; by simplify_eq.
  - exists k. split; [eapply reach_step'; [exact Hr|by eapply step_push_full|apply Hnil|apply Hnil]|apply Hk].
  - destruct Hk as [-> Hv]. exists (S n). split; [|done].
    eapply reach_step'; [exact Hr|by apply step_push_write|by apply take_S_r|apply Hnil].
  - exists k. split; [eapply reach_step'; [exact Hr|by apply step_push_store|apply Hnil|apply Hnil]|done].
  - exists k. split; [eapply reach_step'; [exact Hr|apply step_pop_begin|apply Hnil|apply Hnil]|done].
  - exists k. split; [eapply reach_step'; [exact Hr|by eapply step_pop_load|apply Hnil|apply Hnil]|done].
  - exists k. split; [eapply reach_step'; [exact Hr|by eapply step_pop_empty|apply Hnil|apply Hnil]|done].
  - exists k. split; [eapply reach_step'; [exact Hr|by apply step_pop_read|apply Hnil|done]|done].
  - exists k. split; [eapply reach_step'; [exact Hr|by eapply step_pop_store|apply Hnil|apply Hnil]|done].
Qed.

Lemma transferring_prefix capacity t : transferring capacity t -> sent_prefix capacity t.
Proof.
  induction 1 as [r p c Hb|t t' _ IH Ht]; [|by eapply sent_prefix_step].
  exists 0%nat. split; [by apply reach_init|done].
Qed.

(** At the end of the test the received values are the items, in order. *)
Lemma transfer_exact capacity t :
  capacity < 2 ^ 64 -> transferring capacity t -> test_over t -> t_received t = items.
Proof.
  intros Hc Ht [_ Hlen]. destruct (transferring_prefix _ _ Ht) as (k & Hr & _).
  destruct (reach_inv _ _ _ _ Hc Hr) as (H & L & I). pose proof (inv_split _ _ _ _ _ _ I) as Hs.
  apply (f_equal length) in Hs as Hl. rewrite length_app, length_take in Hl.
  assert (take k items = items) as E by (apply take_ge; lia). rewrite E in Hs.
  assert (drop (length (t_received t)) items = []) as E2 by (apply drop_ge; lia).
  rewrite E2, app_nil_r in Hs. done.
Qed.
End transfer.

(** The values sent by the tests. *)
Definition push_pop_items : list Z := seqZ 0 100000.

Record Payload48 : Type := mkPayload {
  pl_id : Z; pl_trader_id : Z; pl_price : Z; pl_quantity : Z; pl_timestamp : Z; pl_side : Z
}.

Definition payload (i : Z) : Payload48 :=
  mkPayload i (i mod 100) (10000 + i mod 500) (i mod 1000 + 1) (i * 1000) (i mod 2).

Definition concurrent_push_pop (t : Transfer) : Prop := transferring push_pop_items 1024 t /\ test_over push_pop_items t.
Definition concurrent_backpressure (t : Transfer) : Prop := transferring push_pop_items 16 t /\ test_over push_pop_items t.
Definition concurrent_order_struct (t : Transfer) : Prop :=
  transferring (payload <$> seqZ 0 10000) 256 t /\ test_over (payload <$> seqZ 0 10000) t.

(** Their assertions. *)
Lemma concurrent_tests_pass :
  (forall t, concurrent_push_pop t \/ concurrent_backpressure t -> t_received t = push_pop_items) /\
  (forall t i order, concurrent_order_struct t -> t_received t !! i = Some order -> order = payload (Z.of_nat i)).
Proof.
  split.
  - intros t [[Ht Ho]|[Ht Ho]]; eapply transfer_exact; eauto; lia.
  - intros t i order [Ht Ho]. rewrite (transfer_exact _ 256 t ltac:(lia) Ht Ho).
    rewrite list_lookup_fmap. intros (x & Hx & ->)%fmap_Some. apply lookup_seqZ in Hx as [-> _]. f_equal.
Qed.

(** The end is reached on a small run: one value through a ring of two. *)
Example transfer_ends : exists t, transferring [7] 2 t /\ test_over [7] t /\ t_received t = [7].
Proof.
  pose proof (transferring_start [7] 2 (mkInner [None; None] 2 1 (atomic_new 0) (atomic_new 0))
    (mkProducer 0 0 0) (mkConsumer 0 0 0) eq_refl) as H0.
  eassert (transferring [7] 2 _) as H1 by (eapply transferring_step; [exact H0|by eapply (tr_push_begin [7] _ _ _ _ 0)]).
  eassert (transferring [7] 2 _) as H2 by (eapply transferring_step; [exact H1|by eapply tr_push_write]).
  eassert (transferring [7] 2 _) as H3 by (eapply transferring_step; [exact H2|by eapply tr_push_store]).
  eassert (transferring [7] 2 _) as H4 by (eapply transferring_step; [exact H3|eapply tr_pop_begin; simpl; lia]).
  eassert (transferring [7] 2 _) as H5
    by (eapply transferring_step; [exact H4|by eapply (tr_pop_load [7] _ _ _ _ _ _ 1)]).
  eassert (transferring [7] 2 _) as H6 by (eapply transferring_step; [exact H5|by eapply tr_pop_read]).
  eassert (transferring [7] 2 _) as H7 by (eapply transferring_step; [exact H6|by eapply tr_pop_store]).
  eexists. split; [exact H7|]. repeat split.
Qed.
