(* ===== verification/RingModel.v ===== *)
(** * RingModel.v: the ring against a bounded deque ([tests/ring_model.rs]) and the
    loom test ([tests/loom_ring.rs])

    The model-based test drives both ends of a ring from one thread next to a
    [VecDeque]; it passes for every capacity and every sequence of operations.
    The loom test runs the two threads; its assertions hold whatever the
    interleaving and the stale cursors, without a bound on preemptions. *)

From S2P Require Import Prelude.
From S2P Require Import Ring.
From S2P Require Import RingInv.
From S2P Require Import RingThm.
From S2P Require Import Testing.
From S2P Require Import RingTests.

(** ** [ring_matches_bounded_deque] *)

Inductive RingOp : Type :=
| OpPush (v : Z)
| OpPop.

Definition ring_op (capacity : Z) (s : Both (T := Z) * list Z) (op : RingOp) : option (Both (T := Z) * list Z) :=
  let '(ends, model) := s in
  match op with
  | OpPush v =>
      '(ends, result) ← do_push ends v;
      if decide (Z.of_nat (length model) = capacity) then
        assert_eq (match result with Err full => Some full | Ok _ => None end) (Some v);;
        Some (ends, model)
      else
        assert_that (is_ok result);;
        Some (ends, model ++ [v])
  | OpPop =>
      '(ends, result) ← do_pop ends tt;
      assert_eq (match result with Ok v => Some v | Err _ => None end) (head model);;
      Some (ends, tail model)
  end.

(** The rest of the model is popped in order, and then nothing. *)
Definition drain_model (ends : Both (T := Z)) (model : list Z) : option Both :=
  for_each (fun ends expected =>
    '(ends, result) ← do_pop ends tt;
    assert_eq (match result with Ok v => Some v | Err _ => None end) (Some expected);;
    Some ends) ends model.

Definition ring_matches_bounded_deque (capacity_log2 : Z) (ops : list RingOp) : option unit :=
  let capacity := Z.shiftl 1 capacity_log2 in
  ends ← ring_buffer (T := Z) capacity;
  '(ends, model) ← for_each (ring_op capacity) (ends, []) ops;
  ends ← drain_model ends model;
  '(_, result) ← do_pop ends tt;
  assert_that (negb (is_ok result)).

(** The two ends hold exactly [model]. *)
Definition holding (cap : Z) (ends : Both (T := Z)) (model : list Z) : Prop :=
  let '(r, p, c) := ends in
  exists pushed popped, reach cap (mkMachine r p c PIdle CIdle) pushed popped /\ pushed = popped ++ model.

Lemma holding_push cap ends model v :
  cap < 2 ^ 64 -> holding cap ends model ->
  exists ends', do_push ends v = Some (ends', if decide (Z.of_nat (length model) = cap) then Err v else Ok tt) /\
    holding cap ends' (if decide (Z.of_nat (length model) = cap) then model else model ++ [v]).
Proof.
  intros Hc. destruct ends as [[r p] c]. intros (pushed & popped & Hr & ->).
  destruct (push_bounded_queue Z cap r p c v _ popped Hc Hr) as (r' & p' & E & Hr').
  rewrite length_app in E, Hr'. replace (length popped + length model - length popped)%nat with (length model) in * by lia.
  unfold do_push. rewrite E. cbn [mbind option_bind]. eexists. split; [done|].
  exists ((popped ++ model) ++ if decide (Z.of_nat (length model) = cap) then [] else [v]), popped.
  split; [done|]. case_decide; rewrite ?app_nil_r; [done|by rewrite app_assoc].
Qed.

Lemma holding_pop cap ends model :
  cap < 2 ^ 64 -> holding cap ends model ->
  exists ends', do_pop ends tt = Some (ends', match model with [] => Err tt | v :: _ => Ok v end) /\
    holding cap ends' (tail model).
Proof.
  intros Hc. destruct ends as [[r p] c]. intros (pushed & popped & Hr & ->).
  destruct (pop_bounded_queue Z cap r p c _ popped Hc Hr) as (r' & c' & E & Hr').
  rewrite drop_app_length in E, Hr'. unfold do_pop. rewrite E. cbn [mbind option_bind]. eexists. split; [done|].
  exists (popped ++ model), (popped ++ match model with [] => [] | v :: _ => [v] end).
  split; [done|]. destruct model; simpl; [by rewrite !app_nil_r|by rewrite <- app_assoc].
Qed.

Lemma ring_ops_pass cap ops ends model :
  cap < 2 ^ 64 -> holding cap ends model ->
  exists ends' model', for_each (ring_op cap) (ends, model) ops = Some (ends', model') /\ holding cap ends' model'.
Proof.
  intros Hc. revert ends model. induction ops as [|[v|] ops IH]; intros ends model Hh; [by exists ends, model| |].
  - destruct (holding_push cap ends model v Hc Hh) as (ends' & E & Hh'). cbn [for_each ring_op]. rewrite E.
    cbn [mbind option_bind]. destruct (decide (Z.of_nat (length model) = cap)).
    + rewrite assert_eq_seq by done. cbn [mbind option_bind]. by apply IH.
    + cbn [is_ok assert_that mbind option_bind]. by apply IH.
  - destruct (holding_pop cap ends model Hc Hh) as (ends' & E & Hh'). cbn [for_each ring_op]. rewrite E.
    cbn [mbind option_bind]. rewrite assert_eq_seq by (by destruct model). cbn [mbind option_bind]. by apply IH.
Qed.

Lemma drain_model_passes cap ends model :
  cap < 2 ^ 64 -> holding cap ends model ->
  exists ends', drain_model ends model = Some ends' /\ holding cap ends' [].
Proof.
  intros Hc. unfold drain_model. revert ends. induction model as [|v model IH]; intros ends Hh; [by exists ends|].
  destruct (holding_pop cap ends (v :: model) Hc Hh) as (ends' & E & Hh'). cbn [for_each]. rewrite E.
  cbn [mbind option_bind]. rewrite assert_eq_seq by done. cbn [mbind option_bind]. by apply IH.
Qed.

Lemma is_power_of_two_pow k : 0 <= k -> is_power_of_two (2 ^ k) = true.
Proof.
  intros Hk. unfold is_power_of_two. rewrite Z.sub_1_r, <- Z.ones_equiv, Z.land_ones, Z.mod_same by lia.
  by rewrite bool_decide_true by lia.
Qed.

(** C20. The ring is a bounded deque: for every power-of-two capacity below 2^64
    and every sequence of pushes and pops, [Full] and [Empty] are reported
    exactly when the deque is full or empty, a refused value is handed back, and
    the values come out in the order they went in. *)
Theorem ring_is_bounded_deque capacity_log2 ops :
  0 <= capacity_log2 < 64 -> ring_matches_bounded_deque capacity_log2 ops = Some tt.
Proof.
  intros Hl. unfold ring_matches_bounded_deque. rewrite Z.shiftl_mul_pow2, Z.mul_1_l by lia.
  set (cap := 2 ^ capacity_log2). assert (0 < cap < 2 ^ 64) as Hc.
  { split; [apply Z.pow_pos_nonneg; lia|apply Z.pow_lt_mono_r; lia]. }
  assert (is_power_of_two cap = true) as Hp by (apply is_power_of_two_pow; lia).
  destruct (ring_buffer (T := Z) cap) as [[[r p] c]|] eqn:Er.
  2:{ unfold ring_buffer in Er. rewrite Hp, decide_True in Er by lia. done. }
  cbn [mbind option_bind].
  assert (holding cap (r, p, c) []) as Hh by (exists [], []; split; [by apply reach_init|done]).
  destruct (ring_ops_pass cap ops _ _ ltac:(lia) Hh) as (ends & model & -> & Hh1). cbn [mbind option_bind].
  destruct (drain_model_passes cap ends model ltac:(lia) Hh1) as (ends2 & -> & Hh2). cbn [mbind option_bind].
  destruct (holding_pop cap ends2 [] ltac:(lia) Hh2) as (ends3 & -> & _). reflexivity.
Qed.

Lemma ring_is_bounded_deque_witness :
  ring_matches_bounded_deque 1 [OpPush 5; OpPush 6; OpPush 7; OpPop; OpPush 8; OpPop; OpPop; OpPop; OpPush 9] = Some tt.
Proof. apply ring_is_bounded_deque. lia. Defined.

(** ** [spsc_fifo] *)

(** The state after the producer was joined and the consumer's last pop has
    returned. *)
Definition spsc_fifo (capacity : Z) (count : Z) (t : Transfer (T := Z)) : Prop :=
  transferring (seqZ 0 count) capacity t /\ test_over (seqZ 0 count) t /\
  m_ppc (t_machine t) = PIdle /\ m_cpc (t_machine t) = CIdle.

(** Its assertions: value number [next] is [next], and the ring is empty. *)
Lemma spsc_fifo_passes capacity count t :
  capacity < 2 ^ 64 -> spsc_fifo capacity count t ->
  (forall next v, t_received t !! next = Some v -> v = Z.of_nat next) /\
  exists ends, do_pop (m_ring (t_machine t), m_prod (t_machine t), m_cons (t_machine t)) tt = Some (ends, Err tt).
Proof.
  intros Hc (Ht & Ho & Hp & Hq). pose proof (transfer_exact _ _ _ Hc Ht Ho) as E. split.
  - intros next v. rewrite E. intros [-> _]%lookup_seqZ. lia.
  - destruct (transferring_prefix _ _ _ Ht) as (k & Hr & Hk). rewrite Hp in Hk. subst k.
    destruct (t_machine t) as [r p c ppc cpc]. cbn [m_ring m_prod m_cons m_ppc m_cpc] in *. subst ppc cpc.
    rewrite (proj1 Ho), firstn_all, E in Hr.
    destruct (holding_pop capacity (r, p, c) [] Hc) as (ends & -> & _); [|by exists ends].
    exists (seqZ 0 count), (seqZ 0 count). by rewrite app_nil_r.
Qed.
