(* ===== verification/RingMem.v ===== *)
(** * RingMem.v: the ring under the C11 memory model ([src/ring.rs])

    [Ring] lets the threads interleave at every access but keeps the slots
    sequentially consistent.  Here happens-before is explicit, the way the
    model checker behind [cfg(loom)] tracks it: every thread has a vector clock,
    a store publishes the clock of its thread if its ordering releases, a load
    takes over the clock of the store it reads from if its ordering acquires,
    and an access to a slot ([UnsafeCell]) that is not ordered after a
    conflicting earlier one is a data race, that is undefined behaviour, and
    has no result.  The orderings are those [STORE_ORDER] and [LOAD_ORDER] choose
    from the [cfg] flags of the build.

    The handles share the ring through an [Arc]; the one dropped last runs the
    [Drop] of the ring, in its own thread. *)

From S2P Require Import Prelude.
From S2P Require Import Ring.

(** ** Orderings and build flags *)

Inductive Ordering : Type := Relaxed | Release | Acquire | SeqCst.

#[global] Instance Ordering_eq_dec : EqDecision Ordering.
Proof. solve_decision. Defined.

Record Cfg : Type := mkCfg {
  ring_relaxed_ordering : bool;
  ring_seqcst : bool;
  ring_no_cursor_cache : bool;
  loom : bool;
  ring_allow_unsound : bool
}.

(** No flag set: the shipped build. *)
Definition default_cfg : Cfg := mkCfg false false false false false.

(** The [compile_error] that refuses relaxed orderings outside experiments. *)
Definition compiles (cfg : Cfg) : bool :=
  negb (ring_relaxed_ordering cfg && negb (loom cfg) && negb (ring_allow_unsound cfg)).

Definition STORE_ORDER (cfg : Cfg) : Ordering :=
  if ring_relaxed_ordering cfg then Relaxed
  else if ring_seqcst cfg then SeqCst
  else Release.

Definition LOAD_ORDER (cfg : Cfg) : Ordering :=
  if ring_relaxed_ordering cfg then Relaxed
  else if ring_seqcst cfg then SeqCst
  else Acquire.

(** ** Vector clocks of the two threads *)

Record Clock : Type := mkClock { ck_producer : nat; ck_consumer : nat }.

Definition clock0 : Clock := mkClock 0 0.
Definition clock_join (a b : Clock) : Clock :=
  mkClock (ck_producer a `max` ck_producer b) (ck_consumer a `max` ck_consumer b).
Definition clock_le (a b : Clock) : Prop :=
  (ck_producer a <= ck_producer b)%nat /\ (ck_consumer a <= ck_consumer b)%nat.

#[global] Instance clock_le_dec a b : Decision (clock_le a b).
Proof. unfold clock_le. apply _. Defined.

Definition tick_producer (c : Clock) : Clock := mkClock (S (ck_producer c)) (ck_consumer c).
Definition tick_consumer (c : Clock) : Clock := mkClock (ck_producer c) (S (ck_consumer c)).

(** A store: when it happened, and the clock it releases. *)
Record Msg : Type := mkMsg { msg_at : Clock; msg_rel : Clock }.

Definition store_msg (o : Ordering) (c : Clock) : Msg :=
  mkMsg c (match o with Release | SeqCst => c | _ => clock0 end).

(** The clock of a thread after a load of [msg]. *)
Definition load_clock (o : Ordering) (c : Clock) (msg : Msg) : Clock :=
  match o with Acquire | SeqCst => clock_join c (msg_rel msg) | _ => c end.

(** Whether a load may return position [k]: no later store happened before the
    load, and a [SeqCst] load (all accesses to the cursor are then [SeqCst])
    returns the last store. *)
Definition visible (o : Ordering) (h : list Msg) (c : Clock) (k : nat) : bool :=
  bool_decide (Forall (fun m => ~ clock_le (msg_at m) c) (drop (S k) h)) &&
  (if decide (o = SeqCst) then bool_decide (S k = length h) else true).

(** ** Slots: the clocks of the accesses so far *)

Record CellClock : Type := mkCell { cell_writes : Clock; cell_reads : Clock }.

(** [UnsafeCell::with_mut]: after all earlier accesses, or a race. *)
Definition track_write (c : Clock) (x : CellClock) : option CellClock :=
  if decide (clock_le (cell_writes x) c /\ clock_le (cell_reads x) c)
  then Some (mkCell c (cell_reads x)) else None.

(** [UnsafeCell::with]: after all earlier writes, or a race. *)
Definition track_read (c : Clock) (x : CellClock) : option CellClock :=
  if decide (clock_le (cell_writes x) c)
  then Some (mkCell (cell_writes x) (clock_join (cell_reads x) c)) else None.

(** ** The happens-before state next to the ring *)

Record Clocks : Type := mkClocks {
  k_head : list Msg;          (* the stores to [head], next to its history *)
  k_tail : list Msg;
  k_cells : list CellClock;
  k_producer : Clock;
  k_consumer : Clock
}.

Definition clocks_new (capacity : Z) : Clocks :=
  mkClocks [mkMsg clock0 clock0] [mkMsg clock0 clock0]
           (replicate (Z.to_nat capacity) (mkCell clock0 clock0)) clock0 clock0.

(** [tail.load(LOAD_ORDER)] by the producer. *)
Definition hb_push_load (cfg : Cfg) (s : Clocks) (k : nat) : option Clocks :=
  msg ← k_tail s !! k;
  if visible (LOAD_ORDER cfg) (k_tail s) (k_producer s) k
  then Some (mkClocks (k_head s) (k_tail s) (k_cells s)
               (load_clock (LOAD_ORDER cfg) (k_producer s) msg) (k_consumer s))
  else None.

(** [slot.write(value)]. *)
Definition hb_push_write (s : Clocks) (i : Z) : option Clocks :=
  let c := tick_producer (k_producer s) in
  x ← vget (k_cells s) i;
  x ← track_write c x;
  Some (mkClocks (k_head s) (k_tail s) (vset (k_cells s) i x) c (k_consumer s)).

(** [head.store(.., STORE_ORDER)]. *)
Definition hb_push_store (cfg : Cfg) (s : Clocks) : Clocks :=
  let c := tick_producer (k_producer s) in
  mkClocks (k_head s ++ [store_msg (STORE_ORDER cfg) c]) (k_tail s) (k_cells s) c (k_consumer s).

(** [head.load(LOAD_ORDER)] by the consumer. *)
Definition hb_pop_load (cfg : Cfg) (s : Clocks) (k : nat) : option Clocks :=
  msg ← k_head s !! k;
  if visible (LOAD_ORDER cfg) (k_head s) (k_consumer s) k
  then Some (mkClocks (k_head s) (k_tail s) (k_cells s)
               (k_producer s) (load_clock (LOAD_ORDER cfg) (k_consumer s) msg))
  else None.

(** [slot.read()]. *)
Definition hb_pop_read (s : Clocks) (i : Z) : option Clocks :=
  let c := tick_consumer (k_consumer s) in
  x ← vget (k_cells s) i;
  x ← track_read c x;
  Some (mkClocks (k_head s) (k_tail s) (vset (k_cells s) i x) (k_producer s) c).

(** [tail.store(.., STORE_ORDER)]. *)
Definition hb_pop_store (cfg : Cfg) (s : Clocks) : Clocks :=
  let c := tick_consumer (k_consumer s) in
  mkClocks (k_head s) (k_tail s ++ [store_msg (STORE_ORDER cfg) c]) (k_cells s) (k_producer s) c.

Section ring.
Context {T : Type}.

(** ** The operations with their effect on the clocks *)

(** The first test of [push], with the knob that always reloads. *)
Definition mem_push_begin (cfg : Cfg) (r : RingBufferInner T) (p : Producer) (value : T) : PPc T :=
  if ring_no_cursor_cache cfg then PLoad value else push_begin r p value.

Definition mem_push_load (cfg : Cfg) (s : Clocks) (r : RingBufferInner T) (p : Producer) (value : T) (k : nat)
  : option (Clocks * Producer * result (PPc T) T) :=
  s ← hb_push_load cfg s k;
  '(p, res) ← push_load r p value k;
  Some (s, p, res).

Definition mem_push_write (s : Clocks) (r : RingBufferInner T) (p : Producer) (value : T)
  : option (Clocks * RingBufferInner T) :=
  i ← slot r (p_cached_head p);
  s ← hb_push_write s i;
  Some (s, slot_write r i value).

Definition mem_pop_begin (cfg : Cfg) (c : Consumer) : CPc T :=
  if ring_no_cursor_cache cfg then CLoad else pop_begin c.

Definition mem_pop_load (cfg : Cfg) (s : Clocks) (r : RingBufferInner T) (c : Consumer) (k : nat)
  : option (Clocks * Consumer * result (CPc T) unit) :=
  s ← hb_pop_load cfg s k;
  '(c, res) ← pop_load r c k;
  Some (s, c, res).

Definition mem_pop_read (s : Clocks) (r : RingBufferInner T) (c : Consumer)
  : option (Clocks * RingBufferInner T * T) :=
  i ← slot r (c_cached_tail c);
  s ← hb_pop_read s i;
  '(r, v) ← slot_read r i;
  Some (s, r, v).

(** ** [Drop for RingBufferInner] in the thread with clock [c] *)

Fixpoint mem_drop_loop (fuel : nat) (c : Clock) (cells : list CellClock) (r : RingBufferInner T) (i head : Z)
  : option (list T) :=
  match fuel with
  | O => None
  | S fuel =>
      if decide (i ≠ head) then
        let index := Z.land i (rb_mask r) in
        x ← vget cells index;
        x ← track_write c x;
        '(r, v) ← slot_drop r index;
        vs ← mem_drop_loop fuel c (vset cells index x) r (wrapping_add i 1) head;
        Some (v :: vs)
      else Some []
  end.

(** The relaxed loads return positions [kh] and [kt] of the cursors. *)
Definition mem_drop_ring (c : Clock) (s : Clocks) (r : RingBufferInner T) (kh kt : nat) : option (list T) :=
  head ← load (rb_head r) 0 kh;
  tail ← load (rb_tail r) 0 kt;
  mem_drop_loop (S (Z.to_nat (rb_capacity r))) c (k_cells s) r tail head.

(** ** [Shared]: the reference count *)

(** The strong count, and the clocks released by the decrements so far. *)
Record Arc : Type := mkArc { arc_strong : nat; arc_clock : Clock }.

(** [drop(ManuallyDrop::take(..))] in a thread with clock [c]: the count goes down;
    [Some c'] if it reached zero, with the clock after the acquire fence. *)
Definition arc_drop (a : Arc) (c : Clock) : Arc * option Clock :=
  let a := mkArc (pred (arc_strong a)) (clock_join (arc_clock a) c) in
  (a, if decide (arc_strong a = 0%nat) then Some (clock_join c (arc_clock a)) else None).

(** ** Runs *)

Record MemRing : Type := mkMem {
  mr_machine : Machine T;
  mr_clocks : Clocks;
  mr_arc : Arc;
  mr_producer_gone : bool;
  mr_consumer_gone : bool;
  mr_drops : list (list T)   (* the values dropped, for each drop of the ring *)
}.

(** [ring_buffer]: two handles. *)
Definition mem_ring_buffer (capacity : Z) : option MemRing :=
  '(r, p, c) ← ring_buffer capacity;
  Some (mkMem (mkMachine r p c PIdle CIdle) (clocks_new capacity) (mkArc 2 clock0) false false []).

(** What the drop of a handle does to the ring: nothing, or its [Drop]. *)
Inductive drop_handle (s : Clocks) (r : RingBufferInner T) (a : Arc) (c : Clock)
  : Arc -> list (list T) -> Prop :=
| drop_handle_shared a' :
    arc_drop a c = (a', None) -> drop_handle s r a c a' []
| drop_handle_last a' c' kh kt vs :
    arc_drop a c = (a', Some c') ->
    visible Relaxed (k_head s) c' kh = true -> visible Relaxed (k_tail s) c' kt = true ->
    mem_drop_ring c' s r kh kt = Some vs ->
    drop_handle s r a c a' [vs].

Inductive mem_step (cfg : Cfg) : MemRing -> option (Event T) -> MemRing -> Prop :=
| mem_step_push_begin r p c cpc v s a cg d :
    mem_step cfg (mkMem (mkMachine r p c PIdle cpc) s a false cg d) None
      (mkMem (mkMachine r p c (mem_push_begin cfg r p v) cpc) s a false cg d)
| mem_step_push_load r p c cpc v k s s' p' pc a pg cg d :
    mem_push_load cfg s r p v k = Some (s', p', Ok pc) ->
    mem_step cfg (mkMem (mkMachine r p c (PLoad v) cpc) s a pg cg d) None
      (mkMem (mkMachine r p' c pc cpc) s' a pg cg d)
| mem_step_push_full r p c cpc v k s s' p' v' a pg cg d :
    mem_push_load cfg s r p v k = Some (s', p', Err v') ->
    mem_step cfg (mkMem (mkMachine r p c (PLoad v) cpc) s a pg cg d) (Some (EFull v'))
      (mkMem (mkMachine r p' c PIdle cpc) s' a pg cg d)
| mem_step_push_write r p c cpc v s s' r' a pg cg d :
    mem_push_write s r p v = Some (s', r') ->
    mem_step cfg (mkMem (mkMachine r p c (PWrite v) cpc) s a pg cg d) (Some (EPushed v))
      (mkMem (mkMachine r' p c PStore cpc) s' a pg cg d)
| mem_step_push_store r p c cpc s r' p' a pg cg d :
    push_store r p = (r', p') ->
    mem_step cfg (mkMem (mkMachine r p c PStore cpc) s a pg cg d) None
      (mkMem (mkMachine r' p' c PIdle cpc) (hb_push_store cfg s) a pg cg d)
| mem_step_pop_begin r p c ppc s a pg d :
    mem_step cfg (mkMem (mkMachine r p c ppc CIdle) s a pg false d) None
      (mkMem (mkMachine r p c ppc (mem_pop_begin cfg c)) s a pg false d)
| mem_step_pop_load r p c ppc k s s' c' pc a pg cg d :
    mem_pop_load cfg s r c k = Some (s', c', Ok pc) ->
    mem_step cfg (mkMem (mkMachine r p c ppc CLoad) s a pg cg d) None
      (mkMem (mkMachine r p c' ppc pc) s' a pg cg d)
| mem_step_pop_empty r p c ppc k s s' c' a pg cg d :
    mem_pop_load cfg s r c k = Some (s', c', Err tt) ->
    mem_step cfg (mkMem (mkMachine r p c ppc CLoad) s a pg cg d) (Some EEmpty)
      (mkMem (mkMachine r p c' ppc CIdle) s' a pg cg d)
| mem_step_pop_read r p c ppc s s' r' v a pg cg d :
    mem_pop_read s r c = Some (s', r', v) ->
    mem_step cfg (mkMem (mkMachine r p c ppc CRead) s a pg cg d) (Some (EPopped v))
      (mkMem (mkMachine r' p c ppc (CStore v)) s' a pg cg d)
| mem_step_pop_store r p c ppc v s r' c' a pg cg d :
    pop_store r c = (r', c') ->
    mem_step cfg (mkMem (mkMachine r p c ppc (CStore v)) s a pg cg d) None
      (mkMem (mkMachine r' p c' ppc CIdle) (hb_pop_store cfg s) a pg cg d)
| mem_step_drop_producer r p c cpc s a a' cg d d' :
    drop_handle s r a (k_producer s) a' d' ->
    mem_step cfg (mkMem (mkMachine r p c PIdle cpc) s a false cg d) None
      (mkMem (mkMachine r p c PIdle cpc) s a' true cg (d ++ d'))
| mem_step_drop_consumer r p c ppc s a a' pg d d' :
    drop_handle s r a (k_consumer s) a' d' ->
    mem_step cfg (mkMem (mkMachine r p c ppc CIdle) s a pg false d) None
      (mkMem (mkMachine r p c ppc CIdle) s a' pg true (d ++ d')).

Inductive mem_reach (cfg : Cfg) (capacity : Z) : MemRing -> list T -> list T -> Prop :=
| mem_reach_init m :
    mem_ring_buffer capacity = Some m -> mem_reach cfg capacity m [] []
| mem_reach_step m e m' pushed popped :
    mem_reach cfg capacity m pushed popped -> mem_step cfg m e m' ->
    mem_reach cfg capacity m' (pushed ++ pushed_event e) (popped ++ popped_event e).

End ring.
Arguments MemRing : clear implicits.
