(* ===== verification/RingMemInv.v ===== *)
(** * RingMemInv.v: happens-before in the ring

    With orderings that release and acquire, the clock of each thread covers
    what the cursor value it has seen stands for: the producer knows of every
    read up to its cached tail, the consumer of every write up to its cached
    head.  Together with the window of [RingInv] this orders every access to a
    slot after the conflicting ones. *)

From S2P Require Import Prelude.
From S2P Require Import Ring.
From S2P Require Import RingInv.
From S2P Require Import RingThm.
From S2P Require Import RingMem.

(** ** Clocks *)

#[export] Instance clock_le_preorder : PreOrder clock_le.
Proof. split; unfold clock_le; [intros ?|intros ???]; lia. Qed.

Lemma clock_le_join_l a b : clock_le a (clock_join a b).
Proof. unfold clock_le, clock_join; simpl; lia. Qed.
Lemma clock_le_join_r a b : clock_le b (clock_join a b).
Proof. unfold clock_le, clock_join; simpl; lia. Qed.
Lemma clock_join_lub a b c : clock_le a c -> clock_le b c -> clock_le (clock_join a b) c.
Proof. unfold clock_le, clock_join; simpl; lia. Qed.
Lemma clock_le_tick_producer c : clock_le c (tick_producer c).
Proof. unfold clock_le; simpl; lia. Qed.
Lemma clock_le_tick_consumer c : clock_le c (tick_consumer c).
Proof. unfold clock_le; simpl; lia. Qed.
Lemma clock0_le c : clock_le clock0 c.
Proof. unfold clock_le; simpl; lia. Qed.
#[export] Hint Resolve clock_le_join_l clock_le_join_r clock_join_lub clock_le_tick_producer
  clock_le_tick_consumer clock0_le : ferrox.

Lemma store_msg_releases cfg c :
  ring_relaxed_ordering cfg = false -> store_msg (STORE_ORDER cfg) c = mkMsg c c.
Proof. intros E. unfold store_msg, STORE_ORDER. rewrite E. by destruct (ring_seqcst cfg). Qed.

Lemma load_clock_acquires cfg c msg :
  ring_relaxed_ordering cfg = false -> load_clock (LOAD_ORDER cfg) c msg = clock_join c (msg_rel msg).
Proof. intros E. unfold load_clock, LOAD_ORDER. rewrite E. by destruct (ring_seqcst cfg). Qed.

(** A thread that is after every store sees only the last. *)
Lemma visible_all h c k :
  (forall j m, h !! j = Some m -> clock_le (msg_at m) c) -> (k < length h)%nat ->
  visible Relaxed h c k = true <-> S k = length h.
Proof.
  intros Hall Hk. unfold visible. rewrite decide_False by done. rewrite andb_true_r, bool_decide_eq_true. split.
  - intros HF. destruct (decide (S k = length h)) as [|Hne]; [done|exfalso].
    destruct (lookup_lt_is_Some_2 h (S k) ltac:(lia)) as [m Hm].
    rewrite (drop_S _ _ _ Hm) in HF. apply Forall_inv in HF. by apply HF, (Hall _ _ Hm).
  - intros E. rewrite drop_ge by lia. constructor.
Qed.

(** The last store can always be read. *)
Lemma visible_latest o h c k : S k = length h -> visible o h c k = true.
Proof.
  intros E. unfold visible. rewrite drop_ge by lia. rewrite bool_decide_eq_true_2 by constructor.
  case_decide; [|done]. by apply bool_decide_eq_true_2.
Qed.

(** ** The invariant *)

(** The last access to a cell, in the component of the thread that does this
    kind of access, was for a position of this cell below [n]. *)
Definition for_position (cap i : Z) (n e : nat) : Prop :=
  e = 0%nat \/ exists q, (q < n)%nat /\ Z.of_nat q mod cap = i /\ (e <= 2 * q + 1)%nat.

Lemma for_position_mono cap i n n' e : (n <= n')%nat -> for_position cap i n e -> for_position cap i n' e.
Proof. intros ? [|(q & ? & ? & ?)]; [by left|right]. exists q. split; [lia|done]. Qed.
#[export] Hint Resolve for_position_mono : ferrox.

Section inv.
Context {T : Type}.

Record hb_inv (cap : Z) (m : Machine T) (H L : nat) (s : Clocks) : Prop := {
  hb_head_len : length (k_head s) = S H;
  hb_tail_len : length (k_tail s) = S L;
  hb_cells_len : zlen (k_cells s) = cap;
  hb_producer_own : ck_producer (k_producer s) = (2 * H + ppc_extra (m_ppc m))%nat;
  hb_consumer_own : ck_consumer (k_consumer s) = (2 * L + cpc_extra (m_cpc m))%nat;
  hb_producer_knows : (2 * p_seen (m_prod m) <= ck_consumer (k_producer s) <= ck_consumer (k_consumer s))%nat;
  hb_consumer_knows : (2 * c_seen (m_cons m) <= ck_producer (k_consumer s) <= ck_producer (k_producer s))%nat;
  hb_heads : forall k msg, k_head s !! k = Some msg ->
    clock_le (msg_at msg) (k_producer s) /\ msg_rel msg = msg_at msg /\ ck_producer (msg_at msg) = (2 * k)%nat;
  hb_tails : forall k msg, k_tail s !! k = Some msg ->
    clock_le (msg_at msg) (k_consumer s) /\ msg_rel msg = msg_at msg /\ ck_consumer (msg_at msg) = (2 * k)%nat;
  hb_cells : forall i x, vget (k_cells s) i = Some x ->
    clock_le (cell_writes x) (k_producer s) /\ clock_le (cell_reads x) (k_consumer s) /\
    for_position cap i (H + ppc_extra (m_ppc m)) (ck_producer (cell_writes x)) /\
    for_position cap i (L + cpc_extra (m_cpc m)) (ck_consumer (cell_reads x))
}.

(** Split the invariant of the next state. *)
Ltac hb_split I :=
  destruct I; split; cbn [k_head k_tail k_cells k_producer k_consumer m_ring m_prod m_cons m_ppc m_cpc
    p_seen c_seen ppc_extra cpc_extra ck_producer ck_consumer tick_producer tick_consumer clock_join] in *;
  try done; try lia.

Lemma hb_inv_init cap r p c :
  0 <= cap -> p_seen p = 0%nat -> c_seen c = 0%nat ->
  hb_inv cap (mkMachine r p c (PIdle (T := T)) CIdle) 0 0 (clocks_new cap).
Proof.
  intros Hc Hp Hq. split; simpl; try done; try lia.
  - rewrite zlen_replicate. lia.
  - intros [|k] msg E; simplify_eq/=. done.
  - intros [|k] msg E; simplify_eq/=. done.
  - intros i x. unfold vget. case_decide; [|done]. intros [-> _]%lookup_replicate. simpl.
    split; [done|]. split; [done|]. split; by left.
Qed.

(** Positions of the program that leave the counters alone. *)
Lemma hb_inv_pc cap r p c ppc ppc' cpc cpc' H L s :
  hb_inv cap (mkMachine (T := T) r p c ppc cpc) H L s ->
  ppc_extra ppc' = ppc_extra ppc -> cpc_extra cpc' = cpc_extra cpc ->
  hb_inv cap (mkMachine r p c ppc' cpc') H L s.
Proof. intros I E1 E2. destruct I; split; cbn in *; rewrite ?E1, ?E2; done. Qed.

Lemma hb_push_load_inv cfg cap r p c v cpc pc H L s s' k t :
  ring_relaxed_ordering cfg = false ->
  hb_inv cap (mkMachine (T := T) r p c (PLoad v) cpc) H L s -> hb_push_load cfg s k = Some s' ->
  ppc_extra pc = 0%nat ->
  hb_inv cap (mkMachine r (mkProducer (p_cached_head p) t k) c pc cpc) H L s'.
Proof.
  intros Hcfg I E Hpc. unfold hb_push_load in E. destruct (k_tail s !! k) as [msg|] eqn:Hm; [|done].
  cbn [mbind option_bind] in E. destruct (visible _ _ _ _); [|done]. simplify_eq.
  rewrite load_clock_acquires by done. destruct (hb_tails _ _ _ _ _ I _ _ Hm) as ([Ha1 Ha2] & Hr & Hk).
  rewrite Hr. hb_split I; rewrite ?Hpc; try done; try lia.
  - intros j m (Hle & ?)%hb_heads0. split; [|done]. etrans; eauto with ferrox.
  - intros i x (Hw & ? & ? & ?)%hb_cells0. split; [|done]. etrans; eauto with ferrox.
Qed.

Lemma hb_pop_load_inv cfg cap r p c ppc pc H L s s' k t :
  ring_relaxed_ordering cfg = false ->
  hb_inv cap (mkMachine (T := T) r p c ppc CLoad) H L s -> hb_pop_load cfg s k = Some s' ->
  cpc_extra pc = 0%nat ->
  hb_inv cap (mkMachine r p (mkConsumer (c_cached_tail c) t k) ppc pc) H L s'.
Proof.
  intros Hcfg I E Hpc. unfold hb_pop_load in E. destruct (k_head s !! k) as [msg|] eqn:Hm; [|done].
  cbn [mbind option_bind] in E. destruct (visible _ _ _ _); [|done]. simplify_eq.
  rewrite load_clock_acquires by done. destruct (hb_heads _ _ _ _ _ I _ _ Hm) as ([Ha1 Ha2] & Hr & Hk).
  rewrite Hr. hb_split I; rewrite ?Hpc; try done; try lia.
  - intros j m (Hle & ?)%hb_tails0. split; [|done]. etrans; eauto with ferrox.
  - intros i x (? & Hw & ? & ?)%hb_cells0. split; [done|]. split; [|done]. etrans; eauto with ferrox.
Qed.

(** A cell after an access to one of the cells. *)
Lemma cell_after cells i j (x y : CellClock) z :
  vget cells i = Some x -> vget (vset cells i y) j = Some z -> (j = i /\ z = y) \/ vget cells j = Some z.
Proof.
  intros Hx Hz. destruct (decide (i = j)) as [<-|Hne].
  - rewrite (vget_vset_eq _ _ _ _ Hx) in Hz. simplify_eq. by left.
  - rewrite vget_vset_ne in Hz by done. by right.
Qed.

Lemma hb_cell cap (m : Machine T) H L s i :
  hb_inv cap m H L s -> 0 <= i < cap -> exists x, vget (k_cells s) i = Some x.
Proof.
  intros I Hi. pose proof (hb_cells_len _ _ _ _ _ I) as Hl. unfold zlen in Hl. unfold vget. rewrite decide_True by lia.
  apply lookup_lt_is_Some_2. lia.
Qed.

(** The producer's write of position [H] comes after every access to its slot. *)
Lemma hb_push_write_inv cap r p c cpc v r' H L s :
  0 < cap -> Z.of_nat H < Z.of_nat (p_seen p) + cap -> (L <= H)%nat ->
  hb_inv cap (mkMachine (T := T) r p c (PWrite v) cpc) H L s ->
  (L + cpc_extra cpc <= H)%nat ->
  exists s', hb_push_write s (Z.of_nat H mod cap) = Some s' /\
    hb_inv cap (mkMachine r' p c PStore cpc) H L s'.
Proof.
  intros Hc Hroom HLH I Hpop. assert (0 <= Z.of_nat H mod cap < cap) as Hi by (apply Z.mod_pos_bound; lia).
  destruct (hb_cell _ _ _ _ _ _ I Hi) as [x Hx].
  destruct (hb_cells _ _ _ _ _ I _ _ Hx) as (Hw & Hr & HW & HR). simpl in HW, HR.
  pose proof (hb_consumer_knows _ _ _ _ _ I) as HC. pose proof (hb_producer_knows _ _ _ _ _ I) as HP. simpl in HC, HP.
  assert (clock_le (cell_reads x) (k_producer s)) as Hr'.
  { split; [destruct Hr; lia|]. destruct HR as [->|(q & Hq & Hqi & Hqe)]; [lia|].
    (* a read of this slot was of a position at least [cap] below [H] *)
    assert (Z.of_nat q <= Z.of_nat H - cap); [|lia].
    destruct (decide (Z.of_nat q <= Z.of_nat H - cap)) as [|Hn]; [done|exfalso].
    apply window_inj in Hqi; lia. }
  unfold hb_push_write. rewrite Hx. cbn [mbind option_bind]. unfold track_write.
  rewrite decide_True by (split; etrans; eauto with ferrox). cbn [mbind option_bind].
  eexists. split; [done|]. hb_split I.
  - unfold zlen in *. by rewrite length_vset.
  - intros j m (Hle & ?)%hb_heads0. split; [|done]. etrans; eauto with ferrox.
  - intros j z Hz. destruct (cell_after _ _ _ _ _ _ Hx Hz) as [[-> ->]|(? & ? & ? & ?)%hb_cells0]; simpl.
    + split; [done|]. split; [done|]. split; [|done]. right. exists H. split; [lia|]. split; [done|].
      rewrite hb_producer_own0. lia.
    + split; [etrans; eauto with ferrox|]. split; [done|]. split; [|done].
      eapply for_position_mono; [|done]. lia.
Qed.

(** The consumer's read of position [L] comes after the write of its slot. *)
Lemma hb_pop_read_inv cap r p c ppc v r' H L s :
  0 < cap -> (L < c_seen c)%nat -> Z.of_nat (H + ppc_extra ppc) <= Z.of_nat L + cap ->
  hb_inv cap (mkMachine (T := T) r p c ppc CRead) H L s ->
  exists s', hb_pop_read s (Z.of_nat L mod cap) = Some s' /\
    hb_inv cap (mkMachine r' p c ppc (CStore v)) H L s'.
Proof.
  intros Hc Hav Hwin I. assert (0 <= Z.of_nat L mod cap < cap) as Hi by (apply Z.mod_pos_bound; lia).
  destruct (hb_cell _ _ _ _ _ _ I Hi) as [x Hx].
  destruct (hb_cells _ _ _ _ _ I _ _ Hx) as (Hw & Hr & HW & HR). simpl in HW, HR.
  pose proof (hb_consumer_knows _ _ _ _ _ I) as HC. pose proof (hb_producer_knows _ _ _ _ _ I) as HP. simpl in HC, HP.
  assert (clock_le (cell_writes x) (k_consumer s)) as Hw'.
  { split; [|destruct Hw; lia]. destruct HW as [->|(q & Hq & Hqi & Hqe)]; [lia|].
    (* a write of this slot was of position [L] or an older one *)
    assert (q <= L)%nat; [|lia].
    destruct (decide (q <= L)%nat) as [|Hn]; [done|exfalso].
    apply window_inj in Hqi; lia. }
  unfold hb_pop_read. rewrite Hx. cbn [mbind option_bind]. unfold track_read.
  rewrite decide_True by (etrans; eauto with ferrox). cbn [mbind option_bind].
  eexists. split; [done|]. hb_split I.
  - unfold zlen in *. by rewrite length_vset.
  - intros j m (Hle & ?)%hb_tails0. split; [|done]. etrans; eauto with ferrox.
  - intros j z Hz. destruct (cell_after _ _ _ _ _ _ Hx Hz) as [[-> ->]|(? & ? & ? & ?)%hb_cells0].
    + cbn [cell_writes cell_reads]. split; [done|]. split.
      { apply clock_join_lub; [|done]. etrans; eauto with ferrox. }
      split; [done|]. right. exists L. split; [lia|]. split; [done|].
      destruct Hr as [_ Hr]. simpl in *. lia.
    + split; [done|]. split; [etrans; eauto with ferrox|]. split; [done|].
      eapply for_position_mono; [|done]. lia.
Qed.

Lemma hb_push_store_inv cfg cap r p c cpc r' p' H L s :
  ring_relaxed_ordering cfg = false -> p_seen p' = p_seen p ->
  hb_inv cap (mkMachine (T := T) r p c PStore cpc) H L s ->
  hb_inv cap (mkMachine r' p' c PIdle cpc) (S H) L (hb_push_store cfg s).
Proof.
  intros Hcfg Hp I. unfold hb_push_store. rewrite store_msg_releases by done. hb_split I.
  - rewrite length_app, hb_head_len0. simpl. lia.
  - intros k msg [Hk|[Hk Hm]]%lookup_app_Some.
    + destruct (hb_heads0 _ _ Hk) as (? & ?). split; [|done]. etrans; eauto with ferrox.
    + destruct (k - length (k_head s))%nat as [|?] eqn:E; simplify_eq/=. split; [done|]. split; [done|]. lia.
  - intros i x (? & ? & ? & ?)%hb_cells0. split; [etrans; eauto with ferrox|]. split; [done|]. split; [|done].
    eapply for_position_mono; [|done]. lia.
Qed.

Lemma hb_pop_store_inv cfg cap r p c ppc v r' c' H L s :
  ring_relaxed_ordering cfg = false -> c_seen c' = c_seen c ->
  hb_inv cap (mkMachine (T := T) r p c ppc (CStore v)) H L s ->
  hb_inv cap (mkMachine r' p c' ppc CIdle) H (S L) (hb_pop_store cfg s).
Proof.
  intros Hcfg Hp I. unfold hb_pop_store. rewrite store_msg_releases by done. hb_split I.
  - rewrite length_app, hb_tail_len0. simpl. lia.
  - intros k msg [Hk|[Hk Hm]]%lookup_app_Some.
    + destruct (hb_tails0 _ _ Hk) as (? & ?). split; [|done]. etrans; eauto with ferrox.
    + destruct (k - length (k_tail s))%nat as [|?] eqn:E; simplify_eq/=. split; [done|]. split; [done|]. lia.
  - intros i x (? & ? & ? & ?)%hb_cells0. split; [done|]. split; [etrans; eauto with ferrox|]. split; [done|].
    eapply for_position_mono; [|done]. lia.
Qed.

End inv.
