(* ===== verification/RingMemThm.v ===== *)
(** * RingMemThm.v: the ring is free of data races

    For every interleaving and every choice of the values the cursor loads may
    return under the C11 memory model, with the orderings of the build: no slot
    access races, no stale or uninitialized slot is read, the ring is freed
    exactly once.  With [ring_relaxed_ordering] there is a racy run. *)

From S2P Require Import Prelude.
From S2P Require Import Ring.
From S2P Require Import RingInv.
From S2P Require Import RingThm.
From S2P Require Import RingMem.
From S2P Require Import RingMemInv.

Section mem.
Context {T : Type}.

(** ** [Drop] under exclusive access *)

(** Every access so far happened before [c]. *)
Definition cells_before (cells : list CellClock) (c : Clock) : Prop :=
  forall i x, vget cells i = Some x -> clock_le (cell_writes x) c /\ clock_le (cell_reads x) c.

Lemma vget_same_length {A B} (l : list A) (k : list B) i x :
  length l = length k -> vget l i = Some x -> is_Some (vget k i).
Proof.
  unfold vget. case_decide; [|done]. intros E Hx%lookup_lt_Some. apply lookup_lt_is_Some_2. lia.
Qed.

Lemma mem_drop_loop_eq fuel c cells (r : RingBufferInner T) i head vs :
  cells_before cells c -> length (rb_buffer r) = length cells -> drop_loop fuel r i head = Some vs ->
  mem_drop_loop fuel c cells r i head = Some vs.
Proof.
  revert cells r i vs. induction fuel as [|fuel IH]; intros cells r i vs Hb Hl; [done|].
  cbn [drop_loop mem_drop_loop]. case_decide; [|done].
  destruct (slot_drop r _) as [[r' v]|] eqn:Es; [|done]. cbn [mbind option_bind].
  destruct (drop_loop fuel r' _ _) as [vs'|] eqn:Ed; [|done]. cbn [mbind option_bind]. intros [= <-].
  assert (exists o, vget (rb_buffer r) (Z.land i (rb_mask r)) = Some o /\ length (rb_buffer r') = length (rb_buffer r))
    as (o & Ho & Hl').
  { unfold slot_drop in Es. destruct (vget (rb_buffer r) _) as [[x|]|] eqn:E; simplify_eq/=.
    exists (Some v). by rewrite length_vset. }
  destruct (vget_same_length _ _ _ _ Hl Ho) as [x Hx]. destruct (Hb _ _ Hx) as [Hw Hr].
  rewrite Hx. cbn [mbind option_bind]. unfold track_write at 1. rewrite decide_True by done.
  cbn [mbind option_bind]. rewrite (IH _ r' _ vs'); [done| |by rewrite length_vset, Hl'|done].
  intros j z Hz. destruct (cell_after _ _ _ _ _ _ Hx Hz) as [[-> ->]|Hz']; [by split|by apply (Hb j)].
Qed.

(** The relaxed loads of [Drop] return the final cursors, and the drop is exact. *)
Lemma mem_drop_exact cap r p c (pushed popped : list T) H L s ck kh kt :
  ring_inv cap (mkMachine r p c PIdle CIdle) pushed popped H L ->
  hb_inv cap (mkMachine r p c PIdle CIdle) H L s ->
  clock_le (k_producer s) ck -> clock_le (k_consumer s) ck ->
  (kh < length (k_head s))%nat -> (kt < length (k_tail s))%nat ->
  visible Relaxed (k_head s) ck kh = true -> visible Relaxed (k_tail s) ck kt = true ->
  kh = H /\ kt = L /\ mem_drop_ring ck s r kh kt = Some (drop (length popped) pushed).
Proof.
  intros I B Hp Hc Hkh Hkt Vh Vt. pose proof (drop_ring_inv _ _ _ _ _ _ _ _ I) as Hd.
  pose proof (ri_head _ _ _ _ _ _ I : rb_head r = _) as Ehead. pose proof (ri_tail _ _ _ _ _ _ I : rb_tail r = _) as Etail.
  apply visible_all in Vh; [|intros j m (? & _)%(hb_heads _ _ _ _ _ B); by etrans|done].
  apply visible_all in Vt; [|intros j m (? & _)%(hb_tails _ _ _ _ _ B); by etrans|done].
  rewrite (hb_head_len _ _ _ _ _ B) in Vh. rewrite (hb_tail_len _ _ _ _ _ B) in Vt.
  assert (kh = H) as -> by lia. assert (kt = L) as -> by lia. split; [done|]. split; [done|].
  unfold mem_drop_ring. rewrite Ehead, Etail, !load_hist_eq by lia. cbn [mbind option_bind].
  unfold drop_ring in Hd. rewrite Ehead, Etail, !hist_last in Hd.
  apply mem_drop_loop_eq; [|  |done].
  - intros i x (? & ? & _)%(hb_cells _ _ _ _ _ B). split; by etrans.
  - pose proof (hb_cells_len _ _ _ _ _ B) as Hl. pose proof (ri_len _ _ _ _ _ _ I) as Hl'. unfold zlen in *. simpl in *. lia.
Qed.

(** ** The invariant of a run *)

Definition handles (pg cg : bool) : nat := (if pg then 0 else 1) + (if cg then 0 else 1).

Record mem_inv (cap : Z) (m : MemRing T) (pushed popped : list T) (H L : nat) : Prop := {
  mi_ring : ring_inv cap (mr_machine m) pushed popped H L;
  mi_hb : hb_inv cap (mr_machine m) H L (mr_clocks m);
  mi_producer_gone : mr_producer_gone m = true ->
    m_ppc (mr_machine m) = PIdle /\ clock_le (k_producer (mr_clocks m)) (arc_clock (mr_arc m));
  mi_consumer_gone : mr_consumer_gone m = true ->
    m_cpc (mr_machine m) = CIdle /\ clock_le (k_consumer (mr_clocks m)) (arc_clock (mr_arc m));
  mi_strong : arc_strong (mr_arc m) = handles (mr_producer_gone m) (mr_consumer_gone m);
  mi_drops : mr_drops m =
    if mr_producer_gone m && mr_consumer_gone m then [drop (length popped) pushed] else []
}.

Lemma mem_inv_init cap m :
  cap < 2 ^ 64 -> mem_ring_buffer (T := T) cap = Some m -> mem_inv cap m [] [] 0 0.
Proof.
  intros Hc. unfold mem_ring_buffer. destruct (ring_buffer cap) as [[[r p] c]|] eqn:E; [|done].
  intros [= <-]. pose proof (ring_inv_init _ _ _ _ Hc E) as I.
  assert (0 <= cap /\ p_seen p = 0%nat /\ c_seen c = 0%nat) as (Hpos & Hp & Hq).
  { unfold ring_buffer in E. case_decide; [|done]. destruct (is_power_of_two cap); simplify_eq/=. lia. }
  split; simpl; try done. by apply hb_inv_init.
Qed.

(** The drop of one handle, the other gone or not. *)
Lemma drop_handle_spec cap r p c cpc ppc (pushed popped : list T) H L s a ck a' d (other : bool) :
  ring_inv cap (mkMachine r p c ppc cpc) pushed popped H L -> hb_inv cap (mkMachine r p c ppc cpc) H L s ->
  drop_handle s r a ck a' d -> arc_strong a = (if other then 1 else 2)%nat ->
  (other = true -> ppc = PIdle /\ cpc = CIdle /\
     clock_le (k_producer s) (clock_join (arc_clock a) ck) /\ clock_le (k_consumer s) (clock_join (arc_clock a) ck)) ->
  arc_strong a' = (if other then 0 else 1)%nat /\ arc_clock a' = clock_join (arc_clock a) ck /\
  d = if other then [drop (length popped) pushed] else [].
Proof.
  intros I B Hd Hs Hother. destruct Hd as [a' E|a' c' kh kt vs E Vh Vt Hv]; unfold arc_drop in E; simpl in E;
    rewrite Hs in E; destruct other; simplify_eq/=; try done.
  destruct (Hother eq_refl) as (-> & -> & Hp & Hc).
  assert (kh < length (k_head s) /\ kt < length (k_tail s))%nat as [Hkh Hkt].
  { unfold mem_drop_ring in Hv. rewrite (ri_head _ _ _ _ _ _ I : rb_head r = _) in Hv.
    rewrite (ri_tail _ _ _ _ _ _ I : rb_tail r = _) in Hv.
    destruct (load (mkAtomic (hist H)) 0 kh) eqn:E1; [|done]. destruct (load (mkAtomic (hist L)) 0 kt) eqn:E2; [|done].
    apply load_hist in E1, E2. rewrite (hb_head_len _ _ _ _ _ B), (hb_tail_len _ _ _ _ _ B). lia. }
  destruct (mem_drop_exact _ _ _ _ _ _ _ _ _ _ _ _ I B
    ltac:(etrans; [exact Hp|apply clock_le_join_r]) ltac:(etrans; [exact Hc|apply clock_le_join_r]) Hkh Hkt Vh Vt)
    as (_ & _ & E). rewrite E in Hv. by simplify_eq.
Qed.

(** ** Preservation *)

Lemma mem_push_begin_inv cfg cap r p c cpc (v : T) pushed popped H L :
  ring_inv cap (mkMachine r p c PIdle cpc) pushed popped H L ->
  ring_inv cap (mkMachine r p c (mem_push_begin cfg r p v) cpc) pushed popped H L.
Proof.
  intros I. unfold mem_push_begin. destruct (ring_no_cursor_cache cfg); [|by apply push_begin_inv].
  ring_split I.
Qed.

Lemma mem_pop_begin_inv cfg cap r p c ppc (pushed popped : list T) H L :
  ring_inv cap (mkMachine r p c ppc CIdle) pushed popped H L ->
  ring_inv cap (mkMachine r p c ppc (mem_pop_begin cfg c)) pushed popped H L.
Proof.
  intros I. unfold mem_pop_begin. destruct (ring_no_cursor_cache cfg); [|by apply pop_begin_inv].
  ring_split I.
Qed.

Lemma mem_push_write_ok cap r p c cpc v (pushed popped : list T) H L s :
  ring_inv cap (mkMachine r p c (PWrite v) cpc) pushed popped H L ->
  hb_inv cap (mkMachine r p c (PWrite v) cpc) H L s ->
  exists s' r', mem_push_write s r p v = Some (s', r') /\ push_write r p v = Some r' /\
    ring_inv cap (mkMachine r' p c PStore cpc) (pushed ++ [v]) popped H L /\
    hb_inv cap (mkMachine r' p c PStore cpc) H L s'.
Proof.
  intros I B. destruct (push_write_inv _ _ _ _ _ _ _ _ _ _ I) as (i & r' & E & Hs & _ & I').
  pose proof (inv_window _ _ _ _ _ _ I) as Hw.
  ring_facts I. destruct Ipow as (j & Hj & Hcap). pose proof (cap_range _ _ Hj Hcap) as Hc.
  pose proof (slot_index _ _ _ _ _ _ H I) as Hs'. cbn [m_ring] in Hs'. rewrite Iph, Hs' in Hs. simplify_eq.
  destruct (hb_push_write_inv (2 ^ j) r p c cpc v r' H L s) as (s' & Es & B'); [lia|done|lia|done|lia|].
  exists s', r'. unfold mem_push_write, push_write in *. rewrite Iph, Hs' in *. cbn [mbind option_bind] in *.
  rewrite Es. cbn [mbind option_bind]. simplify_eq. done.
Qed.

Lemma mem_pop_read_ok cap r p c ppc (pushed popped : list T) H L s :
  ring_inv cap (mkMachine r p c ppc CRead) pushed popped H L ->
  hb_inv cap (mkMachine r p c ppc CRead) H L s ->
  exists s' r' v, mem_pop_read s r c = Some (s', r', v) /\ pop_read r c = Some (r', v) /\
    pushed !! L = Some v /\ ring_inv cap (mkMachine r' p c ppc (CStore v)) pushed (popped ++ [v]) H L /\
    hb_inv cap (mkMachine r' p c ppc (CStore v)) H L s'.
Proof.
  intros I B. destruct (pop_read_inv _ _ _ _ _ _ _ _ _ I) as (r' & v & E & Hv & I').
  pose proof (inv_window _ _ _ _ _ _ I) as Hw.
  ring_facts I. destruct Ipow as (j & Hj & Hcap). pose proof (cap_range _ _ Hj Hcap) as Hc.
  pose proof (slot_index _ _ _ _ _ _ L I) as Hs'. cbn [m_ring] in Hs'.
  destruct (hb_pop_read_inv cap r p c ppc v r' H L s) as (s' & Es & B'); [lia|done|lia|done|].
  exists s', r', v. unfold mem_pop_read, pop_read in *. rewrite Ict, Hs' in *. cbn [mbind option_bind] in *.
  rewrite Es. cbn [mbind option_bind]. rewrite E. done.
Qed.

(** A load by a thread whose handle is alive. *)
Lemma mem_push_load_inv cfg cap r p c cpc v k s s' p' res (pushed popped : list T) H L :
  ring_relaxed_ordering cfg = false ->
  ring_inv cap (mkMachine r p c (PLoad v) cpc) pushed popped H L ->
  hb_inv cap (mkMachine r p c (PLoad v) cpc) H L s ->
  mem_push_load cfg s r p v k = Some (s', p', res) ->
  let pc := match res with Ok pc => pc | Err _ => PIdle end in
  ring_inv cap (mkMachine r p' c pc cpc) pushed popped H L /\
  hb_inv cap (mkMachine r p' c pc cpc) H L s' /\ k_consumer s' = k_consumer s.
Proof.
  intros Hcfg I B E. unfold mem_push_load in E. destruct (hb_push_load cfg s k) as [s1|] eqn:Es; [|done].
  cbn [mbind option_bind] in E. destruct (push_load r p v k) as [[p1 res1]|] eqn:El; [|done]. simplify_eq/=.
  pose proof (push_load_inv _ _ _ _ _ _ _ _ _ _ _ _ _ I El) as I'.
  assert (exists t, p' = mkProducer (p_cached_head p) t k /\
      ppc_extra (match res with Ok pc => pc | Err _ => PIdle end) = 0%nat) as (t & -> & Hx).
  { unfold push_load in El. destruct (load _ _ _) as [t|]; [|done]. cbn [mbind option_bind] in El.
    exists t. case_decide; by simplify_eq. }
  split; [by destruct res as [?|?]; [|destruct I']|]. split; [by eapply hb_push_load_inv|].
  unfold hb_push_load in Es. destruct (k_tail s !! k); [|done]. cbn [mbind option_bind] in Es.
  destruct (visible _ _ _ _); by simplify_eq.
Qed.

Lemma mem_pop_load_inv cfg cap r p c ppc k s s' c' res (pushed popped : list T) H L :
  ring_relaxed_ordering cfg = false ->
  ring_inv cap (mkMachine r p c ppc CLoad) pushed popped H L ->
  hb_inv cap (mkMachine r p c ppc CLoad) H L s ->
  mem_pop_load cfg s r c k = Some (s', c', res) ->
  let pc := match res with Ok pc => pc | Err _ => CIdle end in
  ring_inv cap (mkMachine r p c' ppc pc) pushed popped H L /\
  hb_inv cap (mkMachine r p c' ppc pc) H L s' /\ k_producer s' = k_producer s.
Proof.
  intros Hcfg I B E. unfold mem_pop_load in E. destruct (hb_pop_load cfg s k) as [s1|] eqn:Es; [|done].
  cbn [mbind option_bind] in E. destruct (pop_load r c k) as [[p1 res1]|] eqn:El; [|done]. simplify_eq/=.
  pose proof (pop_load_inv _ _ _ _ _ _ _ _ _ _ _ _ I El) as I'.
  assert (exists t, c' = mkConsumer (c_cached_tail c) t k /\
      cpc_extra (match res with Ok pc => pc | Err _ => CIdle end) = 0%nat) as (t & -> & Hx).
  { unfold pop_load in El. destruct (load _ _ _) as [t|]; [|done]. cbn [mbind option_bind] in El.
    exists t. case_decide; by simplify_eq. }
  split; [by destruct res as [?|?]; [|destruct I']|]. split; [by eapply hb_pop_load_inv|].
  unfold hb_pop_load in Es. destruct (k_head s !! k); [|done]. cbn [mbind option_bind] in Es.
  destruct (visible _ _ _ _); by simplify_eq.
Qed.

(** A step of a thread whose handle is alive leaves the other thread's part. *)
Lemma mem_inv_producer cap r p c ppc cpc s a cg d pushed popped H L r' p' ppc' s' pushed' H' :
  mem_inv cap (mkMem (mkMachine r p c ppc cpc) s a false cg d) pushed popped H L ->
  ring_inv cap (mkMachine r' p' c ppc' cpc) pushed' popped H' L ->
  hb_inv cap (mkMachine r' p' c ppc' cpc) H' L s' -> k_consumer s' = k_consumer s ->
  mem_inv cap (mkMem (mkMachine (T := T) r' p' c ppc' cpc) s' a false cg d) pushed' popped H' L.
Proof. intros M I B E. destruct M; split; cbn in *; try done. by rewrite E. Qed.

Lemma mem_inv_consumer cap r p c ppc cpc s a pg d pushed popped H L r' c' cpc' s' popped' L' :
  mem_inv cap (mkMem (mkMachine r p c ppc cpc) s a pg false d) pushed popped H L ->
  ring_inv cap (mkMachine r' p c' ppc cpc') pushed popped' H L' ->
  hb_inv cap (mkMachine r' p c' ppc cpc') H L' s' -> k_producer s' = k_producer s ->
  mem_inv cap (mkMem (mkMachine (T := T) r' p c' ppc cpc') s' a pg false d) pushed popped' H L'.
Proof.
  intros M I B E. destruct M; split; cbn in *; try done; [by rewrite E|].
  by rewrite andb_false_r in *.
Qed.

Lemma mem_inv_busy_producer cap r p c ppc cpc s a pg cg d (pushed popped : list T) H L :
  mem_inv cap (mkMem (mkMachine r p c ppc cpc) s a pg cg d) pushed popped H L -> ppc ≠ PIdle -> pg = false.
Proof. intros M Hp. destruct pg; [|done]. destruct (mi_producer_gone _ _ _ _ _ _ M eq_refl). done. Qed.

Lemma mem_inv_busy_consumer cap r p c ppc cpc s a pg cg d (pushed popped : list T) H L :
  mem_inv cap (mkMem (mkMachine r p c ppc cpc) s a pg cg d) pushed popped H L -> cpc ≠ CIdle -> cg = false.
Proof. intros M Hp. destruct cg; [|done]. destruct (mi_consumer_gone _ _ _ _ _ _ M eq_refl). done. Qed.

Lemma mem_inv_drop_producer cap r p c cpc s a a' cg d d' (pushed popped : list T) H L :
  mem_inv cap (mkMem (mkMachine r p c PIdle cpc) s a false cg d) pushed popped H L ->
  drop_handle s r a (k_producer s) a' d' ->
  mem_inv cap (mkMem (mkMachine r p c PIdle cpc) s a' true cg (d ++ d')) pushed popped H L.
Proof.
  intros M Hd. pose proof (mi_strong _ _ _ _ _ _ M) as Hs. pose proof (mi_consumer_gone _ _ _ _ _ _ M) as Hcg.
  cbn in Hs, Hcg.
  destruct (drop_handle_spec _ _ _ _ _ _ _ _ _ _ _ _ _ _ _ cg
    (mi_ring _ _ _ _ _ _ M) (mi_hb _ _ _ _ _ _ M) Hd) as (Es & Ec & Ed).
  - by destruct cg.
  - intros ->. destruct (Hcg eq_refl) as [-> Hle]. split; [done|]. split; [done|].
    split; [apply clock_le_join_r|]. etrans; [exact Hle|apply clock_le_join_l].
  - destruct M; split; cbn in *; try done.
    + intros _. split; [done|]. rewrite Ec. apply clock_le_join_r.
    + intros Hg. destruct (Hcg Hg) as [-> Hle]. split; [done|]. rewrite Ec. etrans; [exact Hle|apply clock_le_join_l].
    + subst d d'. by destruct cg.
Qed.

Lemma mem_inv_drop_consumer cap r p c ppc s a a' pg d d' (pushed popped : list T) H L :
  mem_inv cap (mkMem (mkMachine r p c ppc CIdle) s a pg false d) pushed popped H L ->
  drop_handle s r a (k_consumer s) a' d' ->
  mem_inv cap (mkMem (mkMachine r p c ppc CIdle) s a' pg true (d ++ d')) pushed popped H L.
Proof.
  intros M Hd. pose proof (mi_strong _ _ _ _ _ _ M) as Hs. pose proof (mi_producer_gone _ _ _ _ _ _ M) as Hpg.
  cbn in Hs, Hpg.
  destruct (drop_handle_spec _ _ _ _ _ _ _ _ _ _ _ _ _ _ _ pg
    (mi_ring _ _ _ _ _ _ M) (mi_hb _ _ _ _ _ _ M) Hd) as (Es & Ec & Ed).
  - by destruct pg.
  - intros ->. destruct (Hpg eq_refl) as [-> Hle]. split; [done|]. split; [done|].
    split; [|apply clock_le_join_r]. etrans; [exact Hle|apply clock_le_join_l].
  - destruct M; split; cbn in *; try done.
    + intros Hg. destruct (Hpg Hg) as [-> Hle]. split; [done|]. rewrite Ec. etrans; [exact Hle|apply clock_le_join_l].
    + intros _. split; [done|]. rewrite Ec. apply clock_le_join_r.
    + by destruct pg.
    + subst d d'. rewrite andb_false_r. by destruct pg.
Qed.

Lemma mem_step_inv cfg cap m e m' (pushed popped : list T) H L :
  ring_relaxed_ordering cfg = false ->
  mem_inv cap m pushed popped H L -> mem_step cfg m e m' ->
  exists H' L', mem_inv cap m' (pushed ++ pushed_event e) (popped ++ popped_event e) H' L'.
Proof.
  intros Hcfg M Hst. pose proof (mi_ring _ _ _ _ _ _ M) as I. pose proof (mi_hb _ _ _ _ _ _ M) as B.
  destruct Hst as [r p c cpc v s a cg d|r p c cpc v k s s' p' pc a pg cg d E|r p c cpc v k s s' p' v' a pg cg d E
    |r p c cpc v s s' r' a pg cg d E|r p c cpc s r' p' a pg cg d E|r p c ppc s a pg d
    |r p c ppc k s s' c' pc a pg cg d E|r p c ppc k s s' c' a pg cg d E|r p c ppc s s' r' v a pg cg d E
    |r p c ppc v s r' c' a pg cg d E|r p c cpc s a a' cg d d' E|r p c ppc s a a' pg d d' E];
    cbn [pushed_event popped_event mr_machine mr_clocks] in *; rewrite ?app_nil_r;
    try (assert (pg = false) as -> by (by eapply mem_inv_busy_producer));
    try (assert (cg = false) as -> by (by eapply mem_inv_busy_consumer)).
  - exists H, L. eapply mem_inv_producer; [exact M|by apply mem_push_begin_inv| |done].
    eapply hb_inv_pc; [exact B| |done]. unfold mem_push_begin, push_begin.
    destruct (ring_no_cursor_cache cfg); [done|]. by case_decide.
  - exists H, L. destruct (mem_push_load_inv _ _ _ _ _ _ _ _ _ _ _ _ _ _ _ _ Hcfg I B E) as (I' & B' & Ec).
    by eapply mem_inv_producer.
  - exists H, L. destruct (mem_push_load_inv _ _ _ _ _ _ _ _ _ _ _ _ _ _ _ _ Hcfg I B E) as (I' & B' & Ec).
    by eapply mem_inv_producer.
  - exists H, L. destruct (mem_push_write_ok _ _ _ _ _ _ _ _ _ _ _ I B) as (s1 & r1 & E1 & _ & I' & B').
    simplify_eq. eapply mem_inv_producer; [exact M|done|done|].
    unfold mem_push_write in E. destruct (slot r _); [|done]. cbn [mbind option_bind] in E.
    unfold hb_push_write in E. destruct (vget _ _); [|done]. cbn [mbind option_bind] in E.
    destruct (track_write _ _); by simplify_eq/=.
  - exists (S H), L. eapply mem_inv_producer; [exact M|by eapply push_store_inv| |done].
    eapply hb_push_store_inv; [done| |exact B]. unfold push_store in E. by simplify_eq.
  - exists H, L. eapply mem_inv_consumer; [exact M|by apply mem_pop_begin_inv| |done].
    eapply hb_inv_pc; [exact B|done|]. unfold mem_pop_begin, pop_begin.
    destruct (ring_no_cursor_cache cfg); [done|]. by case_decide.
  - exists H, L. destruct (mem_pop_load_inv _ _ _ _ _ _ _ _ _ _ _ _ _ _ _ Hcfg I B E) as (I' & B' & Ec).
    by eapply mem_inv_consumer.
  - exists H, L. destruct (mem_pop_load_inv _ _ _ _ _ _ _ _ _ _ _ _ _ _ _ Hcfg I B E) as (I' & B' & Ec).
    by eapply mem_inv_consumer.
  - exists H, L. destruct (mem_pop_read_ok _ _ _ _ _ _ _ _ _ _ I B) as (s1 & r1 & v1 & E1 & _ & _ & I' & B').
    simplify_eq. eapply mem_inv_consumer; [exact M|done|done|].
    unfold mem_pop_read in E. destruct (slot r _); [|done]. cbn [mbind option_bind] in E.
    unfold hb_pop_read in E. destruct (vget _ _); [|done]. cbn [mbind option_bind] in E.
    destruct (track_read _ _); [|done]. cbn [mbind option_bind] in E.
    destruct (slot_read _ _) as [[? ?]|]; by simplify_eq/=.
  - exists H, (S L). eapply mem_inv_consumer; [exact M|by eapply pop_store_inv| |done].
    eapply hb_pop_store_inv; [done| |exact B]. unfold pop_store in E. by simplify_eq.
  - exists H, L. by eapply mem_inv_drop_producer.
  - exists H, L. by eapply mem_inv_drop_consumer.
Qed.

Lemma mem_reach_inv cfg cap m (pushed popped : list T) :
  ring_relaxed_ordering cfg = false -> cap < 2 ^ 64 -> mem_reach cfg cap m pushed popped ->
  exists H L, mem_inv cap m pushed popped H L.
Proof.
  intros Hcfg Hc. induction 1 as [m Hm|m e m' pushed popped _ (H & L & I) Hst].
  - exists 0%nat, 0%nat. by apply mem_inv_init.
  - by eapply mem_step_inv.
Qed.

(** A thread with clock [ck] that drops the last handle: whatever its relaxed
    loads can return, they return the final cursors, and it drops exactly what
    is inside. *)
Definition last_drop_ok (m : MemRing T) (ck : Clock) (pushed popped : list T) : Prop :=
  forall a' c' kh kt, arc_drop (mr_arc m) ck = (a', Some c') ->
    is_Some (k_head (mr_clocks m) !! kh) -> is_Some (k_tail (mr_clocks m) !! kt) ->
    visible Relaxed (k_head (mr_clocks m)) c' kh = true -> visible Relaxed (k_tail (mr_clocks m)) c' kt = true ->
    kh = latest (rb_head (m_ring (mr_machine m))) /\ kt = latest (rb_tail (m_ring (mr_machine m))) /\
    exists vs, mem_drop_ring c' (mr_clocks m) (m_ring (mr_machine m)) kh kt = Some vs /\ pushed = popped ++ vs.

Lemma mem_inv_last_drop cap m ck (pushed popped : list T) H L :
  mem_inv cap m pushed popped H L -> m_ppc (mr_machine m) = PIdle -> m_cpc (mr_machine m) = CIdle ->
  clock_le (k_producer (mr_clocks m)) (clock_join (arc_clock (mr_arc m)) ck) ->
  clock_le (k_consumer (mr_clocks m)) (clock_join (arc_clock (mr_arc m)) ck) ->
  last_drop_ok m ck pushed popped.
Proof.
  intros M Hp Hc Hpc Hcc a' c' kh kt Ha Hkh%lookup_lt_is_Some Hkt%lookup_lt_is_Some Vh Vt.
  pose proof (mi_ring _ _ _ _ _ _ M) as I. pose proof (mi_hb _ _ _ _ _ _ M) as B.
  destruct (mr_machine m) as [r p c ppc cpc]. cbn in Hp, Hc. subst ppc cpc.
  assert (c' = clock_join ck (clock_join (arc_clock (mr_arc m)) ck)) as ->.
  { unfold arc_drop in Ha. cbn [arc_strong arc_clock] in Ha. case_decide; by simplify_eq. }
  destruct (mem_drop_exact _ _ _ _ _ _ _ _ _ _ _ _ I B ltac:(etrans; [exact Hpc|apply clock_le_join_r])
    ltac:(etrans; [exact Hcc|apply clock_le_join_r]) Hkh Hkt Vh Vt) as (-> & -> & E).
  cbn [m_ring]. rewrite (ri_head _ _ _ _ _ _ I : rb_head r = _), (ri_tail _ _ _ _ _ _ I : rb_tail r = _), !latest_hist.
  split; [done|]. split; [done|]. eexists. split; [exact E|]. by eapply inv_split.
Qed.

(** The newest value of a cursor can always be loaded. *)
Lemma mem_push_load_latest cfg cap r p c cpc v s (pushed popped : list T) H L :
  ring_inv cap (mkMachine r p c (PLoad v) cpc) pushed popped H L ->
  hb_inv cap (mkMachine r p c (PLoad v) cpc) H L s ->
  is_Some (mem_push_load cfg s r p v (latest (rb_tail r))).
Proof.
  intros I B. destruct (push_load_latest _ _ _ _ _ _ _ _ _ _ I) as [p' Hl]. ring_facts I.
  rewrite Itail, latest_hist in *. pose proof (hb_tail_len _ _ _ _ _ B) as Hlen.
  unfold mem_push_load, hb_push_load. destruct (lookup_lt_is_Some_2 (k_tail s) L ltac:(lia)) as [msg ->].
  cbn [mbind option_bind]. rewrite visible_latest by done. cbn [mbind option_bind]. rewrite Hl. eauto.
Qed.

Lemma mem_pop_load_latest cfg cap r p c ppc s (pushed popped : list T) H L :
  ring_inv cap (mkMachine r p c ppc CLoad) pushed popped H L ->
  hb_inv cap (mkMachine r p c ppc CLoad) H L s ->
  is_Some (mem_pop_load cfg s r c (latest (rb_head r))).
Proof.
  intros I B. destruct (pop_load_latest _ _ _ _ _ _ _ _ _ I) as [p' Hl]. ring_facts I.
  rewrite Ihead, latest_hist in *. pose proof (hb_head_len _ _ _ _ _ B) as Hlen.
  unfold mem_pop_load, hb_pop_load. destruct (lookup_lt_is_Some_2 (k_head s) H ltac:(lia)) as [msg ->].
  cbn [mbind option_bind]. rewrite visible_latest by done. cbn [mbind option_bind]. rewrite Hl. eauto.
Qed.

(** With the cursor cache a run of this machine is a run of [Ring]'s, where
    slots are sequentially consistent. *)
Lemma mem_reach_refines cfg cap m (pushed popped : list T) :
  ring_no_cursor_cache cfg = false -> mem_reach cfg cap m pushed popped -> reach cap (mr_machine m) pushed popped.
Proof.
  intros Hcfg. induction 1 as [m Hm|m e m' pushed popped _ IH Hst].
  - unfold mem_ring_buffer in Hm. destruct (ring_buffer cap) as [[[r p] c]|] eqn:E; [|done]. simplify_eq/=. by constructor.
  - destruct Hst as [| | | | | | | | | |r p c cpc s a a' cg d d' E|r p c ppc s a a' pg d d' E];
      cbn [mr_machine] in *; try (by rewrite !app_nil_r); (eapply reach_step; [exact IH|]).
    + unfold mem_push_begin. rewrite Hcfg. constructor.
    + unfold mem_push_load in *. destruct (hb_push_load _ _ _); [|done]. cbn [mbind option_bind] in *.
      destruct (push_load _ _ _ _) as [[]|] eqn:E; simplify_eq/=. by econstructor.
    + unfold mem_push_load in *. destruct (hb_push_load _ _ _); [|done]. cbn [mbind option_bind] in *.
      destruct (push_load _ _ _ _) as [[]|] eqn:E; simplify_eq/=. by econstructor.
    + constructor. unfold mem_push_write, push_write in *. destruct (slot r _); [|done]. cbn [mbind option_bind] in *.
      destruct (hb_push_write _ _); by simplify_eq/=.
    + by constructor.
    + unfold mem_pop_begin. rewrite Hcfg. constructor.
    + unfold mem_pop_load in *. destruct (hb_pop_load _ _ _); [|done]. cbn [mbind option_bind] in *.
      destruct (pop_load _ _ _) as [[]|] eqn:E; simplify_eq/=. by econstructor.
    + unfold mem_pop_load in *. destruct (hb_pop_load _ _ _); [|done]. cbn [mbind option_bind] in *.
      destruct (pop_load _ _ _) as [[]|] eqn:E; simplify_eq/=. by econstructor.
    + constructor. unfold mem_pop_read, pop_read in *. destruct (slot r _); [|done]. cbn [mbind option_bind] in *.
      destruct (hb_pop_read _ _); [|done]. cbn [mbind option_bind] in *.
      destruct (slot_read _ _) as [[]|]; by simplify_eq/=.
    + by constructor.
Qed.

End mem.

(** C8. The ring has no data race: with the orderings of every build but the
    unsound experiment, whatever the interleaving, the stale values cursor loads
    return and the cursor-cache setting, a producer past its check writes a
    slot after every earlier access to it, a consumer past its check reads its
    slot after the write of it and gets the oldest value inside, a thread at a
    load can always proceed, and the values taken out are a prefix of the values
    put in with at most [cap] inside. *)
Theorem ring_race_free (T : Type) cfg cap (m : MemRing T) pushed popped :
  ring_relaxed_ordering cfg = false -> cap < 2 ^ 64 -> mem_reach cfg cap m pushed popped ->
  let s := mr_clocks m in
  let r := m_ring (mr_machine m) in
  (forall v, m_ppc (mr_machine m) = PWrite v -> is_Some (mem_push_write s r (m_prod (mr_machine m)) v)) /\
  (m_cpc (mr_machine m) = CRead -> exists s' r' v,
     mem_pop_read s r (m_cons (mr_machine m)) = Some (s', r', v) /\ pushed !! length popped = Some v) /\
  (forall v, m_ppc (mr_machine m) = PLoad v ->
     is_Some (mem_push_load cfg s r (m_prod (mr_machine m)) v (latest (rb_tail r)))) /\
  (m_cpc (mr_machine m) = CLoad -> is_Some (mem_pop_load cfg s r (m_cons (mr_machine m)) (latest (rb_head r)))) /\
  (exists inside, pushed = popped ++ inside /\ Z.of_nat (length inside) <= cap).
Proof.
  intros Hcfg Hc Hr. destruct (mem_reach_inv _ _ _ _ _ Hcfg Hc Hr) as (H & L & M).
  pose proof (mi_ring _ _ _ _ _ _ M) as I. pose proof (mi_hb _ _ _ _ _ _ M) as B.
  destruct (mr_machine m) as [r p c ppc cpc]. cbn [m_ppc m_cpc m_ring m_prod m_cons]. repeat apply conj.
  - intros v ->. destruct (mem_push_write_ok _ _ _ _ _ _ _ _ _ _ _ I B) as (s' & r' & -> & _). eauto.
  - intros ->. destruct (mem_pop_read_ok _ _ _ _ _ _ _ _ _ _ I B) as (s' & r' & v & E & _ & Hv & _).
    pose proof (ri_popped _ _ _ _ _ _ I) as Hq. simpl in Hq. rewrite Nat.add_0_r in Hq. rewrite Hq. eauto.
  - intros v ->. by eapply mem_push_load_latest.
  - intros ->. by eapply mem_pop_load_latest.
  - exists (drop (length popped) pushed). split; [by eapply inv_split|].
    rewrite length_drop. pose proof (inv_window _ _ _ _ _ _ I). lia.
Qed.

(** C16. Reference counting and freeing: the strong count is the number of live
    handles; while one is alive the ring has not been dropped, and once both are
    gone it has been dropped exactly once, releasing exactly the values pushed
    and not popped; whichever thread drops the last handle, its [Relaxed] loads
    of the cursors can only return the final values, and its [Drop] runs without
    a race. *)
Theorem ring_freed_once (T : Type) cfg cap (m : MemRing T) pushed popped :
  ring_relaxed_ordering cfg = false -> cap < 2 ^ 64 -> mem_reach cfg cap m pushed popped ->
  arc_strong (mr_arc m) = handles (mr_producer_gone m) (mr_consumer_gone m) /\
  (if mr_producer_gone m && mr_consumer_gone m
   then exists vs, mr_drops m = [vs] /\ pushed = popped ++ vs
   else mr_drops m = []) /\
  (m_ppc (mr_machine m) = PIdle -> mr_consumer_gone m = true ->
     last_drop_ok m (k_producer (mr_clocks m)) pushed popped) /\
  (m_cpc (mr_machine m) = CIdle -> mr_producer_gone m = true ->
     last_drop_ok m (k_consumer (mr_clocks m)) pushed popped).
Proof.
  intros Hcfg Hc Hr. destruct (mem_reach_inv _ _ _ _ _ Hcfg Hc Hr) as (H & L & M).
  split; [exact (mi_strong _ _ _ _ _ _ M)|]. split; [|split].
  - rewrite (mi_drops _ _ _ _ _ _ M). destruct (_ && _); [|done]. eexists. split; [done|].
    exact (inv_split _ _ _ _ _ _ (mi_ring _ _ _ _ _ _ M)).
  - intros Hpc Hcg. destruct (mi_consumer_gone _ _ _ _ _ _ M Hcg) as [Hcc Hle].
    eapply mem_inv_last_drop; [exact M|done|done|apply clock_le_join_r|].
    etrans; [exact Hle|apply clock_le_join_l].
  - intros Hcc Hpg. destruct (mi_producer_gone _ _ _ _ _ _ M Hpg) as [Hpc Hle].
    eapply mem_inv_last_drop; [exact M|done|done| |apply clock_le_join_r].
    etrans; [exact Hle|apply clock_le_join_l].
Qed.

(** ** Concrete runs *)

(** A run that pushes 7 on a ring of two slots, and whose consumer then loads
    [head]: it has seen the push and is about to read the slot. *)
Definition relaxed_cfg : Cfg := mkCfg true false false true false.

Definition demo_start : MemRing Z :=
  mkMem (mkMachine demo_ring (mkProducer 0 0 0) (mkConsumer 0 0 0) PIdle CIdle) (clocks_new 2) (mkArc 2 clock0) false false [].

Definition demo_clocks (cfg : Cfg) : Clocks :=
  hb_push_store cfg (default (clocks_new 2) (hb_push_write (clocks_new 2) 0)).

(** After the push. *)
Definition demo_pushed (cfg : Cfg) : MemRing Z :=
  mkMem (mkMachine demo_ring1 (mkProducer 1 0 0) (mkConsumer 0 0 0) PIdle CIdle) (demo_clocks cfg) (mkArc 2 clock0) false false [].

(** After the load. *)
Definition demo_seen (cfg : Cfg) : MemRing Z :=
  mkMem (mkMachine demo_ring1 (mkProducer 1 0 0) (mkConsumer 0 1 1) PIdle CRead)
    (default (clocks_new 2) (hb_pop_load cfg (demo_clocks cfg) 1)) (mkArc 2 clock0) false false [].

Lemma demo_pushed_reach cfg : ring_no_cursor_cache cfg = false -> mem_reach cfg 2 (demo_pushed cfg) [7] [].
Proof.
  intros Hn. assert (mem_reach cfg 2 demo_start [] []) as H0 by (constructor; reflexivity).
  pose proof (mem_reach_step _ _ _ _ _ _ _ H0 (mem_step_push_begin cfg _ _ _ _ 7 _ _ _ _)) as H1.
  unfold mem_push_begin in H1. rewrite Hn in H1.
  pose proof (mem_reach_step _ _ _ _ _ _ _ H1 (mem_step_push_write cfg demo_ring (mkProducer 0 0 0)
    (mkConsumer 0 0 0) CIdle 7 (clocks_new 2) (default (clocks_new 2) (hb_push_write (clocks_new 2) 0))
    (slot_write demo_ring 0 7) _ _ _ _ eq_refl)) as H2.
  exact (mem_reach_step _ _ _ _ _ _ _ H2 (mem_step_push_store cfg (slot_write demo_ring 0 7) (mkProducer 0 0 0)
    (mkConsumer 0 0 0) CIdle _ demo_ring1 (mkProducer 1 0 0) _ _ _ _ eq_refl)).
Qed.

Lemma demo_seen_reach cfg :
  ring_no_cursor_cache cfg = false -> ring_relaxed_ordering cfg = true \/ ring_seqcst cfg = false ->
  mem_reach cfg 2 (demo_seen cfg) [7] [].
Proof.
  intros Hn Ho. pose proof (demo_pushed_reach cfg Hn) as H0.
  pose proof (mem_reach_step _ _ _ _ _ _ _ H0 (mem_step_pop_begin cfg _ _ _ _ _ _ _ _)) as H1.
  unfold mem_pop_begin in H1. rewrite Hn in H1.
  refine (mem_reach_step _ _ _ _ _ _ _ H1 (mem_step_pop_load cfg demo_ring1 _ (mkConsumer 0 0 0) _ 1
    (demo_clocks cfg) (default (clocks_new 2) (hb_pop_load cfg (demo_clocks cfg) 1)) (mkConsumer 0 1 1) CRead _ _ _ _ _)).
  destruct cfg as [[] [] ? ? ?]; destruct Ho; try done; reflexivity.
Qed.

(** The orderings are needed: with [ring_relaxed_ordering] the consumer can see
    the new [head] and be about to read a slot whose write is not ordered before
    the read, although the slot already holds the value; the build refuses the
    flag unless [loom] or [ring_allow_unsound] is set. *)
Theorem relaxed_ordering_races :
  (exists m : MemRing Z, mem_reach relaxed_cfg 2 m [7] [] /\ m_cpc (mr_machine m) = CRead /\
     is_Some (pop_read (m_ring (mr_machine m)) (m_cons (mr_machine m))) /\
     mem_pop_read (mr_clocks m) (m_ring (mr_machine m)) (m_cons (mr_machine m)) = None) /\
  (forall cfg, ring_relaxed_ordering cfg = true -> loom cfg = false -> ring_allow_unsound cfg = false ->
     compiles cfg = false).
Proof.
  split.
  - exists (demo_seen relaxed_cfg). split; [apply demo_seen_reach; [done|by left]|]. split; [done|].
    split; [by eexists|]. reflexivity.
  - intros cfg E1 E2 E3. unfold compiles. by rewrite E1, E2, E3.
Qed.

Lemma ring_race_free_witness :
  exists s' r', mem_pop_read (mr_clocks (demo_seen default_cfg)) demo_ring1 (mkConsumer 0 1 1) = Some (s', r', 7).
Proof.
  destruct (ring_race_free Z default_cfg 2 (demo_seen default_cfg) [7] [] eq_refl ltac:(lia)
    (demo_seen_reach default_cfg eq_refl (or_intror eq_refl))) as (_ & H & _).
  destruct (H eq_refl) as (s' & r' & v & E & Hv). simpl in Hv. injection Hv as <-. exists s', r'. exact E.
Defined.

(** The producer drops its handle after the push, then the consumer its own. *)
Definition demo_gone : MemRing Z :=
  mkMem (mkMachine demo_ring1 (mkProducer 1 0 0) (mkConsumer 0 0 0) PIdle CIdle) (demo_clocks default_cfg)
    (mkArc 0 (mkClock 2 0)) true true [[7]].

Lemma demo_gone_reach : mem_reach default_cfg 2 demo_gone [7] [].
Proof.
  pose proof (demo_pushed_reach default_cfg eq_refl) as H0.
  assert (mem_step default_cfg (demo_pushed default_cfg) None
    (mkMem (mkMachine demo_ring1 (mkProducer 1 0 0) (mkConsumer 0 0 0) PIdle CIdle) (demo_clocks default_cfg)
       (mkArc 1 (mkClock 2 0)) true false [])) as S1.
  { apply (mem_step_drop_producer default_cfg demo_ring1 _ _ _ _ (mkArc 2 clock0) _ _ [] []).
    by apply drop_handle_shared. }
  pose proof (mem_reach_step _ _ _ _ _ _ _ H0 S1) as H1.
  refine (mem_reach_step _ _ _ _ _ _ _ H1 (mem_step_drop_consumer default_cfg demo_ring1 _ _ _ _ (mkArc 1 (mkClock 2 0)) _ _ [] [[7]] _)).
  by apply (drop_handle_last _ _ _ _ _ (mkClock 2 0) 1 0 [7]).
Qed.

Lemma ring_freed_once_witness : exists vs, mr_drops demo_gone = [vs] /\ [7] = [] ++ vs.
Proof.
  exact (proj1 (proj2 (ring_freed_once Z default_cfg 2 demo_gone [7] [] eq_refl ltac:(lia) demo_gone_reach))).
Defined.
