(* ===== verification/LoomDrops.v ===== *)
(** * LoomDrops.v: values left in the ring are dropped exactly once

    [unconsumed_items_are_dropped_exactly_once] of [tests/loom_ring.rs]: the
    producer's thread pushes two counted values and drops its handle; the main
    thread pops at most one, joins the producer and drops the other handle.  The
    test is a restriction of the runs of [RingMem]: which operations the two
    threads start, and when; everything else (interleaving, stale cursors, who
    frees the ring) is left open.  Its assertions hold in every such run. *)

From S2P Require Import Prelude.
From S2P Require Import Ring.
From S2P Require Import RingInv.
From S2P Require Import RingThm.
From S2P Require Import RingMem.
From S2P Require Import RingMemInv.
From S2P Require Import RingMemThm.

(** A [Counted] value; its drop adds one to [drops]. *)
Abbreviation Counted := unit.

Definition starts_push (m m' : MemRing Counted) : bool :=
  match m_ppc (mr_machine m), m_ppc (mr_machine m') with PIdle, PIdle => false | PIdle, _ => true | _, _ => false end.
Definition starts_pop (m m' : MemRing Counted) : bool :=
  match m_cpc (mr_machine m), m_cpc (mr_machine m') with CIdle, CIdle => false | CIdle, _ => true | _, _ => false end.
Definition drops_producer (m m' : MemRing Counted) : bool := negb (mr_producer_gone m) && mr_producer_gone m'.
Definition drops_consumer (m m' : MemRing Counted) : bool := negb (mr_consumer_gone m) && mr_consumer_gone m'.

(** The drops of a step: a popped value is a temporary, the ring drops what it holds. *)
Definition counted_drops (m : MemRing Counted) (e : option (Event Counted)) (m' : MemRing Counted) : nat :=
  length (popped_event e) + length (concat (skipn (length (mr_drops m)) (mr_drops m'))).

(** The two threads, with the numbers of pushes and pops started and of drops. *)
Inductive drop_test (cfg : Cfg) : MemRing Counted -> nat -> nat -> nat -> Prop :=
| drop_test_start m : mem_ring_buffer 2 = Some m -> drop_test cfg m 0 0 0
| drop_test_step m e m' pushes pops drops :
    drop_test cfg m pushes pops drops -> mem_step cfg m e m' ->
    (* two pushes, then the handle goes *)
    (starts_push m m' = true -> pushes < 2)%nat ->
    (drops_producer m m' = true -> pushes = 2%nat) ->
    (* one pop, the join, then the other handle *)
    (starts_pop m m' = true -> pops < 1)%nat ->
    (drops_consumer m m' = true -> pops = 1%nat /\ mr_producer_gone m = true) ->
    drop_test cfg m' (pushes + Nat.b2n (starts_push m m')) (pops + Nat.b2n (starts_pop m m'))
      (drops + counted_drops m e m').

(** A push under way whose value is not in the ring yet. *)
Definition pending (pc : PPc Counted) : nat := match pc with PLoad _ | PWrite _ => 1 | _ => 0 end.

(** [Full] needs as many values as the ring has slots. *)
Lemma full_has_pushed cfg cap (m m' : MemRing Counted) v pushed popped :
  ring_relaxed_ordering cfg = false -> cap < 2 ^ 64 -> mem_reach cfg cap m pushed popped ->
  mem_step cfg m (Some (EFull v)) m' -> cap <= Z.of_nat (length pushed) /\ pending (m_ppc (mr_machine m)) = 1%nat.
Proof.
  intros Hcfg Hc Hr Hst. destruct (mem_reach_inv _ _ _ _ _ Hcfg Hc Hr) as (H & L & M).
  pose proof (mi_ring _ _ _ _ _ _ M) as I.
  inversion Hst as [| |? ? ? ? v0 k s s' p' ? ? ? ? ? E| | | | | | | | |]; subst. unfold mem_push_load in E.
  destruct (hb_push_load cfg s k) as [s1|]; [|done]. cbn [mbind option_bind] in E.
  destruct (push_load r p v0 k) as [[p1 res]|] eqn:El; [|done]. cbn [mbind option_bind] in E. simplify_eq.
  destruct (push_load_inv _ _ _ _ _ _ _ _ _ _ _ _ _ I El) as (_ & _ & Hk).
  pose proof (ri_pushed _ _ _ _ _ _ I) as Hp. cbn [mr_machine m_ppc ppc_extra pending] in *. split; [lia|done].
Qed.

(** How a step counts. *)
Lemma step_counts cfg (m m' : MemRing Counted) e :
  mem_step cfg m e m' ->
  (exists ds, mr_drops m' = mr_drops m ++ ds) /\
  match e with
  | Some (EFull _) => True
  | _ => (length (pushed_event e) + pending (m_ppc (mr_machine m')) =
          Nat.b2n (starts_push m m') + pending (m_ppc (mr_machine m)))%nat
  end /\
  (drops_producer m m' = true -> m_ppc (mr_machine m) = PIdle).
Proof.
  assert (forall r p v, pending (mem_push_begin cfg r p v) = 1%nat) as Hbegin.
  { intros r p v. unfold mem_push_begin, push_begin. by repeat case_match. }
  assert (forall s r p v k s' p' pc, mem_push_load cfg s r p v k = Some (s', p', Ok pc) -> pending pc = 1%nat) as Hload.
  { intros s r p v k s' p' pc E. unfold mem_push_load, push_load in E.
    destruct (hb_push_load cfg s k); [|done]. cbn [mbind option_bind] in E. destruct (load _ _ _); [|done].
    cbn [mbind option_bind] in E. case_decide; cbn [mbind option_bind] in E; by simplify_eq. }
  intros Hst. destruct Hst; unfold starts_push, drops_producer; cbn [mr_machine m_ppc mr_drops mr_producer_gone negb andb];
    (split; [try (by exists []; rewrite app_nil_r); by eexists|]); (split; [|done || by destruct pg]);
    cbn [pushed_event length]; try done.
  - rewrite Hbegin. specialize (Hbegin r p v). by destruct (mem_push_begin cfg r p v).
  - by erewrite Hload.
  - by destruct ppc.
  - by destruct ppc.
  - by destruct ppc.
  - by destruct ppc.
  - by destruct ppc.
  - by destruct ppc.
Qed.

(** Every run of the test is a run of the ring, and the counters are what was
    pushed, popped and freed. *)
Lemma drop_test_reach cfg m pushes pops drops :
  ring_relaxed_ordering cfg = false -> drop_test cfg m pushes pops drops ->
  exists pushed popped, mem_reach cfg 2 m pushed popped /\
    (length pushed + pending (m_ppc (mr_machine m)) = pushes)%nat /\ (pushes <= 2)%nat /\
    drops = (length popped + length (concat (mr_drops m)))%nat /\
    (mr_producer_gone m = true -> length pushed = 2%nat).
Proof.
  intros Hcfg Ht.
  induction Ht as [m Hm|m e m' pushes pops drops Ht (pushed & popped & Hr & Hp & Hle & Hd & Hg) Hst Hpush Hdrop _ _].
  { exists [], []. split; [by constructor|]. unfold mem_ring_buffer in Hm.
    destruct (ring_buffer 2) as [[[r p] c]|]; [|done]. simplify_eq/=. split_and!; [done|lia|done|done]. }
  pose proof (step_counts _ _ _ _ Hst) as ([ds Hds] & Hcount & Hidle).
  pose proof (mem_reach_step _ _ _ _ _ _ _ Hr Hst) as Hr'.
  assert (length (pushed_event e) + pending (m_ppc (mr_machine m')) =
          Nat.b2n (starts_push m m') + pending (m_ppc (mr_machine m)))%nat as Hc.
  { destruct e as [[v|v|v|]|]; try exact Hcount.
    destruct (full_has_pushed _ 2 _ _ _ _ _ Hcfg ltac:(lia) Hr Hst) as [Hcap Hpd]. lia. }
  eexists _, _. split; [exact Hr'|]. rewrite !length_app. split; [lia|].
  split; [destruct (starts_push m m'); cbn [Nat.b2n]; [specialize (Hpush eq_refl)|]; lia|].
  split.
  - unfold counted_drops. rewrite Hds, drop_app_length, concat_app, length_app. lia.
  - intros Hg'. destruct (mr_producer_gone m) eqn:Eg.
    + specialize (Hg eq_refl). destruct (starts_push m m') eqn:Es; cbn [Nat.b2n] in Hc; [specialize (Hpush eq_refl)|]; lia.
    + assert (drops_producer m m' = true) as Hdp by (unfold drops_producer; by rewrite Eg, Hg').
      specialize (Hdrop Hdp). specialize (Hidle Hdp). rewrite Hidle in Hp. cbn [pending] in Hp.
      destruct (starts_push m m') eqn:Es; [specialize (Hpush eq_refl); lia|]. cbn [Nat.b2n] in Hc. rewrite Hidle in Hc. cbn [pending] in Hc. lia.
Qed.

(** The test passes: neither push is refused, and after both handles are gone
    each of the two values has been dropped exactly once. *)
Theorem unconsumed_items_are_dropped_exactly_once cfg m pushes pops drops :
  ring_relaxed_ordering cfg = false -> drop_test cfg m pushes pops drops ->
  (forall v m', ~ mem_step cfg m (Some (EFull v)) m') /\
  (mr_producer_gone m = true -> mr_consumer_gone m = true -> drops = 2%nat).
Proof.
  intros Hcfg Ht. destruct (drop_test_reach _ _ _ _ _ Hcfg Ht) as (pushed & popped & Hr & Hp & Hle & -> & Hg). split.
  - intros v m' Hst. destruct (full_has_pushed _ 2 _ _ _ _ _ Hcfg ltac:(lia) Hr Hst) as [Hcap Hpd]. lia.
  - intros Hpg Hcg. destruct (mem_reach_inv _ 2 _ _ _ Hcfg ltac:(lia) Hr) as (H & L & M).
    rewrite (mi_drops _ _ _ _ _ _ M), Hpg, Hcg. cbn [andb concat]. rewrite app_nil_r, length_drop.
    pose proof (inv_split _ _ _ _ _ _ (mi_ring _ _ _ _ _ _ M)) as E. apply (f_equal length) in E. rewrite length_app, length_drop in E.
    specialize (Hg Hpg). lia.
Qed.
