(* ===== verification/Gateway.v ===== *)
(** * Gateway.v: the two threads of the server ([src/gateway.rs])

    [handle_client] turns the bytes of one TCP client into commands for the
    ring; [matching_loop] takes commands from the ring, logs and executes them,
    publishes a report per fill and snapshots the book.  The outside world is
    explicit: the bytes received and how the stream ends, the clock, what each
    pop of the ring and each system call returns.  The datagrams handed to the
    UDP socket are collected in order. *)

From S2P Require Import Prelude.
From S2P Require Import Order.
From S2P Require Import Book.
From S2P Require Import Matching.
From S2P Require Import Protocol.
From S2P Require Import Wal.
From S2P Require Import Snapshot.
From S2P Require Import Recovery.

(** ** Configuration, without the two addresses *)

Record GatewayConfig : Type := mkConfig {
  gc_ring_capacity : Z;
  gc_arena_capacity : Z;
  gc_data_dir : bool;          (* is a data directory configured *)
  gc_snapshot_interval : Z
}.

Definition GatewayConfig_default : GatewayConfig := mkConfig 65536 1048576 false 10000.

(** ** Reading a client *)

(** How a read past the received bytes ends. *)
Inductive StreamEnd : Type :=
| UnexpectedEof
| ConnectionReset
| OtherIo.

Inductive GatewayError : Type :=
| GwIo
| GwProtocol (e : ProtocolError).

#[global] Instance GatewayError_eq_dec : EqDecision GatewayError.
Proof. solve_decision. Defined.

(** [impl From<io::Error>] and [impl From<ProtocolError> for GatewayError]. *)
Definition GatewayError_from_io : GatewayError := GwIo.
Definition GatewayError_from (e : ProtocolError) : GatewayError := GwProtocol e.

(** [now_nanos] of the time since the epoch in nanoseconds, [None] if the clock
    is before the epoch. *)
Definition now_nanos (since_epoch : option Z) : Z := wrap 64 (default 0 since_epoch).

(** [stream.read_exact(buf)] for [n] bytes: they and the rest of the stream. *)
Definition read_exact (stream : list Z) (n : nat) : option (list Z * list Z) :=
  if decide (n <= length stream)%nat then Some (take n stream, drop n stream) else None.

(** [order.timestamp = now_nanos()] on a new order. *)
Definition stamp (now : Z) (cmd : EngineCommand) : EngineCommand :=
  match cmd with NewOrder order => NewOrder (set_timestamp now order) | CancelOrder id => CancelOrder id end.

(** The outcome of a failed read: a closed connection ends the loop, any other
    error is returned. *)
Definition read_failed (e : StreamEnd) : bool * result unit GatewayError :=
  match e with
  | UnexpectedEof | ConnectionReset => (true, Ok tt)
  | OtherIo => (false, Err GatewayError_from_io)
  end.

(** The commands pushed to the ring, in order, whether [shutdown] was set, and
    the result.  [clock i] is what the system clock
    says when the [i]-th message is stamped.  A
    push that finds the ring full is retried until it succeeds, so every
    decoded command is pushed.  Every message takes at least one byte, so one
    step more than the stream has bytes is enough. *)
Fixpoint handle_client (fuel : nat) (stream : list Z) (ending : StreamEnd) (clock : nat -> option Z) (i : nat)
  : option (list EngineCommand * bool * result unit GatewayError) :=
  match fuel with
  | O => None
  | S fuel =>
      match read_exact stream 1 with
      | None => let '(sh, r) := read_failed ending in Some ([], sh, r)
      | Some (type_buf, stream) =>
          msg_type ← head type_buf;
          match message_size msg_type with
          | Err e => Some ([], false, Err (GatewayError_from e))
          | Ok size =>
              let msg_buf := msg_type :: replicate 47 0 in
              match (if decide (1 < size)%nat
                     then '(body, stream) ← read_exact stream (size - 1);
                          Some (take 1 msg_buf ++ body ++ drop size msg_buf, stream)
                     else Some (msg_buf, stream)) with
              | None => let '(sh, r) := read_failed ending in Some ([], sh, r)
              | Some (msg_buf, stream) =>
                  match decode_message (take size msg_buf) with
                  | Err e => Some ([], false, Err (GatewayError_from e))
                  | Ok cmd =>
                      '(cmds, sh, r) ← handle_client fuel stream ending clock (S i);
                      Some (stamp (now_nanos (clock i)) cmd :: cmds, sh, r)
                  end
              end
          end
      end
  end.

(** ** The matching thread *)

(** How saving a snapshot goes: completely, with an error before anything is
    written, or with an error that leaves [data] in the temporary file. *)
Inductive SaveOutcome : Type :=
| SaveOk
| SaveFails
| SaveTorn (data : list Z).

(** The state of [matching_loop], with the snapshot directory and the datagrams
    sent so far. *)
Record GwState : Type := mkGw {
  g_engine : MatchingEngine;
  g_wal : option Wal;
  g_dir : option Dir;
  g_seq_num : Z;               (* u32 *)
  g_report_buf : list Z;
  g_cmds_since_snapshot : Z;   (* u64 *)
  g_sent : list (list Z)
}.

(** The loop over the fills of one order. *)
Fixpoint send_reports (fills : list Fill) (timestamp seq_num : Z) (report_buf : list Z)
  : Z * list Z * list (list Z) :=
  match fills with
  | [] => (seq_num, report_buf, [])
  | fill :: fills =>
      let seq_num := wrap 32 (seq_num + 1) in
      match encode_execution_report report_buf seq_num fill timestamp with
      | Ok (report_buf, _) =>
          let '(seq_num, buf, sent) := send_reports fills timestamp seq_num report_buf in
          (seq_num, buf, report_buf :: sent)
      | Err _ => send_reports fills timestamp seq_num report_buf
      end
  end.

Section gateway.
Context {C : Codec}.

(** [process_command]: log (the result is ignored), execute, publish. *)
Definition process_command (cmd : EngineCommand) (wal_io : IoOutcome) (st : GwState) : option GwState :=
  wal ← (match g_wal st with
         | Some w => '(w, _) ← append crc32 w cmd wal_io; Some (Some w)
         | None => Some None
         end);
  match cmd with
  | NewOrder order =>
      let timestamp := o_timestamp order in
      '(engine, r) ← MatchingEngine.add_order (g_engine st) order;
      match r with
      | Ok res =>
          let '(seq_num, buf, sent) :=
            send_reports (r_fills res) timestamp (g_seq_num st) (g_report_buf st) in
          Some (mkGw engine wal (g_dir st) seq_num buf (g_cmds_since_snapshot st) (g_sent st ++ sent))
      | Err _ =>
          Some (mkGw engine wal (g_dir st) (g_seq_num st) (g_report_buf st)
                     (g_cmds_since_snapshot st) (g_sent st))
      end
  | CancelOrder order_id =>
      '(engine, _) ← MatchingEngine.cancel_order (g_engine st) order_id;
      Some (mkGw engine wal (g_dir st) (g_seq_num st) (g_report_buf st)
                 (g_cmds_since_snapshot st) (g_sent st))
  end.

(** The snapshot check after a command of the main loop.  [flush_async] has no
    effect on what the file reads. *)
Definition after_command (snapshot_interval : Z) (save_io : SaveOutcome) (st : GwState) : option GwState :=
  let since := u64_add (g_cmds_since_snapshot st) 1 in
  match g_wal st, g_dir st with
  | Some w, Some dir =>
      if decide (since >= snapshot_interval) then
        snap ← capture (g_engine st) (record_count w);
        let dir := match save_io with
                   | SaveOk => save snap dir
                   | SaveFails => dir
                   | SaveTorn data => save_write snap data dir
                   end in
        Some (mkGw (g_engine st) (g_wal st) (Some dir) (g_seq_num st) (g_report_buf st) 0 (g_sent st))
      else Some (mkGw (g_engine st) (g_wal st) (g_dir st) (g_seq_num st) (g_report_buf st) since (g_sent st))
  | _, _ =>
      Some (mkGw (g_engine st) (g_wal st) (g_dir st) (g_seq_num st) (g_report_buf st) since (g_sent st))
  end.

(** What [consumer.pop()] returns and, when it is [Empty], the shutdown flag. *)
Inductive LoopEvent : Type :=
| GotCommand (cmd : EngineCommand) (wal_io : IoOutcome) (save_io : SaveOutcome)
| NoCommand (shutdown : bool).

(** [matching_loop]; [draining] is the inner [while let] after shutdown.  The
    boolean says whether the loop has ended. *)
Fixpoint matching_loop (snapshot_interval : Z) (events : list LoopEvent) (draining : bool) (st : GwState)
  : option (GwState * bool) :=
  match events with
  | [] => Some (st, false)
  | GotCommand cmd wal_io save_io :: events =>
      st ← process_command cmd wal_io st;
      st ← (if draining then Some st else after_command snapshot_interval save_io st);
      matching_loop snapshot_interval events draining st
  | NoCommand shutdown :: events =>
      if draining then Some (st, true)
      else matching_loop snapshot_interval events shutdown st
  end.

(** The start of [run]: recover if a data directory is configured, and fall
    back to an empty engine without persistence if that fails. *)
Definition run_setup (config : GatewayConfig) (snapshot_dir : option Dir) (wal_file : list Z)
  (dir_io snap_io wal_io : bool) : option GwState :=
  let fresh := MatchingEngine.with_capacity (gc_arena_capacity config) in
  '(engine, wal, dir) ←
    (if gc_data_dir config then
       r ← recover snapshot_dir wal_file (gc_arena_capacity config) dir_io snap_io wal_io;
       match r with
       | Ok (engine, wal) => Some (engine, Some wal, Some (default ∅ snapshot_dir))
       | Err _ => Some (fresh, None, None)
       end
     else Some (fresh, None, None));
  Some (mkGw engine wal dir 0 (replicate EXECUTION_REPORT_SIZE 0) 0 []).

End gateway.
