(* ===== verification/GatewayInv.v ===== *)
(** * GatewayInv.v: framing, reports and the state of the matching thread *)

From stdpp Require Import strings.
From S2P Require Import Prelude.
From S2P Require Import Order.
From S2P Require Import Arena.
From S2P Require Import ArenaInv.
From S2P Require Import Book.
From S2P Require Import BookSpec.
From S2P Require Import BookInv.
From S2P Require Import Matching.
From S2P Require Import MatchingSpec.
From S2P Require Import MatchingInv.
From S2P Require Import Protocol.
From S2P Require Import ProtocolInv.
From S2P Require Import Engine.
From S2P Require Import Wal.
From S2P Require Import WalInv.
From S2P Require Import WalThm.
From S2P Require Import Snapshot.
From S2P Require Import SnapshotInv.
From S2P Require Import Recovery.
From S2P Require Import RecoveryInv.
From S2P Require Import Gateway.

(** ** Framing *)

Lemma read_exact_app l rest n : n = length l -> read_exact (l ++ rest) n = Some (l, rest).
Proof.
  intros ->. unfold read_exact. rewrite decide_True by (rewrite length_app; lia).
  by rewrite take_app_length, drop_app_length.
Qed.

Lemma stamp_untimed t c : stamp t (untimed c) = stamp t c.
Proof. by destruct c. Qed.

Definition message_length (c : EngineCommand) : nat :=
  match c with NewOrder _ => NEW_ORDER_SIZE | CancelOrder _ => CANCEL_ORDER_SIZE end.

(** A message is its type byte and a body of the size the type announces. *)
Lemma layout_split pad c :
  length pad = pad_size c ->
  exists b body, command_layout pad c = b :: body /\ message_size b = Ok (message_length c) /\
    S (length body) = message_length c.
Proof.
  intros Hp. destruct c as [o|id]; cbn [command_layout app pad_size] in *; eexists _, _; (split; [done|]);
    (split; [done|]); cbn [length]; rewrite !length_app, !length_to_le, Hp; done.
Qed.

(** One complete message. *)
Lemma handle_client_message fuel pad c rest ending clock i :
  length pad = pad_size c -> command_typed c ->
  handle_client (S fuel) (command_layout pad c ++ rest) ending clock i =
    '(cmds, sh, r) ← handle_client fuel rest ending clock (S i);
    Some (stamp (now_nanos (clock i)) c :: cmds, sh, r).
Proof.
  intros Hp Hc. destruct (layout_split pad c Hp) as (b & body & E & Hs & Hl).
  pose proof (decode_layout pad c [] Hp Hc) as Hd. rewrite app_nil_r in Hd.
  rewrite E in *. cbn [handle_client]. rewrite <- (app_nil_l (_ ++ rest)).
  change ([] ++ (b :: body) ++ rest) with ([b] ++ (body ++ rest)).
  rewrite read_exact_app by done. cbn [head mbind option_bind]. rewrite Hs.
  set (n := message_length c) in *.
  assert (1 < n)%nat as Hn by (unfold n; destruct c; simpl; unfold NEW_ORDER_SIZE, CANCEL_ORDER_SIZE; lia).
  rewrite decide_True by done. rewrite read_exact_app by lia. cbn [mbind option_bind].
  assert (take n (take 1 (b :: replicate 47 0) ++ body ++ drop n (b :: replicate 47 0)) = b :: body) as ->.
  { change (take 1 (b :: replicate 47 0)) with [b]. rewrite (app_assoc [b] body).
    by rewrite take_app_length' by (simpl; lia). }
  rewrite Hd. rewrite stamp_untimed. done.
Qed.

(** An incomplete message: nothing, or a known type with bytes missing. *)
Definition incomplete (tail : list Z) : Prop :=
  match tail with
  | [] => True
  | b :: body => exists n, message_size b = Ok n /\ (S (length body) < n)%nat
  end.

Lemma handle_client_incomplete fuel tail ending clock i :
  incomplete tail ->
  handle_client (S fuel) tail ending clock i = Some ([], fst (read_failed ending), snd (read_failed ending)).
Proof.
  intros Ht. cbn [handle_client]. destruct tail as [|b body].
  - unfold read_exact. simpl. by destruct (read_failed ending).
  - destruct Ht as (n & Hs & Hn). rewrite <- (app_nil_l (b :: body)).
    change ([] ++ b :: body) with ([b] ++ body). rewrite read_exact_app by done.
    cbn [head mbind option_bind]. rewrite Hs. rewrite decide_True by lia.
    unfold read_exact. rewrite decide_False by lia. cbn [mbind option_bind]. by destruct (read_failed ending).
Qed.

(** A stream of complete messages and an incomplete rest. *)
Definition stream_of (msgs : list (list Z * EngineCommand)) : list Z :=
  concat ((fun '(pad, c) => command_layout pad c) <$> msgs).

Definition message_ok (m : list Z * EngineCommand) : Prop :=
  length m.1 = pad_size m.2 /\ command_typed m.2.

Lemma handle_client_stream msgs tail ending clock i fuel :
  Forall message_ok msgs -> incomplete tail -> (length msgs < fuel)%nat ->
  handle_client fuel (stream_of msgs ++ tail) ending clock i =
    Some (imap (fun k c => stamp (now_nanos (clock (i + k)%nat)) c) msgs.*2,
          fst (read_failed ending), snd (read_failed ending)).
Proof.
  intros Hm Ht. revert i fuel. induction Hm as [|[pad c] msgs [Hp Hc] _ IH]; intros i fuel Hf;
    (destruct fuel as [|fuel]; [simpl in Hf; lia|]).
  - change (stream_of [] ++ tail) with tail. by apply handle_client_incomplete.
  - unfold stream_of. rewrite fmap_cons. cbn [concat]. rewrite <- app_assoc. fold (stream_of msgs).
    rewrite handle_client_message by done. rewrite IH by (simpl in Hf; lia). simpl.
    rewrite Nat.add_0_r. do 4 f_equal. apply imap_ext. intros k x _. simpl. do 3 f_equal. lia.
Qed.

(** What is pushed is always well-typed, whatever the client sends. *)
Lemma decode_typed buf c : bytes_ok buf -> decode_message buf = Ok c -> command_typed c.
Proof. intros Hb Hd. by destruct (decode_message_inv buf c Hb Hd). Qed.

Lemma stamp_typed t c : is_u64 t -> command_typed c -> command_typed (stamp t c).
Proof.
  intros Ht. destruct c as [o|id]; simpl; [|done]. unfold order_typed. simpl. tauto.
Qed.

Lemma handle_client_total fuel stream ending clock i :
  bytes_ok stream -> (length stream < fuel)%nat ->
  exists cmds sh r, handle_client fuel stream ending clock i = Some (cmds, sh, r) /\
               Forall command_typed cmds.
Proof.
  intros Hb. revert stream i Hb. induction fuel as [|fuel IH]; intros stream i Hb Hf; [lia|].
  cbn [handle_client]. unfold read_exact at 1. case_decide as H1.
  2:{ destruct (read_failed ending) as [sh r]. exists [], sh, r. split; [done|constructor]. }
  destruct stream as [|b stream]; [simpl in H1; lia|]. cbn [take drop head mbind option_bind].
  rewrite take_0, drop_0. simpl in Hf. apply Forall_cons in Hb as [Hb0 Hb].
  destruct (message_size b) as [n|e] eqn:Hs; [|exists [], false; eexists; split; [done|constructor]].
  assert (1 < n <= 48)%nat as Hn.
  { unfold message_size in Hs. repeat case_decide; simplify_eq; unfold NEW_ORDER_SIZE, CANCEL_ORDER_SIZE; lia. }
  rewrite decide_True by lia. unfold read_exact. case_decide as H2; cbn [mbind option_bind].
  2:{ destruct (read_failed ending) as [sh r]. exists [], sh, r. split; [done|constructor]. }
  match goal with |- context [decode_message (take n ?x)] => set (buf := x) end.
  assert (bytes_ok buf) as Hbuf.
  { unfold buf, bytes_ok. apply Forall_cons. split; [done|].
    apply Forall_app. split; [by apply Forall_take|]. apply Forall_drop. constructor; [done|].
    apply Forall_replicate. unfold is_u8. lia. }
  destruct (decode_message (take n buf)) as [c|e] eqn:Hd; [|exists [], false; eexists; split; [done|constructor]].
  apply decode_typed in Hd; [|by apply Forall_take].
  destruct (IH (drop (n - 1) stream) (S i)) as (cmds & sh & r & -> & Hcs).
  { by apply Forall_drop. } { rewrite length_drop. lia. }
  simpl. eexists _, sh, r. split; [done|]. constructor; [|done].
  apply stamp_typed; [apply wrap_range; lia|done].
Qed.

(** ** Reports *)

(** The reports of a sequence of (fill, timestamp) pairs after number [seq]. *)
Definition report_stream (seq : Z) (fs : list (Fill * Z)) : list (list Z) :=
  imap (fun i '(f, t) => report_bytes (wrap 32 (seq + 1 + Z.of_nat i)) f t) fs.

Lemma report_stream_app seq fs1 fs2 :
  report_stream seq (fs1 ++ fs2) =
    report_stream seq fs1 ++ report_stream (wrap 32 (seq + Z.of_nat (length fs1))) fs2.
Proof.
  unfold report_stream. rewrite imap_app. f_equal. apply imap_ext. intros i [f t] _. simpl. f_equal.
  rewrite <- (Z.add_assoc (wrap 32 _)), wrap_add_l. f_equal. lia.
Qed.

Lemma send_reports_spec fills t seq buf :
  length buf = EXECUTION_REPORT_SIZE -> is_u32 seq ->
  exists buf', send_reports fills t seq buf =
      (wrap 32 (seq + Z.of_nat (length fills)), buf', report_stream seq ((fun f => (f, t)) <$> fills)) /\
    length buf' = EXECUTION_REPORT_SIZE.
Proof.
  revert seq buf. induction fills as [|f fills IH]; intros seq buf Hb Hs; cbn [send_reports].
  { exists buf. split; [|done]. simpl. rewrite Z.add_0_r, wrap_small by done. done. }
  rewrite encode_report_eq by lia. rewrite drop_ge, app_nil_r by lia.
  destruct (IH (wrap 32 (seq + 1)) (report_bytes (wrap 32 (seq + 1)) f t)) as (buf' & -> & Hb').
  { apply length_report_bytes. } { apply wrap_range. lia. }
  exists buf'. split; [|done]. rewrite fmap_cons.
  change ((f, t) :: ((fun f => (f, t)) <$> fills)) with ([(f, t)] ++ ((fun f => (f, t)) <$> fills)).
  rewrite report_stream_app, wrap_add_l. cbn [length].
  replace (seq + 1 + Z.of_nat (length fills)) with (seq + Z.of_nat (S (length fills))) by lia.
  unfold report_stream at 2. simpl. by rewrite Z.add_0_r.
Qed.

(** What a command publishes, from its response. *)
Definition response_fills (c : EngineCommand) (r : Response) : list (Fill * Z) :=
  match c, r with
  | NewOrder o, RAdd (Ok res) => (fun f => (f, o_timestamp o)) <$> r_fills res
  | _, _ => []
  end.

Definition published (cs : list EngineCommand) (rs : list Response) : list (Fill * Z) :=
  concat (zip_with response_fills cs rs).

(** ** One command *)

Section commands.
Context {C : Codec} {L : CodecLaws C}.

(** The log of the state holds the frames [fs]. *)
Definition log_holds (st : GwState) (fs : list Frame) : Prop :=
  match g_wal st with Some w => wal_rep crc32 w fs | None => fs = [] end.

Definition logged (st : GwState) (c : EngineCommand) : list Frame :=
  match g_wal st with Some _ => [command_frame c] | None => [] end.

Record gw_inv (cap : Z) (st : GwState) (sp : SpecBook) (fs : list Frame) : Prop := {
  gi_engine : engine_inv cap (g_engine st) sp;
  gi_wal : log_holds st fs;
  gi_buf : length (g_report_buf st) = EXECUTION_REPORT_SIZE;
  gi_seq : is_u32 (g_seq_num st)
}.

(** Logging never blocks the command; with a log that can grow it is recorded. *)
Lemma append_step st fs c io :
  log_holds st fs ->
  exists wal fs', (match g_wal st with
         | Some w => '(w, _) ← append crc32 w c io; Some (Some w)
         | None => Some None
         end) = Some wal /\ (is_Some wal <-> is_Some (g_wal st)) /\
    match wal with Some w => wal_rep crc32 w fs' | None => fs' = [] end /\
    (io = IoOk -> fs' = fs ++ logged st c).
Proof.
  unfold log_holds, logged. destruct (g_wal st) as [w|].
  - intros R. destruct (append_spec crc32 w fs c io R) as (w' & [(-> & R' & _)|(-> & R' & _ & Hio)]);
      (eexists (Some w'), _); (split; [done|]); (split; [by split|]); (split; [exact R'|done]).
  - intros ->. exists None, []. by split_and!.
Qed.

Lemma process_command_spec cap st sp fs c io :
  gw_inv cap st sp fs -> command_in_range c ->
  exists st' fs', process_command c io st = Some st' /\
    gw_inv cap st' (fst (spec_exec cap sp c)) fs' /\ (io = IoOk -> fs' = fs ++ logged st c) /\
    (is_Some (g_wal st') <-> is_Some (g_wal st)) /\ g_dir st' = g_dir st /\
    g_cmds_since_snapshot st' = g_cmds_since_snapshot st /\
    g_sent st' = g_sent st ++ report_stream (g_seq_num st) (response_fills c (snd (spec_exec cap sp c))) /\
    g_seq_num st' = wrap 32 (g_seq_num st + Z.of_nat (length (response_fills c (snd (spec_exec cap sp c))))).
Proof.
  intros [Ie Iw Ib Is] Hc. unfold process_command.
  destruct (append_step st fs c io Iw) as (wal & fs' & -> & Hsome & Hw & Hfs). cbn [mbind option_bind].
  destruct (exec_spec cap _ _ c Ie Hc) as (e' & Hex & I').
  destruct (spec_exec cap sp c) as [sp' rr]. cbn [fst snd] in *. unfold exec in Hex.
  assert (wrap 32 (g_seq_num st + 0) = g_seq_num st) as Hseq by (rewrite Z.add_0_r; by apply wrap_small).
  destruct c as [o|id].
  - destruct (MatchingEngine.add_order (g_engine st) o) as [[e1 r]|]; [|done].
    cbn [mbind option_bind] in *. injection Hex as -> <-. destruct r as [res|err].
    + destruct (send_reports_spec (r_fills res) (o_timestamp o) (g_seq_num st) (g_report_buf st) Ib Is)
        as (buf' & -> & Hb').
      eexists _, fs'. split; [done|]. simpl. rewrite length_fmap.
      split; [by split; simpl; [|..|apply wrap_range; lia]|done].
    + eexists _, fs'. split; [done|].
      cbn [g_engine g_wal g_dir g_seq_num g_sent g_cmds_since_snapshot response_fills length].
      change (Z.of_nat 0) with 0. rewrite Hseq, app_nil_r. by split_and!.
  - destruct (MatchingEngine.cancel_order (g_engine st) id) as [[e1 r]|]; [|done].
    cbn [mbind option_bind] in *. injection Hex as -> <-.
    eexists _, fs'. split; [done|].
    cbn [g_engine g_wal g_dir g_seq_num g_sent g_cmds_since_snapshot response_fills length].
    change (Z.of_nat 0) with 0. rewrite Hseq, app_nil_r. by split_and!.
Qed.

End commands.

(** ** The loop *)

Definition event_command (ev : LoopEvent) : option EngineCommand :=
  match ev with GotCommand c _ _ => Some c | NoCommand _ => None end.

(** The commands of the events, in order. *)
Definition commands (evs : list LoopEvent) : list EngineCommand := omap event_command evs.

Lemma commands_app es1 es2 : commands (es1 ++ es2) = commands es1 ++ commands es2.
Proof. apply omap_app. Qed.

(** The events the loop looks at before it ends, and whether it ends: at the
    first [Empty] after it has seen the shutdown flag. *)
Fixpoint consumed (events : list LoopEvent) (draining : bool) : list LoopEvent :=
  match events with
  | [] => []
  | GotCommand c wio sio :: events => GotCommand c wio sio :: consumed events draining
  | NoCommand sh :: events => NoCommand sh :: if draining then [] else consumed events sh
  end.

Fixpoint ends (events : list LoopEvent) (draining : bool) : bool :=
  match events with
  | [] => false
  | GotCommand _ _ _ :: events => ends events draining
  | NoCommand sh :: events => if draining then true else ends events sh
  end.

Lemma consumed_prefix events dr : consumed events dr `prefix_of` events.
Proof.
  revert dr. induction events as [|[c wio sio|sh] events IH]; intros dr; simpl; [done|..].
  - apply prefix_cons, IH.
  - apply prefix_cons. destruct dr; [apply prefix_nil|apply IH].
Qed.

Lemma Forall_consumed (P : EngineCommand -> Prop) events dr :
  Forall P (commands events) -> Forall P (commands (consumed events dr)).
Proof.
  destruct (consumed_prefix events dr) as [rest E]. rewrite E at 1. rewrite commands_app.
  by intros [? _]%Forall_app.
Qed.

Section loop.
Context {C : Codec} {L : CodecLaws C}.

(** The check for a snapshot changes at most the directory. *)
Lemma after_command_spec cap interval sio st sp fs :
  gw_inv cap st sp fs ->
  exists st', after_command interval sio st = Some st' /\ gw_inv cap st' sp fs /\
    g_wal st' = g_wal st /\ g_seq_num st' = g_seq_num st /\ g_sent st' = g_sent st /\
    (g_dir st' = g_dir st \/
     exists w dir snap, g_wal st = Some w /\ g_dir st = Some dir /\
       capture (g_engine st) (w_record_count w) = Some snap /\
       (g_dir st' = Some (save snap dir) \/ exists data, g_dir st' = Some (save_write snap data dir))).
Proof.
  intros [Ie Iw Ib Is]. unfold after_command, record_count.
  destruct (g_wal st) as [w|] eqn:Ew.
  2:{ eexists. split; [done|]. split; [by split; unfold log_holds in *; rewrite Ew in *|]. eauto. }
  destruct (g_dir st) as [dir|] eqn:Ed.
  2:{ eexists. split; [done|]. split; [by split; unfold log_holds in *; rewrite Ew in *|]. eauto. }
  case_decide.
  2:{ eexists. split; [done|]. split; [by split; unfold log_holds in *; rewrite Ew in *|]. eauto. }
  assert (exists snap, capture (g_engine st) (w_record_count w) = Some snap) as [snap Hs].
  { unfold capture, MatchingEngine.book. rewrite (all_resting_orders_rep _ _ (inv_rep _ _ _ Ie)). simpl. eauto. }
  rewrite Hs. cbn [mbind option_bind]. eexists. split; [done|].
  split; [by split; unfold log_holds in *; rewrite Ew in *|].
  do 3 (split; [done|]). destruct sio; simpl; eauto 10.
Qed.

Lemma spec_run_cons cap sp c cs :
  fst (spec_run cap sp (c :: cs)) = fst (spec_run cap (fst (spec_exec cap sp c)) cs) /\
  snd (spec_run cap sp (c :: cs)) = snd (spec_exec cap sp c) :: snd (spec_run cap (fst (spec_exec cap sp c)) cs).
Proof.
  simpl. destruct (spec_exec cap sp c) as [sp1 r]. simpl. by destruct (spec_run cap sp1 cs).
Qed.

Lemma matching_loop_spec cap interval events dr st sp fs :
  gw_inv cap st sp fs -> Forall command_in_range (commands events) ->
  exists st' fs', matching_loop interval events dr st = Some (st', ends events dr) /\
    gw_inv cap st' (fst (spec_run cap sp (commands (consumed events dr)))) fs' /\
    g_sent st' = g_sent st ++
      report_stream (g_seq_num st)
        (published (commands (consumed events dr)) (snd (spec_run cap sp (commands (consumed events dr))))).
Proof.
  revert dr st sp fs. induction events as [|[c wio sio|sh] events IH]; intros dr st sp fs I Hcs.
  - exists st, fs. split_and!; try done. simpl. by rewrite app_nil_r.
  - apply Forall_cons in Hcs as [Hc Hcs]. cbn [matching_loop].
    destruct (process_command_spec cap st sp fs c wio I Hc)
      as (st1 & fs1 & -> & I1 & _ & _ & _ & _ & Hsent1 & Hseq1). cbn [mbind option_bind].
    assert (exists st2, (if dr then Some st1 else after_command interval sio st1) = Some st2 /\
              gw_inv cap st2 (fst (spec_exec cap sp c)) fs1 /\ g_seq_num st2 = g_seq_num st1 /\
              g_sent st2 = g_sent st1) as (st2 & -> & I2 & Hseq2 & Hsent2).
    { destruct dr; [by exists st1|].
      destruct (after_command_spec cap interval sio st1 _ _ I1) as (st2 & ? & ? & ? & ? & ? & ?). eauto. }
    cbn [mbind option_bind].
    destruct (IH dr st2 _ fs1 I2 Hcs) as (st' & fs' & Hl & I' & Hsent).
    exists st', fs'. split; [done|]. cbn [consumed].
    change (commands (GotCommand c wio sio :: consumed events dr)) with (c :: commands (consumed events dr)).
    destruct (spec_run_cons cap sp c (commands (consumed events dr))) as [E1 E2]. rewrite E1, E2. split; [done|].
    rewrite Hsent, Hsent2, Hsent1, Hseq2, Hseq1, <- app_assoc. f_equal.
    unfold published. cbn [zip_with concat]. by rewrite report_stream_app.
  - cbn [matching_loop consumed ends]. destruct dr; [|by eapply (IH sh)].
    exists st, fs. split_and!; try done. simpl. by rewrite app_nil_r.
Qed.

(** ** Snapshots taken by the loop *)

(** The directory's newest valid snapshot covers a prefix of the commands [cs]. *)
Definition dir_ok (cap : Z) (cs : list EngineCommand) (dir : Dir) : Prop :=
  (forall name, is_snapshot_name name = true -> is_Some (dir !! name) ->
     exists m, 0 <= m <= Z.of_nat (length cs) /\ name = snapshot_filename m) /\
  exists latest cs1 cs2, load_latest (Some dir) true = Ok latest /\ cs = cs1 ++ cs2 /\
    match latest with Some s => snapshot_after cap cs1 s | None => cs1 = [] end.

Lemma dir_ok_empty cap : dir_ok cap [] ∅.
Proof.
  split; [intros name _ [x Hx]; by rewrite lookup_empty in Hx|].
  exists None, [], []. split; [|done]. unfold load_latest, snapshot_files. by rewrite map_to_list_empty.
Qed.

Lemma dir_ok_app cap cs cs' dir : dir_ok cap cs dir -> dir_ok cap (cs ++ cs') dir.
Proof.
  intros [Hn (latest & cs1 & cs2 & Hl & -> & Hs)]. split.
  - intros name H1 H2. destruct (Hn name H1 H2) as (m & Hm & ->). exists m. split; [|done].
    rewrite length_app. lia.
  - exists latest, cs1, (cs2 ++ cs'). by rewrite app_assoc.
Qed.

Lemma dir_ok_save cap cs dir e sp snap :
  dir_ok cap cs dir -> engine_inv cap e sp -> book_after cap cs sp ->
  Z.of_nat (length cs) < 10 ^ 10 -> capture e (Z.of_nat (length cs)) = Some snap ->
  dir_ok cap cs (save snap dir) /\ forall data, dir_ok cap cs (save_write snap data dir).
Proof.
  intros [Hn (latest & cs1 & cs2 & Hl & Hcs & Hs)] I B Hlen Hc.
  destruct (capture_spec cap e _ (Z.of_nat (length cs)) I) as (s & Hc' & Hcnt & Hso & _ & _ & Hv & Ht);
    [unfold is_u64; lia|]. rewrite Hc in Hc'. injection Hc' as <-. split; [|intros data].
  - split.
    + intros name H1 H2. destruct (decide (name = snapshot_filename (sn_wal_record_count snap))) as [->|Hne].
      * rewrite Hcnt. exists (Z.of_nat (length cs)). split; [lia|done].
      * rewrite save_lookup_other in H2 by done. by apply Hn.
    + exists (Some snap), cs, []. rewrite app_nil_r. split; [|split; [done|by exists e, sp]].
      apply save_load; [done|done|lia|]. by rewrite Hcnt.
  - split.
    + intros name H1 H2. apply Hn; [done|]. unfold save_write in H2. rewrite lookup_insert_ne in H2; [done|].
      intros <-. by rewrite tmp_name_ignored in H1.
    + exists latest, cs1, cs2. by rewrite load_after_write.
Qed.

(** Every append of the events succeeds. *)
Definition appends_succeed (evs : list LoopEvent) : Prop :=
  Forall (fun ev => match ev with GotCommand _ wio _ => wio = IoOk | _ => True end) evs.

Lemma durable_loop cap interval events dr st cs sp :
  gw_inv cap st sp (command_frame <$> cs) -> book_after cap cs sp -> is_Some (g_wal st) ->
  (exists dir, g_dir st = Some dir /\ dir_ok cap cs dir) ->
  Forall command_in_range (commands events) -> appends_succeed events ->
  Z.of_nat (length (cs ++ commands events)) < 10 ^ 10 ->
  let cs' := cs ++ commands (consumed events dr) in
  exists st' sp', matching_loop interval events dr st = Some (st', ends events dr) /\
    gw_inv cap st' sp' (command_frame <$> cs') /\ book_after cap cs' sp' /\
    is_Some (g_wal st') /\ exists dir, g_dir st' = Some dir /\ dir_ok cap cs' dir.
Proof.
  revert dr st cs sp. induction events as [|[c wio sio|sh] events IH]; intros dr st cs sp I B Hw Hd Hcs Hio Hlen.
  - intros cs'. exists st, sp. replace cs' with cs by (unfold cs'; simpl; by rewrite app_nil_r). by split_and!.
  - apply Forall_cons in Hcs as [Hc Hcs], Hio as [-> Hio]. cbn [matching_loop consumed ends].
    change (commands (GotCommand c IoOk sio :: events)) with (c :: commands events) in Hlen.
    rewrite length_app in Hlen. cbn [length] in Hlen.
    destruct (process_command_spec cap st _ _ c IoOk I Hc)
      as (st1 & fs1 & -> & I1 & Hfs & Hw1 & Hd1 & _). cbn [mbind option_bind].
    assert (fs1 = command_frame <$> (cs ++ [c])) as ->.
    { rewrite Hfs by done. unfold logged. destruct Hw as [w ->]. by rewrite fmap_app. }
    assert (book_after cap (cs ++ [c]) (fst (spec_exec cap sp c))) as B1.
    { apply (book_after_app _ _ [c]) in B. simpl in B. by destruct (spec_exec cap sp c). }
    destruct Hd as (dir & Hdir & Hok). rewrite Hdir in Hd1.
    apply (dir_ok_app cap cs [c]) in Hok.
    assert (exists st2, (if dr then Some st1 else after_command interval sio st1) = Some st2 /\
              gw_inv cap st2 (fst (spec_exec cap sp c)) (command_frame <$> (cs ++ [c])) /\
              g_wal st2 = g_wal st1 /\ exists dir2, g_dir st2 = Some dir2 /\ dir_ok cap (cs ++ [c]) dir2)
      as (st2 & -> & I2 & Hw2 & Hd2).
    { destruct dr; [exists st1; split_and!; eauto|].
      destruct (after_command_spec cap interval sio st1 _ _ I1) as (st2 & ? & ? & ? & _ & _ & Hdir2).
      exists st2. do 3 (split; [done|]).
      destruct Hdir2 as [->|(w & dir0 & snap & Ew & Ed & Hcap & Hcase)]; [eauto|]. simplify_eq.
      pose proof (gi_wal _ _ _ _ I1) as R. unfold log_holds in R. rewrite Ew in R.
      rewrite (wr_count _ _ _ R), length_fmap in Hcap.
      destruct (dir_ok_save cap _ _ _ _ snap Hok (gi_engine _ _ _ _ I1) B1) as [Hsv1 Hsv2];
        [rewrite length_app; simpl; lia|done|].
      destruct Hcase as [-> | [data ->]]; eauto. }
    cbn [mbind option_bind].
    destruct (IH dr st2 (cs ++ [c]) _ I2 B1) as (st' & sp' & Hl & I' & B' & Hw' & Hd'); try done.
    { rewrite Hw2. by apply Hw1. } { rewrite !length_app. simpl. lia. }
    rewrite <- app_assoc in I', B', Hd'.
    by exists st', sp'.
  - apply Forall_cons in Hio as [_ Hio]. cbn [matching_loop consumed ends]. destruct dr; [|by eapply (IH sh)].
    change (commands [NoCommand sh]) with (@nil EngineCommand). rewrite app_nil_r. exists st, sp. by split_and!.
Qed.

End loop.
