(* ===== verification/GatewayThm.v ===== *)
(** * GatewayThm.v: the correctness of the gateway

    From the bytes of a client to the published reports and the state after a
    restart. *)

From stdpp Require Import strings.
From S2P Require Import Prelude.
From S2P Require Import Order.
From S2P Require Import Arena.
From S2P Require Import ArenaInv.
From S2P Require Import Book.
From S2P Require Import BookSpec.
From S2P Require Import BookInv.
From S2P Require Import Matching.
From S2P Require Import MatchingSpec.
From S2P Require Import MatchingInv.
From S2P Require Import Protocol.
From S2P Require Import ProtocolInv.
From S2P Require Import Engine.
From S2P Require Import Wal.
From S2P Require Import WalInv.
From S2P Require Import WalThm.
From S2P Require Import Snapshot.
From S2P Require Import SnapshotInv.
From S2P Require Import Recovery.
From S2P Require Import RecoveryInv.
From S2P Require Import RecoveryThm.
From S2P Require Import Gateway.
From S2P Require Import GatewayInv.

(** ** Reading a client *)

(** C33. Framing: from a stream of complete messages followed by an incomplete
    one, the gateway pushes exactly the commands sent, in order, each new
    order stamped with the time it was read; the incomplete message is
    dropped, and a closed connection ends the session normally. *)
Theorem client_framing msgs tail ending clock :
  Forall message_ok msgs -> incomplete tail ->
  handle_client (S (length (stream_of msgs ++ tail))) (stream_of msgs ++ tail) ending clock 0 =
    Some (imap (fun k c => stamp (now_nanos (clock k)) c) msgs.*2, fst (read_failed ending), snd (read_failed ending)).
Proof.
  intros Hm Ht. apply handle_client_stream; [done|done|].
  enough (length msgs <= length (stream_of msgs))%nat by (rewrite length_app; lia).
  induction Hm as [|[pad c] msgs [Hp Hc] _ IH]; [done|]. unfold stream_of. rewrite fmap_cons. cbn [concat].
  rewrite length_app. fold (stream_of msgs). destruct (layout_split pad c Hp) as (b & body & -> & _).
  cbn [length]. lia.
Qed.

Lemma client_framing_witness :
  handle_client 60 (command_layout (replicate 6 9) (NewOrder (mkOrder 1 10 Ask 105 5 0)) ++
                    command_layout (replicate 7 0) (CancelOrder 1) ++ [1; 0; 3]) UnexpectedEof (fun _ => Some 77) 0 =
    Some ([NewOrder (mkOrder 1 10 Ask 105 5 77); CancelOrder 1], true, Ok tt).
Proof.
  pose proof (client_framing [(replicate 6 9, NewOrder (mkOrder 1 10 Ask 105 5 0)); (replicate 7 0, CancelOrder 1)]
    [1; 0; 3] UnexpectedEof (fun _ => Some 77)) as H.
  apply H.
  - repeat constructor; simpl; unfold_ranges; lia.
  - exists 40%nat. split; [reflexivity|]. cbn. lia.
Defined.

(** C34. Whatever bytes a client sends, reading it ends (no panic, no endless
    loop) and every command pushed to the engine is well-typed: fields in
    range and a positive quantity. *)
Theorem client_commands_typed stream ending clock :
  bytes_ok stream ->
  exists cmds sh r, handle_client (S (length stream)) stream ending clock 0 = Some (cmds, sh, r) /\
               Forall command_typed cmds.
Proof. intros Hb. apply handle_client_total; [done|lia]. Qed.

Lemma client_commands_typed_witness :
  exists cmds sh r, handle_client 4 [2; 255; 9] ConnectionReset (fun _ => Some 5) 0 = Some (cmds, sh, r) /\
               Forall command_typed cmds.
Proof.
  apply (client_commands_typed [2; 255; 9] ConnectionReset (fun _ => Some 5)).
  repeat constructor; unfold_ranges; lia.
Defined.

(** ** The fills of a run are typed *)

Definition fill_typed (f : Fill) : Prop :=
  is_u64 (f_taker_order_id f) /\ is_u64 (f_maker_order_id f) /\ is_i64 (f_price f) /\ is_u64 (f_quantity f).

Lemma spec_add_fills_typed cap sp o sp' fs res :
  Forall resting_ok (sp_all sp) -> order_typed o -> spec_add cap sp o = (sp', fs, Ok res) ->
  Forall fill_typed (r_fills res).
Proof.
  intros Hok Ho E. destruct (spec_add_conserves _ _ _ _ _ _ Hok Ho E) as (-> & _ & _).
  destruct (decide (o_quantity o = 0)) as [Hz|Hz].
  { unfold spec_add in E. rewrite decide_True in E by done. done. }
  pose proof (spec_add_fills cap sp o Hz) as Hf. rewrite E in Hf. simpl in Hf.
  apply (sp_side_Forall resting_ok (opposite (o_side o))) in Hok.
  pose proof (spec_match_fills o (o_quantity o) (sp_side sp (opposite (o_side o)))) as H.
  destruct (spec_match _ _ _) as [[[fs0 L] q] st]. simpl in Hf. subst fs0.
  destruct (H Hok) as (H1 & L1 & L2 & EL & H2). rewrite EL in Hok. apply Forall_app in Hok as [Hok _].
  clear -H1 H2 Hok Ho. induction H2 as [|f m fs L1 Hfm _ IH]; constructor.
  - apply Forall_cons in H1 as [(Hq & _ & Ht) _], Hok as [[Hm _] _]. destruct Hfm as (Hid & Hp & _ & Hle & _).
    unfold fill_typed, order_typed in *. rewrite Ht, Hid, Hp. unfold_ranges. lia.
  - apply Forall_cons in H1 as [_ H1], Hok as [_ Hok]. auto.
Qed.

Lemma published_typed cap cs sp e :
  engine_inv cap e sp -> Forall command_in_range cs ->
  Forall (fun '(f, t) => fill_typed f /\ is_u64 t) (published cs (snd (spec_run cap sp cs))).
Proof.
  intros I Hcs. revert e sp I. induction Hcs as [|c cs Hc _ IH]; intros e sp I; [constructor|].
  destruct (spec_run_cons cap sp c cs) as [_ ->]. unfold published. cbn [zip_with concat].
  apply Forall_app. destruct (exec_spec cap e sp c I Hc) as (e' & _ & I'). split; [|by apply (IH e')].
  destruct c as [o|id]; [|by destruct (spec_exec cap sp _) as [? []]]. simpl.
  destruct (spec_add cap sp o) as [[sp' fs] [res|err]] eqn:E; [|constructor]. simpl.
  apply Forall_fmap. eapply Forall_impl;
    [exact (spec_add_fills_typed _ _ _ _ _ _ (inv_resting _ _ _ I) Hc E)|].
  intros f Hf. split; [done|]. simpl in Hc. unfold order_typed in Hc. tauto.
Qed.

(** A stream of reports decodes to its fills, numbered from one. *)
Lemma report_stream_decodes fills :
  Forall (fun '(f, t) => fill_typed f /\ is_u64 t) fills ->
  length (report_stream 0 fills) = length fills /\
  forall i f t, fills !! i = Some (f, t) -> exists d, report_stream 0 fills !! i = Some d /\
    decode_execution_report d = Ok (mkReport (wrap 32 (1 + Z.of_nat i)) (f_taker_order_id f)
                                      (f_maker_order_id f) (f_price f) (f_quantity f) t).
Proof.
  intros Ht. unfold report_stream. split; [apply length_imap|]. intros i f t Hi.
  rewrite list_lookup_imap, Hi. simpl. eexists. split; [done|].
  pose proof (Forall_lookup_1 _ _ _ _ Ht Hi) as Hft. simpl in Hft. destruct Hft as [(H1 & H2 & H3 & H4) H5].
  rewrite <- (app_nil_r (report_bytes _ _ _)). apply decode_report_bytes; try done. apply wrap_range. lia.
Qed.

(** ** The matching thread *)

(** All trades of a sequence of commands on the abstract book, those of orders that
    end in an error included. *)
Fixpoint executed (cap : Z) (sp : SpecBook) (cs : list EngineCommand) : list Fill :=
  match cs with
  | [] => []
  | c :: cs =>
      (match c with NewOrder o => snd (fst (spec_add cap sp o)) | CancelOrder _ => [] end) ++
      executed cap (fst (spec_exec cap sp c)) cs
  end.

Definition duplicate_error (r : Response) : Prop :=
  match r with RAdd (Err (MBook (DuplicateOrderId _))) => True | _ => False end.

(** An order trades without being published only if its id is taken. *)
Lemma response_fills_executed cap e sp o :
  engine_inv cap e sp -> order_typed o ->
  let '(_, fs, r) := spec_add cap sp o in
  (fst <$> response_fills (NewOrder o) (RAdd r)) `sublist_of` fs /\
  (~ duplicate_error (RAdd r) -> fst <$> response_fills (NewOrder o) (RAdd r) = fs).
Proof.
  intros I Ho. destruct (spec_add cap sp o) as [[sp' fs] r] eqn:E. destruct r as [res|err]; cbn [response_fills].
  - destruct (spec_add_conserves _ _ _ _ _ _ (inv_resting _ _ _ I) Ho E) as (-> & _).
    rewrite <- list_fmap_compose. assert (forall l : list Fill, (fst ∘ (fun f => (f, o_timestamp o))) <$> l = l) as ->; [|done].
    intros l. apply list_fmap_id.
  - split; [apply sublist_nil_l|]. intros Hd.
    destruct (spec_add_errors _ _ _ _ _ _ E) as [(-> & Hz & _)|[(-> & _)|(-> & _)]].
    + unfold spec_add in E. rewrite decide_True in E by done. by simplify_eq.
    + pose proof (represents_fits _ _ (inv_rep _ _ _ I)) as Hfit. rewrite (inv_capacity _ _ _ I) in Hfit.
      by destruct (spec_add_full _ _ _ _ _ (inv_resting _ _ _ I) Ho Hfit E) as (-> & _).
    + by destruct (Hd Logic.I).
Qed.

Lemma published_executed cap cs sp e :
  engine_inv cap e sp -> Forall command_in_range cs ->
  (fst <$> published cs (snd (spec_run cap sp cs))) `sublist_of` executed cap sp cs /\
  (Forall (fun r => ~ duplicate_error r) (snd (spec_run cap sp cs)) ->
   fst <$> published cs (snd (spec_run cap sp cs)) = executed cap sp cs).
Proof.
  intros I Hcs. revert e sp I. induction Hcs as [|c cs Hc _ IH]; intros e sp I; [done|].
  destruct (spec_run_cons cap sp c cs) as [_ ->]. unfold published. cbn [zip_with concat executed].
  rewrite fmap_app. destruct (exec_spec cap e sp c I Hc) as (e' & _ & I'). destruct (IH e' _ I') as [IH1 IH2].
  assert ((fst <$> response_fills c (snd (spec_exec cap sp c))) `sublist_of`
            (match c with NewOrder o => snd (fst (spec_add cap sp o)) | CancelOrder _ => [] end) /\
          (~ duplicate_error (snd (spec_exec cap sp c)) ->
           fst <$> response_fills c (snd (spec_exec cap sp c)) =
             match c with NewOrder o => snd (fst (spec_add cap sp o)) | CancelOrder _ => [] end)) as [H1 H2].
  { destruct c as [o|id]; cbn [spec_exec]; [|by destruct (spec_cancel sp id)].
    pose proof (response_fills_executed cap e sp o I Hc) as H. by destruct (spec_add cap sp o) as [[? ?] ?]. }
  split; [by apply sublist_app|]. intros [Hd Hds]%Forall_cons. rewrite (H2 Hd). f_equal. exact (IH2 Hds).
Qed.

(** C32. The matching loop executes the commands in the order they leave the ring
    and publishes the trades of accepted orders: with a fresh engine, after any
    events, the book is that of the commands taken, and the datagrams sent are,
    in order, one report per fill of every order that did not end in an error,
    numbered consecutively modulo 2^32; each datagram decodes to its fill.
    These are among the trades executed, in order, and all of them unless an
    order had the id of a resting one (the trades of such an order are not
    published).  The loop takes everything up to the first empty ring after it
    has seen the shutdown flag, and ends there. *)
Theorem loop_executes_and_publishes (C : Codec) cap interval events :
  CodecLaws C -> 0 <= cap < 2 ^ 32 -> Forall command_in_range (commands events) ->
  let st := mkGw (MatchingEngine.with_capacity cap) None None 0 (replicate EXECUTION_REPORT_SIZE 0) 0 [] in
  let cs := commands (consumed events false) in
  let rs := snd (spec_run cap sp_empty cs) in
  let fills := published cs rs in
  exists st', matching_loop interval events false st = Some (st', ends events false) /\
    represents (e_book (g_engine st')) (fst (spec_run cap sp_empty cs)) /\
    length (g_sent st') = length fills /\
    (forall i f t, fills !! i = Some (f, t) -> exists d, g_sent st' !! i = Some d /\
      decode_execution_report d = Ok (mkReport (wrap 32 (1 + Z.of_nat i)) (f_taker_order_id f)
                                        (f_maker_order_id f) (f_price f) (f_quantity f) t)) /\
    (fst <$> fills) `sublist_of` executed cap sp_empty cs /\
    (Forall (fun r => ~ duplicate_error r) rs -> fst <$> fills = executed cap sp_empty cs).
Proof.
  intros Laws Hcap Hcs st cs rs fills. pose proof (with_capacity_inv cap Hcap) as I0.
  assert (gw_inv cap st sp_empty []) as I by (split; try done).
  destruct (matching_loop_spec cap interval events false st _ _ I Hcs) as (st' & fs' & Hl & I' & Hs).
  exists st'. split; [done|]. split; [apply (inv_rep _ _ _ (gi_engine _ _ _ _ I'))|].
  pose proof (Forall_consumed _ _ false Hcs) as Hcs1.
  destruct (report_stream_decodes fills (published_typed cap cs _ _ I0 Hcs1)) as [Hlen Hdec].
  rewrite app_nil_l in Hs. rewrite Hs. split; [exact Hlen|]. split; [exact Hdec|].
  exact (published_executed cap cs _ _ I0 Hcs1).
Qed.

(** Two orders trade; the loop ends after the flag is seen. *)
Definition trading_events : list LoopEvent :=
  [GotCommand (NewOrder (mkOrder 1 10 Ask 105 5 7)) IoOk SaveOk; NoCommand false;
   GotCommand (NewOrder (mkOrder 2 11 Bid 105 3 8)) IoOk SaveOk; NoCommand true; NoCommand true].

Lemma loop_executes_and_publishes_witness :
  exists st' d, matching_loop 10 trading_events false
      (mkGw (MatchingEngine.with_capacity 4) None None 0 (replicate 48 0) 0 []) = Some (st', true) /\
    g_sent st' !! 0%nat = Some d /\ decode_execution_report d = Ok (mkReport 1 2 1 105 3 8).
Proof.
  destruct (loop_executes_and_publishes demo_codec 4 10 trading_events
    demo_laws ltac:(lia) ltac:(repeat constructor; simpl; unfold_ranges; lia)) as (st' & H1 & _ & _ & H2 & _).
  destruct (H2 0%nat (mkFill 2 1 105 3 false) 8) as (d & H3 & H4); [vm_compute; reflexivity|].
  exists st', d. split; [exact H1|]. split; [exact H3|exact H4].
Defined.

(** A persistent session survives a restart: if the log can always grow,
    then whatever happens to the snapshots (saved, failed, or half written)
    and at whatever interval, recovering from the directory and the log left
    behind gives the live book up to timestamps. *)
Theorem session_survives_restart (C : Codec) cap interval size size' events w0 :
  CodecLaws C -> 0 <= cap < 2 ^ 32 -> 0 <= size -> 0 <= size' ->
  Forall command_typed (commands events) -> appends_succeed events ->
  Z.of_nat (length (commands events)) < 10 ^ 10 ->
  open_with_size crc32 [] size true = Some (Ok w0) ->
  exists st' w dir er wr os osr,
    matching_loop interval events false
      (mkGw (MatchingEngine.with_capacity cap) (Some w0) (Some ∅) 0 (replicate EXECUTION_REPORT_SIZE 0) 0 [])
      = Some (st', ends events false) /\
    g_wal st' = Some w /\ g_dir st' = Some dir /\
    recover_with_wal_size (Some dir) (w_file w) cap (Some size') true true true = Some (Ok (er, wr)) /\
    OrderBook.all_resting_orders (e_book (g_engine st')) = Some os /\
    OrderBook.all_resting_orders (e_book er) = Some osr /\ strip <$> osr = strip <$> os.
Proof.
  intros Laws Hcap Hs Hs' Hcs Hio Hlen Ho.
  destruct (fresh_log crc32 crc32_range size [] w0 w0 Hs Ho eq_refl) as [R0 _].
  set (st := mkGw _ _ _ _ _ _ _).
  assert (gw_inv cap st (fst (spec_run cap sp_empty [])) (command_frame <$> [])) as I.
  { split; [by apply with_capacity_inv|exact R0|done|unfold is_u32; simpl; lia]. }
  destruct (durable_loop cap interval events false st [] _ I) as (st' & sp' & Hl & I' & B' & [w Hw] & dir & Hd & Hok);
    [done|by eexists|exists ∅; split; [done|apply dir_ok_empty]|by apply typed_in_range|done|done|].
  rewrite app_nil_l in *.
  pose proof (Forall_consumed _ _ false Hcs) as Hcs1.
  destruct Hok as [_ (latest & cs1 & cs2 & Hlat & Ecs & Hsnap)]. rewrite Ecs in *.
  pose proof (gi_wal _ _ _ _ I') as R. unfold log_holds in R. rewrite Hw in R.
  destruct (reopen_log crc32 crc32_range w _ size' R Hs') as (wr & Hor & Rr).
  destruct (recover_spec cap (Some dir) latest (w_file w) size' wr cs1 cs2 Hcap Hcs1 Hlat Hsnap Hor Rr)
    as (er & spr & Hrec & Ir & Hsp).
  exists st', w, dir, er, wr. eexists _, _. split; [done|]. split; [done|]. split; [done|]. split; [exact Hrec|].
  split; [apply all_resting_orders_rep, (inv_rep _ _ _ (gi_engine _ _ _ _ I'))|].
  split; [apply all_resting_orders_rep, (inv_rep _ _ _ Ir)|]. apply strip_orders. by rewrite Hsp, B'.
Qed.

(** The session of the witness: a snapshot after the second command. *)
Definition session_events : list LoopEvent :=
  [GotCommand (NewOrder (mkOrder 1 10 Ask 105 5 7)) IoOk SaveOk;
   GotCommand (NewOrder (mkOrder 2 11 Bid 100 3 8)) IoOk SaveOk; NoCommand false;
   GotCommand (NewOrder (mkOrder 3 12 Bid 105 2 9)) IoOk (SaveTorn [1; 2]); NoCommand true; NoCommand true].

Definition session_start : GwState :=
  mkGw (MatchingEngine.with_capacity 4) (Some (mkWal (replicate 64 0) 0 64 (replicate 40 0) 0)) (Some ∅)
       0 (replicate 48 0) 0 [].

Lemma session_survives_restart_witness :
  exists st' w dir er wr, matching_loop 2 session_events false session_start = Some (st', true) /\
    g_wal st' = Some w /\ g_dir st' = Some dir /\
    recover_with_wal_size (Some dir) (w_file w) 4 (Some 64) true true true = Some (Ok (er, wr)).
Proof.
  destruct (session_survives_restart demo_codec 4 2 64 64 session_events
    (mkWal (replicate 64 0) 0 64 (replicate 40 0) 0)) as (st' & w & dir & er & wr & _ & _ & H0 & H1 & H2 & H3 & _).
  - exact demo_laws.
  - lia.
  - lia.
  - lia.
  - repeat constructor; simpl; unfold_ranges; lia.
  - repeat constructor.
  - simpl. lia.
  - vm_compute. reflexivity.
  - exists st', w, dir, er, wr. split; [exact H0|]. split; [exact H1|]. split; [exact H2|exact H3].
Defined.

(** Trades can go unreported: an order with the id of a resting order that
    trades and leaves a rest changes the book, but since the engine reports an
    error no execution report is sent for its fills. *)
Theorem duplicate_id_fills_unreported :
  exists st st' os os', matching_loop 10
      [GotCommand (NewOrder (mkOrder 1 10 Ask 105 5 7)) IoOk SaveOk;
       GotCommand (NewOrder (mkOrder 2 11 Bid 100 3 8)) IoOk SaveOk] false session_start = Some (st, false) /\
    process_command (NewOrder (mkOrder 2 12 Bid 105 9 9)) IoOk st = Some st' /\
    OrderBook.all_resting_orders (e_book (g_engine st)) = Some os /\
    OrderBook.all_resting_orders (e_book (g_engine st')) = Some os' /\
    sum_qty os' < sum_qty os /\ g_sent st' = g_sent st.
Proof.
  eexists _, _, _, _. split; [vm_compute; reflexivity|]. split; [vm_compute; reflexivity|].
  split; [vm_compute; reflexivity|]. split; [vm_compute; reflexivity|]. split; reflexivity.
Qed.
