(* ===== verification/Sessions.v ===== *)
(** * Sessions.v: a server restarted again and again

    The data directory across sessions of [run] ([src/gateway.rs]): each session
    recovers from the snapshots and the log the previous ones left, executes
    commands, and ends (or is killed) after any of them; between sessions there
    may be starts whose opening of the log failed on the way.  Such a start runs
    without persistence ([run_setup]) and adds nothing to the directory. *)

From stdpp Require Import strings.
From S2P Require Import Prelude.
From S2P Require Import Order.
From S2P Require Import Book.
From S2P Require Import BookSpec.
From S2P Require Import BookInv.
From S2P Require Import Matching.
From S2P Require Import MatchingSpec.
From S2P Require Import MatchingInv.
From S2P Require Import Protocol.
From S2P Require Import ProtocolInv.
From S2P Require Import Engine.
From S2P Require Import Wal.
From S2P Require Import WalInv.
From S2P Require Import WalThm.
From S2P Require Import Snapshot.
From S2P Require Import SnapshotInv.
From S2P Require Import Recovery.
From S2P Require Import RecoveryInv.
From S2P Require Import RecoveryThm.
From S2P Require Import Gateway.
From S2P Require Import GatewayInv.

Section sessions.
Context {C : Codec}.


Context {L : CodecLaws C}.






End sessions.



