(* ===== verification/Fuzz.v ===== *)
(** * Fuzz.v: the fuzz targets ([fuzz/fuzz_targets/]) as theorems

    Each target runs the decoder or the recovery on arbitrary bytes and asserts
    what must hold.  Here a target is a function of the bytes to the outcome of
    its assertions; the theorems say for which bytes they hold: the protocol
    target for all, the log target for all but the bound on the write position,
    the snapshot target unless a valid snapshot cannot be restored. *)

From stdpp Require Import strings.
From S2P Require Import Prelude.
From S2P Require Import Order.
From S2P Require Import Arena.
From S2P Require Import Book.
From S2P Require Import BookSpec.
From S2P Require Import BookInv.
From S2P Require Import Matching.
From S2P Require Import MatchingSpec.
From S2P Require Import MatchingInv.
From S2P Require Import Protocol.
From S2P Require Import ProtocolInv.
From S2P Require Import ProtocolThm.
From S2P Require Import Engine.
From S2P Require Import Wal.
From S2P Require Import WalInv.
From S2P Require Import WalThm.
From S2P Require Import Snapshot.
From S2P Require Import SnapshotInv.
From S2P Require Import Recovery.
From S2P Require Import RecoveryInv.
From S2P Require Import RecoveryThm.

#[global] Instance ExecutionReport_eq_dec : EqDecision ExecutionReport.
Proof. solve_decision. Defined.

(** ** [protocol_decode] *)

(** The assertions about a decoded command: it encodes, into as many bytes as
    the message has, and these decode to it. *)
Definition fuzz_command (data : list Z) : bool :=
  match decode_message data with
  | Ok (NewOrder order) =>
      match encode_new_order (replicate NEW_ORDER_SIZE 0) order with
      | Ok (buf, n) =>
          bool_decide (n = NEW_ORDER_SIZE) && bool_decide (decode_message (take n buf) = Ok (NewOrder order))
      | Err _ => false
      end
  | Ok (CancelOrder order_id) =>
      match encode_cancel_order (replicate CANCEL_ORDER_SIZE 0) order_id with
      | Ok (buf, n) =>
          bool_decide (n = CANCEL_ORDER_SIZE) && bool_decide (decode_message (take n buf) = Ok (CancelOrder order_id))
      | Err _ => false
      end
  | Err _ => true
  end.

(** The assertions about a decoded report. *)
Definition fuzz_report (data : list Z) : bool :=
  match decode_execution_report data with
  | Ok report =>
      bool_decide (EXECUTION_REPORT_SIZE <= length data)%nat &&
      bool_decide (decode_execution_report (take EXECUTION_REPORT_SIZE data) = Ok report)
  | Err _ => true
  end.

(** The target.  Its first loop only calls the decoders on every prefix: here they
    are total functions, which is the absence of panics it looks for. *)
Definition fuzz_protocol_decode (data : list Z) : bool := fuzz_command data && fuzz_report data.

Lemma fuzz_command_holds data : bytes_ok data -> fuzz_command data = true.
Proof.
  intros Hb. unfold fuzz_command. destruct (decode_message data) as [c|] eqn:E; [|done].
  destruct (decode_message_inv _ _ Hb E) as (Ht & Hu & _).
  assert (decode_message (command_layout (replicate (pad_size c) 0) c ++ []) = Ok c) as Hd.
  { rewrite decode_layout by (done || by rewrite length_replicate). by rewrite Hu. }
  rewrite app_nil_r in Hd. destruct c as [o|id].
  - rewrite encode_new_order_eq by (by rewrite length_replicate).
    rewrite bool_decide_true by done. rewrite take_app_le by (by rewrite length_new_order_bytes).
    rewrite take_ge by (by rewrite length_new_order_bytes). simpl andb. apply bool_decide_eq_true. exact Hd.
  - rewrite encode_cancel_eq by (by rewrite length_replicate).
    rewrite bool_decide_true by done. rewrite take_app_le by (by rewrite length_cancel_bytes).
    rewrite take_ge by (by rewrite length_cancel_bytes). simpl andb. apply bool_decide_eq_true. exact Hd.
Qed.

(** The report decoder reads nothing behind the message. *)
Lemma decode_report_prefix data :
  (EXECUTION_REPORT_SIZE <= length data)%nat ->
  decode_execution_report (take EXECUTION_REPORT_SIZE data) = decode_execution_report data.
Proof.
  intros Hl. rewrite <- (take_drop EXECUTION_REPORT_SIZE data) at 2.
  set (a := take _ data). set (b := drop _ data).
  assert (length a = EXECUTION_REPORT_SIZE) as Ha by (unfold a; rewrite length_take; lia).
  unfold EXECUTION_REPORT_SIZE in Ha.
  unfold decode_execution_report. rewrite !decide_False by (rewrite ?length_app; unfold EXECUTION_REPORT_SIZE; lia).
  unfold read_u32, read_u64, read_i64. by rewrite !get_range_app by lia.
Qed.

Lemma fuzz_report_holds data : fuzz_report data = true.
Proof.
  unfold fuzz_report. destruct (decode_execution_report data) as [report|] eqn:E; [|done].
  assert (EXECUTION_REPORT_SIZE <= length data)%nat as Hl.
  { unfold decode_execution_report in E. case_decide; [done|lia]. }
  rewrite decode_report_prefix by done. rewrite bool_decide_true by done. by apply bool_decide_eq_true.
Qed.

(** The protocol fuzz target never fails: for every byte string, a command
    that decodes re-encodes to its canonical size and decodes to itself, and a
    report decodes the same from its first 48 bytes. *)
Theorem fuzz_protocol_never_fails data : bytes_ok data -> fuzz_protocol_decode data = true.
Proof. intros Hb. unfold fuzz_protocol_decode. by rewrite fuzz_command_holds, fuzz_report_holds. Qed.

Lemma fuzz_protocol_never_fails_witness : fuzz_protocol_decode (2 :: replicate 60 255) = true.
Proof. apply fuzz_protocol_never_fails. apply (bool_decide_unpack _). vm_compute. exact I. Defined.

(** ** [wal_recover] *)

Section fuzz.
Context {C : Codec}.

Definition fuzz_recover (dir : option Dir) (file : list Z) : option (result (MatchingEngine * Wal) RecoveryError) :=
  recover_with_wal_size dir file 1024 (Some 65536) true true true.

(** The assertions of one run. *)
Record FuzzOutcome : Type := mkOutcome {
  fo_count : bool;    (* [count <= data.len() / 24 + 1] *)
  fo_pos : bool;      (* [write_pos <= data.len().max(8)] *)
  fo_again : bool     (* the second recovery agrees with the first *)
}.

(** The file the first recovery leaves when it refuses the log: only opening
    changed it. *)
Definition opened_file (data : list Z) : list Z :=
  match open_with_size crc32 data 65536 true with Some (Ok w) => w_file w | _ => data end.

(** [None]: the target panics outside its assertions. *)
Definition fuzz_wal_recover (data : list Z) : option FuzzOutcome :=
  match fuzz_recover None data with
  | Some (Ok (engine, wal)) =>
      let count := record_count wal in
      state ← OrderBook.all_resting_orders (MatchingEngine.book engine);
      Some (mkOutcome (bool_decide (count <= zlen data / 24 + 1))
                      (bool_decide (write_pos wal <= Z.max (zlen data) 8))
                      (match fuzz_recover None (w_file wal) with
                       | Some (Ok (engine2, wal2)) =>
                           bool_decide (record_count wal2 = count) &&
                           bool_decide (OrderBook.all_resting_orders (MatchingEngine.book engine2) = Some state)
                       | _ => false
                       end))
  | Some (Err (RecWal (WalProtocol first))) =>
      match fuzz_recover None (opened_file data) with
      | Some (Err (RecWal (WalProtocol second))) => Some (mkOutcome true true (bool_decide (first = second)))
      | _ => None
      end
  | _ => None
  end.

Context {L : CodecLaws C}.

(** Replaying any records: the decoded commands, up to the first that is none. *)
Fixpoint replay_payloads (e : MatchingEngine) (fs : list Frame) : option (result MatchingEngine ProtocolError) :=
  match fs with
  | [] => Some (Ok e)
  | f :: fs =>
      match decode_message (fr_payload f) with
      | Ok c => e ← replay_command e c; replay_payloads e fs
      | Err err => Some (Err err)
      end
  end.

Lemma replay_loop_payloads fs2 fuel e w it fs1 k :
  it_at crc32 it fs1 fs2 -> it_start_record it <= it_current_record it -> (length fs2 < fuel)%nat ->
  replay_loop fuel e w it k =
    r ← replay_payloads e fs2;
    Some (match r with Ok e' => Ok (e', w) | Err err => Err (RecWal (WalProtocol err)) end).
Proof.
  revert fuel e it fs1 k. induction fs2 as [|f fs2 IH]; intros fuel e it fs1 k Hit Hst Hfuel;
    (destruct fuel as [|fuel]; [simpl in Hfuel; lia|]); cbn [replay_loop replay_payloads]; unfold next.
  - by rewrite (next_loop_end crc32 _ _ _ Hit).
  - rewrite (next_loop_frame crc32 crc32_range _ _ _ _ _ Hit). rewrite decide_False by lia.
    cbn [mbind option_bind]. unfold record_item. destruct (decode_message (fr_payload f)) as [c|err]; [|done].
    destruct (replay_command e c) as [e1|]; [|done]. cbn [mbind option_bind].
    apply (IH fuel e1 _ _ (k + 1) (advance_at crc32 _ _ _ _ Hit)); [simpl; lia|simpl in Hfuel; lia].
Qed.

Lemma fuzz_recover_payloads file w fs :
  open_with_size crc32 file 65536 true = Some (Ok w) -> wal_rep crc32 w fs ->
  fuzz_recover None file =
    r ← replay_payloads (MatchingEngine.with_capacity 1024) fs;
    Some (match r with Ok e' => Ok (e', w) | Err err => Err (RecWal (WalProtocol err)) end).
Proof.
  intros Ho R. unfold fuzz_recover, recover_with_wal_size, load_latest. cbn [negb mbind option_bind].
  rewrite Ho. cbn [mbind option_bind]. pose proof (iter_from_at crc32 w fs 0 R) as Hit.
  apply (replay_loop_payloads _ _ _ _ _ _ _ Hit); [simpl; lia|].
  pose proof (length_log_data crc32 _ _ _ Hit) as Hl. change (it_mmap (iter_from w 0)) with (w_mmap w) in Hl. lia.
Qed.

(** Replay does not panic; if all records are messages the result stands for
    some book, and each takes at least 24 bytes. *)
Lemma replay_payloads_total cap e sp fs :
  engine_inv cap e sp -> bytes_ok (log_bytes crc32 fs) -> Forall frame_ok fs ->
  exists r, replay_payloads e fs = Some r /\
    match r with
    | Ok e' => (exists sp', engine_inv cap e' sp') /\
               Forall (fun f => 24 <= zlen (frame_bytes crc32 f)) fs
    | Err _ => True
    end.
Proof.
  intros I Hb Hfs. revert e sp I Hb. induction Hfs as [|f fs Hf _ IH]; intros e sp I Hb; cbn [replay_payloads].
  - exists (Ok e). split; [done|]. split; [by exists sp|constructor].
  - rewrite log_bytes_cons in Hb. apply Forall_app in Hb as [Hbf Hb].
    destruct (decode_message (fr_payload f)) as [c|err] eqn:E; [|by eexists].
    assert (bytes_ok (fr_payload f)) as Hbp.
    { unfold frame_bytes in Hbf. rewrite !Forall_app in Hbf. tauto. }
    destruct (decode_message_inv _ _ Hbp E) as (Hty & Hun & pad & rest & Hpad & Elay).
    destruct (replay_command_spec cap e sp c I Hty) as (e1 & He1 & I1). rewrite Hun in He1.
    rewrite He1. cbn [mbind option_bind]. destruct (IH e1 _ I1 Hb) as (r & -> & Hr).
    exists r. split; [done|]. destruct r as [e'|]; [|done]. destruct Hr as [Hi Hlen].
    split; [done|]. constructor; [|done].
    rewrite (zlen_frame crc32 f Hf). pose proof (align_up_bounds (HEADER_SIZE + zlen (fr_payload f))) as [Ha _].
    assert (16 <= zlen (fr_payload f)) as H16.
    { rewrite Elay, zlen_app. pose proof (zlen_nonneg rest). assert (zlen (command_layout pad c) = Z.of_nat (message_bytes c)) as ->
        by (unfold zlen; by rewrite length_layout).
      destruct c; cbn [message_bytes]; unfold NEW_ORDER_SIZE, CANCEL_ORDER_SIZE; lia. }
    unfold HEADER_SIZE in *. lia.
Qed.

(** Every record starts inside the data: what follows is zeroes. *)
Lemma record_count_bound data n fs rest :
  data ++ replicate n 0 = log_bytes crc32 fs ++ rest -> Forall frame_ok fs ->
  Forall (fun f => 24 <= zlen (frame_bytes crc32 f)) fs ->
  Z.of_nat (length fs) <= zlen data / 24 + 1.
Proof.
  intros E Hok H24. induction fs as [|f fs _] using rev_ind.
  { pose proof (Z.div_pos (zlen data) 24 (zlen_nonneg data) ltac:(lia)). simpl length. lia. }
  apply Forall_app in Hok as [_ [Hf _]%Forall_cons], H24 as [H24 _].
  assert (24 * Z.of_nat (length fs) <= zlen (log_bytes crc32 fs)) as Hlen.
  { clear -H24. induction H24 as [|g fs Hg _ IH]; [done|]. rewrite log_bytes_cons, zlen_app. cbn [length]. lia. }
  assert (zlen (log_bytes crc32 fs) < zlen data) as Hlt.
  { destruct (decide (zlen (log_bytes crc32 fs) < zlen data)) as [|Hge]; [done|exfalso].
    rewrite log_bytes_snoc, <- app_assoc in E.
    assert (exists m, frame_bytes crc32 f ++ rest = replicate m 0) as (m & Em).
    { apply (f_equal (drop (length (log_bytes crc32 fs)))) in E. rewrite drop_app_length in E.
      rewrite drop_app_ge in E by (unfold zlen in *; lia). rewrite drop_replicate in E. eauto. }
    by apply (no_frame_zeros crc32 m f rest Hf). }
  rewrite length_app. cbn [length]. assert (Z.of_nat (length fs) <= zlen data / 24); [|lia].
  apply Z.div_le_lower_bound; lia.
Qed.

(** The snapshot file of the third target: record number one. *)
Definition fuzz_dir (data : list Z) : Dir := {[ snapshot_filename 1 := data ]}.

(** ** [snapshot_load] *)

(** Recovery succeeds and the log is empty; [None] would be a panic inside it. *)
Definition fuzz_snapshot_load (data : list Z) : option bool :=
  r ← fuzz_recover (Some (fuzz_dir data)) [];
  Some (match r with Ok (_, wal) => bool_decide (record_count wal = 0) | Err _ => false end).

(** The snapshot the file is accepted as. *)
Definition accepted (data : list Z) : option Snapshot :=
  s ← deserialize data;
  if is_ok (verify_checksum s) then Some s else None.

Lemma load_latest_fuzz data : load_latest (Some (fuzz_dir data)) true = Ok (accepted data).
Proof.
  unfold load_latest, fuzz_dir, snapshot_files. rewrite map_to_list_singleton. cbn [fmap list_fmap fst].
  rewrite filter_cons_True by apply snapshot_name_ok. rewrite filter_nil.
  assert (merge_sort String.le [snapshot_filename 1] = [snapshot_filename 1]) as ->.
  { apply Permutation_singleton_r, merge_sort_Permutation. }
  change (reverse [snapshot_filename 1]) with [snapshot_filename 1]. cbn [load_loop]. unfold load_from_file, accepted.
  rewrite lookup_singleton_eq. destruct (deserialize data) as [s|]; [|done]. simpl.
  by destruct (is_ok (verify_checksum s)).
Qed.

Lemma spec_inserts_ok cap os sp :
  Z.of_nat (length (sp_all sp)) <= cap ->
  is_ok (snd (spec_inserts cap sp os)) = true <->
  NoDup (o_id <$> os) /\ (forall o, o ∈ os -> o_id o ∉ sp_ids sp) /\
  Z.of_nat (length (sp_all sp) + length os) <= cap.
Proof.
  revert sp. induction os as [|o os IH]; intros sp Hsp; simpl.
  { split; [|done]. intros _. split; [constructor|]. split; [by intros o ?%elem_of_nil|]. lia. }
  unfold spec_insert. destruct (decide (o_id o ∈ sp_ids sp)) as [Hin|Hin].
  { simpl. split; [done|]. intros (_ & Hno & _). destruct (Hno o); [left|done]. }
  destruct (decide (Z.of_nat (length (sp_all sp)) = cap)) as [Hfull|Hfull].
  { simpl. split; [done|]. intros (_ & _ & Hl). lia. }
  set (sp' := sp_set _ _ sp).
  assert (sp_ids sp' ≡ₚ o_id o :: sp_ids sp) as Hp.
  { unfold sp'. by rewrite sp_ids_set, insert_prio_Permutation, fmap_cons, (sp_ids_sides (o_side o) sp). }
  assert (length (sp_all sp') = S (length (sp_all sp))) as Hlen.
  { pose proof (Permutation_length Hp) as Hl. unfold sp_ids in Hl. simpl in Hl. by rewrite !length_fmap in Hl. }
  rewrite (IH sp') by lia. rewrite Hlen, NoDup_cons.
  split.
  - intros (Hnd & Hno & Hl). split; [split; [|done]|split; [|lia]].
    + rewrite list_elem_of_fmap. intros (x & Ex & Hx). apply (Hno x Hx). rewrite Hp, <- Ex. left.
    + intros x [->|Hx]%elem_of_cons; [done|]. intros Hx'. apply (Hno x Hx). rewrite Hp. by right.
  - intros ((Hni & Hnd) & Hno & Hl). split; [done|]. split; [|lia].
    intros x Hx. rewrite Hp. intros [E|Hx']%elem_of_cons; [|by apply (Hno x); [right|]].
    apply Hni. rewrite list_elem_of_fmap. by exists x.
Qed.

End fuzz.

(** The log fuzz target on arbitrary bytes: recovery never panics and fails
    only with a protocol error, the number of records is bounded by the data, and
    recovering what the first recovery left gives the same records and book, or
    the same refusal.  The bound on the write position holds for files of at
    least the initial size. *)
Theorem fuzz_wal_oracle (C : Codec) data :
  CodecLaws C -> bytes_ok data ->
  exists o, fuzz_wal_recover data = Some o /\ fo_count o = true /\ fo_again o = true /\
    (65536 <= zlen data -> fo_pos o = true).
Proof.
  intros Laws Hb. destruct (open_spec crc32 crc32_range data 65536 Hb ltac:(lia)) as (w & fs & rest & Ho & R & E & Hno & _).
  destruct (reopen_log crc32 crc32_range w fs 65536 R ltac:(lia)) as (w2 & Ho2 & R2).
  pose proof (fuzz_recover_payloads data w fs Ho R) as H1.
  pose proof (fuzz_recover_payloads (w_file w) w2 fs Ho2 R2) as H2.
  destruct (replay_payloads_total 1024 _ _ fs (with_capacity_inv 1024 ltac:(lia)) (wr_bytes _ _ _ R) (wr_frames _ _ _ R))
    as (r & Hr & Hres).
  rewrite Hr in H1, H2. cbn [mbind option_bind] in H1, H2. unfold fuzz_wal_recover. rewrite H1.
  destruct r as [e|err].
  - destruct Hres as [[sp I] H24]. change (MatchingEngine.book e) with (e_book e).
    rewrite (all_resting_orders_rep _ _ (inv_rep _ _ _ I)). cbn [mbind option_bind].
    rewrite H2. change (MatchingEngine.book e) with (e_book e).
    rewrite (all_resting_orders_rep _ _ (inv_rep _ _ _ I)). eexists. split; [done|]. cbn [fo_count fo_again fo_pos].
    unfold record_count, write_pos. rewrite (wr_count _ _ _ R), (wr_count _ _ _ R2), (wr_pos _ _ _ R). split.
    { apply bool_decide_eq_true. by eapply record_count_bound; [exact E|apply R|]. }
    split; [by rewrite !bool_decide_true by done|]. intros Hbig. apply bool_decide_eq_true.
    apply (f_equal zlen) in E. rewrite !zlen_app, zlen_replicate in E. pose proof (zlen_nonneg rest). lia.
  - assert (opened_file data = w_file w) as -> by (unfold opened_file; by rewrite Ho).
    rewrite H2. eexists. split; [done|]. cbn [fo_count fo_again fo_pos]. by rewrite bool_decide_true by done.
Qed.

Lemma fuzz_wal_oracle_witness :
  exists o, fuzz_wal_recover (C := demo_codec) (log_bytes byte_sum [mkFrame [255] [0; 0; 0; 0; 0; 0; 0]] ++ [1; 2; 3]) = Some o /\
    fo_again o = true.
Proof.
  destruct (fuzz_wal_oracle demo_codec (log_bytes byte_sum [mkFrame [255] [0; 0; 0; 0; 0; 0; 0]] ++ [1; 2; 3]) demo_laws)
    as (o & H1 & _ & H2 & _).
  - apply (bool_decide_unpack _). vm_compute. exact I.
  - exists o. split; [exact H1|exact H2].
Defined.

(** The assertion [write_pos <= data.len().max(8)] of the log target does fail: a
    record cut inside its trailing zero bytes is completed by the zeroes the file
    is extended with, so the log ends behind the data. *)
Theorem fuzz_wal_position_fails (C : Codec) :
  CodecLaws C -> exists data o, bytes_ok data /\ zlen data = 17 /\ fuzz_wal_recover data = Some o /\ fo_pos o = false.
Proof.
  intros Laws. set (f := command_frame (CancelOrder 1)). set (data := take 17 (frame_bytes crc32 f)).
  assert (frame_bytes crc32 f = data ++ replicate 7 0) as Ef by reflexivity.
  assert (zlen data = 17) as Hlen by reflexivity.
  assert (bytes_ok data) as Hb by (apply Forall_take, command_frame_bytes_ok).
  assert (log_bytes crc32 [f] = frame_bytes crc32 f) as El by (rewrite log_bytes_cons; apply app_nil_r).
  destruct (open_finds crc32 crc32_range data 65536 [f] (replicate (Z.to_nat (65536 - zlen data) - 7) 0))
    as (w & Ho & R); [done|lia|repeat constructor; apply command_frame_ok| |apply no_frame_zeros|].
  { rewrite El, Ef, <- app_assoc, <- replicate_add. do 2 f_equal; lia. }
  pose proof (fuzz_recover_payloads data w [f] Ho R) as H1.
  destruct (replay_payloads_total 1024 _ _ [f] (with_capacity_inv 1024 ltac:(lia)) (wr_bytes _ _ _ R) (wr_frames _ _ _ R))
    as (r & Hr & Hres).
  assert (exists e, r = Ok e) as (e & ->).
  { cbn [replay_payloads] in Hr. assert (decode_message (fr_payload f) = Ok (CancelOrder 1)) as Hd by reflexivity.
    rewrite Hd in Hr. destruct (replay_command _ _) as [e|]; cbn [mbind option_bind] in Hr; [|discriminate Hr].
    injection Hr as <-. by exists e. }
  rewrite Hr in H1. cbn [mbind option_bind] in H1. destruct Hres as [[sp I] _].
  exists data. eexists. split; [done|]. split; [done|]. unfold fuzz_wal_recover. rewrite H1.
  change (MatchingEngine.book e) with (e_book e).
  rewrite (all_resting_orders_rep _ _ (inv_rep _ _ _ I)). cbn [mbind option_bind]. split; [reflexivity|].
  cbn [fo_pos]. unfold write_pos. rewrite (wr_pos _ _ _ R), El, Ef, zlen_app, Hlen. apply bool_decide_eq_false. rewrite zlen_replicate. lia.
Qed.

(** The snapshot fuzz target on arbitrary bytes: recovery never panics, and
    it succeeds on an empty log exactly when the file is rejected or holds a
    snapshot with distinct order ids that fit into the arena. *)
Theorem fuzz_snapshot_oracle (C : Codec) data :
  CodecLaws C ->
  exists b, fuzz_snapshot_load data = Some b /\
    (b = true <-> forall s, accepted data = Some s ->
       NoDup (o_id <$> sn_orders s) /\ Z.of_nat (length (sn_orders s)) <= 1024).
Proof.
  intros Laws.
  destruct (open_spec crc32 crc32_range [] 65536 ltac:(constructor) ltac:(lia)) as (w & fs & rest & Ho & R & E & Hno & _).
  assert (fs = []) as ->.
  { by destruct (log_unique crc32 [] fs _ _ (Forall_nil_2 _) (wr_frames _ _ _ R) (no_frame_zeros crc32 _) Hno E) as [<- _]. }
  unfold fuzz_snapshot_load, fuzz_recover, recover_with_wal_size. rewrite load_latest_fuzz. cbn [negb].
  assert (forall e start k, replay_loop (S (length (w_mmap w))) e w (iter_from w start) k = Some (Ok (e, w))) as Hrep.
  { intros e start k. cbn [replay_loop]. unfold next.
    by rewrite (next_loop_end crc32 _ _ _ (iter_from_at crc32 w [] start R)). }
  pose proof (wr_count _ _ _ R) as Hcnt. simpl in Hcnt.
  destruct (accepted data) as [s|].
  - pose proof (restore_loop_spec 1024 (sn_orders s) (MatchingEngine.with_capacity 1024) sp_empty) as Hr.
    pose proof (spec_inserts_ok 1024 (sn_orders s) sp_empty ltac:(simpl; lia)) as Hok.
    unfold restore, MatchingEngine.restore_from_orders.
    specialize (Hr ltac:(apply with_capacity_rep; lia) eq_refl).
    destruct (spec_inserts 1024 sp_empty (sn_orders s)) as [sp [[]|err]]; cbn [snd is_ok] in Hok.
    + destruct Hr as (e & -> & _). cbn [mbind option_bind map_err result_map]. rewrite Ho. cbn [mbind option_bind].
      rewrite Hrep. cbn [mbind option_bind]. eexists. split; [done|]. unfold record_count. rewrite Hcnt, bool_decide_true by done.
      split; [|done]. intros _ s' [= <-]. destruct Hok as [Hok _]. destruct (Hok eq_refl) as (? & _ & Hl). split; [done|].
      simpl in Hl. lia.
    + rewrite Hr. cbn [mbind option_bind map_err result_map]. eexists. split; [done|]. split; [done|]. intros Hall.
      destruct (Hall s eq_refl) as [Hnd Hl]. destruct Hok as [_ Hok]. apply Hok. split; [done|].
      split; [by intros o _ ?%elem_of_nil|]. simpl. lia.
  - cbn [mbind option_bind]. rewrite Ho. cbn [mbind option_bind]. rewrite Hrep. cbn [mbind option_bind].
    eexists. split; [done|]. unfold record_count. rewrite Hcnt, bool_decide_true by done. by split.
Qed.

(** Two orders with the same id in a snapshot with the right checksum. *)
Definition duplicate_snapshot : Snapshot :=
  let os := [mkOrder 1 10 Ask 105 5 7; mkOrder 1 11 Bid 100 3 8] in
  mkSnapshot 1 os None None (compute_checksum (C := demo_codec) 1 None None os).

(** Such a file makes the target fail: recovery returns an error where the
    target expects success. *)
Theorem fuzz_snapshot_can_fail :
  fuzz_snapshot_load (C := demo_codec) (serialize duplicate_snapshot) = Some false.
Proof.
  destruct (fuzz_snapshot_oracle demo_codec (serialize duplicate_snapshot) demo_laws) as ([] & H & Hb); [|exact H].
  exfalso. destruct Hb as [Hb _]. destruct (Hb eq_refl duplicate_snapshot) as [Hnd _]; [vm_compute; reflexivity|].
  revert Hnd. change (o_id <$> sn_orders duplicate_snapshot) with [1; 1].
  intros [Hn _]%NoDup_cons. apply Hn. left.
Qed.

Lemma fuzz_snapshot_oracle_witness :
  exists b, fuzz_snapshot_load (C := demo_codec) [1; 2; 3] = Some b /\
    (b = true <-> forall s, accepted (C := demo_codec) [1; 2; 3] = Some s ->
       NoDup (o_id <$> sn_orders s) /\ Z.of_nat (length (sn_orders s)) <= 1024).
Proof. exact (fuzz_snapshot_oracle demo_codec [1; 2; 3] demo_laws). Defined.
