(* ===== verification/Server.v ===== *)
(** * Server.v: the running server ([run] of [src/gateway.rs])

    The two threads of [run] side by side: the reader pushes the commands of
    the client into the ring, retrying while it is full, and then stores the
    shutdown flag; the matching thread pops, and on an empty ring loads the
    flag and, if it is set, drains the ring and ends.  The threads interleave
    at every access to shared memory.

    The flag is stored with release and loaded with acquire ordering: a load
    that returns [true] makes the reader's earlier stores of [head] visible,
    so later loads of [head] are at least as new; a load may return a stale
    [false]. *)

From S2P Require Import Prelude.
From S2P Require Import Protocol.
From S2P Require Import Wal.
From S2P Require Import Ring.
From S2P Require Import Gateway.

(** Where the matching thread is: in the main loop, after an [Empty] and before
    loading the flag, in the draining loop, or finished. *)
Inductive Phase : Type :=
| Running
| Checking
| Draining
| Finished.

#[global] Instance Phase_eq_dec : EqDecision Phase.
Proof. solve_decision. Defined.

Record Server : Type := mkServer {
  s_machine : Machine EngineCommand;
  s_todo : list EngineCommand;   (* what the reader has still to push *)
  s_shutdown : option nat;       (* set, with the position of [head] at the store *)
  s_floor : nat;                 (* loads of [head] are at least this new *)
  s_phase : Phase;
  s_trace : list LoopEvent       (* what [matching_loop] has seen *)
}.

Definition popping (ph : Phase) : Prop := ph = Running \/ ph = Draining.

(** After [Empty]: the main loop looks at the flag, the draining loop ends. *)
Definition on_empty (ph : Phase) (trace : list LoopEvent) : Phase * list LoopEvent :=
  match ph with
  | Draining => (Finished, trace ++ [NoCommand true])
  | _ => (Checking, trace)
  end.

(** The reader: [producer.push(cmd)] until it succeeds. *)
Inductive reader_step : Server -> Server -> Prop :=
| reader_begin r p c cpc v todo sd fl ph tr :
    reader_step (mkServer (mkMachine r p c PIdle cpc) (v :: todo) sd fl ph tr)
                (mkServer (mkMachine r p c (push_begin r p v) cpc) (v :: todo) sd fl ph tr)
| reader_load r p c cpc v k p' pc todo sd fl ph tr :
    push_load r p v k = Some (p', Ok pc) ->
    reader_step (mkServer (mkMachine r p c (PLoad v) cpc) todo sd fl ph tr)
                (mkServer (mkMachine r p' c pc cpc) todo sd fl ph tr)
| reader_full r p c cpc v k p' v' todo sd fl ph tr :
    push_load r p v k = Some (p', Err v') ->
    reader_step (mkServer (mkMachine r p c (PLoad v) cpc) todo sd fl ph tr)
                (mkServer (mkMachine r p' c PIdle cpc) todo sd fl ph tr)
| reader_write r p c cpc v r' todo sd fl ph tr :
    push_write r p v = Some r' ->
    reader_step (mkServer (mkMachine r p c (PWrite v) cpc) todo sd fl ph tr)
                (mkServer (mkMachine r' p c PStore cpc) (tail todo) sd fl ph tr)
| reader_store r p c cpc r' p' todo sd fl ph tr :
    push_store r p = (r', p') ->
    reader_step (mkServer (mkMachine r p c PStore cpc) todo sd fl ph tr)
                (mkServer (mkMachine r' p' c PIdle cpc) todo sd fl ph tr)
(* the client is gone: [shutdown.store(true, Release)] *)
| reader_shutdown r p c cpc sd fl ph tr :
    reader_step (mkServer (mkMachine r p c PIdle cpc) [] sd fl ph tr)
                (mkServer (mkMachine r p c PIdle cpc) [] (Some (latest (rb_head r))) fl ph tr).

(** The matching thread: [consumer.pop()]. *)
Inductive loop_step : Server -> Server -> Prop :=
| loop_begin r p c ppc todo sd fl ph tr :
    popping ph ->
    loop_step (mkServer (mkMachine r p c ppc CIdle) todo sd fl ph tr)
                (mkServer (mkMachine r p c ppc (pop_begin c)) todo sd fl ph tr)
| loop_load r p c ppc k c' pc todo sd fl ph tr :
    (fl <= k)%nat -> pop_load r c k = Some (c', Ok pc) ->
    loop_step (mkServer (mkMachine r p c ppc CLoad) todo sd fl ph tr)
                (mkServer (mkMachine r p c' ppc pc) todo sd fl ph tr)
| loop_empty r p c ppc k c' todo sd fl ph tr :
    (fl <= k)%nat -> pop_load r c k = Some (c', Err tt) ->
    loop_step (mkServer (mkMachine r p c ppc CLoad) todo sd fl ph tr)
                (mkServer (mkMachine r p c' ppc CIdle) todo sd fl (fst (on_empty ph tr)) (snd (on_empty ph tr)))
| loop_read r p c ppc r' v todo sd fl ph tr :
    pop_read r c = Some (r', v) ->
    loop_step (mkServer (mkMachine r p c ppc CRead) todo sd fl ph tr)
                (mkServer (mkMachine r' p c ppc (CStore v)) todo sd fl ph tr)
(* the pop returns, and the command is processed; the system calls may fail *)
| loop_store r p c ppc v r' c' wal_io save_io todo sd fl ph tr :
    pop_store r c = (r', c') ->
    loop_step (mkServer (mkMachine r p c ppc (CStore v)) todo sd fl ph tr)
                (mkServer (mkMachine r' p c' ppc CIdle) todo sd fl ph (tr ++ [GotCommand v wal_io save_io]))
(* [shutdown.load(Acquire)] *)
| loop_check_false m todo sd fl tr :
    loop_step (mkServer m todo sd fl Checking tr) (mkServer m todo sd fl Running (tr ++ [NoCommand false]))
| loop_check_true m todo f fl tr :
    loop_step (mkServer m todo (Some f) fl Checking tr)
                (mkServer m todo (Some f) f Draining (tr ++ [NoCommand true])).

Inductive server_step : Server -> Server -> Prop :=
| server_reader s s' : reader_step s s' -> server_step s s'
| server_loop s s' : loop_step s s' -> server_step s s'.

(** The server as [run] starts it, with the commands the reader will decode. *)
Inductive server_start (capacity : Z) (cmds : list EngineCommand) : Server -> Prop :=
| server_started r p c :
    ring_buffer capacity = Some (r, p, c) ->
    server_start capacity cmds (mkServer (mkMachine r p c PIdle CIdle) cmds None 0 Running []).

Inductive server_reach (capacity : Z) (cmds : list EngineCommand) : Server -> Prop :=
| server_reach_start s : server_start capacity cmds s -> server_reach capacity cmds s
| server_reach_step s s' : server_reach capacity cmds s -> server_step s s' -> server_reach capacity cmds s'.
