(* ===== verification/ServerInv.v ===== *)
(** * ServerInv.v: the invariant of the running server

    Commands are conserved between the reader, the ring and the matching
    thread; once the flag is up the reader is done and [head] is final; the
    events the matching thread has seen have the shape of a run of
    [matching_loop]. *)

From S2P Require Import Prelude.
From S2P Require Import Protocol.
From S2P Require Import Wal.
From S2P Require Import Ring.
From S2P Require Import RingInv.
From S2P Require Import Gateway.
From S2P Require Import GatewayInv.
From S2P Require Import Server.

(** ** Traces *)

(** An event that keeps the loop (draining or not) going where it is. *)
Definition continues (draining : bool) (ev : LoopEvent) : Prop :=
  match ev with GotCommand _ _ _ => True | NoCommand sh => draining = false /\ sh = false end.

Definition trace_shape (ph : Phase) (tr : list LoopEvent) : Prop :=
  match ph with
  | Running | Checking => Forall (continues false) tr
  | Draining => exists t1 t2, tr = t1 ++ NoCommand true :: t2 /\
                  Forall (continues false) t1 /\ Forall (continues true) t2
  | Finished => exists t1 t2, tr = t1 ++ NoCommand true :: t2 ++ [NoCommand true] /\
                  Forall (continues false) t1 /\ Forall (continues true) t2
  end.

Lemma trace_got ph tr v wio sio :
  popping ph -> trace_shape ph tr -> trace_shape ph (tr ++ [GotCommand v wio sio]).
Proof.
  intros [-> | ->]; simpl.
  - intros Ht. apply Forall_app. split; [done|]. by repeat constructor.
  - intros (t1 & t2 & -> & H1 & H2). exists t1, (t2 ++ [GotCommand v wio sio]).
    rewrite <- app_assoc. split; [done|]. split; [done|]. apply Forall_app. split; [done|]. by repeat constructor.
Qed.

Lemma trace_empty ph tr :
  popping ph -> trace_shape ph tr -> trace_shape (fst (on_empty ph tr)) (snd (on_empty ph tr)).
Proof.
  intros [-> | ->]; simpl; [done|]. intros (t1 & t2 & -> & H1 & H2). exists t1, t2.
  by rewrite <- app_assoc.
Qed.

Lemma on_empty_commands ph tr : commands (snd (on_empty ph tr)) = commands tr.
Proof. destruct ph; simpl; try done. rewrite commands_app. simpl. by rewrite app_nil_r. Qed.

(** ** The invariant *)

(** The value the reader is pushing is the next one it has to push. *)
Definition pushing (pc : PPc EngineCommand) (todo : list EngineCommand) : Prop :=
  match pc with PLoad v | PWrite v => head todo = Some v | _ => True end.

(** A value popped but not yet returned. *)
Definition in_hand (pc : CPc EngineCommand) : list EngineCommand :=
  match pc with CStore v => [v] | _ => [] end.

Record server_inv (cap : Z) (cmds : list EngineCommand) (s : Server)
  (pushed popped : list EngineCommand) (H L : nat) : Prop := {
  si_ring : ring_inv cap (s_machine s) pushed popped H L;
  si_all : pushed ++ s_todo s = cmds;
  si_pushing : pushing (m_ppc (s_machine s)) (s_todo s);
  si_taken : popped = commands (s_trace s) ++ in_hand (m_cpc (s_machine s));
  si_shutdown : forall f, s_shutdown s = Some f ->
    s_todo s = [] /\ m_ppc (s_machine s) = PIdle /\ f = H;
  si_popping : m_cpc (s_machine s) ≠ CIdle -> popping (s_phase s);
  si_draining : s_phase s = Draining -> s_shutdown s = Some (s_floor s);
  si_finished : s_phase s = Finished -> commands (s_trace s) = cmds;
  si_ended : s_phase s = Finished -> s_shutdown s ≠ None;
  si_floor : (s_floor s <= H)%nat;
  si_trace : trace_shape (s_phase s) (s_trace s)
}.

Lemma server_inv_start cap cmds s :
  cap < 2 ^ 64 -> server_start cap cmds s -> server_inv cap cmds s [] [] 0 0.
Proof.
  intros Hc [r p c Hr]. split; simpl; [by apply ring_inv_init|done..].
Qed.

Ltac server_split I :=
  destruct I; split; cbn [s_machine s_todo s_shutdown s_floor s_phase s_trace m_ppc m_cpc pushing in_hand] in *;
  try done; try lia; eauto.

(** Steps of the reader: the flag is down as long as it has work. *)
Lemma flag_down cap cmds r p c ppc cpc todo sd fl ph tr pushed popped H L :
  server_inv cap cmds (mkServer (mkMachine r p c ppc cpc) todo sd fl ph tr) pushed popped H L ->
  ppc ≠ PIdle \/ todo ≠ [] -> sd = None.
Proof.
  intros I Hw. destruct sd as [f|]; [|done].
  destruct (si_shutdown _ _ _ _ _ _ _ I f eq_refl) as (? & ? & _). simpl in *. by destruct Hw.
Qed.

(** The draining loop finds the ring empty only when everything was taken. *)
Lemma empty_when_done cap cmds r p c ppc k c' todo sd fl tr pushed popped H L :
  server_inv cap cmds (mkServer (mkMachine r p c ppc CLoad) todo sd fl Draining tr) pushed popped H L ->
  (fl <= k)%nat -> pop_load r c k = Some (c', Err tt) -> commands tr = cmds.
Proof.
  intros I Hk Hl. pose proof (si_ring _ _ _ _ _ _ _ I) as R. ring_facts R.
  destruct (pop_load_inv _ _ _ _ _ _ _ _ _ _ _ _ R Hl) as [R' ->].
  pose proof (si_draining _ _ _ _ _ _ _ I eq_refl) as Hsd. simpl in Hsd.
  destruct (si_shutdown _ _ _ _ _ _ _ I _ Hsd) as (Htd & Hpc & Hfl). simpl in *. subst.
  pose proof (si_all _ _ _ _ _ _ _ I) as Ha. pose proof (si_taken _ _ _ _ _ _ _ I) as Ht. simpl in *.
  rewrite app_nil_r in *. rewrite <- Ht, <- Ha, Ifi. apply take_ge. lia.
Qed.

Ltac flag_is_down I :=
  match type of I with
  | server_inv _ _ (mkServer _ _ ?sd _ _ _) _ _ _ _ =>
      assert (sd = None) as -> by (eapply flag_down; [exact I|first [by left|by right]])
  end.

Lemma reader_step_inv cap cmds s s' pushed popped H L :
  server_inv cap cmds s pushed popped H L -> reader_step s s' ->
  exists pushed' popped' H' L', server_inv cap cmds s' pushed' popped' H' L'.
Proof.
  intros I Hst. pose proof (si_ring _ _ _ _ _ _ _ I) as R.
  destruct Hst as [r p c cpc v todo sd fl ph tr|r p c cpc v k p' pc todo sd fl ph tr Hl
    |r p c cpc v k p' v' todo sd fl ph tr Hl|r p c cpc v r' todo sd fl ph tr Hw|r p c cpc r' p' todo sd fl ph tr Hs
    |r p c cpc sd fl ph tr]; simpl in R; [flag_is_down I..|].
  - exists pushed, popped, H, L. apply (push_begin_inv _ _ _ _ _ v) in R. server_split I.
    unfold push_begin. by case_decide.
  - exists pushed, popped, H, L. pose proof (push_load_inv _ _ _ _ _ _ _ _ _ _ _ _ _ R Hl) as R'.
    unfold push_load in Hl. destruct (load _ _ _); [|done]. cbn [mbind option_bind] in Hl.
    case_decide; simplify_eq. server_split I.
  - exists pushed, popped, H, L. destruct (push_load_inv _ _ _ _ _ _ _ _ _ _ _ _ _ R Hl) as [R' _].
    server_split I.
  - destruct (push_write_inv _ _ _ _ _ _ _ _ _ _ R) as (i & r1 & E & _ & _ & R'). simplify_eq.
    exists (pushed ++ [v]), popped, H, L. server_split I.
    destruct todo; simplify_eq/=. by rewrite <- app_assoc.
  - exists pushed, popped, (S H), L. pose proof (push_store_inv _ _ _ _ _ _ _ _ _ _ _ R Hs) as R'. server_split I.
  - exists pushed, popped, H, L. ring_facts R. server_split I.
    + intros f [= <-]. by rewrite Ihead, latest_hist.
    + intros ->. pose proof (si_draining0 eq_refl) as ->.
      destruct (si_shutdown0 _ eq_refl) as (_ & _ & ->). by rewrite Ihead, latest_hist.
Qed.

Lemma loop_step_inv cap cmds s s' pushed popped H L :
  server_inv cap cmds s pushed popped H L -> loop_step s s' ->
  exists pushed' popped' H' L', server_inv cap cmds s' pushed' popped' H' L'.
Proof.
  intros I Hst. pose proof (si_ring _ _ _ _ _ _ _ I) as R.
  destruct Hst as [r p c ppc todo sd fl ph tr Hph|r p c ppc k c' pc todo sd fl ph tr Hk Hl
    |r p c ppc k c' todo sd fl ph tr Hk Hl|r p c ppc r' v todo sd fl ph tr Hr
    |r p c ppc v r' c' wio sio todo sd fl ph tr Hs|m todo sd fl tr|m todo f fl tr]; simpl in R.
  - exists pushed, popped, H, L. apply pop_begin_inv in R. server_split I.
    rewrite si_taken0. unfold pop_begin. by case_decide.
  - exists pushed, popped, H, L. pose proof (pop_load_inv _ _ _ _ _ _ _ _ _ _ _ _ R Hl) as R'.
    unfold pop_load in Hl. destruct (load _ _ _); [|done]. cbn [mbind option_bind] in Hl.
    case_decide; simplify_eq. server_split I.
  - exists pushed, popped, H, L. destruct (pop_load_inv _ _ _ _ _ _ _ _ _ _ _ _ R Hl) as [R' _].
    pose proof (si_popping _ _ _ _ _ _ _ I ltac:(done)) as Hph. simpl in Hph.
    assert (ph = Draining -> commands tr = cmds) as Hd by (intros ->; by eapply empty_when_done).
    server_split I.
    + by rewrite on_empty_commands.
    + by destruct ph.
    + rewrite on_empty_commands. destruct Hph as [-> | ->]; simpl; [done|auto].
    + intros Hf. destruct Hph as [-> | ->]; [done|]. by rewrite si_draining0.
    + by apply trace_empty.
  - destruct (pop_read_inv _ _ _ _ _ _ _ _ _ R) as (r1 & v1 & E & _ & R'). simplify_eq.
    exists pushed, (popped ++ [v]), H, L. server_split I.
    rewrite app_nil_r in si_taken0. by subst popped.
  - exists pushed, popped, H, (S L). pose proof (pop_store_inv _ _ _ _ _ _ _ _ _ _ _ _ R Hs) as R'.
    pose proof (si_popping _ _ _ _ _ _ _ I ltac:(done)) as Hph. simpl in Hph. server_split I.
    + rewrite commands_app, si_taken0. by rewrite app_nil_r.
    + intros ->. by destruct Hph.
    + by apply trace_got.
  - exists pushed, popped, H, L. server_split I.
    + by rewrite commands_app, app_nil_r.
    + intros _. by left.
    + apply Forall_app. split; [done|]. by repeat constructor.
  - exists pushed, popped, H, L. server_split I.
    + by rewrite commands_app, app_nil_r.
    + intros _. by right.
    + by destruct (si_shutdown0 f eq_refl) as (_ & _ & ->).
    + exists tr, []. split; [done|]. split; [done|constructor].
Qed.

Lemma server_reach_inv cap cmds s :
  cap < 2 ^ 64 -> server_reach cap cmds s ->
  exists pushed popped H L, server_inv cap cmds s pushed popped H L.
Proof.
  intros Hc. induction 1 as [s Hs|s s' _ (pushed & popped & H & L & I) Hst].
  - exists [], [], 0%nat, 0%nat. by apply server_inv_start.
  - destruct Hst; [by eapply reader_step_inv|by eapply loop_step_inv].
Qed.

(** ** Progress *)

(** How far the server is from its end; a step that helps decreases it. *)
Definition reader_weight (pc : PPc EngineCommand) : nat :=
  match pc with PIdle => 3 | PLoad _ => 2 | PWrite _ => 1 | PStore => 4 end.
Definition loop_weight (pc : CPc EngineCommand) : nat :=
  match pc with CIdle => 3 | CLoad => 2 | CRead => 1 | CStore _ => 5 end.
Definition phase_weight (sd : option nat) (ph : Phase) : nat :=
  match sd, ph with
  | None, Checking => 101
  | None, _ => 100
  | Some _, Running => 30
  | Some _, Checking => 20
  | Some _, Draining => 10
  | Some _, Finished => 0
  end.

Definition distance (total : nat) (s : Server) : nat :=
  10 * length (s_todo s) + 10 * (total - length (commands (s_trace s) ++ in_hand (m_cpc (s_machine s)))) +
  reader_weight (m_ppc (s_machine s)) + loop_weight (m_cpc (s_machine s)) +
  phase_weight (s_shutdown s) (s_phase s).

(** The reader can go on unless the ring is full; with nothing left to push its
    next step is the store of the flag. *)
Lemma reader_progress cap cmds s pushed popped H :
  server_inv cap cmds s pushed popped H H -> s_shutdown s = None ->
  exists s', reader_step s s' /\ (distance (length cmds) s' < distance (length cmds) s)%nat /\
    (s_shutdown s' = None \/ s_todo s = [] /\ m_ppc (s_machine s) = PIdle).
Proof.
  intros I Hsd. pose proof (si_ring _ _ _ _ _ _ _ I) as R. pose proof (si_pushing _ _ _ _ _ _ _ I) as Hp.
  destruct s as [[r p c ppc cpc] todo sd fl ph tr]. simpl in Hsd, R, Hp. subst sd.
  destruct ppc as [|v|v|].
  - destruct todo as [|v todo]; eexists; (split; [constructor|split; [|auto]]).
    + unfold distance. simpl. destruct ph; lia.
    + unfold distance, push_begin. simpl. case_decide; simpl; lia.
  - destruct (push_load_latest _ _ _ _ _ _ _ _ _ _ R) as [p' Hl]. ring_facts R.
    destruct Ipow as (j & Hj & Hcap). pose proof (cap_range _ _ Hj Hcap).
    rewrite decide_False in Hl by lia.
    eexists. split; [by eapply reader_load|split; [|auto]]. unfold distance. simpl. lia.
  - destruct (push_write_inv _ _ _ _ _ _ _ _ _ _ R) as (i & r1 & E & _).
    eexists. split; [by eapply reader_write|split; [|auto]]. unfold distance. simpl.
    destruct todo; simplify_eq/=. lia.
  - eexists. split; [by eapply reader_store|split; [|auto]]. unfold distance. simpl. lia.
Qed.

(** The matching thread can always go on, and comes closer to its end when there
    is something to pop or the flag is up. *)
Lemma loop_progress cap cmds s pushed popped H L :
  server_inv cap cmds s pushed popped H L -> s_phase s ≠ Finished ->
  exists s', loop_step s s' /\
    ((L < H)%nat \/ s_shutdown s ≠ None -> (distance (length cmds) s' < distance (length cmds) s)%nat).
Proof.
  intros I Hph. pose proof (si_ring _ _ _ _ _ _ _ I) as R. ring_facts R.
  destruct s as [[r p c ppc cpc] todo sd fl ph tr]. simpl in Hph, R.
  assert (cpc = CIdle \/ popping ph) as Hpop.
  { destruct cpc; [by left|right..]; by apply (si_popping _ _ _ _ _ _ _ I). }
  destruct (decide (ph = Checking)) as [->|Hne].
  { assert (cpc = CIdle) as -> by (destruct Hpop as [?|[?|?]]; done). destruct sd as [f|]; eexists.
    - split; [apply loop_check_true|intros Hw]. unfold distance. simpl. rewrite commands_app, app_nil_r. simpl.
      rewrite !app_nil_r. lia.
    - split; [apply loop_check_false|intros Hw]. unfold distance. simpl. rewrite commands_app, app_nil_r. simpl.
      rewrite !app_nil_r. lia. }
  assert (popping ph) as Hp by (destruct ph; unfold popping; tauto). clear Hpop.
  pose proof (si_taken _ _ _ _ _ _ _ I) as Ht. pose proof (si_all _ _ _ _ _ _ _ I) as Ha.
  pose proof (si_floor _ _ _ _ _ _ _ I) as Hf. simpl in Ht, Ha, Hf.
  destruct cpc as [| | |v].
  - eexists. split; [by apply loop_begin|intros Hw]. unfold distance, pop_begin. simpl.
    case_decide; simpl; lia.
  - destruct (pop_load_latest _ _ _ _ _ _ _ _ _ R) as [c' Hl]. simpl in Ihead. rewrite Ihead, latest_hist in Hl.
    case_decide as Hd; eexists.
    + split; [by eapply loop_empty|intros Hw]. unfold distance. simpl.
      rewrite on_empty_commands. simpl in Hw. destruct sd as [f|]; [|by destruct Hw; [lia|]].
      destruct Hp as [-> | ->]; simpl; lia.
    + split; [by eapply loop_load|intros Hw]. unfold distance. simpl. lia.
  - destruct (pop_read_inv _ _ _ _ _ _ _ _ _ R) as (r1 & v & E & Hv & _). eexists.
    split; [by eapply loop_read|intros Hw]. unfold distance. simpl.
    apply lookup_lt_Some in Hv. assert (length popped < length cmds)%nat by (rewrite <- Ha, length_app; simpl in *; lia).
    rewrite Ht, app_nil_r in *. rewrite length_app. simpl. lia.
  - eexists. split; [by eapply (loop_store _ _ _ _ _ _ _ IoOk SaveOk)|intros Hw]. unfold distance. simpl.
    rewrite commands_app, app_nil_r. simpl. rewrite length_app. simpl. lia.
Qed.

(** Every state of a run can be continued to the end. *)
Lemma server_finishes cap cmds s pushed popped H L :
  server_inv cap cmds s pushed popped H L -> exists s', rtc server_step s s' /\ s_phase s' = Finished.
Proof.
  remember (distance (length cmds) s) as n eqn:En. revert s pushed popped H L En.
  induction (lt_wf n) as [n _ IH]. intros s pushed popped H L -> I.
  destruct (decide (s_phase s = Finished)) as [Hf|Hf]; [by exists s|].
  assert (exists s', server_step s s' /\ (distance (length cmds) s' < distance (length cmds) s)%nat) as (s1 & Hst & Hlt).
  { destruct (loop_progress _ _ _ _ _ _ _ I Hf) as (s1 & Hl & Hd).
    destruct (decide (L < H)%nat) as [Hlt|Hge]; [exists s1; split; [by apply server_loop|by apply Hd; left]|].
    destruct (s_shutdown s) as [f|] eqn:Esd; [exists s1; split; [by apply server_loop|by apply Hd; right]|].
    pose proof (ri_order _ _ _ _ _ _ (si_ring _ _ _ _ _ _ _ I)). assert (L = H) as -> by lia.
    destruct (reader_progress _ _ _ _ _ _ I Esd) as (s2 & ? & ? & _). eauto using server_reader. }
  assert (exists pushed' popped' H' L', server_inv cap cmds s1 pushed' popped' H' L') as (pu & po & H' & L' & I1).
  { destruct Hst; [by eapply reader_step_inv|by eapply loop_step_inv]. }
  destruct (IH _ Hlt s1 pu po H' L' eq_refl I1) as (s' & Hr & Hf'). exists s'. split; [|done]. by eapply rtc_l.
Qed.

Lemma server_reach_rtc cap cmds s s' : rtc server_step s s' -> server_reach cap cmds s -> server_reach cap cmds s'.
Proof. induction 1; eauto using server_reach_step. Qed.

Lemma server_reach_finished cap cmds s :
  cap < 2 ^ 64 -> server_reach cap cmds s -> exists s', server_reach cap cmds s' /\ s_phase s' = Finished.
Proof.
  intros Hc Hs. destruct (server_reach_inv _ _ _ Hc Hs) as (pushed & popped & H & L & I).
  destruct (server_finishes _ _ _ _ _ _ _ I) as (s' & Hr & Hf). eauto using server_reach_rtc.
Qed.
