(* ===== verification/ServerThm.v ===== *)
(** * ServerThm.v: the server from the client's bytes to the book

    For every interleaving of the two threads: nothing the client sent is lost
    or reordered, and the server can always come to its end. *)

From S2P Require Import Prelude.
From S2P Require Import Order.
From S2P Require Import Arena.
From S2P Require Import ArenaInv.
From S2P Require Import Book.
From S2P Require Import BookSpec.
From S2P Require Import BookInv.
From S2P Require Import Matching.
From S2P Require Import MatchingSpec.
From S2P Require Import MatchingInv.
From S2P Require Import Protocol.
From S2P Require Import ProtocolInv.
From S2P Require Import Engine.
From S2P Require Import Wal.
From S2P Require Import Snapshot.
From S2P Require Import SnapshotInv.
From S2P Require Import RecoveryInv.
From S2P Require Import RecoveryThm.
From S2P Require Import Ring.
From S2P Require Import RingInv.
From S2P Require Import Gateway.
From S2P Require Import GatewayInv.
From S2P Require Import Server.
From S2P Require Import ServerInv.

(** A finished trace is a complete run of the loop. *)
Lemma continues_app dr t1 t2 :
  Forall (continues dr) t1 ->
  consumed (t1 ++ t2) dr = t1 ++ consumed t2 dr /\ ends (t1 ++ t2) dr = ends t2 dr.
Proof.
  induction 1 as [|[c wio sio|sh] t1 Hc _ [IH1 IH2]]; [done|..]; simpl.
  - by rewrite IH1.
  - destruct Hc as [-> ->]. by rewrite IH1.
Qed.

Lemma finished_trace tr :
  trace_shape Finished tr -> consumed tr false = tr /\ ends tr false = true.
Proof.
  intros (t1 & t2 & -> & H1 & H2).
  destruct (continues_app false t1 (NoCommand true :: t2 ++ [NoCommand true]) H1) as [-> ->]. simpl.
  destruct (continues_app true t2 [NoCommand true] H2) as [-> ->]. done.
Qed.

(** A server that has ended executed exactly the commands pushed. *)
Lemma server_executed {C : Codec} {Laws : CodecLaws C} ring_cap cap interval cmds s :
  ring_cap < 2 ^ 64 -> 0 <= cap < 2 ^ 32 -> Forall command_in_range cmds ->
  server_reach ring_cap cmds s -> s_phase s = Finished ->
  commands (s_trace s) = cmds /\
  exists st', matching_loop interval (s_trace s) false
      (mkGw (MatchingEngine.with_capacity cap) None None 0 (replicate EXECUTION_REPORT_SIZE 0) 0 []) = Some (st', true) /\
    represents (e_book (g_engine st')) (fst (spec_run cap sp_empty cmds)) /\
    length (g_sent st') = length (published cmds (snd (spec_run cap sp_empty cmds))).
Proof.
  intros Hr Hcap Hty Hs Hf.
  destruct (server_reach_inv _ _ _ Hr Hs) as (pushed & popped & H & L & I).
  pose proof (si_finished _ _ _ _ _ _ _ I Hf) as Hcmds. split; [done|].
  pose proof (si_trace _ _ _ _ _ _ _ I) as Htr. rewrite Hf in Htr.
  apply finished_trace in Htr as [Hcon Hend].
  set (st := mkGw _ _ _ _ _ _ _).
  assert (gw_inv cap st sp_empty []) as G by (split; try done; by apply with_capacity_inv).
  destruct (matching_loop_spec cap interval (s_trace s) false st _ _ G) as (st' & fs' & Hl & G' & Hsent).
  { by rewrite Hcmds. }
  rewrite Hend, Hcon, Hcmds in *. exists st'. split; [done|].
  split; [apply (inv_rep _ _ _ (gi_engine _ _ _ _ G'))|]. rewrite Hsent. simpl. apply length_imap.
Qed.

(** C2. No command is lost, repeated or reordered between the client and the
    engine.  Whatever bytes the client sends and however its connection ends,
    the reader decodes some commands; in every interleaving of the two threads
    (with stale loads and a ring that fills up), when the matching thread has
    ended it has executed exactly those commands in that order: its book is
    the one the specification gives, with one report sent per fill of an order
    that did not end in an error.  In particular the commands still in the ring at shutdown are drained. *)
Theorem server_executes_everything (C : Codec) ring_cap cap interval stream ending clock :
  CodecLaws C -> ring_cap < 2 ^ 64 -> 0 <= cap < 2 ^ 32 -> bytes_ok stream ->
  exists cmds sh r, handle_client (S (length stream)) stream ending clock 0 = Some (cmds, sh, r) /\
    forall s, server_reach ring_cap cmds s -> s_phase s = Finished ->
      commands (s_trace s) = cmds /\
      exists st', matching_loop interval (s_trace s) false
          (mkGw (MatchingEngine.with_capacity cap) None None 0 (replicate EXECUTION_REPORT_SIZE 0) 0 []) = Some (st', true) /\
        represents (e_book (g_engine st')) (fst (spec_run cap sp_empty cmds)) /\
        length (g_sent st') = length (published cmds (snd (spec_run cap sp_empty cmds))).
Proof.
  intros Laws Hr Hcap Hb.
  destruct (handle_client_total (S (length stream)) stream ending clock 0 Hb ltac:(lia))
    as (cmds & sh & r & Hh & Htyp).
  exists cmds, sh, r. split; [done|]. intros s Hs Hf.
  by apply (server_executed ring_cap); [..|apply typed_in_range| |].
Qed.

(** C35. The server never gets stuck: from every state it can be in (a full ring,
    an empty one, the flag set or not, either thread in the middle of an
    operation), some continuation brings it to its end. *)
Theorem server_can_finish ring_cap cmds s :
  ring_cap < 2 ^ 64 -> server_reach ring_cap cmds s ->
  exists s', rtc server_step s s' /\ s_phase s' = Finished.
Proof.
  intros Hc Hs. destruct (server_reach_inv _ _ _ Hc Hs) as (pushed & popped & H & L & I).
  by eapply server_finishes.
Qed.

(** A ring of one slot, started on a cancel and an order. *)
Definition server_demo : Server :=
  mkServer (mkMachine (mkInner [None] 1 0 (atomic_new 0) (atomic_new 0)) (mkProducer 0 0 0) (mkConsumer 0 0 0)
              PIdle CIdle)
    [CancelOrder 5; NewOrder (mkOrder 1 10 Ask 105 5 7)] None 0 Running [].

Lemma server_demo_reach : server_reach 1 [CancelOrder 5; NewOrder (mkOrder 1 10 Ask 105 5 7)] server_demo.
Proof. apply server_reach_start, server_started. reflexivity. Qed.

Lemma server_can_finish_witness : exists s', rtc server_step server_demo s' /\ s_phase s' = Finished.
Proof. exact (server_can_finish 1 _ server_demo ltac:(lia) server_demo_reach). Defined.

Lemma server_executes_everything_witness :
  exists cmds sh r, handle_client 17 (command_layout (replicate 7 0) (CancelOrder 1)) UnexpectedEof (fun _ => Some 77) 0
      = Some (cmds, sh, r) /\
    exists s, server_reach 1 cmds s /\ s_phase s = Finished /\ commands (s_trace s) = cmds.
Proof.
  destruct (server_executes_everything demo_codec 1 4 10 (command_layout (replicate 7 0) (CancelOrder 1))
    UnexpectedEof (fun _ => Some 77) demo_laws ltac:(lia) ltac:(lia)) as (cmds & sh & r & H1 & H2).
  - vm_compute. repeat constructor; discriminate.
  - exists cmds, sh, r. split; [exact H1|].
    destruct (server_reach_finished 1 cmds _ ltac:(lia)
      (server_reach_start 1 cmds _ (server_started 1 cmds _ _ _ eq_refl))) as (s & Hs & Hf).
    exists s. split; [exact Hs|]. split; [exact Hf|]. exact (proj1 (H2 s Hs Hf)).
Defined.
