(* ===== verification/Subscriber.v ===== *)
(** * Subscriber.v: the report subscriber ([examples/subscriber.rs])

    The receiving loop of the subscriber: it decodes the datagrams, compares
    the sequence number with the expected one and reports gaps.  The socket is
    the list of what [recv_from] returns; the lines printed are collected. *)

From S2P Require Import Prelude.
From S2P Require Import Order.
From S2P Require Import Matching.
From S2P Require Import Protocol.
From S2P Require Import ProtocolInv.
From S2P Require Import Engine.
From S2P Require Import Wal.
From S2P Require Import Snapshot.
From S2P Require Import SnapshotInv.
From S2P Require Import RecoveryInv.
From S2P Require Import RecoveryThm.
From S2P Require Import Gateway.
From S2P Require Import GatewayInv.
From S2P Require Import GatewayThm.

(** What [socket.recv_from(&mut buf)] returns. *)
Inductive Received : Type :=
| RecvError
| Datagram (data : list Z).

(** A line the loop prints. *)
Inductive Line : Type :=
| LRecvError
| LShortPacket (n : nat)
| LDecodeError (e : ProtocolError)
| LGap (expected got missing : Z)
| LReport (r : ExecutionReport).

Record SubState : Type := mkSub {
  ss_buf : list Z;
  ss_expected_seq : Z;       (* u32 *)
  ss_lines : list Line
}.

Definition say (ls : list Line) (st : SubState) : SubState :=
  mkSub (ss_buf st) (ss_expected_seq st) (ss_lines st ++ ls).

Definition subscriber_init : SubState := mkSub (replicate EXECUTION_REPORT_SIZE 0) 1 [].

(** One iteration; a datagram longer than the buffer is cut off. *)
Definition on_receive (st : SubState) (r : Received) : SubState :=
  match r with
  | RecvError => say [LRecvError] st
  | Datagram data =>
      let n := Nat.min (length data) (length (ss_buf st)) in
      let st := mkSub (take n data ++ drop n (ss_buf st)) (ss_expected_seq st) (ss_lines st) in
      if decide (n < EXECUTION_REPORT_SIZE)%nat then say [LShortPacket n] st
      else
        match decode_execution_report (ss_buf st) with
        | Err e => say [LDecodeError e] st
        | Ok report =>
            let expected := ss_expected_seq st in
            let st := if decide (er_seq_num report ≠ expected)
                      then say [LGap expected (er_seq_num report) (wrap 32 (er_seq_num report - expected))] st
                      else st in
            say [LReport report] (mkSub (ss_buf st) (wrap 32 (er_seq_num report + 1)) (ss_lines st))
        end
  end.

Definition subscriber (st : SubState) (rs : list Received) : SubState := foldl on_receive st rs.

(** What the lines say: the reports shown and the number of reports missed. *)
Definition line_report (l : Line) : option ExecutionReport := match l with LReport r => Some r | _ => None end.
Definition line_missing (l : Line) : Z := match l with LGap _ _ n => n | _ => 0 end.
Definition missing (ls : list Line) : Z := foldr (fun l z => line_missing l + z) 0 ls.

Lemma missing_app l1 l2 : missing (l1 ++ l2) = missing l1 + missing l2.
Proof. induction l1 as [|l l1 IH]; simpl; [done|]. fold (missing (l1 ++ l2)). fold (missing l1). lia. Qed.

(** ** The relay ([examples/relay.rs])

    Forwards every datagram of report size unchanged; [sends] says whether the
    send succeeds.  The buffer is reused, as in the subscriber. *)

Record RelayState : Type := mkRelay {
  rl_buf : list Z;
  rl_forwarded : Z;            (* u64 *)
  rl_out : list (list Z)
}.

Definition relay_init : RelayState := mkRelay (replicate EXECUTION_REPORT_SIZE 0) 0 [].

Definition on_relay (st : RelayState) (ev : Received * bool) : RelayState :=
  match ev with
  | (RecvError, _) => st
  | (Datagram data, sends) =>
      let n := Nat.min (length data) (length (rl_buf st)) in
      let buf := take n data ++ drop n (rl_buf st) in
      if decide (n < EXECUTION_REPORT_SIZE)%nat then mkRelay buf (rl_forwarded st) (rl_out st)
      else if (sends : bool) then mkRelay buf (u64_add (rl_forwarded st) 1) (rl_out st ++ [take n buf])
      else mkRelay buf (rl_forwarded st) (rl_out st)
  end.

Definition relay (st : RelayState) (evs : list (Received * bool)) : RelayState := foldl on_relay st evs.

(** What a relay that can send passes on of a datagram. *)
Definition relayed (ev : Received * bool) : option (list Z) :=
  match ev with
  | (Datagram data, true) => if decide (length data = EXECUTION_REPORT_SIZE) then Some data else None
  | _ => None
  end.

(** Datagrams of at most report size pass unchanged or not at all, in order,
    whatever came before them in the buffer. *)
Lemma relay_transparent evs buf n out :
  length buf = EXECUTION_REPORT_SIZE ->
  Forall (fun ev => match fst ev with Datagram d => (length d <= EXECUTION_REPORT_SIZE)%nat | _ => True end) evs ->
  rl_out (relay (mkRelay buf n out) evs) = out ++ omap relayed evs.
Proof.
  intros Hb Hevs. revert buf n out Hb. induction Hevs as [|[[|d] sends] evs Hd _ IH]; intros buf n out Hb.
  - simpl. by rewrite app_nil_r.
  - exact (IH buf n out Hb).
  - simpl in Hd. unfold relay. cbn [foldl on_relay rl_buf rl_forwarded rl_out]. rewrite Hb.
    set (k := Nat.min _ _). assert (k = length d) as -> by (unfold k; lia).
    rewrite (take_ge d) by done.
    assert (length (d ++ drop (length d) buf) = EXECUTION_REPORT_SIZE) as Hb'
      by (rewrite length_app, length_drop; lia).
    cbn [omap list_omap]. case_decide as Hs.
    + rewrite IH by done. unfold relayed at 2. destruct sends; [rewrite decide_False by lia|]; done.
    + assert (length d = EXECUTION_REPORT_SIZE) as Hl by lia. unfold relayed at 1.
      destruct sends; cbn [relayed]; [rewrite (decide_True _ _ Hl)|]; rewrite IH by done; [|done].
      rewrite take_app_length, <- app_assoc. done.
Qed.

(** ** Losses *)

(** Positions that increase, from [m] on. *)
Fixpoint increasing (m : nat) (js : list nat) : Prop :=
  match js with [] => True | j :: js => (m <= j)%nat /\ increasing (S j) js end.

(** The report of position [j] in the published stream. *)
Definition nth_report (j : nat) (ft : Fill * Z) : ExecutionReport :=
  mkReport (wrap 32 (1 + Z.of_nat j)) (f_taker_order_id ft.1) (f_maker_order_id ft.1)
           (f_price ft.1) (f_quantity ft.1) ft.2.

Lemma receive_report buf m j (ft : Fill * Z) lines :
  fill_typed ft.1 -> is_u64 ft.2 -> (m <= j)%nat -> Z.of_nat j < 2 ^ 32 -> length buf = EXECUTION_REPORT_SIZE ->
  exists gap buf', on_receive (mkSub buf (wrap 32 (1 + Z.of_nat m)) lines)
      (Datagram (report_bytes (wrap 32 (1 + Z.of_nat j)) ft.1 ft.2)) =
    mkSub buf' (wrap 32 (1 + Z.of_nat (S j))) (lines ++ gap ++ [LReport (nth_report j ft)]) /\
    length buf' = EXECUTION_REPORT_SIZE /\ omap line_report gap = [] /\ missing gap = Z.of_nat j - Z.of_nat m.
Proof.
  destruct ft as [f t]. cbn [fst snd]. intros (H1 & H2 & H3 & H4) Ht Hm Hj Hb.
  unfold on_receive. cbn [ss_buf ss_expected_seq ss_lines]. rewrite length_report_bytes, Hb, Nat.min_id.
  rewrite (take_ge (report_bytes _ _ _)) by (by rewrite length_report_bytes).
  rewrite decide_False by lia.
  rewrite decode_report_bytes by (try done; apply wrap_range; lia). cbn [er_seq_num].
  assert (wrap 32 (wrap 32 (1 + Z.of_nat j) + 1) = wrap 32 (1 + Z.of_nat (S j))) as ->.
  { rewrite wrap_add_l. f_equal. lia. }
  assert (wrap 32 (wrap 32 (1 + Z.of_nat j) - wrap 32 (1 + Z.of_nat m)) = Z.of_nat j - Z.of_nat m) as Hgap.
  { unfold wrap. rewrite <- Zminus_mod. rewrite Z.mod_small by lia. lia. }
  set (b := report_bytes _ _ _ ++ _).
  assert (length b = EXECUTION_REPORT_SIZE) as Hlb.
  { unfold b. rewrite length_app, length_report_bytes, length_drop. lia. }
  clearbody b. case_decide as Hd; unfold say; cbn [ss_buf ss_expected_seq ss_lines].
  - eexists [_], b. rewrite Hgap, <- app_assoc. split; [done|]. split; [done|]. split; [done|]. simpl. lia.
  - exists [], b. split; [done|]. split; [done|]. split; [done|].
    rewrite Hd, Z.sub_diag in Hgap. change (wrap 32 0) with 0 in Hgap. simpl. lia.
Qed.

(** The subscriber over the reports at the positions [js] of a stream. *)
Lemma subscriber_losses fills js m buf lines :
  Forall (fun '(f, t) => fill_typed f /\ is_u64 t) fills -> Z.of_nat (length fills) <= 2 ^ 32 ->
  increasing m js -> Forall (fun j => (j < length fills)%nat) js -> length buf = EXECUTION_REPORT_SIZE ->
  let st := subscriber (mkSub buf (wrap 32 (1 + Z.of_nat m)) lines)
              (Datagram <$> omap (fun j => report_stream 0 fills !! j) js) in
  omap line_report (ss_lines st) = omap line_report lines ++ omap (fun j => nth_report j <$> fills !! j) js /\
  missing (ss_lines st) + Z.of_nat (length js) =
    missing lines + Z.of_nat (default m (S <$> last js)) - Z.of_nat m.
Proof.
  intros Ht Hlen. revert m buf lines. induction js as [|j js IH]; intros m buf lines Hinc Hjs Hb.
  { simpl. rewrite app_nil_r. split; [done|]. lia. }
  destruct Hinc as [Hm Hinc]. apply Forall_cons in Hjs as [Hj Hjs].
  destruct (lookup_lt_is_Some_2 fills j Hj) as [[f t] Hf].
  pose proof (Forall_lookup_1 _ _ _ _ Ht Hf) as Hft. simpl in Hft. destruct Hft as [Hft Htt].
  assert (report_stream 0 fills !! j = Some (report_bytes (wrap 32 (1 + Z.of_nat j)) f t)) as Hr.
  { unfold report_stream. by rewrite list_lookup_imap, Hf. }
  cbn [omap list_omap]. rewrite Hr, Hf, fmap_cons. unfold subscriber. cbn [foldl].
  destruct (receive_report buf m j (f, t) lines Hft Htt Hm ltac:(lia) Hb) as (gap & buf' & Hrec & Hb' & Hg & Hmi).
  cbn [fst snd] in Hrec. rewrite Hrec.
  destruct (IH (S j) buf' (lines ++ gap ++ [LReport (nth_report j (f, t))]) Hinc Hjs Hb') as [IH1 IH2].
  unfold subscriber in IH1, IH2. split.
  - rewrite IH1, !omap_app, Hg. simpl. by rewrite <- app_assoc.
  - rewrite !missing_app, Hmi in IH2. cbn [missing foldr line_missing] in IH2. rewrite last_cons.
    cbn [length]. destruct (last js) as [k|]; simpl in *; lia.
Qed.

(** The positions of a stream of [n] reports that did not arrive. *)
Definition lost (n : nat) (js : list nat) : list nat := filter (fun j => j ∉ js) (seq 0 n).

Lemma length_lost m n js :
  increasing m js -> Forall (fun j => (j < n)%nat) js ->
  (length (filter (fun j => j ∉ js) (seq m (n - m))) + length js = n - m)%nat.
Proof.
  revert m. induction js as [|j js IH]; intros m Hinc Hjs.
  { rewrite list_filter_all; [rewrite length_seq; simpl; lia|]. intros x _ ?%elem_of_nil. done. }
  destruct Hinc as [Hm Hinc]. apply Forall_cons in Hjs as [Hj Hjs]. specialize (IH (S j) Hinc Hjs).
  assert (forall x, x ∈ js -> (S j <= x)%nat) as Hge.
  { clear -Hinc. revert Hinc. generalize (S j). induction js as [|y js IH]; intros k Hinc x Hx; [by apply elem_of_nil in Hx|].
    destruct Hinc as [Hk Hinc]. apply elem_of_cons in Hx as [->|Hx]; [done|]. specialize (IH _ Hinc x Hx). lia. }
  replace (n - m)%nat with ((j - m) + (1 + (n - S j)))%nat by lia.
  rewrite seq_app, filter_app, length_app. replace (m + (j - m))%nat with j by lia.
  rewrite (list_filter_all _ (seq m (j - m))).
  2:{ intros x Hx%elem_of_seq Hin. apply elem_of_cons in Hin as [->|Hin%Hge]; lia. }
  rewrite seq_app, filter_app, length_app. replace (j + 1)%nat with (S j) by lia. cbn [seq].
  rewrite filter_cons_False by (intros Hn; apply Hn; left).
  rewrite (list_filter_ext _ (fun x => x ∉ js) (seq (S j) (n - S j))).
  2:{ intros x Hx%elem_of_seq. rewrite not_elem_of_cons. split; [tauto|]. split; [lia|done]. }
  rewrite length_seq. cbn [filter list_filter length]. lia.
Qed.

(** C40. Losses are counted up to the last report that arrives: if at most 2^32
    reports are published for [fills] and those at the positions [js] arrive, in
    order and once each, the subscriber shows exactly the reports that arrived,
    and the gaps it announces add up to the number of reports lost before the
    last one that arrived.  Nothing announces the reports lost after it. *)
Theorem subscriber_counts_losses fills js :
  Forall (fun '(f, t) => fill_typed f /\ is_u64 t) fills -> Z.of_nat (length fills) <= 2 ^ 32 ->
  increasing 0 js -> Forall (fun j => (j < length fills)%nat) js ->
  let st := subscriber subscriber_init (Datagram <$> omap (fun j => report_stream 0 fills !! j) js) in
  omap line_report (ss_lines st) = omap (fun j => nth_report j <$> fills !! j) js /\
  missing (ss_lines st) = Z.of_nat (length (lost (default 0%nat (S <$> last js)) js)).
Proof.
  intros Ht Hlen Hinc Hjs st.
  destruct (subscriber_losses fills js 0 (replicate EXECUTION_REPORT_SIZE 0) [] Ht Hlen Hinc Hjs
    (length_replicate _ _)) as [H1 H2].
  split; [exact H1|]. change (missing (ss_lines st) + Z.of_nat (length js) =
    missing [] + Z.of_nat (default 0%nat (S <$> last js)) - Z.of_nat 0) in H2.
  assert (Forall (fun j => (j < default 0%nat (S <$> last js))%nat) js) as Hl.
  { clear -Hinc. revert Hinc. generalize 0%nat at 1. induction js as [|j js IH]; intros m Hinc; [constructor|].
    destruct Hinc as [_ Hinc]. specialize (IH _ Hinc). rewrite last_cons. destruct js as [|k js]; [repeat constructor; simpl; lia|].
    destruct (last_is_Some (k :: js)) as [_ [z Hz]]; [done|]. rewrite Hz in *. constructor; [|exact IH].
    apply Forall_cons in IH as [Hk _]. destruct Hinc as [Hjk _]. simpl in *. lia. }
  pose proof (length_lost 0 _ js Hinc Hl) as H. rewrite Nat.sub_0_r in H. unfold lost. simpl in H2. lia.
Qed.

Lemma subscriber_counts_losses_witness :
  missing (ss_lines (subscriber subscriber_init (Datagram <$>
    omap (fun j => report_stream 0 [(mkFill 2 1 105 3 false, 8); (mkFill 2 3 105 1 true, 8); (mkFill 4 3 105 1 true, 9)] !! j)
         [2%nat]))) = 2.
Proof.
  pose proof (subscriber_counts_losses
    [(mkFill 2 1 105 3 false, 8); (mkFill 2 3 105 1 true, 8); (mkFill 4 3 105 1 true, 9)] [2%nat]) as H.
  destruct H as [_ H].
  - repeat constructor; unfold fill_typed; simpl; unfold_ranges; lia.
  - simpl. lia.
  - simpl. lia.
  - repeat constructor; simpl; lia.
  - rewrite H. reflexivity.
Defined.
