(* ===== verification/AllocTrack.v ===== *)
(** * AllocTrack.v: the counting allocator ([src/alloc_track.rs])

    The four static atomics and the operations on them.  Each operation of the
    allocator is one step: the flag is read and the counters are bumped; the
    system allocator it delegates to is not part of the model.  Counters are
    64-bit and wrap. *)

From S2P Require Import Prelude.

Record AllocStats : Type := mkStats {
  as_alloc_count : Z;
  as_dealloc_count : Z;
  as_alloc_bytes : Z
}.

Record Tracker : Type := mkTracker {
  t_tracking : bool;
  t_stats : AllocStats
}.

Definition tracker_init : Tracker := mkTracker false (mkStats 0 0 0).

(** [TrackingAllocator::alloc] and [dealloc]. *)
Definition tr_alloc (t : Tracker) (size : Z) : Tracker :=
  if t_tracking t then
    let s := t_stats t in
    mkTracker true (mkStats (u64_add (as_alloc_count s) 1) (as_dealloc_count s) (u64_add (as_alloc_bytes s) size))
  else t.
Definition tr_dealloc (t : Tracker) : Tracker :=
  if t_tracking t then
    let s := t_stats t in
    mkTracker true (mkStats (as_alloc_count s) (u64_add (as_dealloc_count s) 1) (as_alloc_bytes s))
  else t.

Definition start_tracking (t : Tracker) : Tracker := mkTracker true (mkStats 0 0 0).
Definition stop_tracking (t : Tracker) : Tracker * AllocStats :=
  (mkTracker false (t_stats t), t_stats t).

(** What the program does with memory. *)
Inductive MemOp : Type :=
| MAlloc (size : Z)
| MDealloc.

Definition mem_step (t : Tracker) (op : MemOp) : Tracker :=
  match op with MAlloc size => tr_alloc t size | MDealloc => tr_dealloc t end.

Definition mem_run (t : Tracker) (ops : list MemOp) : Tracker := foldl mem_step t ops.

(** The counts of a list of operations. *)
Definition alloc_size (op : MemOp) : option Z := match op with MAlloc s => Some s | MDealloc => None end.
Definition allocs (ops : list MemOp) : Z := Z.of_nat (length (omap alloc_size ops)).
Definition deallocs (ops : list MemOp) : Z := Z.of_nat (length ops) - allocs ops.
Definition alloc_bytes (ops : list MemOp) : Z := foldr Z.add 0 (omap alloc_size ops).

Lemma mem_run_tracking s ops :
  mem_run (mkTracker true (mkStats (wrap 64 (as_alloc_count s)) (wrap 64 (as_dealloc_count s)) (wrap 64 (as_alloc_bytes s)))) ops =
  mkTracker true (mkStats (wrap 64 (as_alloc_count s + allocs ops)) (wrap 64 (as_dealloc_count s + deallocs ops))
                          (wrap 64 (as_alloc_bytes s + alloc_bytes ops))).
Proof.
  revert s. induction ops as [|op ops IH]; intros [a d b]; cbn [as_alloc_count as_dealloc_count as_alloc_bytes].
  - unfold deallocs, allocs, alloc_bytes. simpl. by rewrite !Z.add_0_r.
  - unfold mem_run. cbn [foldl]. destruct op as [size|]; cbn [mem_step tr_alloc tr_dealloc t_tracking t_stats
      as_alloc_count as_dealloc_count as_alloc_bytes]; unfold u64_add; rewrite !wrap_add_l.
    + specialize (IH (mkStats (a + 1) d (b + size))). unfold mem_run in IH.
      cbn [as_alloc_count as_dealloc_count as_alloc_bytes] in IH. rewrite IH.
      unfold deallocs, allocs, alloc_bytes. cbn [omap list_omap alloc_size length foldr]. do 2 f_equal; f_equal; lia.
    + specialize (IH (mkStats a (d + 1) b)). unfold mem_run in IH.
      cbn [as_alloc_count as_dealloc_count as_alloc_bytes] in IH. rewrite IH.
      unfold deallocs, allocs, alloc_bytes. cbn [omap list_omap alloc_size length foldr]. do 2 f_equal; f_equal; lia.
Qed.

(** Outside the tracked region nothing is counted. *)
Lemma mem_run_idle s ops : mem_run (mkTracker false s) ops = mkTracker false s.
Proof. induction ops as [|[size|] ops IH]; [done|..]; exact IH. Qed.

(** The statistics are exact: whatever happened before and after, tracking
    counts exactly the allocations, the deallocations and the bytes of the
    operations between [start_tracking] and [stop_tracking], modulo 2^64. *)
Theorem tracking_counts before ops after :
  let '(t, stats) := stop_tracking (mem_run (start_tracking (mem_run tracker_init before)) ops) in
  stats = mkStats (wrap 64 (allocs ops)) (wrap 64 (deallocs ops)) (wrap 64 (alloc_bytes ops)) /\
  t_stats (mem_run t after) = stats.
Proof.
  unfold start_tracking, stop_tracking.
  pose proof (mem_run_tracking (mkStats 0 0 0) ops) as H.
  cbn [as_alloc_count as_dealloc_count as_alloc_bytes Z.add] in H. change (wrap 64 0) with 0 in H.
  rewrite H. cbn [t_stats]. split; [done|]. by rewrite mem_run_idle.
Qed.
