(* ===== verification/Metrics.v ===== *)
(** * Metrics.v: the latency recorder ([src/metrics.rs])

    Two builds of one interface: with the feature the recorder wraps a
    histogram of the [hdrhistogram] crate, which is the class [Histogram];
    without it every operation is a no-op.  [HistogramLaws] states the
    documented behaviour used: a value up to the highest trackable one is
    counted, a larger one is refused. *)

From Stdlib Require Import Ascii.
From stdpp Require Import strings pretty.
From S2P Require Import Prelude.

(** [{:>10}]: right-aligned in ten columns. *)
Fixpoint spaces (n : nat) : string := match n with O => EmptyString | S n => String " "%char (spaces n) end.
Definition right_aligned (w : nat) (s : string) : string := String.append (spaces (w - String.length s)) s.
Definition right10 (z : Z) : string := right_aligned 10 (pretty z).

(** ** With the feature *)

Class Histogram (H : Type) := {
  new_with_bounds : Z -> Z -> Z -> option H;
  hist_record : H -> Z -> result H unit;
  value_at_quantile : H -> Z -> Z;      (* the quantile in thousandths *)
  hist_max : H -> Z;
  hist_len : H -> Z;
  hist_reset : H -> H;
  hist_high : H -> Z                     (* the highest trackable value *)
}.

Class HistogramLaws (H : Type) `{Histogram H} := {
  new_bounds : forall lo hi sig h, new_with_bounds lo hi sig = Some h -> hist_len h = 0 /\ hi <= hist_high h;
  record_ok : forall h v, 0 <= v <= hist_high h ->
    exists h', hist_record h v = Ok h' /\ hist_len h' = hist_len h + 1 /\ hist_high h' = hist_high h;
  record_high : forall h v, hist_high h < v -> hist_record h v = Err tt;
  reset_len : forall h, hist_len (hist_reset h) = 0 /\ hist_high (hist_reset h) = hist_high h
}.

Section metrics.
Context {H : Type} `{Histogram H}.

Record LatencyRecorder : Type := mkRecorder { lr_histogram : H }.

(** [LatencyRecorder::new]: the [expect] panics. *)
Definition recorder_new : option LatencyRecorder :=
  h ← new_with_bounds 1 60000000000 3; Some (mkRecorder h).

(** [record_nanos], and [record] of a duration: a refused value is ignored. *)
Definition record_nanos (r : LatencyRecorder) (nanos : Z) : LatencyRecorder :=
  match hist_record (lr_histogram r) nanos with Ok h => mkRecorder h | Err _ => r end.
Definition record (r : LatencyRecorder) (start now : Z) : LatencyRecorder :=
  record_nanos r (wrap 64 (now - start)).

Definition p50 (r : LatencyRecorder) : Z := value_at_quantile (lr_histogram r) 500.
Definition p90 (r : LatencyRecorder) : Z := value_at_quantile (lr_histogram r) 900.
Definition p99 (r : LatencyRecorder) : Z := value_at_quantile (lr_histogram r) 990.
Definition p999 (r : LatencyRecorder) : Z := value_at_quantile (lr_histogram r) 999.
Definition recorder_max (r : LatencyRecorder) : Z := hist_max (lr_histogram r).
Definition recorder_count (r : LatencyRecorder) : Z := hist_len (lr_histogram r).
Definition reset (r : LatencyRecorder) : LatencyRecorder := mkRecorder (hist_reset (lr_histogram r)).

(** [print_summary]; [mean] is the text of the float [{:>10.0}]. *)
Definition print_summary (r : LatencyRecorder) (mean : string) : list string :=
  ["Latency (ns):";
   String.append "  P50   : " (right10 (p50 r));
   String.append "  P90   : " (right10 (p90 r));
   String.append "  P99   : " (right10 (p99 r));
   String.append "  P99.9 : " (right10 (p999 r));
   String.append "  Max   : " (right10 (recorder_max r));
   String.append "  Mean  : " mean;
   String.append "  Count : " (right10 (recorder_count r))]%string.

(** [impl Debug for LatencyRecorder]. *)
Definition recorder_debug (r : LatencyRecorder) : string :=
  String.append "LatencyRecorder { count: " (String.append (pretty (recorder_count r)) " }").

(** Every recorded duration up to the bound is counted and a longer one is
    dropped, since the last reset. *)
Lemma recorder_counts `{!HistogramLaws H} r0 vs :
  Forall (fun v => 0 <= v) vs ->
  let r := foldl record_nanos (reset r0) vs in
  recorder_count r = Z.of_nat (length (filter (fun v => v <= hist_high (lr_histogram r0)) vs)).
Proof.
  intros Hvs. destruct (reset_len (lr_histogram r0)) as [Hl Hh].
  assert (forall r n, hist_high (lr_histogram r) = hist_high (lr_histogram r0) -> recorder_count r = n ->
            recorder_count (foldl record_nanos r vs) =
            n + Z.of_nat (length (filter (fun v => v <= hist_high (lr_histogram r0)) vs))) as G.
  { clear Hl Hh. induction Hvs as [|v vs Hv _ IH]; intros r n Hr Hn; [simpl; lia|]. cbn [foldl].
    destruct (decide (v <= hist_high (lr_histogram r0))) as [Hle|Hgt].
    - rewrite filter_cons_True by done. unfold record_nanos at 2.
      destruct (record_ok (lr_histogram r) v) as (h' & -> & H1 & H2); [lia|].
      rewrite (IH (mkRecorder h') (n + 1)); [cbn [length]; lia|simpl; lia|].
      unfold recorder_count in *. simpl. lia.
    - rewrite filter_cons_False by done. unfold record_nanos at 2.
      rewrite record_high by lia. by apply IH. }
  simpl. rewrite (G (reset r0) 0); [done|done|exact Hl].
Qed.

End metrics.

(** ** Without the feature *)

Module NoMetrics.

Inductive LatencyRecorder : Type := Recorder.

Definition new : LatencyRecorder := Recorder.
Definition start : unit := tt.
Definition record (r : LatencyRecorder) (_ : unit) : LatencyRecorder := r.
Definition record_nanos (r : LatencyRecorder) (_ : Z) : LatencyRecorder := r.
Definition p50 (r : LatencyRecorder) : Z := 0.
Definition p90 (r : LatencyRecorder) : Z := 0.
Definition p99 (r : LatencyRecorder) : Z := 0.
Definition p999 (r : LatencyRecorder) : Z := 0.
Definition max (r : LatencyRecorder) : Z := 0.
Definition count (r : LatencyRecorder) : Z := 0.
Definition reset (r : LatencyRecorder) : LatencyRecorder := r.
Definition print_summary (r : LatencyRecorder) : list string := [].

End NoMetrics.
