(* ===== verification/MetricsTests.v ===== *)
(** * MetricsTests.v: the unit tests of [src/metrics.rs]

    Over any histogram; they are run on one that keeps every value, which also
    shows that the laws asked of the histogram crate can hold. *)

From stdpp Require Import strings.
From S2P Require Import Prelude.
From S2P Require Import Metrics.
From S2P Require Import Testing.

Section tests.
Context {H : Type} `{Histogram H}.

Definition record_and_read_percentiles : option unit :=
  recorder ← recorder_new;
  let recorder := foldl (fun r i => record_nanos r (wrap 64 (i * 100))) recorder (seqZ 1 1000) in
  assert_eq (recorder_count recorder) 1000;;
  assert_that (bool_decide (p50 recorder > 0));;
  assert_that (bool_decide (p99 recorder > p50 recorder));;
  assert_that (bool_decide (recorder_max recorder >= 100000)).

Definition empty_histogram : option unit :=
  recorder ← recorder_new;
  assert_eq (recorder_count recorder) 0;;
  assert_eq (p50 recorder) 0;;
  assert_eq (recorder_max recorder) 0.

Definition reset_clears_data : option unit :=
  recorder ← recorder_new;
  let recorder := record_nanos recorder 1000 in
  assert_eq (recorder_count recorder) 1;;
  let recorder := reset recorder in
  assert_eq (recorder_count recorder) 0.
End tests.

(** ** A histogram that keeps every value *)

Record Exact : Type := mkExact { ex_values : list Z; ex_high : Z }.

#[global] Instance Exact_histogram : Histogram Exact := {
  new_with_bounds _ high _ := Some (mkExact [] high);
  hist_record h v := if decide (v <= ex_high h) then Ok (mkExact (ex_values h ++ [v]) (ex_high h)) else Err tt;
  value_at_quantile h q :=
    let sorted := merge_sort Z.le (ex_values h) in
    default 0 (sorted !! pred (Z.to_nat ((q * Z.of_nat (length sorted) + 999) / 1000)));
  hist_max h := foldr Z.max 0 (ex_values h);
  hist_len h := Z.of_nat (length (ex_values h));
  hist_reset h := mkExact [] (ex_high h);
  hist_high := ex_high
}.

#[global] Instance Exact_laws : HistogramLaws Exact.
Proof.
  split.
  - intros lo hi sig h [= <-]. simpl. lia.
  - intros h v Hv. simpl in *. rewrite decide_True by lia. eexists. split; [done|]. simpl. rewrite length_app. simpl. lia.
  - intros h v Hv. simpl in *. by rewrite decide_False by lia.
  - done.
Qed.

Lemma metrics_tests_pass :
  suite_passes [record_and_read_percentiles (H := Exact); empty_histogram (H := Exact); reset_clears_data (H := Exact)].
Proof. unfold suite_passes. repeat (apply List.Forall_cons; [vm_compute; reflexivity|]). apply List.Forall_nil. Qed.
