(* ===== verification/Display.v ===== *)
(** * Display.v: the error messages ([Display] of the error types)

    One definition per [impl Display].  The texts of errors that come from the
    standard library and from crates are parameters.  The protocol's messages
    tell its errors apart. *)

From stdpp Require Import strings pretty.
From S2P Require Import Prelude.
From S2P Require Import Order.
From S2P Require Import Arena.
From S2P Require Import Matching.
From S2P Require Import Protocol.
From S2P Require Import Wal.
From S2P Require Import Snapshot.
From S2P Require Import Recovery.
From S2P Require Import Gateway.
From S2P Require Import AllocTrack.

Infix "^^" := String.append (at level 60, right associativity) : rust_scope.

(** [{:x}] of a digit and of a number padded with zeroes to [w] digits. *)
Definition hex_digit (d : Z) : Ascii.ascii :=
  Ascii.ascii_of_nat (Z.to_nat (if decide (d < 10) then 48 + d else 87 + d)).

Fixpoint hex (w : nat) (n : Z) (acc : string) : string :=
  match w with
  | O => acc
  | S w => hex w (n / 16) (String (hex_digit (n mod 16)) acc)
  end.

Definition ProtocolError_fmt (e : ProtocolError) : string :=
  match e with
  | BufferTooShort => "buffer too short"
  | UnknownMessageType t => "unknown message type: 0x" ^^ hex 2 t ""
  | InvalidSide s => "invalid side: " ^^ pretty s
  | ZeroQuantityMsg => "zero quantity"
  end.

Section messages.
Context (io_text serialize_text deserialize_text : string) (debug_matching : MatchingError -> string).

Definition WalError_fmt (e : WalError) : string :=
  match e with
  | WalIo => "wal io error: " ^^ io_text
  | WalProtocol e => "wal protocol error: " ^^ ProtocolError_fmt e
  | Corruption offset => "wal corruption at offset " ^^ pretty offset
  | TruncatedRecord offset => "wal truncated record at offset " ^^ pretty offset
  end.

(** [{:#010x}] is "0x" and eight digits. *)
Definition SnapshotError_fmt (e : SnapshotError) : string :=
  match e with
  | SnapIo => "snapshot io error: " ^^ io_text
  | SnapSerialize => "snapshot serialize error: " ^^ serialize_text
  | SnapDeserialize => "snapshot deserialize error: " ^^ deserialize_text
  | ChecksumMismatch expected actual =>
      "snapshot checksum mismatch: expected 0x" ^^ hex 8 expected "" ^^ ", got 0x" ^^ hex 8 actual ""
  | SnapRestore e => "snapshot restore error: " ^^ debug_matching e
  end.

Definition RecoveryError_fmt (e : RecoveryError) : string :=
  match e with
  | RecWal e => "recovery wal error: " ^^ WalError_fmt e
  | RecSnapshot e => "recovery snapshot error: " ^^ SnapshotError_fmt e
  end.

Definition GatewayError_fmt (e : GatewayError) : string :=
  match e with
  | GwIo => "io error: " ^^ io_text
  | GwProtocol e => "protocol error: " ^^ ProtocolError_fmt e
  end.

End messages.

Definition AllocStats_fmt (s : AllocStats) : string :=
  "allocs: " ^^ pretty (as_alloc_count s) ^^ ", deallocs: " ^^ pretty (as_dealloc_count s) ^^
  ", bytes: " ^^ pretty (as_alloc_bytes s).

(** ** [Debug] by hand *)

Definition Side_debug (s : Side) : string := match s with Bid => "Bid" | Ask => "Ask" end.

(** [{:?}] of an arena node: its padding is not shown. *)
Definition OrderNode_debug (n : OrderNode) : string :=
  "OrderNode { id: " ^^ pretty (n_id n) ^^ ", trader_id: " ^^ pretty (n_trader_id n) ^^ ", price: " ^^ pretty (n_price n) ^^
  ", quantity: " ^^ pretty (n_quantity n) ^^ ", timestamp: " ^^ pretty (n_timestamp n) ^^
  ", prev: " ^^ pretty (n_prev n) ^^ ", next: " ^^ pretty (n_next n) ^^ ", side: " ^^ Side_debug (n_side n) ^^ " }".

(** [{:?}] of [Full] shows no value, so it asks nothing of the element type. *)
Definition Full_debug {T} (full : T) : string := "Full(..)".

(** ** [Error::source] *)

Inductive ErrorSource : Type :=
| SourceIo
| SourceProtocol (e : ProtocolError).

Definition GatewayError_source (e : GatewayError) : option ErrorSource :=
  match e with GwIo => Some SourceIo | GwProtocol e => Some (SourceProtocol e) end.

(** The text of a gateway error ends with the text of its source. *)
Lemma GatewayError_shows_source io_text e :
  exists prefix s, GatewayError_source e = Some s /\
    GatewayError_fmt io_text e = prefix ^^ match s with SourceIo => io_text | SourceProtocol e => ProtocolError_fmt e end.
Proof. destruct e as [|e]; [exists "io error: ", SourceIo|exists "protocol error: ", (SourceProtocol e)]; done. Qed.

(** ** Messages tell errors apart *)

(** The value a string of hexadecimal digits reads as. *)
Definition hex_value (c : Ascii.ascii) : Z :=
  let n := Z.of_nat (Ascii.nat_of_ascii c) in if decide (n < 58) then n - 48 else n - 87.

Lemma hex_digit_value d : 0 <= d < 16 -> hex_value (hex_digit d) = d.
Proof.
  intros Hd. assert (d ∈ seqZ 0 16) as Hin by (apply elem_of_seqZ; lia).
  assert (Forall (fun d => hex_value (hex_digit d) = d) (seqZ 0 16)) as H by (vm_compute; repeat constructor).
  by apply (proj1 (Forall_forall _ _) H).
Qed.

Lemma hex_inj w n n' acc acc' :
  0 <= n < 16 ^ Z.of_nat w -> 0 <= n' < 16 ^ Z.of_nat w -> hex w n acc = hex w n' acc' -> n = n' /\ acc = acc'.
Proof.
  revert n n' acc acc'. induction w as [|w IH]; intros n n' acc acc' Hn Hn' E.
  - simpl in *. split; [lia|done].
  - rewrite Nat2Z.inj_succ, Z.pow_succ_r in Hn, Hn' by lia. cbn [hex] in E.
    assert (forall x, 0 <= x < 16 * 16 ^ Z.of_nat w -> 0 <= x / 16 < 16 ^ Z.of_nat w) as Hd.
    { intros x Hx. split; [apply Z.div_pos; lia|apply Z.div_lt_upper_bound; lia]. }
    destruct (IH _ _ _ _ (Hd _ Hn) (Hd _ Hn') E) as [E1 E2]. injection E2 as E2 E3.
    apply (f_equal hex_value) in E2. pose proof (Z.mod_pos_bound n 16). pose proof (Z.mod_pos_bound n' 16).
    rewrite !hex_digit_value in E2 by lia. split; [|done].
    rewrite (Z.div_mod n 16), (Z.div_mod n' 16) by lia. by rewrite E1, E2.
Qed.

Definition error_typed (e : ProtocolError) : Prop :=
  match e with UnknownMessageType t | InvalidSide t => is_u8 t | _ => True end.

Lemma protocol_messages_distinct e e' :
  error_typed e -> error_typed e' -> ProtocolError_fmt e = ProtocolError_fmt e' -> e = e'.
Proof.
  intros He He' E.
  destruct e as [|t|s|], e' as [|t'|s'|]; try done; try (simpl in E; discriminate E).
  - apply (inj (String.append _)) in E. apply hex_inj in E as [-> _]; [done|..]; simpl in *; unfold_ranges; lia.
  - apply (inj (String.append _)) in E. by apply (inj pretty) in E as ->.
Qed.
