(* ===== verification/Loadgen.v ===== *)
(** * Loadgen.v: the load generator ([examples/loadgen.rs])

    [run_direct] without clocks and output: asks are added to the engine, bids
    pushed into the ring, then the ring is drained through the engine.  An
    [unwrap] of an error panics, and a push that finds the ring full would be
    retried for ever, because nobody pops: both are [None].  The sizes
    are chosen so that neither happens.  Of [run_tcp] the bytes sent and the
    receive loop; of the clock its observed step; what it prints is in [Report]. *)

From stdpp Require Import strings.
From S2P Require Import Prelude.
From S2P Require Import Order.
From S2P Require Import Arena.
From S2P Require Import ArenaInv.
From S2P Require Import Book.
From S2P Require Import BookSpec.
From S2P Require Import BookInv.
From S2P Require Import Matching.
From S2P Require Import MatchingSpec.
From S2P Require Import MatchingInv.
From S2P Require Import Protocol.
From S2P Require Import ProtocolInv.
From S2P Require Import Engine.
From S2P Require Import Ring.
From S2P Require Import RingInv.
From S2P Require Import RingThm.

Definition ORDER_COUNT : Z := 1000000.
Definition WARMUP_COUNT : Z := 10000.
Definition RING_CAPACITY : Z := Z.shiftl 1 20.
Definition ARENA_CAPACITY : Z := Z.shiftl 1 20.
Definition PRICE_LEVELS : Z := 50.

Definition make_order (id : Z) (side : Side) (price qty : Z) : option Order :=
  Order_new id id side price qty id.

Definition flow_price (i : Z) : Z := 10000 + i mod PRICE_LEVELS.

(** The first loop: [n] asks from position [i]. *)
Fixpoint preload (n : nat) (i next_id : Z) (engine : MatchingEngine) : option (MatchingEngine * Z) :=
  match n with
  | O => Some (engine, next_id)
  | S n =>
      order ← make_order next_id Ask (flow_price i) 10;
      '(engine, r) ← MatchingEngine.add_order engine order;
      if is_ok r then preload n (i + 1) (u64_add next_id 1) engine else None
  end.

(** The second loop: [n] bids into the ring. *)
Fixpoint push_bids (n : nat) (i next_id : Z) (r : RingBufferInner EngineCommand) (p : Producer)
  : option (RingBufferInner EngineCommand * Producer * Z) :=
  match n with
  | O => Some (r, p, next_id)
  | S n =>
      order ← make_order next_id Bid (flow_price i) 10;
      '(r, p, res) ← push r p (NewOrder order) (latest (rb_tail r));
      if is_ok res then push_bids n (i + 1) (u64_add next_id 1) r p else None
  end.

Record Hot : Type := mkHot {
  h_engine : MatchingEngine;
  h_report_buf : list Z;
  h_seq : Z;            (* u32 *)
  h_fill_count : Z      (* u64 *)
}.

(** The reports of one order, encoded into the one buffer. *)
Fixpoint hot_reports (fills : list Fill) (ts : Z) (h : Hot) : Hot :=
  match fills with
  | [] => h
  | fill :: fills =>
      let seq := wrap 32 (h_seq h + 1) in
      let buf := match encode_execution_report (h_report_buf h) seq fill ts with
                 | Ok (buf, _) => buf | Err _ => h_report_buf h end in
      hot_reports fills ts (mkHot (h_engine h) buf seq (u64_add (h_fill_count h) 1))
  end.

Definition hot_command (h : Hot) (cmd : EngineCommand) : option Hot :=
  match cmd with
  | NewOrder order =>
      let ts := o_timestamp order in
      '(engine, r) ← MatchingEngine.add_order (h_engine h) order;
      let h := mkHot engine (h_report_buf h) (h_seq h) (h_fill_count h) in
      Some (match r with Ok result => hot_reports (r_fills result) ts h | Err _ => h end)
  | CancelOrder order_id =>
      '(engine, _) ← MatchingEngine.cancel_order (h_engine h) order_id;
      Some (mkHot engine (h_report_buf h) (h_seq h) (h_fill_count h))
  end.

(** The two popping loops: at most [n] commands (the warm-up), until the ring
    is empty; the number done is returned. *)
Fixpoint drain (n : nat) (r : RingBufferInner EngineCommand) (c : Consumer) (h : Hot) (done : Z)
  : option (RingBufferInner EngineCommand * Consumer * Hot * Z) :=
  match n with
  | O => Some (r, c, h, done)
  | S n =>
      '(r, c, res) ← pop r c (latest (rb_head r));
      match res with
      | Err _ => Some (r, c, h, done)
      | Ok cmd => h ← hot_command h cmd; drain n r c h (done + 1)
      end
  end.

(** [while let Ok(cmd) = consumer.pop()]: until the ring is empty. *)
Fixpoint drain_all (fuel : nat) (r : RingBufferInner EngineCommand) (c : Consumer) (h : Hot) (measured : Z)
  : option (RingBufferInner EngineCommand * Consumer * Hot * Z) :=
  match fuel with
  | O => None
  | S fuel =>
      '(r, c, res) ← pop r c (latest (rb_head r));
      match res with
      | Err _ => Some (r, c, h, measured)
      | Ok cmd => h ← hot_command h cmd; drain_all fuel r c h (u64_add measured 1)
      end
  end.

(** What the results say. *)
Record DirectResult : Type := mkDirect {
  dr_warmup : Z;
  dr_measured : Z;
  dr_fills : Z;
  dr_resting : Z       (* [measured_count.saturating_sub(fill_count)] *)
}.

(** [run_direct] without clocks and output, for [n] pairs. *)
Definition run_direct (n warmup : nat) (ring_capacity arena_capacity : Z) : option DirectResult :=
  '(r, p, c) ← ring_buffer ring_capacity;
  '(engine, next_id) ← preload n 0 1 (MatchingEngine.with_capacity arena_capacity);
  '(r, p, _) ← push_bids n 0 next_id r p;
  '(r, c, h, warmup_done) ← drain warmup r c (mkHot engine (replicate EXECUTION_REPORT_SIZE 0) 0 0) 0;
  '(_, _, h, measured) ← drain_all (S (Z.to_nat ring_capacity)) r c
                           (mkHot (h_engine h) (h_report_buf h) (h_seq h) 0) 0;
  Some (mkDirect warmup_done measured (h_fill_count h) (Z.max 0 (measured - h_fill_count h))).

(** ** TCP mode *)

(** The bytes [run_tcp] sends: [n] asks, then [n] bids, each encoded into the one
    buffer. *)
Fixpoint tcp_orders (n : nat) (side : Side) (i next_id : Z) (buf : list Z) : option (list Z * list Z * Z) :=
  match n with
  | O => Some ([], buf, next_id)
  | S n =>
      order ← make_order next_id side (flow_price i) 10;
      match encode_new_order buf order with
      | Err _ => None
      | Ok (buf, _) =>
          '(sent, buf', id) ← tcp_orders n side (i + 1) (u64_add next_id 1) buf;
          Some (buf ++ sent, buf', id)
      end
  end.

Definition tcp_stream (n : nat) : option (list Z) :=
  '(asks, buf, next_id) ← tcp_orders n Ask 0 1 (replicate NEW_ORDER_SIZE 0);
  '(bids, _, _) ← tcp_orders n Bid 0 next_id buf;
  Some (asks ++ bids).

(** The receive loop: the number of datagrams until a receive fails. *)
Fixpoint recv_count (received : list bool) : Z :=
  match received with
  | true :: received => 1 + recv_count received
  | _ => 0
  end.

(** ** The clock *)

(** [observed_resolution_ns] on the ticks of consecutive reads (u64), before the
    conversion to nanoseconds. *)
Definition observed_step (first : Z) (reads : list Z) : Z :=
  fst (foldl (fun '(smallest, prev) now =>
                let d := u64_sub now prev in
                (if decide (d > 0 /\ d < smallest) then d else smallest, now))
             (2 ^ 64 - 1, first) reads).

(** [main]: the flags are looked for anywhere on the command line. *)
Inductive Mode : Type :=
| TcpMode
| DirectMode (use_instant_clock : bool).

Definition loadgen_mode (args : list string) : Mode :=
  if decide ("--tcp"%string ∈ args) then TcpMode else DirectMode (bool_decide ("--instant"%string ∈ args)).

(** ** Preloading never fails *)

(** An ask that finds no bids and a free slot rests. *)
Lemma rest_ask cap asks o :
  o_side o = Ask -> o_quantity o ≠ 0 -> o_id o ∉ o_id <$> asks -> Z.of_nat (length asks) < cap ->
  exists res, spec_add cap (mkSpec [] asks) o = (mkSpec [] (insert_prio Ask o asks), [], Ok res).
Proof.
  intros Hs Hq Hid Hlen. unfold spec_add. rewrite decide_False by done. rewrite Hs. simpl.
  rewrite decide_False by done. unfold spec_insert, sp_ids, sp_all. simpl. rewrite app_nil_r.
  rewrite decide_False by done. rewrite decide_False by lia. rewrite Hs. simpl. eexists.
  do 3 f_equal. destruct o; simpl in *. done.
Qed.

Lemma make_order_eq id side price qty :
  qty ≠ 0 -> make_order id side price qty = Some (mkOrder id id side price qty id).
Proof. intros. unfold make_order, Order_new. by rewrite decide_False. Qed.

Lemma preload_inv cap n i e asks :
  0 <= i -> engine_inv cap e (mkSpec [] asks) -> Z.of_nat (length asks) = i ->
  Forall (fun id => id <= i) (o_id <$> asks) -> i + Z.of_nat n <= cap -> cap < 2 ^ 32 ->
  exists e' asks', preload n i (i + 1) e = Some (e', i + 1 + Z.of_nat n) /\
    engine_inv cap e' (mkSpec [] asks') /\ length asks' = (length asks + n)%nat.
Proof.
  revert i e asks. induction n as [|n IH]; intros i e asks Hi Hinv Hlen Hids Hcap H32.
  { exists e, asks. simpl. rewrite Z.add_0_r, Nat.add_0_r. done. }
  set (o := mkOrder (i + 1) (i + 1) Ask (flow_price i) 10 (i + 1)).
  assert (o_id o ∉ o_id <$> asks) as Hfresh.
  { intros Hin. apply (proj1 (Forall_forall _ _) Hids) in Hin. simpl in Hin. lia. }
  destruct (rest_ask cap asks o eq_refl ltac:(done) Hfresh ltac:(lia)) as [res Hadd].
  assert (command_in_range (NewOrder o)) as Hr.
  { unfold o, command_in_range, order_typed, flow_price, PRICE_LEVELS. cbn [o_id o_trader_id o_price o_quantity o_timestamp]. pose proof (Z.mod_pos_bound i 50 ltac:(lia)). unfold_ranges. lia. }
  pose proof (add_order_spec cap e _ o Hinv Hr) as H. rewrite Hadd in H. destruct H as (e1 & He1 & I1 & _).
  cbn [preload]. rewrite make_order_eq by done. cbn [mbind option_bind]. fold o. rewrite He1.
  cbn [mbind option_bind is_ok].
  assert (u64_add (i + 1) 1 = i + 1 + 1) as -> by (unfold u64_add; apply wrap_small; lia).
  destruct (IH (i + 1) e1 (insert_prio Ask o asks)) as (e' & asks' & -> & I' & Hl'); try done.
  - lia.
  - rewrite length_insert_prio. lia.
  - rewrite insert_prio_Permutation. constructor; [simpl; lia|].
    eapply Forall_impl; [exact Hids|]. simpl. lia.
  - lia.
  - exists e', asks'. split; [f_equal; f_equal; lia|]. split; [done|]. rewrite Hl', length_insert_prio. lia.
Qed.

(** All asks of the flow rest: the arena is large enough. *)
Lemma preload_succeeds cap n :
  0 <= cap < 2 ^ 32 -> Z.of_nat n <= cap ->
  exists e os, preload n 0 1 (MatchingEngine.with_capacity cap) = Some (e, 1 + Z.of_nat n) /\
    OrderBook.all_resting_orders (e_book e) = Some os /\ length os = n.
Proof.
  intros Hcap Hn.
  destruct (preload_inv cap n 0 (MatchingEngine.with_capacity cap) []) as (e & asks & Hp & I & Hl);
    [done|by apply with_capacity_inv|done|constructor|lia|lia|].
  - exists e. eexists. split; [exact Hp|]. split; [apply all_resting_orders_rep, (inv_rep _ _ _ I)|].
    unfold sp_all. simpl. by rewrite app_nil_r.
Qed.

(** All bids of the flow fit into the ring: no push is ever refused. *)
Lemma push_bids_inv cap n i next_id r p c pushed :
  cap < 2 ^ 64 -> reach cap (mkMachine r p c PIdle CIdle) pushed [] ->
  Z.of_nat (length pushed + n) <= cap ->
  exists r' p' pushed' id', push_bids n i next_id r p = Some (r', p', id') /\
    reach cap (mkMachine r' p' c PIdle CIdle) pushed' [] /\ length pushed' = (length pushed + n)%nat.
Proof.
  intros Hc. revert i next_id r p pushed. induction n as [|n IH]; intros i next_id r p pushed Hr Hn.
  { exists r, p, pushed, next_id. by rewrite Nat.add_0_r. }
  cbn [push_bids]. rewrite make_order_eq by done. cbn [mbind option_bind].
  destruct (reach_inv _ _ _ _ Hc Hr) as (H & L & I).
  destruct (push_quiet _ _ _ _ _ (NewOrder (mkOrder next_id next_id Bid (flow_price i) 10 next_id)) _ _ _ _ I eq_refl)
    as (r1 & p1 & Hp).
  rewrite decide_False in Hp by (simpl; lia). rewrite Hp. cbn [mbind option_bind is_ok].
  pose proof (push_runs _ _ _ _ _ _ _ _ _ _ _ _ Hr Hp) as Hr1. simpl in Hr1.
  destruct (IH (i + 1) (u64_add next_id 1) r1 p1 _ Hr1) as (r' & p' & pushed' & id' & -> & Hr' & Hl').
  { rewrite length_app. simpl. lia. }
  exists r', p', pushed', id'. split; [done|]. split; [done|]. rewrite Hl', length_app. simpl. lia.
Qed.

(** The flow of the source: a million asks rest in the arena of 2^20 slots, and
    a million bids fit into the ring of 2^20 slots. *)
Lemma direct_mode_fits n :
  Z.of_nat n = ORDER_COUNT ->
  (exists e os, preload n 0 1 (MatchingEngine.with_capacity ARENA_CAPACITY) = Some (e, 1 + Z.of_nat n) /\
      OrderBook.all_resting_orders (e_book e) = Some os /\ length os = n) /\
  forall r p c, ring_buffer RING_CAPACITY = Some (r, p, c) ->
    exists r' p' id', push_bids n 0 (1 + Z.of_nat n) r p = Some (r', p', id').
Proof.
  intros Hn.
  assert (ORDER_COUNT <= ARENA_CAPACITY /\ ARENA_CAPACITY < 2 ^ 32 /\ ORDER_COUNT <= RING_CAPACITY /\
          RING_CAPACITY < 2 ^ 64) as (Ha & Ha' & Hr & Hr') by (vm_compute; repeat split; discriminate).
  split; [apply preload_succeeds; lia|]. intros r p c Hrb.
  destruct (push_bids_inv RING_CAPACITY n 0 (1 + Z.of_nat n) r p c [] Hr' (reach_init _ _ _ _ Hrb))
    as (r' & p' & _ & id' & H & _); [simpl; lia|]. eauto.
Qed.
