(* ===== verification/LoadgenThm.v ===== *)
(** * LoadgenThm.v: what the load generator measures

    The direct mode runs to its end and its "resting" line never saturates; the
    stream of the TCP mode is decoded by the gateway into the orders sent; the
    clock step reported is the smallest positive difference of two reads. *)

From stdpp Require Import strings.
From S2P Require Import Prelude.
From S2P Require Import Order.
From S2P Require Import Arena.
From S2P Require Import Book.
From S2P Require Import BookSpec.
From S2P Require Import BookInv.
From S2P Require Import Matching.
From S2P Require Import MatchingSpec.
From S2P Require Import MatchingInv.
From S2P Require Import Protocol.
From S2P Require Import ProtocolInv.
From S2P Require Import ProtocolThm.
From S2P Require Import Engine.
From S2P Require Import Ring.
From S2P Require Import RingInv.
From S2P Require Import RingThm.
From S2P Require Import Gateway.
From S2P Require Import GatewayInv.
From S2P Require Import Loadgen.

(** ** One order of ten against a book of tens *)

Abbreviation all_tens L := (Forall (fun o => o_quantity o = 10) L).

Lemma spec_match_tens taker L :
  all_tens L ->
  let '(fs, L', q, _) := spec_match taker 10 L in
  (length fs <= 1)%nat /\ all_tens L' /\ (q = 10 \/ q = 0).
Proof.
  intros HL. destruct L as [|m L]; [simpl; auto|]. cbn [spec_match]. pose proof HL as [Hm HL']%Forall_cons.
  rewrite decide_True by lia. destruct (decide (crosses _ _ _)); [|simpl; auto with lia].
  destruct (decide (o_trader_id m = o_trader_id taker)); [simpl; auto with lia|].
  rewrite Hm. simpl Z.min. rewrite decide_True by lia.
  assert (forall X, spec_match taker 0 X = ([], X, 0, false)) as Hz.
  { intros [|x X]; [done|]. cbn [spec_match]. by rewrite decide_False by lia. }
  change (10 - 10) with 0. rewrite Hz. simpl. auto.
Qed.

Lemma spec_add_tens cap sp o :
  all_tens (sp_all sp) -> o_quantity o = 10 ->
  let '(sp', fs, r) := spec_add cap sp o in
  all_tens (sp_all sp') /\ match r with Ok res => (length (r_fills res) <= 1)%nat | Err _ => True end.
Proof.
  intros Hsp Ho. unfold spec_add. rewrite decide_False by lia. rewrite Ho.
  pose proof (spec_match_tens o (sp_side sp (opposite (o_side o))) (sp_side_Forall _ _ _ Hsp)) as Hm.
  destruct (spec_match o 10 _) as [[[fs L] q] st]. destruct Hm as (Hfs & HL & Hq).
  assert (forall s L0 sp0, all_tens (sp_all sp0) -> all_tens L0 -> all_tens (sp_all (sp_set s L0 sp0))) as Hset.
  { intros s L0 sp0 H0 HL0. unfold sp_all in *. rewrite Forall_app in *. destruct s; simpl; tauto. }
  destruct st; [split; [by apply Hset|done]|]. case_decide; [split; [by apply Hset|done]|].
  unfold spec_insert. case_decide; [split; [by apply Hset|done]|]. case_decide; [split; [by apply Hset|done]|].
  split; [|done]. apply Hset; [by apply Hset|]. rewrite insert_prio_Permutation. constructor; [simpl; lia|].
  apply sp_side_Forall. by apply Hset.
Qed.

(** ** The two drains *)

Definition is_ten (c : EngineCommand) : Prop :=
  match c with NewOrder o => order_typed o /\ o_quantity o = 10 | CancelOrder _ => False end.

Definition hot_inv (cap : Z) (h : Hot) : Prop := exists sp, engine_inv cap (h_engine h) sp /\ all_tens (sp_all sp).

Lemma hot_reports_engine fills ts h :
  h_engine (hot_reports fills ts h) = h_engine h /\
  (0 <= h_fill_count h -> h_fill_count h + Z.of_nat (length fills) < 2 ^ 64 ->
   h_fill_count (hot_reports fills ts h) = h_fill_count h + Z.of_nat (length fills)).
Proof.
  revert h. induction fills as [|f fills IH]; intros h; cbn [hot_reports length]; [split; [done|lia]|].
  set (h1 := mkHot _ _ _ _). destruct (IH h1) as [-> Hc]. split; [done|]. intros H0 Hlt.
  assert (h_fill_count h1 = h_fill_count h + 1) as E by (unfold h1, u64_add; simpl; apply wrap_small; lia).
  rewrite Hc; lia.
Qed.

Lemma hot_command_ten cap h c :
  hot_inv cap h -> is_ten c -> 0 <= h_fill_count h < 2 ^ 63 ->
  exists h', hot_command h c = Some h' /\ hot_inv cap h' /\ h_fill_count h <= h_fill_count h' <= h_fill_count h + 1.
Proof.
  intros (sp & I & Ht) Hc Hf. destruct c as [o|]; [|done]. destruct Hc as [Hty Hq]. cbn [hot_command].
  pose proof (add_order_spec cap (h_engine h) sp o I Hty) as Ha. pose proof (spec_add_tens cap sp o Ht Hq) as Hs.
  destruct (spec_add cap sp o) as [[sp' fs] r]. destruct Ha as (e' & -> & I' & _), Hs as [Ht' Hr].
  cbn [mbind option_bind]. eexists. split; [done|]. destruct r as [res|err].
  - destruct (hot_reports_engine (r_fills res) (o_timestamp o) (mkHot e' (h_report_buf h) (h_seq h) (h_fill_count h)))
      as [He Hcnt]. cbn [h_engine h_fill_count] in He, Hcnt. split; [exists sp'; by rewrite He|]. rewrite Hcnt; lia.
  - split; [by exists sp'|]. simpl. lia.
Qed.

(** Popping the next of the commands inside. *)
Lemma pop_next cap r p c (pushed popped : list EngineCommand) :
  cap < 2 ^ 64 -> reach cap (mkMachine r p c PIdle CIdle) pushed popped ->
  exists r' c', pop r c (latest (rb_head r)) =
      Some (r', c', match pushed !! length popped with None => Err tt | Some v => Ok v end) /\
    match pushed !! length popped with
    | None => length popped = length pushed
    | Some v => (length popped < length pushed)%nat /\ reach cap (mkMachine r' p c' PIdle CIdle) pushed (popped ++ [v])
    end.
Proof.
  intros Hc Hr. destruct (reach_inv _ _ _ _ Hc Hr) as (H & L & I).
  destruct (pop_quiet _ _ _ _ _ _ _ _ _ I eq_refl) as (r' & c' & Hp). pose proof (inv_window _ _ _ _ _ _ I) as Hw.
  pose proof (pop_runs _ _ _ _ _ _ _ _ _ _ _ Hr Hp) as Hr'. exists r', c'.
  destruct (pushed !! length popped) as [v|] eqn:E.
  - rewrite (drop_S _ _ _ E) in Hp, Hr'. split; [done|]. split; [by eapply lookup_lt_Some|done].
  - apply lookup_ge_None in E. rewrite drop_ge in Hp by done. split; [done|lia].
Qed.

Lemma drain_ten cap acap n r p c h i pushed popped :
  cap < 2 ^ 64 -> reach cap (mkMachine r p c PIdle CIdle) pushed popped -> Forall is_ten pushed -> hot_inv acap h ->
  0 <= h_fill_count h -> h_fill_count h + Z.of_nat n < 2 ^ 63 -> (length popped + n <= length pushed)%nat ->
  exists r' c' h' popped', drain n r c h i = Some (r', c', h', i + Z.of_nat n) /\
    reach cap (mkMachine r' p c' PIdle CIdle) pushed popped' /\ length popped' = (length popped + n)%nat /\ hot_inv acap h'.
Proof.
  intros Hc. revert r c h i popped. induction n as [|n IH]; intros r c h i popped Hr Ht Hh H0 H63 Hn.
  { exists r, c, h, popped. by rewrite Z.add_0_r, Nat.add_0_r. }
  cbn [drain]. destruct (pop_next cap r p c pushed popped Hc Hr) as (r1 & c1 & -> & Hcase). cbn [mbind option_bind].
  destruct (pushed !! length popped) as [v|] eqn:E; [|lia]. destruct Hcase as [_ Hr1].
  destruct (hot_command_ten acap h v Hh) as (h1 & -> & Hh1 & Hf1); [by eapply Forall_lookup_1|lia|]. cbn [mbind option_bind].
  destruct (IH r1 c1 h1 (i + 1) (popped ++ [v]) Hr1 Ht Hh1) as (r' & c' & h' & popped' & Hd & Hr' & Hl & Hh');
    [lia|lia|rewrite length_app; simpl; lia|].
  exists r', c', h', popped'. rewrite Hd. split; [do 2 f_equal; lia|]. split; [done|]. split; [|done].
  rewrite Hl, length_app. simpl. lia.
Qed.

Lemma drain_all_ten cap acap fuel r p c h i pushed popped :
  cap < 2 ^ 64 -> reach cap (mkMachine r p c PIdle CIdle) pushed popped -> Forall is_ten pushed -> hot_inv acap h ->
  0 <= h_fill_count h <= i -> i + Z.of_nat (length pushed - length popped) < 2 ^ 63 ->
  (length pushed - length popped < fuel)%nat ->
  exists r' c' h', drain_all fuel r c h i = Some (r', c', h', i + Z.of_nat (length pushed - length popped)) /\
    h_fill_count h <= h_fill_count h' <= i + Z.of_nat (length pushed - length popped).
Proof.
  intros Hc. revert r c h i popped. induction fuel as [|fuel IH]; intros r c h i popped Hr Ht Hh H0 H63 Hn; [lia|].
  cbn [drain_all]. destruct (pop_next cap r p c pushed popped Hc Hr) as (r1 & c1 & -> & Hcase). cbn [mbind option_bind].
  destruct (pushed !! length popped) as [v|] eqn:E.
  - destruct Hcase as [Hlt Hr1].
    destruct (hot_command_ten acap h v Hh) as (h1 & -> & Hh1 & Hf1); [by eapply Forall_lookup_1|lia|]. cbn [mbind option_bind].
    assert (u64_add i 1 = i + 1) as -> by (unfold u64_add; apply wrap_small; lia).
    destruct (IH r1 c1 h1 (i + 1) (popped ++ [v]) Hr1 Ht Hh1) as (r' & c' & h' & Hd & Hf);
      rewrite ?length_app in *; simpl length in *; try lia.
    exists r', c', h'. rewrite Hd. split; [do 2 f_equal; lia|lia].
  - exists r1, c1, h. rewrite Hcase, Nat.sub_diag, Z.add_0_r. split; [done|lia].
Qed.

(** The preloaded book holds tens. *)
Lemma preload_tens cap n i e sp :
  0 <= i -> engine_inv cap e sp -> all_tens (sp_all sp) -> i + 1 + Z.of_nat n < 2 ^ 32 ->
  forall e' id, preload n i (i + 1) e = Some (e', id) -> exists sp', engine_inv cap e' sp' /\ all_tens (sp_all sp').
Proof.
  revert i e sp. induction n as [|n IH]; intros i e sp Hi I Ht Hn e' id; cbn [preload]; [intros [= <- <-]; eauto|].
  rewrite make_order_eq by done. cbn [mbind option_bind]. set (o := mkOrder _ _ _ _ _ _).
  assert (order_typed o) as Hty.
  { unfold o, order_typed, flow_price, PRICE_LEVELS. cbn [o_id o_trader_id o_price o_quantity o_timestamp].
    pose proof (Z.mod_pos_bound i 50 ltac:(lia)). unfold_ranges. lia. }
  pose proof (add_order_spec cap e sp o I Hty) as Ha. pose proof (spec_add_tens cap sp o Ht eq_refl) as Hs.
  destruct (spec_add cap sp o) as [[sp' fs] r]. destruct Ha as (e1 & -> & I' & _), Hs as [Ht' _].
  cbn [mbind option_bind]. destruct (is_ok r); [|done].
  assert (u64_add (i + 1) 1 = i + 1 + 1) as -> by (unfold u64_add; apply wrap_small; lia).
  by apply (IH (i + 1) e1 sp'); [lia| | |lia].
Qed.

(** The bids pushed are tens. *)
Lemma push_bids_tens cap n i next_id r p c pushed r' p' id' :
  reach cap (mkMachine r p c PIdle CIdle) pushed [] -> Forall is_ten pushed ->
  0 <= i -> 0 <= next_id -> next_id + Z.of_nat n < 2 ^ 64 ->
  push_bids n i next_id r p = Some (r', p', id') ->
  exists more, reach cap (mkMachine r' p' c PIdle CIdle) (pushed ++ more) [] /\ Forall is_ten (pushed ++ more) /\
    length more = n.
Proof.
  revert i next_id r p pushed. induction n as [|n IH]; intros i next_id r p pushed Hr Ht Hi H0 Hn; cbn [push_bids].
  { intros [= <- <- <-]. exists []. by rewrite app_nil_r. }
  rewrite make_order_eq by done. cbn [mbind option_bind]. set (v := NewOrder _).
  destruct (push r p v _) as [[[r1 p1] [[]|w]]|] eqn:Hp; [| |done]; cbn [mbind option_bind is_ok]; [|done].
  pose proof (push_runs _ _ _ _ _ _ _ _ _ _ _ _ Hr Hp) as Hr1. cbv beta iota in Hr1.
  assert (u64_add next_id 1 = next_id + 1) as -> by (unfold u64_add; apply wrap_small; lia). intros Hrest.
  assert (is_ten v) as Hv.
  { unfold v, is_ten, order_typed, flow_price, PRICE_LEVELS. cbn [o_id o_trader_id o_price o_quantity o_timestamp].
    pose proof (Z.mod_pos_bound i 50 ltac:(lia)). unfold_ranges. lia. }
  destruct (IH (i + 1) (next_id + 1) r1 p1 _ Hr1) as (more & Hr' & Ht' & Hl); try done; try lia.
  { apply Forall_app. split; [done|]. by apply Forall_singleton. }
  exists (v :: more). rewrite <- app_assoc in Hr', Ht'. split; [done|]. split; [done|]. simpl. lia.
Qed.

(** The direct mode of the load generator runs to its end: with an arena and a
    ring that hold the flow, no [unwrap] fails and no push waits for ever, the
    warm-up takes exactly the orders it is given, the measured phase all others,
    and there is at most one fill per measured order, so the printed number of
    resting orders is exact. *)
Theorem direct_mode_completes n warmup ring_capacity arena_capacity :
  is_power_of_two ring_capacity = true -> ring_capacity < 2 ^ 64 -> 0 <= arena_capacity < 2 ^ 31 ->
  Z.of_nat n <= arena_capacity -> Z.of_nat n <= ring_capacity -> (warmup <= n)%nat ->
  exists fills, run_direct n warmup ring_capacity arena_capacity =
      Some (mkDirect (Z.of_nat warmup) (Z.of_nat (n - warmup)) fills (Z.of_nat (n - warmup) - fills)) /\
    0 <= fills <= Z.of_nat (n - warmup).
Proof.
  intros Hpow H64 Ha Hna Hnr Hw. unfold run_direct.
  assert (exists r p c, ring_buffer (T := EngineCommand) ring_capacity = Some (r, p, c)) as (r & p & c & Erb).
  { unfold ring_buffer. rewrite Hpow. unfold is_power_of_two in Hpow. apply andb_prop in Hpow as [Hp%bool_decide_eq_true _].
    rewrite decide_True by lia. by eexists _, _, _. }
  rewrite Erb. cbn [mbind option_bind].
  destruct (preload_succeeds arena_capacity n) as (e & os & Hpre & _ & _); [lia|lia|].
  destruct (preload_tens arena_capacity n 0 _ sp_empty ltac:(lia) (with_capacity_inv arena_capacity ltac:(lia))
    ltac:(constructor) ltac:(lia) _ _ Hpre) as (sp & I & Ht).
  rewrite Hpre. cbn [mbind option_bind]. pose proof (reach_init ring_capacity r p c Erb) as Hr0.
  destruct (push_bids_inv ring_capacity n 0 (1 + Z.of_nat n) r p c [] H64 Hr0 ltac:(simpl; lia))
    as (r1 & p1 & _ & id1 & Hpush & _ & _).
  destruct (push_bids_tens ring_capacity n 0 (1 + Z.of_nat n) r p c [] r1 p1 id1 Hr0) as (pushed & Hr1 & Hten & Hlen);
    [constructor|lia|lia|lia|exact Hpush|].
  rewrite Hpush. cbn [mbind option_bind]. cbn [app] in *.
  destruct (drain_ten ring_capacity arena_capacity warmup r1 p1 c (mkHot e (replicate EXECUTION_REPORT_SIZE 0) 0 0) 0 pushed [])
    as (r2 & c2 & h2 & popped2 & Hd & Hr2 & Hl2 & Hh2); [done|done|done|by exists sp|simpl; lia|simpl; lia|simpl; lia|].
  rewrite Hd. cbn [mbind option_bind]. simpl in Hl2.
  destruct (drain_all_ten ring_capacity arena_capacity (S (Z.to_nat ring_capacity)) r2 p1 c2
      (mkHot (h_engine h2) (h_report_buf h2) (h_seq h2) 0) 0 pushed popped2) as (r3 & c3 & h3 & Hda & Hf);
    [done|done|done|done|simpl; lia|lia|lia|].
  rewrite Hda. cbn [mbind option_bind]. rewrite Hlen, Hl2 in *. cbn [h_fill_count] in Hf.
  exists (h_fill_count h3). rewrite !Z.add_0_l in *. rewrite Z.max_r by lia. split; [done|lia].
Qed.

Lemma direct_mode_completes_witness :
  exists fills, run_direct 5 2 8 8 = Some (mkDirect 2 3 fills (3 - fills)) /\ 0 <= fills <= 3.
Proof.
  exact (direct_mode_completes 5 2 8 8 eq_refl ltac:(lia) ltac:(lia) ltac:(lia) ltac:(lia) ltac:(lia)).
Defined.

(** ** TCP mode *)

Lemma tcp_orders_spec n side i next_id buf :
  length buf = NEW_ORDER_SIZE -> 0 <= i -> 0 < next_id -> next_id + Z.of_nat n < 2 ^ 63 ->
  exists msgs buf', tcp_orders n side i next_id buf = Some (stream_of msgs, buf', next_id + Z.of_nat n) /\
    length buf' = NEW_ORDER_SIZE /\ Forall message_ok msgs /\
    msgs.*2 = imap (fun k _ => NewOrder (mkOrder (next_id + Z.of_nat k) (next_id + Z.of_nat k) side
                                (flow_price (i + Z.of_nat k)) 10 (next_id + Z.of_nat k))) (replicate n tt).
Proof.
  revert i next_id buf. induction n as [|n IH]; intros i next_id buf Hb Hi Hid Hn; cbn [tcp_orders].
  { exists [], buf. rewrite Z.add_0_r. split; [done|]. split; [done|]. by split. }
  rewrite make_order_eq by done. cbn [mbind option_bind]. set (o := mkOrder _ _ _ _ _ _).
  rewrite encode_new_order_eq by (by rewrite Hb). rewrite drop_ge, app_nil_r by lia.
  assert (u64_add next_id 1 = next_id + 1) as -> by (unfold u64_add; apply wrap_small; lia).
  destruct (IH (i + 1) (next_id + 1) (new_order_bytes o) (length_new_order_bytes o)) as (msgs & buf' & -> & Hb' & Hm & Em);
    [lia|lia|lia|]. cbn [mbind option_bind].
  exists ((replicate 6 0, NewOrder o) :: msgs), buf'. split.
  { by replace (next_id + 1 + Z.of_nat n) with (next_id + Z.of_nat (S n)) by lia. }
  split; [done|]. split.
  - constructor; [|done]. split; [done|]. unfold o, command_typed, order_typed, flow_price, PRICE_LEVELS.
    cbn [o_id o_trader_id o_price o_quantity o_timestamp fst snd]. pose proof (Z.mod_pos_bound i 50 ltac:(lia)). unfold_ranges. lia.
  - rewrite fmap_cons. cbn [replicate imap snd]. f_equal; [unfold o; by rewrite !Z.add_0_r|].
    rewrite Em. apply imap_ext. intros k x _. simpl. do 2 f_equal; try lia. f_equal. lia.
Qed.

(** The order number [k] of the flow of [n] pairs: the asks, then the bids, at the
    prices of the flow, for ten each. *)
Definition flow_order (n k : nat) : Order :=
  let id := 1 + Z.of_nat k in
  if decide (k < n)%nat then mkOrder id id Ask (flow_price (Z.of_nat k)) 10 id
  else mkOrder id id Bid (flow_price (Z.of_nat k - Z.of_nat n)) 10 id.

(** The gateway decodes the stream of the TCP mode into exactly the orders of the
    flow, stamped as they are read. *)
Lemma tcp_stream_decodes n clock :
  Z.of_nat n < 2 ^ 61 ->
  exists stream, let cmds := (fun k => NewOrder (flow_order n k)) <$> seq 0 (n + n) in
    tcp_stream n = Some stream /\ Forall command_typed cmds /\
    handle_client (S (length stream)) stream UnexpectedEof clock 0 =
      Some (imap (fun k c => stamp (now_nanos (clock k)) c) cmds, true, Ok tt).
Proof.
  intros Hn. unfold tcp_stream.
  destruct (tcp_orders_spec n Ask 0 1 (replicate NEW_ORDER_SIZE 0)) as (m1 & buf1 & -> & Hb1 & Hm1 & E1); [done|lia|lia|lia|].
  cbn [mbind option_bind].
  destruct (tcp_orders_spec n Bid 0 (1 + Z.of_nat n) buf1 Hb1) as (m2 & buf2 & -> & _ & Hm2 & E2); [lia|lia|lia|].
  cbn [mbind option_bind]. exists (stream_of m1 ++ stream_of m2). cbv zeta.
  assert ((fun k => NewOrder (flow_order n k)) <$> seq 0 (n + n) = (m1 ++ m2).*2) as ->.
  { rewrite fmap_app, E1, E2, seq_app, fmap_app. apply list_eq. intros k.
    destruct (decide (k < n)%nat) as [Hk|Hk].
    - rewrite !lookup_app_l by (rewrite ?length_fmap, ?length_imap, ?length_replicate, ?length_seq; lia).
      rewrite list_lookup_fmap, lookup_seq_lt by done. rewrite list_lookup_imap, lookup_replicate_2 by done. simpl.
      unfold flow_order. by rewrite decide_True by done.
    - rewrite !lookup_app_r by (rewrite ?length_fmap, ?length_imap, ?length_replicate, ?length_seq; lia).
      rewrite !length_fmap, length_imap, length_replicate, length_seq.
      destruct (decide (k - n < n)%nat) as [Hk'|Hk'].
      + rewrite list_lookup_fmap, lookup_seq_lt by done. rewrite list_lookup_imap, lookup_replicate_2 by done. simpl.
        unfold flow_order. rewrite decide_False by lia. replace (n + (k - n))%nat with k by lia.
        do 3 f_equal; try lia. f_equal. lia.
      + rewrite !lookup_ge_None_2; [done|..]; rewrite ?length_fmap, ?length_imap, ?length_replicate, ?length_seq; lia. }
  split; [done|].
  assert (stream_of m1 ++ stream_of m2 = stream_of (m1 ++ m2) ++ []) as Es.
  { rewrite app_nil_r. unfold stream_of. by rewrite fmap_app, concat_app. }
  assert (Forall message_ok (m1 ++ m2)) as Hm by (by apply Forall_app).
  split; [apply Forall_fmap; eapply Forall_impl; [exact Hm|]; by intros m []|].
  rewrite Es. rewrite (handle_client_stream (m1 ++ m2) [] UnexpectedEof clock 0); [done|done|done|].
  rewrite app_nil_r. clear -Hm. induction Hm as [|[pad c] msgs [Hp Hc] _ IH]; [simpl; lia|].
  unfold stream_of. rewrite fmap_cons. cbn [concat]. rewrite length_app. fold (stream_of msgs).
  destruct (layout_split pad c Hp) as (b & body & -> & _). cbn [length]. lia.
Qed.

(** ** The clock step *)

(** The step reported is a difference of two consecutive reads, and no positive
    difference is smaller. *)
Lemma observed_step_smallest first reads :
  let ds := zip_with (fun now prev => u64_sub now prev) reads (first :: reads) in
  let s := observed_step first reads in
  Forall (fun d => 0 < d -> s <= d) ds /\ (s = 2 ^ 64 - 1 \/ (s ∈ ds /\ 0 < s)).
Proof.
  unfold observed_step. cbv zeta.
  assert (forall smallest prev, let s := fst (foldl (fun '(smallest, prev) now =>
      let d := u64_sub now prev in (if decide (d > 0 /\ d < smallest) then d else smallest, now)) (smallest, prev) reads) in
    s <= smallest /\ Forall (fun d => 0 < d -> s <= d) (zip_with (fun now prev => u64_sub now prev) reads (prev :: reads)) /\
    (s = smallest \/ (s ∈ zip_with (fun now prev => u64_sub now prev) reads (prev :: reads) /\ 0 < s))) as H.
  { induction reads as [|now reads IH]; intros smallest prev; cbv zeta; cbn [foldl].
    { simpl. split; [lia|]. split; [constructor|by left]. }
    destruct (IH (if decide (u64_sub now prev > 0 /\ u64_sub now prev < smallest) then u64_sub now prev else smallest) now)
      as (Hle & Hall & Hin). cbv zeta in *. set (s := fst (foldl _ _ _)) in *.
    cbn [zip_with]. split; [case_decide; lia|]. split.
    - constructor; [|done]. intros Hpos. case_decide; lia.
    - destruct Hin as [Hs|[Hin Hpos]].
      + case_decide as Hd; [right; split; [rewrite Hs; left|lia]|by left].
      + right. split; [by right|done]. }
  destruct (H (2 ^ 64 - 1) first) as (_ & Hall & Hin). done.
Qed.
