(* ===== verification/Throughput.v ===== *)
(** * Throughput.v: the ring benchmark ([examples/ring_throughput.rs]) and the
    assembly probe ([scripts/asm_probe.rs])

    The workloads with their checksum assertions, the argument parser, the CPU
    mask and the statistics.  Times are floats and are left out; the statistics
    are generic in the number type, of which only the operations used are
    assumed.  u64 arithmetic wraps (a release build). *)

From Stdlib Require Import Ascii.
From stdpp Require Import strings.
From S2P Require Import Prelude.
From S2P Require Import Order.
From S2P Require Import Ring.
From S2P Require Import RingInv.
From S2P Require Import RingThm.
From S2P Require Import RingTests.
From S2P Require Import RingMem.

(** ** Workloads *)

Module Throughput.

Definition u64_mul (a b : Z) : Z := wrap 64 (a * b).

(** [make_order]; the [unwrap] of a zero quantity would panic. *)
Definition make_order (id : Z) : option Order :=
  Order_new id (id mod 100) (if decide (id mod 2 = 0) then Bid else Ask)
    (10000 + Z.rem (if decide (id < 2 ^ 63) then id else id - 2 ^ 64) 500) (u64_add (id mod 1000) 1) (u64_mul id 1000).

(** The values the consumer adds up, each mapped to its contribution. *)
Definition checksum_of {T} (key : T -> Z) (vs : list T) : Z := foldl (fun sum v => wrapping_add sum (key v)) 0 vs.

(** [count * (count - 1) / 2], what the assertion compares with. *)
Definition expected_checksum (count : Z) : Z := u64_mul count (u64_sub count 1) / 2.

(** What [run_u64] and [run_order] push. *)
Definition u64_items (count : Z) : list Z := seqZ 0 count.
Definition order_items (count : Z) : option (list Order) := mapM make_order (seqZ 0 count).

(** [run_latency] and [latency_bench]: push one, pop one; a refused push or pop
    panics.  The ring is used by one thread, whose loads see its own stores. *)
Fixpoint latency_loop (n : nat) (i : Z) (r : RingBufferInner Z) (p : Producer) (c : Consumer) (sum : Z)
  : option (RingBufferInner Z * Producer * Consumer * Z) :=
  match n with
  | O => Some (r, p, c, sum)
  | S n =>
      '(r, p, pushed) ← push r p i (latest (rb_tail r));
      match pushed with
      | Err _ => None
      | Ok _ =>
          '(r, c, popped) ← pop r c (latest (rb_head r));
          match popped with
          | Err _ => None
          | Ok v => latency_loop n (i + 1) r p c (wrapping_add sum v)
          end
      end
  end.

(** The same loop without the panics: a refused operation is skipped. *)
Fixpoint latency_loop_nounwrap (n : nat) (i : Z) (r : RingBufferInner Z) (p : Producer) (c : Consumer) (sum : Z)
  : option (RingBufferInner Z * Producer * Consumer * Z) :=
  match n with
  | O => Some (r, p, c, sum)
  | S n =>
      '(r, p, _) ← push r p i (latest (rb_tail r));
      '(r, c, popped) ← pop r c (latest (rb_head r));
      latency_loop_nounwrap n (i + 1) r p c (match popped with Ok v => wrapping_add sum v | Err _ => sum end)
  end.

Definition latency_bench (count : Z) : option Z :=
  '(r, p, c) ← ring_buffer 1024;
  '(_, _, _, sum) ← latency_loop (Z.to_nat count) 0 r p c 0;
  Some sum.

(** [run_latency] with its assertion. *)
Definition run_latency (count : Z) : option bool :=
  sum ← latency_bench count;
  Some (bool_decide (sum = expected_checksum count)).

(** [push_u64] and [pop_u64] of the probe. *)
Definition push_u64 (r : RingBufferInner Z) (p : Producer) (v : Z) : option (RingBufferInner Z * Producer * bool) :=
  '(r, p, res) ← push r p v (latest (rb_tail r));
  Some (r, p, is_ok res).
Definition pop_u64 (r : RingBufferInner Z) (c : Consumer) : option (RingBufferInner Z * Consumer * Z) :=
  '(r, c, res) ← pop r c (latest (rb_head r));
  Some (r, c, match res with Ok v => v | Err _ => 0 end).

(** [latency_bench_leak]: the handles are forgotten instead of dropped. *)
Definition latency_bench_leak (count : Z) : option Z :=
  '(r, p, c) ← ring_buffer 1024;
  '(_, _, _, sum) ← latency_loop (Z.to_nat count) 0 r p c 0;
  Some sum.

(** [main] of the probe, with [v] arguments. *)
Definition probe_main (v : Z) : option (bool * Z * Z * Z * Z * Z) :=
  '(r, p, c) ← ring_buffer 1024;
  '(r, p, pushed) ← push_u64 r p v;
  '(r, c, popped) ← pop_u64 r c;
  '(r, p, c, sum1) ← latency_loop (Z.to_nat v) 0 r p c 0;
  '(r, p, c, sum2) ← latency_loop_nounwrap (Z.to_nat v) 0 r p c 0;
  bench ← latency_bench v;
  leak ← latency_bench_leak v;
  Some (pushed, popped, sum1, sum2, bench, leak).

(** ** CPU affinity *)

(** [set[cpu / 64] |= 1 << (cpu % 64)] on sixteen words; [Err] is "out of range". *)
Definition affinity_mask (cpu : Z) : result (list Z) unit :=
  let set := replicate 16 0 in
  if decide (cpu >= 1024) then Err tt
  else Ok (alter (fun w => Z.lor w (Z.shiftl 1 (cpu mod 64))) (Z.to_nat (cpu / 64)) set).

(** The same on Windows, where the mask is one word. *)
Definition affinity_windows (cpu : Z) : result Z unit :=
  if decide (cpu >= 64) then Err tt else Ok (Z.shiftl 1 cpu).


(** ** Arguments *)

Definition digit_of (a : Ascii.ascii) : option Z :=
  let n := Z.of_nat (Ascii.nat_of_ascii a) in
  if decide (48 <= n <= 57) then Some (n - 48) else None.

(** The decimal digits after [acc]; a value over [max] is an overflow. *)
Fixpoint parse_digits (max acc : Z) (s : string) : option Z :=
  match s with
  | EmptyString => Some acc
  | String a s =>
      d ← digit_of a;
      let acc := acc * 10 + d in
      if decide (acc <= max) then parse_digits max acc s else None
  end.

(** [str::parse] of an unsigned integer up to [max]: digits, an optional [+]
    before them, not empty. *)
Definition parse_uint (max : Z) (s : string) : option Z :=
  match s with
  | EmptyString => None
  | String a EmptyString => parse_digits max 0 s
  | String a rest => if decide (a = "+"%char) then parse_digits max 0 rest else parse_digits max 0 s
  end.

Definition USIZE_MAX : Z := 2 ^ 64 - 1.

(** [spec.split_once(',')]. *)
Fixpoint split_once (s : string) : option (string * string) :=
  match s with
  | EmptyString => None
  | String a s =>
      if decide (a = ","%char) then Some (EmptyString, s)
      else '(l, r) ← split_once s; Some (String a l, r)
  end.

Record Args : Type := mkArgs {
  ar_positional : list string;
  ar_pin : option (Z * Z);
  ar_raw : bool;
  ar_workload : string
}.

(** The [while i < args.len()] loop; a missing or malformed value panics. *)
Fixpoint parse_args (args : list string) (a : Args) : option Args :=
  match args with
  | [] => Some a
  | arg :: args =>
      if decide (arg = "--pin") then
        match args with
        | spec :: args =>
            '(p, c) ← split_once spec;
            p ← parse_uint USIZE_MAX p;
            c ← parse_uint USIZE_MAX c;
            parse_args args (mkArgs (ar_positional a) (Some (p, c)) (ar_raw a) (ar_workload a))
        | [] => None
        end
      else if decide (arg = "--raw") then
        parse_args args (mkArgs (ar_positional a) (ar_pin a) true (ar_workload a))
      else if decide (arg = "--workload") then
        match args with
        | w :: args => parse_args args (mkArgs (ar_positional a) (ar_pin a) (ar_raw a) w)
        | [] => None
        end
      else parse_args args (mkArgs (ar_positional a ++ [arg]) (ar_pin a) (ar_raw a) (ar_workload a))
  end.

Definition args_default : Args := mkArgs [] None false "all".

(** [positional.get(i).and_then(|s| s.parse().ok()).unwrap_or(default)]. *)
Definition positional_or (a : Args) (i : nat) (dflt : Z) : Z :=
  default dflt (s ← ar_positional a !! i; parse_uint USIZE_MAX s).
Definition arg_iters (a : Args) : Z := positional_or a 0 20.
Definition arg_count (a : Args) : Z := positional_or a 1 1000000.
Definition arg_capacity (a : Args) : Z := positional_or a 2 8192.

(** [Config] and the closure [want]. *)
Record Config : Type := mkConfig {
  cf_count : Z;
  cf_capacity : Z;
  cf_producer_cpu : option Z
}.
Definition config_of (a : Args) : Config := mkConfig (arg_count a) (arg_capacity a) (fst <$> ar_pin a).
Definition want (a : Args) (w : string) : bool :=
  bool_decide (ar_workload a = "all") || bool_decide (ar_workload a = w).

(** [run_u64] and [run_order]: the two threads have come to the end of their
    loops; [ok] is the outcome of the checksum assertion. *)
Definition run_u64 (cfg : Config) (ok : bool) : Prop :=
  exists t, transferring (u64_items (cf_count cfg)) (cf_capacity cfg) t /\ test_over (u64_items (cf_count cfg)) t /\
    ok = bool_decide (checksum_of id (t_received t) = expected_checksum (cf_count cfg)).

Definition run_order (cfg : Config) (ok : bool) : Prop :=
  exists items t, order_items (cf_count cfg) = Some items /\
    transferring items (cf_capacity cfg) t /\ test_over items t /\
    ok = bool_decide (checksum_of o_id (t_received t) = expected_checksum (cf_count cfg)).

(** [collect]: the trials of a wanted workload; [trial i] is the [i]-th result. *)
Definition collect {F} (a : Args) (name : string) (trial : nat -> F) : option (list F) :=
  if want a name then Some (trial <$> seq 0 (Z.to_nat (arg_iters a))) else None.

(** The ordering the first line names. *)
Definition ordering_name (cfg : Cfg) : string :=
  if ring_seqcst cfg then "seq_cst"
  else if ring_relaxed_ordering cfg then "relaxed (UNSOUND)"
  else "acquire/release".

(** ** Statistics *)

(** The floating-point operations [stats] uses. *)
Class Float (F : Type) := {
  f_le : relation F;
  f_le_dec :: RelDecision f_le;
  f_add : F -> F -> F;
  f_div_len : F -> nat -> F;     (* [x / n as f64] *)
  f_half : F -> F;               (* [0.5 * x] *)
  f_zero : F
}.

Record Stats (F : Type) : Type := mkStats { st_min : F; st_median : F; st_mean : F }.
Arguments mkStats {F} _ _ _.
Arguments st_min {F} _.
Arguments st_median {F} _.
Arguments st_mean {F} _.

(** [stats]: the indexing panics on an empty vector. *)
Definition stats {F} `{Float F} (v : list F) : option (Stats F) :=
  let v := merge_sort f_le v in
  let mean := f_div_len (foldl f_add f_zero v) (length v) in
  let n := length v in
  median ← (if decide (n mod 2 = 1)%nat then v !! (n / 2)%nat
            else
              if decide (n = 0)%nat then None
              else
                a ← v !! (n / 2 - 1)%nat;
                b ← v !! (n / 2)%nat;
                Some (f_half (f_add a b)));
  m ← v !! 0%nat;
  Some (mkStats m median mean).

End Throughput.

Import Throughput.

(** ** Checksums *)

Lemma checksum_wrap {T} (key : T -> Z) vs s :
  foldl (fun sum v => wrapping_add sum (key v)) s vs =
  match vs with [] => s | _ => wrap 64 (s + foldr (fun v z => key v + z) 0 vs) end.
Proof.
  revert s. induction vs as [|v vs IH]; intros s; [done|]. cbn [foldl foldr]. rewrite IH.
  destruct vs as [|v' vs]; [unfold wrapping_add; f_equal; simpl; lia|].
  unfold wrapping_add. rewrite wrap_add_l. f_equal. lia.
Qed.

Lemma sum_seqZ_shift m n : 0 <= n -> foldr (fun v z => v + z) 0 (seqZ m n) = n * m + n * (n - 1) / 2.
Proof.
  intros Hn. revert m. pattern n. apply natlike_ind; [done| |done]. clear n Hn. intros n Hn IH m.
  rewrite seqZ_cons by lia. cbn [foldr]. rewrite Z.pred_succ, IH.
  replace (Z.succ n * (Z.succ n - 1)) with (n * (n - 1) + n * 2) by lia. rewrite Z.div_add by lia. lia.
Qed.

Lemma checksum_seq count :
  0 <= count -> checksum_of id (seqZ 0 count) = wrap 64 (count * (count - 1) / 2).
Proof.
  intros Hc. unfold checksum_of. rewrite checksum_wrap. unfold id.
  pose proof (sum_seqZ_shift 0 count Hc) as E. destruct (seqZ 0 count) as [|v vs] eqn:Es.
  - assert (count = 0) as ->; [|done]. pose proof (length_seqZ 0 count) as Hl. rewrite Es in Hl. simpl in Hl. lia.
  - rewrite E. f_equal. lia.
Qed.

(** The assertion's formula is exact as long as its product fits into a u64. *)
Lemma expected_checksum_exact count :
  0 <= count <= 2 ^ 32 -> expected_checksum count = wrap 64 (count * (count - 1) / 2).
Proof.
  intros Hc. unfold expected_checksum, u64_mul, u64_sub. destruct (decide (count = 0)) as [->|Hne]; [done|].
  assert (0 <= count * (count - 1) < 2 ^ 64) as Hr by nia.
  rewrite (wrap_small 64 (count - 1)) by lia. rewrite (wrap_small 64 (count * (count - 1))) by lia.
  symmetry. apply wrap_small. split; [apply Z.div_pos; lia|].
  eapply Z.le_lt_trans; [apply Z.div_le_upper_bound with (q := count * (count - 1)); lia|lia].
Qed.

Lemma make_order_some id : is_u64 id -> exists o, make_order id = Some o /\ o_id o = id /\ 0 < o_quantity o.
Proof.
  intros Hid. unfold make_order, Order_new. pose proof (Z.mod_pos_bound id 1000 ltac:(lia)).
  unfold u64_add. rewrite (wrap_small 64 (id mod 1000 + 1)) by lia.
  rewrite decide_False by lia. eexists. split; [done|]. simpl. split; [done|lia].
Qed.

Lemma order_items_ids count :
  0 <= count <= 2 ^ 64 -> exists os, order_items count = Some os /\ o_id <$> os = seqZ 0 count.
Proof.
  intros Hc. unfold order_items.
  assert (Forall is_u64 (seqZ 0 count)) as Hall.
  { apply Forall_forall. intros x Hx%elem_of_seqZ. unfold is_u64. lia. }
  induction Hall as [|x xs Hx _ IH]; [by exists []|].
  destruct (make_order_some x Hx) as (o & Ho & Hid & _). destruct IH as (os & Hos & Hids).
  exists (o :: os). cbn [mapM]. rewrite Ho. cbn [mbind option_bind]. unfold mapM in *. simpl in *. rewrite Hos. simpl.
  split; [done|]. by f_equal.
Qed.

Section latency.
Lemma latency_loop_spec n i r p c pushed popped sum :
  0 <= i -> reach 1024 (mkMachine r p c PIdle CIdle) pushed popped -> pushed = popped ->
  exists r' p' c', latency_loop n i r p c sum =
    Some (r', p', c', foldl (fun s v => wrapping_add s v) sum (seqZ i (Z.of_nat n))).
Proof.
  revert i r p c pushed popped sum. induction n as [|n IH]; intros i r p c pushed popped sum Hi Hr E; [by eexists _, _, _|].
  cbn [latency_loop].
  destruct (reach_inv 1024 _ _ _ ltac:(lia) Hr) as (H & L & I). subst popped.
  destruct (push_quiet _ _ _ _ _ i _ _ _ _ I eq_refl) as (r1 & p1 & Hp).
  rewrite Nat.sub_diag in Hp. rewrite decide_False in Hp by (simpl; lia). rewrite Hp. cbn [mbind option_bind].
  pose proof (push_runs _ _ _ _ _ _ _ _ _ _ _ _ Hr Hp) as Hr1. cbv beta iota in Hr1.
  destruct (reach_inv 1024 _ _ _ ltac:(lia) Hr1) as (H1 & L1 & I1).
  destruct (pop_quiet _ _ _ _ _ _ _ _ _ I1 eq_refl) as (r2 & c2 & Hq). rewrite drop_app_length in Hq.
  rewrite Hq. cbn [mbind option_bind].
  pose proof (pop_runs _ _ _ _ _ _ _ _ _ _ _ Hr1 Hq) as Hr2. cbv beta iota in Hr2.
  destruct (IH (i + 1) r2 p1 c2 _ _ (wrapping_add sum i) ltac:(lia) Hr2 eq_refl) as (r' & p' & c' & ->).
  exists r', p', c'. rewrite (seqZ_cons i (Z.of_nat (S n))) by lia. cbn [foldl].
  replace (Z.pred (Z.of_nat (S n))) with (Z.of_nat n) by lia. by replace (Z.succ i) with (i + 1) by lia.
Qed.
End latency.

Lemma checksum_ids (items : list Order) n : o_id <$> items = n -> checksum_of o_id items = checksum_of id n.
Proof.
  intros <-. unfold checksum_of, id. generalize 0. induction items as [|o os IH]; intros s; [done|]. simpl. apply IH.
Qed.

Lemma run_latency_true count : 0 <= count <= 2 ^ 32 -> run_latency count = Some true.
Proof.
  intros Hc. unfold run_latency, latency_bench. destruct (ring_buffer 1024) as [[[r p] c]|] eqn:E; [|vm_compute in E; done].
  cbn [mbind option_bind].
  destruct (latency_loop_spec (Z.to_nat count) 0 r p c [] [] 0 ltac:(lia) (reach_init _ _ _ _ E) eq_refl) as (? & ? & ? & ->).
  cbn [mbind option_bind]. rewrite Z2Nat.id by lia. f_equal. apply bool_decide_eq_true.
  change (foldl (fun s v : Z => wrapping_add s v) 0 (seqZ 0 count)) with (checksum_of id (seqZ 0 count)).
  rewrite checksum_seq, expected_checksum_exact by lia. done.
Qed.

(** The benchmark's checksums hold: for up to 2^32 items, whatever the
    interleaving of the two threads and the stale cursors they see, when both
    loops are through the sum is the one the program asserts, for the u64 and
    for the order workload (building the orders never panics), and the
    single-threaded latency loop neither panics nor fails. *)
Theorem throughput_checksums cfg :
  0 <= cf_count cfg <= 2 ^ 32 -> cf_capacity cfg < 2 ^ 64 ->
  (forall ok, run_u64 cfg ok -> ok = true) /\
  is_Some (order_items (cf_count cfg)) /\ (forall ok, run_order cfg ok -> ok = true) /\
  run_latency (cf_count cfg) = Some true.
Proof.
  intros Hc Hcap. destruct (order_items_ids (cf_count cfg)) as (items & Ei & Eid); [lia|]. split_and!.
  - intros ok (t & Ht & Ho & ->). rewrite (transfer_exact _ _ _ Hcap Ht Ho), expected_checksum_exact by done.
    apply bool_decide_eq_true_2, checksum_seq. lia.
  - by rewrite Ei.
  - intros ok (items' & t & Ei' & Ht & Ho & ->). rewrite Ei in Ei'. injection Ei' as <-.
    rewrite (transfer_exact _ _ _ Hcap Ht Ho), expected_checksum_exact by done.
    apply bool_decide_eq_true_2. rewrite (checksum_ids _ _ Eid). apply checksum_seq. lia.
  - by apply run_latency_true.
Qed.

Lemma throughput_checksums_witness : run_latency 5 = Some true.
Proof. exact (proj2 (proj2 (proj2 (throughput_checksums (mkConfig 5 8 None) ltac:(simpl; lia) ltac:(simpl; lia))))). Defined.

(** Beyond that the assertion's own product wraps: with 2^33 items the sum of the
    values differs from what the program compares it with. *)
Theorem throughput_assertion_wraps :
  expected_checksum (2 ^ 33) ≠ wrap 64 (2 ^ 33 * (2 ^ 33 - 1) / 2).
Proof. vm_compute. discriminate. Qed.

(** ** The mask, the arguments, the statistics *)

(** Exactly the bit of the CPU is set. *)
Lemma affinity_mask_bit cpu set :
  0 <= cpu -> affinity_mask cpu = Ok set ->
  length set = 16%nat /\
  forall b, 0 <= b < 1024 -> (exists w, set !! Z.to_nat (b / 64) = Some w /\ Z.testbit w (b mod 64) = true) <-> b = cpu.
Proof.
  intros Hcpu. unfold affinity_mask. cbv zeta. remember (replicate 16 0) as zs eqn:Ez.
  case_decide as Hlt; [done|]. intros [= <-].
  split; [by rewrite length_alter, Ez|]. intros b Hb. subst zs.
  pose proof (Z.div_mod b 64 ltac:(lia)) as Eb. pose proof (Z.div_mod cpu 64 ltac:(lia)) as Ec.
  pose proof (Z.mod_pos_bound b 64 ltac:(lia)). pose proof (Z.mod_pos_bound cpu 64 ltac:(lia)).
  pose proof (Z.div_pos b 64). pose proof (Z.div_pos cpu 64).
  assert (b / 64 < 16) by (apply Z.div_lt_upper_bound; lia).
  destruct (decide (b / 64 = cpu / 64)) as [E|Hne].
  - rewrite E, list_lookup_alter_eq, lookup_replicate_2 by lia. simpl. split.
    + intros (w & [= <-] & Ht). rewrite Z.lor_0_l, Z.shiftl_spec in Ht by lia.
      destruct (Z.lt_trichotomy (b mod 64 - cpu mod 64) 0) as [Hn|[Hz|Hp]]; [|lia|].
      * by rewrite Z.testbit_neg_r in Ht.
      * by rewrite Z.bits_above_log2 in Ht.
    + intros ->. eexists. split; [done|]. rewrite Z.lor_0_l, Z.shiftl_spec, Z.sub_diag by lia. done.
  - rewrite list_lookup_alter_ne by lia. rewrite lookup_replicate_2 by lia. split.
    + intros (w & [= <-] & Ht). by rewrite Z.bits_0 in Ht.
    + intros ->. done.
Qed.

(** Statistics exist exactly for a non-empty vector, so zero iterations of a
    workload make the program panic. *)
Lemma stats_some {F} `{Float F} (v : list F) : is_Some (stats v) <-> v ≠ [].
Proof.
  unfold stats. pose proof (Permutation_length (merge_sort_Permutation f_le v)) as Hl.
  set (s := merge_sort f_le v) in *. clearbody s. split.
  - intros [x Hx] ->. simpl in Hl. apply nil_length_inv in Hl. rewrite Hl in Hx. done.
  - intros Hv. assert (0 < length s)%nat as Hpos by (destruct v; [done|simpl in Hl; lia]).
    destruct (lookup_lt_is_Some_2 s 0 Hpos) as [m Hm]. rewrite Hm.
    pose proof (Nat.div_lt (length s) 2 Hpos ltac:(lia)) as Hlt.
    destruct (lookup_lt_is_Some_2 s (length s / 2) Hlt) as [b Hb]. rewrite Hb.
    destruct (lookup_lt_is_Some_2 s (length s / 2 - 1) ltac:(lia)) as [a Ha].
    case_decide; cbn [mbind option_bind]; [by eexists|]. rewrite decide_False by lia. rewrite Ha.
    cbn [mbind option_bind]. by eexists.
Qed.

(** The parser on the documented command lines. *)
Example parse_args_flags :
  parse_args ["5"; "--pin"; "2,3"; "1000"; "--raw"; "--workload"; "u64"] args_default =
    Some (mkArgs ["5"; "1000"] (Some (2, 3)) true "u64").
Proof. vm_compute. reflexivity. Qed.
Example parse_args_missing_value : parse_args ["--pin"] args_default = None.
Proof. vm_compute. reflexivity. Qed.
Example positional_defaults :
  option_map (fun a => (arg_iters a, arg_count a, arg_capacity a)) (parse_args ["7"; "x"] args_default) =
    Some (7, 1000000, 8192).
Proof. vm_compute. reflexivity. Qed.
