(* ===== verification/Mains.v ===== *)
(** * Mains.v: the programs ([src/main.rs], [run] of [src/gateway.rs], the set-up of
    [examples/subscriber.rs] and [examples/relay.rs])

    [run] as a step relation: its own control flow with the system calls that can
    fail, next to the two threads of [Server] (the reader is [run] itself); and
    what the programs read from their environment.  Which call fails is an
    argument; what the client sends and how the connection ends as in
    [Gateway]. *)

From Stdlib Require Import Ascii.
From stdpp Require Import strings pretty.
From S2P Require Import Prelude.
From S2P Require Import Order.
From S2P Require Import Arena.
From S2P Require Import ArenaInv.
From S2P Require Import Book.
From S2P Require Import BookSpec.
From S2P Require Import BookInv.
From S2P Require Import Matching.
From S2P Require Import MatchingSpec.
From S2P Require Import MatchingInv.
From S2P Require Import Protocol.
From S2P Require Import ProtocolInv.
From S2P Require Import Engine.
From S2P Require Import Wal.
From S2P Require Import Snapshot.
From S2P Require Import SnapshotInv.
From S2P Require Import Recovery.
From S2P Require Import RecoveryInv.
From S2P Require Import RecoveryThm.
From S2P Require Import Ring.
From S2P Require Import RingInv.
From S2P Require Import Gateway.
From S2P Require Import GatewayInv.
From S2P Require Import Server.
From S2P Require Import ServerInv.
From S2P Require Import ServerThm.
From S2P Require Import AllocTrack.
From S2P Require Import Display.
From S2P Require Import Throughput.

(** ** [run] *)

(** The calls of [run] that return early with [?]. *)
Inductive RunCall : Type :=
| CallUdpBind
| CallSetTtl
| CallTcpBind
| CallAccept.

#[global] Instance RunCall_eq_dec : EqDecision RunCall.
Proof. solve_decision. Defined.

(** The calls before and after the matching thread is spawned. *)
Definition udp_calls : list RunCall := [CallUdpBind; CallSetTtl].
Definition tcp_calls : list RunCall := [CallTcpBind; CallAccept].

(** One of [calls] is the call that fails. *)
Definition fails (fault : option RunCall) (calls : list RunCall) : bool :=
  existsb (fun c => bool_decide (fault = Some c)) calls.

(** Where [run] is: before the spawn, before the client is connected, in
    [handle_client], in the join, or returned. *)
Inductive RunPc : Type :=
| RunSetup
| RunListen
| RunClient
| RunJoin
| RunReturned (r : result unit GatewayError).

(** The matching thread, as [run] sees it; once joined, what its loop has left. *)
Inductive Thread : Type :=
| Unspawned
| Spawned
| Joined (st : GwState).

(** The ring, the flag and the states of the two threads are those of [Server];
    before the spawn there is only the ring. *)
Record RunState : Type := mkRunState {
  rn_pc : RunPc;
  rn_server : Server;
  rn_thread : Thread
}.

Section run.
Context {C : Codec}.

(** The steps of [run] next to those of the thread it spawns.  [st] is what the
    matching loop starts from ([run_setup]); [sh] and [r] say whether
    [handle_client] sets the flag itself and what it returns. *)
Inductive run_step (config : GatewayConfig) (fault : option RunCall) (st : GwState) (sh : bool)
  (r : result unit GatewayError) : RunState -> RunState -> Prop :=
(* [UdpSocket::bind] or [set_multicast_ttl_v4] fails *)
| run_udp_fails s :
    fails fault udp_calls = true ->
    run_step config fault st sh r (mkRunState RunSetup s Unspawned)
      (mkRunState (RunReturned (Err GatewayError_from_io)) s Unspawned)
| run_spawn s :
    fails fault udp_calls = false ->
    run_step config fault st sh r (mkRunState RunSetup s Unspawned) (mkRunState RunListen s Spawned)
(* [TcpListener::bind] or [accept] fails *)
| run_tcp_fails s t :
    fails fault tcp_calls = true ->
    run_step config fault st sh r (mkRunState RunListen s t)
      (mkRunState (RunReturned (Err GatewayError_from_io)) s t)
| run_accept s t :
    fails fault tcp_calls = false ->
    run_step config fault st sh r (mkRunState RunListen s t) (mkRunState RunClient s t)
(* inside [handle_client]; it stores the flag only when the connection was closed *)
| run_client s s' t :
    reader_step s s' -> s_shutdown s' = None \/ sh = true ->
    run_step config fault st sh r (mkRunState RunClient s t) (mkRunState RunClient s' t)
(* [handle_client] has returned: [shutdown.store(true, Release)] *)
| run_store s s' t :
    s_todo s = [] -> m_ppc (s_machine s) = PIdle -> (sh = true -> s_shutdown s ≠ None) -> reader_step s s' ->
    run_step config fault st sh r (mkRunState RunClient s t) (mkRunState RunJoin s' t)
(* a step of the matching thread, wherever [run] is *)
| run_thread pc s s' :
    loop_step s s' ->
    run_step config fault st sh r (mkRunState pc s Spawned) (mkRunState pc s' Spawned)
(* [join] waits for the end of the loop; a panic of the loop would be a panic here *)
| run_join s st' :
    s_phase s = Finished ->
    matching_loop (gc_snapshot_interval config) (s_trace s) false st = Some (st', true) ->
    run_step config fault st sh r (mkRunState RunJoin s Spawned) (mkRunState (RunReturned r) s (Joined st')).

(** The states of [run]; the capacity of the ring is asserted before all else. *)
Inductive run_reach (config : GatewayConfig) (fault : option RunCall) (st : GwState) (cmds : list EngineCommand)
  (sh : bool) (r : result unit GatewayError) : RunState -> Prop :=
| run_start s :
    server_start (gc_ring_capacity config) cmds s ->
    run_reach config fault st cmds sh r (mkRunState RunSetup s Unspawned)
| run_reach_step x x' :
    run_reach config fault st cmds sh r x -> run_step config fault st sh r x x' ->
    run_reach config fault st cmds sh r x'.

End run.

(** ** [main] *)

Record SocketAddr : Type := mkAddr { sa_octets : list Z; sa_port : Z }.

Fixpoint dotted (octets : list Z) : string :=
  match octets with
  | [] => ""
  | [o] => pretty o
  | o :: octets => pretty o ^^ "." ^^ dotted octets
  end.

Definition SocketAddr_fmt (a : SocketAddr) : string := dotted (sa_octets a) ^^ ":" ^^ pretty (sa_port a).

Definition default_listen_addr : SocketAddr := mkAddr [0; 0; 0; 0] 9000.
Definition default_multicast_addr : SocketAddr := mkAddr [239; 1; 1; 1] 9001.

(** The lines of [main]; [data_dir] is the path, if one is configured. *)
Definition main_lines (version : string) (listen multicast : SocketAddr) (config : GatewayConfig) (data_dir : option string)
  : list string :=
  ["Ferrox - Order Matching Engine";
   "ferrox v" ^^ version;
   "  tcp listen:  " ^^ SocketAddr_fmt listen;
   "  udp multicast: " ^^ SocketAddr_fmt multicast;
   "  ring capacity: " ^^ pretty (gc_ring_capacity config);
   "  arena capacity: " ^^ pretty (gc_arena_capacity config);
   match data_dir with
   | Some dir => "  data dir:    " ^^ dir
   | None => "  persistence: disabled"
   end;
   ""].

(** ** The environment of the subscriber and the relay *)

(** [Ipv4Addr::from_str]: four decimal octets without leading zeroes. *)
Fixpoint split_dots (s : string) (acc : string) : list string :=
  match s with
  | EmptyString => [acc]
  | String a s =>
      if decide (a = "."%char) then acc :: split_dots s ""
      else split_dots s (acc ^^ String a "")
  end.
Definition parse_octet (s : string) : option Z :=
  match s with
  | EmptyString => None
  | String a rest =>
      if decide (a = "0"%char /\ rest ≠ EmptyString) then None
      else if decide (String.length s <= 3)%nat then Throughput.parse_digits 255 0 s else None
  end.
Definition parse_ipv4 (s : string) : option (list Z) :=
  octets ← mapM parse_octet (split_dots s "");
  if decide (length octets = 4%nat) then Some octets else None.

(** How the subscriber listens. *)
Inductive FeedMode : Type :=
| MulticastFeed (group : list Z)
| UnicastFeed.

(** [MULTICAST_GROUP] of the subscriber: set and not empty it must be an address
    (anything else panics); otherwise plain unicast. *)
Definition subscriber_mode (group : option string) : option FeedMode :=
  match group with
  | Some g => if decide (g = "") then Some UnicastFeed
              else octets ← parse_ipv4 g; Some (MulticastFeed octets)
  | None => Some UnicastFeed
  end.
Definition subscriber_bind (env : option string) : string := default "0.0.0.0:9001" env.
(** [HEALTH_PORT]: the health check listener, if set; a bad port panics. *)
Definition health_port (env : option string) : option (option Z) :=
  match env with
  | Some p => port ← Throughput.parse_uint 65535 p; Some (Some port)
  | None => Some None
  end.

Record RelayConfig : Type := mkRelayConfig { rc_group : list Z; rc_port : Z; rc_to : string }.

(** The three variables of the relay; [None] is a failed [expect]. *)
Definition relay_config (group port relay_to : option string) : option RelayConfig :=
  g ← parse_ipv4 (default "239.1.1.1" group);
  p ← Throughput.parse_uint 65535 (default "9001" port);
  to ← relay_to;
  Some (mkRelayConfig g p to).

(** ** Properties *)

Section run_inv.
Context {C : Codec}.
Variables (config : GatewayConfig) (fault : option RunCall) (st : GwState) (cmds : list EngineCommand) (sh : bool).
Variable (r : result unit GatewayError).
Hypothesis Hcap : gc_ring_capacity config < 2 ^ 64.
Local Abbreviation step := (run_step config fault st sh r).
Local Abbreviation reach := (run_reach config fault st cmds sh r).

(** What holds at each point of [run]. *)
Definition run_inv (x : RunState) : Prop :=
  let s := rn_server x in
  server_reach (gc_ring_capacity config) cmds s /\
  match rn_pc x with
  | RunSetup => rn_thread x = Unspawned /\ s_shutdown s = None
  | RunListen => rn_thread x = Spawned /\ s_shutdown s = None /\ fails fault udp_calls = false
  | RunClient => rn_thread x = Spawned /\ fails fault udp_calls = false /\ fails fault tcp_calls = false
  | RunJoin => rn_thread x = Spawned /\ s_shutdown s ≠ None /\ fails fault udp_calls = false /\ fails fault tcp_calls = false
  | RunReturned res =>
      match rn_thread x with
      | Unspawned => res = Err GwIo /\ fails fault udp_calls = true
      | Spawned => res = Err GwIo /\ fails fault udp_calls = false /\ fails fault tcp_calls = true /\ s_shutdown s = None
      | Joined st' => res = r /\ fails fault udp_calls = false /\ fails fault tcp_calls = false /\ s_phase s = Finished /\
          matching_loop (gc_snapshot_interval config) (s_trace s) false st = Some (st', true)
      end
  end.

Lemma loop_keeps_flag s s' : loop_step s s' -> s_shutdown s' = s_shutdown s.
Proof. by destruct 1. Qed.

(** With nothing left to push the only step of the reader is the store. *)
Lemma store_sets_flag s s' :
  reader_step s s' -> s_todo s = [] -> m_ppc (s_machine s) = PIdle -> s_shutdown s' ≠ None.
Proof. destruct 1; simpl; intros ??; by simplify_eq. Qed.

Lemma run_reach_inv x : reach x -> run_inv x.
Proof.
  induction 1 as [s Hs|x x' _ [Hr I] Hst]; [split; [by constructor|by destruct Hs]|].
  destruct Hst as [s Hf|s Hf|s t Hf|s t Hf|s s' t Hs Hsd|s s' t Htd Hpc _ Hs|pc s s' Hs|s st' Hph Hl];
    unfold run_inv in *; simpl in *; (split; [first [done|by eapply server_reach_step; eauto using server_step]|]).
  all: try (by intuition congruence).
  - destruct I as (-> & ? & ?). by split_and!.
  - split; [naive_solver|]. split; [by eapply store_sets_flag|naive_solver].
  - rewrite (loop_keeps_flag _ _ Hs). destruct pc; naive_solver.
Qed.

(** The matching thread never stops while the flag is down. *)
Lemma unstopped_runs s :
  server_reach (gc_ring_capacity config) cmds s -> s_shutdown s = None ->
  s_phase s ≠ Finished /\ exists s', loop_step s s'.
Proof.
  intros Hr Hsd. destruct (server_reach_inv _ _ _ Hcap Hr) as (pushed & popped & H & L & I).
  assert (s_phase s ≠ Finished) as Hph by (intros Hf; by apply (si_ended _ _ _ _ _ _ _ I Hf)).
  split; [done|]. destruct (loop_progress _ _ _ _ _ _ _ I Hph) as (s' & ? & _). by exists s'.
Qed.

Lemma ring_buffer_total {T : Type} cap :
  is_power_of_two cap = true -> exists rb p c, ring_buffer (T := T) cap = Some (rb, p, c).
Proof.
  intros Hpow. unfold ring_buffer. rewrite Hpow. unfold is_power_of_two in Hpow.
  apply andb_prop in Hpow as [Hp%bool_decide_eq_true _]. rewrite decide_True by lia. by eexists _, _, _.
Qed.

(** ** [run] comes to its end *)

Definition pc_weight (pc : RunPc) : nat :=
  match pc with RunSetup => 4 | RunListen => 3 | RunClient => 2 | RunJoin => 1 | RunReturned _ => 0 end.
Definition run_distance (x : RunState) : nat := distance (length cmds) (rn_server x) + pc_weight (rn_pc x).
Definition returned (x : RunState) : Prop := exists res, rn_pc x = RunReturned res.

Lemma store_step (s : Server) :
  s_todo s = [] -> m_ppc (s_machine s) = PIdle ->
  exists s', reader_step s s' /\ (distance (length cmds) s' <= distance (length cmds) s)%nat /\
    (s_shutdown s = None -> (distance (length cmds) s' < distance (length cmds) s)%nat).
Proof.
  destruct s as [[rb p c ppc cpc] todo sd fl ph tr]. simpl. intros -> ->. eexists. split; [constructor|].
  unfold distance. simpl. split; [destruct sd, ph; simpl; lia|]. intros ->. destruct ph; simpl; lia.
Qed.

Hypothesis Hjoin : forall s, server_reach (gc_ring_capacity config) cmds s -> s_phase s = Finished ->
  exists st', matching_loop (gc_snapshot_interval config) (s_trace s) false st = Some (st', true).

Lemma client_progress s :
  server_reach (gc_ring_capacity config) cmds s ->
  exists x', step (mkRunState RunClient s Spawned) x' /\ (run_distance x' < run_distance (mkRunState RunClient s Spawned))%nat.
Proof.
  intros Hr. destruct (server_reach_inv _ _ _ Hcap Hr) as (pushed & popped & H & L & I).
  unfold run_distance. simpl.
  assert ((s_todo s = [] /\ m_ppc (s_machine s) = PIdle) \/ ~ (s_todo s = [] /\ m_ppc (s_machine s) = PIdle))
    as [[Htd Hpc]|Hwork] by (destruct (s_todo s), (m_ppc (s_machine s)); naive_solver).
  { destruct (store_step s Htd Hpc) as (s' & Hs & Hle & Hlt).
    destruct (decide (sh = true /\ s_shutdown s = None)) as [[Hsh Hsd]|Hsd].
    - exists (mkRunState RunClient s' Spawned). split; [apply run_client; auto|]. specialize (Hlt Hsd). simpl. lia.
    - exists (mkRunState RunJoin s' Spawned). split; [apply run_store; naive_solver|]. simpl. lia. }
  assert (s_shutdown s = None) as Hsd.
  { destruct (s_shutdown s) as [f|] eqn:E; [|done]. destruct (si_shutdown _ _ _ _ _ _ _ I f E) as (? & ? & _). by destruct Hwork. }
  destruct (decide (L < H)%nat) as [Hlt|Hge].
  - destruct (loop_progress _ _ _ _ _ _ _ I (proj1 (unstopped_runs s Hr Hsd))) as (s' & Hs & Hd).
    exists (mkRunState RunClient s' Spawned). split; [by apply run_thread|]. simpl. specialize (Hd (or_introl Hlt)). lia.
  - pose proof (ri_order _ _ _ _ _ _ (si_ring _ _ _ _ _ _ _ I)). assert (L = H) as -> by lia.
    destruct (reader_progress _ _ _ _ _ _ I Hsd) as (s' & Hs & Hd & [Hn|?]); [|done].
    exists (mkRunState RunClient s' Spawned). split; [apply run_client; auto|]. simpl. lia.
Qed.

Lemma run_progress x :
  run_inv x -> ~ returned x -> exists x', step x x' /\ (run_distance x' < run_distance x)%nat.
Proof.
  destruct x as [pc s t]. intros [Hr I] Hret. unfold run_distance. simpl in *. destruct pc as [| | | |res].
  - destruct I as [-> _]. destruct (fails fault udp_calls) eqn:Hf; eexists;
      (split; [first [by eapply run_udp_fails|by eapply run_spawn]|simpl; lia]).
  - destruct I as [-> _]. destruct (fails fault tcp_calls) eqn:Hf; eexists;
      (split; [first [by eapply run_tcp_fails|by eapply run_accept]|simpl; lia]).
  - destruct I as [-> _]. by apply client_progress.
  - destruct I as (-> & Hsd & _). destruct (decide (s_phase s = Finished)) as [Hf|Hf].
    + destruct (Hjoin s Hr Hf) as [st' Hl]. eexists. split; [by eapply run_join|]. simpl. lia.
    + destruct (server_reach_inv _ _ _ Hcap Hr) as (pushed & popped & H & L & J).
      destruct (loop_progress _ _ _ _ _ _ _ J Hf) as (s' & Hs & Hd).
      exists (mkRunState RunJoin s' Spawned). split; [by apply run_thread|]. specialize (Hd (or_intror Hsd)). simpl. lia.
  - destruct Hret. by exists res.
Qed.

Lemma run_reach_rtc x x' : rtc step x x' -> reach x -> reach x'.
Proof. induction 1; eauto using run_reach_step. Qed.

Lemma run_returns x : reach x -> exists x', rtc step x x' /\ returned x'.
Proof.
  remember (run_distance x) as n eqn:En. revert x En. induction (lt_wf n) as [n _ IH]. intros x -> Hx.
  assert (returned x \/ ~ returned x) as [?|Hn]; [|by exists x|].
  { unfold returned. destruct (rn_pc x); naive_solver. }
  destruct (run_progress _ (run_reach_inv _ Hx) Hn) as (x' & Hst & Hlt).
  destruct (IH _ Hlt x' eq_refl) as (x2 & ? & ?); [by eapply run_reach_step|].
  exists x2. split; [|done]. by eapply rtc_l.
Qed.

End run_inv.

(** ** Properties *)

(** C37. [run] without persistence, with a ring whose capacity is a power of two
    (below 2^64) and an arena below 2^32: in every interleaving with the thread
    it spawns, and whatever bytes the client sends, [run] can always come to its
    return.  With working calls it returns what reading the client returned, and
    by then the flag is up and the matching thread has been joined, having
    executed exactly the commands of the client.  An error of the UDP calls is
    returned without a thread; an error of the TCP calls is returned with the
    thread running, the flag down, and a further step of the thread always
    possible: it is never told to stop. *)
Theorem run_outcomes (C : Codec) config dir file dir_io snap_io wal_io fault stream ending clock :
  CodecLaws C -> is_power_of_two (gc_ring_capacity config) = true -> gc_ring_capacity config < 2 ^ 64 ->
  0 <= gc_arena_capacity config < 2 ^ 32 -> gc_data_dir config = false -> bytes_ok stream ->
  exists st cmds sh r, run_setup config dir file dir_io snap_io wal_io = Some st /\
    handle_client (S (length stream)) stream ending clock 0 = Some (cmds, sh, r) /\ Forall command_typed cmds /\
    (exists x, run_reach config fault st cmds sh r x) /\
    forall x, run_reach config fault st cmds sh r x ->
      (exists x', rtc (run_step config fault st sh r) x x' /\ returned x') /\
      forall res, rn_pc x = RunReturned res ->
        let s := rn_server x in
        match fault with
        | None => res = r /\ s_shutdown s ≠ None /\ s_phase s = Finished /\ commands (s_trace s) = cmds /\
            exists st', rn_thread x = Joined st' /\
              represents (e_book (g_engine st')) (fst (spec_run (gc_arena_capacity config) sp_empty cmds))
        | Some CallUdpBind | Some CallSetTtl => res = Err GwIo /\ rn_thread x = Unspawned
        | Some CallTcpBind | Some CallAccept => res = Err GwIo /\ rn_thread x = Spawned /\
            s_shutdown s = None /\ s_phase s ≠ Finished /\
            exists s', run_step config fault st sh r x (mkRunState (RunReturned res) s' Spawned)
        end.
Proof.
  intros Laws Hpow Hcap Harena Hdd Hb.
  destruct (handle_client_total (S (length stream)) stream ending clock 0 Hb ltac:(lia)) as (cmds & sh & r & Hh & Ht).
  unfold run_setup. rewrite Hdd. cbn [mbind option_bind]. eexists _, cmds, sh, r. split; [done|]. split; [done|].
  split; [done|]. set (st := mkGw _ _ _ _ _ _ _). split.
  { destruct (ring_buffer_total (T := EngineCommand) _ Hpow) as (rb & p & c & Hrb). eexists. by apply run_start, server_started. }
  pose proof (fun s => server_executed (gc_ring_capacity config) (gc_arena_capacity config) (gc_snapshot_interval config)
    cmds s Hcap Harena (typed_in_range _ Ht)) as Hexec.
  assert (forall s, server_reach (gc_ring_capacity config) cmds s -> s_phase s = Finished ->
    exists st', matching_loop (gc_snapshot_interval config) (s_trace s) false st = Some (st', true)) as Hjoin.
  { intros s Hs Hf. destruct (Hexec s Hs Hf) as (_ & st' & ? & _). by exists st'. }
  intros x Hx. split; [by eapply run_returns|]. intros res Hpc.
  destruct (run_reach_inv config fault st cmds sh r x Hx) as [Hr I]. rewrite Hpc in I. destruct x as [pc s t]. simpl in *. subst pc.
  destruct t as [| |st'].
  - destruct I as [-> Hf]. by destruct fault as [[]|].
  - destruct I as (-> & Hf1 & Hf2 & Hsd). destruct (unstopped_runs config cmds Hcap s Hr Hsd) as [Hph [s' Hs]].
    destruct fault as [[]|]; try done; split_and!; try done; exists s'; by apply run_thread.
  - destruct I as (-> & Hf1 & Hf2 & Hph & Hl). destruct fault as [[]|]; try done.
    destruct (Hexec s Hr Hph) as (Hc & st2 & Hl2 & Hrep & _). pose proof (eq_trans (eq_sym Hl) Hl2) as E.
    injection E as <-.
    destruct (server_reach_inv _ _ _ Hcap Hr) as (pushed & popped & H & L & J).
    split_and!; [done|by apply (si_ended _ _ _ _ _ _ _ J)|done|done|]. by exists st'.
Qed.

(** A cancel is read and the connection fails: [run] can return that error, and
    then the thread has been joined; with a failing [accept] it still runs. *)
Definition run_demo : GatewayConfig := mkConfig 64 4 false 10.

Lemma run_outcomes_witness :
  (exists st cmds sh r x st', run_reach (C := demo_codec) run_demo None st cmds sh r x /\
    rn_pc x = RunReturned r /\ rn_thread x = Joined st' /\ commands (s_trace (rn_server x)) = cmds /\ length cmds = 1%nat) /\
  (exists st cmds sh r x, run_reach (C := demo_codec) run_demo (Some CallAccept) st cmds sh r x /\
    rn_pc x = RunReturned (Err GwIo) /\ rn_thread x = Spawned /\ s_shutdown (rn_server x) = None).
Proof.
  set (stream := command_layout (replicate 7 0) (CancelOrder 1)).
  pose proof (fun fault => run_outcomes demo_codec run_demo None [] true true true fault stream OtherIo (fun _ => None)
    demo_laws eq_refl ltac:(vm_compute; done) ltac:(vm_compute; done) eq_refl ltac:(vm_compute; repeat constructor; discriminate)) as T.
  split.
  - destruct (T None) as (st & cmds & sh & r & _ & Hh & _ & [x Hx] & Hall).
    destruct (proj1 (Hall x Hx)) as (x' & Hxx & res & Hret). pose proof (run_reach_rtc _ _ _ _ _ _ _ _ Hxx Hx) as Hx'.
    destruct (proj2 (Hall x' Hx') res Hret) as (-> & _ & _ & Hc & st' & Hj & _).
    exists st, cmds, sh, r, x', st'. split_and!; try done. vm_compute in Hh. by injection Hh as <- _ _.
  - destruct (T (Some CallAccept)) as (st & cmds & sh & r & _ & _ & _ & [x Hx] & Hall).
    destruct (proj1 (Hall x Hx)) as (x' & Hxx & res & Hret). pose proof (run_reach_rtc _ _ _ _ _ _ _ _ Hxx Hx) as Hx'.
    destruct (proj2 (Hall x' Hx') res Hret) as (-> & Hs & Hsd & _). exists st, cmds, sh, r, x'. by split_and!.
Defined.

(** The matching thread that is not told to stop polls the ring for ever: no run
    of empty polls ends it. *)
Lemma unstopped_thread_runs (n : nat) : ends (replicate n (NoCommand false)) false = false.
Proof. induction n as [|n IH]; [done|]. exact IH. Qed.

Example main_default :
  main_lines "0.1.0" default_listen_addr default_multicast_addr GatewayConfig_default None =
  ["Ferrox - Order Matching Engine"; "ferrox v0.1.0"; "  tcp listen:  0.0.0.0:9000";
   "  udp multicast: 239.1.1.1:9001"; "  ring capacity: 65536"; "  arena capacity: 1048576";
   "  persistence: disabled"; ""].
Proof. vm_compute. reflexivity. Qed.

Example relay_defaults :
  relay_config None None (Some "10.0.0.1:9001") = Some (mkRelayConfig [239; 1; 1; 1] 9001 "10.0.0.1:9001") /\
  relay_config None None None = None /\ relay_config (Some "239.01.1.1") None (Some "x") = None /\
  relay_config None (Some "65536") (Some "x") = None.
Proof. vm_compute. done. Qed.

Example subscriber_modes :
  subscriber_mode None = Some UnicastFeed /\ subscriber_mode (Some "") = Some UnicastFeed /\
  subscriber_mode (Some "239.1.1.1") = Some (MulticastFeed [239; 1; 1; 1]) /\ subscriber_mode (Some "host") = None.
Proof. vm_compute. done. Qed.
