(* ===== verification/Report.v ===== *)
(** * Report.v: what the examples print

    The lines of [examples/loadgen.rs] and [examples/ring_throughput.rs], with
    the clock of the load generator.  The text of a float, [{:.n}], is an
    argument, as is the machine's clock. *)

From stdpp Require Import strings pretty.
From S2P Require Import Prelude.
From S2P Require Import AllocTrack.
From S2P Require Import Metrics.
From S2P Require Import Display.
From S2P Require Import RingMem.
From S2P Require Import Gateway.
From S2P Require Import Loadgen.
From S2P Require Import Throughput.
From S2P Require Import Mains.

Import Throughput.

#[local] Open Scope string_scope.

(** [{:<n}]: left-aligned. *)
Definition left_aligned (w : nat) (s : string) : string := s ^^ spaces (w - String.length s).

(** ** The clock of the load generator *)

Section clock.
Context {F : Type} `{!Float F}.
Context (of_u64 : Z -> F) (f_div : F -> F -> F).    (* [x as f64], [x / y] *)
Context (text : nat -> F -> string).                (* [{:.n}] *)

Inductive Clock : Type :=
| ClockInstant (epoch : Z)
| ClockTsc (ticks_per_ns : F).

(** [Clock::tsc] from the counter and the time at both ends of the calibration. *)
Definition clock_tsc (c0 c1 elapsed_ns : Z) : Clock := ClockTsc (f_div (of_u64 (u64_sub c1 c0)) (of_u64 elapsed_ns)).

(** [Clock::now]: the nanoseconds of the monotonic clock or the counter. *)
Definition clock_now (c : Clock) (monotonic_ns tsc : Z) : Z :=
  match c with
  | ClockInstant epoch => wrap 64 (monotonic_ns - epoch)
  | ClockTsc _ => tsc
  end.

Definition ticks_to_ns (c : Clock) (ticks : F) : F :=
  match c with
  | ClockInstant _ => ticks
  | ClockTsc ticks_per_ns => f_div ticks ticks_per_ns
  end.

Definition describe (c : Clock) : string :=
  match c with
  | ClockInstant _ => "std::time::Instant"
  | ClockTsc ticks_per_ns => "x86-64 TSC, calibrated " ^^ text 4 ticks_per_ns ^^ " GHz"
  end.

Definition observed_resolution_ns (c : Clock) (first : Z) (reads : list Z) : F :=
  ticks_to_ns c (of_u64 (observed_step first reads)).

Context {Hi : Type} `{!Histogram Hi}.

(** [print_latency]; [mean] is the mean of the histogram. *)
Definition print_latency (r : LatencyRecorder (H := Hi)) (c : Clock) (first : Z) (reads : list Z) (mean : F) : list string :=
  let ns ticks := right_aligned 10 (text 0 (ticks_to_ns c ticks)) in
  ["Latency (" ^^ describe c ^^ "):";
   "  clock step : " ^^ right_aligned 10 (text 1 (observed_resolution_ns c first reads)) ^^
     " ns (smallest observed delta between consecutive reads)"] ++
  ((fun '(name, ticks) => "  " ^^ left_aligned 6 name ^^ "     : " ^^ ns (of_u64 ticks) ^^ " ns") <$>
     [("P50", p50 r); ("P90", p90 r); ("P99", p99 r); ("P99.9", p999 r); ("Max", recorder_max r)]) ++
  ["  Mean       : " ^^ ns mean ^^ " ns";
   "  Count      : " ^^ right_aligned 10 (pretty (recorder_count r))].

(** ** The results of the load generator *)

(** The banner of [run_direct]. *)
Definition direct_banner : list string :=
  ["Ferrox Load Generator — Direct Mode"; "  Orders:  " ^^ pretty ORDER_COUNT; "  Warmup:  " ^^ pretty WARMUP_COUNT;
   "  Levels:  " ^^ pretty PRICE_LEVELS; ""].

(** The results of [run_direct]; [elapsed_ms] and [throughput] are the computed
    floats, [elapsed_ns] decides whether a throughput is printed. *)
Definition direct_results (d : DirectResult) (elapsed_ns : Z) (elapsed_ms throughput : F) : list string :=
  [""; "=== Results ===";
   "  Measured orders : " ^^ pretty (dr_measured d);
   "  Fills produced  : " ^^ pretty (dr_fills d);
   "  Orders resting  : " ^^ pretty (dr_resting d);
   "  Elapsed         : " ^^ text 3 elapsed_ms ^^ " ms"] ++
  (if decide (elapsed_ns > 0) then ["  Throughput      : " ^^ text 0 throughput ^^ " orders/sec"] else []).

(** The allocation report ([alloc-track]). *)
Definition alloc_report (s : AllocStats) : list string :=
  [""; "Allocation tracking (measured phase):";
   "  allocs: " ^^ pretty (as_alloc_count s) ^^ ", deallocs: " ^^ pretty (as_dealloc_count s) ^^
     ", bytes: " ^^ pretty (as_alloc_bytes s);
   "  (expected source: BTreeMap price-level node alloc/dealloc; the arena and fills buffer never allocate)"].

(** The results of [run_tcp] for [n] pairs. *)
Definition tcp_results (n received send_ns : Z) (send_ms throughput recv_ms avg_ns : F) : list string :=
  ["=== Results ===";
   "  Orders sent     : " ^^ pretty (n * 2);
   "  Reports received: " ^^ pretty received;
   "  Send elapsed    : " ^^ text 3 send_ms ^^ " ms"] ++
  (if decide (send_ns > 0) then ["  Send throughput : " ^^ text 0 throughput ^^ " orders/sec"] else []) ++
  (if decide (received > 0)
   then ["  Recv elapsed    : " ^^ text 3 recv_ms ^^ " ms"; "  Avg per report  : " ^^ text 0 avg_ns ^^ " ns"]
   else []).

(** ** The output of the ring benchmark *)

Definition bit (b : bool) : string := if b then "1" else "0".

(** The first line. *)
Definition header_line (knobs : Cfg) (ring_no_padding ring_unchecked_index : bool) (a : Args) : string :=
  "rust spsc ring | ordering=" ^^ ordering_name knobs ^^ " padded=" ^^ bit (negb ring_no_padding) ^^
  " cursor_cache=" ^^ bit (negb (ring_no_cursor_cache knobs)) ^^
  " unchecked_index=" ^^ bit ring_unchecked_index ^^
  " | iters=" ^^ pretty (arg_iters a) ^^ " count=" ^^ pretty (arg_count a) ^^ " capacity=" ^^ pretty (arg_capacity a) ^^
  " pin=" ^^ match ar_pin a with Some (p, c) => pretty p ^^ "," ^^ pretty c | None => "none" end.

(** The line of one trial with [--raw]. *)
Definition raw_line (name : string) (x : F) : string := "raw " ^^ name ^^ " " ^^ text 6 x.

Definition print_row (name : string) (s : Stats F) (mops : option F) : string :=
  left_aligned 18 name ^^ " " ^^ right_aligned 10 (text 3 (st_min s)) ^^ " " ^^
  right_aligned 10 (text 3 (st_median s)) ^^ " " ^^ right_aligned 10 (text 3 (st_mean s)) ^^ " " ^^
  right_aligned 12 (match mops with Some m => text 1 m | None => "-" end).

(** The table: the rows of the workloads that ran; [stats] of no trial panics. *)
Definition report_rows (count : Z) (u64_ms order_ms lat_ns : option (list F)) : option (list string) :=
  let mops s := f_div (f_div (of_u64 count) (st_median s)) (of_u64 1000) in
  let row (name : string) (v : option (list F)) (m : bool) : option (list string) :=
                      match v with
                      | Some v => s ← stats v; Some [print_row name s (if m then Some (mops s) else None)]
                      | None => Some []
                      end in
  r1 ← row "u64/1M" u64_ms true;
  r2 ← row "order48/1M" order_ms true;
  r3 ← row "push_pop_ns/op" lat_ns false;
  Some (r1 ++ r2 ++ r3)%list.

(** The report prints one row per workload that ran, and panics exactly when a
    workload ran zero times. *)
Lemma report_rows_count count u o l :
  match report_rows count u o l with
  | Some rows => length rows = length (omap id [u; o; l]) /\ Forall (fun v => v ≠ Some []) [u; o; l]
  | None => Exists (fun v => v = Some []) [u; o; l]
  end.
Proof.
  assert (forall v : list F, stats v = None -> v = []) as Hnone.
  { intros v Hv. destruct (decide (length v = 0)%nat) as [?%nil_length_inv|Hl]; [done|].
    destruct (proj2 (stats_some v)) as [s Hs]; [by intros ->|]. by rewrite Hs in Hv. }
  assert (forall (v : list F) s, stats v = Some s -> Some v ≠ Some []) as Hsome.
  { intros v s Hv [= ->]. destruct (proj1 (stats_some []) (ex_intro _ s Hv)). done. }
  unfold report_rows. destruct u as [u|], o as [o|], l as [l|];
    repeat match goal with |- context [stats ?v] => destruct (stats v) eqn:?; cbn [mbind option_bind] end;
    cbn [mbind option_bind]; try (split; [done|]);
    repeat first [apply List.Forall_nil | apply List.Forall_cons]; eauto; try done;
    rewrite ?Exists_cons; naive_solver.
Qed.

End clock.

(** The configuration [run_tcp] starts the gateway with. *)
Definition tcp_listen : SocketAddr := mkAddr [127; 0; 0; 1] 19000.
Definition tcp_multicast : SocketAddr := mkAddr [127; 0; 0; 1] 19001.
Definition tcp_config : GatewayConfig := Gateway.mkConfig RING_CAPACITY ARENA_CAPACITY false 100000.
