(* ===== verification/Programs.v ===== *)
(** * Programs.v: the example programs from their command line to their output

    [main] of [examples/ring_throughput.rs] with the pinning of its threads, and
    [run_direct] and [run_tcp] of [examples/loadgen.rs] with everything they
    print.  The results of system calls, the trials and the floats computed from
    elapsed times are arguments; a failed [expect] is [None]. *)

From stdpp Require Import strings pretty.
From S2P Require Import Prelude.
From S2P Require Import AllocTrack.
From S2P Require Import Metrics.
From S2P Require Import Display.
From S2P Require Import Ring.
From S2P Require Import RingMem.
From S2P Require Import Gateway.
From S2P Require Import Loadgen.
From S2P Require Import LoadgenThm.
From S2P Require Import Throughput.
From S2P Require Import Mains.
From S2P Require Import Report.

Import Throughput.

#[local] Open Scope string_scope.

(** ** [affinity::pin_current_thread] *)

(** On Linux; [sched_setaffinity] returns 0 for a mask it accepts, and
    [last_os_error] is the text of the error. *)
Definition pin_current_thread (sched_setaffinity : list Z -> Z) (last_os_error : string) (cpu : Z) : result unit string :=
  match affinity_mask cpu with
  | Err _ => Err ("cpu " ^^ pretty cpu ^^ " out of range")
  | Ok set =>
      if decide (sched_setaffinity set = 0) then Ok tt
      else Err ("sched_setaffinity(" ^^ pretty cpu ^^ ") failed: " ^^ last_os_error)
  end.

(** On Windows, where the call returns the previous mask, 0 on failure. *)
Definition pin_current_thread_windows (SetThreadAffinityMask : Z -> Z) (last_os_error : string) (cpu : Z)
  : result unit string :=
  match affinity_windows cpu with
  | Err _ => Err ("cpu " ^^ pretty cpu ^^ " out of range (one processor group only)")
  | Ok mask =>
      if decide (SetThreadAffinityMask mask ≠ 0) then Ok tt
      else Err ("SetThreadAffinityMask(" ^^ pretty cpu ^^ ") failed: " ^^ last_os_error)
  end.

Definition pin_current_thread_other (cpu : Z) : result unit string :=
  Err "thread pinning is not implemented for this platform".

(** [.expect(..)]. *)
Definition expect {A E} (r : result A E) : option A := match r with Ok a => Some a | Err _ => None end.

(** In the producer's thread; a panic there fails the [join] of the trial. *)
Definition pin_producer (pin : Z -> result unit string) (cfg : Config) : option unit :=
  match cf_producer_cpu cfg with Some cpu => expect (pin cpu) | None => Some tt end.

(** In the main thread, before anything runs. *)
Definition pin_consumer (pin : Z -> result unit string) (a : Args) : option unit :=
  match ar_pin a with Some (_, consumer_cpu) => expect (pin consumer_cpu) | None => Some tt end.

Section programs.
Context {F : Type} `{!Float F}.
Context (of_u64 : Z -> F) (f_div : F -> F -> F) (text : nat -> F -> string).

(** ** The ring benchmark *)

(** [collect] with its output: the trials of a wanted workload, and their lines
    with [--raw].  A trial is the measured time, or a panic. *)
Fixpoint trials (raw : bool) (name : string) (f : nat -> option F) (i : nat) (n : nat) : option (list F * list string) :=
  match n with
  | O => Some ([], [])
  | S n =>
      x ← f i;
      '(v, out) ← trials raw name f (S i) n;
      Some (x :: v, (if raw then raw_line text name x :: out else out))
  end.

Definition collect_trials (a : Args) (name : string) (f : nat -> option F) : option (option (list F) * list string) :=
  if want a name then
    '(v, out) ← trials (ar_raw a) name f 0 (Z.to_nat (arg_iters a));
    Some (Some v, out)
  else Some (None, []).

(** The head of the table. *)
Definition table_head : string :=
  left_aligned 18 "workload" ^^ " " ^^ right_aligned 10 "min_ms" ^^ " " ^^ right_aligned 10 "median_ms" ^^ " " ^^
  right_aligned 10 "mean_ms" ^^ " " ^^ right_aligned 12 "median_Mops".

(** [main] on the arguments after the program's name. *)
Definition throughput_main (knobs : Cfg) (ring_no_padding ring_unchecked_index : bool) (pin : Z -> result unit string)
  (run_u64 run_order run_latency : Config -> nat -> option F) (args : list string) : option (list string) :=
  a ← parse_args args args_default;
  _ ← pin_consumer pin a;
  let cfg := config_of a in
  '(u64_ms, out1) ← collect_trials a "u64" (fun i => _ ← pin_producer pin cfg; run_u64 cfg i);
  '(order_ms, out2) ← collect_trials a "order" (fun i => _ ← pin_producer pin cfg; run_order cfg i);
  '(lat_ns, out3) ← collect_trials a "latency" (run_latency cfg);
  rows ← report_rows of_u64 f_div text (arg_count a) u64_ms order_ms lat_ns;
  Some ([header_line knobs ring_no_padding ring_unchecked_index a] ++ out1 ++ out2 ++ out3 ++ [table_head] ++ rows)%list.

(** Every wanted workload is tried [iters] times. *)
Lemma trials_length raw name f i n v out :
  trials raw name f i n = Some (v, out) -> length v = n /\ length out = if raw then n else 0%nat.
Proof.
  revert i v out. induction n as [|n IH]; intros i v out; cbn [trials]; [intros [= <- <-]; by destruct raw|].
  destruct (f i); [|done]. cbn [mbind option_bind].
  destruct (trials raw name f (S i) n) as [[v1 o1]|] eqn:E; [|done]. cbn [mbind option_bind]. intros [= <- <-].
  destruct (IH _ _ _ E) as [Hv Ho]. by destruct raw; simpl; split; lia || f_equal.
Qed.

Lemma trials_total raw name f i n : (forall k, is_Some (f k)) -> is_Some (trials raw name f i n).
Proof.
  intros Hf. revert i. induction n as [|n IH]; intros i; cbn [trials]; [by eexists|].
  destruct (Hf i) as [x ->]. cbn [mbind option_bind]. destruct (IH (S i)) as [[v out] ->]. by eexists.
Qed.

Lemma collect_trials_spec a name f :
  0 < arg_iters a -> (forall k, is_Some (f k)) ->
  exists v out, collect_trials a name f = Some (v, out) /\ v ≠ Some [] /\ (is_Some v <-> want a name = true) /\
    length out = if want a name && ar_raw a then Z.to_nat (arg_iters a) else 0%nat.
Proof.
  intros Hi Hf. unfold collect_trials. destruct (want a name); [|by exists None, []].
  destruct (trials_total (ar_raw a) name f 0 (Z.to_nat (arg_iters a)) Hf) as [[v out] E]. rewrite E.
  cbn [mbind option_bind]. exists (Some v), out. apply trials_length in E as [Hv Ho]. split; [done|].
  split; [intros [= ->]; simpl in Hv; lia|]. split; [split; [done|by eexists]|]. exact Ho.
Qed.

(** The benchmark runs to its end whenever the arguments parse, the threads can
    be pinned, no trial panics and there is at least one iteration, and prints one
    line per raw trial and one row per workload between its two head lines. *)
Theorem throughput_main_runs knobs np ui pin f1 f2 f3 args a :
  parse_args args args_default = Some a -> 0 < arg_iters a ->
  (forall cpu, pin cpu = Ok tt) -> (forall cfg k, is_Some (f1 cfg k) /\ is_Some (f2 cfg k) /\ is_Some (f3 cfg k)) ->
  let wanted := length (filter (fun w => want a w = true) ["u64"; "order"; "latency"]) in
  exists lines, throughput_main knobs np ui pin f1 f2 f3 args = Some lines /\
    length lines = (2 + wanted * (if ar_raw a then S (Z.to_nat (arg_iters a)) else 1))%nat.
Proof.
  intros Ha Hi Hpin Hf wanted. unfold throughput_main. rewrite Ha. cbn [mbind option_bind].
  assert (pin_consumer pin a = Some tt) as -> by (unfold pin_consumer; destruct (ar_pin a) as [[]|]; [by rewrite Hpin|done]).
  cbn [mbind option_bind].
  assert (pin_producer pin (config_of a) = Some tt) as Hpp
    by (unfold pin_producer; destruct (cf_producer_cpu _); [by rewrite Hpin|done]).
  destruct (collect_trials_spec a "u64" (fun i => _ ← pin_producer pin (config_of a); f1 (config_of a) i) Hi)
    as (u & o1 & -> & Nu & Wu & L1); [intros k; rewrite Hpp; apply Hf|]. cbn [mbind option_bind].
  destruct (collect_trials_spec a "order" (fun i => _ ← pin_producer pin (config_of a); f2 (config_of a) i) Hi)
    as (o & o2 & -> & No & Wo & L2); [intros k; rewrite Hpp; apply Hf|]. cbn [mbind option_bind].
  destruct (collect_trials_spec a "latency" (f3 (config_of a)) Hi) as (l & o3 & -> & Nl & Wl & L3); [intros k; apply Hf|].
  cbn [mbind option_bind]. pose proof (report_rows_count of_u64 f_div text (arg_count a) u o l) as Hr.
  destruct (report_rows _ _ _ _ _ _ _) as [rows|]; [|apply Exists_exists in Hr as (v & Hv & ->); set_solver].
  destruct Hr as [Hr _]. cbn [mbind option_bind]. eexists. split; [done|].
  rewrite !length_app. cbn [length]. rewrite Hr, L1, L2, L3. subst wanted. clear -Wu Wo Wl.
  rewrite !filter_cons, filter_nil.
  assert (forall (v : option (list F)) b, (is_Some v <-> b = true) -> b = bool_decide (is_Some v)) as Hb.
  { intros v [] H; symmetry; [by apply bool_decide_eq_true_2, H|apply bool_decide_eq_false_2; intros ?%H; done]. }
  rewrite (Hb _ _ Wu), (Hb _ _ Wo), (Hb _ _ Wl).
  destruct u, o, l, (ar_raw a); simpl; lia.
Qed.

(** ** The load generator *)

Context {Hi : Type} `{!Histogram Hi}.

(** [Clock::instant] at the time [now_ns] of the monotonic clock. *)
Definition clock_instant (now_ns : Z) : Clock (F := F) := ClockInstant now_ns.

(** Everything [run_direct] prints, with the sections of the build's features:
    [metrics] carries the printed latency, [alloc] the allocation statistics. *)
Definition direct_output (d : DirectResult) (elapsed_ns : Z) (elapsed_ms throughput : F)
  (metrics : option (list string)) (alloc : option AllocStats) : list string :=
  (direct_banner ++ ["Warmup complete (" ^^ pretty (dr_warmup d) ^^ " orders)"] ++
   direct_results text d elapsed_ns elapsed_ms throughput ++
   match metrics with
   | Some latency =>
       (if decide (elapsed_ns > 0)
        then ["  (throughput includes two clock reads per order for the histogram)"] else []) ++ "" :: latency
   | None => []
   end ++
   match alloc with Some stats => alloc_report stats | None => [] end)%list.

(** The first lines of [run_tcp]. *)
Definition tcp_banner : list string :=
  ["Ferrox Load Generator — TCP Pipeline Mode"; "  Orders: " ^^ pretty ORDER_COUNT; ""].

Definition tcp_output (received send_ns : Z) (send_ms throughput recv_ms avg_ns : F) : list string :=
  (tcp_banner ++ tcp_results text ORDER_COUNT received send_ns send_ms throughput recv_ms avg_ns)%list.

(** Whatever is measured, the direct mode names the warm-up and the orders it
    processed: with the flow of the source all but the warm-up, none missing. *)
Lemma direct_output_counts n warmup ring_capacity arena_capacity ns ms tp metrics alloc :
  is_power_of_two ring_capacity = true -> ring_capacity < 2 ^ 64 -> 0 <= arena_capacity < 2 ^ 31 ->
  Z.of_nat n <= arena_capacity -> Z.of_nat n <= ring_capacity -> (warmup <= n)%nat ->
  exists d, run_direct n warmup ring_capacity arena_capacity = Some d /\
    "Warmup complete (" ^^ pretty (Z.of_nat warmup) ^^ " orders)" ∈ direct_output d ns ms tp metrics alloc /\
    "  Measured orders : " ^^ pretty (Z.of_nat (n - warmup)) ∈ direct_output d ns ms tp metrics alloc.
Proof.
  intros. destruct (direct_mode_completes n warmup ring_capacity arena_capacity) as (fills & Hr & _); [done..|].
  eexists. split; [exact Hr|]. unfold direct_output, direct_results. cbn [dr_warmup dr_measured].
  rewrite !elem_of_app, !elem_of_cons. split; [right; left; by left|]. right. right. left. left. right. right. by left.
Qed.

End programs.
