(* ===== verification/TcpMode.v ===== *)
(** * TcpMode.v: the load generator against the server

    [run_tcp] of [examples/loadgen.rs] from end to end: its byte stream
    ([Loadgen]) through [handle_client] ([Gateway]), the ring and the two threads
    of the server ([Server]) and the matching loop, to the datagrams the receive
    loop counts.  The interleaving of the threads is any of [Server]'s; UDP may
    lose datagrams.  Elapsed times are left out. *)

From stdpp Require Import strings.
From S2P Require Import Prelude.
From S2P Require Import Order.
From S2P Require Import Arena.
From S2P Require Import ArenaInv.
From S2P Require Import Book.
From S2P Require Import BookSpec.
From S2P Require Import BookInv.
From S2P Require Import Matching.
From S2P Require Import MatchingSpec.
From S2P Require Import MatchingInv.
From S2P Require Import Protocol.
From S2P Require Import ProtocolInv.
From S2P Require Import Engine.
From S2P Require Import Snapshot.
From S2P Require Import Ring.
From S2P Require Import RecoveryThm.
From S2P Require Import Gateway.
From S2P Require Import GatewayInv.
From S2P Require Import Server.
From S2P Require Import ServerInv.
From S2P Require Import ServerThm.
From S2P Require Import Loadgen.
From S2P Require Import LoadgenThm.
From S2P Require Import Report.

Section tcp.
Context {C : Codec}.

(** A run of [run_tcp] for [n] pairs: the commands the reader pushed, the state of
    the matching thread when it ended, and the reports received.  [received] is
    how each [recv_from] went; a datagram arrives at most once. *)
Inductive run_tcp (n : nat) (clock : nat -> option Z) : list EngineCommand -> GwState -> Z -> Prop :=
| run_tcp_ends stream cmds sh st s st' received :
    tcp_stream n = Some stream ->
    handle_client (S (length stream)) stream UnexpectedEof clock 0 = Some (cmds, sh, Ok tt) ->
    run_setup tcp_config None [] true true true = Some st ->
    server_reach (gc_ring_capacity tcp_config) cmds s -> s_phase s = Finished ->
    matching_loop (gc_snapshot_interval tcp_config) (s_trace s) false st = Some (st', true) ->
    (length (filter (eq true) received) <= length (g_sent st'))%nat ->
    run_tcp n clock cmds st' (recv_count received).

(** ** Fills of the flow *)

(** An ask that meets no bid leaves no bid and fills nothing. *)
Lemma ask_fills_nothing cap sp o :
  sp_bids sp = [] -> o_side o = Ask ->
  let '(sp', r) := spec_exec cap sp (NewOrder o) in sp_bids sp' = [] /\ response_fills (NewOrder o) r = [].
Proof.
  intros Hb Hs. cbn [spec_exec]. unfold spec_add. case_decide; [done|]. rewrite Hs. cbn [opposite sp_side]. rewrite Hb.
  cbn [spec_match]. case_decide; [done|]. unfold spec_insert.
  repeat case_decide; cbn; done || (split; [by rewrite Hs|done]).
Qed.

Lemma published_cons cap sp c cs :
  length (published (c :: cs) (snd (spec_run cap sp (c :: cs)))) =
    (length (response_fills c (snd (spec_exec cap sp c))) +
     length (published cs (snd (spec_run cap (fst (spec_exec cap sp c)) cs))))%nat.
Proof.
  destruct (spec_run_cons cap sp c cs) as [_ ->]. unfold published. cbn [zip_with concat]. apply length_app.
Qed.

Lemma ten_exec cap sp c :
  all_tens (sp_all sp) -> is_ten c ->
  all_tens (sp_all (fst (spec_exec cap sp c))) /\ (length (response_fills c (snd (spec_exec cap sp c))) <= 1)%nat.
Proof.
  intros Ht Hc. destruct c as [o|]; [|done]. pose proof (spec_add_tens cap sp o Ht (proj2 Hc)) as Ha. cbn [spec_exec].
  destruct (spec_add cap sp o) as [[sp' fs] r]. destruct Ha as [Ht' Hr]. split; [exact Ht'|].
  destruct r as [res|]; cbn; [by rewrite length_fmap|lia].
Qed.

Lemma bids_fill_once cap cs sp :
  all_tens (sp_all sp) -> Forall is_ten cs ->
  (length (published cs (snd (spec_run cap sp cs))) <= length cs)%nat.
Proof.
  intros Ht Hcs. revert sp Ht. induction Hcs as [|c cs Hc _ IH]; intros sp Ht; [done|].
  rewrite published_cons. destruct (ten_exec cap sp c Ht Hc) as [Ht' Hl]. specialize (IH _ Ht'). cbn [length]. lia.
Qed.

Definition is_ask (c : EngineCommand) : Prop := match c with NewOrder o => o_side o = Ask | CancelOrder _ => False end.

(** At most one fill per bid. *)
Lemma flow_fills cap asks bids sp :
  all_tens (sp_all sp) -> sp_bids sp = [] -> Forall is_ask asks -> Forall is_ten (asks ++ bids) ->
  (length (published (asks ++ bids) (snd (spec_run cap sp (asks ++ bids)))) <= length bids)%nat.
Proof.
  intros Ht Hb Ha. revert sp Ht Hb. induction Ha as [|c asks Hask _ IH]; intros sp Ht Hb Hc; [by apply bids_fill_once|].
  cbn [app] in *. apply Forall_cons in Hc as [Hten Hc]. rewrite published_cons.
  destruct (ten_exec cap sp c Ht Hten) as [Ht' _]. destruct c as [o|]; [|done].
  pose proof (ask_fills_nothing cap sp o Hb Hask) as Hno.
  destruct (spec_exec cap sp (NewOrder o)) as [sp' r]. destruct Hno as [Hb' Hr]. cbn [fst snd] in *. rewrite Hr.
  by apply IH.
Qed.

(** The commands the reader pushes: the orders of the flow in the order sent, each
    with the time at which it was read. *)
Definition flow (n : nat) (clock : nat -> option Z) : list EngineCommand :=
  (fun k => NewOrder (set_timestamp (now_nanos (clock k)) (flow_order n k))) <$> seq 0 (n + n).

Lemma flow_commands n clock :
  Z.of_nat n < 2 ^ 61 ->
  exists stream asks bids, tcp_stream n = Some stream /\ flow n clock = asks ++ bids /\
    handle_client (S (length stream)) stream UnexpectedEof clock 0 = Some (flow n clock, true, Ok tt) /\
    length bids = n /\ Forall is_ask asks /\ Forall is_ten (asks ++ bids).
Proof.
  intros Hn. destruct (tcp_stream_decodes n clock Hn) as (stream & Hs & Hty & Hh).
  set (cmds := (fun k => NewOrder (flow_order n k)) <$> seq 0 (n + n)) in *.
  assert (imap (fun k c => stamp (now_nanos (clock k)) c) cmds = flow n clock) as Eflow.
  { apply list_eq. intros k. unfold flow, cmds. rewrite list_lookup_imap, !list_lookup_fmap.
    destruct (seq 0 (n + n) !! k) as [x|] eqn:E; [|done]. apply lookup_seq in E as [-> _]. done. }
  rewrite Eflow in Hh. exists stream, (take n (flow n clock)), (drop n (flow n clock)). rewrite take_drop.
  assert (length (flow n clock) = (n + n)%nat) as Hl by (unfold flow; by rewrite length_fmap, length_seq).
  assert (forall k c, flow n clock !! k = Some c ->
            c = NewOrder (set_timestamp (now_nanos (clock k)) (flow_order n k))) as Hk.
  { intros k c Hc. unfold flow in Hc. rewrite list_lookup_fmap in Hc.
    destruct (seq 0 (n + n) !! k) as [x|] eqn:E; [|done]. apply lookup_seq in E as [-> _]. by injection Hc as <-. }
  split; [done|]. split; [done|]. split; [done|]. split; [rewrite length_drop; lia|]. split.
  - apply Forall_lookup. intros k c Hc. apply lookup_take_Some in Hc as [Hc Hlt]. rewrite (Hk k c Hc).
    unfold flow_order. by rewrite decide_True.
  - apply Forall_lookup. intros k c Hc. rewrite <- Eflow, list_lookup_imap in Hc.
    destruct (cmds !! k) as [c0|] eqn:E; [|done]. simpl in Hc. injection Hc as <-.
    pose proof (Forall_lookup_1 _ _ _ _ Hty E) as Ht0.
    assert (command_typed (stamp (now_nanos (clock k)) c0)) as Hst by (apply stamp_typed; [apply wrap_range; lia|done]).
    unfold cmds in E. rewrite list_lookup_fmap in E. destruct (seq 0 (n + n) !! k) as [x|]; [|done]. injection E as <-.
    split; [apply Hst|]. unfold flow_order. by case_decide.
Qed.

Lemma ring_created cap :
  is_power_of_two cap = true -> exists r p c, ring_buffer (T := EngineCommand) cap = Some (r, p, c).
Proof.
  intros Hpow. unfold ring_buffer. rewrite Hpow. unfold is_power_of_two in Hpow.
  apply andb_prop in Hpow as [Hp%bool_decide_eq_true _]. rewrite decide_True by lia. by eexists _, _, _.
Qed.

Lemma recv_count_bound received : 0 <= recv_count received <= Z.of_nat (length (filter (eq true) received)).
Proof.
  induction received as [|[] received IH]; cbn [recv_count]; [done| |].
  - rewrite filter_cons_True by done. cbn [length]. lia.
  - lia.
Qed.

Lemma tcp_capacities : gc_ring_capacity tcp_config < 2 ^ 64 /\ 0 <= gc_arena_capacity tcp_config < 2 ^ 32.
Proof. vm_compute. repeat split; done. Qed.

Lemma tcp_setup : exists st, run_setup tcp_config None [] true true true = Some st /\
  st = mkGw (MatchingEngine.with_capacity (gc_arena_capacity tcp_config)) None None 0 (replicate EXECUTION_REPORT_SIZE 0) 0 [].
Proof. eexists. split; reflexivity. Qed.
End tcp.

(** C36. The load generator and the server together: for any number of pairs and
    any clock, the bytes [run_tcp] sends are decoded into exactly the orders of
    the flow (ids, sides, prices and quantities), in the order sent, each stamped
    with the time it was read; some interleaving of the server's threads brings
    the run to its end, and in every run that has ended the book is the one the
    specification gives for these orders, and at most one report per pair was
    published, so no more are received. *)
Theorem tcp_mode_end_to_end (C : Codec) n clock :
  CodecLaws C -> Z.of_nat n < 2 ^ 61 ->
  (exists st', forall received, (length (filter (eq true) received) <= length (g_sent st'))%nat ->
     run_tcp n clock (flow n clock) st' (recv_count received)) /\
  forall cmds st' received, run_tcp n clock cmds st' received ->
    cmds = flow n clock /\
    represents (e_book (g_engine st')) (fst (spec_run (gc_arena_capacity tcp_config) sp_empty (flow n clock))) /\
    (length (g_sent st') <= n)%nat /\ 0 <= received <= Z.of_nat n.
Proof.
  intros Laws Hn. destruct (flow_commands n clock Hn) as (stream & asks & bids & Hs & Ef & Hh & Hb & Hask & Hten).
  destruct tcp_capacities as [Hring Harena]. destruct tcp_setup as (st0 & Hst & Est).
  assert (Forall command_in_range (flow n clock)) as Hty.
  { rewrite Ef. eapply Forall_impl; [exact Hten|]. intros [o|id]; [by intros []|done]. }
  pose proof (fun s => server_executed (gc_ring_capacity tcp_config) (gc_arena_capacity tcp_config)
    (gc_snapshot_interval tcp_config) (flow n clock) s Hring Harena Hty) as Hex.
  split.
  - destruct (ring_created (gc_ring_capacity tcp_config)) as (r & p & c & Er); [reflexivity|].
    pose proof (server_reach_start _ (flow n clock) _ (server_started _ _ r p c Er)) as R0.
    destruct (server_reach_finished _ _ _ Hring R0) as (s & R & Hf). destruct (Hex s R Hf) as (_ & st' & Hl & _).
    exists st'. intros received Hrec. rewrite <- Est in Hl. by eapply run_tcp_ends.
  - intros cmds st' k Hrun. destruct Hrun as [stream' cmds sh st s st' received Hs' Hh' Hst' R Hf Hl Hrec].
    rewrite Hs in Hs'. injection Hs' as <-. rewrite Hh in Hh'. injection Hh' as <- _.
    rewrite Hst in Hst'. apply (inj Some) in Hst' as <-. rewrite Est in Hl.
    destruct (Hex s R Hf) as (_ & st2 & Hl2 & Hrep & Hsent). rewrite Hl in Hl2.
    assert (st' = st2) as -> by congruence. split; [done|]. split; [done|].
    rewrite Ef in Hsent.
    pose proof (flow_fills (gc_arena_capacity tcp_config) asks bids sp_empty ltac:(constructor) eq_refl Hask Hten).
    pose proof (recv_count_bound received). split; lia.
Qed.

(** Two pairs: an ask and a bid at each of two prices. *)
Lemma tcp_mode_end_to_end_witness :
  exists st', let cmds := [NewOrder (mkOrder 1 1 Ask 10000 10 0); NewOrder (mkOrder 2 2 Ask 10001 10 1);
                           NewOrder (mkOrder 3 3 Bid 10000 10 2); NewOrder (mkOrder 4 4 Bid 10001 10 3)] in
    run_tcp (C := demo_codec) 2 (fun k => Some (Z.of_nat k)) cmds st' 0 /\
    represents (e_book (g_engine st')) (fst (spec_run (gc_arena_capacity tcp_config) sp_empty cmds)) /\
    (length (g_sent st') <= 2)%nat.
Proof.
  destruct (tcp_mode_end_to_end demo_codec 2 (fun k => Some (Z.of_nat k)) demo_laws ltac:(lia)) as [(st' & Hrun) Hall].
  specialize (Hrun [false] ltac:(simpl; lia)). destruct (Hall _ _ _ Hrun) as (_ & Hr & Hs & _).
  assert (flow 2 (fun k => Some (Z.of_nat k)) =
    [NewOrder (mkOrder 1 1 Ask 10000 10 0); NewOrder (mkOrder 2 2 Ask 10001 10 1);
     NewOrder (mkOrder 3 3 Bid 10000 10 2); NewOrder (mkOrder 4 4 Bid 10001 10 3)]) as E by reflexivity.
  rewrite E in Hrun, Hr. exists st'. split; [exact Hrun|]. split; [exact Hr|exact Hs].
Defined.
