(* ===== verification/GatewayTests.v ===== *)
(** * GatewayTests.v: the unit tests of [src/gateway.rs]

    Sockets deliver what was written; the schedule of the matching thread (what
    [pop] returns and when the flag is seen) and the clock are arbitrary.  The
    two tests about the memory layout and thread safety of [EngineCommand] are
    the business of the compiler. *)

From stdpp Require Import strings.
From S2P Require Import Prelude.
From S2P Require Import Order.
From S2P Require Import Book.
From S2P Require Import BookSpec.
From S2P Require Import Matching.
From S2P Require Import MatchingSpec.
From S2P Require Import MatchingInv.
From S2P Require Import Protocol.
From S2P Require Import ProtocolInv.
From S2P Require Import Engine.
From S2P Require Import Wal.
From S2P Require Import WalInv.
From S2P Require Import Snapshot.
From S2P Require Import SnapshotInv.
From S2P Require Import Recovery.
From S2P Require Import RecoveryInv.
From S2P Require Import Ring.
From S2P Require Import Gateway.
From S2P Require Import GatewayInv.
From S2P Require Import Testing.
From S2P Require Import ProtocolTests.
From S2P Require Import WalTests.
From S2P Require Import RingTests.
From S2P Require Import Mains.

Definition gateway_config_defaults : option unit :=
  let config := GatewayConfig_default in
  assert_eq (sa_port default_listen_addr) 9000;;
  assert_eq (sa_port default_multicast_addr) 9001;;
  assert_eq (gc_ring_capacity config) 65536;;
  assert_eq (gc_arena_capacity config) 1048576;;
  assert_eq (gc_data_dir config) false;;
  assert_eq (gc_snapshot_interval config) 10000.

(** [handle_client(stream, &mut producer, shutdown).unwrap()] on what the client
    wrote before it closed the connection: the commands pushed. *)
Definition client_pushes (bytes : list Z) (clock : nat -> option Z) : option (list EngineCommand) :=
  '(cmds, _, r) ← handle_client (S (length bytes)) bytes UnexpectedEof clock 0;
  _ ← unwrap r;
  Some cmds.

Definition tcp_to_ring_roundtrip (clock : nat -> option Z) : option unit :=
  s ← ring_buffer (T := EngineCommand) 64;
  let order := mkOrder 42 7 Bid 15005 100 0 in
  buf ← encoded (encode_new_order (zeros NEW_ORDER_SIZE) order);
  cmds ← client_pushes buf clock;
  s ← push_all s cmds;
  '(s, cmd) ← call do_pop s (Some tt);
  match cmd with
  | NewOrder order =>
      assert_eq (o_id order) 42;;
      assert_eq (o_trader_id order) 7;;
      assert_eq (o_side order) Bid;;
      assert_eq (o_price order) 15005;;
      assert_eq (o_quantity order) 100;;
      assert_that (bool_decide (o_timestamp order > 0))
  | _ => None
  end.

(** The test passes when the clock is past the epoch. *)
Lemma tcp_to_ring_roundtrip_passes clock t :
  clock 0%nat = Some t -> 0 < t < 2 ^ 64 -> tcp_to_ring_roundtrip clock = Some tt.
Proof.
  intros Hc Ht. unfold tcp_to_ring_roundtrip.
  change (encoded (encode_new_order (zeros NEW_ORDER_SIZE) (mkOrder 42 7 Bid 15005 100 0)))
    with (Some (new_order_bytes (mkOrder 42 7 Bid 15005 100 0))).
  assert (client_pushes (new_order_bytes (mkOrder 42 7 Bid 15005 100 0)) clock =
    Some [NewOrder (mkOrder 42 7 Bid 15005 100 t)]) as Hp.
  { unfold client_pushes. change (handle_client _ _ _ clock 0)
      with (Some ([NewOrder (mkOrder 42 7 Bid 15005 100 (now_nanos (clock 0%nat)))], true, Ok tt : result unit GatewayError)).
    cbn [mbind option_bind unwrap]. rewrite Hc. unfold now_nanos. cbn [default from_option id].
    by rewrite wrap_small by lia. }
  change (ring_buffer (T := EngineCommand) 64) with (Some (mkInner (T := EngineCommand) (replicate 64 None) 64 63 (atomic_new 0) (atomic_new 0),
    mkProducer 0 0 0, mkConsumer 0 0 0)).
  cbn [mbind option_bind]. rewrite Hp.
  change (assert_that (bool_decide (t > 0)) = Some tt). apply assert_that_pass, bool_decide_eq_true_2. lia.
Qed.

Section tests.
Context {C : Codec}.

Definition ask_order : Order := mkOrder 1 10 Ask 100 50 0.
Definition bid_order : Order := mkOrder 2 20 Bid 100 50 0.

(** [udp_recv.recv_from(&mut report_buf).unwrap()] of the datagrams sent so far. *)
Definition first_report (st : GwState) : option ExecutionReport :=
  d ← g_sent st !! 0%nat;
  assert_eq (length d) EXECUTION_REPORT_SIZE;;
  unwrap (decode_execution_report d).

(** The matching thread runs over [events] until it ends; the commands it takes
    are those the reader pushed. *)
Definition full_pipeline_integration (clock : nat -> option Z) (events : list LoopEvent) : option unit :=
  a ← encoded (encode_new_order (zeros NEW_ORDER_SIZE) ask_order);
  b ← encoded (encode_new_order a bid_order);
  cmds ← client_pushes (a ++ b) clock;
  assert_eq (commands (consumed events false)) cmds;;
  '(st, ended) ← matching_loop 10000 events false
    (mkGw (MatchingEngine.with_capacity 1024) None None 0 (zeros EXECUTION_REPORT_SIZE) 0 []);
  assert_that ended;;
  report ← first_report st;
  assert_eq (er_seq_num report) 1;;
  assert_eq (er_taker_order_id report) 2;;
  assert_eq (er_maker_order_id report) 1;;
  assert_eq (er_price report) 100;;
  assert_eq (er_quantity report) 50;;
  assert_that (bool_decide (er_timestamp report > 0)).

Definition persisted_ask : EngineCommand := NewOrder (mkOrder 1 10 Ask 100 50 1000000).
Definition persisted_bid : EngineCommand := NewOrder (mkOrder 2 20 Bid 100 50 2000000).

Definition matching_loop_with_persistence (events : list LoopEvent) : option unit :=
  wal ← opened crc32 [];
  assert_eq (commands (consumed events false)) [persisted_ask; persisted_bid];;
  '(st, ended) ← matching_loop 10000 events false
    (mkGw (MatchingEngine.with_capacity 1024) (Some wal) (Some ∅) 0 (zeros EXECUTION_REPORT_SIZE) 0 []);
  assert_that ended;;
  wal ← g_wal st;
  wal ← opened crc32 (w_file wal);
  assert_eq (record_count wal) 2;;
  report ← first_report st;
  assert_eq (er_seq_num report) 1;;
  assert_eq (er_quantity report) 50.

Context {L : CodecLaws C}.

(** What the two orders publish. *)
Lemma two_orders_published t1 t2 :
  let cs := [NewOrder (mkOrder 1 10 Ask 100 50 t1); NewOrder (mkOrder 2 20 Bid 100 50 t2)] in
  published cs (snd (spec_run 1024 sp_empty cs)) = [(mkFill 2 1 100 50 true, t2)].
Proof. reflexivity. Qed.

Lemma first_report_spec st t rest :
  is_u64 t -> g_sent st = report_stream 0 ((mkFill 2 1 100 50 true, t) :: rest) ->
  first_report st = Some (mkReport 1 2 1 100 50 t).
Proof.
  intros Ht Hs. unfold first_report. rewrite Hs. unfold report_stream. cbn [imap lookup list_lookup mbind option_bind].
  change (wrap 32 (0 + 1 + Z.of_nat 0)) with 1.
  rewrite assert_eq_pass by apply length_report_bytes. cbn [mbind option_bind].
  rewrite <- (app_nil_r (report_bytes _ _ _)), decode_report_bytes; [reflexivity|..];
    cbn [f_taker_order_id f_maker_order_id f_price f_quantity]; unfold_ranges; lia || done.
Qed.

(** The matching thread runs until it ends and everything it could take is a
    command with fields in range. *)
Definition schedule (events : list LoopEvent) : Prop :=
  ends events false = true /\ Forall command_in_range (commands events).

Lemma two_messages clock t1 t2 :
  clock 0%nat = Some t1 -> clock 1%nat = Some t2 -> is_u64 t1 -> is_u64 t2 ->
  client_pushes (new_order_bytes ask_order ++ new_order_bytes bid_order) clock =
  Some [NewOrder (mkOrder 1 10 Ask 100 50 t1); NewOrder (mkOrder 2 20 Bid 100 50 t2)].
Proof.
  intros H1 H2 R1 R2. unfold client_pushes. change (handle_client _ _ _ clock 0) with
    (Some ([NewOrder (mkOrder 1 10 Ask 100 50 (now_nanos (clock 0%nat)));
            NewOrder (mkOrder 2 20 Bid 100 50 (now_nanos (clock 1%nat)))], true, Ok tt : result unit GatewayError)).
  cbn [mbind option_bind unwrap]. rewrite H1, H2. unfold now_nanos. cbn [default from_option id].
  by rewrite !wrap_small by (unfold is_u64 in *; lia).
Qed.

Lemma full_pipeline_integration_passes clock events t1 t2 :
  clock 0%nat = Some t1 -> clock 1%nat = Some t2 -> is_u64 t1 -> is_u64 t2 -> 0 < t2 -> schedule events ->
  commands (consumed events false) = [NewOrder (mkOrder 1 10 Ask 100 50 t1); NewOrder (mkOrder 2 20 Bid 100 50 t2)] ->
  full_pipeline_integration clock events = Some tt.
Proof.
  intros H1 H2 R1 R2 Hpos [Hend Hrange] Hcs. unfold full_pipeline_integration.
  change (encoded (encode_new_order (zeros NEW_ORDER_SIZE) ask_order)) with (Some (new_order_bytes ask_order)).
  cbn [mbind option_bind].
  change (encoded (encode_new_order (new_order_bytes ask_order) bid_order)) with (Some (new_order_bytes bid_order)).
  cbn [mbind option_bind]. rewrite (two_messages clock t1 t2 H1 H2 R1 R2). cbn [mbind option_bind].
  etransitivity; [apply assert_eq_seq; exact Hcs|].
  set (st0 := mkGw _ _ _ _ _ _ _).
  assert (gw_inv 1024 st0 sp_empty []) as I0 by (split; [by apply with_capacity_inv|done..]).
  destruct (matching_loop_spec 1024 10000 events false st0 _ _ I0 Hrange) as (st & fs & Hl & _ & Hsent).
  rewrite Hl, Hend. cbn [mbind option_bind assert_that]. rewrite Hcs, two_orders_published in Hsent. cbn [app] in Hsent.
  rewrite (first_report_spec st t2 [] R2 Hsent). cbn [mbind option_bind].
  change (assert_that (bool_decide (t2 > 0)) = Some tt). apply assert_that_pass, bool_decide_eq_true_2. lia.
Qed.

Lemma matching_loop_with_persistence_passes events :
  schedule events -> appends_succeed events -> Z.of_nat (length (commands events)) < 10 ^ 10 ->
  commands (consumed events false) = [persisted_ask; persisted_bid] ->
  matching_loop_with_persistence events = Some tt.
Proof.
  intros [Hend Hrange] Hio Hlen Hcs. unfold matching_loop_with_persistence.
  destruct (opened_fresh crc32 crc32_range) as (w & -> & R). cbn [mbind option_bind].
  etransitivity; [apply assert_eq_seq; exact Hcs|].
  set (st0 := mkGw _ _ _ _ _ _ _).
  assert (gw_inv 1024 st0 sp_empty (command_frame <$> [])) as I0 by (split; [by apply with_capacity_inv|exact R|done..]).
  destruct (matching_loop_spec 1024 10000 events false st0 _ _ I0 Hrange) as (st & fs & Hl & _ & Hsent).
  destruct (durable_loop 1024 10000 events false st0 [] sp_empty I0 eq_refl) as (st' & sp' & Hl' & I' & _ & Hw & _);
    [by eexists|exists ∅; split; [done|apply dir_ok_empty]|done|done|done|].
  rewrite Hl in Hl'. injection Hl' as <-. rewrite Hcs in I', Hsent. cbn [app] in I'.
  rewrite Hl, Hend. cbn [mbind option_bind assert_that].
  pose proof (gi_wal _ _ _ _ I') as R'. unfold log_holds in R'. destruct Hw as [w' Hw']. rewrite Hw' in R' |- *.
  cbn [mbind option_bind]. destruct (opened_again crc32 crc32_range w' _ R') as (w2 & -> & R2). cbn [mbind option_bind].
  etransitivity; [apply assert_eq_seq; exact (wr_count _ _ _ R2)|].
  unfold persisted_ask, persisted_bid in Hsent. rewrite two_orders_published in Hsent. cbn [app] in Hsent.
  rewrite (first_report_spec st 2000000 [] ltac:(unfold is_u64; lia) Hsent). reflexivity.
Qed.
End tests.
